(* ===== verification/_CoqProject ===== *)
-Q . S2P
Prelude.v
Helpers.v
OrdMap.v
Objects.v
AllocTable.v
ConnGraph.v
Commit.v
CleanBatch.v
Shadow.v
Batch.v
Session.v
Memory.v
StatePacker.v
StateOptimizer.v
UserPatcher.v
Patching.v
Callstack.v
UniqueIds.v
Wrapper.v
MemTrace.v
RunData.v
Teardown.v
Queues.v
PostProcess.v
DebugInfo.v
Advice.v
Types.v
CallGraph.v
TouchSame.v
Guards.v
Visitor.v
ROIs.v
Instrument.v
Selection.v
Prepare.v
Placement.v
Instrumented.v
Pass.v
Compile.v
