(* ===== verification/Prelude.v ===== *)
(** * CARMOT: a verification development

    CARMOT tells a programmer how the memory of a region of interest (ROI) is used.
    A compiler pass adds calls to a program; the instrumented program reports its
    allocations and accesses to a run time, which puts every allocation into one of
    the sets input, output, cloneable and transfer (I, O, CO, TO and their
    combinations) for each region; tools turn the saved sets into advice.

    ** The parts, and the files that model them

    All paths are under src/.  Definitions have the names of the source.

    Run time (extra/texas/src/runtime):
    - Helpers.v: operation codes, address arithmetic (HelperFunctions).
    - Objects.v: [Allocation], [State], and the store the pointers to them lead to.
    - OrdMap.v, AllocTable.v: [std::map]; [AllocationTable] with its mask table.
    - ConnGraph.v: the graph of escapes and the reference cycles (AllocationTable.cpp).
    - Commit.v: [commitStateInfo], [CommitState], the report (State.cpp).
    - CleanBatch.v: [cleanBatch] of texas.cpp, the automaton that classifies accesses.
    - Shadow.v: the handlers that apply a cleaned batch (Shadow.cpp).
    - Batch.v: the calls of texas.cpp the program makes, served serially.
    - Session.v: whole runs of a program, from its calls to the final sets.
    - Queues.v: the threads that serve the batches, as step relations.
    - Memory.v, StatePacker.v, StateOptimizer.v: laying out the blocks of a state anew
      (state_packer.c, state_optimizer.cpp).
    - UserPatcher.v, Patching.v: moving blocks under a running program
      (user_patcher.c, patching.cpp).

    Wrappers (include):
    - Callstack.v, UniqueIds.v: callstacks, their caches and their identifiers
      (utils.cpp, wrapper.cpp).
    - Wrapper.v: the functions the instrumented program calls, over the type class
      [Texas] of what they need from the run time (wrapper.cpp, pin_interface.cpp).
    - MemTrace.v: the PIN tool that watches library code (utils/MemTrace/memtrace.cpp),
      and the loop by which the program fetches what it found.
    - RunData.v: what is saved at exit; Batch.v implements [Texas] here.
    - Teardown.v: the release of the tables of callstacks after that.

    Before the pass (utils):
    - Prepare.v: marking the functions that reach a region
      (tag_functions_with_opt_none, remove_optnone) and finding, by a trial on clones,
      the regions with an induction variable (clone_function_roi,
      promote_cloned_function_allocas, check_for_induction_variables).

    The pass (src):
    - Types.v: sizes of variables (CatPass.cpp).
    - CallGraph.v: which functions to instrument, and their callstack calls
      (CatPass.cpp, ClusterCallstackInstrumentation.cpp).
    - TouchSame.v: accesses an earlier access makes redundant (TouchSameObject.cpp).
    - Guards.v: the blocks that decide at run time whether to report (OnlyRead.cpp,
      DirectState.cpp, Invariant.cpp, MostlyInvariant.cpp).
    - Visitor.v: the module as the pass sees it, and what it collects from it.
    - ROIs.v: the regions of interest of a module and their bookkeeping
      (ROIManager.cpp).
    - Selection.v: the accesses the six optimisations take over (OnlyRead.cpp,
      DirectState.cpp, Invariant.cpp, MostlyInvariant.cpp, Induction.cpp,
      BaseAddressMostlyInvariant.cpp).
    - Instrument.v: the stages that insert calls; Placement.v and Instrumented.v say
      where each inserted call ends up; Pass.v is the pass with the results of the
      analyses as arguments, Compile.v the pass with its analyses.

    Tools (utils/prettyPrint):
    - DebugInfo.v: the file of source positions, written by the pass and read by the
      tools, and what the tools print.
    - Advice.v: the tools that quote lines of the source (get-criticalsection,
      get-accelerator).
    - PostProcess.v: joining the sets, get-ward's check and percentage.

    ** How the parts meet

    The marks of Prepare.v say which functions the pass looks into ([f_hasOptimizeLocals]
    of Visitor.v) and which regions Selection.v may treat as direct states.
    The pass gives every access and allocation an identifier and writes the position
    it stands for (Visitor.v, DebugInfo.v); the inserted calls pass the identifier to
    the wrappers (Instrument.v, Wrapper.v), which pair it with a callstack
    (UniqueIds.v) and call the run time (Batch.v).  That fills a batch; a full batch
    is cleaned (CleanBatch.v) and applied to the table (Shadow.v, AllocTable.v) by the
    worker thread (Queues.v).  At exit the states are committed (Commit.v) and saved
    (RunData.v), joined (PostProcess.v) and printed with the positions (DebugInfo.v,
    Advice.v).

    ** What is proved

    - The table: a search finds the block that covers the address and nothing else;
      insertions and removals change exactly the searches in their block.
    - Classification: the automaton computes, entry by entry, the class that a
      definition over the history of invocations gives an address; a cleaned batch
      has that class at every access; a processed access is recorded for its region
      and all enclosing ones, and after a commit it is in the set of its class.
    - Runs: a program that allocates blocks and runs a region in batches that are not
      full ends, whatever [malloc] left in the slots it does not fill, and an offset is
      in a final set if and only if that is its class in one of the contexts of the run.
    - Regions: every sequence of calls keeps them a forest; leaving a new region
      makes the surrounding one active again.
    - Threads: every interleaving of the program and the worker ends, and ends as the
      serial run does, unless the statistics of the regions are measured or a region is
      entered for the first time (the calls the actions do not cover); the pipeline
      serves batches in the order they were filled.
    - Graph and cycles; layout, moves and redirected pointers of the packer and the
      patcher; caches as list refinements; round trips of identifiers and positions;
      every callstack object has one owner, and the exit deletes none twice.
    - The wrappers: over visits of regions that are not nested, the run time is given
      the first load and the first store of every address of a visit, which have the
      class of all accesses.
    - The pass: the visitor collects exactly what it should, and numbers exactly what
      it collects; every stage checks the module as a Debug build does; an instrumented program
      without what was inserted is the program; on a well-formed module the pass
      succeeds and each block reports exactly its selected accesses, in order, each
      right after the access, under an identifier that leads to its position;
      variables are removed before a return; [main] starts with the prologue.
    - The pass with its analyses: on a program whose regions follow the expected
      pattern, every access a region can run is reported right after it or has a
      guard that leads to its report, unless it repeats an earlier access or is
      bookkeeping; and every call that reports, in a guard too, has its access.
    - Preparation: the functions marked for the pass are those that reach a region; the
      trial on clones leaves the program as it was apart from marks, and marks the
      regions whose clone has a computable induction variable.
    - Advice: each text of a use of transferred memory is printed once, with a position
      it has; when the character of a column is read in bounds.
    - The PIN tool: a session stays within the log and delivers every call of [malloc]
      and [free] and, in order, every address outside of the stack that the executed
      traces touched which were compiled while the tool was on.
    - Optimisations: the searches end, no access is taken by two of them, an access that
      is left out as a repetition follows, on every path, one that is not left out;
      guards report what their state machines say.
    - Errors: the theorems and lemmas about failing inputs say when the code aborts,
      reads out of range or loses data; the manifest lists them as findings.

    ** Conventions, bounds and fuel

    A machine word is a [Z] in [0, 2^64) with its wrap-around written out ([+₆₄],
    [-₆₄]).  Abnormal ends (abort, a null dereference, an index out of range) are
    [None].  Loops over a list are [mfoldl].  Recursion that is not structural takes
    a fuel: the number of regions for the parents of a region (no chain of a forest
    is longer), the number of functions for the call graph (each is visited once),
    the number of instructions for the searches through phi nodes and operands, the
    number of edges of the temporal graph; each has a theorem that the fuel is
    enough.

    Parameters stand for code that is not in the repository: LLVM's and NOELLE's
    answers about a module and changes to it (in Prepare.v a class with laws), NOELLE's
    data-flow engine (TouchSame.v: a worklist that is given the callbacks), the order in
    which a set of pointers or a hash table is iterated, what [malloc] returns, the files
    of the program, boost's strong components, PIN, [std::hash], [mmap], and
    assembly.  Shared objects are in a store.

    ** Not modelled

    - extra/pin is PIN itself.  Serialization (boost), the text the tools print,
      addr2line, statistics and debug output are input and output without state; so are
      utils/noelle_profiler and utils/mangle_demangle.
    - extra/texas/src/compiler_passes: the passes TEXAS has without CARMOT, which no
      script of CARMOT builds.
    - src/StoreLoopInstrumentation.cpp and src/InstrumentLoopInvariantStoreAddressOnce.cpp,
      which CMakeLists.txt leaves out.
    - What memorytool runs between its tools: noelle-norm and opt.
    - A memory model weaker than interleaving.
*)

From Stdlib Require Export ZArith Lia.
From stdpp Require Export base strings sorting option numbers gmap list.

(** ** Notation scope of the development *)

Declare Scope carmot_scope.
Delimit Scope carmot_scope with carmot.
#[global] Open Scope Z_scope.
#[global] Open Scope carmot_scope.

(** ** 64-bit machine words

    The runtime computes on [uint64_t] throughout: addresses, lengths, offsets
    and identifiers.  A word is a [Z] in [0, 2^64); every operation that can
    leave that range is written with its wrap-around. *)

Definition two64 : Z := 18446744073709551616.
Definition two63 : Z := 9223372036854775808.

Definition wrap64 (z : Z) : Z := z mod two64.
Definition add64 (a b : Z) : Z := wrap64 (a + b).
Definition sub64 (a b : Z) : Z := wrap64 (a - b).
Definition mul64 (a b : Z) : Z := wrap64 (a * b).

Notation "a +₆₄ b" := (add64 a b) (at level 50, left associativity) : carmot_scope.
Notation "a -₆₄ b" := (sub64 a b) (at level 50, left associativity) : carmot_scope.
Notation "a *₆₄ b" := (mul64 a b) (at level 40, left associativity) : carmot_scope.

(** The conversion [uint64_t] to [int64_t] of the code's two's complement
    target. *)
Definition to_i64 (z : Z) : Z :=
  if decide (z < two63) then z else z - two64.

Definition u64 (z : Z) : Prop := 0 <= z < two64.

#[export] Instance u64_dec z : Decision (u64 z).
Proof. unfold u64. apply _. Defined.

(** ** Fallible code

    [None] stands for undefined behaviour or an abort of the process: a null
    dereference, a read past a buffer, a call of [abort]. *)

Notation "'guard_or_crash' P ; k" := (if decide P then k else None)
  (at level 20, P at level 200, k at level 200, right associativity, only parsing) : carmot_scope.

(** ** Tactics *)

(** Reduce the modular arithmetic of words that are known to be in range. *)
Ltac word_unfold := unfold add64, sub64, mul64, wrap64, u64, to_i64, two64, two63 in *.

Ltac word :=
  word_unfold; repeat case_decide;
  repeat match goal with
  | |- context [ ?x mod ?m ] => rewrite (Z.mod_small x m) by lia
  | H : context [ ?x mod ?m ] |- _ => rewrite (Z.mod_small x m) in H by lia
  end; try lia.

(** Split the monadic definition in a hypothesis [m = Some x]. *)
Ltac destruct_bind :=
  repeat match goal with
  | H : mbind _ _ = Some _ |- _ => apply bind_Some in H; destruct H as (?&?&?)
  | H : _ <$> _ = Some _ |- _ => apply fmap_Some in H; destruct H as (?&?&?)
  | H : Some _ = Some _ |- _ => injection H; clear H; intros; subst
  | H : (if decide _ then _ else None) = Some _ |- _ => case_decide; [|discriminate H]
  end.

(** ** Hints *)

Create HintDb carmot discriminated.
#[export] Hint Constants Opaque : carmot.
Create HintDb words discriminated.
Create Rewrite HintDb words.

(** ** Word lemmas *)

Lemma two64_pos : 0 < two64.
Proof. done. Qed.

Lemma wrap64_range z : u64 (wrap64 z).
Proof. unfold u64, wrap64. by apply Z.mod_pos_bound. Qed.

Lemma wrap64_small z : u64 z → wrap64 z = z.
Proof. intros. by apply Z.mod_small. Qed.

Lemma wrap64_idemp z : wrap64 (wrap64 z) = wrap64 z.
Proof. apply wrap64_small, wrap64_range. Qed.

Lemma add64_range a b : u64 (a +₆₄ b).
Proof. apply wrap64_range. Qed.

Lemma sub64_range a b : u64 (a -₆₄ b).
Proof. apply wrap64_range. Qed.

Lemma add64_small a b : 0 <= a + b < two64 → a +₆₄ b = a + b.
Proof. apply wrap64_small. Qed.

Lemma sub64_small a b : 0 <= a - b < two64 → a -₆₄ b = a - b.
Proof. apply wrap64_small. Qed.

Lemma add64_sub64 a b : u64 a → a -₆₄ b +₆₄ b = a.
Proof.
  intros Ha. unfold add64, sub64, wrap64.
  rewrite Zplus_mod_idemp_l. replace (a - b + b) with a by lia.
  by apply wrap64_small.
Qed.

Lemma sub64_add64 a b : u64 a → a +₆₄ b -₆₄ b = a.
Proof.
  intros Ha. unfold add64, sub64, wrap64.
  rewrite Zminus_mod_idemp_l. replace (a + b - b) with a by lia.
  by apply wrap64_small.
Qed.

Lemma to_i64_small z : 0 <= z < two63 → to_i64 z = z.
Proof. unfold to_i64. intros. by rewrite decide_True by lia. Qed.

#[export] Hint Resolve two64_pos wrap64_range add64_range sub64_range : carmot words.
#[export] Hint Rewrite wrap64_idemp : words.
#[export] Hint Rewrite wrap64_small add64_small sub64_small using (word_unfold; lia) : words.

(** ** Generic list lemmas *)

Section lists.
  Context {A B : Type}.
  Implicit Types (l : list A) (x : A).

  (** Invariant rule for left folds (loops). *)
Lemma foldl_ind (P : B → Prop) (f : B → A → B) b l :
    P b → (∀ b x, x ∈ l → P b → P (f b x)) → P (foldl f b l).
  Proof.
    revert b. induction l as [|x l IH]; intros b Hb Hstep; [done|]. simpl.
    apply IH; [|intros; apply Hstep; [by apply elem_of_cons; right|done]].
    apply Hstep; [apply elem_of_cons; by left|done].
  Qed.
End lists.

Lemma sum_nonneg (l : list Z) : Forall (λ z, 0 <= z) l → 0 <= foldr Z.add 0 l.
Proof. induction 1; simpl; lia. Qed.

(** Monadic left fold: a [for] loop whose body may crash. *)
Fixpoint mfoldl {A B} (f : B → A → option B) (b : B) (l : list A) : option B :=
  match l with
  | [] => Some b
  | x :: l => b' ← f b x; mfoldl f b' l
  end.

Lemma mfoldl_app {A B} (f : B → A → option B) b l1 l2 :
  mfoldl f b (l1 ++ l2) = b' ← mfoldl f b l1; mfoldl f b' l2.
Proof.
  revert b. induction l1 as [|x l1 IH]; intros b; simpl; [done|].
  destruct (f b x) as [b'|]; simpl; [apply IH|done].
Qed.

Lemma mfoldl_ind {A B} (P : B → Prop) (f : B → A → option B) b l b' :
  mfoldl f b l = Some b' →
  P b → (∀ b x b'', x ∈ l → P b → f b x = Some b'' → P b'') → P b'.
Proof.
  revert b. induction l as [|x l IH]; intros b; simpl; [by intros [= ->]|].
  intros H Hb Hstep. apply bind_Some in H as (b1 & H1 & H2).
  eapply IH; [done| |intros; eapply Hstep; eauto; by apply elem_of_cons; right].
  eapply Hstep; [apply elem_of_cons; by left|done..].
Qed.

Lemma mfoldl_Some {A B} (P : B → Prop) (f : B → A → option B) b l :
  P b → (∀ b x, x ∈ l → P b → ∃ b'', f b x = Some b'' ∧ P b'') →
  ∃ b', mfoldl f b l = Some b' ∧ P b'.
Proof.
  revert b. induction l as [|x l IH]; intros b Hb Hstep; simpl; [eauto|].
  destruct (Hstep b x) as (b1 & -> & Hb1); [apply elem_of_cons; by left|done|]. simpl.
  apply IH; [done|]. intros. apply Hstep; [by apply elem_of_cons; right|done].
Qed.

Lemma filter_ext_in {A} (P Q : A → Prop) `{∀ x, Decision (P x), ∀ x, Decision (Q x)} (l : list A) :
  (∀ x, x ∈ l → P x ↔ Q x) → filter P l = filter Q l.
Proof.
  induction l as [|x l IH]; intros Hl; [done|]. rewrite !filter_cons.
  pose proof (Hl x ltac:(apply elem_of_cons; by left)).
  rewrite IH by (intros; apply Hl, elem_of_cons; by right).
  repeat case_decide; naive_solver.
Qed.

Lemma filter_all {A} (P : A → Prop) `{∀ x, Decision (P x)} (l : list A) : (∀ x, x ∈ l → P x) → filter P l = l.
Proof.
  induction l as [|x l IH]; intros Hl; [done|]. rewrite filter_cons, decide_True by (apply Hl; by left).
  f_equal. apply IH. intros y Hy. apply Hl. by right.
Qed.

Lemma filter_none {A} (P : A → Prop) `{∀ x, Decision (P x)} (l : list A) : (∀ x, x ∈ l → ¬ P x) → filter P l = [].
Proof.
  induction l as [|x l IH]; intros Hl; [done|]. rewrite filter_cons, decide_False by (apply Hl; by left).
  apply IH. intros y Hy. apply Hl. by right.
Qed.

Lemma sublist_fmap {A B} (f : A → B) l k : sublist l k → sublist (f <$> l) (f <$> k).
Proof. induction 1; by constructor. Qed.

Lemma two_elems {A} (l : list A) x y : x ≠ y → x ∈ l → y ∈ l → (1 < List.length l)%nat.
Proof.
  intros Hne Hx Hy. destruct l as [|a [|b l]]; simpl; [by apply elem_of_nil in Hx| |lia].
  apply list_elem_of_singleton in Hx, Hy. congruence.
Qed.

(** A loop that appends to a result list, or adds to a result set: the result is
    what was there and what the iterations contribute. *)
Lemma mfoldl_collect {A B C} `{ElemOf B C} (f : C → A → option C) (R : A → B → Prop) l acc :
  (∀ acc x, x ∈ l → ∃ acc', f acc x = Some acc' ∧ ∀ y, y ∈ acc' ↔ y ∈ acc ∨ R x y) →
  ∃ acc', mfoldl f acc l = Some acc' ∧ ∀ y, y ∈ acc' ↔ y ∈ acc ∨ ∃ x, x ∈ l ∧ R x y.
Proof.
  revert acc. induction l as [|x l IH]; intros acc Hstep.
  { exists acc. split; [done|]. intros y. split; [by left|].
    intros [?|(x & Hx & _)]; [done|]. by apply elem_of_nil in Hx. }
  destruct (Hstep acc x) as (acc1 & H1 & Hacc1); [apply elem_of_cons; by left|].
  destruct (IH acc1) as (acc' & H2 & Hacc'); [intros; apply Hstep; apply elem_of_cons; by right|].
  exists acc'. simpl. rewrite H1. simpl. split; [done|].
  intros y. rewrite Hacc', Hacc1. setoid_rewrite elem_of_cons. naive_solver.
Qed.

(** ** Loops over maps

    The code iterates over unordered maps.  Each iteration touches only what
    belongs to its key, so the outcome, seen key by key through [view], does not
    depend on the order: the entry of a key is updated once, by [upd]. *)
Section keyed_loops.
  Context `{Countable K} {A R S : Type} (view : S → K → R) (upd : K → A → R → R).

Definition keyed_step (s : S) (k : K) (a : A) (s' : S) : Prop :=
    ∀ k', view s' k' = if decide (k = k') then upd k a (view s k') else view s k'.

Lemma foldl_keyed_list (step : S → K * A → S) s (l : list (K * A)) k :
    (∀ s e, keyed_step s e.1 e.2 (step s e)) → NoDup l.*1 →
    view (foldl step s l) k =
    match (list_to_map l : gmap K A) !! k with Some a => upd k a (view s k) | None => view s k end.
  Proof.
    intros Hstep. revert s. induction l as [|[k1 a1] l IH]; intros s Hnd; [done|].
    apply NoDup_cons in Hnd as [Hni Hnd]. simpl in *. rewrite IH by done.
    destruct (decide (k1 = k)) as [->|Hne].
    - rewrite not_elem_of_list_to_map_1 by done. rewrite lookup_insert_eq.
      rewrite (Hstep s (k, a1) k). simpl. by rewrite decide_True.
    - rewrite lookup_insert_ne by done. rewrite (Hstep s (k1, a1) k). simpl.
      by rewrite decide_False.
  Qed.

Lemma foldl_keyed (step : S → K * A → S) s (m : gmap K A) k :
    (∀ s e, keyed_step s e.1 e.2 (step s e)) →
    view (foldl step s (map_to_list m)) k =
    match m !! k with Some a => upd k a (view s k) | None => view s k end.
  Proof.
    intros Hstep. rewrite foldl_keyed_list; [|done|apply NoDup_fst_map_to_list].
    by rewrite list_to_map_to_list.
  Qed.

Lemma mfoldl_keyed_list (P : S → Prop) (step : S → K * A → option S) s (l : list (K * A)) :
    P s → NoDup l.*1 →
    (∀ s e, P s → e ∈ l → ∃ s', step s e = Some s' ∧ P s' ∧ keyed_step s e.1 e.2 s') →
    ∃ s', mfoldl step s l = Some s' ∧ P s' ∧
      ∀ k, view s' k = match (list_to_map l : gmap K A) !! k with
                       | Some a => upd k a (view s k) | None => view s k end.
  Proof.
    revert s. induction l as [|[k1 a1] l IH]; intros s HP Hnd Hstep; [by exists s|].
    apply NoDup_cons in Hnd as [Hni Hnd]. simpl.
    destruct (Hstep s (k1, a1) HP) as (s1 & -> & HP1 & Hs1); [apply elem_of_cons; by left|].
    cbn [mbind option_bind]. destruct (IH s1 HP1 Hnd) as (s2 & -> & HP2 & Hs2).
    { intros s' e HPs He. apply Hstep; [done|]. apply elem_of_cons. by right. }
    exists s2. split; [done|]. split; [done|]. intros k. rewrite Hs2, (Hs1 k). simpl.
    destruct (decide (k1 = k)) as [->|Hne].
    - by rewrite not_elem_of_list_to_map_1, lookup_insert_eq by done.
    - by rewrite lookup_insert_ne by done.
  Qed.

Lemma mfoldl_keyed (P : S → Prop) (step : S → K * A → option S) s (m : gmap K A) :
    P s →
    (∀ s e, P s → m !! e.1 = Some e.2 →
      ∃ s', step s e = Some s' ∧ P s' ∧ keyed_step s e.1 e.2 s') →
    ∃ s', mfoldl step s (map_to_list m) = Some s' ∧ P s' ∧
      ∀ k, view s' k = match m !! k with
                       | Some a => upd k a (view s k) | None => view s k end.
  Proof.
    intros HP Hstep.
    destruct (mfoldl_keyed_list P step s (map_to_list m)) as (s' & -> & HP' & Hs');
      [done|apply NoDup_fst_map_to_list| |].
    { intros s' [k a] HPs He. apply Hstep; [done|]. by apply elem_of_map_to_list in He. }
    exists s'. split; [done|]. split; [done|]. intros k. by rewrite Hs', list_to_map_to_list.
  Qed.
End keyed_loops.

(** A relation of two lists, element by element, with the membership at hand. *)
Lemma Forall2_impl_in {A B} (P Q : A → B → Prop) l k :
  Forall2 P l k → (∀ x y, x ∈ l → y ∈ k → P x y → Q x y) → Forall2 Q l k.
Proof.
  induction 1 as [|x y l k Hxy _ IH]; intros H; [constructor|].
  constructor; [apply H; [by left..|done]|apply IH; intros; apply H; [by right..|done]].
Qed.

(** The parts of a list without repetitions. *)
Lemma NoDup_concat_parts {A} (ls : list (list A)) l : NoDup (concat ls) → l ∈ ls → NoDup l.
Proof.
  induction ls as [|l' ls IH]; intros Hnd Hl; [by apply elem_of_nil in Hl|]. cbn [concat] in Hnd.
  apply NoDup_app in Hnd as (H1 & _ & H2). apply elem_of_cons in Hl as [->|Hl]; [done|by apply IH].
Qed.

Lemma NoDup_concat_index {A} (ls : list (list A)) j k l l' a : NoDup (concat ls) → ls !! j = Some l → ls !! k = Some l' →
  a ∈ l → a ∈ l' → j = k.
Proof.
  revert j k. induction ls as [|l0 ls IH]; intros j k Hnd Hj Hk Ha Ha'; [done|]. cbn [concat] in Hnd.
  apply NoDup_app in Hnd as (_ & Hd & Hnd).
  assert (∀ n l, ls !! n = Some l → a ∈ l → a ∈ concat ls) as Hin.
  { intros n l1 Hn H1. apply list_elem_of_In, in_concat. exists l1. split; apply list_elem_of_In; [by eapply list_elem_of_lookup_2|done]. }
  destruct j as [|j], k as [|k]; [done| | |f_equal; by eapply IH].
  - injection Hj as ->. exfalso. eapply Hd; [done|by eapply Hin].
  - injection Hk as ->. exfalso. eapply Hd; [done|by eapply Hin].
Qed.

(** ** A loop that fails nowhere *)

Lemma mapM_total {A B} (f : A → option B) (g : A → B) l :
  (∀ x, x ∈ l → f x = Some (g x)) → mapM f l = Some (g <$> l).
Proof.
  induction l as [|x l IH]; intros H; [done|]. cbn [mapM].
  rewrite H by (apply elem_of_cons; by left). cbn [mbind option_bind].
  rewrite IH; [done|]. intros. apply H, elem_of_cons. by right.
Qed.

(** ** Finite sets of the elements of a list *)

Lemma size_list_to_set_le {A} `{Countable A} (l : list A) : (size (list_to_set l : gset A) <= List.length l)%nat.
Proof.
  induction l as [|x l IH]; [change (size (∅ : gset A) <= 0)%nat; by rewrite size_empty|]. cbn [list_to_set List.length].
  assert (size ({[x]} ∪ list_to_set l : gset A) <= 1 + size (list_to_set l : gset A))%nat; [|lia].
  rewrite size_union_alt, size_singleton.
  assert (size (list_to_set l ∖ {[x]} : gset A) <= size (list_to_set l : gset A))%nat; [|lia].
  apply subseteq_size. set_solver.
Qed.
