(* ===== verification/Helpers.v ===== *)
(** * Helper functions of the runtime

    The operation codes of the shadow entries and the address arithmetic of
    [extra/texas/src/runtime/HelperFunctions.{hpp,cpp}]. *)

From S2P Require Import Prelude.

(** ** Operation codes *)

(** The anonymous [enum] of HelperFunctions.hpp.  The code stores these in
    [uint64_t] fields; [OTHER_OP] is a field value that no enumerator names. *)
Inductive operation :=
  | FREE_SLOT | ALLOCATING | ALLOC_ADD | ALLOC_FREE | ESCAPE_ADD
  | STATE_ADD_READ | STATE_ADD_WRITE
  | STATE_ADD_INPUT | STATE_ADD_IO | STATE_ADD_CIO | STATE_ADD_TIO
  | STATE_ADD_OUTPUT | STATE_ADD_CO | STATE_ADD_TO
  | STATE_BEGIN | STATE_END | STATE_REGION_SET | THREAD_KILL | REDUNDANT
  | STATE_COMMIT | DETECT_CYCLE
  | OTHER_OP (code : Z).

#[export] Instance operation_eq_dec : EqDecision operation.
Proof. solve_decision. Defined.

Definition operations : list operation :=
  [ FREE_SLOT; ALLOCATING; ALLOC_ADD; ALLOC_FREE; ESCAPE_ADD; STATE_ADD_READ;
    STATE_ADD_WRITE; STATE_ADD_INPUT; STATE_ADD_IO; STATE_ADD_CIO; STATE_ADD_TIO;
    STATE_ADD_OUTPUT; STATE_ADD_CO; STATE_ADD_TO; STATE_BEGIN; STATE_END;
    STATE_REGION_SET; THREAD_KILL; REDUNDANT; STATE_COMMIT; DETECT_CYCLE ].

(** The numeric value of an enumerator. *)
Definition op_code (o : operation) : Z :=
  match o with
  | FREE_SLOT => 0 | ALLOCATING => 1 | ALLOC_ADD => 2 | ALLOC_FREE => 3
  | ESCAPE_ADD => 4 | STATE_ADD_READ => 5 | STATE_ADD_WRITE => 6
  | STATE_ADD_INPUT => 7 | STATE_ADD_IO => 8 | STATE_ADD_CIO => 9
  | STATE_ADD_TIO => 10 | STATE_ADD_OUTPUT => 11 | STATE_ADD_CO => 12
  | STATE_ADD_TO => 13 | STATE_BEGIN => 14 | STATE_END => 15
  | STATE_REGION_SET => 16 | THREAD_KILL => 17 | REDUNDANT => 18
  | STATE_COMMIT => 19 | DETECT_CYCLE => 20
  | OTHER_OP c => c
  end.

(** What a [switch] on a stored code selects. *)
Definition op_of_code (c : Z) : operation :=
  if decide (0 <= c) then
    match operations !! Z.to_nat c with Some o => o | None => OTHER_OP c end
  else OTHER_OP c.

#[export] Instance operation_countable : Countable operation.
Proof.
  refine (inj_countable'
    (λ o, match o with OTHER_OP c => inr c | o => inl (op_code o) end)
    (λ s, match s with inl c => op_of_code c | inr c => OTHER_OP c end) _).
  by intros [].
Defined.

Lemma op_of_code_op_code o : (∀ c, o ≠ OTHER_OP c) → op_of_code (op_code o) = o.
Proof. destruct o; try done. intros H. by destruct (H code). Qed.

Lemma op_code_op_of_code c : op_code (op_of_code c) = c.
Proof.
  unfold op_of_code. case_decide as Hc; [|done].
  destruct (decide (c < 21)) as [Hlt|Hge].
  - destruct (Z_of_nat_complete c Hc) as [n ->]. rewrite Nat2Z.id.
    do 21 (destruct n as [|n]; [done|]). lia.
  - rewrite lookup_ge_None_2; [done|]. simpl. lia.
Qed.

(** ** Address arithmetic *)

(** [int64_t doesItAlias(void* allocAddr, uint64_t length, uint64_t escapeVal)]:
    the offset of [escapeVal] into the block, or -1. *)
Definition doesItAlias (allocAddr length escapeVal : Z) : Z :=
  if decide (allocAddr <= escapeVal ∧ escapeVal < allocAddr +₆₄ length)
  then to_i64 (escapeVal -₆₄ allocAddr)
  else -1.

(** [uint64_t GetOffset(void* baseAddr, void* offAddr)] *)
Definition GetOffset (baseAddr offAddr : Z) : Z := offAddr -₆₄ baseAddr.

(** [rdtsc] combines the two 32-bit halves the instruction returns. *)
Definition rdtsc (lo hi : Z) : Z := Z.lor lo (wrap64 (Z.shiftl hi 32)).

(** The byte range of a block, when it does not wrap around the address space. *)
Definition in_block (start len v : Z) : Prop := start <= v < start + len.

#[export] Instance in_block_dec start len v : Decision (in_block start len v).
Proof. unfold in_block. apply _. Defined.

(** A block whose one-past-the-end address is representable. *)
Definition block_ok (start len : Z) : Prop :=
  0 <= start ∧ 0 <= len ∧ start + len < two64.

Lemma doesItAlias_in start len v :
  block_ok start len → len <= two63 → in_block start len v →
  doesItAlias start len v = v - start.
Proof.
  unfold block_ok, in_block, doesItAlias. intros (?&?&?) ? ?.
  rewrite add64_small by lia. rewrite decide_True by lia.
  rewrite sub64_small by lia. apply to_i64_small. lia.
Qed.

Lemma doesItAlias_out start len v :
  block_ok start len → ¬ in_block start len v → doesItAlias start len v = -1.
Proof.
  unfold block_ok, in_block, doesItAlias. intros (?&?&?) ?.
  rewrite add64_small by lia. rewrite decide_False; [done|lia].
Qed.

(** The form the callers use: the test against -1 decides membership.  No bound
    on the length is needed, although the offset is returned as [int64_t]: the
    only offset that reads as -1 is 2^64 - 1. *)
Lemma doesItAlias_miss start len v :
  block_ok start len →
  doesItAlias start len v = -1 ↔ ¬ in_block start len v.
Proof.
  intros Hb. split; [|by apply doesItAlias_out].
  intros E Hin. unfold block_ok, in_block in *. destruct Hb as (?&?&?).
  unfold doesItAlias in E. rewrite add64_small in E by lia.
  rewrite decide_True in E by lia. rewrite sub64_small in E by lia.
  revert E. unfold to_i64. case_decide; lia.
Qed.

Lemma GetOffset_in_block start len v :
  block_ok start len → in_block start len v →
  GetOffset start v = v - start ∧ 0 <= GetOffset start v < len.
Proof.
  unfold block_ok, in_block, GetOffset. intros (?&?&?) ?.
  rewrite sub64_small by lia. lia.
Qed.

(** The two halves can be read back. *)
Lemma rdtsc_halves lo hi :
  0 <= lo < 2 ^ 32 → 0 <= hi < 2 ^ 32 →
  rdtsc lo hi = hi * 2 ^ 32 + lo ∧ u64 (rdtsc lo hi).
Proof.
  intros Hlo Hhi. unfold rdtsc.
  rewrite Z.shiftl_mul_pow2 by lia.
  rewrite wrap64_small by (word_unfold; lia).
  assert (Z.lor lo (hi * 2 ^ 32) = hi * 2 ^ 32 + lo) as ->.
  { rewrite Z.lor_comm. pose proof (Z.add_lor_land (hi * 2 ^ 32) lo) as E.
    assert (Z.land (hi * 2 ^ 32) lo = 0) as E0; [|clear Hlo Hhi; lia].
    apply Z.bits_inj_0. intros n. rewrite Z.land_spec.
    destruct (decide (n < 0)); [by rewrite Z.testbit_neg_r by lia|].
    destruct (decide (n < 32)); [by rewrite Z.mul_pow2_bits_low by lia|].
    rewrite <- (Z.mod_small lo (2 ^ 32)) by done.
    by rewrite Z.mod_pow2_bits_high, andb_false_r by lia. }
  split; [done|]. word_unfold. lia.
Qed.

#[export] Hint Resolve doesItAlias_in doesItAlias_out : carmot.
