(* ===== verification/OrdMap.v ===== *)
(** * Ordered maps

    [std::map<void*, T>] as the list of its key/value pairs in ascending key
    order, which is the order the code's [for (auto e : map)] loops and its
    iterator arithmetic ([lower_bound], [prospective--]) observe. *)

From S2P Require Import Prelude.

Section ordmap.
  Context {V : Type}.
  Implicit Types (m : list (Z * V)) (k : Z) (v : V).

  (** [map::find] *)
Fixpoint om_find k m : option V :=
    match m with
    | [] => None
    | (k', v') :: m' => if decide (k = k') then Some v' else om_find k m'
    end.

  (** [map::insert]: an existing entry is kept. *)
Fixpoint om_insert k v m : list (Z * V) :=
    match m with
    | [] => [(k, v)]
    | (k', v') :: m' =>
        if decide (k = k') then (k', v') :: m'
        else if decide (k < k') then (k, v) :: (k', v') :: m'
        else (k', v') :: om_insert k v m'
    end.

  (** [map::insert_or_assign] *)
Fixpoint om_assign k v m : list (Z * V) :=
    match m with
    | [] => [(k, v)]
    | (k', v') :: m' =>
        if decide (k = k') then (k', v) :: m'
        else if decide (k < k') then (k, v) :: (k', v') :: m'
        else (k', v') :: om_assign k v m'
    end.

  (** [map::erase(key)] *)
Definition om_erase k m : list (Z * V) := filter (λ p, p.1 ≠ k) m.

  (** [map::lower_bound]: the entries before the iterator (in order) and the
      entries from the iterator on; [end()] is an empty second part, [begin()]
      an empty first part. *)
Fixpoint om_lower_bound k m : list (Z * V) * list (Z * V) :=
    match m with
    | [] => ([], [])
    | (k', v') :: m' =>
        if decide (k' < k) then
          let '(l, r) := om_lower_bound k m' in ((k', v') :: l, r)
        else ([], (k', v') :: m')
    end.

  (** The representation invariant: strictly ascending keys. *)
Definition om_wf m : Prop := StronglySorted (λ p q : Z * V, p.1 < q.1) m.

  (** ** Lookup *)

Lemma om_find_elem_of k v m : om_wf m → om_find k m = Some v ↔ (k, v) ∈ m.
  Proof.
    unfold om_wf. induction 1 as [|[k' v'] m Hs IH Hall]; simpl; [set_solver|].
    rewrite elem_of_cons. case_decide as Hk; subst.
    - split; [intros [= ->]; by left|]. intros [[= ->]|Hin]; [done|].
      rewrite Forall_forall in Hall. apply Hall in Hin. simpl in Hin. lia.
    - rewrite IH. naive_solver.
  Qed.

Lemma om_find_lt k m : Forall (λ p : Z * V, k < p.1) m → om_find k m = None.
  Proof.
    induction 1 as [|[k' v'] m Hk Hm IH]; simpl in *; [done|].
    by rewrite decide_False by lia.
  Qed.

Lemma om_find_app k m1 m2 :
    om_find k (m1 ++ m2) = match om_find k m1 with Some v => Some v | None => om_find k m2 end.
  Proof.
    induction m1 as [|[k' v'] m1 IH]; simpl; [done|]. by case_decide.
  Qed.

  (** ** Insertion *)

Lemma om_insert_elem p k v m : p ∈ om_insert k v m → p = (k, v) ∨ p ∈ m.
  Proof.
    induction m as [|[k' v'] m IH]; simpl; [set_solver|].
    repeat case_decide; rewrite ?elem_of_cons; naive_solver.
  Qed.

Lemma om_assign_elem p k v m : p ∈ om_assign k v m → p = (k, v) ∨ p ∈ m.
  Proof.
    induction m as [|[k' v'] m IH]; simpl; [set_solver|].
    repeat case_decide; subst; rewrite ?elem_of_cons; naive_solver.
  Qed.

Lemma om_wf_insert k v m : om_wf m → om_wf (om_insert k v m).
  Proof.
    unfold om_wf. induction 1 as [|[k' v'] m Hs IH Hall]; simpl.
    { repeat constructor. }
    repeat case_decide; [by constructor| |].
    - constructor; [by constructor|]. constructor; [done|].
      eapply Forall_impl; [done|]. simpl; intros; lia.
    - constructor; [done|]. rewrite Forall_forall in *.
      intros p Hp%om_insert_elem. destruct Hp as [->|Hp]; simpl; [lia|auto].
  Qed.

Lemma om_wf_assign k v m : om_wf m → om_wf (om_assign k v m).
  Proof.
    unfold om_wf. induction 1 as [|[k' v'] m Hs IH Hall]; simpl.
    { repeat constructor. }
    repeat case_decide; [by constructor| |].
    - constructor; [by constructor|]. constructor; [done|].
      eapply Forall_impl; [done|]. simpl; intros; lia.
    - constructor; [done|]. rewrite Forall_forall in *.
      intros p Hp%om_assign_elem. destruct Hp as [->|Hp]; simpl; [lia|auto].
  Qed.

Lemma om_wf_erase k m : om_wf m → om_wf (om_erase k m).
  Proof.
    unfold om_wf, om_erase. induction 1 as [|p m Hs IH Hall]; [constructor|].
    rewrite filter_cons. case_decide; [|done]. constructor; [done|].
    rewrite Forall_forall in *. intros q [_ Hq]%list_elem_of_filter. auto.
  Qed.

Lemma om_find_insert_eq k v m :
    om_wf m → om_find k (om_insert k v m) = Some (default v (om_find k m)).
  Proof.
    unfold om_wf. induction 1 as [|[k' v'] m Hs IH Hall]; simpl.
    { by rewrite decide_True. }
    destruct (decide (k = k')); simpl; [by rewrite decide_True|].
    destruct (decide (k < k')); simpl.
    - rewrite decide_True by done. rewrite om_find_lt; [done|].
      eapply Forall_impl; [done|]. simpl; intros; lia.
    - by rewrite decide_False.
  Qed.

Lemma om_find_insert_ne k k' v m :
    k ≠ k' → om_find k' (om_insert k v m) = om_find k' m.
  Proof.
    intros Hne. induction m as [|[k1 v1] m IH]; simpl.
    { by rewrite decide_False. }
    repeat (case_decide; simpl); subst; try done; by rewrite ?IH.
  Qed.

Lemma om_find_assign_eq k v m : om_find k (om_assign k v m) = Some v.
  Proof.
    induction m as [|[k1 v1] m IH]; simpl; [by rewrite decide_True|].
    repeat (case_decide; simpl); subst; done.
  Qed.

Lemma om_find_assign_ne k k' v m :
    k ≠ k' → om_find k' (om_assign k v m) = om_find k' m.
  Proof.
    intros Hne. induction m as [|[k1 v1] m IH]; simpl.
    { by rewrite decide_False. }
    repeat (case_decide; simpl); subst; try done; by rewrite ?IH.
  Qed.

Lemma om_find_erase_eq k m : om_find k (om_erase k m) = None.
  Proof.
    unfold om_erase. induction m as [|[k1 v1] m IH]; [done|].
    rewrite filter_cons. case_decide; simpl in *; [|done].
    by rewrite decide_False.
  Qed.

Lemma om_find_erase_ne k k' m : k ≠ k' → om_find k' (om_erase k m) = om_find k' m.
  Proof.
    intros Hne. unfold om_erase. induction m as [|[k1 v1] m IH]; [done|].
    rewrite filter_cons. repeat (case_decide; simpl in *); subst; naive_solver.
  Qed.

Lemma om_erase_absent k m : om_find k m = None → om_erase k m = m.
  Proof.
    unfold om_erase. induction m as [|[k1 v1] m IH]; [done|]. simpl.
    rewrite filter_cons. repeat (case_decide; simpl in *); subst; try done.
    intros. by rewrite IH.
  Qed.

  (** ** Iterators *)

Lemma om_lower_bound_spec k m l r :
    om_wf m → om_lower_bound k m = (l, r) →
    m = l ++ r ∧ Forall (λ p : Z * V, p.1 < k) l ∧ Forall (λ p : Z * V, k <= p.1) r.
  Proof.
    unfold om_wf. intros Hs. revert l r.
    induction Hs as [|[k' v'] m Hs IH Hall]; simpl; intros l r.
    { by intros [= <- <-]. }
    case_decide.
    - destruct (om_lower_bound k m) as [l' r'].
      intros [= <- <-]. destruct (IH l' r') as (-> & ? & ?); [done|].
      split; [done|]. split; [by constructor|done].
    - intros [= <- <-]. split; [done|]. split; [done|].
      constructor; [simpl; lia|]. eapply Forall_impl; [done|]. simpl; intros; lia.
  Qed.

Lemma om_lower_bound_app k m l r : om_lower_bound k m = (l, r) → m = l ++ r.
  Proof.
    revert l r. induction m as [|[k' v'] m IH]; simpl; intros l r; [by intros [= <- <-]|].
    case_decide; [|by intros [= <- <-]].
    destruct (om_lower_bound k m) as [l' r']. intros [= <- <-]. simpl. f_equal. by apply IH.
  Qed.

Lemma om_wf_app m1 m2 :
    om_wf (m1 ++ m2) →
    om_wf m1 ∧ om_wf m2 ∧ ∀ p q, p ∈ m1 → q ∈ m2 → p.1 < q.1.
  Proof.
    unfold om_wf. induction m1 as [|p m1 IH]; simpl.
    { intros. split; [constructor|]. set_solver. }
    intros H. apply StronglySorted_inv in H as [Hs Hall].
    destruct (IH Hs) as (? & ? & Hlt). apply Forall_app in Hall as [Ha1 Ha2].
    split; [by constructor|]. split; [done|]. intros p' q Hp Hq.
    apply elem_of_cons in Hp as [->|Hp]; [|by apply Hlt].
    rewrite Forall_forall in Ha2. by apply Ha2.
  Qed.

  (** Two well-formed maps with the same lookups are the same map. *)
Lemma om_ext m1 m2 :
    om_wf m1 → om_wf m2 → (∀ k, om_find k m1 = om_find k m2) → m1 = m2.
  Proof.
    intros Hm1. revert m2. unfold om_wf in *.
    induction Hm1 as [|[k1 v1] m1 Hs1 IH Ha1]; intros m2 Hm2 Hext.
    - destruct m2 as [|[k2 v2] m2]; [done|]. specialize (Hext k2). simpl in Hext.
      by rewrite decide_True in Hext by done.
    - destruct Hm2 as [|[k2 v2] m2 Hs2 Ha2].
      { specialize (Hext k1). simpl in Hext. by rewrite decide_True in Hext by done. }
      assert (k1 = k2) as <-.
      { destruct (Z.lt_trichotomy k1 k2) as [Hlt|[->|Hlt]]; [|done|].
        - specialize (Hext k1). simpl in Hext.
          rewrite decide_True, decide_False in Hext by lia.
          rewrite om_find_lt in Hext; [done|].
          eapply Forall_impl; [done|]. simpl; intros; lia.
        - specialize (Hext k2). simpl in Hext.
          rewrite (decide_True _ _ (eq_refl k2)), decide_False in Hext by lia.
          rewrite om_find_lt in Hext; [done|].
          eapply Forall_impl; [done|]. simpl; intros; lia. }
      pose proof (Hext k1) as Hv. simpl in Hv.
      rewrite !decide_True in Hv by done. injection Hv as <-. f_equal.
      apply IH; [done|]. intros k. specialize (Hext k). simpl in Hext.
      case_decide; [|done]. subst.
      rewrite !om_find_lt; [done|eapply Forall_impl; [done|simpl; intros; lia]..].
  Qed.
End ordmap.

#[export] Hint Resolve om_wf_insert om_wf_assign om_wf_erase : carmot.
Create Rewrite HintDb ordmap.
#[export] Hint Rewrite @om_find_assign_eq @om_find_erase_eq : ordmap.
#[export] Hint Rewrite @om_find_insert_ne @om_find_assign_ne @om_find_erase_ne
  using (solve [done|lia]) : ordmap.
