(* ===== verification/Objects.v ===== *)
(** * The objects of the runtime

    [Allocation] (extra/texas/src/runtime/Allocation.hpp), [State] (State.hpp)
    and the store they live in.  The code shares both through raw pointers: an
    [Allocation*] sits in the allocation table, in [originToAllocMap] and in
    the sets of several states at once, so objects are kept in a store and
    referred to by pointers. *)

From S2P Require Import Prelude Helpers.

(** [Allocation*] and [State*].  States are created one at a time and never
    deleted; the pointer of a state is its creation number. *)
Notation aptr := positive (only parsing).
Notation sptr := nat (only parsing).

(** [typedef struct { ... } StateCommitInfo].  The keys of
    [stateSetToOffsetMap] are operation codes. *)
Record StateCommitInfo := mkStateCommitInfo {
  useInfo : gset Z;
  stateSetToOffsetMap : gmap Z (gset Z);
  regionBasedOffsets : bool;
}.

(** [class Allocation]; [totalPointerWeight] is never used. *)
Record Allocation := mkAllocation {
  pointer : Z;
  length : Z;
  allocToEscapeMap : gset Z; (** addresses of the pointers stored to memory that may alias this block *)
  patchPointer : Z;
  connectionVertex : nat;
  alignment : Z;
  origin : Z;
  freshness : Z;
  affiliatedState : option sptr;
  StateCommitInfoMap : gmap sptr StateCommitInfo;
}.

(** [Allocation(void* ptr, uint64_t len, uint64_t ori)] *)
Definition new_Allocation (ptr len ori : Z) : Allocation :=
  mkAllocation ptr len ∅ 0 0 8 ori 0 None ∅.

(** The accessor functions of the class. *)
Definition getOrigin (a : Allocation) : Z := origin a.
Definition getVariablePointer (a : Allocation) : Z := pointer a.
Definition getVariableLength (a : Allocation) : Z := length a.
Definition getAllocationEscapes (a : Allocation) : gset Z := allocToEscapeMap a.
Definition GetAllocationSize (a : Allocation) : Z := length a.

(** [stateAllocationsSetType]: the offsets into each allocation. *)
Notation stateAllocationsSetType := (gmap aptr (gset Z)) (only parsing).

(** The seven sets a state keeps, once for the current window and once committed. *)
Record StateSets := mkStateSets {
  Input : stateAllocationsSetType;
  IO : stateAllocationsSetType;
  CloneableIO : stateAllocationsSetType;
  TransferIO : stateAllocationsSetType;
  Output : stateAllocationsSetType;
  CloneableOutput : stateAllocationsSetType;
  TransferOutput : stateAllocationsSetType;
}.

Definition empty_sets : StateSets := mkStateSets ∅ ∅ ∅ ∅ ∅ ∅ ∅.

(** The [switch(set.first)] of [commitStateInfo]; [None] is the null pointer
    left in [stateAllocSet] by an operation that names no set. *)
Definition set_of (o : operation) (s : StateSets) : option stateAllocationsSetType :=
  match o with
  | STATE_ADD_INPUT => Some (Input s)
  | STATE_ADD_IO => Some (IO s)
  | STATE_ADD_CIO => Some (CloneableIO s)
  | STATE_ADD_TIO => Some (TransferIO s)
  | STATE_ADD_OUTPUT => Some (Output s)
  | STATE_ADD_CO => Some (CloneableOutput s)
  | STATE_ADD_TO => Some (TransferOutput s)
  | _ => None
  end.

Definition put_set (o : operation) (x : stateAllocationsSetType) (s : StateSets) : StateSets :=
  let '(mkStateSets i io cio tio ou co to) := s in
  match o with
  | STATE_ADD_INPUT => mkStateSets x io cio tio ou co to
  | STATE_ADD_IO => mkStateSets i x cio tio ou co to
  | STATE_ADD_CIO => mkStateSets i io x tio ou co to
  | STATE_ADD_TIO => mkStateSets i io cio x ou co to
  | STATE_ADD_OUTPUT => mkStateSets i io cio tio x co to
  | STATE_ADD_CO => mkStateSets i io cio tio ou x to
  | STATE_ADD_TO => mkStateSets i io cio tio ou co x
  | _ => s
  end.

(** The operations that name a set, the classes of the automaton. *)
Definition is_class (o : operation) : Prop := is_Some (set_of o empty_sets).

#[export] Instance is_class_dec o : Decision (is_class o).
Proof. unfold is_class. apply _. Defined.

(** [class State]; [endName], [endLineNum], [previousAlloc] and
    [temporalConnections] are not used by the code modelled here. *)
Record State := mkState {
  functionName : string;
  lineNumber : Z;
  naiveStateSize : Z;
  stateSize : Z;
  stateID : Z;
  temporalGraph : Z;
  parent : option sptr;
  children : gset sptr;
  AllocsAllocatedInState : gset aptr;
  statePtrMap : gmap Z operation; (** class of each address over the invocations so far *)
  statePtrIterMap : gmap Z operation; (** class within the current invocation *)
  currentPtrIterUpgrades : gset Z;
  allocationInfo : gmap aptr (gset Z); (** uses of each allocation *)
  sets : StateSets; (** Input, IO, ... of State.hpp *)
  final_sets : StateSets; (** FinalInput, FinalIO, ... of State.hpp *)
}.

(** [State::State(funcName, lineNum, temporalTracking, currentStateID, parentState)];
    the insertion of the new state into [parentState->children] is
    [new_State_in] below. *)
Definition new_State (funcName : string) (lineNum temporalTracking currentStateID : Z)
    (parentState : option sptr) : State :=
  mkState funcName lineNum 0 0 currentStateID temporalTracking parentState ∅ ∅
    ∅ ∅ ∅ ∅ empty_sets empty_sets.

(** The store shared by the shadow threads, with the globals of Shadow.cpp and
    Allocation.cpp. *)
Record Runtime := mkRuntime {
  allocs : gmap aptr Allocation;
  next_alloc : aptr; (** the next fresh object *)
  states : gmap sptr State;
  originToAllocMap : gmap Z aptr;
  freshnessSetter : Z;
}.

(** ** Field updates *)

Definition set_pointer (x : Z) (r : Allocation) : Allocation :=
  mkAllocation x (r.(length)) (r.(allocToEscapeMap)) (r.(patchPointer)) (r.(connectionVertex)) (r.(alignment)) (r.(origin)) (r.(freshness)) (r.(affiliatedState)) (r.(StateCommitInfoMap)).
Definition set_length (x : Z) (r : Allocation) : Allocation :=
  mkAllocation (r.(pointer)) x (r.(allocToEscapeMap)) (r.(patchPointer)) (r.(connectionVertex)) (r.(alignment)) (r.(origin)) (r.(freshness)) (r.(affiliatedState)) (r.(StateCommitInfoMap)).
Definition set_allocToEscapeMap (x : gset Z) (r : Allocation) : Allocation :=
  mkAllocation (r.(pointer)) (r.(length)) x (r.(patchPointer)) (r.(connectionVertex)) (r.(alignment)) (r.(origin)) (r.(freshness)) (r.(affiliatedState)) (r.(StateCommitInfoMap)).
Definition set_patchPointer (x : Z) (r : Allocation) : Allocation :=
  mkAllocation (r.(pointer)) (r.(length)) (r.(allocToEscapeMap)) x (r.(connectionVertex)) (r.(alignment)) (r.(origin)) (r.(freshness)) (r.(affiliatedState)) (r.(StateCommitInfoMap)).
Definition set_connectionVertex (x : nat) (r : Allocation) : Allocation :=
  mkAllocation (r.(pointer)) (r.(length)) (r.(allocToEscapeMap)) (r.(patchPointer)) x (r.(alignment)) (r.(origin)) (r.(freshness)) (r.(affiliatedState)) (r.(StateCommitInfoMap)).
Definition set_freshness (x : Z) (r : Allocation) : Allocation :=
  mkAllocation (r.(pointer)) (r.(length)) (r.(allocToEscapeMap)) (r.(patchPointer)) (r.(connectionVertex)) (r.(alignment)) (r.(origin)) x (r.(affiliatedState)) (r.(StateCommitInfoMap)).
Definition set_affiliatedState (x : option sptr) (r : Allocation) : Allocation :=
  mkAllocation (r.(pointer)) (r.(length)) (r.(allocToEscapeMap)) (r.(patchPointer)) (r.(connectionVertex)) (r.(alignment)) (r.(origin)) (r.(freshness)) x (r.(StateCommitInfoMap)).
Definition set_StateCommitInfoMap (x : gmap sptr StateCommitInfo) (r : Allocation) : Allocation :=
  mkAllocation (r.(pointer)) (r.(length)) (r.(allocToEscapeMap)) (r.(patchPointer)) (r.(connectionVertex)) (r.(alignment)) (r.(origin)) (r.(freshness)) (r.(affiliatedState)) x.
Definition set_naiveStateSize (x : Z) (r : State) : State :=
  mkState (r.(functionName)) (r.(lineNumber)) x (r.(stateSize)) (r.(stateID)) (r.(temporalGraph)) (r.(parent)) (r.(children)) (r.(AllocsAllocatedInState)) (r.(statePtrMap)) (r.(statePtrIterMap)) (r.(currentPtrIterUpgrades)) (r.(allocationInfo)) (r.(sets)) (r.(final_sets)).
Definition set_stateSize (x : Z) (r : State) : State :=
  mkState (r.(functionName)) (r.(lineNumber)) (r.(naiveStateSize)) x (r.(stateID)) (r.(temporalGraph)) (r.(parent)) (r.(children)) (r.(AllocsAllocatedInState)) (r.(statePtrMap)) (r.(statePtrIterMap)) (r.(currentPtrIterUpgrades)) (r.(allocationInfo)) (r.(sets)) (r.(final_sets)).
Definition set_parent (x : option sptr) (r : State) : State :=
  mkState (r.(functionName)) (r.(lineNumber)) (r.(naiveStateSize)) (r.(stateSize)) (r.(stateID)) (r.(temporalGraph)) x (r.(children)) (r.(AllocsAllocatedInState)) (r.(statePtrMap)) (r.(statePtrIterMap)) (r.(currentPtrIterUpgrades)) (r.(allocationInfo)) (r.(sets)) (r.(final_sets)).
Definition set_children (x : gset sptr) (r : State) : State :=
  mkState (r.(functionName)) (r.(lineNumber)) (r.(naiveStateSize)) (r.(stateSize)) (r.(stateID)) (r.(temporalGraph)) (r.(parent)) x (r.(AllocsAllocatedInState)) (r.(statePtrMap)) (r.(statePtrIterMap)) (r.(currentPtrIterUpgrades)) (r.(allocationInfo)) (r.(sets)) (r.(final_sets)).
Definition set_AllocsAllocatedInState (x : gset aptr) (r : State) : State :=
  mkState (r.(functionName)) (r.(lineNumber)) (r.(naiveStateSize)) (r.(stateSize)) (r.(stateID)) (r.(temporalGraph)) (r.(parent)) (r.(children)) x (r.(statePtrMap)) (r.(statePtrIterMap)) (r.(currentPtrIterUpgrades)) (r.(allocationInfo)) (r.(sets)) (r.(final_sets)).
Definition set_statePtrMap (x : gmap Z operation) (r : State) : State :=
  mkState (r.(functionName)) (r.(lineNumber)) (r.(naiveStateSize)) (r.(stateSize)) (r.(stateID)) (r.(temporalGraph)) (r.(parent)) (r.(children)) (r.(AllocsAllocatedInState)) x (r.(statePtrIterMap)) (r.(currentPtrIterUpgrades)) (r.(allocationInfo)) (r.(sets)) (r.(final_sets)).
Definition set_statePtrIterMap (x : gmap Z operation) (r : State) : State :=
  mkState (r.(functionName)) (r.(lineNumber)) (r.(naiveStateSize)) (r.(stateSize)) (r.(stateID)) (r.(temporalGraph)) (r.(parent)) (r.(children)) (r.(AllocsAllocatedInState)) (r.(statePtrMap)) x (r.(currentPtrIterUpgrades)) (r.(allocationInfo)) (r.(sets)) (r.(final_sets)).
Definition set_currentPtrIterUpgrades (x : gset Z) (r : State) : State :=
  mkState (r.(functionName)) (r.(lineNumber)) (r.(naiveStateSize)) (r.(stateSize)) (r.(stateID)) (r.(temporalGraph)) (r.(parent)) (r.(children)) (r.(AllocsAllocatedInState)) (r.(statePtrMap)) (r.(statePtrIterMap)) x (r.(allocationInfo)) (r.(sets)) (r.(final_sets)).
Definition set_allocationInfo (x : gmap aptr (gset Z)) (r : State) : State :=
  mkState (r.(functionName)) (r.(lineNumber)) (r.(naiveStateSize)) (r.(stateSize)) (r.(stateID)) (r.(temporalGraph)) (r.(parent)) (r.(children)) (r.(AllocsAllocatedInState)) (r.(statePtrMap)) (r.(statePtrIterMap)) (r.(currentPtrIterUpgrades)) x (r.(sets)) (r.(final_sets)).
Definition set_sets (x : StateSets) (r : State) : State :=
  mkState (r.(functionName)) (r.(lineNumber)) (r.(naiveStateSize)) (r.(stateSize)) (r.(stateID)) (r.(temporalGraph)) (r.(parent)) (r.(children)) (r.(AllocsAllocatedInState)) (r.(statePtrMap)) (r.(statePtrIterMap)) (r.(currentPtrIterUpgrades)) (r.(allocationInfo)) x (r.(final_sets)).
Definition set_final_sets (x : StateSets) (r : State) : State :=
  mkState (r.(functionName)) (r.(lineNumber)) (r.(naiveStateSize)) (r.(stateSize)) (r.(stateID)) (r.(temporalGraph)) (r.(parent)) (r.(children)) (r.(AllocsAllocatedInState)) (r.(statePtrMap)) (r.(statePtrIterMap)) (r.(currentPtrIterUpgrades)) (r.(allocationInfo)) (r.(sets)) x.
Definition set_allocs (x : gmap aptr Allocation) (r : Runtime) : Runtime :=
  mkRuntime x (r.(next_alloc)) (r.(states)) (r.(originToAllocMap)) (r.(freshnessSetter)).
Definition set_next_alloc (x : aptr) (r : Runtime) : Runtime :=
  mkRuntime (r.(allocs)) x (r.(states)) (r.(originToAllocMap)) (r.(freshnessSetter)).
Definition set_states (x : gmap sptr State) (r : Runtime) : Runtime :=
  mkRuntime (r.(allocs)) (r.(next_alloc)) x (r.(originToAllocMap)) (r.(freshnessSetter)).
Definition set_originToAllocMap (x : gmap Z aptr) (r : Runtime) : Runtime :=
  mkRuntime (r.(allocs)) (r.(next_alloc)) (r.(states)) x (r.(freshnessSetter)).
Definition set_freshnessSetter (x : Z) (r : Runtime) : Runtime :=
  mkRuntime (r.(allocs)) (r.(next_alloc)) (r.(states)) (r.(originToAllocMap)) x.

(** Writing an object through its pointer. *)
Definition upd_alloc (a : aptr) (f : Allocation → Allocation) (rt : Runtime) : Runtime :=
  set_allocs (alter f a rt.(allocs)) rt.
Definition upd_state (s : sptr) (f : State → State) (rt : Runtime) : Runtime :=
  set_states (alter f s rt.(states)) rt.

(** [new State(...)] at a fresh pointer, with the [children] update. *)
Definition new_State_in (s : sptr) (st : State) (rt : Runtime) : Runtime :=
  let rt := set_states (<[s := st]> rt.(states)) rt in
  match parent st with
  | Some p => upd_state p (λ ps, set_children ({[s]} ∪ children ps) ps) rt
  | None => rt
  end.

(** ** The chain of parents

    [while (tempState != nullptr) { ...; tempState = tempState->parent; }].
    Every parent is created before its child, so [S s] steps reach the root
    (see [parent_chain_total]); a pointer outside the store is a crash. *)
Fixpoint parent_chain_fuel (n : nat) (m : gmap sptr State) (s : option sptr) : option (list sptr) :=
  match s with
  | None => Some []
  | Some p =>
      match n with
      | O => None
      | S n => st ← m !! p; l ← parent_chain_fuel n m (parent st); Some (p :: l)
      end
  end.

Definition parent_chain (m : gmap sptr State) (s : option sptr) : option (list sptr) :=
  parent_chain_fuel (default O (S <$> s)) m s.

(** The well-formedness of the state forest. *)
Definition states_wf (m : gmap sptr State) : Prop :=
  ∀ s st p, m !! s = Some st → parent st = Some p → (p < s)%nat ∧ is_Some (m !! p).

Definition sptr_ok (m : gmap sptr State) (s : option sptr) : Prop :=
  match s with Some p => is_Some (m !! p) | None => True end.

(** ** Lemmas *)

Lemma set_of_put_eq o x s : is_class o → set_of o (put_set o x s) = Some x.
Proof. intros [y Hy]. by destruct s, o. Qed.

Lemma set_of_put_ne o o' x s : o ≠ o' → set_of o' (put_set o x s) = set_of o' s.
Proof. intros Hne. destruct s, o, o'; simpl; congruence. Qed.

Lemma put_set_id o x s : set_of o s = Some x → put_set o x s = s.
Proof. destruct s, o; simpl; congruence. Qed.

Lemma set_of_is_class o s : is_class o → is_Some (set_of o s).
Proof. intros [y Hy]. destruct o; simpl in *; eauto; discriminate. Qed.

Lemma StateSets_eq s1 s2 :
  (∀ o, is_class o → set_of o s1 = set_of o s2) → s1 = s2.
Proof.
  intros H. destruct s1, s2.
  pose proof (H STATE_ADD_INPUT (mk_is_Some _ _ eq_refl)) as [= ->].
  pose proof (H STATE_ADD_IO (mk_is_Some _ _ eq_refl)) as [= ->].
  pose proof (H STATE_ADD_CIO (mk_is_Some _ _ eq_refl)) as [= ->].
  pose proof (H STATE_ADD_TIO (mk_is_Some _ _ eq_refl)) as [= ->].
  pose proof (H STATE_ADD_OUTPUT (mk_is_Some _ _ eq_refl)) as [= ->].
  pose proof (H STATE_ADD_CO (mk_is_Some _ _ eq_refl)) as [= ->].
  by pose proof (H STATE_ADD_TO (mk_is_Some _ _ eq_refl)) as [= ->].
Qed.

Lemma parent_chain_fuel_total m n s :
  states_wf m → sptr_ok m s → (default O (S <$> s) ≤ n)%nat →
  ∃ l, parent_chain_fuel n m s = Some l.
Proof.
  intros Hwf. revert s. induction n as [|n IH]; intros [p|]; simpl; eauto; [lia|].
  intros [st Hst] Hle. simpl in Hle. rewrite Hst. simpl.
  destruct (IH (parent st)) as [l ->]; simpl; eauto.
  - destruct (parent st) as [p'|] eqn:E; simpl; [|done]. by eapply Hwf in E as [_ ?].
  - destruct (parent st) as [p'|] eqn:E; simpl; [|lia].
    destruct (Hwf _ _ _ Hst E). lia.
Qed.

(** The loop over the parents terminates without a null dereference. *)
Lemma parent_chain_total m s :
  states_wf m → sptr_ok m s → ∃ l, parent_chain m s = Some l.
Proof. intros. by apply parent_chain_fuel_total. Qed.

Lemma parent_chain_fuel_mono m n n' s l :
  parent_chain_fuel n m s = Some l → (n ≤ n')%nat → parent_chain_fuel n' m s = Some l.
Proof.
  revert n' s l. induction n as [|n IH]; intros n' [p|] l; simpl.
  - done.
  - intros [= <-] _. by destruct n'.
  - intros H Hle. destruct n' as [|n']; [lia|]. simpl.
    destruct (m !! p) as [st|]; simpl in *; [|done].
    destruct (parent_chain_fuel n m (parent st)) as [l'|] eqn:E; simpl in *; [|done].
    rewrite (IH n' _ _ E) by lia. done.
  - intros [= <-] _. by destruct n'.
Qed.

(** One step of the loop. *)
Lemma parent_chain_step m p st :
  states_wf m → m !! p = Some st →
  parent_chain m (Some p) = l ← parent_chain m (parent st); Some (p :: l).
Proof.
  intros Hwf Hst. unfold parent_chain at 1. simpl. rewrite Hst. simpl.
  assert (sptr_ok m (parent st)) as Hok.
  { destruct (parent st) as [p'|] eqn:E; simpl; [|done]. by eapply Hwf in E as [_ ?]. }
  destruct (parent_chain_total m (parent st) Hwf Hok) as [l Hl]. rewrite Hl.
  unfold parent_chain in Hl. erewrite parent_chain_fuel_mono; [done|done|].
  destruct (parent st) as [p'|] eqn:E; simpl; [|lia]. destruct (Hwf _ _ _ Hst E). lia.
Qed.

(** Every state of the chain is in the store, at or below its start. *)
Lemma parent_chain_elem m s l p :
  states_wf m → parent_chain m s = Some l → p ∈ l →
  is_Some (m !! p) ∧ ∃ p0, s = Some p0 ∧ (p ≤ p0)%nat.
Proof.
  unfold parent_chain. intros Hwf.
  generalize (default O (S <$> s)). intros n. revert s l.
  induction n as [|n IH]; intros [q|] l; simpl; intros H Hp; simplify_eq;
    try by apply elem_of_nil in Hp.
  destruct (m !! q) as [st|] eqn:Hq; simpl in *; [|done].
  destruct (parent_chain_fuel n m (parent st)) as [l'|] eqn:E; simpl in *; [|done].
  simplify_eq. apply elem_of_cons in Hp as [->|Hp]; [eauto|].
  destruct (IH _ _ E Hp) as (? & p0 & Hpar & Hle). split; [done|].
  destruct (Hwf _ _ _ Hq Hpar). exists q. split; [done|lia].
Qed.

(** A chain has no repetition: the parents descend strictly. *)
Lemma parent_chain_NoDup m s l :
  states_wf m → parent_chain m s = Some l → NoDup l.
Proof.
  unfold parent_chain. intros Hwf.
  assert (∀ n s l, parent_chain_fuel n m s = Some l →
    NoDup l ∧ ∀ p, p ∈ l → ∃ p0, s = Some p0 ∧ (p ≤ p0)%nat) as Haux.
  { clear s l. induction n as [|n IH]; intros [q|] l; simpl; intros H; simplify_eq;
      try (split; [constructor|set_solver]).
    destruct (m !! q) as [st|] eqn:Hq; simpl in *; [|done].
    destruct (parent_chain_fuel n m (parent st)) as [l'|] eqn:E; simpl in *; [|done].
    simplify_eq. destruct (IH _ _ E) as [Hnd Hle]. split.
    - constructor; [|done]. intros (p0 & Hpar & ?)%Hle.
      destruct (Hwf _ _ _ Hq Hpar). lia.
    - intros p [->|Hp]%elem_of_cons; [eauto|].
      destruct (Hle p Hp) as (p0 & Hpar & ?). destruct (Hwf _ _ _ Hq Hpar).
      exists q. split; [done|lia]. }
  intros H. by apply Haux in H as [? _].
Qed.

(** ** Sizes *)

Definition alloc_length (rt : Runtime) (a : aptr) : Z := default 0 (length <$> allocs rt !! a).

(** The loops that add up block sizes, with the wrap-around of [uint64_t]. *)
Lemma footprint_fold {A} (f : A → aptr) rt (l : list A) acc :
  (∀ e, e ∈ l → is_Some (allocs rt !! f e)) → u64 acc →
  mfoldl (λ size e, ob ← allocs rt !! f e; Some (size +₆₄ length ob)) acc l =
  Some (wrap64 (acc + foldr Z.add 0 ((λ e, alloc_length rt (f e)) <$> l))).
Proof.
  revert acc. induction l as [|e l IH]; intros acc Hl Hacc.
  - simpl. by rewrite Z.add_0_r, wrap64_small.
  - destruct (Hl e) as [ob Hob]; [set_solver|].
    cbn [mfoldl]. rewrite Hob. cbn [mbind option_bind].
    rewrite IH; [|intros; apply Hl; set_solver|apply add64_range].
    rewrite fmap_cons. cbn [foldr]. unfold alloc_length at 2. rewrite Hob. simpl.
    unfold add64, wrap64. rewrite Zplus_mod_idemp_l. do 2 f_equal. lia.
Qed.

#[export] Hint Resolve parent_chain_total parent_chain_NoDup : carmot.
