(* ===== verification/AllocTable.v ===== *)
(** * The allocation table

    [class AllocationTable] of extra/texas/src/runtime/AllocationTable.{hpp,cpp}:
    the map from addresses to tracked blocks.  Blocks whose length is one of
    [maskLengths] live in a hash table that is probed with the masked address,
    all others in a sorted map that is searched for the predecessor. *)

From S2P Require Import Prelude Helpers OrdMap Objects.

(** ** Data *)

(** [typedef boost::adjacency_list<vecS, vecS, directedS, Vertex, Edge> graph_t]:
    vertex [n] is the [n]th element of [vertices]; every edge has weight 1. *)
Record graph_t := mkGraph {
  vertices : list aptr;
  edges : list (nat * nat);
}.

Definition empty_graph : graph_t := mkGraph [] [].

(** [class SmartPointerCycle] *)
Record SmartPointerCycle := mkCycle {
  cycle : list aptr;
  cycle_states : gset sptr; (** [states] *)
  weakPoint : option aptr;
}.

(** [class AllocationTable].  [masks] and [maskLengths] are unordered sets; the
    lists hold their iteration order, which no theorem depends on. *)
Record AllocationTable := mkTable {
  sortedAllocationTable : list (Z * aptr);
  hashAllocationTable : gmap Z aptr;
  allocConnections : graph_t;
  masks : list Z;
  maskLengths : list Z;
  cycles : list SmartPointerCycle;
}.

(** [AllocationTable::AllocationTable()] *)
Definition new_AllocationTable : AllocationTable :=
  mkTable [] ∅ empty_graph [] [] [].

Definition set_sorted (x : list (Z * aptr)) (t : AllocationTable) : AllocationTable :=
  mkTable x (hashAllocationTable t) (allocConnections t) (masks t) (maskLengths t) (cycles t).
Definition set_hash (x : gmap Z aptr) (t : AllocationTable) : AllocationTable :=
  mkTable (sortedAllocationTable t) x (allocConnections t) (masks t) (maskLengths t) (cycles t).
Definition set_masks (x : list Z) (t : AllocationTable) : AllocationTable :=
  mkTable (sortedAllocationTable t) (hashAllocationTable t) (allocConnections t) x (maskLengths t) (cycles t).
Definition set_maskLengths (x : list Z) (t : AllocationTable) : AllocationTable :=
  mkTable (sortedAllocationTable t) (hashAllocationTable t) (allocConnections t) (masks t) x (cycles t).
Definition set_connections (x : graph_t) (t : AllocationTable) : AllocationTable :=
  mkTable (sortedAllocationTable t) (hashAllocationTable t) x (masks t) (maskLengths t) (cycles t).
Definition set_cycles (x : list SmartPointerCycle) (t : AllocationTable) : AllocationTable :=
  mkTable (sortedAllocationTable t) (hashAllocationTable t) (allocConnections t) (masks t) (maskLengths t) x.

(** [unordered_set::insert] *)
Definition uset_insert (x : Z) (l : list Z) : list Z :=
  if decide (x ∈ l) then l else x :: l.

(** ** Masks *)

(** [MaskKey] *)
Definition MaskKey (ptr mask : Z) : Z := Z.land ptr mask.

(** [(mask >> shiftInt) << shiftInt] for [mask = -1] *)
Definition mask_of_shift (shiftInt : Z) : Z :=
  wrap64 (Z.shiftl (Z.shiftr (two64 - 1) shiftInt) shiftInt).

Section log2.
  (** [(uint64_t)(float)log2(length)]: the floating-point logarithm of the C
      library, truncated. *)
  Context (log2 : Z → Z).

  (** [AddMaskForLength]; a length that is no power of two only triggers a
      debug message. *)
Definition AddMaskForLength (len : Z) (t : AllocationTable) : AllocationTable :=
    let shiftInt := log2 len in
    let mask := mask_of_shift shiftInt in
    set_maskLengths (uset_insert len (maskLengths t)) (set_masks (uset_insert mask (masks t)) t).

  (** [AllocationTable(uint64_t mask)] and
      [AllocationTable(std::unordered_set<uint64_t> masks)] *)
Definition new_AllocationTable_mask (mask : Z) : AllocationTable :=
    AddMaskForLength mask new_AllocationTable.
Definition new_AllocationTable_masks (ms : list Z) : AllocationTable :=
    foldl (λ t i, AddMaskForLength i t) new_AllocationTable ms.
End log2.

(** ** Search, insertion, deletion *)

(** The first loop of [findAllocation]: probe the hash table with every mask. *)
Fixpoint find_masked (key : Z) (ms : list Z) (h : gmap Z aptr) : option aptr :=
  match ms with
  | [] => None
  | mask :: ms =>
      match h !! MaskKey key mask with
      | Some a => Some a
      | None => find_masked key ms h
      end
  end.

(** [Allocation* findAllocation(void* key)].  The outer option is a crash
    (a table entry that points to no object), the inner one [nullptr]. *)
Definition findAllocation (t : AllocationTable) (rt : Runtime) (key : Z) : option (option aptr) :=
  match find_masked key (masks t) (hashAllocationTable t) with
  | Some a => Some (Some a)
  | None =>
      let '(before, from) := om_lower_bound key (sortedAllocationTable t) in
      match from with
      | [] => Some None
      | (blockStart, a) :: _ =>
          _ ← allocs rt !! a;
          if decide (blockStart = key) then Some (Some a)
          else
            match last before with
            | Some (blockStart', a') =>
                ob ← allocs rt !! a';
                if decide (doesItAlias blockStart' (length ob) key = -1)
                then Some None else Some (Some a')
            | None => Some None
            end
      end
  end.

(** [InsertAllocation]; [insert] keeps an existing entry of either table. *)
Definition InsertAllocation (key : Z) (entry : aptr) (rt : Runtime) (t : AllocationTable)
    : option AllocationTable :=
  ob ← allocs rt !! entry;
  Some (if decide (length ob ∈ maskLengths t) then
    match hashAllocationTable t !! key with
    | Some _ => t
    | None => set_hash (<[key := entry]> (hashAllocationTable t)) t
    end
  else set_sorted (om_insert key entry (sortedAllocationTable t)) t).

(** [DeleteAllocation] *)
Definition DeleteAllocation (key : Z) (t : AllocationTable) : AllocationTable :=
  match hashAllocationTable t !! key with
  | Some _ => set_hash (delete key (hashAllocationTable t)) t
  | None => set_sorted (om_erase key (sortedAllocationTable t)) t
  end.

(** [Clear] *)
Definition Clear (t : AllocationTable) : AllocationTable :=
  set_sorted [] (set_hash ∅ t).

(** [MergeTable(tableToMerge, overwrite)].  The loops over the hash table visit
    each key once, so they are a biased union. *)
Definition MergeTable (tableToMerge : AllocationTable) (overwrite : bool) (t : AllocationTable)
    : AllocationTable :=
  let t := set_masks (foldl (λ l m, uset_insert m l) (masks t) (masks tableToMerge)) t in
  if overwrite then
    let t := set_hash (hashAllocationTable tableToMerge ∪ hashAllocationTable t) t in
    set_sorted (foldl (λ m p, om_assign p.1 p.2 m) (sortedAllocationTable t)
      (sortedAllocationTable tableToMerge)) t
  else
    let t := set_hash (hashAllocationTable t ∪ hashAllocationTable tableToMerge) t in
    set_sorted (foldl (λ m p, om_insert p.1 p.2 m) (sortedAllocationTable t)
      (sortedAllocationTable tableToMerge)) t.

(** The objects of the table, in the order of the loops that visit the sorted
    map first, and the other way round. *)
Definition table_entries (t : AllocationTable) : list (Z * aptr) :=
  sortedAllocationTable t ++ map_to_list (hashAllocationTable t).
Definition table_entries_hash_first (t : AllocationTable) : list (Z * aptr) :=
  map_to_list (hashAllocationTable t) ++ sortedAllocationTable t.

(** [GetMemFootprint] *)
Definition GetMemFootprint (t : AllocationTable) (rt : Runtime) : option Z :=
  mfoldl (λ size (e : Z * aptr), ob ← allocs rt !! e.2; Some (size +₆₄ length ob)) 0 (table_entries t).

(** ** The contract of the table

    [owner t rt v a]: object [a] is tracked and its block covers address [v];
    a zero-length block covers its start, as the exact match of the code has it. *)
Definition covers (k : Z) (ob : Allocation) (v : Z) : Prop :=
  v = k ∨ in_block k (length ob) v.

#[export] Instance covers_dec k ob v : Decision (covers k ob v).
Proof. unfold covers. apply _. Defined.

Definition owner (t : AllocationTable) (rt : Runtime) (v : Z) (a : aptr) : Prop :=
  ∃ k ob, (k, a) ∈ table_entries t ∧ allocs rt !! a = Some ob ∧ covers k ob v.

(** The address past all blocks, at which [texas_init] puts an entry of length 0. *)
Definition max_key : Z := two64 - 1.

(** A tracked block: a live object whose bytes lie below the sentinel (the
    sentinel itself is empty). *)
Definition entry_ok (rt : Runtime) (e : Z * aptr) : Prop :=
  ∃ ob, allocs rt !! e.2 = Some ob ∧ 0 <= e.1 <= max_key ∧ 0 <= length ob ∧
        e.1 + length ob <= max_key.

(** Two entries are apart: the lower one ends before the higher one starts. *)
Definition apart (rt : Runtime) (e1 e2 : Z * aptr) : Prop :=
  ∀ ob, allocs rt !! e1.2 = Some ob → e1.1 < e2.1 → e1.1 + length ob <= e2.1.

(** The hash table only holds aligned blocks of the one masked size. *)
Definition hash_ok (t : AllocationTable) (rt : Runtime) : Prop :=
  ∃ n, 0 <= n < 64 ∧ (∀ m, m ∈ masks t → m = mask_of_shift n) ∧
    ∀ k a, hashAllocationTable t !! k = Some a →
      masks t ≠ [] ∧ (2 ^ n | k) ∧ om_find k (sortedAllocationTable t) = None ∧
      ∃ ob, allocs rt !! a = Some ob ∧ length ob = 2 ^ n.

Record table_ok (t : AllocationTable) (rt : Runtime) : Prop := {
  tok_sorted : om_wf (sortedAllocationTable t);
  tok_sentinel : is_Some (om_find max_key (sortedAllocationTable t));
  tok_entry e : e ∈ table_entries t → entry_ok rt e;
  tok_apart e1 e2 : e1 ∈ table_entries t → e2 ∈ table_entries t → apart rt e1 e2;
  tok_hash : hash_ok t rt;
}.

(** ** Masks *)

Lemma mask_of_shift_spec n : 0 <= n < 64 → mask_of_shift n = two64 - 2 ^ n.
Proof.
  intros Hn. unfold mask_of_shift.
  rewrite Z.shiftl_mul_pow2, Z.shiftr_div_pow2 by lia.
  assert (two64 = 2 ^ (64 - n) * 2 ^ n) as E.
  { rewrite <- Z.pow_add_r by lia. by replace (64 - n + n) with 64 by lia. }
  assert (0 < 2 ^ n) by (apply Z.pow_pos_nonneg; lia).
  assert (0 < 2 ^ (64 - n)) by (apply Z.pow_pos_nonneg; lia).
  assert ((two64 - 1) / 2 ^ n = 2 ^ (64 - n) - 1) as ->.
  { symmetry. apply Z.div_unique with (2 ^ n - 1); nia. }
  rewrite wrap64_small; [nia|]. unfold u64. nia.
Qed.

(** Masking rounds an address down to a multiple of the block size. *)
Lemma MaskKey_align ptr n :
  u64 ptr → 0 <= n < 64 → MaskKey ptr (mask_of_shift n) = ptr - ptr mod 2 ^ n.
Proof.
  intros Hp Hn. unfold MaskKey. rewrite mask_of_shift_spec by done.
  assert (0 < 2 ^ n) as Hpos by (apply Z.pow_pos_nonneg; lia).
  rewrite (Z.div_mod ptr (2 ^ n)) at 2 by lia.
  replace (2 ^ n * (ptr / 2 ^ n) + ptr mod 2 ^ n - ptr mod 2 ^ n)
    with (Z.shiftl (Z.shiftr ptr n) n)
    by (rewrite Z.shiftl_mul_pow2, Z.shiftr_div_pow2 by lia; lia).
  replace (two64 - 2 ^ n) with (Z.shiftl (Z.ones (64 - n)) n).
  2:{ rewrite Z.shiftl_mul_pow2, Z.ones_equiv by lia.
      replace two64 with (2 ^ (64 - n) * 2 ^ n); [lia|].
      rewrite <- Z.pow_add_r by lia. by replace (64 - n + n) with 64 by lia. }
  apply Z.bits_inj'. intros i Hi.
  rewrite Z.land_spec, !Z.shiftl_spec by done.
  destruct (decide (i < n)) as [Hlt|Hge].
  { rewrite !(Z.testbit_neg_r _ (i - n)) by lia. by rewrite andb_false_r. }
  rewrite Z.shiftr_spec by lia. replace (i - n + n) with i by lia.
  destruct (decide (i < 64)).
  - rewrite Z.ones_spec_low by lia. by rewrite andb_true_r.
  - rewrite Z.ones_spec_high by lia. rewrite andb_false_r. symmetry.
    rewrite <- (Z.mod_small ptr (2 ^ 64)) by (unfold u64, two64 in Hp; lia).
    by rewrite Z.mod_pow2_bits_high by lia.
Qed.

(** ** Search *)

Lemma table_entries_elem t k a :
  om_wf (sortedAllocationTable t) →
  (k, a) ∈ table_entries t ↔
  om_find k (sortedAllocationTable t) = Some a ∨ hashAllocationTable t !! k = Some a.
Proof.
  intros Hwf. unfold table_entries.
  by rewrite elem_of_app, elem_of_map_to_list, om_find_elem_of by done.
Qed.

Lemma entry_functional t rt k a1 a2 :
  table_ok t rt → (k, a1) ∈ table_entries t → (k, a2) ∈ table_entries t → a1 = a2.
Proof.
  intros [Hwf _ _ _ (n & _ & _ & Hh)]. rewrite !table_entries_elem by done.
  intros [H1|H1] [H2|H2]; try congruence.
  - destruct (Hh _ _ H2) as (_&_&?&_). congruence.
  - destruct (Hh _ _ H1) as (_&_&?&_). congruence.
Qed.

(** At most one tracked block covers an address. *)
Lemma cover_unique t rt v k1 k2 a1 a2 ob1 ob2 :
  table_ok t rt →
  (k1, a1) ∈ table_entries t → allocs rt !! a1 = Some ob1 → covers k1 ob1 v →
  (k2, a2) ∈ table_entries t → allocs rt !! a2 = Some ob2 → covers k2 ob2 v →
  k1 = k2 ∧ a1 = a2.
Proof.
  intros Hok Hin1 Hob1 Hc1 Hin2 Hob2 Hc2.
  destruct (tok_entry _ _ Hok _ Hin1) as (ob1' & ? & _); simplify_eq/=.
  destruct (tok_entry _ _ Hok _ Hin2) as (ob2' & ? & _); simplify_eq/=.
  pose proof (tok_apart _ _ Hok _ _ Hin1 Hin2 ob1 ltac:(done)) as H12.
  pose proof (tok_apart _ _ Hok _ _ Hin2 Hin1 ob2 ltac:(done)) as H21.
  simpl in *. unfold covers, in_block in *.
  destruct (Z.lt_trichotomy k1 k2) as [?|[->|?]]; [lia| |lia].
  split; [done|]. by eapply entry_functional.
Qed.

Lemma owner_unique t rt v a1 a2 :
  table_ok t rt → owner t rt v a1 → owner t rt v a2 → a1 = a2.
Proof.
  intros Hok (k1 & ob1 & Hin1 & Hob1 & Hc1) (k2 & ob2 & Hin2 & Hob2 & Hc2).
  by destruct (cover_unique t rt v k1 k2 a1 a2 ob1 ob2).
Qed.

Lemma find_masked_Some v ms h a :
  find_masked v ms h = Some a → ∃ m, m ∈ ms ∧ h !! MaskKey v m = Some a.
Proof.
  induction ms as [|m ms IH]; simpl; [done|].
  destruct (h !! MaskKey v m) eqn:E; intros H; simplify_eq.
  - exists m. split; [set_solver|done].
  - destruct (IH H) as (m' & ? & ?). exists m'. split; [set_solver|done].
Qed.

Lemma find_masked_None v ms h m :
  find_masked v ms h = None → m ∈ ms → h !! MaskKey v m = None.
Proof.
  induction ms as [|m' ms IH]; simpl; intros H Hm; [set_solver|].
  destruct (h !! MaskKey v m') eqn:E; simplify_eq.
  apply elem_of_cons in Hm as [->|Hm]; auto.
Qed.

Lemma find_masked_owner t rt v a :
  table_ok t rt → u64 v →
  find_masked v (masks t) (hashAllocationTable t) = Some a → owner t rt v a.
Proof.
  intros Hok Hv (m & Hm & Hlk)%find_masked_Some.
  destruct (tok_hash _ _ Hok) as (n & Hn & Hms & Hh).
  rewrite (Hms _ Hm), MaskKey_align in Hlk by done.
  destruct (Hh _ _ Hlk) as (_ & _ & _ & ob & Hob & Hlen).
  exists (v - v mod 2 ^ n), ob. split.
  { apply table_entries_elem; [apply Hok|]. by right. }
  split; [done|]. right. unfold in_block. rewrite Hlen.
  assert (0 < 2 ^ n) by (apply Z.pow_pos_nonneg; lia).
  pose proof (Z.mod_pos_bound v (2 ^ n)). lia.
Qed.

(** A block of the hash table is found by the masks. *)
Lemma find_masked_complete t rt v k a ob :
  table_ok t rt → u64 v → hashAllocationTable t !! k = Some a →
  allocs rt !! a = Some ob → covers k ob v →
  find_masked v (masks t) (hashAllocationTable t) ≠ None.
Proof.
  intros Hok Hv Hk Hob Hc Hnone.
  destruct (tok_hash _ _ Hok) as (n & Hn & Hms & Hh).
  destruct (Hh _ _ Hk) as (Hne & [q ->] & _ & ob' & ? & Hlen). simplify_eq.
  destruct (masks t) as [|m ms] eqn:Em; [done|].
  assert (m ∈ m :: ms) as Hm by set_solver.
  pose proof (find_masked_None _ _ _ _ Hnone Hm) as Hnl.
  rewrite (Hms _ Hm), MaskKey_align in Hnl by done.
  assert (0 < 2 ^ n) by (apply Z.pow_pos_nonneg; lia).
  assert (v / 2 ^ n = q) as Hq.
  { symmetry. apply Z.div_unique with (v - q * 2 ^ n); [|lia].
    unfold covers, in_block in Hc. lia. }
  pose proof (Z.div_mod v (2 ^ n)). replace (v - v mod 2 ^ n) with (q * 2 ^ n) in Hnl by lia.
  congruence.
Qed.

(** The predecessor search: which sorted entries can cover [v]. *)
Lemma lower_bound_covers t rt v before from k a ob :
  table_ok t rt → om_lower_bound v (sortedAllocationTable t) = (before, from) →
  om_find k (sortedAllocationTable t) = Some a → allocs rt !! a = Some ob → covers k ob v →
  (k = v ∧ ∃ from', from = (v, a) :: from') ∨ (k < v ∧ last before = Some (k, a)).
Proof.
  intros Hok Hlb Hk Hob Hc. pose proof (tok_sorted _ _ Hok) as Hwf.
  destruct (om_lower_bound_spec _ _ _ _ Hwf Hlb) as (Hm & Hl & Hr).
  pose proof Hk as Hin. rewrite om_find_elem_of in Hin by done.
  pose proof Hin as Hin'. rewrite Hm in Hin', Hwf. apply om_wf_app in Hwf as (Hw1 & Hw2 & Hlt).
  rewrite Forall_forall in Hl, Hr. apply elem_of_app in Hin' as [Hb|Hf].
  - right. split; [apply (Hl _ Hb)|].
    destruct (last before) as [[k' a']|] eqn:El.
    2:{ apply last_None in El as ->. set_solver. }
    apply last_Some in El as [b' ->]. apply elem_of_app in Hb as [Hb|Hb]; [|set_solver].
    exfalso. apply om_wf_app in Hw1 as (_ & _ & Hlt1).
    assert (k < k') by (apply (Hlt1 _ (k', a') Hb); set_solver).
    assert (k' < v) by (apply (Hl (k', a')); set_solver).
    assert ((k', a') ∈ table_entries t) as Hin2.
    { unfold table_entries. rewrite Hm. set_solver. }
    assert ((k, a) ∈ table_entries t) as Hin1 by (unfold table_entries; set_solver).
    pose proof (tok_apart _ _ Hok _ _ Hin1 Hin2 ob Hob) as Hap. simpl in Hap.
    unfold covers, in_block in Hc. lia.
  - left. pose proof (Hr _ Hf) as Hr'; simpl in Hr'.
    assert (k = v) as ->. { unfold covers, in_block in Hc. lia. }
    split; [done|]. destruct from as [|[k' a'] from']; [set_solver|].
    exists from'. apply elem_of_cons in Hf as [[= <- <-]|Hf]; [done|]. exfalso.
    apply StronglySorted_inv in Hw2 as [_ Hall]. rewrite Forall_forall in Hall.
    specialize (Hall _ Hf). simpl in Hall.
    assert (v <= k') by (apply (Hr (k', a')); set_solver). lia.
Qed.

Lemma entry_block_ok rt e ob : entry_ok rt e → allocs rt !! e.2 = Some ob → block_ok e.1 (length ob).
Proof.
  intros (ob' & ? & ?) ?; simplify_eq. unfold block_ok, max_key in *. lia.
Qed.

(** The search in the sorted map, when the hash probe has failed. *)
Lemma find_sorted_owner t rt v before from a :
  table_ok t rt → om_lower_bound v (sortedAllocationTable t) = (before, from) →
  find_masked v (masks t) (hashAllocationTable t) = None →
  findAllocation t rt v = Some (Some a) → owner t rt v a.
Proof.
  intros Hok Hlb Hm. unfold findAllocation. rewrite Hm, Hlb.
  pose proof (tok_sorted _ _ Hok) as Hwf.
  destruct (om_lower_bound_spec _ _ _ _ Hwf Hlb) as (Hs & _ & _).
  destruct from as [|[b a1] from]; [done|]. intros H. destruct_bind.
  case_decide; destruct_bind; subst.
  - exists v, x. split; [unfold table_entries; rewrite Hs; set_solver|].
    split; [done|by left].
  - destruct (last before) as [[b' a']|] eqn:El; [|done]. destruct_bind.
    case_decide; [done|]. simplify_eq. apply last_Some in El as [l' ->].
    assert ((b', a) ∈ table_entries t) as Hin by (unfold table_entries; rewrite Hs; set_solver).
    exists b', x0. split; [done|]. split; [done|]. right.
    destruct (decide (in_block b' (length x0) v)) as [|Hno]; [done|].
    exfalso. by apply H3, (doesItAlias_miss b' (length x0) v
      (entry_block_ok _ _ _ (tok_entry _ _ Hok _ Hin) H0)).
Qed.

(** The search never touches a dangling entry. *)
Lemma findAllocation_total t rt v :
  table_ok t rt → ∃ r, findAllocation t rt v = Some r.
Proof.
  intros Hok. unfold findAllocation. destruct (find_masked _ _ _); [eauto|].
  destruct (om_lower_bound v (sortedAllocationTable t)) as [before from] eqn:Hlb.
  destruct (om_lower_bound_spec _ _ _ _ (tok_sorted _ _ Hok) Hlb) as (Hs & _ & _).
  destruct from as [|[b a1] from]; [eauto|].
  destruct (tok_entry _ _ Hok (b, a1)) as (ob & Hob & _).
  { unfold table_entries. rewrite Hs. set_solver. }
  simpl in Hob. rewrite Hob. simpl. case_decide; [eauto|].
  destruct (last before) as [[b' a']|] eqn:El; [|eauto]. apply last_Some in El as [l' ->].
  destruct (tok_entry _ _ Hok (b', a')) as (ob' & Hob' & _).
  { unfold table_entries. rewrite Hs. set_solver. }
  simpl in Hob'. rewrite Hob'. simpl. case_decide; eauto.
Qed.

(** Whatever the search returns is an entry of the table. *)
Lemma findAllocation_entry t rt v a :
  findAllocation t rt v = Some (Some a) → a ∈ (table_entries t).*2.
Proof.
  unfold findAllocation, table_entries. rewrite fmap_app, elem_of_app, !list_elem_of_fmap.
  destruct (find_masked v (masks t) (hashAllocationTable t)) as [a'|] eqn:Em.
  - intros [= ->]. apply find_masked_Some in Em as (m & _ & Hm). right.
    exists (MaskKey v m, a). by rewrite elem_of_map_to_list.
  - destruct (om_lower_bound v (sortedAllocationTable t)) as [before from] eqn:Hlb.
    pose proof (om_lower_bound_app _ _ _ _ Hlb) as Hs. rewrite Hs.
    destruct from as [|[b a1] from]; [done|]. intros H. destruct_bind. left.
    case_decide; [destruct_bind; exists (v, a); set_solver|].
    destruct (last before) as [[b' a']|] eqn:El; [|done]. destruct_bind. case_decide; simplify_eq.
    apply last_Some in El as [l' ->]. exists (b', a). set_solver.
Qed.

Lemma findAllocation_live t rt v a :
  table_ok t rt → findAllocation t rt v = Some (Some a) → is_Some (allocs rt !! a).
Proof.
  intros Hok Ha%findAllocation_entry. apply list_elem_of_fmap in Ha as (e & -> & He).
  destruct (tok_entry _ _ Hok e He) as (ob & ? & _). eauto.
Qed.

(** The search finds every block that covers the address. *)
Lemma findAllocation_complete t rt v a :
  table_ok t rt → u64 v → owner t rt v a → findAllocation t rt v = Some (Some a).
Proof.
  intros Hok Hv Hown. destruct (findAllocation_total t rt v Hok) as [r Hr].
  pose proof Hr as Hr'. unfold findAllocation in Hr.
  destruct (find_masked v (masks t) (hashAllocationTable t)) as [a'|] eqn:Em.
  { rewrite Hr', <- Hr. do 2 f_equal.
    eapply owner_unique; [done| |done]. by apply find_masked_owner. }
  destruct Hown as (k & ob & Hin & Hob & Hc).
  apply table_entries_elem in Hin as [Hin|Hin]; [|by destruct
    (find_masked_complete _ _ _ _ _ _ Hok Hv Hin Hob Hc)|apply Hok].
  destruct (om_lower_bound v (sortedAllocationTable t)) as [before from] eqn:Hlb.
  rewrite Hr', <- Hr. clear Hr.
  destruct (lower_bound_covers _ _ _ _ _ _ _ _ Hok Hlb Hin Hob Hc) as
    [[-> [from' ->]]|[Hlt Hlast]].
  { rewrite Hob. simpl. by rewrite decide_True. }
  destruct (om_lower_bound_spec _ _ _ _ (tok_sorted _ _ Hok) Hlb) as (Hs & Hb & _).
  destruct from as [|[b a1] from].
  { exfalso. destruct (tok_sentinel _ _ Hok) as [am Hmax].
    apply om_find_elem_of in Hmax; [|apply Hok].
    rewrite Hs, app_nil_r in Hmax. rewrite Forall_forall in Hb.
    specialize (Hb _ Hmax). unfold u64, max_key in *. simpl in Hb. lia. }
  destruct (tok_entry _ _ Hok (b, a1)) as (ob1 & Hob1 & _).
  { unfold table_entries. rewrite Hs. set_solver. }
  destruct (om_lower_bound_spec _ _ _ _ (tok_sorted _ _ Hok) Hlb) as (_ & _ & Hge).
  simpl in Hob1. rewrite Hob1. simpl. case_decide as Hbv.
  - subst. exfalso. apply last_Some in Hlast as [l' ->].
    assert ((k, a) ∈ table_entries t) as H1 by (unfold table_entries; rewrite Hs; set_solver).
    assert ((v, a1) ∈ table_entries t) as H2 by (unfold table_entries; rewrite Hs; set_solver).
    pose proof (tok_apart _ _ Hok _ _ H1 H2 ob Hob Hlt) as Hap. simpl in Hap.
    unfold covers, in_block in Hc. lia.
  - rewrite Hlast. simpl. rewrite Hob. simpl.
    assert ((k, a) ∈ table_entries t) as Hin'.
    { apply table_entries_elem; [apply Hok|by left]. }
    rewrite decide_False; [done|].
    rewrite doesItAlias_miss; [unfold covers in Hc; naive_solver lia|].
    by apply (entry_block_ok rt (k, a) ob), Hob; apply (tok_entry _ _ Hok).
Qed.

Lemma findAllocation_sound t rt v a :
  table_ok t rt → u64 v → findAllocation t rt v = Some (Some a) → owner t rt v a.
Proof.
  intros Hok Hv H.
  destruct (find_masked v (masks t) (hashAllocationTable t)) as [a'|] eqn:Em.
  - unfold findAllocation in H. rewrite Em in H. simplify_eq. by apply find_masked_owner.
  - destruct (om_lower_bound v (sortedAllocationTable t)) as [before from] eqn:Hlb.
    by eapply find_sorted_owner.
Qed.

(** The result of a search is determined by the owner relation. *)
Lemma findAllocation_None t rt v :
  table_ok t rt → u64 v → findAllocation t rt v = Some None ↔ ∀ a, ¬ owner t rt v a.
Proof.
  intros Hok Hv. split.
  - intros H a Hown. by rewrite (findAllocation_complete _ _ _ _ Hok Hv Hown) in H.
  - intros H. destruct (findAllocation_total t rt v Hok) as [[a|] Hr]; [|done].
    destruct (H a). by apply findAllocation_sound.
Qed.

Lemma findAllocation_ext t t' rt v :
  table_ok t rt → table_ok t' rt → u64 v → (∀ a, owner t rt v a ↔ owner t' rt v a) →
  findAllocation t rt v = findAllocation t' rt v.
Proof.
  intros Hok Hok' Hv Hext. destruct (findAllocation_total t rt v Hok) as [[a|] Hr]; rewrite Hr.
  - symmetry. apply findAllocation_complete; [done..|]. apply Hext.
    by apply findAllocation_sound.
  - symmetry. apply findAllocation_None; [done..|]. intros a Ha%Hext.
    rewrite findAllocation_None in Hr by done. exact (Hr a Ha).
Qed.

(** Well-formedness depends on nothing but the lengths of the blocks. *)
Lemma length_ext_find rt rt' a ob :
  (∀ b, length <$> allocs rt' !! b = length <$> allocs rt !! b) →
  allocs rt !! a = Some ob → ∃ ob', allocs rt' !! a = Some ob' ∧ length ob' = length ob.
Proof.
  intros Hl Ha. specialize (Hl a). rewrite Ha in Hl. destruct (allocs rt' !! a); simplify_eq/=. eauto.
Qed.

Lemma table_ok_length_ext t rt rt' :
  (∀ b, length <$> allocs rt' !! b = length <$> allocs rt !! b) → table_ok t rt → table_ok t rt'.
Proof.
  intros Hl [Hs Hsen He Ha (n & Hn & Hm & Hh)].
  assert (∀ b, length <$> allocs rt !! b = length <$> allocs rt' !! b) as Hl' by done.
  split; [done|done| | |].
  - intros e Hin. destruct (He e Hin) as (ob & Hob & H).
    destruct (length_ext_find _ _ _ _ Hl Hob) as (ob' & ? & E). exists ob'. by rewrite E.
  - intros e1 e2 H1 H2 ob Hob Hlt. destruct (length_ext_find _ _ _ _ Hl' Hob) as (ob' & Hob' & E).
    rewrite <- E. by apply (Ha e1 e2).
  - exists n. split; [done|]. split; [done|]. intros k a Hk.
    destruct (Hh _ _ Hk) as (?&?&?&ob&Hob&E). do 3 (split; [done|]).
    destruct (length_ext_find _ _ _ _ Hl Hob) as (ob' & ? & E'). exists ob'. by rewrite E', E.
Qed.

(** ** Insertion and deletion *)

(** A new block fits: its key is free, it overlaps no tracked block, and it is
    aligned if its length sends it to the hash table. *)
Record insert_fits (t : AllocationTable) (rt : Runtime) (key : Z) (entry : aptr)
    (ob : Allocation) : Prop := {
  fit_alloc : allocs rt !! entry = Some ob;
  fit_entry : entry_ok rt (key, entry);
  fit_apart e : e ∈ table_entries t → e.1 ≠ key ∧ apart rt e (key, entry) ∧ apart rt (key, entry) e;
  fit_hash : length ob ∈ maskLengths t →
    ∃ n, 0 <= n < 64 ∧ length ob = 2 ^ n ∧ (2 ^ n | key) ∧ masks t = [mask_of_shift n];
}.

Lemma fits_absent t rt key entry ob :
  table_ok t rt → insert_fits t rt key entry ob →
  om_find key (sortedAllocationTable t) = None ∧ hashAllocationTable t !! key = None.
Proof.
  intros Hok Hfit. split; apply eq_None_not_Some; intros [a Ha].
  all: assert ((key, a) ∈ table_entries t) as Hin by (apply table_entries_elem; [apply Hok|auto]).
  all: by destruct (fit_apart _ _ _ _ _ Hfit _ Hin) as [? _].
Qed.

Lemma InsertAllocation_elem t t' rt key entry ob k a :
  table_ok t rt → insert_fits t rt key entry ob → InsertAllocation key entry rt t = Some t' →
  om_wf (sortedAllocationTable t') ∧
  ((k, a) ∈ table_entries t' ↔ (k, a) = (key, entry) ∨ (k, a) ∈ table_entries t).
Proof.
  intros Hok Hfit. destruct (fits_absent _ _ _ _ _ Hok Hfit) as [Hns Hnh].
  pose proof (tok_sorted _ _ Hok) as Hwf.
  unfold InsertAllocation. rewrite (fit_alloc _ _ _ _ _ Hfit). simpl. intros [= <-].
  rewrite Hnh. case_decide; simpl.
  - split; [done|]. rewrite !table_entries_elem by done. simpl.
    rewrite lookup_insert_Some. destruct (decide (key = k)); naive_solver.
  - pose proof (om_wf_insert key entry _ Hwf) as Hwf'. split; [done|].
    rewrite !table_entries_elem by done. simpl.
    destruct (decide (key = k)) as [->|Hne].
    + rewrite om_find_insert_eq, Hns by done. simpl. rewrite Hnh. naive_solver.
    + rewrite om_find_insert_ne by done. naive_solver.
Qed.

Lemma InsertAllocation_hash_ok t t' rt key entry ob :
  table_ok t rt → insert_fits t rt key entry ob → InsertAllocation key entry rt t = Some t' →
  hash_ok t' rt.
Proof.
  intros Hok Hfit. destruct (fits_absent _ _ _ _ _ Hok Hfit) as [Hns Hnh].
  unfold InsertAllocation. rewrite (fit_alloc _ _ _ _ _ Hfit). simpl. intros [= <-].
  rewrite Hnh. destruct (tok_hash _ _ Hok) as (n & Hn & Hms & Hh). case_decide as Hlen; simpl.
  - destruct (fit_hash _ _ _ _ _ Hfit Hlen) as (n' & Hn' & Hl & Hdiv & Hm).
    exists n'. split; [done|]. simpl. rewrite Hm in *. split; [set_solver|].
    assert (2 ^ n = 2 ^ n') as Hpow.
    { assert (mask_of_shift n' = mask_of_shift n) as E by (apply Hms; set_solver).
      rewrite !mask_of_shift_spec in E by done. lia. }
    intros k a. rewrite lookup_insert_Some. intros [[<- <-]|[Hne Hk]].
    + split; [done|]. split; [done|]. split; [done|]. exists ob. by destruct Hfit.
    + destruct (Hh _ _ Hk) as (?&?&?&?). by rewrite <- Hpow.
  - exists n. split; [done|]. simpl. split; [done|]. intros k a Hk.
    destruct (Hh _ _ Hk) as (?&?&?&?). split; [done|]. split; [done|]. split; [|done].
    rewrite om_find_insert_ne; [done|]. intros ->. congruence.
Qed.

Lemma InsertAllocation_ok t t' rt key entry ob :
  table_ok t rt → insert_fits t rt key entry ob → InsertAllocation key entry rt t = Some t' →
  table_ok t' rt.
Proof.
  intros Hok Hfit Hins.
  pose proof (λ k a, InsertAllocation_elem _ _ _ _ _ _ k a Hok Hfit Hins) as He.
  assert (∀ e, e ∈ table_entries t' → e = (key, entry) ∨ e ∈ table_entries t) as He'.
  { intros [k a]. apply He. }
  split.
  - apply (He key entry).
  - destruct (tok_sentinel _ _ Hok) as [am Hmax]. exists am.
    unfold InsertAllocation in Hins. rewrite (fit_alloc _ _ _ _ _ Hfit) in Hins.
    simpl in Hins. injection Hins as <-. repeat case_match; simpl; try done.
    rewrite om_find_insert_ne; [done|]. intros ->.
    by rewrite (proj1 (fits_absent _ _ _ _ _ Hok Hfit)) in Hmax.
  - intros e [->|Hin]%He'; [apply Hfit|by apply (tok_entry _ _ Hok)].
  - intros e1 e2 [->|H1]%He' [->|H2]%He'.
    + intros ob' ? ?; simpl in *; lia.
    + by apply (fit_apart _ _ _ _ _ Hfit).
    + by apply (fit_apart _ _ _ _ _ Hfit).
    + by apply (tok_apart _ _ Hok).
  - by eapply InsertAllocation_hash_ok.
Qed.

Lemma InsertAllocation_owner t t' rt key entry ob v a :
  table_ok t rt → insert_fits t rt key entry ob → InsertAllocation key entry rt t = Some t' →
  owner t' rt v a ↔ (a = entry ∧ covers key ob v) ∨ owner t rt v a.
Proof.
  intros Hok Hfit Hins. unfold owner. split.
  - intros (k & ob' & Hin & Hob & Hc).
    apply (InsertAllocation_elem _ _ _ _ _ _ _ _ Hok Hfit Hins) in Hin as [[= -> ->]|Hin].
    + left. rewrite (fit_alloc _ _ _ _ _ Hfit) in Hob. by simplify_eq.
    + right. by exists k, ob'.
  - intros [[-> Hc]|(k & ob' & Hin & Hob & Hc)].
    + exists key, ob. split; [|by destruct Hfit].
      apply (InsertAllocation_elem _ _ _ _ _ _ _ _ Hok Hfit Hins). by left.
    + exists k, ob'. split; [|done].
      apply (InsertAllocation_elem _ _ _ _ _ _ _ _ Hok Hfit Hins). by right.
Qed.

Lemma insert_find t t' rt key entry ob v :
  table_ok t rt → insert_fits t rt key entry ob → InsertAllocation key entry rt t = Some t' →
  u64 v → findAllocation t' rt v =
    if decide (covers key ob v) then Some (Some entry) else findAllocation t rt v.
Proof.
  intros Hok Hfit Hins Hv. pose proof (InsertAllocation_ok _ _ _ _ _ _ Hok Hfit Hins) as Hok'.
  pose proof (InsertAllocation_owner t t' rt key entry ob v) as Ho. case_decide as Hc.
  - apply findAllocation_complete; [done..|]. apply (Ho _ Hok Hfit Hins). by left.
  - symmetry. apply findAllocation_ext; [done..|]. intros a.
    rewrite (Ho _ Hok Hfit Hins). naive_solver.
Qed.

Lemma DeleteAllocation_elem t key k a rt :
  table_ok t rt →
  om_wf (sortedAllocationTable (DeleteAllocation key t)) ∧
  ((k, a) ∈ table_entries (DeleteAllocation key t) ↔ k ≠ key ∧ (k, a) ∈ table_entries t).
Proof.
  intros Hok. pose proof (tok_sorted _ _ Hok) as Hwf.
  destruct (tok_hash _ _ Hok) as (n & Hn & Hms & Hh). unfold DeleteAllocation.
  destruct (hashAllocationTable t !! key) as [a'|] eqn:Ek; simpl.
  - split; [done|]. rewrite !table_entries_elem by done. simpl. rewrite lookup_delete_Some.
    destruct (decide (k = key)) as [->|]; [|naive_solver].
    destruct (Hh _ _ Ek) as (_ & _ & -> & _). naive_solver.
  - pose proof (om_wf_erase key _ Hwf) as Hwf'. split; [done|].
    rewrite !table_entries_elem by done. simpl.
    destruct (decide (k = key)) as [->|].
    + rewrite om_find_erase_eq, Ek. naive_solver.
    + rewrite om_find_erase_ne by done. naive_solver.
Qed.

Lemma DeleteAllocation_ok t key rt :
  table_ok t rt → key ≠ max_key → table_ok (DeleteAllocation key t) rt.
Proof.
  intros Hok Hne.
  pose proof (λ k a, DeleteAllocation_elem t key k a rt Hok) as He.
  assert (∀ e, e ∈ table_entries (DeleteAllocation key t) → e ∈ table_entries t) as He'.
  { intros [k a] H. by apply He in H as [_ ?]. }
  split.
  - apply (He 0 1%positive).
  - destruct (tok_sentinel _ _ Hok) as [am Hmax]. exists am. unfold DeleteAllocation.
    case_match; simpl; [done|]. by rewrite om_find_erase_ne.
  - intros e H%He'. by apply (tok_entry _ _ Hok).
  - intros e1 e2 H1%He' H2%He'. by apply (tok_apart _ _ Hok).
  - destruct (tok_hash _ _ Hok) as (n & Hn & Hms & Hh).
    exists n. unfold DeleteAllocation. split; [done|].
    destruct (hashAllocationTable t !! key) as [a'|] eqn:Ek; simpl; split; try done.
    + intros k a [_ Hk]%lookup_delete_Some. by apply Hh.
    + intros k a Hk. destruct (Hh _ _ Hk) as (?&?&?&?). split; [done|]. split; [done|].
      split; [|done]. rewrite om_find_erase_ne; [done|]. intros ->. congruence.
Qed.

Lemma DeleteAllocation_owner t key rt v a :
  table_ok t rt →
  owner (DeleteAllocation key t) rt v a ↔
  ∃ k ob, k ≠ key ∧ (k, a) ∈ table_entries t ∧ allocs rt !! a = Some ob ∧ covers k ob v.
Proof.
  intros Hok. unfold owner. split.
  - intros (k & ob & Hin & ?). apply (DeleteAllocation_elem _ _ _ _ _ Hok) in Hin as [??].
    by exists k, ob.
  - intros (k & ob & ? & ? & ?). exists k, ob. split; [|done].
    by apply (DeleteAllocation_elem _ _ _ _ _ Hok).
Qed.

Lemma delete_find t rt key a ob v :
  table_ok t rt → key ≠ max_key → (key, a) ∈ table_entries t → allocs rt !! a = Some ob → u64 v →
  findAllocation (DeleteAllocation key t) rt v =
    if decide (covers key ob v) then Some None else findAllocation t rt v.
Proof.
  intros Hok Hne Hin Hob Hv. pose proof (DeleteAllocation_ok t key rt Hok Hne) as Hok'.
  case_decide as Hc.
  - apply findAllocation_None; [done..|]. intros a' Ha'.
    apply (DeleteAllocation_owner _ _ _ _ _ Hok) in Ha' as (k & ob' & Hk & Hin' & Hob' & Hc').
    by destruct (cover_unique _ _ _ _ _ _ _ _ _ Hok Hin Hob Hc Hin' Hob' Hc') as [-> _].
  - apply findAllocation_ext; [done..|]. intros a'.
    rewrite (DeleteAllocation_owner _ _ _ _ _ Hok). split.
    + intros (k & ob' & _ & ?). by exists k, ob'.
    + intros (k & ob' & Hin' & Hob' & Hc'). exists k, ob'. split; [|done].
      intros ->. pose proof (entry_functional _ _ _ _ _ Hok Hin Hin') as ->. by simplify_eq.
Qed.

(** ** Merging *)

Lemma foldl_om_assign_find k m1 m2 :
  om_wf m2 →
  om_find k (foldl (λ m (p : Z * aptr), om_assign p.1 p.2 m) m1 m2) =
  match om_find k m2 with Some v => Some v | None => om_find k m1 end.
Proof.
  intros Hwf. revert m1. unfold om_wf in Hwf.
  induction Hwf as [|[k' v'] m2 Hs IH Hall]; intros m1; simpl; [done|].
  rewrite IH. case_decide as Hk; subst.
  - rewrite om_find_lt, om_find_assign_eq; [done|].
    eapply Forall_impl; [done|]. simpl; intros; lia.
  - by rewrite om_find_assign_ne by done.
Qed.

Lemma foldl_om_insert_find k m1 m2 :
  om_wf m1 → om_wf m2 →
  om_find k (foldl (λ m (p : Z * aptr), om_insert p.1 p.2 m) m1 m2) =
  match om_find k m1 with Some v => Some v | None => om_find k m2 end.
Proof.
  intros Hw1 Hwf. revert m1 Hw1. unfold om_wf in Hwf.
  induction Hwf as [|[k' v'] m2 Hs IH Hall]; intros m1 Hw1; simpl.
  { by destruct (om_find k m1). }
  rewrite IH by auto with carmot. case_decide as Hk; subst.
  - rewrite om_find_insert_eq by done. by destruct (om_find k' m1).
  - by rewrite om_find_insert_ne by done.
Qed.

Lemma foldl_om_wf (f : list (Z * aptr) → Z * aptr → list (Z * aptr)) m1 m2 :
  (∀ m p, om_wf m → om_wf (f m p)) → om_wf m1 → om_wf (foldl f m1 m2).
Proof. intros Hf Hw. apply foldl_ind; auto. Qed.

Lemma uset_insert_elem x y l : x ∈ uset_insert y l ↔ x = y ∨ x ∈ l.
Proof. unfold uset_insert. case_decide; set_solver. Qed.

Lemma foldl_uset_insert_elem x l1 l2 :
  x ∈ foldl (λ l m, uset_insert m l) l1 l2 ↔ x ∈ l1 ∨ x ∈ l2.
Proof.
  revert l1. induction l2 as [|y l2 IH]; intros l1; simpl; [set_solver|].
  rewrite IH, uset_insert_elem. set_solver.
Qed.

(** ** Properties *)

(** C2: searching the table is exact.  In a table whose blocks do not overlap
    and that holds the sentinel [texas_init] inserts, [findAllocation] never
    dereferences a dangling entry and returns a block if and only if that
    block covers the address, whether the block is in the hash table or in the
    sorted map; it returns [nullptr] exactly when no tracked block covers it. *)
Theorem findAllocation_exact t rt v :
  table_ok t rt → u64 v →
  ∃ r, findAllocation t rt v = Some r ∧ (∀ a, r = Some a ↔ owner t rt v a).
Proof.
  intros Hok Hv. destruct (findAllocation_total t rt v Hok) as [r Hr]. exists r.
  split; [done|]. intros a. split.
  - intros ->. by apply findAllocation_sound.
  - intros Ha%findAllocation_complete; [congruence|done..].
Qed.

(** Inserting a block that fits keeps the table well formed, makes exactly
    the addresses of the block resolve to it, and changes no other search. *)
Theorem InsertAllocation_find t t' rt key entry ob :
  table_ok t rt → insert_fits t rt key entry ob → InsertAllocation key entry rt t = Some t' →
  table_ok t' rt ∧
  ∀ v, u64 v → findAllocation t' rt v =
    if decide (covers key ob v) then Some (Some entry) else findAllocation t rt v.
Proof.
  intros Hok Hfit Hins. split; [by eapply InsertAllocation_ok|].
  intros v Hv. by eapply insert_find.
Qed.

(** Deleting the block at [key] keeps the table well formed, makes every
    address of that block unknown and changes no other search; deleting an
    address that starts no block (an interior pointer) changes nothing. *)
Theorem DeleteAllocation_find t rt key :
  table_ok t rt → key ≠ max_key →
  table_ok (DeleteAllocation key t) rt ∧
  (∀ a ob v, (key, a) ∈ table_entries t → allocs rt !! a = Some ob → u64 v →
    findAllocation (DeleteAllocation key t) rt v =
      if decide (covers key ob v) then Some None else findAllocation t rt v) ∧
  ((∀ a, (key, a) ∉ table_entries t) → DeleteAllocation key t = t).
Proof.
  intros Hok Hne. pose proof (DeleteAllocation_ok t key rt Hok Hne) as Hok'.
  split; [done|]. split.
  - intros a ob v Hin Hob Hv. by eapply delete_find.
  - intros Hno. unfold DeleteAllocation.
    destruct (hashAllocationTable t !! key) as [a|] eqn:E.
    { destruct (Hno a). apply table_entries_elem; [apply Hok|by right]. }
    rewrite om_erase_absent; [by destruct t|].
    apply eq_None_not_Some. intros [a Ha]. destruct (Hno a).
    apply table_entries_elem; [apply Hok|by left].
Qed.

(** Merging the table of the shadow to the right.  Both tables are united
    key by key, the merged table's entries winning if [overwrite] is set and
    losing otherwise; the masks are united, the mask lengths are not, so a
    table never starts to send new blocks to its hash table by merging. *)
Theorem MergeTable_lookup (t other : AllocationTable) (overwrite : bool) k :
  om_wf (sortedAllocationTable t) → om_wf (sortedAllocationTable other) →
  let t' := MergeTable other overwrite t in
  let '(new, old) := if overwrite then (other, t) else (t, other) in
  om_wf (sortedAllocationTable t') ∧
  om_find k (sortedAllocationTable t') =
    match om_find k (sortedAllocationTable new) with
    | Some a => Some a | None => om_find k (sortedAllocationTable old) end ∧
  hashAllocationTable t' !! k =
    match hashAllocationTable new !! k with
    | Some a => Some a | None => hashAllocationTable old !! k end ∧
  (∀ m, m ∈ masks t' ↔ m ∈ masks t ∨ m ∈ masks other) ∧
  maskLengths t' = maskLengths t.
Proof.
  intros Hw Hwo. destruct overwrite; simpl.
  - split; [apply foldl_om_wf; [intros; by apply om_wf_assign|done]|].
    rewrite foldl_om_assign_find by done. split; [done|].
    split; [|split; [intros; apply foldl_uset_insert_elem|done]].
    rewrite lookup_union. by destruct (hashAllocationTable other !! k), (hashAllocationTable t !! k).
  - split; [apply foldl_om_wf; [intros; by apply om_wf_insert|done]|].
    rewrite foldl_om_insert_find by done. split; [done|].
    split; [|split; [intros; apply foldl_uset_insert_elem|done]].
    rewrite lookup_union. by destruct (hashAllocationTable other !! k), (hashAllocationTable t !! k).
Qed.

(** The lengths of the tracked blocks. *)
Definition entry_lengths (t : AllocationTable) (rt : Runtime) : list Z :=
  (λ e, alloc_length rt e.2) <$> table_entries t.

(** The footprint is the sum of the lengths of all tracked blocks, modulo
    2^64; it is the exact sum whenever the sum fits in 64 bits. *)
Theorem GetMemFootprint_sum t rt :
  table_ok t rt →
  let total := foldr Z.add 0 (entry_lengths t rt) in
  GetMemFootprint t rt = Some (wrap64 total) ∧
  (total < two64 → GetMemFootprint t rt = Some total).
Proof.
  intros Hok total. assert (GetMemFootprint t rt = Some (wrap64 total)) as E.
  { unfold GetMemFootprint. rewrite (footprint_fold snd); [done| |done].
    intros e He. destruct (tok_entry _ _ Hok e He) as (ob & Hob & _). eauto. }
  split; [done|]. intros Hlt. rewrite E, wrap64_small; [done|]. split; [|done].
  subst total. clear E Hlt. unfold entry_lengths.
  apply sum_nonneg. apply Forall_fmap, Forall_forall. intros e He.
  destruct (tok_entry _ _ Hok e He) as (ob & Hob & ?). cbn. unfold alloc_length. rewrite Hob. cbn. lia.
Qed.

(** For a power-of-two length, the mask [AddMaskForLength] installs rounds
    an address down to a multiple of that length, so that every address inside
    an aligned block of that length is mapped to the start of the block. *)
Theorem AddMaskForLength_aligns (log2 : Z → Z) n t p :
  (∀ i, 0 <= i < 64 → log2 (2 ^ i) = i) → 0 <= n < 64 → u64 p →
  let t' := AddMaskForLength log2 (2 ^ n) t in
  2 ^ n ∈ maskLengths t' ∧
  ∃ mask, mask ∈ masks t' ∧ MaskKey p mask = p - p mod 2 ^ n ∧
    (∀ start, (2 ^ n | start) → in_block start (2 ^ n) p → MaskKey p mask = start).
Proof.
  intros Hlog Hn Hp. simpl. unfold AddMaskForLength. simpl. rewrite Hlog by done.
  split; [apply uset_insert_elem; by left|].
  exists (mask_of_shift n). split; [apply uset_insert_elem; by left|].
  rewrite MaskKey_align by done. split; [done|].
  intros start [q ->] Hin. unfold in_block in Hin.
  assert (0 < 2 ^ n) by (apply Z.pow_pos_nonneg; lia).
  assert (p / 2 ^ n = q) by (symmetry; apply Z.div_unique with (p - q * 2 ^ n); [lia|ring]).
  pose proof (Z.div_mod p (2 ^ n)). lia.
Qed.

(** ** Witnesses *)

(** A table with two sorted blocks, the sentinel and one hashed block. *)
Definition demo_allocs : gmap aptr Allocation :=
  {[ 1%positive := new_Allocation max_key 0 0; 2%positive := new_Allocation 4096 24 1;
     3%positive := new_Allocation 8192 100 2; 4%positive := new_Allocation 16 8 3 ]}.
Definition demo_rt : Runtime := mkRuntime demo_allocs 5 ∅ ∅ 1.
Definition demo_table : AllocationTable :=
  mkTable [(4096, 2%positive); (8192, 3%positive); (max_key, 1%positive)]
    {[ 16 := 4%positive ]} empty_graph [mask_of_shift 3] [8] [].

Ltac entry_cases H :=
  vm_compute in H;
  repeat (apply elem_of_cons in H as [->|H]; [|]); [..|by apply elem_of_nil in H].

Lemma demo_table_ok : table_ok demo_table demo_rt.
Proof.
  split.
  - unfold om_wf, demo_table; simpl. repeat constructor; vm_compute; done.
  - by exists 1%positive.
  - intros e He. entry_cases He; eexists; (split; [reflexivity|vm_compute; intuition discriminate]).
  - intros e1 e2 H1 H2. entry_cases H1; entry_cases H2; intros ob [= <-];
      vm_compute; intuition discriminate.
  - exists 3. split; [done|]. split; [set_solver|]. intros k a.
    simpl. intros [<- <-]%lookup_singleton_Some. split; [done|].
    split; [by exists 2|]. split; [done|]. eexists. split; reflexivity.
Qed.

Lemma findAllocation_exact_witness :
  ∃ r, findAllocation demo_table demo_rt 4100 = Some r ∧
    (∀ a, r = Some a ↔ owner demo_table demo_rt 4100 a).
Proof. apply (findAllocation_exact demo_table demo_rt 4100); [apply demo_table_ok|done]. Defined.

Example demo_find :
  findAllocation demo_table demo_rt 4100 = Some (Some 2%positive) ∧
  findAllocation demo_table demo_rt 4120 = Some None ∧
  findAllocation demo_table demo_rt 19 = Some (Some 4%positive) ∧
  findAllocation demo_table demo_rt 24 = Some None.
Proof. vm_compute. done. Qed.

(** A block of 32 bytes at 12288. *)
Definition demo_rt' : Runtime :=
  mkRuntime (<[ 5%positive := new_Allocation 12288 32 4 ]> demo_allocs) 6 ∅ ∅ 1.

Lemma demo_table_ok' : table_ok demo_table demo_rt'.
Proof.
  split.
  - apply demo_table_ok.
  - by exists 1%positive.
  - intros e He. entry_cases He; eexists; (split; [reflexivity|vm_compute; intuition discriminate]).
  - intros e1 e2 H1 H2. entry_cases H1; entry_cases H2; intros ob [= <-];
      vm_compute; intuition discriminate.
  - exists 3. split; [done|]. split; [set_solver|]. intros k a.
    simpl. intros [<- <-]%lookup_singleton_Some. split; [done|].
    split; [by exists 2|]. split; [done|]. eexists. split; reflexivity.
Qed.

Lemma demo_fits : insert_fits demo_table demo_rt' 12288 5%positive (new_Allocation 12288 32 4).
Proof.
  split.
  - reflexivity.
  - eexists. split; [reflexivity|]. vm_compute. intuition discriminate.
  - intros e He. entry_cases He; (split; [done|]); split; intros ob [= <-];
      vm_compute; intuition discriminate.
  - simpl. intros H. exfalso. revert H. simpl. rewrite list_elem_of_singleton. lia.
Qed.

Lemma InsertAllocation_find_witness :
  let t' := set_sorted [(4096, 2%positive); (8192, 3%positive); (12288, 5%positive);
    (max_key, 1%positive)] demo_table in
  table_ok t' demo_rt' ∧
  ∀ v, u64 v → findAllocation t' demo_rt' v =
    if decide (covers 12288 (new_Allocation 12288 32 4) v) then Some (Some 5%positive)
    else findAllocation demo_table demo_rt' v.
Proof.
  apply (InsertAllocation_find demo_table _ demo_rt' 12288 5%positive);
    [apply demo_table_ok'|apply demo_fits|reflexivity].
Defined.

Lemma DeleteAllocation_find_witness :
  findAllocation (DeleteAllocation 4096 demo_table) demo_rt 4100 = Some None.
Proof.
  destruct (DeleteAllocation_find demo_table demo_rt 4096) as (_ & H & _);
    [apply demo_table_ok|done|].
  rewrite (H 2%positive (new_Allocation 4096 24 1) 4100); [reflexivity|..|reflexivity|done].
  vm_compute. by left.
Defined.

Lemma MergeTable_lookup_witness :
  om_find 4096 (sortedAllocationTable (MergeTable (mkTable [(4096, 9%positive)] ∅ empty_graph [] [] [])
    true demo_table)) = Some 9%positive.
Proof.
  destruct (MergeTable_lookup demo_table (mkTable [(4096, 9%positive)] ∅ empty_graph [] [] [])
    true 4096) as (_ & -> & _); [apply demo_table_ok|repeat constructor|reflexivity].
Defined.

Lemma GetMemFootprint_sum_witness : GetMemFootprint demo_table demo_rt = Some 132.
Proof.
  destruct (GetMemFootprint_sum demo_table demo_rt demo_table_ok) as [_ H].
  rewrite H; [reflexivity|vm_compute; reflexivity].
Defined.

Lemma AddMaskForLength_aligns_witness :
  let t' := AddMaskForLength Z.log2 (2 ^ 3) new_AllocationTable in
  2 ^ 3 ∈ maskLengths t' ∧
  ∃ mask, mask ∈ masks t' ∧ MaskKey 4101 mask = 4101 - 4101 mod 2 ^ 3 ∧
    (∀ start, (2 ^ 3 | start) → in_block start (2 ^ 3) 4101 → MaskKey 4101 mask = start).
Proof.
  apply (AddMaskForLength_aligns Z.log2 3 new_AllocationTable 4101); [|lia|done].
  intros i Hi. apply Z.log2_pow2. lia.
Defined.
