(* ===== verification/ConnGraph.v ===== *)
(** * The connection graph and its cycles

    [AllocationTable::GenerateConnectionGraph] and the two versions of
    [FindCyclesInConnectionGraph] (AllocationTable.cpp): which tracked block
    holds a pointer into which, and the strongly connected components that
    reference counting could not free.  [boost::strong_components] is a
    parameter. *)

From S2P Require Import Prelude Helpers OrdMap Objects AllocTable.

(** ** The graph *)

(** The loops that add a vertex per entry; an object under two keys keeps the
    vertex added last. *)
Definition add_vertex (acc : Runtime * graph_t) (e : Z * aptr) : option (Runtime * graph_t) :=
  let '(rt, g) := acc in
  _ ← allocs rt !! e.2;
  Some (upd_alloc e.2 (set_connectionVertex (List.length (vertices g))) rt,
        mkGraph (vertices g ++ [e.2]) (edges g)).

Section memory.
  (** The word at an address of the traced program. *)
  Context (mem : Z → Z).

  (** The body of the loops over the escapes of one block. *)
Definition add_escape_edge (t : AllocationTable) (rt : Runtime) (alloc : Allocation)
    (es : list (nat * nat)) (candidateEscape : Z) : option (list (nat * nat)) :=
    if decide (doesItAlias (pointer alloc) (length alloc) (mem candidateEscape) = -1) then Some es
    else
      pointerAlloc ← findAllocation t rt candidateEscape;
      match pointerAlloc with
      | None => Some es
      | Some b =>
          ob ← allocs rt !! b;
          Some (es ++ [(connectionVertex ob, connectionVertex alloc)])
      end.

Definition add_edges (t : AllocationTable) (rt : Runtime) (es : list (nat * nat)) (e : Z * aptr)
    : option (list (nat * nat)) :=
    alloc ← allocs rt !! e.2;
    mfoldl (add_escape_edge t rt alloc) es (elements (allocToEscapeMap alloc)).

  (** [GenerateConnectionGraph] *)
Definition GenerateConnectionGraph (t : AllocationTable) (rt : Runtime)
    : option (AllocationTable * Runtime) :=
    '(rt, g) ← mfoldl add_vertex (rt, empty_graph) (table_entries t);
    es ← mfoldl (add_edges t rt) [] (table_entries t);
    Some (set_connections (mkGraph (vertices g) es) t, rt).
End memory.

(** ** Cycles *)

(** [sccToVertexMap]: the vertices of each component, in ascending order. *)
Definition scc_to_vertices (component : list nat) : gmap nat (list nat) :=
  foldl (λ m ic, <[ic.2 := default [] (m !! ic.2) ++ [ic.1]]> m) ∅
    (zip (seq 0 (List.length component)) component).

(** The loop that collects the blocks of a component and its oldest block. *)
Definition collect_cycle (rt : Runtime) (acc : list aptr * option aptr * Z) (a : aptr)
    : option (list aptr * option aptr * Z) :=
  let '(cycle, oldest, oldVal) := acc in
  ob ← allocs rt !! a;
  Some (if decide (freshness ob < oldVal) then (cycle ++ [a], Some a, freshness ob)
        else (cycle ++ [a], oldest, oldVal)).

Definition cycle_of (rt : Runtime) (g : graph_t) (vs : list nat)
    : option (list aptr * option aptr) :=
  blocks ← mapM (λ v, vertices g !! v) vs;
  '(cycle, oldest, _) ← mfoldl (collect_cycle rt) ([], None, max_key) blocks;
  Some (cycle, oldest).

(** The states in which a block of the cycle was allocated; an entry of
    [stateMap] without a state is dereferenced. *)
Definition allocating_states (rt : Runtime) (stateMap : gmap Z (option sptr)) (cycle : list aptr)
    : option (gset sptr) :=
  mfoldl (λ acc (e : Z * option sptr),
    s ← e.2; st ← states rt !! s;
    Some (if decide (Exists (λ a, a ∈ AllocsAllocatedInState st) cycle) then {[s]} ∪ acc else acc))
    ∅ (map_to_list stateMap).

(** The body of the loop over the components, in both versions. *)
Definition report_cycle (rt : Runtime) (stateMap : gmap Z (option sptr)) (g : graph_t)
    (found : list SmartPointerCycle) (vs : list nat) : option (list SmartPointerCycle) :=
  if decide (1 < List.length vs)%nat then
    '(cycle, oldest) ← cycle_of rt g vs;
    sts ← allocating_states rt stateMap cycle;
    Some (if decide (sts = ∅) then found else found ++ [mkCycle cycle sts oldest])
  else Some found.

(** Components in the order of the unordered map. *)
Definition components (component : list nat) : list (list nat) :=
  (map_to_list (scc_to_vertices component)).*2.

Section scc.
  (** [boost::strong_components]: the component number of every vertex. *)
  Context (strong_components : graph_t → list nat).

  (** [FindCyclesInConnectionGraph()] *)
Definition FindCyclesInConnectionGraph (rt : Runtime) (stateMap : gmap Z (option sptr))
    (t : AllocationTable) : option AllocationTable :=
    let g := allocConnections t in
    found ← mfoldl (report_cycle rt stateMap g) [] (components (strong_components g));
    Some (set_cycles found t).

  (** [FindCyclesInConnectionGraph(stateFilter)]: only blocks allocated in that
      state count; an unknown filter returns from the function at the first
      component of more than one block. *)
Definition FindCyclesInConnectionGraph_filter (rt : Runtime) (stateMap : gmap Z (option sptr))
    (stateFilter : Z) (t : AllocationTable) : option AllocationTable :=
    let g := allocConnections t in
    match stateMap !! stateFilter with
    | None =>
        _ ← mapM (λ vs, if decide (1 < List.length vs)%nat then cycle_of rt g vs else Some ([], None))
              (take 1 (filter (λ vs, (1 < List.length vs)%nat) (components (strong_components g))));
        Some (set_cycles [] t)
    | Some s =>
        found ← mfoldl (report_cycle rt {[ stateFilter := s ]} g) [] (components (strong_components g));
        Some (set_cycles found t)
    end.
End scc.

(** ** Lemmas: the graph *)

(** The search looks at nothing but the lengths of the blocks. *)
Lemma findAllocation_length_ext t rt rt' v :
  (∀ a, length <$> allocs rt' !! a = length <$> allocs rt !! a) →
  findAllocation t rt' v = findAllocation t rt v.
Proof.
  intros Hl. unfold findAllocation. destruct (find_masked _ _ _); [done|].
  destruct (om_lower_bound v (sortedAllocationTable t)) as [before [|[b a] from]]; [done|].
  pose proof (Hl a) as Ha. destruct (allocs rt !! a), (allocs rt' !! a); simplify_eq/=; try done.
  case_decide; [done|]. destruct (last before) as [[b' a']|]; [|done].
  pose proof (Hl a') as Ha'. destruct (allocs rt !! a'), (allocs rt' !! a'); simplify_eq/=; try done.
  by rewrite Ha'.
Qed.

Lemma add_vertices_spec l rt :
  NoDup l.*2 → (∀ e, e ∈ l → is_Some (allocs rt !! e.2)) →
  ∃ rt', mfoldl add_vertex (rt, empty_graph) l = Some (rt', mkGraph l.*2 []) ∧
    (∀ i a, l.*2 !! i = Some a → allocs rt' !! a = set_connectionVertex i <$> allocs rt !! a) ∧
    (∀ a, a ∉ l.*2 → allocs rt' !! a = allocs rt !! a).
Proof.
  induction l as [|[k a] l IH] using rev_ind; intros Hnd Hl; [by exists rt|].
  rewrite fmap_app in Hnd. apply NoDup_app in Hnd as (Hnd & Hdisj & _).
  destruct IH as (rt' & Hf & Hin & Hout); [done|intros; apply Hl; set_solver|].
  assert (a ∉ l.*2) as Hni by (intros H%Hdisj; simpl in H; set_solver).
  rewrite mfoldl_app, Hf. simpl. rewrite Hout by done.
  destruct (Hl (k, a)) as [ob Hob]; [set_solver|]. simpl in Hob. rewrite Hob. simpl.
  rewrite fmap_app. eexists. split; [reflexivity|]. simpl. split.
  - intros i a' Hi. apply lookup_snoc_Some in Hi as [[Hlt Hi]|[-> ->]].
    + rewrite lookup_alter_ne; [by apply Hin|]. intros ->. apply Hni. by eapply list_elem_of_lookup_2.
    + rewrite lookup_alter_eq, Hout, Hob by done. simpl.
      by rewrite length_fmap.
  - intros a' Ha'. apply not_elem_of_app in Ha' as [Ha1 Ha2]. cbn in Ha2.
    rewrite lookup_alter_ne; [by apply Hout|]. intros ->. apply Ha2, elem_of_cons. by left.
Qed.

(** [e] is an escape of block [a] that lies inside block [b]: a pointer to [a]
    stored in [b]. *)
Definition points_to (mem : Z → Z) (t : AllocationTable) (rt : Runtime) (b a : aptr) : Prop :=
  ∃ ob e, allocs rt !! a = Some ob ∧ e ∈ allocToEscapeMap ob ∧
    doesItAlias (pointer ob) (length ob) (mem e) ≠ -1 ∧
    findAllocation t rt e = Some (Some b).

(** Searches that succeed without reaching a dangling entry. *)
Definition searches_ok (t : AllocationTable) (rt : Runtime) : Prop :=
  ∀ v, ∃ r, findAllocation t rt v = Some r ∧ ∀ b, r = Some b → is_Some (allocs rt !! b).

Lemma add_escape_edge_spec mem t rt alloc es e :
  searches_ok t rt →
  ∃ es', add_escape_edge mem t rt alloc es e = Some es' ∧
    ∀ uv, uv ∈ es' ↔ uv ∈ es ∨
      (doesItAlias (pointer alloc) (length alloc) (mem e) ≠ -1 ∧ ∃ b ob,
       findAllocation t rt e = Some (Some b) ∧ allocs rt !! b = Some ob ∧
       uv = (connectionVertex ob, connectionVertex alloc)).
Proof.
  intros Htot. unfold add_escape_edge. case_decide as Hal; [exists es; naive_solver|].
  destruct (Htot e) as ([b|] & Hr & Hb); rewrite Hr; simpl; [|exists es; naive_solver].
  destruct (Hb b) as [ob Hob]; [done|]. rewrite Hob. simpl. eexists. split; [done|].
  intros uv. rewrite elem_of_app, list_elem_of_singleton. naive_solver.
Qed.

Lemma add_edges_spec mem t rt es l :
  searches_ok t rt → (∀ e, e ∈ l → is_Some (allocs rt !! e.2)) →
  ∃ es', mfoldl (add_edges mem t rt) es l = Some es' ∧
    ∀ uv, uv ∈ es' ↔ uv ∈ es ∨ ∃ x, x ∈ l ∧ ∃ b oa ob,
      points_to mem t rt b x.2 ∧ allocs rt !! x.2 = Some oa ∧ allocs rt !! b = Some ob ∧
      uv = (connectionVertex ob, connectionVertex oa).
Proof.
  intros Htot Hl. apply mfoldl_collect. intros es1 [k a] Hin.
  destruct (Hl _ Hin) as [oa Hoa]. simpl in Hoa. unfold add_edges. simpl. rewrite Hoa. simpl.
  destruct (mfoldl_collect (add_escape_edge mem t rt oa)
    (λ e uv, doesItAlias (pointer oa) (length oa) (mem e) ≠ -1 ∧ ∃ b ob,
       findAllocation t rt e = Some (Some b) ∧ allocs rt !! b = Some ob ∧
       uv = (connectionVertex ob, connectionVertex oa))
    (elements (allocToEscapeMap oa)) es1) as (es' & Hf & Hes).
  { intros. by apply add_escape_edge_spec. }
  exists es'. split; [done|]. intros uv. rewrite Hes. unfold points_to.
  setoid_rewrite elem_of_elements. naive_solver.
Qed.

Lemma searches_ok_table t rt rt' :
  table_ok t rt → (∀ a, length <$> allocs rt' !! a = length <$> allocs rt !! a) →
  searches_ok t rt'.
Proof.
  intros Hok Hlen v. rewrite (findAllocation_length_ext t rt rt' v Hlen).
  destruct (findAllocation_total t rt v Hok) as [r Hr]. exists r. split; [done|].
  intros b ->. destruct (findAllocation_live t rt v b Hok Hr) as [ob Hob].
  specialize (Hlen b). rewrite Hob in Hlen. destruct (allocs rt' !! b); [eauto|done].
Qed.

(** What the graph construction reads of a block. *)
Definition core (o : Allocation) : Z * Z * gset Z := (pointer o, length o, allocToEscapeMap o).

Lemma points_to_ext mem t rt rt' b a :
  (∀ a, core <$> allocs rt' !! a = core <$> allocs rt !! a) →
  points_to mem t rt' b a → points_to mem t rt b a.
Proof.
  intros Hc (ob & e & Hob & He & Hal & Hf).
  pose proof (Hc a) as Ha. rewrite Hob in Ha.
  destruct (allocs rt !! a) as [ob1|] eqn:E; [|done]. unfold core in Ha. simpl in Ha.
  injection Ha as Hp Hl Hm.
  exists ob1, e. split; [done|]. rewrite <- Hp, <- Hl, <- Hm. split; [done|]. split; [done|].
  rewrite <- (findAllocation_length_ext t rt rt' e); [done|]. intros a'.
  specialize (Hc a'). destruct (allocs rt !! a'), (allocs rt' !! a'); simplify_eq/=; try done.
  unfold core in Hc. simplify_eq. congruence.
Qed.

(** C14: the connection graph.  On a well-formed table whose entries are
    distinct objects the construction never crashes, its vertices are the
    tracked blocks, and it has an edge from one block to another exactly if a
    recorded escape of the latter lies inside the former and still points into
    the latter. *)
Theorem GenerateConnectionGraph_correct mem t rt :
  table_ok t rt → NoDup (table_entries t).*2 →
  ∃ t' rt', GenerateConnectionGraph mem t rt = Some (t', rt') ∧
    vertices (allocConnections t') = (table_entries t).*2 ∧
    ∀ u v, (u, v) ∈ edges (allocConnections t') ↔ ∃ b a,
      (table_entries t).*2 !! u = Some b ∧ (table_entries t).*2 !! v = Some a ∧
      points_to mem t rt b a.
Proof.
  intros Hok Hnd. unfold GenerateConnectionGraph.
  assert (∀ e, e ∈ table_entries t → is_Some (allocs rt !! e.2)) as Hlive.
  { intros e He. destruct (tok_entry _ _ Hok e He) as (ob & ? & _). eauto. }
  destruct (add_vertices_spec (table_entries t) rt Hnd Hlive) as (rt' & -> & Hin & Hout).
  assert (∀ a, core <$> allocs rt' !! a = core <$> allocs rt !! a) as Hcore.
  { intros a. destruct (decide (a ∈ (table_entries t).*2)) as [[i Hi]%list_elem_of_lookup|Hni].
    - rewrite (Hin _ _ Hi). by destruct (allocs rt !! a).
    - by rewrite Hout. }
  assert (∀ a, length <$> allocs rt' !! a = length <$> allocs rt !! a) as Hlen.
  { intros a. specialize (Hcore a). destruct (allocs rt !! a), (allocs rt' !! a); try done.
    unfold core in Hcore. simplify_eq/=. congruence. }
  simpl. destruct (add_edges_spec mem t rt' [] (table_entries t)) as (es & -> & Hes).
  { by eapply searches_ok_table. }
  { intros e He. destruct (Hlive e He) as [ob Hob]. specialize (Hlen e.2). rewrite Hob in Hlen.
    destruct (allocs rt' !! e.2); [eauto|done]. }
  simpl. eexists _, _. split; [reflexivity|]. split; [done|]. simpl. intros u v. rewrite Hes. split.
  - intros [Hx|(x & Hx & b & oa & ob & Hp & Hoa & Hob & [= -> ->])]; [by apply elem_of_nil in Hx|].
    apply (points_to_ext _ _ _ _ _ _ Hcore) in Hp. exists b, x.2.
    assert (b ∈ (table_entries t).*2) as [i Hi]%list_elem_of_lookup.
    { destruct Hp as (? & e & _ & _ & _ & Hf). by eapply findAllocation_entry. }
    assert (x.2 ∈ (table_entries t).*2) as [j Hj]%list_elem_of_lookup by (apply list_elem_of_fmap; eauto).
    rewrite (Hin _ _ Hi) in Hob. rewrite (Hin _ _ Hj) in Hoa.
    destruct (allocs rt !! b); [|done]. destruct (allocs rt !! x.2); [|done].
    by simplify_eq/=.
  - intros (b & a & Hu & Hv & Hp). right.
    pose proof Hp as (oa & e & Hoa & _ & _ & Hf).
    destruct (findAllocation_live t rt e b Hok Hf) as [ob Hob].
    assert (∃ x, x ∈ table_entries t ∧ x.2 = a) as (x & Hx & <-).
    { apply list_elem_of_lookup_2, list_elem_of_fmap in Hv. naive_solver. }
    exists x. split; [done|].
    exists b, (set_connectionVertex v oa), (set_connectionVertex u ob).
    rewrite (Hin _ _ Hu), (Hin _ _ Hv), Hoa, Hob. split; [|done].
    apply (points_to_ext mem t rt' rt); [|done]. intros a. by rewrite Hcore.
Qed.

(** ** Lemmas: the cycles *)

Lemma scc_to_vertices_lookup comp c :
  scc_to_vertices comp !! c =
  let vs := filter (λ i, comp !! i = Some c) (seq 0 (List.length comp)) in
  if decide (vs = []) then None else Some vs.
Proof.
  unfold scc_to_vertices. induction comp as [|x comp IH] using rev_ind; [done|].
  rewrite length_app. cbn [List.length]. rewrite seq_app, zip_with_app by (by rewrite length_seq).
  rewrite foldl_app. cbn [zip_with seq foldl fst snd Nat.add]. rewrite filter_app.
  assert (filter (λ i, (comp ++ [x]) !! i = Some c) (seq 0 (List.length comp)) =
          filter (λ i, comp !! i = Some c) (seq 0 (List.length comp))) as ->.
  { apply filter_ext_in. intros i Hi. rewrite elem_of_seq in Hi. by rewrite lookup_app_l by lia. }
  rewrite filter_cons, filter_nil. rewrite lookup_app_r, Nat.sub_diag by lia. simpl in *.
  destruct (decide (x = c)) as [->|Hne].
  - rewrite lookup_insert_eq, IH. rewrite (decide_True (P := Some c = Some c)) by done.
    rewrite (decide_False (P := _ ++ _ = [])) by (by intros [_ ?]%app_eq_nil).
    case_decide as E; simpl; [by rewrite E|done].
  - rewrite lookup_insert_ne by done. rewrite (decide_False (P := Some x = Some c)) by congruence.
    by rewrite app_nil_r.
Qed.

Lemma components_elem comp vs :
  vs ∈ components comp ↔
  vs ≠ [] ∧ ∃ c, vs = filter (λ i, comp !! i = Some c) (seq 0 (List.length comp)).
Proof.
  unfold components. rewrite list_elem_of_fmap. split.
  - intros ([c vs'] & -> & Hin%elem_of_map_to_list). rewrite scc_to_vertices_lookup in Hin.
    simpl in *. case_decide; simplify_eq. eauto.
  - intros (Hne & c & ->). eexists (c, _). split; [reflexivity|]. apply elem_of_map_to_list.
    rewrite scc_to_vertices_lookup. simpl. by rewrite decide_False.
Qed.

(** The oldest block of a list: the least [freshness]. *)
Definition oldest_of (rt : Runtime) (cycle : list aptr) (oldest : option aptr) : Prop :=
  ∃ w ow, oldest = Some w ∧ w ∈ cycle ∧ allocs rt !! w = Some ow ∧
    ∀ b ob, b ∈ cycle → allocs rt !! b = Some ob → freshness ow <= freshness ob.

Lemma collect_cycle_spec rt blocks :
  (∀ b, b ∈ blocks → ∃ ob, allocs rt !! b = Some ob ∧ freshness ob < max_key) →
  ∃ oldest oldVal, mfoldl (collect_cycle rt) ([], None, max_key) blocks = Some (blocks, oldest, oldVal) ∧
    (blocks ≠ [] → ∃ w ow, oldest = Some w ∧ oldVal = freshness ow ∧ w ∈ blocks ∧
      allocs rt !! w = Some ow) ∧
    (∀ b ob, b ∈ blocks → allocs rt !! b = Some ob → oldVal <= freshness ob) ∧
    oldVal <= max_key.
Proof.
  induction blocks as [|b blocks IH] using rev_ind; intros Hl.
  { exists None, max_key. split; [done|]. split; [done|]. split; [|lia]. intros b ob Hb. by apply elem_of_nil in Hb. }
  destruct IH as (o & ov & Hf & Hw & Hmin & Hle); [intros; apply Hl, elem_of_app; by left|].
  destruct (Hl b) as (ob & Hob & Hfr); [apply elem_of_app; right; set_solver|].
  rewrite mfoldl_app, Hf. simpl. rewrite Hob. simpl.
  assert (∀ x : aptr, x ∈ blocks ++ [b] ↔ x ∈ blocks ∨ x = b) as Helem.
  { intros x. by rewrite elem_of_app, list_elem_of_singleton. }
  case_decide as Hlt; simpl; eexists _, _; (split; [reflexivity|]).
  - split; [intros _; exists b, ob; rewrite Helem; auto|]. split; [|lia].
    intros b' ob' [Hb'| ->]%Helem Hob'; [specialize (Hmin _ _ Hb' Hob'); lia|]. simplify_eq. lia.
  - split.
    + intros _. destruct blocks as [|b0 blocks].
      { exfalso. clear Hw Hmin. simpl in Hf. simplify_eq. lia. }
      destruct Hw as (w & ow & -> & -> & Hw & How); [done|]. exists w, ow. rewrite Helem. auto.
    + split; [|done]. intros b' ob' [Hb'| ->]%Helem Hob'; [eauto|]. simplify_eq. lia.
Qed.

Lemma cycle_of_spec rt g vs :
  vs ≠ [] →
  (∀ v, v ∈ vs → ∃ b ob, vertices g !! v = Some b ∧ allocs rt !! b = Some ob ∧ freshness ob < max_key) →
  ∃ cycle oldest, cycle_of rt g vs = Some (cycle, oldest) ∧
    Forall2 (λ v b, vertices g !! v = Some b) vs cycle ∧ oldest_of rt cycle oldest.
Proof.
  intros Hne Hl. unfold cycle_of.
  assert (is_Some (mapM (λ v, vertices g !! v) vs)) as [blocks Hm].
  { apply mapM_is_Some, Forall_forall. intros v Hv. destruct (Hl v Hv) as (b & ob & ? & _).
    change (is_Some (vertices g !! v)). eauto. }
  rewrite Hm. simpl. apply mapM_Some in Hm.
  destruct (collect_cycle_spec rt blocks) as (o & ov & -> & Hw & Hmin & _).
  { intros b Hb. apply list_elem_of_lookup in Hb as [i Hi].
    destruct (Forall2_lookup_r _ _ _ _ _ Hm Hi) as (v & Hv & Hvb).
    apply list_elem_of_lookup_2 in Hv. destruct (Hl v Hv) as (b' & ob & ? & ? & ?).
    simplify_eq. eauto. }
  simpl. eexists blocks, o. split; [done|]. split; [done|].
  destruct Hw as (w & ow & -> & -> & Hw & How).
  { intros ->. apply Forall2_nil_inv_r in Hm. done. }
  exists w, ow. split; [done|]. split; [done|]. split; [done|]. intros b ob Hb Hob. eauto.
Qed.

Lemma allocating_states_spec rt (stateMap : gmap Z (option sptr)) cycle :
  (∀ i r, stateMap !! i = Some r → ∃ s, r = Some s ∧ is_Some (states rt !! s)) →
  ∃ sts, allocating_states rt stateMap cycle = Some sts ∧
    ∀ s, s ∈ sts ↔ ∃ i st a, stateMap !! i = Some (Some s) ∧ states rt !! s = Some st ∧
      a ∈ cycle ∧ a ∈ AllocsAllocatedInState st.
Proof.
  intros Hl. unfold allocating_states.
  destruct (mfoldl_collect (λ (acc : gset sptr) (e : Z * option sptr),
    s ← e.2; st ← states rt !! s;
    Some (if decide (Exists (λ a, a ∈ AllocsAllocatedInState st) cycle) then {[s]} ∪ acc else acc))
    (λ e s, e.2 = Some s ∧ ∃ st a, states rt !! s = Some st ∧ a ∈ cycle ∧ a ∈ AllocsAllocatedInState st)
    (map_to_list stateMap) ∅) as (sts & Hf & Hs).
  { intros acc [i r] Hin%elem_of_map_to_list. destruct (Hl _ _ Hin) as (s & -> & [st Hst]).
    simpl. rewrite Hst. simpl. eexists. split; [done|]. intros s'.
    destruct (decide _) as [Hd|Hd]; rewrite Exists_exists in Hd; set_solver. }
  exists sts. split; [done|]. intros s. rewrite Hs. rewrite elem_of_empty. split.
  - intros [[]|([i r] & Hin%elem_of_map_to_list & ? & st & a & ?)]. simpl in *. subst. naive_solver.
  - intros (i & st & a & Hi & ?). right. exists (i, Some s). rewrite elem_of_map_to_list. naive_solver.
Qed.

(** Mutual reachability in the graph. *)
Definition edge_rel (g : graph_t) (u v : nat) : Prop := (u, v) ∈ edges g.
Definition connected (g : graph_t) (u v : nat) : Prop :=
  rtc (edge_rel g) u v ∧ rtc (edge_rel g) v u.

(** What boost documents of [strong_components]: a number per vertex, equal
    exactly for vertices that reach each other. *)
Definition scc_spec (sc : graph_t → list nat) (g : graph_t) : Prop :=
  List.length (sc g) = List.length (vertices g) ∧
    ∀ u v, (u < List.length (vertices g))%nat → (v < List.length (vertices g))%nat →
      sc g !! u = sc g !! v ↔ connected g u v.

(** The vertices are live objects, and [stateMap] holds live states. *)
Definition graph_live (rt : Runtime) (g : graph_t) : Prop :=
  ∀ v b, vertices g !! v = Some b → ∃ ob, allocs rt !! b = Some ob ∧ freshness ob < max_key.
Definition stateMap_live (rt : Runtime) (stateMap : gmap Z (option sptr)) : Prop :=
  ∀ i r, stateMap !! i = Some r → ∃ s, r = Some s ∧ is_Some (states rt !! s).

(** State [s] of the map allocated block [a]. *)
Definition allocated_by (rt : Runtime) (stateMap : gmap Z (option sptr)) (s : sptr) (a : aptr) : Prop :=
  ∃ i st, stateMap !! i = Some (Some s) ∧ states rt !! s = Some st ∧ a ∈ AllocsAllocatedInState st.

(** What is reported for the component of vertices [vs]. *)
Definition reported_cycle (rt : Runtime) (stateMap : gmap Z (option sptr)) (g : graph_t)
    (vs : list nat) (c : SmartPointerCycle) : Prop :=
  (1 < List.length vs)%nat ∧ Forall2 (λ v b, vertices g !! v = Some b) vs (cycle c) ∧
  oldest_of rt (cycle c) (weakPoint c) ∧ cycle_states c ≠ ∅ ∧
  ∀ s, s ∈ cycle_states c ↔ ∃ a, a ∈ cycle c ∧ allocated_by rt stateMap s a.

Lemma reported_cycle_unique_step rt stateMap g found vs :
  graph_live rt g → stateMap_live rt stateMap → vs ≠ [] →
  (∀ v, v ∈ vs → (v < List.length (vertices g))%nat) →
  ∃ found', report_cycle rt stateMap g found vs = Some found' ∧
    ((found' = found ∧ ((1 < List.length vs)%nat → ∀ s a v, v ∈ vs → vertices g !! v = Some a →
        ¬ allocated_by rt stateMap s a)) ∨
     ∃ c, found' = found ++ [c] ∧ reported_cycle rt stateMap g vs c).
Proof.
  intros Hlive Hsm Hne Hvs. unfold report_cycle.
  case_decide as Hlen; [|exists found; split; [done|left; split; [done|lia]]].
  destruct (cycle_of_spec rt g vs Hne) as (cycle & oldest & -> & Hf2 & Hold).
  { intros v Hv. destruct (lookup_lt_is_Some_2 _ _ (Hvs v Hv)) as [b Hb].
    destruct (Hlive _ _ Hb) as (ob & ? & ?). eauto. }
  simpl. destruct (allocating_states_spec rt stateMap cycle Hsm) as (sts & -> & Hsts). simpl.
  eexists. split; [done|]. case_decide as Hemp.
  - left. split; [done|]. intros _ s a v Hv Ha (i & st & Hi & Hst & Hin).
    assert (s ∈ sts) as Hs; [|set_solver].
    apply Hsts. exists i, st, a. split; [done|]. split; [done|]. split; [|done].
    apply list_elem_of_lookup in Hv as [j Hj].
    destruct (Forall2_lookup_l _ _ _ _ _ Hf2 Hj) as (b & Hb & Hvb). simplify_eq.
    by eapply list_elem_of_lookup_2.
  - right. eexists. split; [done|]. split; [done|]. split; [done|]. split; [done|].
    split; [done|]. intros s. simpl. rewrite Hsts. unfold allocated_by. naive_solver.
Qed.

Lemma report_cycles_spec rt stateMap g found vss :
  graph_live rt g → stateMap_live rt stateMap →
  (∀ vs, vs ∈ vss → vs ≠ [] ∧ ∀ v, v ∈ vs → (v < List.length (vertices g))%nat) →
  ∃ found', mfoldl (report_cycle rt stateMap g) found vss = Some found' ∧
    (∀ c, c ∈ found' → c ∈ found ∨ ∃ vs, vs ∈ vss ∧ reported_cycle rt stateMap g vs c) ∧
    (∀ c, c ∈ found → c ∈ found') ∧
    (∀ vs v s a, vs ∈ vss → (1 < List.length vs)%nat → v ∈ vs → vertices g !! v = Some a →
      allocated_by rt stateMap s a → ∃ c, c ∈ found' ∧ reported_cycle rt stateMap g vs c).
Proof.
  intros Hlive Hsm. revert found. induction vss as [|vs vss IH]; intros found Hvss.
  { exists found. split; [done|]. split; [auto|]. split; [done|]. intros ???? H. by apply elem_of_nil in H. }
  destruct (Hvss vs) as [Hne Hlt]; [apply elem_of_cons; by left|].
  destruct (reported_cycle_unique_step rt stateMap g found vs Hlive Hsm Hne Hlt) as (f1 & Hf1 & Hstep).
  destruct (IH f1) as (f2 & Hf2 & Hsound & Hkeep & Hcomp).
  { intros vs' H. apply Hvss, elem_of_cons. by right. }
  exists f2. simpl. rewrite Hf1. simpl. split; [done|]. setoid_rewrite elem_of_cons.
  destruct Hstep as [[-> Hno]|(c1 & -> & Hc1)].
  - split; [naive_solver|]. split; [done|].
    intros vs' v s a [->|Hvs'] Hlen Hv Ha Hal; [|by eapply Hcomp]. by destruct (Hno Hlen s a v Hv Ha).
  - assert (∀ c, c ∈ found ++ [c1] ↔ c ∈ found ∨ c = c1) as Hel.
    { intros c. by rewrite elem_of_app, list_elem_of_singleton. }
    split; [|split].
    + intros c [[?| ->]%Hel|?]%Hsound; naive_solver.
    + intros c Hc. apply Hkeep, Hel. by left.
    + intros vs' v s a [->|Hvs'] Hlen Hv Ha Hal; [|by eapply Hcomp].
      exists c1. split; [|done]. apply Hkeep, Hel. by right.
Qed.

(** C13: the cycle search reports exactly the unreclaimable groups.  It never
    crashes; every reported cycle is a whole set of at least two blocks that
    reach each other through stored pointers, its weak point is one of them and
    was accessed no later than any other, and its states are those that
    allocated one of them; and any two different blocks that reach each other
    are reported in a common cycle, provided some state allocated one of them. *)
Theorem FindCyclesInConnectionGraph_correct sc rt stateMap t :
  scc_spec sc (allocConnections t) → graph_live rt (allocConnections t) → stateMap_live rt stateMap →
  let g := allocConnections t in
  ∃ t', FindCyclesInConnectionGraph sc rt stateMap t = Some t' ∧
    (∀ c, c ∈ cycles t' → ∃ vs, reported_cycle rt stateMap g vs c ∧
      (∀ u v, u ∈ vs → (v < List.length (vertices g))%nat → v ∈ vs ↔ connected g u v)) ∧
    (∀ u v a b s, u ≠ v → vertices g !! u = Some a → vertices g !! v = Some b →
      connected g u v → allocated_by rt stateMap s a →
      ∃ c, c ∈ cycles t' ∧ a ∈ cycle c ∧ b ∈ cycle c).
Proof.
  intros [Hlen Hcomp] Hlive Hsm g. fold g in Hlen, Hcomp, Hlive.
  assert (∀ c v, v ∈ filter (λ i, sc g !! i = Some c) (seq 0 (List.length (sc g))) ↔
    sc g !! v = Some c) as Hvs.
  { intros c v. rewrite list_elem_of_filter, elem_of_seq. split; [naive_solver|].
    intros Hv. split; [done|]. apply lookup_lt_Some in Hv. lia. }
  unfold FindCyclesInConnectionGraph. fold g.
  destruct (report_cycles_spec rt stateMap g [] (components (sc g)) Hlive Hsm)
    as (found & -> & Hsound & _ & Hcomplete).
  { intros vs (Hne & c & ->)%components_elem. split; [done|]. intros v Hv%Hvs.
    apply lookup_lt_Some in Hv. lia. }
  simpl. eexists. split; [done|]. simpl. split.
  - intros c [Hc|(vs & Hin & Hrep)]%Hsound; [by apply elem_of_nil in Hc|].
    exists vs. split; [done|]. apply components_elem in Hin as (Hne & k & ->).
    intros u v Hu%Hvs Hv. rewrite Hvs, <- Hu, <- Hcomp; [|by apply lookup_lt_Some in Hu; lia|done].
    split; congruence.
  - intros u v a b s Huv Hu Hv Hconn Hal.
    pose proof (lookup_lt_Some _ _ _ Hu) as Hul. pose proof (lookup_lt_Some _ _ _ Hv) as Hvl.
    destruct (lookup_lt_is_Some_2 (sc g) u) as [k Hk]; [lia|].
    assert (sc g !! v = Some k) as Hkv by (rewrite <- Hk; symmetry; by apply Hcomp).
    set (vs := filter (λ i, sc g !! i = Some k) (seq 0 (List.length (sc g)))).
    assert (u ∈ vs) as Huvs by (by apply Hvs). assert (v ∈ vs) as Hvvs by (by apply Hvs).
    assert (vs ∈ components (sc g)) as Hin.
    { apply components_elem. split; [intros E; rewrite E in Huvs; by apply elem_of_nil in Huvs|eauto]. }
    assert (1 < List.length vs)%nat as Hl2 by (by eapply two_elems).
    destruct (Hcomplete vs u s a Hin Hl2 Huvs Hu Hal) as (c & Hc & _ & Hf2 & _).
    exists c. split; [done|]. split.
    + apply list_elem_of_lookup in Huvs as [i Hi].
      destruct (Forall2_lookup_l _ _ _ _ _ Hf2 Hi) as (b' & Hb & ?). simplify_eq.
      by eapply list_elem_of_lookup_2.
    + apply list_elem_of_lookup in Hvvs as [i Hi].
      destruct (Forall2_lookup_l _ _ _ _ _ Hf2 Hi) as (b' & Hb & ?). simplify_eq.
      by eapply list_elem_of_lookup_2.
Qed.

(** ** Witnesses *)

(** The block at 8192 holds a pointer to 4096 at 8200, recorded as an escape of
    the block at 4096. *)
Definition conn_rt : Runtime :=
  mkRuntime (<[ 2%positive := set_allocToEscapeMap {[ 8200 ]} (new_Allocation 4096 24 1) ]> demo_allocs)
    5 ∅ ∅ 1.
Definition conn_mem (p : Z) : Z := if decide (p = 8200) then 4096 else 0.

Lemma conn_table_ok : table_ok demo_table conn_rt.
Proof.
  split.
  - apply demo_table_ok.
  - by exists 1%positive.
  - intros e He. entry_cases He; eexists; (split; [reflexivity|vm_compute; intuition discriminate]).
  - intros e1 e2 H1 H2. entry_cases H1; entry_cases H2; intros ob [= <-];
      vm_compute; intuition discriminate.
  - exists 3. split; [done|]. split; [set_solver|]. intros k a.
    simpl. intros [<- <-]%lookup_singleton_Some. split; [done|].
    split; [by exists 2|]. split; [done|]. eexists. split; reflexivity.
Qed.

Lemma GenerateConnectionGraph_correct_witness :
  ∃ t' rt', GenerateConnectionGraph conn_mem demo_table conn_rt = Some (t', rt') ∧
    (1, 0)%nat ∈ edges (allocConnections t').
Proof.
  destruct (GenerateConnectionGraph_correct conn_mem demo_table conn_rt conn_table_ok)
    as (t' & rt' & H & _ & He).
  { vm_compute. repeat constructor; rewrite ?elem_of_cons, ?elem_of_nil; intuition discriminate. }
  exists t', rt'. split; [done|]. apply He. exists 3%positive, 2%positive.
  split; [reflexivity|]. split; [reflexivity|].
  eexists _, 8200. split; [reflexivity|]. split; [set_solver|]. split; [vm_compute; done|reflexivity].
Defined.

(** Two blocks that point to each other, both allocated by state 0. *)
Definition cyc_table : AllocationTable :=
  set_connections (mkGraph [2%positive; 3%positive] [(0, 1); (1, 0)]%nat) demo_table.
Definition cyc_rt : Runtime :=
  mkRuntime demo_allocs 5
    {[ 0%nat := set_AllocsAllocatedInState {[ 2%positive ]} (new_State "main" 1 0 0 None) ]} ∅ 1.
Definition cyc_scc (g : graph_t) : list nat := (λ _, 0%nat) <$> vertices g.

Lemma FindCyclesInConnectionGraph_correct_witness :
  ∃ t' c, FindCyclesInConnectionGraph cyc_scc cyc_rt {[ 0 := Some 0%nat ]} cyc_table = Some t' ∧
    c ∈ cycles t' ∧ 2%positive ∈ cycle c ∧ 3%positive ∈ cycle c.
Proof.
  assert (connected (allocConnections cyc_table) 0 1) as Hc.
  { split; apply rtc_once; unfold edge_rel; simpl; set_solver. }
  destruct (FindCyclesInConnectionGraph_correct cyc_scc cyc_rt {[ 0 := Some 0%nat ]} cyc_table)
    as (t' & Ht & _ & Hcomp).
  - split; [reflexivity|]. simpl. intros u v Hu Hv.
    destruct u as [|[|u]]; [| |lia]; (destruct v as [|[|v]]; [| |lia]); (split; [intros _|reflexivity]);
      try (by split; constructor); [exact Hc|destruct Hc; by split].
  - intros v b Hv. destruct v as [|[|v]]; [| |done]; simpl in Hv; injection Hv as <-;
      (eexists; split; [reflexivity|done]).
  - intros i r [<- <-]%lookup_singleton_Some. exists 0%nat. split; [done|by eexists].
  - destruct (Hcomp 0%nat 1%nat 2%positive 3%positive 0%nat) as (c & ? & ? & ?);
      [done|reflexivity|reflexivity|exact Hc| |by exists t', c].
    eexists 0, _. split; [reflexivity|]. split; [reflexivity|]. set_solver.
Defined.
