(* ===== verification/Commit.v ===== *)
(** * Committing state information

    [Allocation::commitStateInfo] (Allocation.cpp) moves what the shadow
    threads recorded on a block into the states, and [State::CommitState],
    [CleanState], [GetTransferStateMemoryFootprint] and [ReportState]
    (State.cpp) keep the sets of a state. *)

From S2P Require Import Prelude Helpers Objects AllocTable.

(** ** [Allocation::commitStateInfo] *)

(** Adding offsets of block [a] to one set; an absent entry is created first. *)
Definition add_offsets (a : aptr) (offs : gset Z) (x : stateAllocationsSetType)
    : stateAllocationsSetType :=
  <[a := default ∅ (x !! a) ∪ offs]> x.

(** The body of [for(auto set : *OffsetMap)]; an operation that names no set
    leaves [stateAllocSet] null. *)
Definition commit_offsets (a : aptr) (ss : StateSets) (e : Z * gset Z) : option StateSets :=
  let o := op_of_code e.1 in
  x ← set_of o ss; Some (put_set o (add_offsets a e.2 x) ss).

(** The body of [for(auto a : StateCommitInfoMap)]. *)
Definition commit_into (a : aptr) (info : StateCommitInfo) (st : State) : option State :=
  let st := set_allocationInfo
    (<[a := default ∅ (allocationInfo st !! a) ∪ useInfo info]> (allocationInfo st)) st in
  ss ← mfoldl (commit_offsets a) (sets st) (map_to_list (stateSetToOffsetMap info));
  Some (set_sets ss st).

Definition commit_info (a : aptr) (rt : Runtime) (e : sptr * StateCommitInfo) : option Runtime :=
  st ← states rt !! e.1;
  st' ← commit_into a e.2 st;
  Some (upd_state e.1 (λ _, st') rt).

(** Clearing the recorded information: the entries stay, empty. *)
Definition clear_info (info : StateCommitInfo) : StateCommitInfo :=
  mkStateCommitInfo ∅ ((λ _, ∅) <$> stateSetToOffsetMap info) (regionBasedOffsets info).

(** The two nested loops that erase the states on both chains. *)
Definition erase_overlap (affilStateVec skipStateVec : list sptr)
    (m : gmap sptr StateCommitInfo) : gmap sptr StateCommitInfo :=
  foldl (λ m s1, foldl (λ m s2, if decide (s1 = s2) then delete s2 m else m) m skipStateVec)
    m affilStateVec.

(** [bool Allocation::commitStateInfo(State* skipState)] on block [a]. *)
Definition commitStateInfo (a : aptr) (skipState : option sptr) (rt : Runtime)
    : option (Runtime * bool) :=
  ob ← allocs rt !! a;
  skipStateVec ← parent_chain (states rt) skipState;
  affilStateVec ← parent_chain (states rt) (affiliatedState ob);
  let infos := erase_overlap affilStateVec skipStateVec (StateCommitInfoMap ob) in
  rt ← mfoldl (commit_info a) rt (map_to_list infos);
  let modified := bool_decide (infos ≠ ∅) in
  Some (upd_alloc a (set_StateCommitInfoMap (clear_info <$> infos)) rt, modified).

(** [AllocationTable::CommitStateInfoForAllocations] *)
Definition CommitStateInfoForAllocations (t : AllocationTable) (rt : Runtime) : option Runtime :=
  mfoldl (λ rt (e : Z * aptr), r ← commitStateInfo e.2 None rt; Some r.1) rt
    (table_entries_hash_first t).

(** ** [State] *)

(** [CommitAndCleanSet(tempSet, finalSet)]: the new contents of both sets. *)
Definition CommitAndCleanSet (tempSet finalSet : stateAllocationsSetType)
    : stateAllocationsSetType * stateAllocationsSetType :=
  (∅, foldl (λ fin (e : aptr * gset Z),
        match fin !! e.1 with
        | Some b => <[e.1 := b ∪ e.2]> fin
        | None => <[e.1 := e.2]> fin
        end) finalSet (map_to_list tempSet)).

(** [CommitState] *)
Definition CommitState (st : State) : State :=
  let t := sets st in let f := final_sets st in
  let '(i, fi) := CommitAndCleanSet (Input t) (Input f) in
  let '(io, fio) := CommitAndCleanSet (IO t) (IO f) in
  let '(cio, fcio) := CommitAndCleanSet (CloneableIO t) (CloneableIO f) in
  let '(tio, ftio) := CommitAndCleanSet (TransferIO t) (TransferIO f) in
  let '(ou, fou) := CommitAndCleanSet (Output t) (Output f) in
  let '(co, fco) := CommitAndCleanSet (CloneableOutput t) (CloneableOutput f) in
  let '(to, fto) := CommitAndCleanSet (TransferOutput t) (TransferOutput f) in
  set_statePtrIterMap ∅ (set_statePtrMap ∅ (set_currentPtrIterUpgrades ∅
    (set_final_sets (mkStateSets fi fio fcio ftio fou fco fto)
      (set_sets (mkStateSets i io cio tio ou co to) st)))).

(** [CleanState(setToDeleteFrom, setToUseOffsetsFrom)]: the first loop removes
    offsets and collects the blocks left without any, the second erases those. *)
Definition CleanState (setToDeleteFrom setToUseOffsetsFrom : stateAllocationsSetType)
    : stateAllocationsSetType :=
  let '(del, completeCleans) :=
    foldl (λ acc (e : aptr * gset Z),
      match acc.1 !! e.1 with
      | Some offs =>
          let offs' := offs ∖ e.2 in
          (<[e.1 := offs']> acc.1,
           if decide (size offs' = O) then {[e.1]} ∪ acc.2 else acc.2)
      | None => acc
      end) (setToDeleteFrom, ∅) (map_to_list setToUseOffsetsFrom) in
  set_fold (λ toErase m, delete toErase m) del (completeCleans : gset aptr).

(** [GetTransferStateMemoryFootprint]: the result and the state with its
    [stateSize]. *)
Definition GetTransferStateMemoryFootprint (rt : Runtime) (st : State) : option (Z * State) :=
  let transferAllocs := dom (TransferIO (sets st)) ∪ dom (TransferOutput (sets st)) in
  size ← mfoldl (λ size a, ob ← allocs rt !! a; Some (size +₆₄ GetAllocationSize ob)) 0
    (elements transferAllocs);
  Some (size, set_stateSize size st).

(** The cleaning part of [ReportState] under [ComputationalSpoorTracking]. *)
Definition clean_sets (s : StateSets) : StateSets :=
  let cio := CleanState (CloneableIO s) (TransferIO s) in
  let io := CleanState (IO s) (TransferIO s) in
  let io := CleanState io cio in
  let i := CleanState (Input s) io in
  let co := CleanState (CloneableOutput s) (TransferOutput s) in
  let ou := CleanState (Output s) (TransferOutput s) in
  let ou := CleanState ou co in
  mkStateSets i io cio (TransferIO s) ou co (TransferOutput s).

(** [ReportState]: the footprint it prints, if [stateReductionTracking] is on,
    and the state after it; [ComputationalSpoorTracking] is 1 and never set. *)
Definition ReportState (stateReductionTracking : bool) (rt : Runtime) (st : State)
    : option (option Z * State) :=
  '(footprint, st) ← (if stateReductionTracking then
      '(z, st) ← GetTransferStateMemoryFootprint rt st; Some (Some z, st)
    else Some (None, st));
  Some (footprint, set_sets (clean_sets (sets st)) st).

(** ** The sets after a commit *)

(** Two sets of offsets per block, united. *)
Definition set_union (x y : stateAllocationsSetType) : stateAllocationsSetType :=
  union_with (λ p q, Some (p ∪ q)) x y.

Lemma set_union_lookup x y k :
  set_union x y !! k =
  match x !! k, y !! k with
  | Some p, Some q => Some (p ∪ q) | Some p, None => Some p
  | None, r => r end.
Proof.
  unfold set_union. rewrite lookup_union_with.
  by destruct (x !! k), (y !! k).
Qed.

Lemma CommitAndCleanSet_spec x y : CommitAndCleanSet x y = (∅, set_union y x).
Proof.
  unfold CommitAndCleanSet. f_equal. apply map_eq. intros k.
  rewrite (foldl_keyed (λ m k, m !! k)
    (λ _ offs r, match r with Some b => Some (b ∪ offs) | None => Some offs end)).
  - rewrite set_union_lookup. by destruct (x !! k), (y !! k).
  - intros s [k1 a1] k2. simpl. destruct (decide (k1 = k2)) as [->|Hne].
    + destruct (s !! k2) eqn:E; by rewrite lookup_insert_eq.
    + destruct (s !! k1) eqn:E; by rewrite lookup_insert_ne.
Qed.

Lemma CommitState_sets o st :
  is_class o →
  set_of o (sets (CommitState st)) = Some ∅ ∧
  ∃ x y, set_of o (sets st) = Some x ∧ set_of o (final_sets st) = Some y ∧
    set_of o (final_sets (CommitState st)) = Some (set_union y x).
Proof.
  intros [w Hw]. unfold CommitState. rewrite !CommitAndCleanSet_spec.
  destruct o; simpl in *; try discriminate; split; eauto.
Qed.

(** ** Cleaning *)

Lemma set_fold_delete_lookup {V} (C : gset aptr) (m : gmap aptr V) k :
  set_fold (λ x m, delete x m) m C !! k = if decide (k ∈ C) then None else m !! k.
Proof.
  revert C. apply (set_fold_ind_L (λ r (X : gset aptr), r !! k = if decide (k ∈ X) then None else m !! k)); [done|].
  intros x X r Hx IH. destruct (decide (x = k)) as [->|Hne].
  - rewrite lookup_delete_eq. by rewrite decide_True by set_solver.
  - rewrite lookup_delete_ne by done. rewrite IH.
    destruct (decide (k ∈ X)); [by rewrite decide_True by set_solver|].
    by rewrite decide_False by set_solver.
Qed.

(** What [CleanState] leaves: the offsets that the other set does not hold for
    the same block; a block the other set names is dropped when none is left. *)
Lemma CleanState_lookup d u k :
  CleanState d u !! k =
  match d !! k, u !! k with
  | Some offs, Some offs' => if decide (offs ⊆ offs') then None else Some (offs ∖ offs')
  | r, _ => r
  end.
Proof.
  unfold CleanState. set (step := λ acc e, _).
  set (view := λ (s : stateAllocationsSetType * gset aptr) k, (s.1 !! k, bool_decide (k ∈ s.2))).
  set (upd := λ (_ : aptr) (offs : gset Z) (r : option (gset Z) * bool), match r.1 with
       | Some b => (Some (b ∖ offs), bool_decide (size (b ∖ offs) = O) || r.2)
       | None => r end).
  assert (∀ s e, keyed_step view upd s e.1 e.2 (step s e)) as Hkey.
  { intros [m c] [k1 a1] k2. subst step view upd. simpl.
    destruct (m !! k1) as [b|] eqn:E; simpl.
    - destruct (decide (k1 = k2)) as [->|Hne]; simpl.
      + rewrite lookup_insert_eq, E. simpl. f_equal. case_decide.
        * rewrite (bool_decide_true (size _ = _)) by done. apply bool_decide_true. set_solver.
        * by rewrite (bool_decide_false (size _ = _)).
      + rewrite lookup_insert_ne by done. f_equal. case_decide; [|done].
        apply bool_decide_ext. set_solver.
    - destruct (decide (k1 = k2)) as [->|]; [by rewrite E|done]. }
  pose proof (foldl_keyed view upd step (d, ∅) u k Hkey) as H. clear Hkey.
  destruct (foldl step (d, ∅) (map_to_list u)) as [del C].
  rewrite set_fold_delete_lookup. subst view upd. simpl in H.
  rewrite (bool_decide_false (k ∈ ∅)) in H by set_solver.
  destruct (u !! k) as [us|] eqn:Eu.
  - destruct (d !! k) as [offs|] eqn:Ed; simpl in H.
    + rewrite orb_false_r in H. injection H as Hd HC.
      rewrite Hd.
      destruct (decide (offs ⊆ us)) as [Hs|Hs].
      * rewrite decide_True; [done|]. apply (bool_decide_unpack _). rewrite HC.
        apply bool_decide_pack. apply size_empty_iff. set_solver.
      * rewrite decide_False; [done|]. intros Hk.
        rewrite (bool_decide_true (k ∈ C)) in HC by done. symmetry in HC.
        apply bool_decide_eq_true in HC. apply size_empty_iff in HC.
        apply Hs. clear -HC. intros z Hz. destruct (decide (z ∈ us)); set_solver.
    + injection H as -> HC. by case_decide.
  - injection H as -> HC. symmetry in HC. rewrite decide_False; [by destruct (d !! k)|].
    intros Hk. rewrite (bool_decide_true (k ∈ C)) in HC by done. done.
Qed.

(** ** What a commit reports *)

(** Offset [v] of block [a] is in class [o] of the given sets. *)
Definition in_class (ss : StateSets) (o : operation) (a : aptr) (v : Z) : Prop :=
  ∃ x offs, set_of o ss = Some x ∧ x !! a = Some offs ∧ v ∈ offs.

(** Offset [v] of block [a] is in class [o] of state [s]. *)
Definition reported (rt : Runtime) (s : sptr) (o : operation) (a : aptr) (v : Z) : Prop :=
  ∃ st, states rt !! s = Some st ∧ in_class (sets st) o a v.

(** Offset [v] is recorded on the block [ob] for state [s] and class [o]. *)
Definition recorded (ob : Allocation) (s : sptr) (o : operation) (v : Z) : Prop :=
  ∃ info offs, StateCommitInfoMap ob !! s = Some info ∧
    stateSetToOffsetMap info !! op_code o = Some offs ∧ v ∈ offs.

(** [s] is on the chain of parents that starts at [start]. *)
Definition on_chain (rt : Runtime) (start : option sptr) (s : sptr) : Prop :=
  ∃ l, parent_chain (states rt) start = Some l ∧ s ∈ l.

Definition info_ok (info : StateCommitInfo) : Prop :=
  ∀ c offs, stateSetToOffsetMap info !! c = Some offs → is_class (op_of_code c).

(** The block's records name live states and the seven classes only. *)
Definition alloc_ok (rt : Runtime) (ob : Allocation) : Prop :=
  sptr_ok (states rt) (affiliatedState ob) ∧
  ∀ s info, StateCommitInfoMap ob !! s = Some info → is_Some (states rt !! s) ∧ info_ok info.

Lemma is_class_code o : is_class o → op_of_code (op_code o) = o.
Proof. intros [x Hx]. apply op_of_code_op_code. by intros c ->. Qed.

Lemma op_of_code_inj c c' : op_of_code c = op_of_code c' → c = c'.
Proof. intros H. by rewrite <- (op_code_op_of_code c), H, op_code_op_of_code. Qed.

Lemma erase_overlap_lookup l1 l2 m s :
  erase_overlap l1 l2 m !! s = if decide (s ∈ l1 ∧ s ∈ l2) then None else m !! s.
Proof.
  unfold erase_overlap.
  assert (∀ (m : gmap sptr StateCommitInfo) s1,
    foldl (λ m s2, if decide (s1 = s2) then delete s2 m else m) m l2 !! s =
    if decide (s = s1 ∧ s ∈ l2) then None else m !! s) as Hin.
  { intros m' s1. revert m'. induction l2 as [|s2 l2 IH]; intros m'; cbn [foldl].
    - rewrite decide_False; [done|]. set_solver.
    - rewrite IH. pose proof (elem_of_cons l2 s s2) as Hc. destruct (decide (s1 = s2)) as [->|].
      + destruct (decide (s = s2)) as [->|].
        * rewrite lookup_delete_eq. repeat case_decide; naive_solver.
        * rewrite lookup_delete_ne by done. repeat case_decide; naive_solver.
      + repeat case_decide; naive_solver. }
  revert m. induction l1 as [|s1 l1 IH]; intros m; cbn [foldl].
  - rewrite decide_False; [done|]. set_solver.
  - rewrite IH, Hin. pose proof (elem_of_cons l1 s s1) as Hc. repeat case_decide; naive_solver.
Qed.

Lemma commit_into_spec a info st :
  info_ok info → ∃ st', commit_into a info st = Some st' ∧
    (∀ o, is_class o → set_of o (sets st') =
      match stateSetToOffsetMap info !! op_code o with
      | Some offs => add_offsets a offs <$> set_of o (sets st)
      | None => set_of o (sets st) end) ∧
    st' = set_sets (sets st') (set_allocationInfo
      (<[a := default ∅ (allocationInfo st !! a) ∪ useInfo info]> (allocationInfo st)) st).
Proof.
  intros Hok. unfold commit_into. set (st0 := set_allocationInfo _ st).
  destruct (mfoldl_keyed (λ ss c, set_of (op_of_code c) ss)
    (λ _ offs r, add_offsets a offs <$> r) (λ _, True) (commit_offsets a) (sets st0)
    (stateSetToOffsetMap info)) as (ss & -> & _ & Hss); [done| |].
  - intros s [c offs] _ Hc. simpl in Hc. pose proof (Hok _ _ Hc) as Hcls.
    destruct (set_of_is_class _ s Hcls) as [x Hx].
    exists (put_set (op_of_code c) (add_offsets a offs x) s).
    unfold commit_offsets. simpl. rewrite Hx. split; [done|]. split; [done|].
    intros c'. simpl. destruct (decide (c = c')) as [<-|Hne].
    + rewrite set_of_put_eq by done. by rewrite Hx.
    + rewrite set_of_put_ne; [done|]. by intros ?%op_of_code_inj.
  - simpl. eexists. split; [done|]. split; [|done]. intros o Ho. simpl.
    specialize (Hss (op_code o)). rewrite is_class_code in Hss by done. by rewrite Hss.
Qed.

(** The part of the store a commit does not touch. *)
Definition same_store (rt rt' : Runtime) : Prop :=
  next_alloc rt' = next_alloc rt ∧ originToAllocMap rt' = originToAllocMap rt ∧
  freshnessSetter rt' = freshnessSetter rt.

Lemma commit_infos_spec a infos rt :
  (∀ s info, infos !! s = Some info → is_Some (states rt !! s) ∧ info_ok info) →
  ∃ rt', mfoldl (commit_info a) rt (map_to_list infos) = Some rt' ∧
    (same_store rt rt' ∧ allocs rt' = allocs rt) ∧
    ∀ s, states rt' !! s = match infos !! s with
      | Some info => states rt !! s ≫= commit_into a info | None => states rt !! s end.
Proof.
  intros Hok.
  destruct (mfoldl_keyed (λ rt s, states rt !! s) (λ _ info r, r ≫= commit_into a info)
    (λ rt', (same_store rt rt' ∧ allocs rt' = allocs rt) ∧
      ∀ s, is_Some (states rt !! s) → is_Some (states rt' !! s))
    (commit_info a) rt infos) as (rt' & -> & [Hsame _] & Hst); [done| |by exists rt'].
  intros rt1 [s info] [(Hs & Ha) Hdom] Hinfo. simpl in Hinfo.
  destruct (Hok _ _ Hinfo) as [Hsome Hiok]. apply Hdom in Hsome as [st Hst].
  destruct (commit_into_spec a info st Hiok) as (st' & Hc & _).
  exists (upd_state s (λ _, st') rt1). unfold commit_info. simpl. rewrite Hst. simpl.
  rewrite Hc. split; [done|]. split.
  - split; [done|]. intros s' Hs'%Hdom. simpl. rewrite lookup_alter.
    case_decide; [by apply fmap_is_Some; subst|done].
  - intros s'. simpl. rewrite lookup_alter. case_decide; subst; [|done].
    by rewrite Hst.
Qed.

Lemma commitStateInfo_spec a skip rt ob :
  states_wf (states rt) → sptr_ok (states rt) skip →
  allocs rt !! a = Some ob → alloc_ok rt ob →
  ∃ rt' infos, commitStateInfo a skip rt = Some (rt', bool_decide (infos ≠ ∅)) ∧
    (∀ s info, infos !! s = Some info ↔ StateCommitInfoMap ob !! s = Some info ∧
      ¬ (on_chain rt (affiliatedState ob) s ∧ on_chain rt skip s)) ∧
    (∀ s, states rt' !! s = match infos !! s with
      | Some info => states rt !! s ≫= commit_into a info | None => states rt !! s end) ∧
    allocs rt' = alter (set_StateCommitInfoMap (clear_info <$> infos)) a (allocs rt) ∧
    same_store rt rt'.
Proof.
  intros Hwf Hskip Hob [Haff Hok].
  destruct (parent_chain_total _ _ Hwf Hskip) as [l2 Hl2].
  destruct (parent_chain_total _ _ Hwf Haff) as [l1 Hl1].
  unfold commitStateInfo. rewrite Hob. simpl. rewrite Hl2, Hl1. simpl.
  set (infos := erase_overlap l1 l2 (StateCommitInfoMap ob)).
  assert (∀ s info, infos !! s = Some info ↔ StateCommitInfoMap ob !! s = Some info ∧
      ¬ (on_chain rt (affiliatedState ob) s ∧ on_chain rt skip s)) as Hinfos.
  { intros s info. subst infos. rewrite erase_overlap_lookup.
    unfold on_chain. rewrite Hl1, Hl2. case_decide; naive_solver. }
  destruct (commit_infos_spec a infos rt) as (rt' & -> & [Hsame Ha] & Hst).
  { intros s info [Hs _]%Hinfos. by apply Hok. }
  eexists _, infos. split; [done|]. split; [done|]. split; [done|]. simpl.
  by rewrite Ha.
Qed.

Lemma set_union_elem (offs : gset Z) (r : option (gset Z)) v :
  v ∈ default ∅ r ∪ offs ↔ (∃ q, r = Some q ∧ v ∈ q) ∨ v ∈ offs.
Proof. destruct r; set_solver. Qed.

Lemma add_offsets_elem a offs x a' v :
  (∃ q, add_offsets a offs x !! a' = Some q ∧ v ∈ q) ↔
  (∃ q, x !! a' = Some q ∧ v ∈ q) ∨ (a' = a ∧ v ∈ offs).
Proof.
  unfold add_offsets. destruct (decide (a = a')) as [<-|Hne].
  - rewrite lookup_insert_eq. split.
    + intros (q & [= <-] & Hv). apply set_union_elem in Hv. naive_solver.
    + intros H. eexists. split; [done|]. apply set_union_elem. naive_solver.
  - rewrite lookup_insert_ne by done. naive_solver.
Qed.

Lemma commit_into_in_class a info st st' o a' v :
  info_ok info → is_class o → commit_into a info st = Some st' →
  in_class (sets st') o a' v ↔ in_class (sets st) o a' v ∨
    (a' = a ∧ ∃ offs, stateSetToOffsetMap info !! op_code o = Some offs ∧ v ∈ offs).
Proof.
  intros Hiok Ho Hc. destruct (commit_into_spec a info st Hiok) as (st1 & Hc1 & Hsets & _).
  simplify_eq. specialize (Hsets o Ho).
  destruct (set_of_is_class o (sets st) Ho) as [x Hx]. rewrite Hx in Hsets.
  unfold in_class. rewrite Hsets, Hx.
  destruct (stateSetToOffsetMap info !! op_code o) as [offs|]; [|naive_solver].
  pose proof (add_offsets_elem a offs x a' v). naive_solver.
Qed.

(** A commit on [a], seen through [reported]. *)
Lemma commitStateInfo_reported a skip rt ob rt' b s o a' v :
  states_wf (states rt) → sptr_ok (states rt) skip →
  allocs rt !! a = Some ob → alloc_ok rt ob → is_class o →
  commitStateInfo a skip rt = Some (rt', b) →
  reported rt' s o a' v ↔
  reported rt s o a' v ∨
  (a' = a ∧ recorded ob s o v ∧
   ¬ (on_chain rt (affiliatedState ob) s ∧ on_chain rt skip s)).
Proof.
  intros Hwf Hskip Hob Hok Ho Hc.
  destruct (commitStateInfo_spec a skip rt ob Hwf Hskip Hob Hok)
    as (rt1 & infos & Hc' & Hinfos & Hst & _). rewrite Hc in Hc'. injection Hc' as <- _.
  unfold reported, recorded. setoid_rewrite Hst. clear Hst Hc.
  destruct (infos !! s) as [info|] eqn:Hi.
  - apply Hinfos in Hi as [Hm Hno]. destruct Hok as [_ Hok].
    destruct (Hok _ _ Hm) as [[st Hst] Hiok]. rewrite Hst. simpl.
    destruct (commit_into_spec a info st Hiok) as (st' & Hst' & _).
    pose proof (commit_into_in_class a info st st' o a' v Hiok Ho Hst'). naive_solver.
  - split; [by left|]. intros [H|(-> & (info & offs & Hm & _) & Hno)]; [done|].
    by rewrite (proj2 (Hinfos s info) (conj Hm Hno)) in Hi.
Qed.

Lemma commit_into_parent a info st st' : commit_into a info st = Some st' → parent st' = parent st.
Proof.
  unfold commit_into. intros H. apply bind_Some in H as (ss & _ & [= <-]). done.
Qed.

(** A commit keeps the forest of states. *)
Lemma commit_states_parent a skip rt rt' b :
  commitStateInfo a skip rt = Some (rt', b) →
  ∀ s, parent <$> states rt' !! s = parent <$> states rt !! s.
Proof.
  unfold commitStateInfo. intros H.
  apply bind_Some in H as (ob & _ & H). apply bind_Some in H as (l1 & _ & H).
  apply bind_Some in H as (l2 & _ & H). apply bind_Some in H as (rt1 & Hf & [= <- _]).
  intros s. simpl. revert s.
  refine (mfoldl_ind (λ r, ∀ s, parent <$> states r !! s = parent <$> states rt !! s) _ _ _ _ Hf _ _);
    [done|].
  intros r [s1 info] r' _ IH Hstep s. unfold commit_info in Hstep. simpl in Hstep.
  apply bind_Some in Hstep as (st & Hst & Hstep). apply bind_Some in Hstep as (st' & Hc & [= <-]).
  simpl. rewrite lookup_alter. case_decide; subst; [|done].
  rewrite <- IH, Hst. simpl. f_equal. by eapply commit_into_parent.
Qed.

Lemma states_wf_parents m m' :
  (∀ s : sptr, parent <$> m' !! s = parent <$> m !! s) → states_wf m → states_wf m'.
Proof.
  intros Hp Hwf s st p Hs Hpar. pose proof (Hp s) as E. rewrite Hs in E.
  destruct (m !! s) as [st0|] eqn:Es; simplify_eq/=.
  destruct (Hwf s st0 p Es) as [? [stp Hstp]]; [congruence|]. split; [done|].
  specialize (Hp p). rewrite Hstp in Hp. destruct (m' !! p); [eauto|done].
Qed.

Lemma sptr_ok_parents m m' s :
  (∀ s : sptr, parent <$> m' !! s = parent <$> m !! s) → sptr_ok m s → sptr_ok m' s.
Proof.
  intros Hp. destruct s as [s|]; simpl; [|done]. intros [st Hst].
  specialize (Hp s). rewrite Hst in Hp. destruct (m' !! s); [eauto|done].
Qed.

(** ** Properties *)

(** C11: a commit moves exactly what was recorded on the block into the states.
    It never dereferences a null set or state; an offset enters a class of a
    state iff it was recorded for that state and class and the state is not on
    both the chain of the block's own state and the chain of the skipped state
    (a block allocated and freed within a region is not reported for it);
    nothing else changes in any set, afterwards nothing is recorded on the
    block, and the result says whether a state was committed. *)
Theorem commitStateInfo_correct a skip rt ob :
  states_wf (states rt) → sptr_ok (states rt) skip →
  allocs rt !! a = Some ob → alloc_ok rt ob →
  ∃ rt' b, commitStateInfo a skip rt = Some (rt', b) ∧
    (∀ s o a' v, is_class o → reported rt' s o a' v ↔
      reported rt s o a' v ∨
      (a' = a ∧ recorded ob s o v ∧
       ¬ (on_chain rt (affiliatedState ob) s ∧ on_chain rt skip s))) ∧
    (∀ ob' s o v, allocs rt' !! a = Some ob' → ¬ recorded ob' s o v) ∧
    (b = true ↔ ∃ s, is_Some (StateCommitInfoMap ob !! s) ∧
      ¬ (on_chain rt (affiliatedState ob) s ∧ on_chain rt skip s)).
Proof.
  intros Hwf Hskip Hob Hok.
  destruct (commitStateInfo_spec a skip rt ob Hwf Hskip Hob Hok)
    as (rt' & infos & Hc & Hinfos & _ & Ha & _).
  exists rt', (bool_decide (infos ≠ ∅)). split; [done|]. split; [|split].
  - intros s o a' v Ho. by eapply commitStateInfo_reported.
  - intros ob' s o v Hob' (info & offs & Hi & Hoffs & Hv).
    rewrite Ha, lookup_alter_eq, Hob in Hob'. injection Hob' as <-. simpl in Hi.
    rewrite lookup_fmap in Hi. destruct (infos !! s) as [info'|]; [|done].
    injection Hi as <-. simpl in Hoffs. rewrite lookup_fmap in Hoffs.
    destruct (_ !! op_code o); [|done]. injection Hoffs as <-. set_solver.
  - rewrite bool_decide_eq_true. split.
    + intros Hne. apply map_choose in Hne as (s & info & [Hi Hno]%Hinfos). eauto.
    + intros (s & [info Hi] & Hno) ->. by apply (lookup_empty_Some (M := gmap sptr) s info), Hinfos.
Qed.

(** Committing is idempotent.  A second commit of the block, whichever
    state it skips, puts nothing more into any class of any state. *)
Theorem commitStateInfo_idempotent a skip1 skip2 rt ob rt1 b1 :
  states_wf (states rt) → sptr_ok (states rt) skip1 → sptr_ok (states rt) skip2 →
  allocs rt !! a = Some ob → alloc_ok rt ob →
  commitStateInfo a skip1 rt = Some (rt1, b1) →
  ∃ rt2 b2, commitStateInfo a skip2 rt1 = Some (rt2, b2) ∧
    ∀ s o a' v, is_class o → reported rt2 s o a' v ↔ reported rt1 s o a' v.
Proof.
  intros Hwf Hs1 Hs2 Hob Hok Hc.
  pose proof (commit_states_parent _ _ _ _ _ Hc) as Hp.
  destruct (commitStateInfo_spec a skip1 rt ob Hwf Hs1 Hob Hok)
    as (rt' & infos & Hc' & Hinfos & _ & Ha & _). rewrite Hc in Hc'. injection Hc' as <- _.
  set (ob1 := set_StateCommitInfoMap (clear_info <$> infos) ob).
  assert (allocs rt1 !! a = Some ob1) as Hob1 by (by rewrite Ha, lookup_alter_eq, Hob).
  assert (states_wf (states rt1)) as Hwf1 by (by eapply states_wf_parents).
  assert (sptr_ok (states rt1) skip2) as Hsk by (by eapply sptr_ok_parents).
  assert (∀ s info, StateCommitInfoMap ob1 !! s = Some info → ∃ info0,
    StateCommitInfoMap ob !! s = Some info0 ∧ info = clear_info info0) as Hclear.
  { intros s info. simpl. rewrite lookup_fmap. destruct (infos !! s) as [i0|] eqn:Ei; [|done].
    intros [= <-]. apply Hinfos in Ei as [? _]. eauto. }
  assert (alloc_ok rt1 ob1) as Hok1.
  { split; [eapply sptr_ok_parents; [done|apply Hok]|]. intros s info Hi.
    destruct (Hclear _ _ Hi) as (info0 & Hi0 & ->). destruct Hok as [_ Hok].
    destruct (Hok _ _ Hi0) as [Hst Hiok]. split; [by apply (sptr_ok_parents _ _ (Some s) Hp)|].
    intros c offs Hoffs. simpl in Hoffs. rewrite lookup_fmap in Hoffs.
    destruct (stateSetToOffsetMap info0 !! c) eqn:E; [|done]. by eapply Hiok. }
  destruct (commitStateInfo_spec a skip2 rt1 ob1 Hwf1 Hsk Hob1 Hok1) as (rt2 & infos2 & Hc2 & _).
  eexists rt2, _. split; [done|]. intros s o a' v Ho.
  rewrite (commitStateInfo_reported a skip2 rt1 ob1 rt2 _ s o a' v) by done.
  split; [|by left]. intros [?|(_ & (info & offs & Hi & Hoffs & Hv) & _)]; [done|].
  destruct (Hclear _ _ Hi) as (info0 & _ & ->). simpl in Hoffs.
  rewrite lookup_fmap in Hoffs. destruct (_ !! op_code o); [|done].
  injection Hoffs as <-. set_solver.
Qed.

(** Two classes share an offset of a block. *)
Definition overlap (x y : stateAllocationsSetType) (a : aptr) (v : Z) : Prop :=
  (∃ q, x !! a = Some q ∧ v ∈ q) ∧ (∃ q, y !! a = Some q ∧ v ∈ q).

Definition holds (x : stateAllocationsSetType) (a : aptr) (v : Z) : Prop :=
  ∃ q, x !! a = Some q ∧ v ∈ q.

Lemma CleanState_holds d u a v : holds (CleanState d u) a v ↔ holds d a v ∧ ¬ holds u a v.
Proof.
  unfold holds. rewrite CleanState_lookup.
  destruct (d !! a) as [q|], (u !! a) as [q'|]; try naive_solver.
  case_decide as Hs; split.
  - by intros (q1 & ? & _).
  - intros [(q1 & [= <-] & Hv) Hno]. destruct Hno. exists q'. split; [done|]. by apply Hs.
  - intros (q1 & [= <-] & Hv). apply elem_of_difference in Hv. naive_solver.
  - intros [(q1 & [= <-] & Hv) Hno]. exists (q ∖ q'). split; [done|].
    apply elem_of_difference. naive_solver.
Qed.

(** C21: the cleaning of [ReportState].  Afterwards no offset of a block is in
    two of TransferIO, CloneableIO and IO, nor in two of TransferOutput,
    CloneableOutput and Output, nor in both Input and IO; and no access is
    lost: an offset is in one of the input-and-output classes afterwards
    exactly if it was before, and the same holds for the output classes. *)
Theorem clean_sets_hierarchy s a v :
  let c := clean_sets s in
  (holds (TransferIO c) a v → ¬ holds (CloneableIO c) a v ∧ ¬ holds (IO c) a v) ∧
  (holds (CloneableIO c) a v → ¬ holds (IO c) a v) ∧
  (holds (IO c) a v → ¬ holds (Input c) a v) ∧
  (holds (TransferOutput c) a v → ¬ holds (CloneableOutput c) a v ∧ ¬ holds (Output c) a v) ∧
  (holds (CloneableOutput c) a v → ¬ holds (Output c) a v) ∧
  (holds (Input c) a v ∨ holds (IO c) a v ∨ holds (CloneableIO c) a v ∨ holds (TransferIO c) a v ↔
   holds (Input s) a v ∨ holds (IO s) a v ∨ holds (CloneableIO s) a v ∨ holds (TransferIO s) a v) ∧
  (holds (Output c) a v ∨ holds (CloneableOutput c) a v ∨ holds (TransferOutput c) a v ↔
   holds (Output s) a v ∨ holds (CloneableOutput s) a v ∨ holds (TransferOutput s) a v).
Proof.
  assert (∀ x, holds x a v ∨ ¬ holds x a v) as Hem.
  { intros x. unfold holds. destruct (x !! a) as [q|]; [|naive_solver].
    destruct (decide (v ∈ q)); naive_solver. }
  unfold clean_sets. simpl. rewrite !CleanState_holds.
  pose proof (Hem (TransferIO s)). pose proof (Hem (CloneableIO s)). pose proof (Hem (IO s)).
  pose proof (Hem (TransferOutput s)). pose proof (Hem (CloneableOutput s)).
  tauto.
Qed.

(** Input is cleaned only with what is left of IO, so an offset that was
    already moved from IO to TransferIO (or CloneableIO) stays in Input as well:
    the cleaned Input is exactly the offsets that are not in IO, or that are
    also in TransferIO or CloneableIO. *)
Theorem clean_sets_input s a v :
  holds (Input (clean_sets s)) a v ↔
  holds (Input s) a v ∧
  (¬ holds (IO s) a v ∨ holds (TransferIO s) a v ∨ holds (CloneableIO s) a v).
Proof.
  assert (∀ x, holds x a v ∨ ¬ holds x a v) as Hem.
  { intros x. unfold holds. destruct (x !! a) as [q|]; [|naive_solver].
    destruct (decide (v ∈ q)); naive_solver. }
  unfold clean_sets. simpl. rewrite !CleanState_holds.
  pose proof (Hem (TransferIO s)). pose proof (Hem (CloneableIO s)). pose proof (Hem (IO s)).
  tauto.
Qed.

Lemma set_union_holds x y a v : holds (set_union x y) a v ↔ holds x a v ∨ holds y a v.
Proof.
  unfold holds. rewrite set_union_lookup.
  destruct (x !! a) as [p|], (y !! a) as [q|]; [|naive_solver..]. split.
  - intros (r & [= <-] & Hv%elem_of_union). naive_solver.
  - intros H. exists (p ∪ q). rewrite elem_of_union. naive_solver.
Qed.

Lemma CommitState_in_class st o a v : is_class o →
  in_class (final_sets (CommitState st)) o a v ↔ in_class (final_sets st) o a v ∨ in_class (sets st) o a v.
Proof.
  intros Ho. destruct (CommitState_sets o st Ho) as (_ & x & y & Hx & Hy & Hu).
  unfold in_class. rewrite Hu, Hx, Hy. pose proof (set_union_holds y x a v) as H. unfold holds in H. naive_solver.
Qed.

Lemma CommitState_automaton st : statePtrMap (CommitState st) = ∅ ∧ statePtrIterMap (CommitState st) = ∅ ∧ currentPtrIterUpgrades (CommitState st) = ∅.
Proof. unfold CommitState. by rewrite !CommitAndCleanSet_spec. Qed.

(** Committing a state adds each working set to the final set of the same
    class, empties the working sets and resets the automaton; it never removes
    an offset from a final set. *)
Theorem CommitState_correct st o a v :
  is_class o →
  (in_class (final_sets (CommitState st)) o a v ↔
   in_class (final_sets st) o a v ∨ in_class (sets st) o a v) ∧
  set_of o (sets (CommitState st)) = Some ∅ ∧
  statePtrMap (CommitState st) = ∅ ∧ statePtrIterMap (CommitState st) = ∅ ∧
  currentPtrIterUpgrades (CommitState st) = ∅.
Proof.
  intros Ho. split; [by apply CommitState_in_class|]. split; [by apply CommitState_sets|apply CommitState_automaton].
Qed.

Lemma CommitState_working st : sets (CommitState st) = empty_sets.
Proof. unfold CommitState. by rewrite !CommitAndCleanSet_spec. Qed.

Lemma CleanState_empty u : CleanState ∅ u = ∅.
Proof. apply map_eq. intros k. by rewrite CleanState_lookup, lookup_empty. Qed.

(** [ReportStatistics] commits every state right before it reports it.
    The report of a committed state always shows a footprint of 0 bytes, and
    its cleaning touches only the working sets, which are empty by then: the
    final sets, the ones written to the result file, are left as they are. *)
Theorem ReportState_after_commit tracking rt st :
  ∃ st', ReportState tracking rt (CommitState st) = Some (if tracking then Some 0 else None, st') ∧
    final_sets st' = final_sets (CommitState st) ∧ sets st' = empty_sets.
Proof.
  unfold ReportState, GetTransferStateMemoryFootprint.
  assert (clean_sets empty_sets = empty_sets) as Hc by (unfold clean_sets; simpl; by rewrite !CleanState_empty).
  destruct tracking; rewrite ?CommitState_working; cbn [mbind option_bind];
    (eexists; split; [rewrite ?CommitState_working; reflexivity|]); split; [done| |done|]; simpl;
    by rewrite ?CommitState_working.
Qed.

(** The footprint of a state is the total size of the distinct blocks in
    TransferIO or TransferOutput, modulo 2^64: a block in both is counted once. *)
Theorem GetTransferStateMemoryFootprint_sum rt st :
  let blocks := dom (TransferIO (sets st)) ∪ dom (TransferOutput (sets st)) in
  (∀ a, a ∈ blocks → is_Some (allocs rt !! a)) →
  let total := foldr Z.add 0 (alloc_length rt <$> elements blocks) in
  ∃ st', GetTransferStateMemoryFootprint rt st = Some (wrap64 total, st') ∧
    stateSize st' = wrap64 total ∧ sets st' = sets st ∧ final_sets st' = final_sets st.
Proof.
  intros blocks Hin total. unfold GetTransferStateMemoryFootprint, GetAllocationSize.
  rewrite (footprint_fold (λ a, a)); [|intros; by apply Hin, elem_of_elements|done].
  simpl. by eexists.
Qed.

(** ** Witnesses *)

(** Two nested regions; block 1 was allocated in the outer one and read at
    offset 8 in the inner one. *)
Definition commit_info_8 : StateCommitInfo :=
  mkStateCommitInfo {[ 77 ]} {[ op_code STATE_ADD_INPUT := {[ 8 ]} ]} false.
Definition commit_block : Allocation :=
  set_affiliatedState (Some 0%nat) (set_StateCommitInfoMap
    {[ 0%nat := commit_info_8; 1%nat := commit_info_8 ]} (new_Allocation 4096 64 1)).
Definition commit_rt : Runtime :=
  mkRuntime {[ 1%positive := commit_block ]} 2
    {[ 0%nat := new_State "main" 1 0 0 None; 1%nat := new_State "loop" 2 0 1 (Some 0%nat) ]} ∅ 1.

Lemma commit_rt_wf : states_wf (states commit_rt).
Proof.
  intros s st p Hs Hp. unfold commit_rt in Hs. cbn [states] in Hs.
  apply lookup_insert_Some in Hs as [[<- <-]|[Hne Hs]]; [done|].
  apply lookup_singleton_Some in Hs as [<- <-]. injection Hp as <-.
  split; [lia|]. by eexists.
Qed.

Lemma commit_block_ok : alloc_ok commit_rt commit_block.
Proof.
  assert (info_ok commit_info_8) as Hi.
  { intros c offs Hc. unfold commit_info_8 in Hc. cbn [stateSetToOffsetMap] in Hc.
    apply lookup_singleton_Some in Hc as [<- _]. by eexists. }
  split; [by eexists|]. intros s info Hs.
  unfold commit_block in Hs. cbn [StateCommitInfoMap set_StateCommitInfoMap set_affiliatedState] in Hs.
  apply lookup_insert_Some in Hs as [[<- <-]|[_ Hs]]; [by split; [eexists|]|].
  apply lookup_singleton_Some in Hs as [<- <-]. by split; [eexists|].
Qed.

Lemma commitStateInfo_correct_witness :
  ∃ rt' b, commitStateInfo 1 (Some 0%nat) commit_rt = Some (rt', b) ∧
    reported rt' 1 STATE_ADD_INPUT 1 8 ∧ b = true.
Proof.
  destruct (commitStateInfo_correct 1 (Some 0%nat) commit_rt commit_block)
    as (rt' & b & Hc & Hrep & _ & Hb);
    [apply commit_rt_wf|by eexists|reflexivity|apply commit_block_ok|].
  exists rt', b. split; [done|].
  assert (¬ (on_chain commit_rt (affiliatedState commit_block) 1 ∧
             on_chain commit_rt (Some 0%nat) 1)) as Hno.
  { intros [(l & Hl & Hin) _]. vm_compute in Hl. injection Hl as <-. set_solver by lia. }
  split.
  - apply Hrep; [by eexists|]. right. split; [done|]. split; [|done].
    eexists _, _. split; [reflexivity|]. split; [reflexivity|]. set_solver.
  - apply Hb. exists 1%nat. split; [by eexists|done].
Defined.

Lemma commitStateInfo_idempotent_witness :
  ∃ rt1 b1 rt2 b2, commitStateInfo 1 None commit_rt = Some (rt1, b1) ∧
    commitStateInfo 1 None rt1 = Some (rt2, b2) ∧
    ∀ s o a' v, is_class o → reported rt2 s o a' v ↔ reported rt1 s o a' v.
Proof.
  destruct (commitStateInfo 1 None commit_rt) as [[rt1 b1]|] eqn:E; [|vm_compute in E; discriminate].
  destruct (commitStateInfo_idempotent 1 None None commit_rt commit_block rt1 b1)
    as (rt2 & b2 & H2 & Hrep);
    [apply commit_rt_wf|done|done|reflexivity|apply commit_block_ok|exact E|].
  by exists rt1, b1, rt2, b2.
Defined.

Lemma CommitState_correct_witness :
  let st := set_sets (mkStateSets {[ 1%positive := {[ 8 ]} ]} ∅ ∅ ∅ ∅ ∅ ∅) (new_State "f" 1 0 0 None) in
  in_class (final_sets (CommitState st)) STATE_ADD_INPUT 1 8.
Proof.
  intros st. destruct (CommitState_correct st STATE_ADD_INPUT 1 8) as [H _]; [by eexists|].
  apply H. right. eexists _, _. split; [reflexivity|]. split; [reflexivity|]. set_solver.
Defined.

Lemma GetTransferStateMemoryFootprint_sum_witness :
  let st := set_sets (mkStateSets ∅ ∅ ∅ {[ 1%positive := {[ 8 ]} ]} ∅ ∅ {[ 1%positive := {[ 0 ]} ]})
    (new_State "f" 1 0 0 None) in
  ∃ st', GetTransferStateMemoryFootprint commit_rt st = Some (64, st') ∧ stateSize st' = 64.
Proof.
  intros st. destruct (GetTransferStateMemoryFootprint_sum commit_rt st) as (st' & H & Hs & _).
  - intros a Ha. unfold st in Ha. cbn [TransferIO TransferOutput sets set_sets] in Ha.
    rewrite !dom_singleton_L in Ha. assert (a = 1%positive) as -> by set_solver. by eexists.
  - exists st'. split; [exact H|exact Hs].
Defined.
