(* ===== verification/CleanBatch.v ===== *)
(** * Classifying the accesses of a batch

    [cleanBatch] of extra/texas/src/runtime/texas.cpp, the first stage of a
    batch: it runs the access automaton of every region and replaces the read
    and write operations of the batch by the class the region's automaton has
    for the address when the batch ends.

    A region of interest is invoked many times; one invocation is what lies
    between its STATE_BEGIN and STATE_END.  [statePtrIterMap] classifies an
    address within its first invocation, [statePtrMap] over all of them, and
    [currentPtrIterUpgrades] holds the addresses whose class was settled in
    the current invocation. *)

From S2P Require Import Prelude Helpers Objects.

(** ** Data *)

(** The [union] of a shadow entry: the member last written. *)
Inductive sizeState := Size (size : Z) | StatePtr (statePtr : option sptr).

(** [typedef struct { ... } shadowEntry]; the fields keep what the previous use
    of the slot wrote. *)
Record shadowEntry := mkEntry {
  eoperation : operation; (** [operation] *)
  ptr : Z;
  esizeState : sizeState; (** [sizeState] *)
  stateToSet : Z;
  eaffiliatedState : option sptr; (** [affiliatedState] *)
  information : Z;
}.

Definition set_operation (o : operation) (e : shadowEntry) : shadowEntry :=
  mkEntry o (ptr e) (esizeState e) (stateToSet e) (eaffiliatedState e) (information e).
Definition set_ptr (p : Z) (e : shadowEntry) : shadowEntry :=
  mkEntry (eoperation e) p (esizeState e) (stateToSet e) (eaffiliatedState e) (information e).
Definition set_size (z : Z) (e : shadowEntry) : shadowEntry :=
  mkEntry (eoperation e) (ptr e) (Size z) (stateToSet e) (eaffiliatedState e) (information e).
Definition set_statePtr (s : option sptr) (e : shadowEntry) : shadowEntry :=
  mkEntry (eoperation e) (ptr e) (StatePtr s) (stateToSet e) (eaffiliatedState e) (information e).
Definition set_stateToSet (z : Z) (e : shadowEntry) : shadowEntry :=
  mkEntry (eoperation e) (ptr e) (esizeState e) z (eaffiliatedState e) (information e).
Definition set_eaffiliated (s : option sptr) (e : shadowEntry) : shadowEntry :=
  mkEntry (eoperation e) (ptr e) (esizeState e) (stateToSet e) s (information e).
Definition set_information (z : Z) (e : shadowEntry) : shadowEntry :=
  mkEntry (eoperation e) (ptr e) (esizeState e) (stateToSet e) (eaffiliatedState e) z.

(** Dereferencing [sizeState.statePtr]: null, or a number read as a pointer, is
    a crash. *)
Definition get_statePtr (e : shadowEntry) : option sptr :=
  match esizeState e with StatePtr s => s | Size _ => None end.

(** The tracking flags of texas.cpp, Shadow.cpp and State.cpp. *)
Record config := mkConfig {
  trackCycles : bool;
  trackTransfer : bool;
  trackCloneable : bool;
  trackInput : bool;
  trackOutput : bool;
  stateReductionTracking : bool;
}.

(** Their initial values. *)
Definition default_config : config := mkConfig true true true true true true.

(** ** The automaton *)

(** [statePtrMap.insert_or_assign(ptr, c)] with
    [currentPtrIterUpgrades.insert(ptr)]. *)
Definition mark (p : Z) (st : State) : State :=
  set_currentPtrIterUpgrades ({[p]} ∪ currentPtrIterUpgrades st) st.
Definition upgrade (p : Z) (c : operation) (st : State) : State :=
  mark p (set_statePtrMap (<[p := c]> (statePtrMap st)) st).

(** A read or write of address [p] (the cases STATE_ADD_READ and
    STATE_ADD_WRITE, with [batchState] the region [st]). *)
Definition fsa_access (p : Z) (op : operation) (st : State) : State :=
  match statePtrMap st !! p with
  | Some c =>
      match c with
      | STATE_ADD_INPUT =>
          if decide (op = STATE_ADD_WRITE) then upgrade p STATE_ADD_IO st else st
      | STATE_ADD_IO =>
          if decide (p ∈ currentPtrIterUpgrades st) then st
          else upgrade p (if decide (op = STATE_ADD_READ) then STATE_ADD_TIO else STATE_ADD_CIO) st
      | STATE_ADD_CIO =>
          if decide (op = STATE_ADD_READ) then
            if decide (p ∈ currentPtrIterUpgrades st) then st else upgrade p STATE_ADD_TIO st
          else mark p st
      | STATE_ADD_TIO => mark p st
      | STATE_ADD_OUTPUT =>
          if decide (p ∈ currentPtrIterUpgrades st) then st
          else upgrade p (if decide (op = STATE_ADD_READ) then STATE_ADD_TO else STATE_ADD_CO) st
      | STATE_ADD_CO =>
          if decide (op = STATE_ADD_READ) then
            if decide (p ∈ currentPtrIterUpgrades st) then st else upgrade p STATE_ADD_TO st
          else mark p st
      | STATE_ADD_TO => mark p st
      | _ => st
      end
  | None =>
      match statePtrIterMap st !! p with
      | Some c =>
          if decide (c = STATE_ADD_INPUT ∧ op = STATE_ADD_WRITE)
          then set_statePtrIterMap (<[p := STATE_ADD_IO]> (statePtrIterMap st)) st else st
      | None =>
          if decide (op = STATE_ADD_WRITE)
          then set_statePtrIterMap (<[p := STATE_ADD_OUTPUT]> (statePtrIterMap st)) st
          else if decide (op = STATE_ADD_READ)
          then set_statePtrIterMap (<[p := STATE_ADD_INPUT]> (statePtrIterMap st)) st
          else st
      end
  end.

(** STATE_BEGIN *)
Definition fsa_begin (st : State) : State :=
  set_currentPtrIterUpgrades ∅ (set_statePtrIterMap ∅ st).

(** STATE_END: elevate the first-invocation classes; [insert] keeps what is
    there. *)
Definition fsa_end (st : State) : State :=
  set_statePtrMap (statePtrMap st ∪ statePtrIterMap st) st.

(** ** The two passes of [cleanBatch] *)

(** One entry of the first loop: the store, [batchState] and the entry after
    it.  [oldState] is assigned whenever [batchState] changes, and starts as
    its initial value, so the two are equal throughout. *)
Definition clean_entry (cfg : config) (rt : Runtime) (batchState : option sptr) (e : shadowEntry)
    : option (Runtime * option sptr * shadowEntry) :=
  match eoperation e with
  | STATE_ADD_READ | STATE_ADD_WRITE =>
      match batchState with
      | None => Some (rt, None, if trackCycles cfg then set_operation REDUNDANT e else e)
      | Some s =>
          _ ← states rt !! s;
          Some (upd_state s (fsa_access (ptr e) (eoperation e)) rt, Some s, set_statePtr (Some s) e)
      end
  | STATE_END =>
      s ← get_statePtr e;
      st ← states rt !! s;
      Some (upd_state s fsa_end rt, parent st, set_operation REDUNDANT e)
  | STATE_BEGIN =>
      s ← get_statePtr e;
      _ ← states rt !! s;
      Some (upd_state s fsa_begin rt, Some s, set_operation REDUNDANT e)
  | _ => Some (rt, batchState, e)
  end.

Fixpoint clean_entries (cfg : config) (rt : Runtime) (batchState : option sptr) (es : list shadowEntry)
    : option (Runtime * option sptr * list shadowEntry) :=
  match es with
  | [] => Some (rt, batchState, [])
  | e :: es =>
      '(rt, batchState, e) ← clean_entry cfg rt batchState e;
      '(rt, batchState, es) ← clean_entries cfg rt batchState es;
      Some (rt, batchState, e :: es)
  end.

(** Whether the class is one the user tracks (the second [switch]). *)
Definition tracked (cfg : config) (c : operation) : bool :=
  match c with
  | STATE_ADD_INPUT => trackInput cfg
  | STATE_ADD_IO => trackInput cfg || trackOutput cfg
  | STATE_ADD_CIO => trackCloneable cfg || trackInput cfg || trackOutput cfg
  | STATE_ADD_TIO => trackTransfer cfg || trackInput cfg || trackOutput cfg
  | STATE_ADD_OUTPUT => trackOutput cfg
  | STATE_ADD_CO => trackCloneable cfg || trackOutput cfg
  | STATE_ADD_TO => trackTransfer cfg || trackOutput cfg
  | _ => false
  end.

(** One entry of the second loop. *)
Definition reassign_entry (cfg : config) (rt : Runtime) (e : shadowEntry) : option shadowEntry :=
  match eoperation e with
  | STATE_ADD_READ | STATE_ADD_WRITE =>
      s ← get_statePtr e;
      st ← states rt !! s;
      let untracked := if trackCycles cfg then e else set_operation REDUNDANT e in
      Some match statePtrMap st !! ptr e with
           | None => untracked
           | Some c =>
               if tracked cfg c then set_operation c e
               else if decide (is_class c) then untracked else e
           end
  | _ => Some e
  end.

(** [cleanBatch] on the entries [0 .. numEntries - 1] of the batch; [oldState]
    is the region in which the previous batch ended. *)
Definition cleanBatch (cfg : config) (rt : Runtime) (oldState : option sptr) (es : list shadowEntry)
    : option (Runtime * option sptr * list shadowEntry) :=
  '(rt, batchState, es) ← clean_entries cfg rt oldState es;
  es ← mapM (reassign_entry cfg rt) es;
  Some (rt, batchState, es).

(** ** Declarative classification

    The history of an address in a region: the accesses of each invocation
    that accessed it, oldest first; [true] is a write. *)
Notation invocation := (list bool) (only parsing).

Definition has_write (it : invocation) : bool := existsb (λ w, w) it.
Definition starts_with_write (it : invocation) : bool := default false (head it).

(** Of the invocations that follow a write: does one start with a read, does
    one start with a write. *)
Fixpoint later_starts (dirty : bool) (w : bool) (its : list invocation) : bool :=
  match its with
  | [] => false
  | it :: its =>
      (dirty && bool_decide (head it = Some w)) || later_starts (dirty || has_write it) w its
  end.

Definition carried (its : list invocation) : bool := later_starts false false its.
Definition overwritten (its : list invocation) : bool := later_starts false true its.

(** An address is an output if its first access is a write, else an input, and
    an input that is ever written is input-and-output.  Its value is
    transferred if an invocation reads it before writing it although an earlier
    invocation wrote it; else it is cloneable if an invocation overwrites what
    an earlier one wrote. *)
Definition classify (its : list invocation) : option operation :=
  match its with
  | [] => None
  | it :: _ =>
      Some (if starts_with_write it then
              if carried its then STATE_ADD_TO
              else if overwritten its then STATE_ADD_CO else STATE_ADD_OUTPUT
            else if existsb has_write its then
              if carried its then STATE_ADD_TIO
              else if overwritten its then STATE_ADD_CIO else STATE_ADD_IO
            else STATE_ADD_INPUT)
  end.

Definition rw_op (w : bool) : operation := if w then STATE_ADD_WRITE else STATE_ADD_READ.

(** The accesses of one invocation: address and direction. *)
Notation accesses := (list (Z * bool)) (only parsing).

(** The automaton on one invocation and on a sequence of them. *)
Definition run_accesses (st : State) (accs : accesses) : State :=
  foldl (λ st a, fsa_access a.1 (rw_op a.2) st) st accs.
Definition run_invocation (st : State) (accs : accesses) : State :=
  fsa_end (run_accesses (fsa_begin st) accs).
Definition run_invocations (st : State) (invs : list accesses) : State :=
  foldl run_invocation st invs.

(** The history of one address. *)
Definition project (p : Z) (accs : accesses) : invocation :=
  (filter (λ a : Z * bool, a.1 = p) accs).*2.
Definition history (p : Z) (invs : list accesses) : list invocation :=
  filter (λ it, it ≠ []) (project p <$> invs).

(** ** The automaton for one address *)

(** What the automaton knows of one address. *)
Record cell := mkCell { class : option operation; iter_class : option operation; settled : bool }.

Definition cell_of (p : Z) (st : State) : cell :=
  mkCell (statePtrMap st !! p) (statePtrIterMap st !! p)
    (bool_decide (p ∈ currentPtrIterUpgrades st)).

Definition cell_access (w : bool) (c : cell) : cell :=
  match class c with
  | Some k =>
      match k with
      | STATE_ADD_INPUT => if w then mkCell (Some STATE_ADD_IO) (iter_class c) true else c
      | STATE_ADD_IO =>
          if settled c then c
          else mkCell (Some (if w then STATE_ADD_CIO else STATE_ADD_TIO)) (iter_class c) true
      | STATE_ADD_CIO =>
          if w then mkCell (Some k) (iter_class c) true
          else if settled c then c else mkCell (Some STATE_ADD_TIO) (iter_class c) true
      | STATE_ADD_OUTPUT =>
          if settled c then c
          else mkCell (Some (if w then STATE_ADD_CO else STATE_ADD_TO)) (iter_class c) true
      | STATE_ADD_CO =>
          if w then mkCell (Some k) (iter_class c) true
          else if settled c then c else mkCell (Some STATE_ADD_TO) (iter_class c) true
      | STATE_ADD_TIO | STATE_ADD_TO => mkCell (Some k) (iter_class c) true
      | _ => c
      end
  | None =>
      match iter_class c with
      | Some k => if bool_decide (k = STATE_ADD_INPUT) && w
                  then mkCell None (Some STATE_ADD_IO) (settled c) else c
      | None => mkCell None (Some (if w then STATE_ADD_OUTPUT else STATE_ADD_INPUT)) (settled c)
      end
  end.

Arguments cell_access w !c /.

Definition cell_invocation (c : cell) (it : invocation) : cell :=
  let c' := foldl (λ c w, cell_access w c) (mkCell (class c) None false) it in
  mkCell (match class c' with Some k => Some k | None => iter_class c' end)
    (iter_class c') (settled c').

Lemma cell_of_mark p q st :
  cell_of q (mark p st) = let c := cell_of q st in
    if decide (p = q) then mkCell (class c) (iter_class c) true else c.
Proof.
  unfold cell_of, mark. simpl. case_decide as Hd; subst; f_equal.
  - apply bool_decide_true. set_solver.
  - apply bool_decide_ext. set_solver.
Qed.

Lemma cell_of_upgrade p q k st :
  cell_of q (upgrade p k st) = let c := cell_of q st in
    if decide (p = q) then mkCell (Some k) (iter_class c) true else c.
Proof.
  unfold upgrade. rewrite cell_of_mark. simpl. unfold cell_of. simpl.
  case_decide; subst; [by rewrite lookup_insert_eq|by rewrite lookup_insert_ne].
Qed.

Lemma cell_of_iter p q k st :
  cell_of q (set_statePtrIterMap (<[p := k]> (statePtrIterMap st)) st) = let c := cell_of q st in
    if decide (p = q) then mkCell (class c) (Some k) (settled c) else c.
Proof.
  unfold cell_of. simpl. case_decide; subst; [by rewrite lookup_insert_eq|by rewrite lookup_insert_ne].
Qed.

(** The automaton works address by address. *)
Lemma cell_of_access p q w st :
  cell_of q (fsa_access p (rw_op w) st) =
  if decide (p = q) then cell_access w (cell_of q st) else cell_of q st.
Proof.
  unfold fsa_access. destruct (decide (p = q)) as [<-|Hne].
  - destruct (cell_of p st) as [a b s] eqn:E. pose proof E as E'. unfold cell_of in E'.
    injection E' as -> -> Hs. unfold cell_access; simpl.
    destruct s; [apply bool_decide_eq_true in Hs|apply bool_decide_eq_false in Hs];
      destruct a as [k|]; [destruct k|destruct b as [k|]|destruct k|destruct b as [k|]]; destruct w; simpl;
      repeat (case_decide || case_bool_decide); simpl; try done;
      rewrite ?cell_of_mark, ?cell_of_upgrade, ?cell_of_iter, ?E; simpl;
      rewrite ?decide_True by done; try done; naive_solver.
  - repeat case_match; rewrite ?cell_of_iter, ?cell_of_mark, ?cell_of_upgrade; simpl;
      rewrite ?decide_False by done; done.
Qed.

Lemma cell_of_run p st accs :
  cell_of p (run_accesses st accs) = foldl (λ c w, cell_access w c) (cell_of p st) (project p accs).
Proof.
  unfold run_accesses, project. revert st. induction accs as [|[q w] accs IH]; intros st; [done|].
  simpl. rewrite IH, cell_of_access, filter_cons. simpl. by case_decide.
Qed.

Lemma cell_of_invocation p st accs :
  cell_of p (run_invocation st accs) = cell_invocation (cell_of p st) (project p accs).
Proof.
  unfold run_invocation, cell_invocation.
  assert (cell_of p (fsa_begin st) = mkCell (class (cell_of p st)) None false) as Hb.
  { unfold cell_of. simpl. f_equal. }
  pose proof (cell_of_run p (fsa_begin st) accs) as H. rewrite Hb in H. rewrite <- H.
  unfold cell_of. simpl. f_equal. rewrite lookup_union.
  by destruct (statePtrMap _ !! p), (statePtrIterMap _ !! p).
Qed.

(** One invocation, as a function of the class alone. *)
Definition class_step (k : option operation) (it : invocation) : option operation :=
  class (cell_invocation (mkCell k None false) it).

Lemma class_run p st invs :
  statePtrMap (run_invocations st invs) !! p =
  foldl class_step (statePtrMap st !! p) (history p invs).
Proof.
  unfold run_invocations, history. revert st.
  induction invs as [|accs invs IH]; intros st; [done|]. simpl. rewrite IH.
  assert (statePtrMap (run_invocation st accs) !! p =
    class_step (statePtrMap st !! p) (project p accs)) as ->.
  { pose proof (f_equal class (cell_of_invocation p st accs)) as H. exact H. }
  rewrite filter_cons. destruct (project p accs) as [|w it]; simpl; [|done].
  unfold class_step, cell_invocation. simpl. by destruct (statePtrMap st !! p).
Qed.

(** A settled class does not change within the invocation. *)
Lemma settled_stable k b it :
  k ∈ [STATE_ADD_IO; STATE_ADD_CIO; STATE_ADD_TIO; STATE_ADD_OUTPUT; STATE_ADD_CO; STATE_ADD_TO] →
  foldl (λ c w, cell_access w c) (mkCell (Some k) b true) it = mkCell (Some k) b true.
Proof.
  intros Hk.
  assert (∀ w, cell_access w (mkCell (Some k) b true) = mkCell (Some k) b true) as Hw.
  { intros w. repeat (apply elem_of_cons in Hk as [->|Hk]; [by destruct w|]). by apply elem_of_nil in Hk. }
  induction it as [|w it IH]; [done|]. cbn [foldl]. by rewrite Hw.
Qed.

Lemma input_run it b s :
  class (foldl (λ c w, cell_access w c) (mkCell (Some STATE_ADD_INPUT) b s) it) =
  Some (if has_write it then STATE_ADD_IO else STATE_ADD_INPUT).
Proof.
  induction it as [|[] it IH]; [done| |done]. simpl.
  rewrite settled_stable; [done|]. apply elem_of_cons. by left.
Qed.

Lemma first_run k it :
  k = STATE_ADD_INPUT ∨ k = STATE_ADD_IO ∨ k = STATE_ADD_OUTPUT →
  foldl (λ c w, cell_access w c) (mkCell None (Some k) false) it =
  mkCell None (Some (if decide (k = STATE_ADD_INPUT) then
    if has_write it then STATE_ADD_IO else STATE_ADD_INPUT else k)) false.
Proof.
  revert k. induction it as [|w it IH]; intros k Hk; simpl; [by case_decide; subst|].
  destruct Hk as [-> | [-> | ->]].
  - destruct w; simpl; [rewrite IH by auto; done|rewrite IH by auto; done].
  - rewrite bool_decide_false by done. simpl. rewrite IH by auto. done.
  - rewrite bool_decide_false by done. simpl. rewrite IH by auto. done.
Qed.

(** What one invocation does to each class. *)
Lemma class_step_spec k w it :
  class_step k (w :: it) =
  match k with
  | None => Some (if w then STATE_ADD_OUTPUT else if has_write it then STATE_ADD_IO else STATE_ADD_INPUT)
  | Some STATE_ADD_INPUT => Some (if w || has_write it then STATE_ADD_IO else STATE_ADD_INPUT)
  | Some STATE_ADD_IO | Some STATE_ADD_CIO => Some (if w then STATE_ADD_CIO else STATE_ADD_TIO)
  | Some STATE_ADD_OUTPUT | Some STATE_ADD_CO => Some (if w then STATE_ADD_CO else STATE_ADD_TO)
  | Some STATE_ADD_TIO => Some STATE_ADD_TIO
  | Some STATE_ADD_TO => Some STATE_ADD_TO
  | Some _ => class_step k (w :: it)
  end.
Proof.
  destruct k as [[]|]; try done; unfold class_step, cell_invocation; cbn [foldl class];
    destruct w; cbn [cell_access class iter_class settled];
    rewrite ?input_run, ?first_run by auto;
    rewrite ?settled_stable by (repeat (apply elem_of_cons; (by left) || right); set_solver);
    simpl; try done; by destruct (has_write it).
Qed.

Lemma later_starts_snoc d w its it :
  later_starts d w (its ++ [it]) =
  later_starts d w its || ((d || existsb has_write its) && bool_decide (head it = Some w)).
Proof.
  revert d. induction its as [|i its IH]; intros d; simpl.
  - by rewrite !orb_false_r.
  - rewrite IH. by destruct d, (has_write i), (bool_decide (head i = Some w)).
Qed.

Lemma later_starts_clean d w its :
  d || existsb has_write its = false → later_starts d w its = false.
Proof.
  revert d. induction its as [|i its IH]; intros d; simpl; [done|].
  rewrite !orb_false_iff. intros (-> & Hi & Hits). rewrite Hi. split; [done|].
  apply IH. by rewrite Hits.
Qed.

(** The declarative class grows with the history as the automaton does. *)
Lemma classify_snoc its it :
  it ≠ [] → classify (its ++ [it]) = class_step (classify its) it.
Proof.
  destruct it as [|w r]; [done|]. intros _. rewrite class_step_spec.
  unfold classify, carried, overwritten.
  destruct its as [|i its]; [simpl; by destruct w, (has_write r)|].
  cbn [app later_starts existsb andb orb]. rewrite existsb_app, !later_starts_snoc.
  assert (starts_with_write i = true → has_write i = true) as Hs by (by destruct i as [|[] i]).
  pose proof (later_starts_clean (has_write i) false its) as Hf.
  pose proof (later_starts_clean (has_write i) true its) as Ht.
  destruct (starts_with_write i); [rewrite Hs by done|];
    [|destruct (has_write i || existsb has_write its) eqn:D;
      [|rewrite Hf, Ht by done; apply orb_false_iff in D as [D1 D2]; rewrite ?D1, ?D2]].
  all: rewrite ?orb_assoc, ?D; cbn [has_write existsb orb andb head];
    destruct w; rewrite ?bool_decide_true, ?bool_decide_false by done;
    rewrite ?orb_false_r, ?orb_true_r, ?andb_true_r, ?andb_false_r; cbn [orb andb].
  all: change (existsb (λ w : bool, w) r) with (has_write r); rewrite ?D2.
  all: destruct (has_write i), (existsb has_write its), (has_write r);
    try discriminate; cbn [orb].
  all: repeat match goal with |- context [if ?b then _ else _] => destruct b end; done.
Qed.

(** The automaton, started on an address it has not seen, computes [classify]. *)
Lemma class_steps_classify its :
  Forall (λ it, it ≠ []) its → foldl class_step None its = classify its.
Proof.
  induction its as [|it its IH] using rev_ind; intros Hne; [done|].
  apply Forall_app in Hne as [Hne Hit]. rewrite foldl_app. simpl.
  rewrite IH by done. symmetry. apply classify_snoc. by inversion Hit.
Qed.

Lemma history_nonempty p invs : Forall (λ it, it ≠ []) (history p invs).
Proof. apply Forall_forall. intros it Hit. by apply list_elem_of_filter in Hit as [? _]. Qed.

Lemma run_classify p st invs :
  statePtrMap st !! p = None →
  statePtrMap (run_invocations st invs) !! p = classify (history p invs).
Proof. intros H. rewrite class_run, H. apply class_steps_classify, history_nonempty. Qed.

(** ** A batch, seen by one region *)

(** What a batch does to the automaton of one region. *)
Inductive event := EvBegin | EvAccess (p : Z) (op : operation) | EvEnd.

Definition apply_event (st : State) (ev : event) : State :=
  match ev with
  | EvBegin => fsa_begin st
  | EvAccess p op => fsa_access p op st
  | EvEnd => fsa_end st
  end.

(** Is the entry a read or write of memory? *)
Definition is_access (e : shadowEntry) : bool :=
  bool_decide (eoperation e = STATE_ADD_READ ∨ eoperation e = STATE_ADD_WRITE).

(** The region whose accesses follow an entry. *)
Definition next_region (m : gmap sptr State) (batchState : option sptr) (e : shadowEntry) : option sptr :=
  match eoperation e with
  | STATE_BEGIN => get_statePtr e
  | STATE_END => s ← get_statePtr e; st ← m !! s; parent st
  | _ => batchState
  end.

(** The region each entry of the batch is seen in. *)
Fixpoint regions (m : gmap sptr State) (batchState : option sptr) (es : list shadowEntry)
    : list (option sptr) :=
  match es with
  | [] => []
  | e :: es => batchState :: regions m (next_region m batchState e) es
  end.

(** The events of region [s] in one entry. *)
Definition entry_events (s : sptr) (batchState : option sptr) (e : shadowEntry) : list event :=
  match eoperation e with
  | STATE_ADD_READ | STATE_ADD_WRITE =>
      if decide (batchState = Some s) then [EvAccess (ptr e) (eoperation e)] else []
  | STATE_BEGIN => if decide (get_statePtr e = Some s) then [EvBegin] else []
  | STATE_END => if decide (get_statePtr e = Some s) then [EvEnd] else []
  | _ => []
  end.

(** The events of region [s] in a batch, whatever other regions, nested or
    not, interleave with them. *)
Fixpoint events (m : gmap sptr State) (s : sptr) (batchState : option sptr) (es : list shadowEntry)
    : list event :=
  match es with
  | [] => []
  | e :: es => entry_events s batchState e ++ events m s (next_region m batchState e) es
  end.

(** The events of complete invocations. *)
Definition accesses_events (accs : accesses) : list event :=
  (λ a, EvAccess a.1 (rw_op a.2)) <$> accs.
Definition invocation_events (accs : accesses) : list event :=
  EvBegin :: accesses_events accs ++ [EvEnd].

Lemma fsa_parent ev st : parent (apply_event st ev) = parent st.
Proof.
  destruct ev as [|p op|]; simpl; [done| |done].
  unfold fsa_access. repeat case_match; done.
Qed.

Lemma clean_entry_spec cfg rt bs e rt' bs' e' :
  clean_entry cfg rt bs e = Some (rt', bs', e') →
  (∀ s, states rt' !! s = (λ st, foldl apply_event st (entry_events s bs e)) <$> states rt !! s) ∧
  bs' = next_region (states rt) bs e ∧
  (if is_access e
   then match bs with
        | Some s => e' = set_statePtr (Some s) e
        | None => e' = if trackCycles cfg then set_operation REDUNDANT e else e
        end
   else is_access e' = false).
Proof.
  assert (∀ s0 ev s, states (upd_state s0 (λ st, apply_event st ev) rt) !! s =
    (λ st, foldl apply_event st (if decide (Some s0 = Some s) then [ev] else [])) <$> states rt !! s)
    as Hupd.
  { intros s0 ev s. simpl. rewrite lookup_alter.
    destruct (decide (s0 = s)) as [->|]; repeat case_decide; simplify_eq; try done;
      by destruct (states rt !! s). }
  assert (∀ s, states rt !! s = (λ st, foldl apply_event st []) <$> states rt !! s) as Hid
    by (intros s; by destruct (states rt !! s)).
  unfold clean_entry, entry_events, next_region, is_access.
  destruct (eoperation e) eqn:Eo; intros H;
    try (injection H as <- <- <-; rewrite ?Eo; by rewrite bool_decide_false by naive_solver).
  1-2: rewrite bool_decide_true by auto; destruct bs as [s0|];
    [|injection H as <- <- <-; by destruct (trackCycles cfg)];
    apply bind_Some in H as (st & Hst & [= <- <- <-]); split; [|done];
    intros s; apply (Hupd s0 (EvAccess (ptr e) _)).
  all: rewrite bool_decide_false by naive_solver; apply bind_Some in H as (s0 & Hs0 & H);
    apply bind_Some in H as (st & Hst & [= <- <- <-]); rewrite Hs0; cbn [mbind option_bind].
  - split; [apply (Hupd s0 EvBegin)|done].
  - rewrite Hst. split; [apply (Hupd s0 EvEnd)|done].
Qed.

(** Only the parents of the states matter for the regions of a batch. *)
Lemma next_region_ext m m' bs e :
  (∀ s : sptr, parent <$> m' !! s = parent <$> m !! s) → next_region m' bs e = next_region m bs e.
Proof.
  intros Hp. unfold next_region. destruct (eoperation e); try done.
  destruct (get_statePtr e) as [s|]; simpl; [|done]. specialize (Hp s).
  destruct (m !! s), (m' !! s); simpl in *; congruence.
Qed.

Lemma events_ext m m' s bs es :
  (∀ s : sptr, parent <$> m' !! s = parent <$> m !! s) → events m' s bs es = events m s bs es.
Proof.
  intros Hp. revert bs. induction es as [|e es IH]; intros bs; simpl; [done|].
  by rewrite (next_region_ext _ _ _ _ Hp), IH.
Qed.

Lemma regions_ext m m' bs es :
  (∀ s : sptr, parent <$> m' !! s = parent <$> m !! s) → regions m' bs es = regions m bs es.
Proof.
  intros Hp. revert bs. induction es as [|e es IH]; intros bs; simpl; [done|].
  by rewrite (next_region_ext _ _ _ _ Hp), IH.
Qed.

Lemma clean_entry_parents cfg rt bs e rt' bs' e' :
  clean_entry cfg rt bs e = Some (rt', bs', e') →
  ∀ s, parent <$> states rt' !! s = parent <$> states rt !! s.
Proof.
  intros (Hst & _)%clean_entry_spec s. rewrite Hst. destruct (states rt !! s) as [st|]; [|done].
  simpl. f_equal. clear Hst. generalize (entry_events s bs e). intros evs. revert st.
  induction evs as [|ev evs IH]; intros st; [done|]. simpl. by rewrite IH, fsa_parent.
Qed.

(** An access entry of region [s] after the first loop. *)
Definition cleaned_entry (cfg : config) (bs : option sptr) (e e' : shadowEntry) : Prop :=
  if is_access e
  then match bs with
       | Some s => e' = set_statePtr (Some s) e
       | None => e' = if trackCycles cfg then set_operation REDUNDANT e else e
       end
  else is_access e' = false.

(** The first loop, seen by one region, and what it does to the entries. *)
Lemma clean_entries_spec cfg rt bs es rt' bs' es' :
  clean_entries cfg rt bs es = Some (rt', bs', es') →
  (∀ s, states rt' !! s = (λ st, foldl apply_event st (events (states rt) s bs es)) <$> states rt !! s) ∧
  Forall2 (λ eb e', cleaned_entry cfg eb.2 eb.1 e') (zip es (regions (states rt) bs es)) es'.
Proof.
  revert rt bs rt' bs' es'. induction es as [|e es IH]; intros rt bs rt' bs' es'; simpl.
  { intros [= <- <- <-]. split; [intros s; by destruct (states rt !! s)|constructor]. }
  intros H. apply bind_Some in H as ([[rt1 bs1] e1] & He & H).
  apply bind_Some in H as ([[rt2 bs2] es2] & Hes & [= <- <- <-]).
  pose proof (clean_entry_parents _ _ _ _ _ _ _ He) as Hp.
  apply clean_entry_spec in He as (Hst & -> & Hc). apply IH in Hes as (Hst2 & Hc2).
  rewrite (regions_ext _ _ _ _ Hp) in Hc2. split; [|by constructor].
  intros s. rewrite Hst2, Hst, (events_ext _ _ _ _ _ Hp). rewrite <- option_fmap_compose.
  apply option_fmap_ext. intros st. simpl. by rewrite foldl_app.
Qed.

Lemma apply_accesses st accs : foldl apply_event st (accesses_events accs) = run_accesses st accs.
Proof.
  unfold run_accesses, accesses_events. revert st.
  induction accs as [|a accs IH]; intros st; simpl; [done|]. apply IH.
Qed.

Lemma apply_invocations st invs :
  foldl apply_event st (invs ≫= invocation_events) = run_invocations st invs.
Proof.
  unfold run_invocations. revert st. induction invs as [|accs invs IH]; intros st; [done|].
  cbn [mbind list_bind foldl]. rewrite foldl_app. rewrite IH. f_equal.
  unfold invocation_events. cbn [foldl]. rewrite foldl_app, apply_accesses. done.
Qed.

(** The second loop on an access entry of region [s]. *)
Definition final_operation (cfg : config) (c : option operation) (e : shadowEntry) : operation :=
  let untracked := if trackCycles cfg then eoperation e else REDUNDANT in
  match c with
  | Some c => if tracked cfg c then c else untracked
  | None => untracked
  end.

Lemma reassign_access cfg rt s st e e'' :
  is_access e = true → states rt !! s = Some st →
  (∀ c, statePtrMap st !! ptr e = Some c → is_class c) →
  reassign_entry cfg rt (set_statePtr (Some s) e) = Some e'' →
  e'' = set_operation (final_operation cfg (statePtrMap st !! ptr e) e) (set_statePtr (Some s) e).
Proof.
  unfold is_access, reassign_entry, final_operation.
  intros Ha%bool_decide_eq_true Hst Hcls H. simpl in H.
  destruct Ha as [E|E]; rewrite E in H |- *; rewrite Hst in H; simpl in H; injection H as <-;
    (destruct (statePtrMap st !! ptr e) as [c|] eqn:Ec;
      [destruct (tracked cfg c); [done|]; rewrite decide_True by (by apply Hcls)|]);
    destruct (trackCycles cfg); try done; destruct e; simpl in *; by subst.
Qed.

(** The whole of [cleanBatch] on an access entry of a region. *)
Lemma cleanBatch_access cfg rt old es rt' old' es' i e s st :
  cleanBatch cfg rt old es = Some (rt', old', es') →
  es !! i = Some e → is_access e = true → regions (states rt) old es !! i = Some (Some s) →
  states rt' !! s = Some st → (∀ p c, statePtrMap st !! p = Some c → is_class c) →
  es' !! i = Some (set_operation (final_operation cfg (statePtrMap st !! ptr e) e)
    (set_statePtr (Some s) e)).
Proof.
  unfold cleanBatch. intros H Hi Ha Hreg Hst Hcls.
  apply bind_Some in H as ([[rt1 bs1] es1] & Hes & H).
  apply bind_Some in H as (es2 & Hmap & [= <- <- <-]).
  apply clean_entries_spec in Hes as [_ Hall].
  destruct (Forall2_lookup_l _ _ _ i (e, Some s) Hall) as (e1 & He1 & Hc).
  { apply lookup_zip_with_Some. by exists e, (Some s). }
  unfold cleaned_entry in Hc. simpl in Hc. rewrite Ha in Hc. subst e1.
  apply mapM_Some_1 in Hmap. destruct (Forall2_lookup_l _ _ _ _ _ Hmap He1) as (e2 & He2 & Hr).
  rewrite He2. f_equal. by eapply reassign_access; eauto.
Qed.

Lemma classify_class its c : classify its = Some c → is_class c.
Proof.
  destruct its as [|it its]; [done|]. simpl. intros [= <-].
  repeat case_match; by eexists.
Qed.

(** An access of region [s] is one of its events. *)
Lemma access_event m s bs es i e :
  es !! i = Some e → is_access e = true → regions m bs es !! i = Some (Some s) →
  EvAccess (ptr e) (eoperation e) ∈ events m s bs es.
Proof.
  revert bs i. induction es as [|e0 es IH]; intros bs i; [done|].
  destruct i as [|i]; simpl.
  - intros [= ->] Ha [= ->]. apply elem_of_app. left. unfold entry_events.
    apply bool_decide_eq_true in Ha as [->| ->]; rewrite decide_True by done; set_solver.
  - intros. apply elem_of_app. right. eauto.
Qed.

Lemma invocation_events_access invs p op :
  EvAccess p op ∈ invs ≫= invocation_events → history p invs ≠ [].
Proof.
  intros (accs & Hev & Hin)%list_elem_of_bind.
  unfold invocation_events in Hev. apply elem_of_cons in Hev as [?|Hev]; [done|].
  apply elem_of_app in Hev as [Hev|Hev]; [|set_solver].
  apply list_elem_of_fmap in Hev as ([p' w] & [= -> ->] & Ha).
  assert (w ∈ project p' accs) as Hw.
  { unfold project. apply list_elem_of_fmap. exists (p', w). split; [done|].
    by apply list_elem_of_filter. }
  intros Hnil. assert (project p' accs ∈ history p' invs) as Hh; [|rewrite Hnil in Hh; set_solver].
  unfold history. apply list_elem_of_filter. split; [intros E; rewrite E in Hw; set_solver|].
  apply list_elem_of_fmap. eauto.
Qed.

(** Within an invocation, an address without a class gets none. *)
Lemma first_class_None it c :
  class c = None → class (foldl (λ c w, cell_access w c) c it) = None.
Proof.
  revert c. induction it as [|w it IH]; intros c Hc; simpl; [done|]. apply IH.
  destruct c as [k b s]. simpl in *. subst. destruct b as [k|]; simpl; [|done]. by case_match.
Qed.

(** ** Properties *)

(** C3: the access automaton computes the declarative classification.  After
    any sequence of complete invocations of a region that knew nothing of the
    address, the class of the address is exactly the one its history
    determines: Input or Output by its first access, IO if an input was written,
    Transfer if an invocation read it first although an earlier one had
    written it, Cloneable if an invocation overwrote what an earlier one had
    written and none read it first. *)
Theorem automaton_classifies st invs p :
  statePtrMap st !! p = None →
  statePtrMap (run_invocations st invs) !! p = classify (history p invs).
Proof. apply run_classify. Qed.

(** C4: [cleanBatch] replaces every read and write in a region by the class of
    its address over all the invocations of the batch, and attributes it to
    that region, if the class is tracked; the regions may be nested and
    interleaved in any way, as long as the region's own invocations are
    complete within the batch.  An access of an untracked class keeps its
    operation if cycles are tracked and becomes redundant otherwise. *)
Theorem cleanBatch_classifies cfg rt old es rt' old' es' s st invs i e :
  cleanBatch cfg rt old es = Some (rt', old', es') →
  states rt !! s = Some st → statePtrMap st = ∅ →
  events (states rt) s old es = invs ≫= invocation_events →
  es !! i = Some e → is_access e = true → regions (states rt) old es !! i = Some (Some s) →
  ∃ c e', classify (history (ptr e) invs) = Some c ∧ es' !! i = Some e' ∧
    get_statePtr e' = Some s ∧ ptr e' = ptr e ∧
    eoperation e' = if tracked cfg c then c
                    else if trackCycles cfg then eoperation e else REDUNDANT.
Proof.
  intros H Hst Hemp Hev Hi Ha Hreg.
  assert (states rt' !! s = Some (run_invocations st invs)) as Hst'.
  { unfold cleanBatch in H. apply bind_Some in H as ([[rt1 bs1] es1] & Hes & H).
    apply bind_Some in H as (es2 & _ & [= <- <- <-]).
    apply clean_entries_spec in Hes as [Hs _]. rewrite Hs, Hst, Hev. simpl.
    by rewrite apply_invocations. }
  assert (∀ p, statePtrMap (run_invocations st invs) !! p = classify (history p invs)) as Hcl.
  { intros p. apply run_classify. by rewrite Hemp. }
  pose proof (access_event _ _ _ _ _ _ Hi Ha Hreg) as Hin. rewrite Hev in Hin.
  apply invocation_events_access in Hin.
  destruct (classify (history (ptr e) invs)) as [c|] eqn:Ec;
    [|by destruct (history (ptr e) invs)].
  eexists c, _. split; [done|]. split.
  { eapply cleanBatch_access; eauto. intros p c'. rewrite Hcl. apply classify_class. }
  simpl. by rewrite Hcl, Ec.
Qed.

(** An access is never classified if the region's first invocation to
    touch its address is still open when the batch ends: the operation stays a
    plain read or write (or becomes redundant), so the access enters no set.
    The class reaches [statePtrMap] only at STATE_END, after which this batch is
    not looked at again. *)
Theorem cleanBatch_open_invocation cfg rt old es rt' old' es' s st accs i e :
  cleanBatch cfg rt old es = Some (rt', old', es') →
  states rt !! s = Some st → statePtrMap st = ∅ →
  events (states rt) s old es = EvBegin :: accesses_events accs →
  es !! i = Some e → is_access e = true → regions (states rt) old es !! i = Some (Some s) →
  ∃ e', es' !! i = Some e' ∧
    eoperation e' = (if trackCycles cfg then eoperation e else REDUNDANT) ∧
    ¬ is_class (eoperation e').
Proof.
  intros H Hst Hemp Hev Hi Ha Hreg.
  assert (states rt' !! s = Some (run_accesses (fsa_begin st) accs)) as Hst'.
  { unfold cleanBatch in H. apply bind_Some in H as ([[rt1 bs1] es1] & Hes & H).
    apply bind_Some in H as (es2 & _ & [= <- <- <-]).
    apply clean_entries_spec in Hes as [Hs _]. rewrite Hs, Hst, Hev. simpl.
    by rewrite apply_accesses. }
  assert (statePtrMap (run_accesses (fsa_begin st) accs) = ∅) as Hno.
  { apply map_empty. intros p.
    change (class (cell_of p (run_accesses (fsa_begin st) accs)) = None).
    rewrite cell_of_run. apply first_class_None. simpl. by rewrite Hemp. }
  eexists. split.
  { eapply cleanBatch_access; eauto. intros p c. by rewrite Hno. }
  simpl. rewrite Hno, lookup_empty. unfold final_operation. split; [done|].
  unfold is_access in Ha. apply bool_decide_eq_true in Ha.
  intros [x Hx]. destruct (trackCycles cfg); [|discriminate Hx]. by destruct Ha as [E|E]; rewrite E in Hx.
Qed.

(** The order of the classes within a family. *)
Definition class_rank (c : operation) : Z :=
  match c with
  | STATE_ADD_INPUT => 0 | STATE_ADD_IO => 1 | STATE_ADD_CIO => 2 | STATE_ADD_TIO => 3
  | STATE_ADD_OUTPUT => 10 | STATE_ADD_CO => 11 | STATE_ADD_TO => 12
  | _ => -1
  end.

Definition class_le (c c' : operation) : Prop :=
  c = c' ∨ (class_rank c <= class_rank c' ∧ class_rank c / 10 = class_rank c' / 10).

(** A class only ever moves up within its family: from Input over IO and
    CloneableIO to TransferIO, from Output over CloneableOutput to
    TransferOutput; an input never becomes an output or the reverse, and
    Transfer is final. *)
Theorem class_monotone st ev p c :
  statePtrMap st !! p = Some c →
  ∃ c', statePtrMap (apply_event st ev) !! p = Some c' ∧ class_le c c'.
Proof.
  intros Hc. destruct ev as [|q op|]; simpl.
  - exists c. split; [done|by left].
  - assert (statePtrMap (fsa_access q op st) !! p = Some c ∨ q = p) as [H|<-].
    { destruct (decide (q = p)) as [|Hne]; [by right|left].
      unfold fsa_access. repeat case_match; simpl; rewrite ?lookup_insert_ne by done; done. }
    { exists c. split; [done|by left]. }
    unfold fsa_access. rewrite Hc. unfold class_le.
    destruct c; repeat case_decide; simpl;
      rewrite ?lookup_insert_eq, ?Hc; eexists; (split; [reflexivity|]); simpl;
      try (by left); right; (split; [lia|reflexivity]).
  - exists c. split; [by apply lookup_union_Some_l|by left].
Qed.

(** Where the stream of entries is cut into batches does not matter to the
    automaton: cleaning two batches one after the other leaves every region in
    the state that the first loop reaches on the joined batch. *)
Theorem cleanBatch_split cfg rt old es1 es2 rt1 old1 es1' rt2 old2 es2' :
  cleanBatch cfg rt old es1 = Some (rt1, old1, es1') →
  cleanBatch cfg rt1 old1 es2 = Some (rt2, old2, es2') →
  ∃ es', clean_entries cfg rt old (es1 ++ es2) = Some (rt2, old2, es').
Proof.
  assert (∀ rt old es rt' old' es', cleanBatch cfg rt old es = Some (rt', old', es') →
    ∃ es0, clean_entries cfg rt old es = Some (rt', old', es0)) as Hfst.
  { intros rt0 old0 es0 rt0' old0' es0' H. unfold cleanBatch in H.
    apply bind_Some in H as ([[? ?] es3] & Hes & H).
    apply bind_Some in H as (? & _ & [= -> -> _]). eauto. }
  intros [es3 H1]%Hfst [es4 H2]%Hfst. clear Hfst. exists (es3 ++ es4).
  revert rt old es3 H1. induction es1 as [|e es1 IH]; intros rt old es3; simpl.
  { by intros [= -> -> <-]. }
  intros H. apply bind_Some in H as ([[rt3 bs3] e3] & -> & H). simpl.
  apply bind_Some in H as ([[rt4 bs4] es5] & Hes & [= -> -> <-]).
  by rewrite (IH _ _ _ Hes).
Qed.

(** An access outside all regions, when cycles are not tracked.  The first
    loop leaves such an entry as it is (only with [trackCycles] set does it
    make it redundant), so the second loop dereferences the [sizeState.statePtr]
    that the previous use of the slot left behind: a crash if that use stored a
    size, and otherwise the access is given the class that the address has in
    the unrelated region of the stale pointer. *)
Theorem cleanBatch_outside_regions cfg rt e :
  trackCycles cfg = false → is_access e = true →
  (∀ z, esizeState e = Size z → cleanBatch cfg rt None [e] = None) ∧
  (∀ s st c, esizeState e = StatePtr (Some s) → states rt !! s = Some st →
    statePtrMap st !! ptr e = Some c → tracked cfg c = true →
    cleanBatch cfg rt None [e] = Some (rt, None, [set_operation c e])).
Proof.
  intros Hcyc Ha. unfold is_access in Ha. apply bool_decide_eq_true in Ha.
  unfold cleanBatch, clean_entries, clean_entry, reassign_entry, get_statePtr. simpl.
  rewrite Hcyc. split.
  - intros z Hz. destruct Ha as [E|E]; rewrite E; simpl; by rewrite E, Hz.
  - intros s st c Hs Hst Hc Ht.
    destruct Ha as [E|E]; rewrite E; simpl; rewrite E, Hs; simpl; rewrite Hst; simpl; by rewrite Hc, Ht.
Qed.

(** The entries the runtime writes: begins and ends name live states. *)
Definition entry_live (m : gmap sptr State) (e : shadowEntry) : Prop :=
  eoperation e = STATE_BEGIN ∨ eoperation e = STATE_END →
  ∃ s, get_statePtr e = Some s ∧ is_Some (m !! s).

(** After the first loop, accesses name live states. *)
Definition access_live (m : gmap sptr State) (e : shadowEntry) : Prop :=
  is_access e = true → ∃ s, get_statePtr e = Some s ∧ is_Some (m !! s).

Lemma clean_entry_total cfg rt bs e :
  trackCycles cfg = true → states_wf (states rt) → sptr_ok (states rt) bs →
  entry_live (states rt) e →
  ∃ rt' bs' e', clean_entry cfg rt bs e = Some (rt', bs', e') ∧
    sptr_ok (states rt) bs' ∧ access_live (states rt) e'.
Proof.
  intros Hcyc Hwf Hbs Hlive. unfold clean_entry, access_live, is_access.
  destruct (eoperation e) eqn:Eo;
    try (eexists _, _, _; split; [reflexivity|]; split; [done|];
         rewrite Eo; by rewrite bool_decide_false by naive_solver).
  1-2: destruct bs as [s|]; simpl;
    [destruct Hbs as [st Hst]; rewrite Hst; simpl; eexists _, _, _; (split; [reflexivity|]);
     split; [by exists st|intros _; exists s; split; [done|by exists st]]
    |rewrite Hcyc; eexists _, _, _; (split; [reflexivity|]); (split; [done|]);
     intros Hx; by apply bool_decide_eq_true in Hx as [?|?]].
  all: destruct Hlive as (s & Hs & [st Hst]); [auto|]; rewrite Hs; simpl; rewrite Hst; simpl;
    eexists _, _, _; (split; [reflexivity|]); split;
    try (intros Hx; by apply bool_decide_eq_true in Hx as [?|?]).
  - by exists st.
  - destruct (parent st) as [p|] eqn:Ep; simpl; [|done]. by destruct (Hwf _ _ _ Hst Ep).
Qed.

Lemma sptr_live_parents (m m' : gmap sptr State) (s : sptr) :
  (∀ s : sptr, parent <$> m' !! s = parent <$> m !! s) → is_Some (m' !! s) ↔ is_Some (m !! s).
Proof.
  intros Hp. specialize (Hp s). destruct (m !! s), (m' !! s); simpl in *; naive_solver.
Qed.

Lemma clean_entries_total cfg rt bs es :
  trackCycles cfg = true → states_wf (states rt) → sptr_ok (states rt) bs →
  Forall (entry_live (states rt)) es →
  ∃ rt' bs' es', clean_entries cfg rt bs es = Some (rt', bs', es') ∧
    Forall (access_live (states rt')) es' ∧ List.length es' = List.length es.
Proof.
  intros Hcyc. revert rt bs. induction es as [|e es IH]; intros rt bs Hwf Hbs Hall.
  { by exists rt, bs, []. }
  apply Forall_cons in Hall as [He Hall].
  destruct (clean_entry_total cfg rt bs e Hcyc Hwf Hbs He) as (rt1 & bs1 & e1 & Hc & Hbs1 & He1).
  pose proof (clean_entry_parents _ _ _ _ _ _ _ Hc) as Hp.
  destruct (IH rt1 bs1) as (rt2 & bs2 & es2 & Hcs & Hall2 & Hlen).
  - intros s st p Hs Hpar. pose proof (Hp s) as E. rewrite Hs in E. simpl in E.
    destruct (states rt !! s) as [st0|] eqn:E0; [|done]. injection E as E.
    destruct (Hwf s st0 p E0) as [? Hsome]; [congruence|]. split; [done|].
    by apply (sptr_live_parents _ _ p Hp).
  - destruct bs1; [|done]. by apply (sptr_live_parents _ _ _ Hp).
  - eapply Forall_impl; [exact Hall|]. intros e' He' [s [? ?]]%He'. exists s.
    by rewrite (sptr_live_parents _ _ s Hp).
  - exists rt2, bs2, (e1 :: es2). simpl. rewrite Hc. simpl. rewrite Hcs. split; [done|].
    split; [|simpl; congruence]. constructor; [|done].
    intros Ha. destruct (He1 Ha) as (s & Hs & Hsome). exists s. split; [done|].
    apply clean_entries_spec in Hcs as [Hst _]. rewrite Hst.
    apply fmap_is_Some. by apply (sptr_live_parents _ _ s Hp).
Qed.

(** With cycle tracking on, as it is by default, [cleanBatch] never
    crashes on the entries the runtime writes (every begin or end of a region
    names a live state), and keeps their number. *)
Theorem cleanBatch_total cfg rt old es :
  trackCycles cfg = true → states_wf (states rt) → sptr_ok (states rt) old →
  Forall (entry_live (states rt)) es →
  ∃ rt' old' es', cleanBatch cfg rt old es = Some (rt', old', es') ∧
    List.length es' = List.length es.
Proof.
  intros Hcyc Hwf Hold Hlive.
  destruct (clean_entries_total cfg rt old es Hcyc Hwf Hold Hlive)
    as (rt' & old' & es1 & Hc & Hall & Hlen).
  unfold cleanBatch. rewrite Hc. simpl.
  assert (∃ es2, mapM (reassign_entry cfg rt') es1 = Some es2) as [es2 Hm].
  { apply mapM_is_Some. eapply Forall_impl; [exact Hall|]. intros e He.
    change (is_Some (reassign_entry cfg rt' e)). unfold reassign_entry.
    destruct (eoperation e) eqn:Eo; try by eexists.
    all: assert (is_access e = true) as Ha by (unfold is_access; rewrite Eo; reflexivity);
      destruct (He Ha) as (s & Hs & [st Hst]); rewrite Hs; simpl; rewrite Hst; by eexists. }
  rewrite Hm. simpl. eexists _, _, _. split; [done|].
  rewrite <- Hlen. symmetry. by apply Forall2_length with (P := λ e e', reassign_entry cfg rt' e = Some e'), mapM_Some_1.
Qed.

(** ** Witnesses *)

(** One region; an entry that begins or ends it; a read or write entry in a slot
    that held an allocation of 64 bytes before. *)
Definition batch_rt : Runtime :=
  mkRuntime ∅ 1 {[ 0%nat := new_State "main" 1 0 0 None ]} ∅ 1.
Definition region_entry (o : operation) : shadowEntry := mkEntry o 0 (StatePtr (Some 0%nat)) 0 None 0.
Definition access_entry (w : bool) (p : Z) : shadowEntry := mkEntry (rw_op w) p (Size 64) 0 None 7.

(** Address 100 is read and written, and read first by the next invocation;
    address 200 is written only. *)
Definition demo_invocations : list accesses :=
  [[(100, false); (100, true); (200, true)]; [(100, false)]].
Definition demo_batch : list shadowEntry :=
  [region_entry STATE_BEGIN; access_entry false 100; access_entry true 100; access_entry true 200;
   region_entry STATE_END; region_entry STATE_BEGIN; access_entry false 100; region_entry STATE_END].

Example demo_batch_operations :
  (λ r : Runtime * option sptr * list shadowEntry, eoperation <$> r.2) <$> cleanBatch default_config batch_rt None demo_batch =
  Some [REDUNDANT; STATE_ADD_TIO; STATE_ADD_TIO; STATE_ADD_OUTPUT; REDUNDANT; REDUNDANT;
        STATE_ADD_TIO; REDUNDANT].
Proof. vm_compute. reflexivity. Qed.

Lemma automaton_classifies_witness :
  statePtrMap (run_invocations (new_State "main" 1 0 0 None) demo_invocations) !! 100 =
  classify [[false; true]; [false]].
Proof. exact (automaton_classifies (new_State "main" 1 0 0 None) demo_invocations 100 eq_refl). Defined.

Lemma cleanBatch_classifies_witness :
  ∃ rt' old' es' e', cleanBatch default_config batch_rt None demo_batch = Some (rt', old', es') ∧
    es' !! 2%nat = Some e' ∧ eoperation e' = STATE_ADD_TIO.
Proof.
  destruct (cleanBatch default_config batch_rt None demo_batch) as [[[rt' old'] es']|] eqn:E;
    [|vm_compute in E; discriminate].
  destruct (cleanBatch_classifies default_config batch_rt None demo_batch rt' old' es' 0
    (new_State "main" 1 0 0 None) demo_invocations 2 (access_entry true 100) E)
    as (c & e' & Hc & Hi & _ & _ & Ho); [reflexivity..|].
  exists rt', old', es', e'. split; [done|]. split; [done|].
  vm_compute in Hc. injection Hc as <-. exact Ho.
Defined.

Lemma cleanBatch_open_invocation_witness :
  ∃ rt' old' es' e',
    cleanBatch default_config batch_rt None [region_entry STATE_BEGIN; access_entry true 100] =
      Some (rt', old', es') ∧
    es' !! 1%nat = Some e' ∧ eoperation e' = STATE_ADD_WRITE.
Proof.
  destruct (cleanBatch default_config batch_rt None [region_entry STATE_BEGIN; access_entry true 100])
    as [[[rt' old'] es']|] eqn:E; [|vm_compute in E; discriminate].
  destruct (cleanBatch_open_invocation default_config batch_rt None _ rt' old' es' 0
    (new_State "main" 1 0 0 None) [(100, true)] 1 (access_entry true 100) E)
    as (e' & Hi & Ho & _); [reflexivity..|].
  by exists rt', old', es', e'.
Defined.

Lemma class_monotone_witness :
  let st := set_statePtrMap {[ 100 := STATE_ADD_IO ]} (new_State "main" 1 0 0 None) in
  ∃ c', statePtrMap (apply_event st (EvAccess 100 STATE_ADD_READ)) !! 100 = Some c' ∧
    class_le STATE_ADD_IO c'.
Proof. intros st. exact (class_monotone st (EvAccess 100 STATE_ADD_READ) 100 STATE_ADD_IO eq_refl). Defined.

Lemma cleanBatch_split_witness :
  ∃ rt1 old1 es1' rt2 old2 es2' es',
    cleanBatch default_config batch_rt None (take 3 demo_batch) = Some (rt1, old1, es1') ∧
    cleanBatch default_config rt1 old1 (drop 3 demo_batch) = Some (rt2, old2, es2') ∧
    clean_entries default_config batch_rt None (take 3 demo_batch ++ drop 3 demo_batch) =
      Some (rt2, old2, es').
Proof.
  destruct (cleanBatch default_config batch_rt None (take 3 demo_batch)) as [[[rt1 old1] es1']|] eqn:E1;
    [|vm_compute in E1; discriminate].
  destruct (cleanBatch default_config rt1 old1 (drop 3 demo_batch)) as [[[rt2 old2] es2']|] eqn:E2;
    [|vm_compute in E1; injection E1 as <- <- <-; vm_compute in E2; discriminate].
  destruct (cleanBatch_split _ _ _ _ _ _ _ _ _ _ _ E1 E2) as [es' H].
  by exists rt1, old1, es1', rt2, old2, es2', es'.
Defined.

(** Cycle tracking off. *)
Definition no_cycles : config := mkConfig false true true true true true.

Lemma cleanBatch_outside_regions_witness :
  cleanBatch no_cycles batch_rt None [access_entry true 100] = None.
Proof.
  destruct (cleanBatch_outside_regions no_cycles batch_rt (access_entry true 100)) as [H _];
    [reflexivity..|]. exact (H 64 eq_refl).
Defined.

Lemma cleanBatch_total_witness :
  ∃ rt' old' es', cleanBatch default_config batch_rt None demo_batch = Some (rt', old', es') ∧
    List.length es' = 8%nat.
Proof.
  apply (cleanBatch_total default_config batch_rt None demo_batch); [reflexivity| |done|].
  - intros s st p Hs Hp. unfold batch_rt in Hs. cbn [states] in Hs.
    apply lookup_singleton_Some in Hs as [<- <-]. discriminate.
  - repeat constructor; unfold entry_live; simpl; intros [?|?]; try discriminate;
      exists 0%nat; (split; [done|by eexists]).
Defined.
