(* ===== verification/Shadow.v ===== *)
(** * Processing a batch: the shadow threads

    [class Shadow] of extra/texas/src/runtime/Shadow.{hpp,cpp}, the second
    stage of a batch: applying its entries to the allocation table and to the
    state information of the blocks. *)

From S2P Require Import Prelude Helpers OrdMap Objects AllocTable ConnGraph Commit CleanBatch.

(** ** Data *)

(** [class Shadow], without the thread handles; [pushedLeft] is what this
    shadow appends to [leftShadow->overflowWork], and [syncVars] the flags it
    raises for DETECT_CYCLE (the traced program lowers them again). *)
Record Shadow := mkShadow {
  localAllocationTable : AllocationTable;
  hasLeft : bool; (** [leftShadow != nullptr] *)
  overflowWork : list shadowEntry;
  pushedLeft : list shadowEntry;
  syncVars : list Z;
}.

(** [Shadow::Shadow(tid, table, left, right)] *)
Definition new_Shadow (table : AllocationTable) (left : bool) : Shadow := mkShadow table left [] [] [].

Definition set_table (t : AllocationTable) (sh : Shadow) : Shadow :=
  mkShadow t (hasLeft sh) (overflowWork sh) (pushedLeft sh) (syncVars sh).
Definition push_overflow (e : shadowEntry) (sh : Shadow) : Shadow :=
  mkShadow (localAllocationTable sh) (hasLeft sh) (overflowWork sh ++ [e]) (pushedLeft sh) (syncVars sh).
Definition clear_overflow (sh : Shadow) : Shadow :=
  mkShadow (localAllocationTable sh) (hasLeft sh) [] (pushedLeft sh) (syncVars sh).
Definition push_left (e : shadowEntry) (sh : Shadow) : Shadow :=
  mkShadow (localAllocationTable sh) (hasLeft sh) (overflowWork sh) (pushedLeft sh ++ [e]) (syncVars sh).
Definition raise_sync (p : Z) (sh : Shadow) : Shadow :=
  mkShadow (localAllocationTable sh) (hasLeft sh) (overflowWork sh) (pushedLeft sh) (syncVars sh ++ [p]).

(** Reading [sizeState.size]; the bits of a pointer are not a size. *)
Definition get_size (e : shadowEntry) : option Z :=
  match esizeState e with Size z => Some z | StatePtr _ => None end.

(** Work whose block is unknown here goes to the shadow on the left, if there is
    one, and is dropped otherwise. *)
Definition overflow (e : shadowEntry) (sh : Shadow) : Shadow :=
  if hasLeft sh then push_overflow e sh else sh.

(** ** Allocations *)

(** The object for a new block: one object per origin. *)
Definition alloc_object (e : shadowEntry) (size : Z) (rt : Runtime) : aptr * Runtime :=
  match originToAllocMap rt !! information e with
  | None =>
      let a := next_alloc rt in
      (a, set_originToAllocMap (<[information e := a]> (originToAllocMap rt))
        (set_next_alloc (Pos.succ a)
          (set_allocs (<[a := new_Allocation (ptr e) size (information e)]> (allocs rt)) rt)))
  | Some a => (a, upd_alloc a (λ ob, set_length size (set_pointer (ptr e) ob)) rt)
  end.

(** [processAddAlloc] *)
Definition processAddAlloc (e : shadowEntry) (sh : Shadow) (rt : Runtime) : option (Shadow * Runtime) :=
  size ← get_size e;
  let '(newEntry, rt) := alloc_object e size rt in
  t ← InsertAllocation (ptr e) newEntry rt (localAllocationTable sh);
  let rt := upd_alloc newEntry (set_affiliatedState (eaffiliatedState e)) rt in
  chain ← parent_chain (states rt) (eaffiliatedState e);
  let rt := foldl (λ rt s,
    upd_state s (λ st, set_AllocsAllocatedInState ({[newEntry]} ∪ AllocsAllocatedInState st) st) rt)
    rt chain in
  Some (set_table t sh, rt).

(** [processFreeAllocation] *)
Definition processFreeAllocation (e : shadowEntry) (sh : Shadow) (rt : Runtime)
    : option (Shadow * Runtime) :=
  alEntry ← findAllocation (localAllocationTable sh) rt (ptr e);
  match alEntry with
  | None => Some (overflow e sh, rt)
  | Some a =>
      r ← commitStateInfo a (eaffiliatedState e) rt;
      Some (set_table (DeleteAllocation (ptr e) (localAllocationTable sh)) sh, r.1)
  end.

(** ** Accesses *)

(** The information recorded for one state on the block: created when absent. *)
Definition empty_info : StateCommitInfo := mkStateCommitInfo ∅ ∅ false.

Definition record_offsets (info : StateCommitInfo) (uses : gset Z) (code : Z) (offs : gset Z)
    (region : bool) : StateCommitInfo :=
  mkStateCommitInfo (uses ∪ useInfo info)
    (<[code := offs ∪ default ∅ (stateSetToOffsetMap info !! code)]> (stateSetToOffsetMap info))
    region.

(** One round of [processAddToState] on the block found, for state [s]. *)
Definition record_access (e : shadowEntry) (s : sptr) (ob : Allocation) : Allocation :=
  let info := default empty_info (StateCommitInfoMap ob !! s) in
  let uses := if decide (information e = 0) then ∅ else {[ information e ]} in
  let offset := ptr e -₆₄ pointer ob in
  set_StateCommitInfoMap
    (<[s := record_offsets info uses (op_code (eoperation e)) {[ offset ]} (regionBasedOffsets info)]>
      (StateCommitInfoMap ob)) ob.

(** [freshness = freshnessSetter; freshnessSetter++] *)
Definition refresh (a : aptr) (rt : Runtime) : Runtime :=
  set_freshnessSetter (freshnessSetter rt +₆₄ 1) (upd_alloc a (set_freshness (freshnessSetter rt)) rt).

(** [processAddToState]: the function calls itself with the parent written into
    the entry.  Parents are older than their children, so [S s] rounds are
    enough. *)
Fixpoint processAddToState_fuel (n : nat) (cfg : config) (e : shadowEntry) (sh : Shadow) (rt : Runtime)
    : option (Shadow * Runtime * shadowEntry) :=
  entry ← findAllocation (localAllocationTable sh) rt (ptr e);
  match entry with
  | None => Some (overflow e sh, rt, e)
  | Some a =>
      let rt := if trackCycles cfg then refresh a rt else rt in
      if trackCycles cfg && is_access e then Some (sh, rt, e)
      else
        s ← get_statePtr e;
        let rt := upd_alloc a (record_access e s) rt in
        st ← states rt !! s;
        match parent st with
        | None => Some (sh, rt, e)
        | Some p =>
            match n with
            | O => None
            | S n => processAddToState_fuel n cfg (set_statePtr (Some p) e) sh rt
            end
        end
  end.

Definition processAddToState (cfg : config) (e : shadowEntry) (sh : Shadow) (rt : Runtime)
    : option (Shadow * Runtime * shadowEntry) :=
  processAddToState_fuel (default O (get_statePtr e)) cfg e sh rt.

(** One round of [processStateRegionSet] on the block found. *)
Definition record_region (e : shadowEntry) (size : Z) (s : sptr) (ob : Allocation) : Allocation :=
  let info := default empty_info (StateCommitInfoMap ob !! s) in
  let beginningOffset := GetOffset (pointer ob) (ptr e) in
  let endOffset := beginningOffset +₆₄ size in
  set_StateCommitInfoMap
    (<[s := record_offsets info {[ information e ]} (stateToSet e) {[ beginningOffset; endOffset ]} true]>
      (StateCommitInfoMap ob)) ob.

(** [processStateRegionSet] *)
Fixpoint processStateRegionSet_fuel (n : nat) (e : shadowEntry) (sh : Shadow) (rt : Runtime)
    : option (Shadow * Runtime * shadowEntry) :=
  entry ← findAllocation (localAllocationTable sh) rt (ptr e);
  match entry with
  | None => Some (overflow e sh, rt, e)
  | Some a =>
      s ← eaffiliatedState e;
      size ← get_size e;
      let rt := upd_alloc a (record_region e size s) rt in
      st ← states rt !! s;
      match parent st with
      | None => Some (sh, rt, e)
      | Some p =>
          match n with
          | O => None
          | S n => processStateRegionSet_fuel n (set_eaffiliated (Some p) e) sh rt
          end
      end
  end.

Definition processStateRegionSet (e : shadowEntry) (sh : Shadow) (rt : Runtime)
    : option (Shadow * Runtime * shadowEntry) :=
  processStateRegionSet_fuel (default O (eaffiliatedState e)) e sh rt.

(** ** The batch loop *)

Section environment.
  (** The memory of the traced program, boost's algorithm, and [stateMap]. *)
  Context (mem : Z → Z) (strong_components : graph_t → list nat) (cfg : config)
    (stateMap : gmap Z (option sptr)).

  (** [processAddEscape] *)
Definition processAddEscape (e : shadowEntry) (sh : Shadow) (rt : Runtime) : option (Shadow * Runtime) :=
    if decide (ptr e = 0 ∨ mem (ptr e) = 0) then Some (sh, rt)
    else
      alloc ← findAllocation (localAllocationTable sh) rt (mem (ptr e));
      match alloc with
      | None => Some (overflow e sh, rt)
      | Some a =>
          Some (sh, upd_alloc a (λ ob, set_allocToEscapeMap ({[ptr e]} ∪ allocToEscapeMap ob) ob) rt)
      end.

  (** STATE_COMMIT: only the leftmost shadow can process it. *)
Definition process_commit (e : shadowEntry) (sh : Shadow) (rt : Runtime) : option (Shadow * Runtime) :=
    if hasLeft sh then Some (push_left e sh, rt)
    else
      rt ← CommitStateInfoForAllocations (localAllocationTable sh) rt;
      s ← get_statePtr e;
      _ ← states rt !! s;
      Some (sh, upd_state s CommitState rt).

  (** DETECT_CYCLE: only the leftmost shadow can process it; a size of -1 asks
      for the cycles of all states. *)
Definition process_detect (e : shadowEntry) (sh : Shadow) (rt : Runtime) : option (Shadow * Runtime) :=
    if hasLeft sh then Some (push_left e sh, rt)
    else
      '(t, rt) ← GenerateConnectionGraph mem (localAllocationTable sh) rt;
      size ← get_size e;
      t ← (if decide (size = max_key) then FindCyclesInConnectionGraph strong_components rt stateMap t
           else FindCyclesInConnectionGraph_filter strong_components rt stateMap size t);
      Some (raise_sync (ptr e) (set_table t sh), rt).

  (** The [switch] of both loops of [processShadowBatch]; the entry is returned
      as the handlers leave it in the buffer. *)
Definition process_entry (e : shadowEntry) (sh : Shadow) (rt : Runtime)
    : option (Shadow * Runtime * shadowEntry) :=
    match eoperation e with
    | ALLOC_ADD => '(sh, rt) ← processAddAlloc e sh rt; Some (sh, rt, e)
    | ALLOC_FREE => '(sh, rt) ← processFreeAllocation e sh rt; Some (sh, rt, e)
    | ESCAPE_ADD => '(sh, rt) ← processAddEscape e sh rt; Some (sh, rt, e)
    | STATE_ADD_READ | STATE_ADD_WRITE
    | STATE_ADD_INPUT | STATE_ADD_IO | STATE_ADD_CIO | STATE_ADD_TIO
    | STATE_ADD_OUTPUT | STATE_ADD_CO | STATE_ADD_TO => processAddToState cfg e sh rt
    | STATE_COMMIT => '(sh, rt) ← process_commit e sh rt; Some (sh, rt, e)
    | STATE_REGION_SET => processStateRegionSet e sh rt
    | DETECT_CYCLE => '(sh, rt) ← process_detect e sh rt; Some (sh, rt, e)
    | _ => Some (sh, rt, e)
    end.

  (** [for(i = leftBound; i <= rightBound; i++)] over the buffer, with [n] the
      number of rounds; an index past the buffer is undefined behaviour. *)
Fixpoint process_range (n : nat) (i : nat) (buf : list shadowEntry) (sh : Shadow) (rt : Runtime)
    : option (Shadow * Runtime * list shadowEntry) :=
    match n with
    | O => Some (sh, rt, buf)
    | S n =>
        e ← buf !! i;
        '(sh, rt, e) ← process_entry e sh rt;
        process_range n (S i) (<[i := e]> buf) sh rt
    end.

  (** The second loop: the work the right shadow could not do. *)
Definition process_overflow (work : list shadowEntry) (sh : Shadow) (rt : Runtime)
    : option (Shadow * Runtime) :=
    mfoldl (λ acc e, r ← process_entry e acc.1 acc.2; Some (r.1.1, r.1.2)) (sh, rt) work.

  (** [processShadowBatch] for the range [leftBound .. rightBound], both ends
      included; [right] is the shadow on the right when it is done. *)
Definition processShadowBatch (right : option Shadow) (leftBound rightBound : nat)
    (buf : list shadowEntry) (sh : Shadow) (rt : Runtime)
    : option (Shadow * option Shadow * Runtime * list shadowEntry) :=
    '(sh, rt, buf) ← process_range (S rightBound - leftBound) leftBound buf (clear_overflow sh) rt;
    match right with
    | None => Some (sh, None, rt, buf)
    | Some r =>
        let sh := set_table (MergeTable (localAllocationTable r) true (localAllocationTable sh)) sh in
        let r := set_table (Clear (localAllocationTable r)) r in
        '(sh, rt) ← process_overflow (overflowWork r) sh rt;
        Some (sh, Some r, rt, buf)
    end.
End environment.

(** ** Lemmas: recording an access *)

Lemma on_chain_step rt s st s' :
  states_wf (states rt) → states rt !! s = Some st →
  on_chain rt (Some s) s' ↔ s' = s ∨ on_chain rt (parent st) s'.
Proof.
  intros Hwf Hst. unfold on_chain. rewrite (parent_chain_step _ _ _ Hwf Hst).
  destruct (parent_chain (states rt) (parent st)) as [l|] eqn:E; simpl.
  - split.
    + intros (l' & [= <-] & Hin). apply elem_of_cons in Hin as [->|Hin]; eauto.
    + intros [->|(l' & [= <-] & Hin)]; eexists; (split; [done|]); apply elem_of_cons; auto.
  - exfalso. assert (sptr_ok (states rt) (parent st)) as Hok.
    { destruct (parent st) as [p|] eqn:Ep; simpl; [|done]. by destruct (Hwf _ _ _ Hst Ep). }
    destruct (parent_chain_total _ _ Hwf Hok) as [l Hl]. congruence.
Qed.

Lemma on_chain_None rt s : ¬ on_chain rt None s.
Proof. intros (l & [= <-] & Hin). by apply elem_of_nil in Hin. Qed.

Lemma on_chain_states rt rt' start s :
  states rt' = states rt → on_chain rt' start s ↔ on_chain rt start s.
Proof. intros E. unfold on_chain. by rewrite E. Qed.

(** One recorded round, seen through [recorded]. *)
Lemma record_offsets_recorded ob s info uses code offs region s' o v :
  info = default empty_info (StateCommitInfoMap ob !! s) →
  recorded (set_StateCommitInfoMap
    (<[s := record_offsets info uses code offs region]> (StateCommitInfoMap ob)) ob) s' o v ↔
  recorded ob s' o v ∨ (s' = s ∧ op_code o = code ∧ v ∈ offs).
Proof.
  intros Hinfo. unfold recorded. simpl. destruct (decide (s = s')) as [<-|Hne].
  2:{ rewrite lookup_insert_ne by done. naive_solver. }
  rewrite lookup_insert_eq. unfold record_offsets.
  assert (∀ c v, v ∈ default ∅ (stateSetToOffsetMap info !! c) ↔
    ∃ i q, StateCommitInfoMap ob !! s = Some i ∧ stateSetToOffsetMap i !! c = Some q ∧ v ∈ q) as Hd.
  { intros c w. subst info. destruct (StateCommitInfoMap ob !! s) as [i|]; simpl.
    - destruct (stateSetToOffsetMap i !! c) as [q|] eqn:E; simpl.
      + split; [by exists i, q|]. intros (? & ? & ? & ? & ?). by simplify_eq.
      + split; [by intros ?%elem_of_empty|]. intros (? & ? & ? & ? & ?). by simplify_eq.
    - rewrite lookup_empty. simpl. split; [by intros ?%elem_of_empty|]. by intros (? & ? & ? & _). }
  destruct (decide (code = op_code o)) as [->|Hc].
  - split.
    + intros (i & q & [= <-] & Hq & Hv). simpl in Hq. rewrite lookup_insert_eq in Hq.
      injection Hq as <-. apply elem_of_union in Hv as [Hv|Hv%Hd]; auto.
    + intros [H|(_ & _ & Hv)]; eexists _, _; (split; [reflexivity|]); simpl;
        rewrite lookup_insert_eq; (split; [reflexivity|]); apply elem_of_union; [right; by apply Hd|by left].
  - split.
    + intros (i & q & [= <-] & Hq & Hv). simpl in Hq. rewrite lookup_insert_ne in Hq by done.
      left. apply Hd. by rewrite Hq.
    + intros [H%Hd|(_ & ? & _)]; [|congruence].
      destruct (stateSetToOffsetMap info !! op_code o) as [q|] eqn:Eq; simpl in H;
        [|by apply elem_of_empty in H].
      eexists _, q. split; [reflexivity|]. simpl. by rewrite lookup_insert_ne.
Qed.

Lemma refresh_allocs a rt b :
  allocs (refresh a rt) !! b =
  if decide (a = b) then set_freshness (freshnessSetter rt) <$> allocs rt !! b else allocs rt !! b.
Proof. unfold refresh. simpl. rewrite lookup_alter. by case_decide; subst. Qed.

(** The block fields that accesses keep. *)
Definition same_block (ob ob' : Allocation) : Prop :=
  pointer ob' = pointer ob ∧ length ob' = length ob ∧ affiliatedState ob' = affiliatedState ob ∧
  allocToEscapeMap ob' = allocToEscapeMap ob ∧ origin ob' = origin ob.

Lemma upd_alloc_length a f rt b :
  (∀ ob, length (f ob) = length ob) →
  length <$> allocs (upd_alloc a f rt) !! b = length <$> allocs rt !! b.
Proof.
  intros Hf. simpl. rewrite lookup_alter. case_decide; [|done]. subst.
  destruct (allocs rt !! b); simpl; [by rewrite Hf|done].
Qed.

(** Recording keeps the records well formed. *)
Lemma record_offsets_ok rt ob s uses c offs region :
  alloc_ok rt ob → is_Some (states rt !! s) → is_class (op_of_code c) →
  alloc_ok rt (set_StateCommitInfoMap
    (<[s := record_offsets (default empty_info (StateCommitInfoMap ob !! s)) uses c offs region]>
      (StateCommitInfoMap ob)) ob).
Proof.
  intros [Haff Hok] Hs Hc. split; [done|]. intros s' info. simpl.
  rewrite lookup_insert_Some. intros [[<- <-]|[_ Hi]]; [|by apply Hok]. split; [done|].
  intros c' offs' Hc'. simpl in Hc'. rewrite lookup_insert_Some in Hc'.
  destruct Hc' as [[<- _]|[_ Hc']]; [done|].
  destruct (StateCommitInfoMap ob !! s) as [i|] eqn:Ei; simpl in Hc'; [|done].
  destruct (Hok _ _ Ei) as [_ Hi]. by eapply Hi.
Qed.

Lemma alloc_ok_ext rt rt' ob : states rt' = states rt → alloc_ok rt ob → alloc_ok rt' ob.
Proof. unfold alloc_ok. by intros ->. Qed.

(** The store after one round of [processAddToState] on block [a]. *)
Definition access_round (cfg : config) (e : shadowEntry) (a : aptr) (s : sptr) (rt : Runtime) : Runtime :=
  upd_alloc a (record_access e s) (if trackCycles cfg then refresh a rt else rt).

(** [rt'] is [rt] but for the block [a], which has become [ob']. *)
Definition only_block (rt rt' : Runtime) (a : aptr) (ob ob' : Allocation) : Prop :=
  states rt' = states rt ∧ (∀ b, b ≠ a → allocs rt' !! b = allocs rt !! b) ∧
  allocs rt' !! a = Some ob' ∧ same_block ob ob'.

Lemma only_block_length rt rt' a ob ob' b :
  allocs rt !! a = Some ob → only_block rt rt' a ob ob' →
  length <$> allocs rt' !! b = length <$> allocs rt !! b.
Proof.
  intros Hob (_ & Hoth & Hob' & _ & Hlen & _).
  destruct (decide (b = a)) as [->|]; [|by rewrite Hoth].
  rewrite Hob, Hob'. simpl. by rewrite Hlen.
Qed.

Lemma only_block_trans rt rt1 rt2 a ob ob1 ob2 :
  only_block rt rt1 a ob ob1 → only_block rt1 rt2 a ob1 ob2 → only_block rt rt2 a ob ob2.
Proof.
  intros (E1 & O1 & A1 & (?&?&?&?&?)) (E2 & O2 & A2 & (?&?&?&?&?)).
  split; [congruence|]. split; [intros b Hb; by rewrite O2, O1|]. split; [done|].
  repeat split; congruence.
Qed.

Lemma access_round_spec cfg e a s rt ob :
  allocs rt !! a = Some ob →
  ∃ ob', only_block rt (access_round cfg e a s rt) a ob ob' ∧
    (alloc_ok rt ob → is_class (eoperation e) → is_Some (states rt !! s) → alloc_ok rt ob') ∧
    ∀ s' o v, recorded ob' s' o v ↔ recorded ob s' o v ∨
      (s' = s ∧ op_code o = op_code (eoperation e) ∧ v = ptr e -₆₄ pointer ob).
Proof.
  intros Hob. unfold access_round, only_block.
  set (ob1 := if trackCycles cfg then set_freshness (freshnessSetter rt) ob else ob).
  assert (same_block ob ob1 ∧ StateCommitInfoMap ob1 = StateCommitInfoMap ob) as [Hsame Hinfo].
  { subst ob1. by destruct (trackCycles cfg). }
  exists (record_access e s ob1). split; [split; [|split; [|split; [|exact Hsame]]]|split].
  - by destruct (trackCycles cfg).
  - intros b Hb. simpl. rewrite lookup_alter_ne by done. destruct (trackCycles cfg); [|done].
    by rewrite refresh_allocs, decide_False.
  - simpl. rewrite lookup_alter_eq. subst ob1. destruct (trackCycles cfg); [|by rewrite Hob].
    by rewrite refresh_allocs, decide_True, Hob.
  - intros Hok Hcls Hs. apply record_offsets_ok; [|done|by rewrite is_class_code].
    destruct Hok as [Haff Hok]. split; [by destruct Hsame as (_ & _ & -> & _)|]. by rewrite Hinfo.
  - intros s' o v. destruct Hsame as [Hp _]. unfold record_access.
    rewrite record_offsets_recorded, elem_of_singleton, Hp by done.
    unfold recorded. rewrite Hinfo. naive_solver.
Qed.

Lemma processAddToState_fuel_spec n cfg sh rt e a ob s :
  findAllocation (localAllocationTable sh) rt (ptr e) = Some (Some a) →
  allocs rt !! a = Some ob → get_statePtr e = Some s → is_access e = false →
  states_wf (states rt) → is_Some (states rt !! s) → (s ≤ n)%nat →
  ∃ rt' e' ob', processAddToState_fuel n cfg e sh rt = Some (sh, rt', e') ∧
    only_block rt rt' a ob ob' ∧
    (alloc_ok rt ob → is_class (eoperation e) → alloc_ok rt ob') ∧
    ∀ s' o v, recorded ob' s' o v ↔ recorded ob s' o v ∨
      (on_chain rt (Some s) s' ∧ op_code o = op_code (eoperation e) ∧ v = ptr e -₆₄ pointer ob).
Proof.
  revert rt e ob s. induction n as [|n IH]; intros rt e ob s Hfind Hob Hs Hna Hwf [st Hst] Hle.
  all: cbn [processAddToState_fuel]; rewrite Hfind, Hna, andb_false_r; cbn [mbind option_bind];
    rewrite Hs; cbn [mbind option_bind]; fold (access_round cfg e a s rt).
  all: destruct (access_round_spec cfg e a s rt ob Hob) as (ob1 & Hob1 & Hfr & Hrec);
    pose proof Hob1 as (Est & Eoth & Ea & Esame); rewrite Est, Hst; cbn [mbind option_bind];
    destruct (parent st) as [p|] eqn:Ep.
  1: { destruct (Hwf _ _ _ Hst Ep). lia. }
  1, 3: eexists _, e, ob1; (split; [reflexivity|]); (split; [done|]);
    (split; [intros; apply Hfr; eauto|]);
    intros s' o v; rewrite Hrec, (on_chain_step rt s st s' Hwf Hst), Ep;
    pose proof (on_chain_None rt s'); naive_solver.
  destruct (Hwf _ _ _ Hst Ep) as [Hlt Hp].
  destruct (IH (access_round cfg e a s rt) (set_statePtr (Some p) e) ob1 p)
    as (rt' & e' & ob' & -> & Hob' & Hfr' & Hrec'); rewrite ?Est; [..|done|lia|]; try done.
  { simpl. rewrite (findAllocation_length_ext _ rt); [done|]. intros b. by eapply only_block_length. }
  exists rt', e', ob'. split; [done|]. split; [by eapply only_block_trans|]. split.
  { intros Hok Hcls. apply (alloc_ok_ext (access_round cfg e a s rt) rt); [done|].
    apply Hfr'; [|done]. apply (alloc_ok_ext rt); [done|]. apply Hfr; eauto. }
  intros s' o v. rewrite Hrec', Hrec.
  rewrite (on_chain_step rt s st s' Hwf Hst), Ep. simpl.
  rewrite (on_chain_states rt _ (Some p) s' Est). destruct Esame as [-> _]. naive_solver.
Qed.

Lemma region_round_spec e size a s rt ob :
  allocs rt !! a = Some ob →
  ∃ ob', only_block rt (upd_alloc a (record_region e size s) rt) a ob ob' ∧
    ∀ s' o v, recorded ob' s' o v ↔ recorded ob s' o v ∨
      (s' = s ∧ op_code o = stateToSet e ∧
       (v = GetOffset (pointer ob) (ptr e) ∨ v = GetOffset (pointer ob) (ptr e) +₆₄ size)).
Proof.
  intros Hob. exists (record_region e size s ob). split; [split; [|split; [|split]]|].
  - done.
  - intros b Hb. simpl. by rewrite lookup_alter_ne.
  - simpl. by rewrite lookup_alter_eq, Hob.
  - done.
  - intros s' o v. unfold record_region.
    rewrite record_offsets_recorded, elem_of_union, !elem_of_singleton by done. naive_solver.
Qed.

Lemma processStateRegionSet_fuel_spec n sh rt e a ob s size :
  findAllocation (localAllocationTable sh) rt (ptr e) = Some (Some a) →
  allocs rt !! a = Some ob → eaffiliatedState e = Some s → get_size e = Some size →
  states_wf (states rt) → is_Some (states rt !! s) → (s ≤ n)%nat →
  ∃ rt' e' ob', processStateRegionSet_fuel n e sh rt = Some (sh, rt', e') ∧
    only_block rt rt' a ob ob' ∧
    ∀ s' o v, recorded ob' s' o v ↔ recorded ob s' o v ∨
      (on_chain rt (Some s) s' ∧ op_code o = stateToSet e ∧
       (v = GetOffset (pointer ob) (ptr e) ∨ v = GetOffset (pointer ob) (ptr e) +₆₄ size)).
Proof.
  revert rt e ob s. induction n as [|n IH]; intros rt e ob s Hfind Hob Hs Hsz Hwf [st Hst] Hle.
  all: cbn [processStateRegionSet_fuel]; rewrite Hfind; cbn [mbind option_bind];
    rewrite Hs, Hsz; cbn [mbind option_bind].
  all: destruct (region_round_spec e size a s rt ob Hob) as (ob1 & Hob1 & Hrec);
    pose proof Hob1 as (Est & Eoth & Ea & Esame); rewrite Est, Hst; cbn [mbind option_bind];
    destruct (parent st) as [p|] eqn:Ep.
  1: { destruct (Hwf _ _ _ Hst Ep). lia. }
  1, 3: eexists _, e, ob1; (split; [reflexivity|]); (split; [done|]);
    intros s' o v; rewrite Hrec, (on_chain_step rt s st s' Hwf Hst), Ep;
    pose proof (on_chain_None rt s'); naive_solver.
  destruct (Hwf _ _ _ Hst Ep) as [Hlt Hp].
  destruct (IH (upd_alloc a (record_region e size s) rt) (set_eaffiliated (Some p) e) ob1 p)
    as (rt' & e' & ob' & -> & Hob' & Hrec'); rewrite ?Est; [..|done|lia|]; try done.
  { simpl. rewrite (findAllocation_length_ext _ rt); [done|]. intros b. by eapply only_block_length. }
  exists rt', e', ob'. split; [done|]. split; [by eapply only_block_trans|].
  intros s' o v. rewrite Hrec', Hrec.
  rewrite (on_chain_step rt s st s' Hwf Hst), Ep. simpl.
  rewrite (on_chain_states rt _ (Some p) s' Est). destruct Esame as [-> _]. naive_solver.
Qed.

(** ** Properties *)

(** C10: an access whose class is known.  If the address is in a tracked block,
    processing the entry terminates and records the offset of the address, under
    its class, for the region and all the regions it is nested in, and for no
    other; it changes nothing else of the block or of other blocks.  If no
    block is found the entry goes to the shadow on the left, or is dropped by
    the leftmost one. *)
Theorem processAddToState_correct cfg sh rt e s :
  get_statePtr e = Some s → is_class (eoperation e) →
  states_wf (states rt) → is_Some (states rt !! s) →
  (∀ a ob, findAllocation (localAllocationTable sh) rt (ptr e) = Some (Some a) →
    allocs rt !! a = Some ob →
    ∃ rt' e' ob', processAddToState cfg e sh rt = Some (sh, rt', e') ∧
      only_block rt rt' a ob ob' ∧
      ∀ s' o v, is_class o → recorded ob' s' o v ↔ recorded ob s' o v ∨
        (on_chain rt (Some s) s' ∧ o = eoperation e ∧ v = ptr e -₆₄ pointer ob)) ∧
  (findAllocation (localAllocationTable sh) rt (ptr e) = Some None →
    processAddToState cfg e sh rt = Some (overflow e sh, rt, e)).
Proof.
  intros Hs Hcls Hwf Hst. split.
  - intros a ob Hfind Hob. unfold processAddToState. rewrite Hs. simpl.
    assert (is_access e = false) as Hna.
    { apply bool_decide_false. intros [E|E]; rewrite E in Hcls; by destruct Hcls. }
    destruct (processAddToState_fuel_spec s cfg sh rt e a ob s)
      as (rt' & e' & ob' & -> & Hblk & _ & Hrec); [done..|lia|].
    exists rt', e', ob'. split; [done|]. split; [done|]. intros s' o v Ho. rewrite Hrec.
    assert (op_code o = op_code (eoperation e) ↔ o = eoperation e) as Hop; [|naive_solver].
    split; [|by intros ->]. intros E. by rewrite <- (is_class_code o), E, is_class_code.
  - intros Hfind. unfold processAddToState. rewrite Hs. simpl.
    destruct s; simpl; by rewrite Hfind.
Qed.

(** C22: from an access to the report.  Once the block is committed without a
    skipped region, as at the end of an invocation or of the program, the offset
    of an access that [processAddToState] handled is in the set of its class, in
    its region and in every region that encloses it. *)
Theorem access_is_reported cfg sh rt e s a ob s' :
  findAllocation (localAllocationTable sh) rt (ptr e) = Some (Some a) →
  allocs rt !! a = Some ob → alloc_ok rt ob →
  get_statePtr e = Some s → is_class (eoperation e) →
  states_wf (states rt) → is_Some (states rt !! s) → on_chain rt (Some s) s' →
  ∃ rt1 e' rt2 b, processAddToState cfg e sh rt = Some (sh, rt1, e') ∧
    commitStateInfo a None rt1 = Some (rt2, b) ∧
    reported rt2 s' (eoperation e) a (ptr e -₆₄ pointer ob).
Proof.
  intros Hfind Hob Haok Hs Hcls Hwf Hst Hchain. unfold processAddToState. rewrite Hs. simpl.
  assert (is_access e = false) as Hna.
  { apply bool_decide_false. intros [E|E]; rewrite E in Hcls; by destruct Hcls. }
  destruct (processAddToState_fuel_spec s cfg sh rt e a ob s)
    as (rt1 & e' & ob1 & -> & Hblk & Haok1 & Hrec); [done..|lia|].
  destruct Hblk as (Est & Eoth & Ea & Esame).
  apply (alloc_ok_ext rt rt1) in Haok1; [|done..].
  destruct (commitStateInfo_spec a None rt1 ob1) as (rt2 & infos & Hc & _);
    rewrite ?Est; [done..|].
  eexists rt1, e', rt2, _. split; [done|]. split; [done|].
  eapply (commitStateInfo_reported a None rt1 ob1); rewrite ?Est; try done. right.
  split; [done|]. split; [apply Hrec; by right|].
  intros [_ H]. by apply on_chain_None in H.
Qed.

(** ** Allocation and free *)

(** The loop that adds the block to a state and its parents. *)
Lemma add_allocated_states a chain rt s :
  let rt' := foldl (λ rt s, upd_state s (λ st,
    set_AllocsAllocatedInState ({[a]} ∪ AllocsAllocatedInState st) st) rt) rt chain in
  allocs rt' = allocs rt ∧ originToAllocMap rt' = originToAllocMap rt ∧ next_alloc rt' = next_alloc rt ∧
  states rt' !! s = (λ st, if decide (s ∈ chain)
    then set_AllocsAllocatedInState ({[a]} ∪ AllocsAllocatedInState st) st else st) <$> states rt !! s.
Proof.
  revert rt. induction chain as [|s0 chain IH]; intros rt; cbn [foldl].
  { do 3 (split; [done|]). destruct (states rt !! s) as [st|]; [|done].
    cbn [fmap option_fmap option_map]. rewrite decide_False; [done|]. apply not_elem_of_nil. }
  destruct (IH (upd_state s0 (λ st, set_AllocsAllocatedInState ({[a]} ∪ AllocsAllocatedInState st) st) rt))
    as (-> & -> & -> & ->). do 3 (split; [done|]). simpl. rewrite lookup_alter.
  destruct (decide (s0 = s)) as [->|Hne]; destruct (states rt !! s) as [st|]; simpl; try done; f_equal.
  - rewrite (decide_True (P := s ∈ s :: chain)) by set_solver. case_decide; [|done].
    destruct st; unfold set_AllocsAllocatedInState; simpl. f_equal. set_solver.
  - destruct (decide (s ∈ chain)); [by rewrite decide_True by set_solver|by rewrite decide_False by set_solver].
Qed.

(** The store in which a block of a new origin is inserted. *)
Definition fresh_store (e : shadowEntry) (size : Z) (rt : Runtime) : Runtime :=
  (alloc_object e size rt).2.

Lemma fresh_store_allocs e size rt b :
  originToAllocMap rt !! information e = None → b ≠ next_alloc rt →
  allocs (fresh_store e size rt) !! b = allocs rt !! b.
Proof. unfold fresh_store, alloc_object. intros -> Hb. simpl. by rewrite lookup_insert_ne. Qed.

Lemma table_ok_fresh t e size rt :
  table_ok t rt → originToAllocMap rt !! information e = None → allocs rt !! next_alloc rt = None →
  table_ok t (fresh_store e size rt).
Proof.
  intros Hok Ho Hfresh.
  assert (∀ x, x ∈ table_entries t → allocs (fresh_store e size rt) !! x.2 = allocs rt !! x.2) as Heq.
  { intros x Hx. apply fresh_store_allocs; [done|]. intros E.
    destruct (tok_entry _ _ Hok x Hx) as (ob & Hob & _). congruence. }
  destruct Hok as [Hs Hsen He Ha (n & Hn & Hm & Hh)]. split; [done|done| | |].
  - intros x Hx. unfold entry_ok. rewrite Heq by done. by apply He.
  - intros x y Hx Hy. unfold apart. rewrite Heq by done. by apply Ha.
  - exists n. split; [done|]. split; [done|]. intros k a Hk.
    destruct (Hh _ _ Hk) as (?&?&?&ob&Hob&?). do 3 (split; [done|]). exists ob.
    split; [|done]. pose proof (Heq (k, a)) as E. simpl in E. rewrite E; [done|].
    apply table_entries_elem; [done|by right].
Qed.

Lemma fresh_find t e size rt v :
  table_ok t rt → originToAllocMap rt !! information e = None → allocs rt !! next_alloc rt = None →
  u64 v → findAllocation t (fresh_store e size rt) v = findAllocation t rt v.
Proof.
  intros Hok Ho Hfresh Hv. pose proof (table_ok_fresh _ e size _ Hok Ho Hfresh) as Hok1.
  assert (∀ x, x ∈ table_entries t → allocs (fresh_store e size rt) !! x.2 = allocs rt !! x.2) as Heq.
  { intros x Hx. apply fresh_store_allocs; [done|]. intros E.
    destruct (tok_entry _ _ Hok x Hx) as (ob & Hob & _). congruence. }
  assert (∀ a, owner t (fresh_store e size rt) v a ↔ owner t rt v a) as Hown.
  { intros a. unfold owner. split; intros (k & ob & Hin & Hob & Hc); exists k, ob;
      pose proof (Heq _ Hin) as E; simpl in E; rewrite E in *; done. }
  destruct (findAllocation_total t rt v Hok) as [[a|] Hr]; rewrite Hr.
  - apply findAllocation_complete; [done..|]. apply Hown. by apply findAllocation_sound.
  - apply findAllocation_None; [done..|]. intros a Ha%Hown.
    rewrite findAllocation_None in Hr by done. exact (Hr a Ha).
Qed.

(** A new block.  An allocation whose origin is new gets an object of its
    own; if the block fits into the table, the table stays well formed, exactly
    the addresses of the block resolve to the object, no other search changes,
    and the object counts as allocated in the current region and in all the
    regions around it. *)
Theorem processAddAlloc_fresh sh rt e size :
  get_size e = Some size → originToAllocMap rt !! information e = None →
  allocs rt !! next_alloc rt = None →
  table_ok (localAllocationTable sh) rt → states_wf (states rt) →
  sptr_ok (states rt) (eaffiliatedState e) →
  let a := next_alloc rt in
  let ob := new_Allocation (ptr e) size (information e) in
  insert_fits (localAllocationTable sh) (fresh_store e size rt) (ptr e) a ob →
  ∃ sh' rt', processAddAlloc e sh rt = Some (sh', rt') ∧
    table_ok (localAllocationTable sh') rt' ∧
    (∀ v, u64 v → findAllocation (localAllocationTable sh') rt' v =
      if decide (covers (ptr e) ob v) then Some (Some a)
      else findAllocation (localAllocationTable sh) rt v) ∧
    allocs rt' !! a = Some (set_affiliatedState (eaffiliatedState e) ob) ∧
    ∀ s st, states rt !! s = Some st → ∃ st', states rt' !! s = Some st' ∧
      (a ∈ AllocsAllocatedInState st' ↔
        a ∈ AllocsAllocatedInState st ∨ on_chain rt (eaffiliatedState e) s).
Proof.
  intros Hsize Ho Hfresh Hok Hwf Haff a ob Hfit.
  pose proof (table_ok_fresh _ e size _ Hok Ho Hfresh) as Hok1.
  destruct (parent_chain_total _ _ Hwf Haff) as [chain Hchain].
  destruct (InsertAllocation (ptr e) a (fresh_store e size rt) (localAllocationTable sh)) as [t|] eqn:Hins.
  2:{ unfold InsertAllocation in Hins. by rewrite (fit_alloc _ _ _ _ _ Hfit) in Hins. }
  pose proof (InsertAllocation_ok _ _ _ _ _ _ Hok1 Hfit Hins) as Hok2.
  unfold processAddAlloc. rewrite Hsize. cbn [mbind option_bind].
  assert (alloc_object e size rt = (a, fresh_store e size rt)) as ->.
  { unfold fresh_store, alloc_object. by rewrite Ho. }
  rewrite Hins. cbn [mbind option_bind].
  assert (states (fresh_store e size rt) = states rt) as Est.
  { unfold fresh_store, alloc_object. by rewrite Ho. }
  simpl. rewrite Est, Hchain. cbn [mbind option_bind]. eexists _, _. split; [reflexivity|].
  set (rt2 := upd_alloc a _ _). pose proof (λ s, add_allocated_states a chain rt2 s) as Hadd.
  simpl in Hadd. destruct (Hadd 0%nat) as (Hal & _ & _ & _). simpl.
  assert (∀ b, length <$> allocs rt2 !! b = length <$> allocs (fresh_store e size rt) !! b) as Hlen
    by (intros b; by apply upd_alloc_length).
  split; [|split; [|split]].
  - eapply table_ok_length_ext; [|exact Hok2]. intros b. by rewrite Hal, Hlen.
  - intros v Hv. rewrite (findAllocation_length_ext _ (fresh_store e size rt)); [|intros b; by rewrite Hal].
    rewrite (insert_find _ _ _ _ _ _ v Hok1 Hfit Hins Hv). case_decide; [done|].
    by apply fresh_find.
  - rewrite Hal. subst rt2. simpl. rewrite lookup_alter_eq, (fit_alloc _ _ _ _ _ Hfit). done.
  - intros s st Hst. destruct (Hadd s) as (_ & _ & _ & ->). subst rt2. simpl. rewrite Est, Hst. simpl.
    eexists. split; [done|]. unfold on_chain. rewrite Hchain. case_decide; simpl; [|naive_solver].
    set_solver.
Qed.

(** One object per origin.  A second allocation of an origin (the same call
    site under the same call stack) reuses the first one's object, although the
    first block may be live: its key keeps resolving to the object, which now
    has the pointer and the length of the second block.  From then on searches
    in the first block are bounded by the second one's length, and offsets
    recorded for it are relative to the second block's start. *)
Theorem processAddAlloc_shared_origin sh rt e size a ob k :
  get_size e = Some size → originToAllocMap rt !! information e = Some a →
  allocs rt !! a = Some ob → om_find k (sortedAllocationTable (localAllocationTable sh)) = Some a →
  k ≠ ptr e → maskLengths (localAllocationTable sh) = [] →
  states_wf (states rt) → sptr_ok (states rt) (eaffiliatedState e) →
  ∃ sh' rt' ob', processAddAlloc e sh rt = Some (sh', rt') ∧
    om_find k (sortedAllocationTable (localAllocationTable sh')) = Some a ∧
    allocs rt' !! a = Some ob' ∧ pointer ob' = ptr e ∧ length ob' = size ∧
    StateCommitInfoMap ob' = StateCommitInfoMap ob.
Proof.
  intros Hsize Ho Hob Hk Hne Hml Hwf Haff.
  destruct (parent_chain_total _ _ Hwf Haff) as [chain Hchain].
  unfold processAddAlloc, alloc_object, InsertAllocation. rewrite Hsize, Ho. cbn [mbind option_bind].
  simpl. rewrite lookup_alter_eq, Hob. simpl. rewrite Hml, Hchain.
  rewrite decide_False by (by intros ?%elem_of_nil). cbn [mbind option_bind].
  eexists _, _, _. split; [reflexivity|]. simpl. split.
  { by rewrite om_find_insert_ne. }
  set (rt2 := upd_alloc a _ _). destruct (add_allocated_states a chain rt2 0%nat) as (Hal & _).
  rewrite Hal. subst rt2. simpl. rewrite !lookup_alter_eq, Hob. done.
Qed.

(** C23: a free.  Freeing the start of a tracked block commits what was recorded
    on it, for all regions but those that enclose both the allocation and the
    free, and then forgets the block: its addresses resolve to nothing, all
    other searches are as before, and the table stays well formed. *)
Theorem processFreeAllocation_correct sh rt e a ob :
  table_ok (localAllocationTable sh) rt → states_wf (states rt) →
  sptr_ok (states rt) (eaffiliatedState e) → u64 (ptr e) → ptr e ≠ max_key →
  (ptr e, a) ∈ table_entries (localAllocationTable sh) →
  allocs rt !! a = Some ob → alloc_ok rt ob →
  ∃ sh' rt', processFreeAllocation e sh rt = Some (sh', rt') ∧
    table_ok (localAllocationTable sh') rt' ∧
    (∀ v, u64 v → findAllocation (localAllocationTable sh') rt' v =
      if decide (covers (ptr e) ob v) then Some None
      else findAllocation (localAllocationTable sh) rt v) ∧
    ∀ s o a' v, is_class o → reported rt' s o a' v ↔
      reported rt s o a' v ∨
      (a' = a ∧ recorded ob s o v ∧
       ¬ (on_chain rt (affiliatedState ob) s ∧ on_chain rt (eaffiliatedState e) s)).
Proof.
  intros Hok Hwf Hskip Hu Hne Hin Hob Haok.
  assert (findAllocation (localAllocationTable sh) rt (ptr e) = Some (Some a)) as Hfind.
  { apply findAllocation_complete; [done..|]. exists (ptr e), ob. split; [done|]. split; [done|by left]. }
  unfold processFreeAllocation. rewrite Hfind. cbn [mbind option_bind].
  destruct (commitStateInfo_spec a (eaffiliatedState e) rt ob Hwf Hskip Hob Haok)
    as (rt' & infos & Hc & _ & _ & Ha & _). rewrite Hc. cbn [mbind option_bind].
  eexists _, rt'. split; [reflexivity|]. simpl.
  assert (∀ b, length <$> allocs rt' !! b = length <$> allocs rt !! b) as Hlen.
  { intros b. rewrite Ha. apply (upd_alloc_length a (set_StateCommitInfoMap (clear_info <$> infos)) rt b). done. }
  pose proof (DeleteAllocation_ok _ (ptr e) rt Hok Hne) as Hok'.
  split; [by eapply table_ok_length_ext|]. split.
  - intros v Hv. rewrite (findAllocation_length_ext _ rt) by done.
    by eapply delete_find.
  - intros s o a' v Ho. by eapply commitStateInfo_reported.
Qed.

(** A region set by the compiler.  The two ends of the range, as offsets
    into the block, are recorded under the class the compiler named, for the
    region and all the regions it is nested in; nothing else changes. *)
Theorem processStateRegionSet_correct sh rt e s size a ob :
  eaffiliatedState e = Some s → get_size e = Some size →
  states_wf (states rt) → is_Some (states rt !! s) →
  findAllocation (localAllocationTable sh) rt (ptr e) = Some (Some a) → allocs rt !! a = Some ob →
  ∃ rt' e' ob', processStateRegionSet e sh rt = Some (sh, rt', e') ∧
    only_block rt rt' a ob ob' ∧
    ∀ s' o v, recorded ob' s' o v ↔ recorded ob s' o v ∨
      (on_chain rt (Some s) s' ∧ op_code o = stateToSet e ∧
       (v = GetOffset (pointer ob) (ptr e) ∨ v = GetOffset (pointer ob) (ptr e) +₆₄ size)).
Proof.
  intros Hs Hsz Hwf Hst Hfind Hob. unfold processStateRegionSet. rewrite Hs. simpl.
  by eapply processStateRegionSet_fuel_spec.
Qed.

(** ** Witnesses *)

(** Two nested regions and the blocks of [demo_table]; the shadow is the
    leftmost one. *)
Definition shadow_rt : Runtime := mkRuntime demo_allocs 5 (states commit_rt) {[ 1 := 2%positive ]} 1.
Definition demo_shadow : Shadow := new_Shadow demo_table false.
Definition input_entry : shadowEntry := mkEntry STATE_ADD_INPUT 4100 (StatePtr (Some 1%nat)) 0 None 7.

Lemma shadow_table_ok : table_ok demo_table shadow_rt.
Proof. by apply (table_ok_length_ext demo_table demo_rt), demo_table_ok. Qed.

Lemma demo_block_ok : alloc_ok shadow_rt (new_Allocation 4096 24 1).
Proof. split; [done|]. intros s info Hs. simpl in Hs. by rewrite lookup_empty in Hs. Qed.

Lemma processAddToState_correct_witness :
  ∃ rt' e' ob', processAddToState default_config input_entry demo_shadow shadow_rt =
      Some (demo_shadow, rt', e') ∧
    allocs rt' !! 2%positive = Some ob' ∧ recorded ob' 0 STATE_ADD_INPUT 4.
Proof.
  destruct (processAddToState_correct default_config demo_shadow shadow_rt input_entry 1) as [H _];
    [reflexivity|by eexists|apply commit_rt_wf|by eexists|].
  destruct (H 2%positive (new_Allocation 4096 24 1)) as (rt' & e' & ob' & Hp & (_ & _ & Ha & _) & Hrec);
    [reflexivity|reflexivity|].
  exists rt', e', ob'. split; [done|]. split; [done|]. apply Hrec; [by eexists|]. right.
  split; [|done]. eexists. split; [vm_compute; reflexivity|]. set_solver.
Defined.

Lemma access_is_reported_witness :
  ∃ rt1 e' rt2 b, processAddToState default_config input_entry demo_shadow shadow_rt =
      Some (demo_shadow, rt1, e') ∧
    commitStateInfo 2 None rt1 = Some (rt2, b) ∧ reported rt2 0 STATE_ADD_INPUT 2 4.
Proof.
  apply (access_is_reported default_config demo_shadow shadow_rt input_entry 1 2
    (new_Allocation 4096 24 1) 0);
    [reflexivity|reflexivity|apply demo_block_ok|reflexivity|by eexists|apply commit_rt_wf|by eexists|].
  eexists. split; [vm_compute; reflexivity|]. set_solver.
Defined.

(** 32 bytes at 12288, allocated in the inner region. *)
Definition alloc_entry : shadowEntry := mkEntry ALLOC_ADD 12288 (Size 32) 0 (Some 1%nat) 9.

Lemma alloc_entry_fits :
  insert_fits demo_table (fresh_store alloc_entry 32 shadow_rt) 12288 5 (new_Allocation 12288 32 9).
Proof.
  split.
  - reflexivity.
  - eexists. split; [reflexivity|]. vm_compute. intuition discriminate.
  - intros e He. entry_cases He; (split; [done|]); split; intros ob [= <-];
      vm_compute; intuition discriminate.
  - simpl. rewrite list_elem_of_singleton. lia.
Qed.

Lemma processAddAlloc_fresh_witness :
  ∃ sh' rt', processAddAlloc alloc_entry demo_shadow shadow_rt = Some (sh', rt') ∧
    findAllocation (localAllocationTable sh') rt' 12300 = Some (Some 5%positive).
Proof.
  destruct (processAddAlloc_fresh demo_shadow shadow_rt alloc_entry 32) as (sh' & rt' & H & _ & Hf & _);
    [reflexivity|reflexivity|reflexivity|apply shadow_table_ok|apply commit_rt_wf|by eexists
    |apply alloc_entry_fits|].
  exists sh', rt'. split; [done|]. by rewrite Hf.
Defined.

(** The origin of the block at 4096 allocates 8 bytes at 12288. *)
Definition again_entry : shadowEntry := mkEntry ALLOC_ADD 12288 (Size 8) 0 None 1.

Lemma processAddAlloc_shared_origin_witness :
  let sh := new_Shadow (set_maskLengths [] demo_table) false in
  ∃ sh' rt' ob', processAddAlloc again_entry sh shadow_rt = Some (sh', rt') ∧
    om_find 4096 (sortedAllocationTable (localAllocationTable sh')) = Some 2%positive ∧
    allocs rt' !! 2%positive = Some ob' ∧ length ob' = 8.
Proof.
  intros sh.
  destruct (processAddAlloc_shared_origin sh shadow_rt again_entry 8 2 (new_Allocation 4096 24 1) 4096)
    as (sh' & rt' & ob' & ? & ? & ? & _ & ? & _); try reflexivity; [done|apply commit_rt_wf|].
  by exists sh', rt', ob'.
Defined.

(** Address 4110 is in the first block before, and lost after. *)
Example shared_origin_loses_block :
  findAllocation demo_table shadow_rt 4110 = Some (Some 2%positive) ∧
  (r ← processAddAlloc again_entry (new_Shadow (set_maskLengths [] demo_table) false) shadow_rt;
   findAllocation (localAllocationTable r.1) r.2 4110) = Some None.
Proof. vm_compute. done. Qed.

Definition free_entry : shadowEntry := mkEntry ALLOC_FREE 4096 (Size 0) 0 None 0.

Lemma processFreeAllocation_correct_witness :
  ∃ sh' rt', processFreeAllocation free_entry demo_shadow shadow_rt = Some (sh', rt') ∧
    findAllocation (localAllocationTable sh') rt' 4100 = Some None.
Proof.
  destruct (processFreeAllocation_correct demo_shadow shadow_rt free_entry 2 (new_Allocation 4096 24 1))
    as (sh' & rt' & H & _ & Hf & _);
    [apply shadow_table_ok|apply commit_rt_wf|done|done|done|vm_compute; by left|reflexivity
    |apply demo_block_ok|].
  exists sh', rt'. split; [done|]. by rewrite Hf.
Defined.

Definition region_set_entry : shadowEntry := mkEntry STATE_REGION_SET 4096 (Size 16) 7 (Some 1%nat) 3.

Lemma processStateRegionSet_correct_witness :
  ∃ rt' e' ob', processStateRegionSet region_set_entry demo_shadow shadow_rt =
      Some (demo_shadow, rt', e') ∧
    allocs rt' !! 2%positive = Some ob' ∧ recorded ob' 0 STATE_ADD_INPUT 16.
Proof.
  destruct (processStateRegionSet_correct demo_shadow shadow_rt region_set_entry 1 16 2
    (new_Allocation 4096 24 1)) as (rt' & e' & ob' & H & (_ & _ & Ha & _) & Hrec);
    [reflexivity|reflexivity|apply commit_rt_wf|by eexists|reflexivity|reflexivity|].
  exists rt', e', ob'. split; [done|]. split; [done|]. apply Hrec. right.
  split; [eexists; split; [vm_compute; reflexivity|set_solver]|]. split; [reflexivity|by right].
Defined.

(** ** No handler changes the forest of states *)

Definition same_parents (rt rt' : Runtime) : Prop :=
  ∀ s, parent <$> states rt' !! s = parent <$> states rt !! s.

#[export] Instance same_parents_preorder : PreOrder same_parents.
Proof.
  split; [by intros rt s|]. intros rt1 rt2 rt3 H1 H2 s. by rewrite H2, H1.
Qed.

Lemma same_parents_states rt rt' : states rt' = states rt → same_parents rt rt'.
Proof. intros E s. by rewrite E. Qed.

Lemma same_parents_upd s f rt :
  (∀ st, parent (f st) = parent st) → same_parents rt (upd_state s f rt).
Proof.
  intros Hf s'. simpl. rewrite lookup_alter. case_decide; [subst|done].
  destruct (states rt !! s'); simpl; [by rewrite Hf|done].
Qed.

Lemma same_parents_mfoldl {A} (f : Runtime → A → option Runtime) rt l rt' :
  (∀ rt x rt', f rt x = Some rt' → same_parents rt rt') →
  mfoldl f rt l = Some rt' → same_parents rt rt'.
Proof.
  intros Hf H. refine (mfoldl_ind (λ r, same_parents rt r) _ _ _ _ H _ _); [done|].
  intros r x r' _ Hr Hx. etrans; [exact Hr|]. by eapply Hf.
Qed.

Lemma commit_parents a skip rt rt' b :
  commitStateInfo a skip rt = Some (rt', b) → same_parents rt rt'.
Proof. intros H s. by eapply commit_states_parent. Qed.

Lemma CommitStateInfoForAllocations_parents t rt rt' :
  CommitStateInfoForAllocations t rt = Some rt' → same_parents rt rt'.
Proof.
  apply same_parents_mfoldl. intros r e r' H. apply bind_Some in H as ([r1 b] & Hc & [= <-]).
  by eapply commit_parents.
Qed.

Lemma CommitState_parent st : parent (CommitState st) = parent st.
Proof. unfold CommitState. by rewrite !CommitAndCleanSet_spec. Qed.

Lemma processAddAlloc_parents e sh rt sh' rt' :
  processAddAlloc e sh rt = Some (sh', rt') → same_parents rt rt'.
Proof.
  unfold processAddAlloc. intros H. apply bind_Some in H as (size & _ & H).
  destruct (alloc_object e size rt) as [a rt1] eqn:E.
  apply bind_Some in H as (t & _ & H). apply bind_Some in H as (chain & _ & [= _ <-]).
  assert (states rt1 = states rt) as Est.
  { unfold alloc_object in E. by destruct (originToAllocMap rt !! information e); simplify_eq. }
  etrans; [by apply same_parents_states, Est|].
  apply (foldl_ind (λ r, same_parents rt1 r)); [by apply same_parents_states|].
  intros r s _ Hr. etrans; [exact Hr|]. by apply same_parents_upd.
Qed.

Lemma processFreeAllocation_parents e sh rt sh' rt' :
  processFreeAllocation e sh rt = Some (sh', rt') → same_parents rt rt'.
Proof.
  unfold processFreeAllocation. intros H. apply bind_Some in H as ([a|] & _ & H).
  - apply bind_Some in H as ([r b] & Hc & [= _ <-]). by eapply commit_parents.
  - by injection H as _ <-.
Qed.

Lemma processAddToState_parents n cfg e sh rt sh' rt' e' :
  processAddToState_fuel n cfg e sh rt = Some (sh', rt', e') → same_parents rt rt'.
Proof.
  revert e rt. induction n as [|n IH]; intros e rt; cbn [processAddToState_fuel]; intros H;
    apply bind_Some in H as ([a|] & _ & H); try by injection H as _ <- _.
  all: set (rt1 := if trackCycles cfg then refresh a rt else rt) in H;
    assert (states rt1 = states rt) as Est by (subst rt1; by destruct (trackCycles cfg));
    destruct (trackCycles cfg && is_access e); [injection H as _ <- _; by apply same_parents_states|];
    apply bind_Some in H as (s & _ & H); apply bind_Some in H as (st & _ & H);
    destruct (parent st) as [p|]; try discriminate;
    try (injection H as _ <- _; by apply same_parents_states).
  apply IH in H. etrans; [|exact H]. by apply same_parents_states.
Qed.

Lemma processStateRegionSet_parents n e sh rt sh' rt' e' :
  processStateRegionSet_fuel n e sh rt = Some (sh', rt', e') → same_parents rt rt'.
Proof.
  revert e rt. induction n as [|n IH]; intros e rt; cbn [processStateRegionSet_fuel]; intros H;
    apply bind_Some in H as ([a|] & _ & H); try by injection H as _ <- _.
  all: apply bind_Some in H as (s & _ & H); apply bind_Some in H as (size & _ & H);
    apply bind_Some in H as (st & _ & H); destruct (parent st) as [p|]; try discriminate;
    try (injection H as _ <- _; by apply same_parents_states).
  apply IH in H. etrans; [|exact H]. by apply same_parents_states.
Qed.

Lemma add_vertices_states l rt g rt' g' :
  mfoldl add_vertex (rt, g) l = Some (rt', g') → states rt' = states rt.
Proof.
  intros H. change (states (rt', g').1 = states rt).
  refine (mfoldl_ind (λ r, states r.1 = states rt) _ _ _ _ H _ _); [done|].
  intros [r gr] x [r' gr'] _ Hr Hx. unfold add_vertex in Hx.
  apply bind_Some in Hx as (? & _ & [= <- _]). done.
Qed.

Lemma process_entry_parents mem sc cfg stateMap e sh rt sh' rt' e' :
  process_entry mem sc cfg stateMap e sh rt = Some (sh', rt', e') → same_parents rt rt'.
Proof.
  unfold process_entry. destruct (eoperation e); intros H;
    try (by injection H as _ <- _);
    try (by eapply processAddToState_parents);
    try (by eapply processStateRegionSet_parents);
    apply bind_Some in H as ([sh1 rt1] & H & [= _ <- _]).
  - by eapply processAddAlloc_parents.
  - by eapply processFreeAllocation_parents.
  - unfold processAddEscape in H. case_decide; [by injection H as _ <-|].
    apply bind_Some in H as ([a|] & _ & [= _ <-]); [by apply same_parents_states|done].
  - unfold process_commit in H. destruct (hasLeft sh); [by injection H as _ <-|].
    apply bind_Some in H as (r & Hr & H). apply bind_Some in H as (s & _ & H).
    apply bind_Some in H as (? & _ & [= _ <-]).
    etrans; [by eapply CommitStateInfoForAllocations_parents|].
    apply same_parents_upd, CommitState_parent.
  - unfold process_detect in H. destruct (hasLeft sh); [by injection H as _ <-|].
    apply bind_Some in H as ([t r] & Hr & H). apply bind_Some in H as (? & _ & H).
    apply bind_Some in H as (? & _ & [= _ <-]).
    unfold GenerateConnectionGraph in Hr. apply bind_Some in Hr as ([r' g] & Hv & Hr).
    apply bind_Some in Hr as (? & _ & [= _ <-]). apply same_parents_states. by eapply add_vertices_states.
Qed.

Lemma process_range_parents mem sc cfg stateMap n i buf sh rt sh' rt' buf' :
  process_range mem sc cfg stateMap n i buf sh rt = Some (sh', rt', buf') → same_parents rt rt'.
Proof.
  revert i buf sh rt. induction n as [|n IH]; intros i buf sh rt; simpl; [by intros [= _ <- _]|].
  intros H. apply bind_Some in H as (e & _ & H). apply bind_Some in H as ([[sh1 rt1] e1] & He & H).
  etrans; [by eapply process_entry_parents|]. by eapply IH.
Qed.

(** ** The range of the loop *)

Lemma process_range_length mem sc cfg stateMap n i buf sh rt sh' rt' buf' :
  process_range mem sc cfg stateMap n i buf sh rt = Some (sh', rt', buf') →
  List.length buf' = List.length buf.
Proof.
  revert i buf sh rt. induction n as [|n IH]; intros i buf sh rt; simpl; [by intros [= _ _ <-]|].
  intros H. apply bind_Some in H as (e & _ & H). apply bind_Some in H as ([[sh1 rt1] e1] & He & H).
  apply IH in H. by rewrite H, length_insert.
Qed.

(** A range that leaves the buffer is a crash. *)
Lemma process_range_out mem sc cfg stateMap n i buf sh rt :
  (List.length buf < i + n)%nat → (0 < n)%nat →
  process_range mem sc cfg stateMap n i buf sh rt = None.
Proof.
  revert i buf sh rt. induction n as [|n IH]; intros i buf sh rt Hlt Hn; [lia|]. simpl.
  destruct (buf !! i) as [e|] eqn:Ei; simpl; [|done].
  destruct (process_entry mem sc cfg stateMap e sh rt) as [[[sh1 rt1] e1]|]; simpl; [|done].
  destruct n as [|n].
  - apply lookup_lt_Some in Ei. lia.
  - apply IH; [|lia]. rewrite length_insert. lia.
Qed.

(** The last round of a range. *)
Lemma process_range_snoc mem sc cfg stateMap n i buf sh rt :
  process_range mem sc cfg stateMap (S n) i buf sh rt =
  '(sh, rt, buf) ← process_range mem sc cfg stateMap n i buf sh rt;
  e ← buf !! (i + n)%nat;
  '(sh, rt, e) ← process_entry mem sc cfg stateMap e sh rt;
  Some (sh, rt, <[(i + n)%nat := e]> buf).
Proof.
  revert i buf sh rt. induction n as [|n IH]; intros i buf sh rt.
  - simpl. rewrite Nat.add_0_r. done.
  - cbn [process_range]. destruct (buf !! i) as [e|]; cbn [mbind option_bind]; [|done].
    destruct (process_entry mem sc cfg stateMap e sh rt) as [[[sh1 rt1] e1]|]; cbn [mbind option_bind]; [|done].
    rewrite <- Nat.add_succ_comm. apply IH.
Qed.

(** Rounds do not look at or change slots beyond the range. *)
Lemma process_range_beyond mem sc cfg stateMap n i buf sh rt sh' rt' buf' j :
  process_range mem sc cfg stateMap n i buf sh rt = Some (sh', rt', buf') →
  (i + n ≤ j)%nat → buf' !! j = buf !! j.
Proof.
  revert i buf sh rt. induction n as [|n IH]; intros i buf sh rt; simpl; [by intros [= _ _ <-]|].
  intros H Hj. apply bind_Some in H as (e & _ & H). apply bind_Some in H as ([[sh1 rt1] e1] & He & H).
  rewrite (IH _ _ _ _ H) by lia. by rewrite list_lookup_insert_ne by lia.
Qed.
