(* ===== verification/Batch.v ===== *)
(** * The interface of the runtime

    extra/texas/src/runtime/texas.{hpp,cpp}: the functions the instrumented
    program calls.  Each writes an entry into the current batch; full batches
    are cleaned and processed.  The model runs a batch where the code does with
    [disableOptimizations] set, inside the call that fills it; the threaded mode
    runs the same [serialProcessShadowBatch] in one worker thread
    ([singleShadowProcessShadowBatches]) and is modelled by the step relation of
    Queues.v. *)

From S2P Require Import Prelude Helpers OrdMap Objects AllocTable ConnGraph Commit CleanBatch Shadow.

(** ** State *)

(** The globals of texas.cpp and State.cpp. *)
Record Globals := mkGlobals {
  store : Runtime;
  allocationMap : option AllocationTable;
  inRT : bool;
  activeState : option sptr;
  currentStateID : Z;
  stateMap : gmap Z (option sptr);
  oldState : option sptr;
  slotStart : nat;
  texasWorkEntries : list shadowEntry; (** the buffer being filled *)
  texasReadyBatchEntriesQueue : list (list shadowEntry);
  curBatchNumber : Z;
}.

Definition set_store (x : Runtime) (g : Globals) : Globals :=
  mkGlobals x (allocationMap g) (inRT g) (activeState g) (currentStateID g) (stateMap g) (oldState g) (slotStart g) (texasWorkEntries g) (texasReadyBatchEntriesQueue g) (curBatchNumber g).
Definition set_allocationMap (x : option AllocationTable) (g : Globals) : Globals :=
  mkGlobals (store g) x (inRT g) (activeState g) (currentStateID g) (stateMap g) (oldState g) (slotStart g) (texasWorkEntries g) (texasReadyBatchEntriesQueue g) (curBatchNumber g).
Definition set_inRT (x : bool) (g : Globals) : Globals :=
  mkGlobals (store g) (allocationMap g) x (activeState g) (currentStateID g) (stateMap g) (oldState g) (slotStart g) (texasWorkEntries g) (texasReadyBatchEntriesQueue g) (curBatchNumber g).
Definition set_activeState (x : option sptr) (g : Globals) : Globals :=
  mkGlobals (store g) (allocationMap g) (inRT g) x (currentStateID g) (stateMap g) (oldState g) (slotStart g) (texasWorkEntries g) (texasReadyBatchEntriesQueue g) (curBatchNumber g).
Definition set_currentStateID (x : Z) (g : Globals) : Globals :=
  mkGlobals (store g) (allocationMap g) (inRT g) (activeState g) x (stateMap g) (oldState g) (slotStart g) (texasWorkEntries g) (texasReadyBatchEntriesQueue g) (curBatchNumber g).
Definition set_stateMap (x : gmap Z (option sptr)) (g : Globals) : Globals :=
  mkGlobals (store g) (allocationMap g) (inRT g) (activeState g) (currentStateID g) x (oldState g) (slotStart g) (texasWorkEntries g) (texasReadyBatchEntriesQueue g) (curBatchNumber g).
Definition set_oldState (x : option sptr) (g : Globals) : Globals :=
  mkGlobals (store g) (allocationMap g) (inRT g) (activeState g) (currentStateID g) (stateMap g) x (slotStart g) (texasWorkEntries g) (texasReadyBatchEntriesQueue g) (curBatchNumber g).
Definition set_slotStart (x : nat) (g : Globals) : Globals :=
  mkGlobals (store g) (allocationMap g) (inRT g) (activeState g) (currentStateID g) (stateMap g) (oldState g) x (texasWorkEntries g) (texasReadyBatchEntriesQueue g) (curBatchNumber g).
Definition set_texasWorkEntries (x : list shadowEntry) (g : Globals) : Globals :=
  mkGlobals (store g) (allocationMap g) (inRT g) (activeState g) (currentStateID g) (stateMap g) (oldState g) (slotStart g) x (texasReadyBatchEntriesQueue g) (curBatchNumber g).
Definition set_readyQueue (x : list (list shadowEntry)) (g : Globals) : Globals :=
  mkGlobals (store g) (allocationMap g) (inRT g) (activeState g) (currentStateID g) (stateMap g) (oldState g) (slotStart g) (texasWorkEntries g) x (curBatchNumber g).
Definition set_curBatchNumber (x : Z) (g : Globals) : Globals :=
  mkGlobals (store g) (allocationMap g) (inRT g) (activeState g) (currentStateID g) (stateMap g) (oldState g) (slotStart g) (texasWorkEntries g) (texasReadyBatchEntriesQueue g) x.

(** [shadowBatch]; the status only tells a batch from the kill message. *)
Record shadowBatch := mkBatch {
  numEntries : nat;
  shadowEntries : list shadowEntry;
  batchNumber : Z;
}.

Section texas.
  (** [SHADOW_WINDOW], [NUM_BATCHES], the tracking flags, the memory of the
      program, boost's algorithm, and what the buffers hold that [malloc] returns,
      one after the other. *)
  Context (SHADOW_WINDOW NUM_BATCHES : nat) (cfg : config) (mem : Z → Z)
    (strong_components : graph_t → list nat) (malloc_buffer : nat → list shadowEntry).

(** ** Batches *)

(** [serialProcessShadowBatch]: clean the batch, process it with a shadow that
    has no neighbours, and return its buffer.  The shadow's range is
    [0 .. numEntries], both included. *)
Definition serialProcessShadowBatch (b : shadowBatch) (g : Globals) : option Globals :=
  if decide (List.length (shadowEntries b) < numEntries b)%nat then None
  else
    '(rt, old, cleaned) ← cleanBatch cfg (store g) (oldState g) (take (numEntries b) (shadowEntries b));
    let buf := cleaned ++ drop (numEntries b) (shadowEntries b) in
    table ← allocationMap g;
    '(worker, _, rt, buf) ← processShadowBatch mem strong_components cfg (stateMap g) None 0 (numEntries b) buf
      (new_Shadow table false) rt;
    Some (set_readyQueue (texasReadyBatchEntriesQueue g ++ [buf])
      (set_allocationMap (Some (localAllocationTable worker)) (set_oldState old (set_store rt g)))).

(** [batchFull(capacityFill)] *)
Definition batchFull (capacityFill : bool) (g : Globals) : option Globals :=
  let newBatch := mkBatch (if capacityFill then SHADOW_WINDOW else slotStart g) (texasWorkEntries g)
    (curBatchNumber g) in
  g ← serialProcessShadowBatch newBatch (set_curBatchNumber (curBatchNumber g +₆₄ 1) g);
  match texasReadyBatchEntriesQueue g with
  | [] => None
  | buf :: ready => Some (set_texasWorkEntries buf (set_readyQueue ready (set_slotStart 0 g)))
  end.

(** [getFreeSlot]: the index of the slot. *)
Definition getFreeSlot (g : Globals) : option (Globals * nat) :=
  g ← (if decide (SHADOW_WINDOW <= slotStart g)%nat then batchFull true g else Some g);
  Some (set_slotStart (S (slotStart g)) g, slotStart g).

(** Getting a slot and assigning fields of it; the other fields keep what the
    buffer held. *)
Definition fill_slot (f : shadowEntry → shadowEntry) (g : Globals) : option Globals :=
  '(g, i) ← getFreeSlot g;
  _ ← texasWorkEntries g !! i;
  Some (set_texasWorkEntries (alter f i (texasWorkEntries g)) g).

(** ** Initialisation *)

(** The seven fields of a [shadowEntry] take eight bytes each, in the order of the
    record; the last one, [batchEntriesLeft], is for the threads. *)
Definition sizeof_shadowEntry : nat := 56.

(** A 64-bit number without its [n] low bytes, which come first in memory. *)
Definition clear_bytes (n : nat) (z : Z) : Z :=
  if decide (8 <= n)%nat then 0
  else let k := 8 * Z.of_nat n in Z.shiftl (Z.shiftr z k) k.

(** The first [n] bytes of an entry are cleared.  A pointer of which some bytes are
    cleared points nowhere; so does what [malloc] left there. *)
Definition memset_entry (n : nat) (e : shadowEntry) : shadowEntry :=
  let field (i : nat) := (n - 8 * i)%nat in
  let field_ptr (i : nat) (s : option sptr) := if decide (field i = 0)%nat then s else None in
  mkEntry (op_of_code (clear_bytes (field 0%nat) (op_code (eoperation e))))
    (clear_bytes (field 1%nat) (ptr e))
    (match esizeState e with
     | Size z => Size (clear_bytes (field 2%nat) z)
     | StatePtr s => StatePtr (field_ptr 2%nat s)
     end)
    (clear_bytes (field 3%nat) (stateToSet e))
    (field_ptr 4%nat (eaffiliatedState e))
    (clear_bytes (field 5%nat) (information e)).

(** [memset(buf, 0, n)]: [n] counts bytes. *)
Definition memset_zero (n : nat) (buf : list shadowEntry) : list shadowEntry :=
  imap (λ i e, memset_entry (n - sizeof_shadowEntry * i) e) buf.

(** The part of [texas_init] that has an effect in this mode: buffers, the
    table and its sentinel (object 1 of a fresh store).  Of the first buffer
    [SHADOW_WINDOW] bytes are cleared, not as many entries; the other buffers stay
    as [malloc] returned them. *)
Definition texas_init (g : Globals) : option Globals :=
  match allocationMap g with
  | Some _ => Some g
  | None =>
      let a := next_alloc (store g) in
      let rt := set_originToAllocMap ∅ (set_next_alloc (Pos.succ a)
        (set_allocs (<[a := new_Allocation max_key 0 0]> (allocs (store g))) (store g))) in
      match malloc_buffer <$> seq 0 NUM_BATCHES with
      | [] => None
      | buf :: ready =>
          table ← InsertAllocation max_key a rt new_AllocationTable;
          Some (set_allocationMap (Some table) (set_store rt
            (set_texasWorkEntries (memset_zero SHADOW_WINDOW buf) (set_readyQueue ready g))))
      end
  end.

(** [ENTER_RT; body; EXIT_RT]: calls from inside the runtime return at once. *)
Definition in_runtime (body : Globals → option Globals) (g : Globals) : option Globals :=
  if inRT g then Some g
  else
    g ← texas_init (set_inRT true g);
    g ← body g;
    Some (set_inRT false g).

(** ** Allocations *)

(** [AddToAllocationTable(address, length, origin, state)] *)
Definition AddToAllocationTable_state (address len ori : Z) (state : option sptr) (g : Globals)
    : option Globals :=
  in_runtime (fill_slot (λ e, set_information ori (set_eaffiliated state
    (set_size len (set_ptr address (set_operation ALLOC_ADD e)))))) g.

(** [AddToAllocationTable(address, length, origin)] *)
Definition AddToAllocationTable (address len ori : Z) (g : Globals) : option Globals :=
  in_runtime (λ g,
    '(g, i) ← getFreeSlot g;
    _ ← texasWorkEntries g !! i;
    Some (set_texasWorkEntries (alter (λ e, set_eaffiliated (activeState g) (set_information ori
      (set_size len (set_ptr address (set_operation ALLOC_ADD e))))) i (texasWorkEntries g)) g)) g.

(** [AddCallocToAllocationTable], both versions *)
Definition AddCallocToAllocationTable (address len sizeOfEntry ori : Z) (g : Globals) : option Globals :=
  AddToAllocationTable address (len *₆₄ sizeOfEntry) ori g.
Definition AddCallocToAllocationTable_state (address len sizeOfEntry ori : Z) (state : option sptr)
    (g : Globals) : option Globals :=
  AddToAllocationTable_state address (len *₆₄ sizeOfEntry) ori state g.

(** [RemoveFromAllocationTable], both versions *)
Definition RemoveFromAllocationTable_state (address : Z) (state : option sptr) (g : Globals)
    : option Globals :=
  in_runtime (fill_slot (λ e, set_eaffiliated state (set_ptr address (set_operation ALLOC_FREE e)))) g.
Definition RemoveFromAllocationTable (address : Z) (g : Globals) : option Globals :=
  in_runtime (λ g, fill_slot (λ e, set_eaffiliated (activeState g)
    (set_ptr address (set_operation ALLOC_FREE e))) g) g.

(** [HandleReallocInAllocationTable], both versions *)
Definition HandleReallocInAllocationTable (address newAddress len ori : Z) (g : Globals)
    : option Globals :=
  g ← RemoveFromAllocationTable address g; AddToAllocationTable newAddress len ori g.
Definition HandleReallocInAllocationTable_state (address newAddress len ori : Z) (state : option sptr)
    (g : Globals) : option Globals :=
  g ← RemoveFromAllocationTable_state address state g;
  AddToAllocationTable_state newAddress len ori state g.

(** [AddToEscapeTable] *)
Definition AddToEscapeTable (addressEscaping : Z) (g : Globals) : option Globals :=
  if trackCycles cfg then
    in_runtime (fill_slot (λ e, set_ptr addressEscaping (set_operation ESCAPE_ADD e))) g
  else Some g.

(** [FindCycleInAllocationMap], without and with a state *)
Definition FindCycleInAllocationMap_state (sync stateID : Z) (g : Globals) : option Globals :=
  g ← fill_slot (λ e, set_size stateID (set_operation DETECT_CYCLE (set_ptr sync e))) g;
  batchFull false g.
Definition FindCycleInAllocationMap (sync : Z) (g : Globals) : option Globals :=
  FindCycleInAllocationMap_state sync max_key g.

(** ** Regions *)

(** The search loop of [GetState]; an entry without a state is dereferenced. *)
Fixpoint find_state (m : gmap sptr State) (funcName : string) (lineNum : Z)
    (l : list (Z * option sptr)) : option (option sptr) :=
  match l with
  | [] => Some None
  | (_, p) :: l =>
      s ← p; st ← m !! s;
      if decide (functionName st = funcName ∧ lineNumber st = lineNum) then Some (Some s)
      else find_state m funcName lineNum l
  end.

(** The part of [GetState] under [stateReductionTracking]. *)
Definition measure_naive (s : sptr) (g : Globals) : option Globals :=
  table ← allocationMap g;
  naiveSize ← GetMemFootprint table (store g);
  Some (set_store (upd_state s (λ st, if decide (naiveStateSize st < naiveSize)
    then set_naiveStateSize naiveSize st else st) (store g)) g).

(** [GetState] *)
Definition GetState (funcName : string) (lineNum temporalTracking : Z) (g : Globals)
    : option (Globals * Z) :=
  found ← find_state (states (store g)) funcName lineNum (map_to_list (stateMap g));
  let '(g, s) :=
    match found with
    | Some s => (set_activeState (Some s) g, s)
    | None =>
        let s := Z.to_nat (currentStateID g) in
        let st := new_State funcName lineNum temporalTracking (currentStateID g) (activeState g) in
        let g := set_store (new_State_in s st (store g)) (set_activeState (Some s) g) in
        (set_stateMap (<[currentStateID g := Some s]> (stateMap g))
          (set_currentStateID (currentStateID g +₆₄ 1) g), s)
    end in
  g ← (if stateReductionTracking cfg then measure_naive s g else Some g);
  g ← fill_slot (λ e, set_statePtr (Some s) (set_operation STATE_BEGIN e)) g;
  st ← states (store g) !! s;
  Some (g, stateID st).

(** [EndState]; an identifier that is not the active one is only a debug
    message. *)
Definition EndState (stateID : Z) (g : Globals) : option (Globals * Z) :=
  match activeState g with
  | None => Some (g, 1)
  | Some s =>
      g ← fill_slot (λ e, set_statePtr (Some s) (set_operation STATE_END e)) g;
      st ← states (store g) !! s;
      Some (set_activeState (parent st) g, 0)
  end.

(** [EndStateInvocation] *)
Definition EndStateInvocation (stateID : Z) (g : Globals) : option (Globals * Z) :=
  match stateMap g !! stateID with
  | None => Some (g, max_key)
  | Some s =>
      g ← fill_slot (λ e, set_statePtr s (set_operation STATE_COMMIT e)) g;
      g ← batchFull false g;
      Some (g, 0)
  end.

(** ** Accesses *)

(** [AddToStateShadow]; [rw] is 0 for a read and 1 for a write. *)
Definition AddToStateShadow (allocPtr rw id : Z) (g : Globals) : option Globals :=
  fill_slot (λ e, set_information id (set_ptr allocPtr
    (set_operation (op_of_code (wrap64 (op_code STATE_ADD_READ + rw))) e))) g.

(** [AddToState] *)
Definition AddToState (allocPtr rw id : Z) (g : Globals) : option Globals :=
  in_runtime (λ g, match activeState g with
    | None => Some g
    | Some _ => AddToStateShadow allocPtr rw id g
    end) g.

(** [AddToStateMulti] *)
Definition AddToStateMulti (allocPtr1 allocPtr2 rw rw2 id : Z) (g : Globals) : option Globals :=
  g ← AddToState allocPtr1 rw id g;
  if decide (allocPtr2 ≠ 0) then AddToState allocPtr2 rw2 id g else Some g.

(** [AddRedundantOp] *)
Definition AddRedundantOp (g : Globals) : option Globals :=
  in_runtime (fill_slot (λ e, set_size 0 (set_ptr 0 (set_operation REDUNDANT (set_information 0 e))))) g.

(** [(char)stateToSet] stored in a [uint64_t]; [char] is signed. *)
Definition char_cast (z : Z) : Z :=
  let c := z mod 256 in if decide (c < 128) then c else wrap64 (c - 256).

(** [SetStateRegion]; [stateMap[stateID]] inserts a null state for an unknown
    identifier. *)
Definition SetStateRegion (startPtr lengthInBytes stateID class id : Z) (g : Globals) : option Globals :=
  in_runtime (λ g,
    '(g, i) ← getFreeSlot g;
    _ ← texasWorkEntries g !! i;
    let s := default None (stateMap g !! stateID) in
    let g := set_stateMap (match stateMap g !! stateID with
      | Some _ => stateMap g | None => <[stateID := None]> (stateMap g) end) g in
    Some (set_texasWorkEntries (alter (λ e, set_stateToSet (char_cast class)
      (set_size lengthInBytes (set_eaffiliated s (set_ptr startPtr
        (set_operation STATE_REGION_SET (set_information id e)))))) i (texasWorkEntries g)) g)) g.

(** ** Reporting *)

(** A loop over the states of [stateMap]. *)
Definition each_state (f : Runtime → State → option State) (g : Globals) : option Globals :=
  rt ← mfoldl (λ rt (e : Z * option sptr),
    s ← e.2; st ← states rt !! s; st' ← f rt st; Some (upd_state s (λ _, st') rt))
    (store g) (map_to_list (stateMap g));
  Some (set_store rt g).

(** [ReportStates] *)
Definition ReportStates (g : Globals) : option Globals :=
  each_state (λ rt st, r ← ReportState (stateReductionTracking cfg) rt st; Some r.2) g.

(** [ReportStatistics] *)
Definition ReportStatistics (g : Globals) : option Globals :=
  let newBatch := mkBatch (slotStart g) (texasWorkEntries g) (curBatchNumber g) in
  g ← serialProcessShadowBatch newBatch (set_curBatchNumber (curBatchNumber g +₆₄ 1) g);
  table ← allocationMap g;
  rt ← CommitStateInfoForAllocations table (store g);
  '(table, rt) ← (if trackCycles cfg then
      '(t, rt) ← GenerateConnectionGraph mem table rt;
      t ← FindCyclesInConnectionGraph strong_components rt (stateMap g) t;
      Some (t, rt)
    else Some (table, rt));
  g ← each_state (λ _ st, Some (CommitState st)) (set_allocationMap (Some table) (set_store rt g));
  g ← ReportStates g;
  Some (set_inRT true g).

(** ** What every call keeps *)

(** Everything but the regions' own contents. *)
Definition frame (g g' : Globals) : Prop :=
  same_parents (store g) (store g') ∧ activeState g' = activeState g ∧
  currentStateID g' = currentStateID g ∧ stateMap g' = stateMap g.

#[local] Instance frame_preorder : PreOrder frame.
Proof.
  split.
  - intros g. by split.
  - intros g1 g2 g3 (P1&?&?&?) (P2&?&?&?). split; [by etrans|]. split_and!; congruence.
Qed.

Lemma cleanBatch_parents rt old es rt' old' es' :
  cleanBatch cfg rt old es = Some (rt', old', es') → same_parents rt rt'.
Proof.
  unfold cleanBatch. intros H. apply bind_Some in H as ([[rt1 bs] es1] & Hc & H).
  apply bind_Some in H as (es2 & _ & [= <- _ _]). apply clean_entries_spec in Hc as [Hst _].
  intros s. rewrite Hst. destruct (states rt !! s) as [st|]; [|done]. simpl. f_equal.
  generalize (events (states rt) s old es). intros evs. revert st.
  induction evs as [|ev evs IH]; intros st; [done|]. simpl. by rewrite IH, fsa_parent.
Qed.

Lemma serialProcess_frame b g g' : serialProcessShadowBatch b g = Some g' → frame g g'.
Proof.
  unfold serialProcessShadowBatch, processShadowBatch. intros H. case_decide; [done|].
  apply bind_Some in H as ([[rt old] cl] & Hc & H). apply bind_Some in H as (t & _ & H).
  apply bind_Some in H as ([[[sh r] rt2] buf] & Hp & [= <-]).
  apply bind_Some in Hp as ([[sh1 rt1] buf1] & Hp & [= _ _ <- _]).
  split; [|done]. simpl. etrans; [by eapply cleanBatch_parents|]. by eapply process_range_parents.
Qed.

Lemma batchFull_frame c g g' : batchFull c g = Some g' → frame g g'.
Proof.
  unfold batchFull. intros H. apply bind_Some in H as (g1 & Hs & H).
  apply serialProcess_frame in Hs as (?&?&?&?).
  destruct (texasReadyBatchEntriesQueue g1); [done|]. by injection H as <-.
Qed.

Lemma getFreeSlot_frame g g' i : getFreeSlot g = Some (g', i) → frame g g'.
Proof.
  unfold getFreeSlot. intros H. apply bind_Some in H as (g1 & Hs & [= <- _]).
  assert (frame g g1) as (?&?&?&?) by (case_decide; [by eapply batchFull_frame|by injection Hs as <-]).
  done.
Qed.

Lemma fill_slot_frame f g g' : fill_slot f g = Some g' → frame g g'.
Proof.
  unfold fill_slot. intros H. apply bind_Some in H as ([g1 i] & Hs & H).
  apply bind_Some in H as (? & _ & [= <-]). apply getFreeSlot_frame in Hs as (?&?&?&?). done.
Qed.

Lemma measure_naive_frame s g g' : measure_naive s g = Some g' → frame g g'.
Proof.
  unfold measure_naive. intros H. apply bind_Some in H as (t & _ & H). apply bind_Some in H as (sz & _ & [= <-]).
  split; [|done]. simpl. apply same_parents_upd. intros st. by case_decide.
Qed.

Lemma clear_bytes_free n : clear_bytes n 0 = 0.
Proof. unfold clear_bytes. case_decide; [done|]. by rewrite Z.shiftr_0_l, Z.shiftl_0_l. Qed.

(** Clearing bytes of a free slot leaves a free slot. *)
Lemma memset_entry_free n e : eoperation e = FREE_SLOT → eoperation (memset_entry n e) = FREE_SLOT.
Proof. intros He. unfold memset_entry. cbn [eoperation]. rewrite He. change (op_code FREE_SLOT) with 0. by rewrite clear_bytes_free. Qed.

(** An operation all of whose bytes are cleared is that of a free slot. *)
Lemma memset_entry_clears n e : (8 <= n)%nat → eoperation (memset_entry n e) = FREE_SLOT.
Proof. intros Hn. unfold memset_entry, clear_bytes. cbn [eoperation]. rewrite decide_True by lia. done. Qed.

Lemma memset_zero_length n buf : List.length (memset_zero n buf) = List.length buf.
Proof. apply length_imap. Qed.

Lemma texas_init_frame g g' : texas_init g = Some g' → frame g g'.
Proof.
  unfold texas_init. destruct (allocationMap g); [by intros [= <-]|].
  destruct (malloc_buffer <$> seq 0 NUM_BATCHES) as [|buf ready]; [done|].
  intros H. apply bind_Some in H as (t & _ & [= <-]). done.
Qed.

Lemma in_runtime_frame body g g' :
  (∀ g g', body g = Some g' → frame g g') → in_runtime body g = Some g' → frame g g'.
Proof.
  intros Hb. unfold in_runtime. destruct (inRT g); [by intros [= <-]|].
  intros H. apply bind_Some in H as (g1 & H1 & H). apply bind_Some in H as (g2 & H2 & [= <-]).
  apply texas_init_frame in H1. apply Hb in H2.
  trans g1; [exact H1|]. trans g2; [exact H2|done].
Qed.

(** ** The invariant of the interface *)

Record globals_ok (g : Globals) : Prop := {
  gok_forest : states_wf (states (store g));
  gok_active : sptr_ok (states (store g)) (activeState g);
  gok_ids s : is_Some (states (store g) !! s) → Z.of_nat s < currentStateID g;
  gok_id : 0 <= currentStateID g;
  gok_map i s : stateMap g !! i = Some (Some s) → is_Some (states (store g) !! s);
}.

Lemma globals_ok_frame g g' : frame g g' → globals_ok g → globals_ok g'.
Proof.
  intros (Hp & Ha & Hi & Hm) [Hwf Hact Hids Hid Hmap].
  assert (∀ s, is_Some (states (store g') !! s) ↔ is_Some (states (store g) !! s)) as Hdom
    by (intros s; by apply sptr_live_parents).
  split; rewrite ?Ha, ?Hi, ?Hm; try done.
  - by eapply states_wf_parents.
  - by eapply sptr_ok_parents.
  - intros s. rewrite Hdom. apply Hids.
  - intros i s. rewrite Hdom. apply Hmap.
Qed.

Lemma find_state_Some m funcName lineNum l s :
  find_state m funcName lineNum l = Some (Some s) →
  ∃ i st, (i, Some s) ∈ l ∧ m !! s = Some st ∧ functionName st = funcName ∧ lineNumber st = lineNum.
Proof.
  induction l as [|[i p] l IH]; simpl; [done|]. intros H.
  apply bind_Some in H as (s1 & -> & H). apply bind_Some in H as (st & Hst & H).
  case_decide as Hd; [|destruct (IH H) as (i' & st' & ? & ?); exists i', st'; split; [by apply elem_of_cons; right|done]].
  injection H as ->. exists i, st. split; [apply elem_of_cons; by left|]. naive_solver.
Qed.

Lemma find_state_None m funcName lineNum l i s st :
  find_state m funcName lineNum l = Some None → (i, Some s) ∈ l → m !! s = Some st →
  ¬ (functionName st = funcName ∧ lineNumber st = lineNum).
Proof.
  induction l as [|[j p] l IH]; simpl; intros H Hin Hst; [by apply elem_of_nil in Hin|].
  apply bind_Some in H as (s1 & -> & H). apply bind_Some in H as (st1 & Hst1 & H).
  case_decide as Hd; [done|]. apply elem_of_cons in Hin as [[= -> ->]|Hin]; [by simplify_eq|eauto].
Qed.

(** The globals after [GetState] has found or created the region. *)
Definition enter_region (found : option sptr) (funcName : string) (lineNum temporalTracking : Z)
    (g : Globals) : Globals * sptr :=
  match found with
  | Some s => (set_activeState (Some s) g, s)
  | None =>
      let s := Z.to_nat (currentStateID g) in
      let st := new_State funcName lineNum temporalTracking (currentStateID g) (activeState g) in
      let g := set_store (new_State_in s st (store g)) (set_activeState (Some s) g) in
      (set_stateMap (<[currentStateID g := Some s]> (stateMap g))
        (set_currentStateID (currentStateID g +₆₄ 1) g), s)
  end.

(** The state [new_State_in] creates, and the parents of all states after it. *)
Lemma new_State_in_parents s st rt s' :
  states rt !! s = None → parent st ≠ Some s →
  parent <$> states (new_State_in s st rt) !! s' =
  if decide (s' = s) then Some (parent st) else parent <$> states rt !! s'.
Proof.
  intros Hfresh Hne. unfold new_State_in.
  assert (parent <$> (<[s := st]> (states rt)) !! s' =
    if decide (s' = s) then Some (parent st) else parent <$> states rt !! s') as E.
  { case_decide; [subst; by rewrite lookup_insert_eq|by rewrite lookup_insert_ne]. }
  destruct (parent st) as [p|] eqn:Ep; [|exact E].
  change (parent <$> states (upd_state p (λ ps, set_children ({[s]} ∪ children ps) ps)
    (set_states (<[s := st]> (states rt)) rt)) !! s' = if decide (s' = s) then Some (Some p) else parent <$> states rt !! s').
  rewrite (same_parents_upd p (λ ps, set_children ({[s]} ∪ children ps) ps)
    (set_states (<[s := st]> (states rt)) rt)); [exact E|done].
Qed.

Lemma globals_ok_fresh g : globals_ok g → states (store g) !! Z.to_nat (currentStateID g) = None.
Proof.
  intros Hok. apply eq_None_not_Some. intros H%(gok_ids _ Hok).
  pose proof (gok_id _ Hok). lia.
Qed.

Lemma enter_region_ok found funcName lineNum tt g :
  globals_ok g → currentStateID g < max_key →
  find_state (states (store g)) funcName lineNum (map_to_list (stateMap g)) = Some found →
  let '(g', s) := enter_region found funcName lineNum tt g in
  globals_ok g' ∧ activeState g' = Some s.
Proof.
  intros Hok Hlt Hfind. destruct found as [s|]; simpl.
  - split; [|done]. apply find_state_Some in Hfind as (i & st & _ & Hst & _).
    destruct Hok. split; try done. by eexists.
  - split; [|done]. pose proof (globals_ok_fresh g Hok) as Hfresh.
    pose proof (gok_id _ Hok) as Hid. set (s := Z.to_nat (currentStateID g)) in *.
    set (st := new_State funcName lineNum tt (currentStateID g) (activeState g)).
    assert (parent st ≠ Some s) as Hne.
    { intros E. simpl in E. pose proof (gok_active _ Hok) as Ha. rewrite E in Ha. simpl in Ha.
      rewrite Hfresh in Ha. by destruct Ha. }
    pose proof (new_State_in_parents s st (store g)) as Hp.
    assert (∀ s', is_Some (states (new_State_in s st (store g)) !! s') ↔ s' = s ∨ is_Some (states (store g) !! s')) as Hdom.
    { intros s'. specialize (Hp s' Hfresh Hne).
      destruct (states (new_State_in s st (store g)) !! s'), (states (store g) !! s'), (decide (s' = s));
        simpl in Hp; naive_solver. }
    assert (currentStateID g +₆₄ 1 = currentStateID g + 1) as E1.
    { apply add64_small. unfold max_key in Hlt. lia. }
    split; simpl; rewrite ?E1; [| | |lia|].
    + intros s' st' p Hs' Hpar. specialize (Hp s' Hfresh Hne). rewrite Hs' in Hp. simpl in Hp.
      case_decide as Hd.
      * injection Hp as Hp. rewrite Hpar in Hp. simpl in Hp. pose proof (gok_active _ Hok) as Ha.
        rewrite <- Hp in Ha. simpl in Ha. split; [|apply Hdom; by right].
        apply (gok_ids _ Hok) in Ha. subst s' s. lia.
      * destruct (states (store g) !! s') as [st0|] eqn:E0; [|done]. injection Hp as Hp.
        destruct (gok_forest _ Hok s' st0 p E0) as [? ?]; [congruence|].
        split; [done|]. apply Hdom. by right.
    + apply Hdom. by left.
    + intros s' Hs'. apply Hdom in Hs' as [->|Hs'%(gok_ids _ Hok)]; [subst s; lia|lia].
    + intros i s' Hi. apply Hdom. apply lookup_insert_Some in Hi as [[_ [= <-]]|[_ Hi]]; [by left|right].
      by apply (gok_map _ Hok i).
Qed.

Lemma GetState_inv funcName lineNum tt g g' id :
  GetState funcName lineNum tt g = Some (g', id) →
  ∃ found, find_state (states (store g)) funcName lineNum (map_to_list (stateMap g)) = Some found ∧
    frame (enter_region found funcName lineNum tt g).1 g' ∧
    ∃ st, states (store g') !! (enter_region found funcName lineNum tt g).2 = Some st ∧ id = stateID st.
Proof.
  unfold GetState. intros H. apply bind_Some in H as (found & Hf & H). exists found. split; [done|].
  fold (enter_region found funcName lineNum tt g) in H.
  destruct (enter_region found funcName lineNum tt g) as [g1 s]. simpl.
  apply bind_Some in H as (g3 & Hm & H).
  apply bind_Some in H as (g2 & Hfill & H). apply bind_Some in H as (st & Hst & [= -> <-]).
  split; [|by exists st].
  apply fill_slot_frame in Hfill. etrans; [|exact Hfill].
  destruct (stateReductionTracking cfg); [by eapply measure_naive_frame|by injection Hm as <-].
Qed.

(** ** The calls of the instrumented program *)

Inductive call : Globals → Globals → Prop :=
  | call_alloc a l o g g' : AddToAllocationTable a l o g = Some g' → call g g'
  | call_alloc_state a l o st g g' : AddToAllocationTable_state a l o st g = Some g' → call g g'
  | call_calloc a l n o g g' : AddCallocToAllocationTable a l n o g = Some g' → call g g'
  | call_calloc_state a l n o st g g' :
      AddCallocToAllocationTable_state a l n o st g = Some g' → call g g'
  | call_realloc a b l o g g' : HandleReallocInAllocationTable a b l o g = Some g' → call g g'
  | call_realloc_state a b l o st g g' :
      HandleReallocInAllocationTable_state a b l o st g = Some g' → call g g'
  | call_free a g g' : RemoveFromAllocationTable a g = Some g' → call g g'
  | call_free_state a st g g' : RemoveFromAllocationTable_state a st g = Some g' → call g g'
  | call_escape a g g' : AddToEscapeTable a g = Some g' → call g g'
  | call_cycles sync id g g' : FindCycleInAllocationMap_state sync id g = Some g' → call g g'
  | call_begin f l t g g' id : currentStateID g < max_key → GetState f l t g = Some (g', id) → call g g'
  | call_end id g g' r : EndState id g = Some (g', r) → call g g'
  | call_invocation id g g' r : EndStateInvocation id g = Some (g', r) → call g g'
  | call_access a rw id g g' : AddToState a rw id g = Some g' → call g g'
  | call_access2 a b rw rw2 id g g' : AddToStateMulti a b rw rw2 id g = Some g' → call g g'
  | call_redundant g g' : AddRedundantOp g = Some g' → call g g'
  | call_region a l i c id g g' : SetStateRegion a l i c id g = Some g' → call g g'.

Lemma alloc_frame a l o g g' : AddToAllocationTable a l o g = Some g' → frame g g'.
Proof.
  apply in_runtime_frame. clear. intros g g' H. apply bind_Some in H as ([g1 i] & Hs & H).
  apply bind_Some in H as (? & _ & [= <-]). apply getFreeSlot_frame in Hs as (?&?&?&?). done.
Qed.

Lemma alloc_state_frame a l o st g g' : AddToAllocationTable_state a l o st g = Some g' → frame g g'.
Proof. apply in_runtime_frame. intros ??. apply fill_slot_frame. Qed.

Lemma free_frame a g g' : RemoveFromAllocationTable a g = Some g' → frame g g'.
Proof. apply in_runtime_frame. intros ??. apply fill_slot_frame. Qed.

Lemma free_state_frame a st g g' : RemoveFromAllocationTable_state a st g = Some g' → frame g g'.
Proof. apply in_runtime_frame. intros ??. apply fill_slot_frame. Qed.

Lemma access_frame a rw id g g' : AddToState a rw id g = Some g' → frame g g'.
Proof.
  apply in_runtime_frame. clear. intros g g'. destruct (activeState g); [apply fill_slot_frame|].
  by intros [= <-].
Qed.

Lemma EndState_ok id g g' r : EndState id g = Some (g', r) → globals_ok g → globals_ok g'.
Proof.
  unfold EndState. intros H Hok. destruct (activeState g) as [s|]; [|by injection H as <- _].
  apply bind_Some in H as (g1 & Hf & H). apply bind_Some in H as (st & Hst & [= <- _]).
  apply fill_slot_frame in Hf. pose proof (globals_ok_frame _ _ Hf Hok) as Hok1. destruct Hok1.
  split; try done. simpl. destruct (parent st) as [p|] eqn:Ep; simpl; [|done].
  by destruct (gok_forest0 _ _ _ Hst Ep).
Qed.

Lemma SetStateRegion_ok a l i c id g g' :
  SetStateRegion a l i c id g = Some g' → globals_ok g → globals_ok g'.
Proof.
  unfold SetStateRegion, in_runtime. intros H Hok. destruct (inRT g); [by injection H as <-|].
  apply bind_Some in H as (g1 & H1 & H). apply bind_Some in H as (g2 & H2 & [= <-]).
  apply bind_Some in H2 as ([g3 k] & H3 & H2). apply bind_Some in H2 as (? & _ & [= <-]).
  apply texas_init_frame in H1. apply getFreeSlot_frame in H3.
  assert (globals_ok g3) as [] by (eapply globals_ok_frame; [exact H3|];
    eapply globals_ok_frame; [exact H1|]; by destruct Hok).
  split; try done. simpl. intros j s. destruct (stateMap g3 !! i) eqn:Ei; [apply gok_map0|].
  intros [[_ [=]]|[_ Hj]]%lookup_insert_Some. by eapply gok_map0.
Qed.

(** C12: the regions stay a forest.  Whatever sequence of calls the program
    makes, parents are older than their children and exist, the active region
    exists, identifiers are never reused, and [stateMap] leads only to existing
    regions (or to the null entries [SetStateRegion] leaves).  This is what the
    loops over the parents need in order to end. *)
Theorem calls_keep_forest g g' : globals_ok g → rtc call g g' → globals_ok g'.
Proof.
  intros Hok Hrtc. induction Hrtc as [g|g g1 g2 Hcall _ IH]; [done|]. apply IH. clear IH g2.
  destruct Hcall;
    try match goal with
    | H : AddToStateMulti _ _ _ _ _ _ = Some _ |- _ =>
        unfold AddToStateMulti in H; apply bind_Some in H as (g1 & H1 & H)
    | H : HandleReallocInAllocationTable _ _ _ _ _ = Some _ |- _ => apply bind_Some in H as (g1 & H1 & H)
    | H : HandleReallocInAllocationTable_state _ _ _ _ _ _ = Some _ |- _ =>
        apply bind_Some in H as (g1 & H1 & H)
    end.
  - by eapply globals_ok_frame; [eapply alloc_frame|].
  - by eapply globals_ok_frame; [eapply alloc_state_frame|].
  - by eapply globals_ok_frame; [eapply alloc_frame|].
  - by eapply globals_ok_frame; [eapply alloc_state_frame|].
  - eapply globals_ok_frame; [by eapply alloc_frame|]. by eapply globals_ok_frame; [eapply free_frame|].
  - eapply globals_ok_frame; [by eapply alloc_state_frame|].
    by eapply globals_ok_frame; [eapply free_state_frame|].
  - by eapply globals_ok_frame; [eapply free_frame|].
  - by eapply globals_ok_frame; [eapply free_state_frame|].
  - unfold AddToEscapeTable in H. destruct (trackCycles cfg); [|by injection H as <-].
    eapply globals_ok_frame; [|done]. eapply in_runtime_frame; [|done]. intros ??. apply fill_slot_frame.
  - apply bind_Some in H as (g1 & H1 & H). eapply globals_ok_frame; [by eapply batchFull_frame|].
    by eapply globals_ok_frame; [eapply fill_slot_frame|].
  - apply GetState_inv in H0 as (found & Hf & Hfr & _).
    pose proof (enter_region_ok found f l t g Hok H Hf) as He.
    destruct (enter_region found f l t g) as [g1 s]. by eapply globals_ok_frame, He.
  - by eapply EndState_ok.
  - unfold EndStateInvocation in H. destruct (stateMap g !! id); [|by injection H as <- _].
    apply bind_Some in H as (g1 & H1 & H). apply bind_Some in H as (g2 & H2 & [= <- _]).
    eapply globals_ok_frame; [by eapply batchFull_frame|]. by eapply globals_ok_frame; [eapply fill_slot_frame|].
  - by eapply globals_ok_frame; [eapply access_frame|].
  - case_decide; [|injection H as <-; by eapply globals_ok_frame; [eapply access_frame|]].
    eapply globals_ok_frame; [by eapply access_frame|]. by eapply globals_ok_frame; [eapply access_frame|].
  - eapply globals_ok_frame; [|done]. eapply in_runtime_frame; [|done]. intros ??. apply fill_slot_frame.
  - by eapply SetStateRegion_ok.
Qed.

(** Leaving a region that was just created returns to the region around
    it.  If the region did not exist, [GetState] makes it a child of the active
    region, and the matching [EndState] makes that one active again, even if a
    batch was processed in between. *)
Theorem GetState_EndState_restores funcName lineNum tt g g1 id id' g2 r :
  globals_ok g → currentStateID g < max_key →
  find_state (states (store g)) funcName lineNum (map_to_list (stateMap g)) = Some None →
  GetState funcName lineNum tt g = Some (g1, id) → EndState id' g1 = Some (g2, r) →
  activeState g1 = Some (Z.to_nat (currentStateID g)) ∧ r = 0 ∧ activeState g2 = activeState g.
Proof.
  intros Hok Hlt Hfind HG HE. apply GetState_inv in HG as (found & Hf & (Hp1 & Ha1 & _) & _).
  rewrite Hfind in Hf. injection Hf as <-. simpl in Hp1, Ha1. split; [done|].
  unfold EndState in HE. rewrite Ha1 in HE. apply bind_Some in HE as (g3 & Hfill & HE).
  apply bind_Some in HE as (st & Hst & [= <- <-]). split; [done|]. simpl.
  apply fill_slot_frame in Hfill as (Hp3 & _). pose proof (globals_ok_fresh g Hok) as Hfresh.
  set (s := Z.to_nat (currentStateID g)) in *.
  specialize (Hp3 s). specialize (Hp1 s). rewrite Hst, Hp1 in Hp3.
  rewrite new_State_in_parents in Hp3; [|done|].
  - rewrite decide_True in Hp3 by done. by injection Hp3.
  - simpl. intros E. pose proof (gok_active _ Hok) as Ha. rewrite E in Ha. simpl in Ha.
    rewrite Hfresh in Ha. by destruct Ha.
Qed.

(** A region that is entered again from elsewhere.  [GetState] finds a
    region by function name and line and makes it active without changing its
    parent, so the matching [EndState] activates the region it was first created
    in, not the one that was active before: from then on accesses are attributed
    to the wrong region. *)
Theorem GetState_EndState_reentry funcName lineNum tt g g1 id id' g2 r s st :
  find_state (states (store g)) funcName lineNum (map_to_list (stateMap g)) = Some (Some s) →
  states (store g) !! s = Some st →
  GetState funcName lineNum tt g = Some (g1, id) → EndState id' g1 = Some (g2, r) →
  activeState g1 = Some s ∧ activeState g2 = parent st.
Proof.
  intros Hfind Hs HG HE. apply GetState_inv in HG as (found & Hf & (Hp1 & Ha1 & _) & _).
  rewrite Hfind in Hf. injection Hf as <-. simpl in Hp1, Ha1. split; [done|].
  unfold EndState in HE. rewrite Ha1 in HE. apply bind_Some in HE as (g3 & Hfill & HE).
  apply bind_Some in HE as (st' & Hst & [= <- <-]). simpl.
  apply fill_slot_frame in Hfill as (Hp3 & _).
  specialize (Hp3 s). specialize (Hp1 s). rewrite Hst, Hp1, Hs in Hp3. by injection Hp3.
Qed.

Lemma mfoldl_crash {A B} (f : B → A → option B) b l x :
  x ∈ l → (∀ b, f b x = None) → mfoldl f b l = None.
Proof.
  intros Hx Hf. revert b. induction l as [|y l IH]; intros b; [by apply elem_of_nil in Hx|].
  simpl. apply elem_of_cons in Hx as [<-|Hx]; [by rewrite Hf|].
  destruct (f b y) as [b'|]; simpl; [by apply IH|done].
Qed.

Lemma find_state_poisoned m funcName lineNum l i :
  (i, None) ∈ l →
  (∀ s st, m !! s = Some st → ¬ (functionName st = funcName ∧ lineNumber st = lineNum)) →
  find_state m funcName lineNum l = None.
Proof.
  intros Hin Hno. induction l as [|[j p] l IH]; simpl; [by apply elem_of_nil in Hin|].
  apply elem_of_cons in Hin as [[= <- <-]|Hin]; [done|].
  destruct p as [s|]; simpl; [|done]. destruct (m !! s) as [st|] eqn:Es; simpl; [|done].
  rewrite decide_False by (by eapply Hno). by apply IH.
Qed.

(** Setting the class of a range for an unknown region.  [SetStateRegion]
    reads [stateMap[stateID]], which inserts a null state for an identifier
    that was never handed out; afterwards the report of the states, and every
    [GetState] for a region that does not exist yet, dereference it. *)
Theorem SetStateRegion_unknown_poisons a l i c id g g' :
  inRT g = false → stateMap g !! i = None →
  SetStateRegion a l i c id g = Some g' →
  stateMap g' !! i = Some None ∧ ReportStates g' = None ∧
  ∀ funcName lineNum tt,
    (∀ s st, states (store g') !! s = Some st →
      ¬ (functionName st = funcName ∧ lineNumber st = lineNum)) →
    GetState funcName lineNum tt g' = None.
Proof.
  intros Hrt Hi H. assert (stateMap g' !! i = Some None) as Hnull.
  { unfold SetStateRegion, in_runtime in H. rewrite Hrt in H.
    apply bind_Some in H as (g1 & H1 & H). apply bind_Some in H as (g2 & H2 & [= <-]).
    apply bind_Some in H2 as ([g3 k] & H3 & H2). apply bind_Some in H2 as (? & _ & [= <-]).
    apply texas_init_frame in H1 as (_ & _ & _ & M1). apply getFreeSlot_frame in H3 as (_ & _ & _ & M3).
    simpl in M1. simpl. rewrite M3, M1, Hi. apply lookup_insert_eq. }
  assert ((i, None) ∈ map_to_list (stateMap g')) as Hin by (by apply elem_of_map_to_list).
  split; [done|]. split.
  - unfold ReportStates, each_state. by erewrite mfoldl_crash.
  - intros funcName lineNum tt Hno. unfold GetState. by erewrite find_state_poisoned.
Qed.

Lemma clean_entries_length rt old es rt' old' es' :
  clean_entries cfg rt old es = Some (rt', old', es') → List.length es' = List.length es.
Proof.
  revert rt old rt' old' es'. induction es as [|e es IH]; intros rt old rt' old' es'; simpl.
  { by intros [= _ _ <-]. }
  intros H. apply bind_Some in H as ([[rt1 bs1] e1] & _ & H).
  apply bind_Some in H as ([[rt2 bs2] es2] & Hes & [= _ _ <-]). simpl. by rewrite (IH _ _ _ _ _ Hes).
Qed.

Lemma cleanBatch_length rt old es rt' old' es' :
  cleanBatch cfg rt old es = Some (rt', old', es') → List.length es' = List.length es.
Proof.
  unfold cleanBatch. intros H. apply bind_Some in H as ([[rt1 bs] es1] & Hc & H).
  apply bind_Some in H as (es2 & Hm & [= _ _ <-]). rewrite <- (clean_entries_length _ _ _ _ _ _ Hc).
  symmetry. by apply Forall2_length with (P := λ e e', reassign_entry cfg rt1 e = Some e'), mapM_Some_1.
Qed.

(** A full batch is processed past its end.  The worker's range is
    [0 .. numEntries] with both ends included; when the batch fills its buffer,
    as every batch cut by [getFreeSlot] does, the last round reads the entry
    behind the buffer. *)
Theorem serialProcess_full_batch_out_of_bounds b g :
  numEntries b = List.length (shadowEntries b) → serialProcessShadowBatch b g = None.
Proof.
  intros Hn. unfold serialProcessShadowBatch. rewrite decide_False by lia.
  destruct (cleanBatch _ _ _ _) as [[[rt old] cl]|] eqn:Hc; [|done]. cbn [mbind option_bind].
  destruct (allocationMap g) as [t|]; [|done]. cbn [mbind option_bind].
  apply cleanBatch_length in Hc. rewrite length_take in Hc.
  unfold processShadowBatch. rewrite process_range_out; [done| |lia].
  rewrite length_app, length_drop. lia.
Qed.

(** A batch that does not fill its buffer is processed one entry too far.
    The worker handles the cleaned entries of the batch, and then the entry that
    an earlier use of the buffer left in the next slot: an allocation that was
    freed since, say, is added again. *)
Theorem serialProcess_replays_stale_entry b g rt old cl t stale :
  shadowEntries b !! numEntries b = Some stale →
  cleanBatch cfg (store g) (oldState g) (take (numEntries b) (shadowEntries b)) = Some (rt, old, cl) →
  allocationMap g = Some t →
  serialProcessShadowBatch b g =
    '(sh, rt, buf) ← process_range mem strong_components cfg (stateMap g) (numEntries b) 0
      (cl ++ drop (numEntries b) (shadowEntries b)) (new_Shadow t false) rt;
    '(sh, rt, e) ← process_entry mem strong_components cfg (stateMap g) stale sh rt;
    Some (set_readyQueue (texasReadyBatchEntriesQueue g ++ [<[numEntries b := e]> buf])
      (set_allocationMap (Some (localAllocationTable sh)) (set_oldState old (set_store rt g)))).
Proof.
  intros Hst Hc Ht. pose proof (lookup_lt_Some _ _ _ Hst) as Hlt.
  unfold serialProcessShadowBatch. rewrite decide_False by lia. rewrite Hc, Ht. cbn [mbind option_bind].
  apply cleanBatch_length in Hc. rewrite length_take in Hc.
  unfold processShadowBatch. replace (S (numEntries b) - 0)%nat with (S (numEntries b)) by lia.
  change (clear_overflow (new_Shadow t false)) with (new_Shadow t false).
  rewrite process_range_snoc. cbn [Nat.add].
  destruct (process_range mem strong_components cfg (stateMap g) (numEntries b) 0
    (cl ++ drop (numEntries b) (shadowEntries b)) (new_Shadow t false) rt)
    as [[[sh1 rt1] buf1]|] eqn:Hp; [|done]. cbn [mbind option_bind].
  rewrite (process_range_beyond _ _ _ _ _ _ _ _ _ _ _ _ (numEntries b) Hp) by lia.
  rewrite lookup_app_r by lia. rewrite lookup_drop.
  replace (numEntries b + (numEntries b - List.length cl))%nat with (numEntries b) by lia.
  rewrite Hst. cbn [mbind option_bind].
  by destruct (process_entry mem strong_components cfg (stateMap g) stale sh1 rt1) as [[[sh2 rt2] e2]|].
Qed.
End texas.

(** ** Witnesses *)

(** A window of 8 entries, 4 buffers, no memory, no cycles. *)
Definition demo_buffer (n : nat) : list shadowEntry := replicate 8 (mkEntry FREE_SLOT 0 (Size 0) 0 None 0).
Definition demo_mem (p : Z) : Z := 0.
Definition demo_scc (g : graph_t) : list nat := seq 0 (List.length (vertices g)).
Definition empty_globals : Globals :=
  mkGlobals (mkRuntime ∅ 1 ∅ ∅ 1) None false None 0 ∅ None 0 [] [] 0.

Notation texas f := (f 8%nat 4%nat default_config demo_mem demo_scc demo_buffer) (only parsing).
Notation texas0 f := (f 8%nat default_config demo_mem demo_scc) (only parsing).

Definition started : option Globals := texas_init 8 4 demo_buffer empty_globals.

(** A block of 24 bytes; a region that reads and then writes its offset 4. *)
Definition session : option Globals :=
  g ← started;
  g ← texas AddToAllocationTable 4096 24 1 g;
  '(g, id) ← texas0 GetState "main" 1 0 g;
  g ← texas AddToState 4100 0 7 g;
  g ← texas AddToState 4100 1 8 g;
  '(g, _) ← texas0 EndState id g;
  '(g, _) ← texas0 EndStateInvocation id g;
  Some g.

(** The offset ends up in the committed IO set of the region, with both uses. *)
Example session_reports :
  (g ← session; st ← states (store g) !! 0%nat;
   Some (map_to_list (IO (final_sets st)), map_to_list (Input (final_sets st)),
         map_to_list (allocationInfo st), activeState g)) =
  Some ([(2%positive, {[ 4 ]})], [], [(2%positive, {[ 7; 8 ]})], None).
Proof. vm_compute. reflexivity. Qed.

Lemma empty_globals_ok : globals_ok empty_globals.
Proof.
  constructor.
  - intros s st p Hs. simpl in Hs. by rewrite lookup_empty in Hs.
  - done.
  - intros s [st Hs]. simpl in Hs. by rewrite lookup_empty in Hs.
  - done.
  - intros i s Hi. simpl in Hi. by rewrite lookup_empty in Hi.
Qed.

Lemma calls_keep_forest_witness :
  ∃ g0 g1 id, started = Some g0 ∧ texas0 GetState "main" 1 0 g0 = Some (g1, id) ∧ globals_ok g1.
Proof.
  destruct started as [g0|] eqn:E0; [|vm_compute in E0; discriminate].
  destruct (texas0 GetState "main" 1 0 g0) as [[g1 id]|] eqn:E1;
    [|vm_compute in E0; injection E0 as <-; vm_compute in E1; discriminate].
  exists g0, g1, id. split; [done|]. split; [done|].
  apply (calls_keep_forest 8 4 default_config demo_mem demo_scc demo_buffer g0 g1).
  - apply (globals_ok_frame empty_globals g0); [|apply empty_globals_ok].
    exact (texas_init_frame 8 4 demo_buffer empty_globals g0 E0).
  - apply rtc_once. eapply call_begin; [|exact E1].
    vm_compute in E0. injection E0 as <-. done.
Defined.

Lemma GetState_EndState_restores_witness :
  ∃ g0 g1 id g2 r, started = Some g0 ∧ texas0 GetState "main" 1 0 g0 = Some (g1, id) ∧
    texas0 EndState id g1 = Some (g2, r) ∧ activeState g1 = Some 0%nat ∧ activeState g2 = None.
Proof.
  destruct started as [g0|] eqn:E0; [|vm_compute in E0; discriminate].
  destruct (texas0 GetState "main" 1 0 g0) as [[g1 id]|] eqn:E1;
    [|vm_compute in E0; injection E0 as <-; vm_compute in E1; discriminate].
  destruct (texas0 EndState id g1) as [[g2 r]|] eqn:E2;
    [|vm_compute in E0; injection E0 as <-; vm_compute in E1; injection E1 as <- <-;
      vm_compute in E2; discriminate].
  destruct (GetState_EndState_restores 8 default_config demo_mem demo_scc "main" 1 0 g0 g1 id id g2 r)
    as (Ha & _ & Hb); [| | |exact E1|exact E2|].
  - apply (globals_ok_frame empty_globals g0); [|apply empty_globals_ok].
    exact (texas_init_frame 8 4 demo_buffer empty_globals g0 E0).
  - vm_compute in E0. injection E0 as <-. done.
  - vm_compute in E0. injection E0 as <-. reflexivity.
  - exists g0, g1, id, g2, r. do 3 (split; [done|]). clear E1 E2.
    vm_compute in E0. injection E0 as <-. by split.
Defined.

(** Region "a" is created within "main"; then "b" within "main", and "a" again
    from within "b". *)
Definition nested : option Globals :=
  g ← started;
  '(g, _) ← texas0 GetState "main" 1 0 g;
  '(g, _) ← texas0 GetState "a" 2 0 g;
  '(g, _) ← texas0 EndState 1 g;
  '(g, _) ← texas0 GetState "b" 3 0 g;
  Some g.

Lemma GetState_EndState_reentry_witness :
  ∃ g g1 id g2 r, nested = Some g ∧ activeState g = Some 2%nat ∧
    texas0 GetState "a" 2 0 g = Some (g1, id) ∧ texas0 EndState id g1 = Some (g2, r) ∧
    activeState g2 = Some 0%nat.
Proof.
  destruct nested as [g|] eqn:E0; [|vm_compute in E0; discriminate].
  destruct (texas0 GetState "a" 2 0 g) as [[g1 id]|] eqn:E1;
    [|vm_compute in E0; injection E0 as <-; vm_compute in E1; discriminate].
  destruct (texas0 EndState id g1) as [[g2 r]|] eqn:E2;
    [|vm_compute in E0; injection E0 as <-; vm_compute in E1; injection E1 as <- <-;
      vm_compute in E2; discriminate].
  destruct (states (store g) !! 1%nat) as [st|] eqn:Es;
    [|vm_compute in E0; injection E0 as <-; vm_compute in Es; discriminate].
  destruct (GetState_EndState_reentry 8 default_config demo_mem demo_scc "a" 2 0 g g1 id id g2 r 1 st)
    as (_ & Hb); [|exact Es|exact E1|exact E2|].
  - vm_compute in E0. injection E0 as <-. reflexivity.
  - exists g, g1, id, g2, r. split; [done|]. split; [vm_compute in E0; injection E0 as <-; done|].
    split; [done|]. split; [done|]. rewrite Hb. clear E1 E2 Hb.
    vm_compute in E0. injection E0 as <-. vm_compute in Es. injection Es as <-. done.
Defined.

Lemma SetStateRegion_unknown_poisons_witness :
  ∃ g g', started = Some g ∧ texas SetStateRegion 4096 16 5 7 1 g = Some g' ∧
    ReportStates default_config g' = None.
Proof.
  destruct started as [g|] eqn:E0; [|vm_compute in E0; discriminate].
  destruct (texas SetStateRegion 4096 16 5 7 1 g) as [g'|] eqn:E1;
    [|vm_compute in E0; injection E0 as <-; vm_compute in E1; discriminate].
  destruct (SetStateRegion_unknown_poisons 8 4 default_config demo_mem demo_scc demo_buffer
    4096 16 5 7 1 g g') as (_ & H & _); [| |exact E1|by exists g, g'].
  - vm_compute in E0. injection E0 as <-. reflexivity.
  - vm_compute in E0. injection E0 as <-. reflexivity.
Defined.

Lemma serialProcess_full_batch_out_of_bounds_witness :
  serialProcessShadowBatch default_config demo_mem demo_scc (mkBatch 8 (demo_buffer 0) 0) empty_globals = None.
Proof.
  apply (serialProcess_full_batch_out_of_bounds default_config demo_mem demo_scc
    (mkBatch 8 (demo_buffer 0) 0) empty_globals eq_refl).
Defined.

(** A batch of one redundant entry in a buffer that once held an allocation of
    32 bytes at 12288: the block is added again. *)
Definition stale_buffer : list shadowEntry :=
  [mkEntry REDUNDANT 0 (Size 0) 0 None 0; mkEntry ALLOC_ADD 12288 (Size 32) 0 None 9].

Lemma serialProcess_replays_stale_entry_witness :
  ∃ g g', started = Some g ∧
    serialProcessShadowBatch default_config demo_mem demo_scc (mkBatch 1 stale_buffer 0) g = Some g' ∧
    (t ← allocationMap g'; findAllocation t (store g') 12300) = Some (Some 2%positive).
Proof.
  destruct started as [g|] eqn:E0; [|vm_compute in E0; discriminate].
  destruct (allocationMap g) as [t|] eqn:Et;
    [|vm_compute in E0; injection E0 as <-; vm_compute in Et; discriminate].
  assert (cleanBatch default_config (store g) (oldState g) (take 1 stale_buffer) =
    Some (store g, oldState g, take 1 stale_buffer)) as Hc by reflexivity.
  pose proof (serialProcess_replays_stale_entry default_config demo_mem demo_scc
    (mkBatch 1 stale_buffer 0) g _ _ _ t (mkEntry ALLOC_ADD 12288 (Size 32) 0 None 9)
    eq_refl Hc Et) as H.
  destruct (serialProcessShadowBatch default_config demo_mem demo_scc (mkBatch 1 stale_buffer 0) g)
    as [g'|] eqn:Es.
  - exists g, g'. split; [done|]. split; [done|]. clear Hc Es.
    vm_compute in E0. injection E0 as <-. vm_compute in Et. injection Et as <-.
    vm_compute in H. injection H as ->. vm_compute. reflexivity.
  - exfalso. clear Hc Es. vm_compute in E0. injection E0 as <-. vm_compute in Et. injection Et as <-.
    vm_compute in H. discriminate.
Defined.
