(* ===== verification/Session.v ===== *)
(** * Session.v: from the calls of a program to the sets of a region

    The components of the run time together, on the pattern the regression tests
    follow: the program allocates blocks, runs a region a number of times, accesses
    memory in it, and ends the context of the region ([EndStateInvocation]), as often
    as it likes.  Each context is one batch: Batch.v writes its entries, CleanBatch.v
    classifies them, Shadow.v records them on the blocks, Commit.v moves them into the
    final sets of the region.  A batch is a buffer from [malloc] of which only the
    slots that are filled are known; there are as many contexts as buffers at most. *)

From S2P Require Import Prelude Helpers OrdMap Objects AllocTable ConnGraph Commit CleanBatch Shadow Batch.

(** ** Programs *)

Record block := MkBlock { b_address : Z; b_length : Z; b_origin : Z }.

(** An access: address and direction, and the identifier it is reported under. *)
Notation access := (Z * bool * Z)%type (only parsing).

(** What is allocated in front of the invocations of a context, and the accesses of
    each invocation. *)
Record context := MkContext { c_blocks : list block; c_invocations : list (list access) }.

#[global] Instance block_eq_dec : EqDecision block.
Proof. solve_decision. Defined.

(** The entry past all blocks. *)
Definition sentinel : block := MkBlock max_key 0 0.

Definition bcovers (b : block) (v : Z) : Prop := v = b_address b ∨ in_block (b_address b) (b_length b) v.

(** ** Processing the entries of a batch *)

Section process.
  Context (mem : Z → Z) (strong_components : graph_t → list nat) (cfg : config) (stateMap : gmap Z (option sptr)).

Notation process := (process_overflow mem strong_components cfg stateMap).
Notation process1 := (process_entry mem strong_components cfg stateMap).

(** The loop over the buffer does what the loop over a list does. *)
Lemma process_range_list n i buf sh rt sh' rt' :
  process (take n (drop i buf)) sh rt = Some (sh', rt') → (i + n <= List.length buf)%nat →
  ∃ buf', process_range mem strong_components cfg stateMap n i buf sh rt = Some (sh', rt', buf').
Proof.
  revert i buf sh rt. induction n as [|n IH]; intros i buf sh rt H Hle.
  { cbn in H. injection H as -> ->. by exists buf. }
  destruct (lookup_lt_is_Some_2 buf i) as [e He]; [lia|]. rewrite (drop_S _ _ _ He) in H. cbn [process_range].
  rewrite He. cbn [mbind option_bind]. cbn [take] in H. unfold process_overflow in H. cbn [mfoldl fst snd] in H.
  apply bind_Some in H as ([sh1 rt1] & H1 & H). apply bind_Some in H1 as ([[sh2 rt2] e2] & H1 & [= <- <-]).
  rewrite H1. cbn [mbind option_bind fst snd] in *. apply IH; [|rewrite length_insert; lia].
  rewrite drop_insert_lt by lia. exact H.
Qed.

Lemma process_app l1 l2 sh rt : process (l1 ++ l2) sh rt = '(sh, rt) ← process l1 sh rt; process l2 sh rt.
Proof. unfold process_overflow. rewrite mfoldl_app. by destruct (mfoldl _ (sh, rt) l1) as [[sh1 rt1]|]. Qed.

Lemma process_cons e l sh rt : process (e :: l) sh rt = '(sh, rt, _) ← process1 e sh rt; process l sh rt.
Proof. unfold process_overflow. cbn [mfoldl fst snd]. by destruct (process1 e sh rt) as [[[sh1 rt1] e1]|]. Qed.

(** ** The blocks in the table

    [bs]: the objects of the blocks; the entry past all blocks is one of them. *)
Record heap (t : AllocationTable) (rt : Runtime) (bs : list (aptr * block)) : Prop := {
  hp_table : table_ok t rt;
  hp_masks : maskLengths t = [];
  hp_entries k a : (k, a) ∈ table_entries t ↔ ∃ b, (a, b) ∈ bs ∧ k = b_address b;
  hp_block a b : (a, b) ∈ bs → ∃ ob, allocs rt !! a = Some ob ∧ pointer ob = b_address b ∧ length ob = b_length b ∧ alloc_ok rt ob;
  hp_fresh a : (next_alloc rt <= a)%positive → allocs rt !! a = None;
  hp_origin o a : originToAllocMap rt !! o = Some a → ∃ b, (a, b) ∈ bs ∧ b_origin b = o;
  hp_unique a b b' : (a, b) ∈ bs → (a, b') ∈ bs → b = b';
}.

(** A block that can be allocated next to [bs]. *)
Record placed (bs : list block) (b : block) : Prop := {
  pl_low : 0 <= b_address b;
  pl_length : 0 < b_length b;
  pl_high : b_address b + b_length b <= max_key;
  pl_apart b' : b' ∈ bs →
    (b_address b' < b_address b ∧ b_address b' + b_length b' <= b_address b) ∨ b_address b + b_length b <= b_address b';
  pl_origin b' : b' ∈ bs → b_origin b' ≠ b_origin b;
}.

(** What is recorded on the objects. *)
Definition rec (rt : Runtime) (a : aptr) (s : sptr) (o : operation) (v : Z) : Prop :=
  is_class o ∧ ∃ ob, allocs rt !! a = Some ob ∧ recorded ob s o v.

Definition is_alloc_entry (b : block) (e : shadowEntry) : Prop :=
  eoperation e = ALLOC_ADD ∧ ptr e = b_address b ∧ get_size e = Some (b_length b) ∧ information e = b_origin b ∧ eaffiliatedState e = None.

(** An object with the given block and nothing recorded fits. *)
Lemma placed_fits t rt bs b e : heap t rt bs → placed bs.*2 b → is_alloc_entry b e →
  originToAllocMap rt !! information e = None ∧ allocs rt !! next_alloc rt = None ∧
  insert_fits t (fresh_store e (b_length b) rt) (ptr e) (next_alloc rt) (new_Allocation (ptr e) (b_length b) (information e)).
Proof.
  intros Hh Hp (_ & Hptr & _ & Hori & _).
  assert (originToAllocMap rt !! information e = None) as Ho.
  { apply eq_None_not_Some. intros [a Ha]. destruct (hp_origin _ _ _ Hh _ _ Ha) as (b' & Hin & E).
    rewrite Hori in E. by destruct (pl_origin _ _ Hp b'); [apply list_elem_of_fmap; by exists (a, b')|]. }
  assert (allocs rt !! next_alloc rt = None) as Hf by (by apply (hp_fresh _ _ _ Hh)).
  split; [done|]. split; [done|].
  assert (allocs (fresh_store e (b_length b) rt) !! next_alloc rt = Some (new_Allocation (ptr e) (b_length b) (information e))) as Hnew.
  { unfold fresh_store, alloc_object. rewrite Ho. simpl. by rewrite lookup_insert_eq. }
  destruct Hp as [H1 H2 H3 H4 _]. split; [done| | |].
  - exists (new_Allocation (ptr e) (b_length b) (information e)). split; [exact Hnew|]. simpl. rewrite Hptr. lia.
  - intros [k a] Hin. apply (hp_entries _ _ _ Hh) in Hin as (b' & Hb' & ->). destruct (hp_block _ _ _ Hh _ _ Hb') as (ob & Hob & _ & Hlen & _).
    destruct (tok_entry _ _ (hp_table _ _ _ Hh) (b_address b', a)) as (ob' & Hob' & _ & Hpos & _); [apply (hp_entries _ _ _ Hh); by exists b'|].
    simpl in Hob'. rewrite Hob in Hob'. injection Hob' as <-. rewrite Hlen in Hpos.
    assert (a ≠ next_alloc rt) as Hne by congruence. simpl. rewrite Hptr. destruct (H4 b') as [Hap|Hap]; [apply list_elem_of_fmap; by exists (a, b')| |].
    + split; [lia|]. split; intros ob'; simpl; [rewrite fresh_store_allocs by done; rewrite Hob; intros [= <-]; lia|].
      rewrite Hnew. intros [= <-]. simpl. lia.
    + split; [lia|]. split; intros ob'; simpl; [rewrite fresh_store_allocs by done; rewrite Hob; intros [= <-]; lia|].
      rewrite Hnew. intros [= <-]. simpl. lia.
  - rewrite (hp_masks _ _ _ Hh). by intros ?%elem_of_nil.
Qed.
(** An allocation entry adds its block. *)
Lemma process_alloc t rt bs b e sh : localAllocationTable sh = t → heap t rt bs → placed bs.*2 b → is_alloc_entry b e →
  ∃ sh' rt', process1 e sh rt = Some (sh', rt', e) ∧ hasLeft sh' = hasLeft sh ∧
    heap (localAllocationTable sh') rt' (bs ++ [(next_alloc rt, b)]) ∧ states rt' = states rt ∧
    ∀ a s o v, rec rt' a s o v ↔ rec rt a s o v.
Proof.
  intros <- Hh Hp He. destruct (placed_fits _ _ _ _ _ Hh Hp He) as (Ho & Hf & Hfit).
  destruct He as (Hop & Hptr & Hsize & Hori & Haff). set (a := next_alloc rt) in *.
  set (ob := new_Allocation (ptr e) (b_length b) (information e)) in *. set (rt1 := fresh_store e (b_length b) rt) in *.
  pose proof (table_ok_fresh _ e (b_length b) _ (hp_table _ _ _ Hh) Ho Hf) as Hok1. fold rt1 in Hok1.
  destruct (InsertAllocation (ptr e) a rt1 (localAllocationTable sh)) as [t|] eqn:Hins.
  2:{ unfold InsertAllocation in Hins. by rewrite (fit_alloc _ _ _ _ _ Hfit) in Hins. }
  pose proof (InsertAllocation_ok _ _ _ _ _ _ Hok1 Hfit Hins) as Hok2.
  set (rt2 := upd_alloc a (set_affiliatedState None) rt1).
  assert (process1 e sh rt = Some (set_table t sh, rt2, e)) as ->.
  { unfold process_entry. rewrite Hop. unfold processAddAlloc. rewrite Hsize. cbn [mbind option_bind].
    assert (alloc_object e (b_length b) rt = (a, rt1)) as -> by (unfold rt1, fresh_store, alloc_object; by rewrite Ho).
    rewrite Hins, Haff. done. }
  assert (allocs rt2 !! a = Some ob) as Hnew by (simpl; by rewrite lookup_alter_eq, (fit_alloc _ _ _ _ _ Hfit)).
  assert (∀ a', a' ≠ a → allocs rt2 !! a' = allocs rt !! a') as Hold.
  { intros a' Hne. simpl. rewrite lookup_alter_ne by done. by apply fresh_store_allocs. }
  assert (states rt2 = states rt) as Est by (simpl; unfold rt1, fresh_store, alloc_object; by rewrite Ho).
  assert (next_alloc rt2 = Pos.succ a) as Enext by (simpl; unfold rt1, fresh_store, alloc_object; by rewrite Ho).
  assert (originToAllocMap rt2 = <[information e := a]> (originToAllocMap rt)) as Eori
    by (simpl; unfold rt1, fresh_store, alloc_object; by rewrite Ho).
  assert (∀ b', (a, b') ∉ bs) as Hnot.
  { intros b' Hin. destruct (hp_block _ _ _ Hh _ _ Hin) as (ob' & Hob' & _). congruence. }
  exists (set_table t sh), rt2. split; [done|]. split; [done|]. split; [|split; [done|]].
  - split; cbn [set_table localAllocationTable].
    + eapply table_ok_length_ext; [|exact Hok2]. intros a'. unfold rt2. by apply upd_alloc_length.
    + unfold InsertAllocation in Hins. rewrite (fit_alloc _ _ _ _ _ Hfit) in Hins. simpl in Hins. injection Hins as <-.
      repeat case_match; apply (hp_masks _ _ _ Hh).
    + intros k a'. destruct (InsertAllocation_elem _ _ _ _ _ _ k a' Hok1 Hfit Hins) as [_ ->]. rewrite (hp_entries _ _ _ Hh).
      setoid_rewrite elem_of_app. setoid_rewrite list_elem_of_singleton. rewrite Hptr. split.
      * intros [[= -> ->]|(b' & ? & ?)]; [exists b; split; [by right|done]|exists b'; split; [by left|done]].
      * intros (b' & [Hin|[= -> ->]] & ->); [right; by exists b'|by left].
    + intros a' b' [Hin|[= -> ->]%list_elem_of_singleton]%elem_of_app.
      * destruct (hp_block _ _ _ Hh _ _ Hin) as (ob' & Hob' & H1 & H2 & H3). exists ob'.
        rewrite Hold by (intros ->; by destruct (Hnot b')). split; [done|]. split; [done|]. split; [done|].
        by apply (alloc_ok_ext rt).
      * exists ob. split; [done|]. split; [done|]. split; [done|]. split; [done|]. intros s info Hi. simpl in Hi. by rewrite lookup_empty in Hi.
    + intros a' Hle. rewrite Enext in Hle. rewrite Hold by lia. apply (hp_fresh _ _ _ Hh). unfold a in Hle. lia.
    + intros o a'. rewrite Eori, lookup_insert_Some. setoid_rewrite elem_of_app. setoid_rewrite list_elem_of_singleton.
      intros [[<- <-]|[_ H]]; [exists b; split; [by right|done]|].
      destruct (hp_origin _ _ _ Hh _ _ H) as (b' & ? & ?). exists b'. split; [by left|done].
    + intros a' b1 b2. rewrite !elem_of_app, !list_elem_of_singleton.
      intros [H1|H1] [H2|H2]; [by eapply hp_unique|injection H2 as -> ->; by destruct (Hnot b1)|injection H1 as -> ->; by destruct (Hnot b2)|].
      injection H1 as _ ->. by injection H2 as ->.
  - intros a' s o v. unfold rec. destruct (decide (a' = a)) as [->|Hne]; [|by rewrite Hold].
    rewrite Hnew, Hf. split; [|by intros (_ & ? & ? & _)].
    intros (_ & ? & [= <-] & (info & offs & H & _)). simpl in H. by rewrite lookup_empty in H.
Qed.

Lemma processAddToState_keeps n e sh rt sh' rt' e' : processAddToState_fuel n cfg e sh rt = Some (sh', rt', e') →
  next_alloc rt' = next_alloc rt ∧ originToAllocMap rt' = originToAllocMap rt.
Proof.
  revert e rt. induction n as [|n IH]; intros e rt; cbn [processAddToState_fuel]; intros H;
    apply bind_Some in H as ([a|] & _ & H); try (by injection H as <- <- <-);
    (destruct (trackCycles cfg && is_access e); [injection H as <- <- <-; by destruct (trackCycles cfg)|]);
    apply bind_Some in H as (s & _ & H); apply bind_Some in H as (st & _ & H); destruct (parent st); try done;
    try (injection H as <- <- <-; by destruct (trackCycles cfg)).
  apply IH in H as [-> ->]. by destruct (trackCycles cfg).
Qed.

(** A classified access of a region without surroundings is recorded on the block
    that holds the address, if there is one. *)
Lemma process_class rt bs e sh s st : hasLeft sh = false → heap (localAllocationTable sh) rt bs → u64 (ptr e) →
  is_class (eoperation e) → get_statePtr e = Some s → states rt !! s = Some st → parent st = None → states_wf (states rt) →
  ∃ rt' e', process1 e sh rt = Some (sh, rt', e') ∧ heap (localAllocationTable sh) rt' bs ∧ states rt' = states rt ∧
    ∀ a s' o v, is_class o → rec rt' a s' o v ↔ rec rt a s' o v ∨
      (s' = s ∧ o = eoperation e ∧ ∃ b, (a, b) ∈ bs ∧ bcovers b (ptr e) ∧ v = ptr e -₆₄ b_address b).
Proof.
  intros Hleft Hh Hu Hcls Hs Hst Hroot Hwf.
  assert (process1 e sh rt = processAddToState cfg e sh rt) as -> by (unfold process_entry; destruct Hcls as [x Hx]; by destruct (eoperation e)).
  assert (is_access e = false) as Hna.
  { apply bool_decide_false. intros [E|E]; rewrite E in Hcls; by destruct Hcls. }
  assert (∀ a ob b, (a, b) ∈ bs → allocs rt !! a = Some ob → covers (b_address b) ob (ptr e) ↔ bcovers b (ptr e)) as Hcov.
  { intros a ob b Hin Hob. destruct (hp_block _ _ _ Hh _ _ Hin) as (ob' & Hob' & _ & Hlen & _). rewrite Hob in Hob'. injection Hob' as <-.
    unfold covers, bcovers. by rewrite Hlen. }
  destruct (findAllocation_total _ rt (ptr e) (hp_table _ _ _ Hh)) as [[a|] Hfind].
  - pose proof (findAllocation_sound _ _ _ _ (hp_table _ _ _ Hh) Hu Hfind) as (k & ob & Hin & Hob & Hc).
    apply (hp_entries _ _ _ Hh) in Hin as (b & Hin & ->). rewrite (Hcov _ _ _ Hin Hob) in Hc.
    destruct (hp_block _ _ _ Hh _ _ Hin) as (ob' & Hob' & Hptr & Hlen & Haok). rewrite Hob in Hob'. injection Hob' as <-.
    unfold processAddToState. rewrite Hs. simpl default.
    destruct (processAddToState_fuel_spec s cfg sh rt e a ob s Hfind Hob Hs Hna Hwf) as (rt' & e' & ob' & Hrun & Hblk & Hok' & Hrec); [by exists st|lia|].
    exists rt', e'. split; [done|]. destruct (processAddToState_keeps _ _ _ _ _ _ _ Hrun) as [Enext Eori].
    pose proof Hblk as (Est & Eoth & Ea & (Ep & El & _)).
    assert (∀ a', length <$> allocs rt' !! a' = length <$> allocs rt !! a') as Elen by (intros a'; by eapply only_block_length).
    split; [|split; [done|]].
    + destruct Hh as [G1 G2 G3 G4 G5 G6 G7]. split; try done.
      * by eapply table_ok_length_ext.
      * intros a' b' Hin'. destruct (decide (a' = a)) as [->|Hne].
        -- rewrite (G7 _ _ _ Hin' Hin). exists ob'. split; [done|]. split; [congruence|]. split; [congruence|].
           apply (alloc_ok_ext rt); [done|]. by apply Hok'.
        -- destruct (G4 _ _ Hin') as (ob2 & ? & ? & ? & ?). exists ob2. rewrite Eoth by done. split; [done|]. split; [done|]. split; [done|].
           by apply (alloc_ok_ext rt).
      * intros a' Hle. rewrite Enext in Hle. rewrite Eoth; [by apply G5|]. intros ->. rewrite G5 in Hob; [done|exact Hle].
      * intros o a'. rewrite Eori. apply G6.
    + intros a' s' o v Ho. unfold rec. destruct (decide (a' = a)) as [->|Hne].
      * rewrite Ea, Hob. assert (on_chain rt (Some s) s' ↔ s' = s) as Hch.
        { rewrite (on_chain_step rt s st s' Hwf Hst), Hroot. pose proof (on_chain_None rt s'). naive_solver. }
        assert (op_code o = op_code (eoperation e) ↔ o = eoperation e) as Hoc.
        { split; [|by intros ->]. intros E. by rewrite <- (is_class_code o), E, is_class_code. }
        assert (recorded ob' s' o v ↔ recorded ob s' o v ∨ (s' = s ∧ o = eoperation e ∧ v = ptr e -₆₄ b_address b)) as Hrec'
          by (rewrite Hrec, Hch, Hoc, Hptr; done).
        split.
        -- intros (_ & ? & [= <-] & H). apply Hrec' in H as [H|(-> & -> & ->)]; [left; split; [done|by exists ob]|]. right. split; [done|]. split; [done|]. by exists b.
        -- intros H. split; [done|]. exists ob'. split; [done|]. apply Hrec'. destruct H as [(_ & ? & [= <-] & H)|(-> & -> & b' & Hin' & _ & ->)]; [by left|right].
           by rewrite (hp_unique _ _ _ Hh _ _ _ Hin' Hin).
      * rewrite Eoth by done. split; [by left|]. intros [H|(_ & _ & b' & Hin' & Hc' & _)]; [done|]. exfalso. apply Hne.
        destruct (hp_block _ _ _ Hh _ _ Hin') as (ob2 & Hob2 & _). eapply (owner_unique _ rt (ptr e)); [apply (hp_table _ _ _ Hh)| |].
        -- exists (b_address b'), ob2. split; [apply (hp_entries _ _ _ Hh); by exists b'|]. split; [done|]. by rewrite (Hcov _ _ _ Hin' Hob2).
        -- exists (b_address b), ob. split; [apply (hp_entries _ _ _ Hh); by exists b|]. split; [done|]. by rewrite (Hcov _ _ _ Hin Hob).
  - exists rt, e. split.
    { unfold processAddToState. rewrite Hs. change (default O (Some s)) with s.
      destruct s; cbn [processAddToState_fuel]; rewrite Hfind; cbn [mbind option_bind]; unfold overflow; by rewrite Hleft. }
    split; [done|]. split; [done|]. intros a s' o v _. split; [by left|]. intros [H|(_ & _ & b & Hin & Hc & _)]; [done|]. exfalso.
    destruct (hp_block _ _ _ Hh _ _ Hin) as (ob & Hob & _). apply (findAllocation_None _ _ _ (hp_table _ _ _ Hh) Hu) with (a := a) in Hfind.
    apply Hfind. exists (b_address b), ob. split; [apply (hp_entries _ _ _ Hh); by exists b|]. split; [done|]. by rewrite (Hcov _ _ _ Hin Hob).
Qed.
(** *** Many entries *)

Fixpoint placed_all (bs : list block) (blocks : list block) : Prop :=
  match blocks with [] => True | b :: blocks => placed bs b ∧ placed_all (bs ++ [b]) blocks end.

Lemma process_allocs blocks es : Forall2 is_alloc_entry blocks es → ∀ bs sh rt, heap (localAllocationTable sh) rt bs →
  placed_all bs.*2 blocks →
  ∃ sh' rt' new, process es sh rt = Some (sh', rt') ∧ hasLeft sh' = hasLeft sh ∧ heap (localAllocationTable sh') rt' (bs ++ new) ∧
    new.*2 = blocks ∧ states rt' = states rt ∧ ∀ a s o v, rec rt' a s o v ↔ rec rt a s o v.
Proof.
  induction 1 as [|b e blocks es He _ IH]; intros bs sh rt Hh Hp; [exists sh, rt, []; rewrite app_nil_r; done|].
  destruct Hp as [Hp Hps]. destruct (process_alloc _ rt bs b e sh eq_refl Hh Hp He) as (sh1 & rt1 & H1 & Hl1 & Hh1 & Hs1 & Hr1).
  destruct (IH _ sh1 rt1 Hh1) as (sh2 & rt2 & new & H2 & Hl2 & Hh2 & Hn2 & Hs2 & Hr2); [by rewrite fmap_app|].
  exists sh2, rt2, ((next_alloc rt, b) :: new). rewrite process_cons, H1. cbn [mbind option_bind]. rewrite <- app_assoc in Hh2.
  split; [done|]. split; [congruence|]. split; [done|]. split; [cbn; by rewrite Hn2|]. split; [congruence|].
  intros a s o v. by rewrite Hr2.
Qed.

(** Entries of a region after cleaning. *)
Definition region_entry (s : sptr) (e : shadowEntry) : Prop :=
  eoperation e = REDUNDANT ∨ (is_class (eoperation e) ∧ get_statePtr e = Some s ∧ u64 (ptr e)).

Lemma process_region s st es : Forall (region_entry s) es → ∀ bs sh rt, hasLeft sh = false → heap (localAllocationTable sh) rt bs →
  states rt !! s = Some st → parent st = None → states_wf (states rt) →
  ∃ rt', process es sh rt = Some (sh, rt') ∧ heap (localAllocationTable sh) rt' bs ∧ states rt' = states rt ∧
    ∀ a s' o v, is_class o → rec rt' a s' o v ↔ rec rt a s' o v ∨
      (s' = s ∧ ∃ e b, e ∈ es ∧ o = eoperation e ∧ (a, b) ∈ bs ∧ bcovers b (ptr e) ∧ v = ptr e -₆₄ b_address b).
Proof.
  induction 1 as [|e es He _ IH]; intros bs sh rt Hleft Hh Hst Hroot Hwf.
  { exists rt. split; [done|]. split; [done|]. split; [done|]. intros a s' o v _. split; [by left|].
    intros [H|(_ & e & _ & H & _)]; [done|by apply elem_of_nil in H]. }
  assert (∃ rt1 e', process1 e sh rt = Some (sh, rt1, e') ∧ heap (localAllocationTable sh) rt1 bs ∧ states rt1 = states rt ∧
    ∀ a s' o v, is_class o → rec rt1 a s' o v ↔ rec rt a s' o v ∨
      (s' = s ∧ o = eoperation e ∧ ∃ b, (a, b) ∈ bs ∧ bcovers b (ptr e) ∧ v = ptr e -₆₄ b_address b)) as (rt1 & e' & H1 & Hh1 & Hs1 & Hr1).
  { destruct He as [E|(Hcls & Hs & Hu)]; [|by eapply process_class].
    exists rt, e. split; [unfold process_entry; by rewrite E|]. split; [done|]. split; [done|]. intros a s' o v Ho. split; [by left|].
    intros [H|(_ & -> & _)]; [done|]. rewrite E in Ho. by destruct Ho. }
  destruct (IH bs sh rt1 Hleft Hh1) as (rt2 & H2 & Hh2 & Hs2 & Hr2); [by rewrite Hs1|done|by rewrite Hs1|].
  exists rt2. rewrite process_cons, H1. cbn [mbind option_bind]. split; [done|]. split; [done|]. split; [congruence|].
  intros a s' o v Ho. rewrite Hr2, Hr1 by done. split.
  - intros [[H|(-> & -> & b & ? & ? & ?)]|(-> & e0 & b & ? & ? & ?)]; [by left| |].
    + right. split; [done|]. exists e, b. split; [by left|done].
    + right. split; [done|]. exists e0, b. split; [by right|done].
  - intros [H|(-> & e0 & b & [->|Hin]%elem_of_cons & -> & ? & ? & ?)]; [by left; left| |].
    + left. right. split; [done|]. split; [done|]. by exists b.
    + right. split; [done|]. by exists e0, b.
Qed.
End process.

(** ** Ending a context *)

Lemma commit_one t rt bs a b : heap t rt bs → (a, b) ∈ bs → states_wf (states rt) →
  ∃ rt' m, commitStateInfo a None rt = Some (rt', m) ∧ heap t rt' bs ∧ same_parents rt rt' ∧
    (∀ s o a' v, is_class o → reported rt' s o a' v ↔ reported rt s o a' v ∨ (a' = a ∧ rec rt a s o v)) ∧
    (∀ a' s o v, rec rt' a' s o v ↔ a' ≠ a ∧ rec rt a' s o v) ∧
    ∀ s st, states rt !! s = Some st → ∃ ss info, states rt' !! s = Some (set_sets ss (set_allocationInfo info st)).
Proof.
  intros Hh Hin Hwf. destruct (hp_block _ _ _ Hh _ _ Hin) as (ob & Hob & Hptr & Hlen & Haok).
  destruct (commitStateInfo_spec a None rt ob Hwf I Hob Haok) as (rt' & infos & Hc & Hinfos & Hst & Hal & Hsame).
  exists rt', (bool_decide (infos ≠ ∅)). split; [done|].
  pose proof (commit_parents _ _ _ _ _ Hc) as Hpar.
  assert (allocs rt' !! a = Some (set_StateCommitInfoMap (clear_info <$> infos) ob)) as Ea by (by rewrite Hal, lookup_alter_eq, Hob).
  assert (∀ a', a' ≠ a → allocs rt' !! a' = allocs rt !! a') as Eo by (intros a' ?; by rewrite Hal, lookup_alter_ne).
  assert (∀ ob', alloc_ok rt ob' → alloc_ok rt' ob') as Hext.
  { intros ob' [H1 H2]. split; [by eapply sptr_ok_parents|]. intros s info Hi. destruct (H2 _ _ Hi) as [H3 H4].
    split; [by apply (sptr_live_parents _ _ _ Hpar)|done]. }
  split; [|split; [done|split; [|split]]].
  - destruct Hh as [G1 G2 G3 G4 G5 G6 G7], Hsame as (E1 & E2 & _). split; try done.
    + eapply table_ok_length_ext; [|exact G1]. intros a'. rewrite Hal.
      exact (upd_alloc_length a (set_StateCommitInfoMap (clear_info <$> infos)) rt a' (λ _, eq_refl)).
    + intros a' b' Hin'. destruct (decide (a' = a)) as [->|Hne].
      * rewrite (G7 _ _ _ Hin' Hin). exists (set_StateCommitInfoMap (clear_info <$> infos) ob). split; [done|]. split; [done|]. split; [done|].
        apply Hext. destruct Haok as [H1 H2]. split; [done|]. intros s info. simpl. rewrite lookup_fmap_Some.
        intros (i & <- & Hi). apply Hinfos in Hi as [Hi _]. destruct (H2 _ _ Hi) as [H3 H4]. split; [done|].
        intros c offs. simpl. rewrite lookup_fmap_Some. intros (q & _ & Hq). by eapply H4.
      * destruct (G4 _ _ Hin') as (ob' & ? & ? & ? & ?). exists ob'. rewrite Eo by done. split; [done|]. split; [done|]. split; [done|by apply Hext].
    + intros a' Hle. rewrite E1 in Hle. rewrite Eo; [by apply G5|]. intros ->. by rewrite G5 in Hob.
    + intros o a'. rewrite E2. apply G6.
  - intros s o a' v Ho. rewrite (commitStateInfo_reported a None rt ob rt' _ s o a' v Hwf I Hob Haok Ho Hc). unfold rec. rewrite Hob.
    pose proof (on_chain_None rt s). naive_solver.
  - intros a' s o v. unfold rec. destruct (decide (a' = a)) as [->|Hne]; [|rewrite Eo by done; naive_solver].
    rewrite Ea. split; [|naive_solver]. intros (_ & ? & [= <-] & (info & offs & Hi & Hq & Hv)). simpl in Hi.
    apply lookup_fmap_Some in Hi as (i & <- & _). simpl in Hq. apply lookup_fmap_Some in Hq as (q & <- & _). by apply elem_of_empty in Hv.
  - intros s st Hs. rewrite Hst, Hs. destruct (infos !! s) as [info|] eqn:Ei.
    + apply Hinfos in Ei as [Hi _]. destruct Haok as [_ H2]. destruct (H2 _ _ Hi) as [_ Hiok].
      destruct (commit_into_spec a info st Hiok) as (st' & Hst' & _ & E).
      exists (sets st'), (<[a := default ∅ (allocationInfo st !! a) ∪ useInfo info]> (allocationInfo st)). cbn [mbind option_bind]. rewrite Hst'. by f_equal.
    + exists (sets st), (allocationInfo st). by destruct st.
Qed.

(** [rt'] is [rt] after some commits. *)
Definition committed (rt rt' : Runtime) : Prop :=
  same_parents rt rt' ∧ ∀ s st, states rt !! s = Some st → ∃ ss info, states rt' !! s = Some (set_sets ss (set_allocationInfo info st)).

Lemma commit_all t bs l : ∀ rt, heap t rt bs → states_wf (states rt) → (∀ e : Z * aptr, e ∈ l → ∃ b, (e.2, b) ∈ bs) →
  ∃ rt', mfoldl (λ rt (e : Z * aptr), r ← commitStateInfo e.2 None rt; Some r.1) rt l = Some rt' ∧ heap t rt' bs ∧ committed rt rt' ∧
    (∀ s o a v, is_class o → reported rt' s o a v ↔ reported rt s o a v ∨ (a ∈ l.*2 ∧ rec rt a s o v)) ∧
    ∀ a s o v, rec rt' a s o v ↔ a ∉ l.*2 ∧ rec rt a s o v.
Proof.
  induction l as [|[k a] l IH]; intros rt Hh Hwf Hl.
  { exists rt. split; [done|]. split; [done|]. split.
    - split; [done|]. intros s st Hs. exists (sets st), (allocationInfo st). rewrite Hs. by destruct st.
    - split; [|intros; cbn; rewrite elem_of_nil; tauto]. intros. cbn. rewrite elem_of_nil. tauto. }
  destruct (Hl (k, a)) as [b Hb]; [by left|]. cbn [mfoldl snd] in *.
  destruct (commit_one t rt bs a b Hh Hb Hwf) as (rt1 & m & -> & Hh1 & Hp1 & Hr1 & Hc1 & Hs1). cbn [mbind option_bind fst].
  destruct (IH rt1 Hh1) as (rt2 & -> & Hh2 & (Hp2 & Hs2) & Hr2 & Hc2); [by eapply states_wf_parents|intros e He; apply Hl; by right|].
  exists rt2. split; [done|]. split; [done|]. rewrite fmap_cons. cbn [snd]. split; [split|split].
  - by etrans.
  - intros s st Hs. destruct (Hs1 s st Hs) as (ss & info & Hs'). destruct (Hs2 _ _ Hs') as (ss' & info' & ->). by exists ss', info'.
  - intros s o a' v Ho. rewrite Hr2, Hr1, Hc1, elem_of_cons by done. destruct (decide (a' = a)) as [->|]; tauto.
  - intros a' s o v. rewrite Hc2, Hc1, elem_of_cons. tauto.
Qed.

Lemma table_hash_first t k a : (k, a) ∈ table_entries_hash_first t ↔ (k, a) ∈ table_entries t.
Proof. unfold table_entries_hash_first, table_entries. rewrite !elem_of_app. tauto. Qed.

(** The entry that ends a context moves what is recorded into the final sets. *)
Lemma process_commit_entry mem sc cfg stateMap bs e sh rt s st : eoperation e = STATE_COMMIT → get_statePtr e = Some s → hasLeft sh = false →
  heap (localAllocationTable sh) rt bs → states_wf (states rt) → states rt !! s = Some st → sets st = empty_sets →
  (∀ a s' o v, rec rt a s' o v → ∃ b, (a, b) ∈ bs) →
  ∃ rt' st', process_entry mem sc cfg stateMap e sh rt = Some (sh, rt', e) ∧ heap (localAllocationTable sh) rt' bs ∧ same_parents rt rt' ∧
    (∀ a s' o v, ¬ rec rt' a s' o v) ∧ states rt' !! s = Some st' ∧
    sets st' = empty_sets ∧ statePtrMap st' = ∅ ∧ functionName st' = functionName st ∧ lineNumber st' = lineNumber st ∧ stateID st' = stateID st ∧
    ∀ o a v, is_class o → in_class (final_sets st') o a v ↔ in_class (final_sets st) o a v ∨ rec rt a s o v.
Proof.
  intros Hop Hs Hleft Hh Hwf Hst Hempty Hrec. unfold process_entry. rewrite Hop. unfold process_commit, CommitStateInfoForAllocations. rewrite Hleft.
  destruct (commit_all (localAllocationTable sh) bs (table_entries_hash_first (localAllocationTable sh)) rt Hh Hwf)
    as (rt1 & -> & Hh1 & (Hp1 & Hs1) & Hr1 & Hc1).
  { intros [k a] Hin. apply table_hash_first, (hp_entries _ _ _ Hh) in Hin as (b & Hb & _). by exists b. }
  assert (∀ a s' o v, rec rt a s' o v → a ∈ (table_entries_hash_first (localAllocationTable sh)).*2) as Hin.
  { intros a s' o v Hr. destruct (Hrec _ _ _ _ Hr) as [b Hb]. apply list_elem_of_fmap. exists (b_address b, a). split; [done|].
    apply table_hash_first, (hp_entries _ _ _ Hh). by exists b. }
  destruct (Hs1 _ _ Hst) as (ss & info & Hst1). cbn [mbind option_bind]. rewrite Hs. cbn [mbind option_bind]. rewrite Hst1. cbn [mbind option_bind].
  set (st1 := set_sets ss (set_allocationInfo info st)) in *. eexists _, (CommitState st1). split; [reflexivity|].
  assert (same_parents rt1 (upd_state s CommitState rt1)) as Hp2 by (apply same_parents_upd, CommitState_parent).
  destruct (CommitState_automaton st1) as (E1 & _ & _). split; [|split; [by etrans|split; [|split; [by simpl; rewrite lookup_alter_eq, Hst1|]]]].
  - destruct Hh1 as [G1 G2 G3 G4 G5 G6 G7]. split; try done; [by eapply table_ok_length_ext; [|exact G1]|].
    intros a b Hb. destruct (G4 _ _ Hb) as (ob & ? & ? & ? & [H1 H2]). exists ob. split; [done|]. split; [done|]. split; [done|]. split.
    + by eapply sptr_ok_parents.
    + intros s' i Hi. destruct (H2 _ _ Hi). split; [by apply (sptr_live_parents _ _ _ Hp2)|done].
  - intros a s' o v Hr. change (rec rt1 a s' o v) in Hr. apply Hc1 in Hr as [Hni Hr]. by eapply Hni, Hin.
  - split; [apply CommitState_working|]. split; [done|].
    assert (functionName (CommitState st1) = functionName st ∧ lineNumber (CommitState st1) = lineNumber st ∧ stateID (CommitState st1) = stateID st)
      as (-> & -> & ->) by (unfold CommitState; by rewrite !CommitAndCleanSet_spec).
    split; [done|]. split; [done|]. split; [done|]. intros o a v Ho. rewrite CommitState_in_class by done.
    assert (in_class (sets st1) o a v ↔ rec rt a s o v) as ->; [|done].
    assert (in_class (sets st1) o a v ↔ reported rt1 s o a v) as ->.
    { unfold reported. rewrite Hst1. split; [by exists st1|]. by intros (? & [= <-] & H). }
    rewrite Hr1 by done. assert (¬ reported rt s o a v) as Hno.
    { intros (st0 & E0 & (x & offs & Hx & Hl & _)). rewrite Hst in E0. injection E0 as <-. rewrite Hempty in Hx.
      assert (x = ∅) as -> by (destruct o; simpl in Hx; congruence). by rewrite lookup_empty in Hl. }
    pose proof (Hin a s o v). tauto.
Qed.

(** ** Cleaning the entries of a context *)

(** The entries of an invocation before cleaning. *)
Definition access_entry_of (x : access) (e : shadowEntry) : Prop := eoperation e = rw_op x.1.2 ∧ ptr e = x.1.1.
Definition names (s : sptr) (o : operation) (e : shadowEntry) : Prop := eoperation e = o ∧ get_statePtr e = Some s.

Definition invocation_entries (s : sptr) (accs : list access) (es : list shadowEntry) : Prop :=
  ∃ b l e, es = b :: l ++ [e] ∧ names s STATE_BEGIN b ∧ Forall2 access_entry_of accs l ∧ names s STATE_END e.

Definition put_state (s : sptr) (st : State) (rt : Runtime) : Runtime := upd_state s (λ _, st) rt.

Lemma upd_state_put s f st rt : states rt !! s = Some st → upd_state s f rt = put_state s (f st) rt.
Proof.
  intros Hst. unfold put_state, upd_state. f_equal. apply map_eq. intros s'. rewrite !lookup_alter. case_decide; [|done].
  subst. by rewrite Hst.
Qed.

Lemma put_state_put s st st' rt : put_state s st' (put_state s st rt) = put_state s st' rt.
Proof.
  unfold put_state, upd_state, set_states. cbn [allocs next_alloc states originToAllocMap freshnessSetter]. f_equal.
  apply map_eq. intros s'. destruct (decide (s = s')) as [<-|]; [rewrite !lookup_alter_eq|by rewrite !lookup_alter_ne]. by destruct (states rt !! s).
Qed.

Lemma put_state_same s st rt : states rt !! s = Some st → put_state s st rt = rt.
Proof.
  intros Hst. destruct rt as [x1 x2 x3 x4 x5]. unfold put_state, upd_state, set_states. cbn [allocs next_alloc states originToAllocMap freshnessSetter] in *.
  f_equal. apply map_eq. intros s'. rewrite lookup_alter. case_decide; [|done]. subst. by rewrite Hst.
Qed.

Lemma put_state_lookup s st rt : is_Some (states rt !! s) → states (put_state s st rt) !! s = Some st.
Proof. intros [st0 H]. simpl. by rewrite lookup_alter_eq, H. Qed.

Lemma clean_app cfg rt bs l1 l2 : clean_entries cfg rt bs (l1 ++ l2) =
  '(rt, bs, es1) ← clean_entries cfg rt bs l1; '(rt, bs, es2) ← clean_entries cfg rt bs l2; Some (rt, bs, es1 ++ es2).
Proof.
  revert rt bs. induction l1 as [|e l1 IH]; intros rt bs; cbn [app clean_entries mbind option_bind].
  { by destruct (clean_entries cfg rt bs l2) as [[[rt2 bs2] es2]|]. }
  destruct (clean_entry cfg rt bs e) as [[[rt1 bs1] e1]|]; cbn [mbind option_bind]; [|done]. rewrite IH.
  destruct (clean_entries cfg rt1 bs1 l1) as [[[rt2 bs2] es2]|]; cbn [mbind option_bind]; [|done].
  by destruct (clean_entries cfg rt2 bs2 l2) as [[[rt3 bs3] es3]|].
Qed.

Lemma clean_allocs cfg rt blocks es : Forall2 is_alloc_entry blocks es → clean_entries cfg rt None es = Some (rt, None, es).
Proof.
  induction 1 as [|b e blocks es (Hop & _) _ IH]; [done|]. cbn [clean_entries]. unfold clean_entry. rewrite Hop. cbn [mbind option_bind].
  by rewrite IH.
Qed.

Lemma clean_accesses cfg s accs l : Forall2 access_entry_of accs l → ∀ rt st, states rt !! s = Some st →
  clean_entries cfg rt (Some s) l = Some (put_state s (run_accesses st accs.*1) rt, Some s, set_statePtr (Some s) <$> l).
Proof.
  induction 1 as [|[[p w] i] e accs l [Hop Hp] _ IH]; intros rt st Hst.
  { cbn. by rewrite put_state_same. }
  cbn [clean_entries]. cbn [fst snd] in *.
  assert (clean_entry cfg rt (Some s) e = Some (put_state s (fsa_access p (rw_op w) st) rt, Some s, set_statePtr (Some s) e)) as ->.
  { unfold clean_entry. rewrite Hop. destruct w; cbn [rw_op]; rewrite Hst; cbn [mbind option_bind]; by rewrite (upd_state_put _ _ _ _ Hst), Hp. }
  cbn [mbind option_bind]. rewrite (IH _ (fsa_access p (rw_op w) st)) by (apply put_state_lookup; by exists st). cbn [mbind option_bind].
  by rewrite put_state_put.
Qed.

Lemma clean_invocation cfg s accs es rt st : invocation_entries s accs es → states rt !! s = Some st → parent st = None →
  ∃ es', clean_entries cfg rt None es = Some (put_state s (run_invocation st accs.*1) rt, None, es') ∧
    ∃ b l e, es' = b :: (set_statePtr (Some s) <$> l) ++ [e] ∧ eoperation b = REDUNDANT ∧ eoperation e = REDUNDANT ∧ Forall2 access_entry_of accs l.
Proof.
  intros (b & l & e & -> & [Hb Hbs] & Hl & [He Hes]) Hst Hroot. cbn [clean_entries].
  assert (clean_entry cfg rt None b = Some (put_state s (fsa_begin st) rt, Some s, set_operation REDUNDANT b)) as ->.
  { unfold clean_entry. rewrite Hb, Hbs. cbn [mbind option_bind]. rewrite Hst. cbn [mbind option_bind]. by rewrite (upd_state_put _ _ _ _ Hst). }
  cbn [mbind option_bind]. rewrite clean_app.
  rewrite (clean_accesses cfg s accs l Hl _ (fsa_begin st)) by (apply put_state_lookup; by exists st). cbn [mbind option_bind]. rewrite put_state_put.
  set (st1 := run_accesses (fsa_begin st) accs.*1). assert (states (put_state s st1 rt) !! s = Some st1) as Hst1 by (apply put_state_lookup; by exists st).
  assert (parent st1 = None) as Hroot1.
  { unfold st1. rewrite <- apply_accesses. generalize (accesses_events accs.*1). intros evs.
    assert (∀ st, parent (foldl apply_event st evs) = parent st) as Hpar.
    { clear. induction evs as [|ev evs IH]; intros st; [done|]. cbn [foldl]. rewrite IH. apply fsa_parent. }
    by rewrite Hpar. }
  cbn [clean_entries].
  assert (clean_entry cfg (put_state s st1 rt) (Some s) e = Some (put_state s (fsa_end st1) rt, None, set_operation REDUNDANT e)) as ->.
  { unfold clean_entry. rewrite He, Hes. cbn [mbind option_bind]. rewrite Hst1. cbn [mbind option_bind].
    rewrite (upd_state_put _ _ _ _ Hst1), put_state_put, Hroot1. done. }
  cbn [mbind option_bind]. eexists. split; [reflexivity|]. by exists (set_operation REDUNDANT b), l, (set_operation REDUNDANT e).
Qed.

Lemma run_invocation_root st accs : parent (run_invocation st accs) = parent st.
Proof.
  change (run_invocation st accs) with (run_invocations st [accs]). rewrite <- apply_invocations. cbn [mbind list_bind]. rewrite app_nil_r. generalize (invocation_events accs). intros evs.
  revert st. induction evs as [|ev evs IH]; intros st; [done|]. cbn [foldl]. rewrite IH. apply fsa_parent.
Qed.

(** What cleaning leaves of the entries of some invocations: markers and accesses. *)
Definition half_cleaned (s : sptr) (invs : list (list access)) (e : shadowEntry) : Prop :=
  eoperation e = REDUNDANT ∨ (get_statePtr e = Some s ∧ ∃ accs x, accs ∈ invs ∧ x ∈ accs ∧ access_entry_of x e).

(** The accesses without their identifiers. *)
Definition bare (invs : list (list access)) : list (list (Z * bool)) := (λ accs : list access, accs.*1) <$> invs.

Lemma clean_invocations cfg s invs ess : Forall2 (invocation_entries s) invs ess → ∀ rt st, states rt !! s = Some st → parent st = None →
  ∃ es', clean_entries cfg rt None (concat ess) = Some (put_state s (run_invocations st (bare invs)) rt, None, es') ∧
    Forall (half_cleaned s invs) es' ∧ ∀ accs x, accs ∈ invs → x ∈ accs → ∃ e, e ∈ es' ∧ get_statePtr e = Some s ∧ access_entry_of x e.
Proof.
  induction 1 as [|accs es invs ess He _ IH]; intros rt st Hst Hroot.
  { exists []. cbn. rewrite put_state_same by done. split; [done|]. split; [done|]. by intros ? ? H%elem_of_nil. }
  destruct (clean_invocation cfg s accs es rt st He Hst Hroot) as (es1 & H1 & b & l & e & -> & Hb & He' & Hl).
  destruct (IH (put_state s (run_invocation st accs.*1) rt) (run_invocation st accs.*1)) as (es2 & H2 & Hall & Hex);
    [apply put_state_lookup; by exists st|by rewrite run_invocation_root|].
  exists ((b :: (set_statePtr (Some s) <$> l) ++ [e]) ++ es2). cbn [concat]. rewrite clean_app, H1. cbn [mbind option_bind]. rewrite H2.
  cbn [mbind option_bind]. rewrite put_state_put. split; [done|]. split.
  - apply Forall_app. split.
    + apply Forall_cons. split; [by left|]. apply Forall_app. split; [|apply Forall_singleton; by left].
      apply Forall_forall. intros e' He2. apply list_elem_of_fmap in He2 as (e0 & -> & Hin). right. split; [done|].
      apply list_elem_of_lookup in Hin as [j Hj]. destruct (Forall2_lookup_r _ _ _ _ _ Hl Hj) as (x & Hx & Hxe).
      exists accs, x. split; [by left|]. split; [by eapply list_elem_of_lookup_2|done].
    + eapply Forall_impl; [exact Hall|]. intros e' [H|(H & accs' & x & ? & ? & ?)]; [by left|right]. split; [done|].
      exists accs', x. split; [by right|done].
  - intros accs' x [->|Hin]%elem_of_cons Hx.
    + apply list_elem_of_lookup in Hx as [j Hj]. destruct (Forall2_lookup_l _ _ _ _ _ Hl Hj) as (e0 & He0 & Hxe).
      exists (set_statePtr (Some s) e0). split; [|done]. apply elem_of_app. left. apply elem_of_cons. right. apply elem_of_app. left.
      apply list_elem_of_fmap. exists e0. split; [done|]. by eapply list_elem_of_lookup_2.
    + destruct (Hex _ _ Hin Hx) as (e0 & ? & ?). exists e0. split; [apply elem_of_app; by right|done].
Qed.

Lemma history_accessed p invs : history p invs ≠ [] ↔ ∃ accs w, accs ∈ invs ∧ (p, w) ∈ accs.
Proof.
  assert (∀ accs w, w ∈ project p accs ↔ (p, w) ∈ accs) as Hproj.
  { intros accs w. unfold project. rewrite list_elem_of_fmap. setoid_rewrite list_elem_of_filter.
    split; [intros ([p' w'] & -> & Hp & Hin); simpl in *; by subst|by exists (p, w)]. }
  split.
  - destruct (history p invs) as [|it its] eqn:E; [done|]. intros _. assert (it ∈ history p invs) as Hin by (rewrite E; by left).
    apply list_elem_of_filter in Hin as [Hne Hin]. apply list_elem_of_fmap in Hin as (accs & -> & Hin).
    destruct (project p accs) as [|w ws] eqn:Ew; [done|]. exists accs, w. split; [done|]. apply Hproj. rewrite Ew. by left.
  - intros (accs & w & Hin & Hw) E. assert (project p accs ∈ history p invs) as H; [|rewrite E in H; by apply elem_of_nil in H].
    apply list_elem_of_filter. split; [|apply list_elem_of_fmap; by exists accs]. intros Hn. apply Hproj in Hw. rewrite Hn in Hw. by apply elem_of_nil in Hw.
Qed.

Lemma classify_accessed p invs : (∃ accs w, accs ∈ invs ∧ (p, w) ∈ accs) → ∃ c, classify (history p invs) = Some c ∧ is_class c.
Proof.
  intros H%history_accessed. destruct (classify (history p invs)) as [c|] eqn:E; [|by destruct (history p invs)].
  exists c. split; [done|]. by eapply classify_class.
Qed.

(** The second loop on an entry, when the region has classified all its addresses. *)
Definition final_entry (st : State) (e : shadowEntry) : shadowEntry :=
  if is_access e then set_operation (default REDUNDANT (statePtrMap st !! ptr e)) e else e.

Lemma reassign_final cfg rt s st e : trackInput cfg = true → trackOutput cfg = true → states rt !! s = Some st →
  (is_access e = true → get_statePtr e = Some s ∧ ∃ c, statePtrMap st !! ptr e = Some c ∧ is_class c) →
  reassign_entry cfg rt e = Some (final_entry st e).
Proof.
  intros Hi Ho Hst He. unfold reassign_entry, final_entry. destruct (is_access e) eqn:Ea.
  - destruct (He eq_refl) as (Hs & c & Hc & Hcls). unfold is_access in Ea. apply bool_decide_eq_true in Ea.
    assert (tracked cfg c = true) as Ht by (destruct Hcls as [x Hx]; destruct c; try done; simpl; by rewrite ?Hi, ?Ho, ?orb_true_r).
    destruct Ea as [-> | ->]; rewrite Hs; cbn [mbind option_bind]; rewrite Hst; cbn [mbind option_bind]; by rewrite Hc, Ht.
  - unfold is_access in Ea. apply bool_decide_eq_false in Ea. destruct (eoperation e); try done; destruct Ea; tauto.
Qed.

Lemma cleanBatch_context cfg s blocks A invs ess C rt st : trackInput cfg = true → trackOutput cfg = true →
  Forall2 is_alloc_entry blocks A → Forall2 (invocation_entries s) invs ess → names s STATE_COMMIT C →
  states rt !! s = Some st → parent st = None → statePtrMap st = ∅ → (∀ accs x, accs ∈ invs → x ∈ accs → u64 x.1.1) →
  ∃ X, cleanBatch cfg rt None (A ++ concat ess ++ [C]) = Some (put_state s (run_invocations st (bare invs)) rt, None, A ++ X ++ [C]) ∧
    Forall (region_entry s) X ∧
    ∀ p o, is_class o → (∃ e, e ∈ X ∧ eoperation e = o ∧ ptr e = p) ↔ classify (history p (bare invs)) = Some o.
Proof.
  intros Hti Hto HA HI [HC HCs] Hst Hroot Hmap Hu. set (st1 := run_invocations st (bare invs)).
  destruct (clean_invocations cfg s invs ess HI rt st Hst Hroot) as (Y & HY & Hall & Hex). fold st1 in HY.
  assert (∀ p, statePtrMap st1 !! p = classify (history p (bare invs))) as Hcl.
  { intros p. apply run_classify. by rewrite Hmap. }
  assert (∀ accs x, accs ∈ invs → x ∈ accs → ∃ c, statePtrMap st1 !! x.1.1 = Some c ∧ is_class c) as Hknown.
  { intros accs [[p w] i] Hin Hx. rewrite Hcl. apply classify_accessed. exists accs.*1, w. split.
    - apply list_elem_of_fmap. by exists accs.
    - apply list_elem_of_fmap. by exists (p, w, i). }
  assert (states (put_state s st1 rt) !! s = Some st1) as Hst1 by (apply put_state_lookup; by exists st).
  exists (final_entry st1 <$> Y). unfold cleanBatch. rewrite clean_app, (clean_allocs _ _ _ _ HA). cbn [mbind option_bind].
  rewrite clean_app, HY. cbn [mbind option_bind]. cbn [clean_entries]. unfold clean_entry. rewrite HC. cbn [mbind option_bind].
  rewrite (mapM_total _ (final_entry st1)).
  2:{ intros e He. apply (reassign_final cfg _ s); [done..|]. intros Ha. apply elem_of_app in He as [He|He].
    - exfalso. apply list_elem_of_lookup in He as [j Hj]. destruct (Forall2_lookup_r _ _ _ _ _ HA Hj) as (b & _ & (Hop & _)).
      apply bool_decide_eq_true in Ha. rewrite Hop in Ha. by destruct Ha.
    - apply elem_of_app in He as [He| ->%list_elem_of_singleton]; [|apply bool_decide_eq_true in Ha; rewrite HC in Ha; by destruct Ha].
      rewrite Forall_forall in Hall. destruct (Hall _ He) as [E|(Hs & accs & x & Hin & Hx & _ & ->)];
        [apply bool_decide_eq_true in Ha; rewrite E in Ha; by destruct Ha|]. split; [done|]. by eapply Hknown. }
  cbn [mbind option_bind]. split; [|split].
  - do 2 f_equal. rewrite !fmap_app. f_equal.
    + apply list_eq. intros j. rewrite list_lookup_fmap. destruct (A !! j) as [e|] eqn:Ej; [|done]. cbn. f_equal.
      destruct (Forall2_lookup_r _ _ _ _ _ HA Ej) as (b & _ & (Hop & _)). unfold final_entry, is_access. rewrite Hop. by rewrite bool_decide_false by (intros [|]; done).
    + f_equal. cbn. unfold final_entry, is_access. rewrite HC. by rewrite bool_decide_false by (intros [|]; done).
  - apply Forall_forall. intros e He. apply list_elem_of_fmap in He as (e0 & -> & He0). rewrite Forall_forall in Hall.
    destruct (Hall _ He0) as [E|(Hs & accs & x & Hin & Hx & Hop & Hp)].
    + left. unfold final_entry, is_access. rewrite E. by rewrite bool_decide_false by (intros [|]; done).
    + right. destruct (Hknown _ _ Hin Hx) as (c & Hc & Hcls). unfold final_entry, is_access. rewrite Hop.
      rewrite bool_decide_true by (destruct x.1.2; cbn; tauto). rewrite Hp, Hc. cbn. split; [done|]. split; [done|]. rewrite Hp. by eapply Hu.
  - intros p o Ho. split.
    + intros (e & He & Hop & Hp). apply list_elem_of_fmap in He as (e0 & -> & He0). rewrite Forall_forall in Hall.
      destruct (Hall _ He0) as [E|(Hs & accs & x & Hin & Hx & Hop0 & Hp0)].
      * exfalso. unfold final_entry, is_access in Hop. rewrite E in Hop. rewrite bool_decide_false in Hop by (intros [|]; done).
        rewrite E in Hop. subst o. by destruct Ho.
      * destruct (Hknown _ _ Hin Hx) as (c & Hc & Hcls). unfold final_entry, is_access in Hop, Hp. rewrite Hop0 in Hop, Hp.
        rewrite bool_decide_true in Hop, Hp by (destruct x.1.2; cbn; tauto). rewrite Hp0, Hc in Hop, Hp. cbn in Hop, Hp.
        rewrite <- Hcl, <- Hp, Hp0, Hc. by f_equal.
    + intros Hc. assert (history p (bare invs) ≠ []) as Hne by (intros E; by rewrite E in Hc).
      apply history_accessed in Hne as (accs' & w & Hin & Hw). apply list_elem_of_fmap in Hin as (accs & -> & Hin).
      apply list_elem_of_fmap in Hw as (x & Ex & Hx). destruct (Hex _ _ Hin Hx) as (e & He & Hs & Hop & Hp).
      exists (final_entry st1 e). split; [apply list_elem_of_fmap; by exists e|]. unfold final_entry, is_access. rewrite Hop.
      rewrite bool_decide_true by (destruct x.1.2; cbn; tauto). rewrite Hp, <- Ex. cbn [fst]. rewrite Hcl, Hc. cbn. by rewrite Hp, <- Ex.
Qed.

(** ** The calls of a program *)

Section program.
  Context (SHADOW_WINDOW NUM_BATCHES : nat) (cfg : config) (mem : Z → Z)
    (strong_components : graph_t → list nat) (malloc_buffer : nat → list shadowEntry).
  Context (funcName : string) (lineNum : Z).

Definition allocate (g : Globals) (b : block) : option Globals :=
  AddToAllocationTable SHADOW_WINDOW NUM_BATCHES cfg mem strong_components malloc_buffer (b_address b) (b_length b) (b_origin b) g.

Definition access_call (g : Globals) (x : access) : option Globals :=
  AddToState SHADOW_WINDOW NUM_BATCHES cfg mem strong_components malloc_buffer x.1.1 (Z.b2z x.1.2) x.2 g.

(** An invocation; the program keeps the identifier of the region. *)
Definition invoke (gi : Globals * Z) (accs : list access) : option (Globals * Z) :=
  '(g, id) ← GetState SHADOW_WINDOW cfg mem strong_components funcName lineNum 0 gi.1;
  g ← mfoldl access_call g accs;
  '(g, _) ← EndState SHADOW_WINDOW cfg mem strong_components id g;
  Some (g, id).

Definition run_context (g : Globals) (c : context) : option Globals :=
  g ← mfoldl allocate g (c_blocks c);
  '(g, id) ← mfoldl invoke (g, 0) (c_invocations c);
  '(g, _) ← EndStateInvocation SHADOW_WINDOW cfg mem strong_components id g;
  Some g.

Definition run_session (contexts : list context) : option Globals :=
  g ← texas_init SHADOW_WINDOW NUM_BATCHES malloc_buffer empty_globals; mfoldl run_context g contexts.

(** ** Filling a batch *)

Definition filled (fs : list (shadowEntry → shadowEntry)) (base : list shadowEntry) : list shadowEntry := zip_with (λ f e, f e) fs base.

(** [g] with the first slots of the buffer filled. *)
Definition push (fs : list (shadowEntry → shadowEntry)) (base : list shadowEntry) (g : Globals) : Globals :=
  set_texasWorkEntries (filled fs base ++ drop (List.length fs) base) (set_slotStart (List.length fs) g).

Lemma filled_length fs base : (List.length fs <= List.length base)%nat → List.length (filled fs base) = List.length fs.
Proof. intros H. unfold filled. rewrite length_zip_with. lia. Qed.

Lemma filled_app fs1 fs2 base : filled (fs1 ++ fs2) base = filled fs1 base ++ filled fs2 (drop (List.length fs1) base).
Proof. unfold filled. revert base. induction fs1 as [|f fs1 IH]; intros [|e base]; [done|done|cbn; by rewrite zip_with_nil_r|]. cbn. by rewrite IH. Qed.

Lemma filled_snoc f fs base : (List.length fs < List.length base)%nat →
  filled (fs ++ [f]) base ++ drop (S (List.length fs)) base = alter f (List.length fs) (filled fs base ++ drop (List.length fs) base).
Proof.
  revert base. induction fs as [|f0 fs IH]; intros [|e base] H; cbn in *; try lia; [done|]. f_equal. apply IH. lia.
Qed.

Lemma getFreeSlot_push fs base g : (List.length fs < SHADOW_WINDOW)%nat →
  getFreeSlot SHADOW_WINDOW cfg mem strong_components (push fs base g) =
  Some (set_slotStart (S (List.length fs)) (push fs base g), List.length fs).
Proof. intros H. unfold getFreeSlot. rewrite decide_False by (cbn; lia). done. Qed.

Lemma fill_slot_push f fs base g : (List.length fs < SHADOW_WINDOW)%nat → (List.length fs < List.length base)%nat →
  fill_slot SHADOW_WINDOW cfg mem strong_components f (push fs base g) = Some (push (fs ++ [f]) base g).
Proof.
  intros H1 H2. unfold fill_slot. rewrite getFreeSlot_push by done. cbn [mbind option_bind].
  destruct (lookup_lt_is_Some_2 (filled fs base ++ drop (List.length fs) base) (List.length fs)) as [e He].
  { rewrite length_app, length_drop, filled_length by lia. lia. }
  assert (texasWorkEntries (set_slotStart (S (List.length fs)) (push fs base g)) = filled fs base ++ drop (List.length fs) base) as -> by done.
  rewrite He. cbn [mbind option_bind]. unfold push at 2. rewrite length_app. cbn [List.length]. rewrite Nat.add_1_r, filled_snoc by done. done.
Qed.

Definition alloc_fill (b : block) (e : shadowEntry) : shadowEntry :=
  set_eaffiliated None (set_information (b_origin b) (set_size (b_length b) (set_ptr (b_address b) (set_operation ALLOC_ADD e)))).
Definition access_fill (x : access) (e : shadowEntry) : shadowEntry :=
  set_information x.2 (set_ptr x.1.1 (set_operation (op_of_code (wrap64 (op_code STATE_ADD_READ + Z.b2z x.1.2))) e)).
Definition name_fill (s : sptr) (o : operation) (e : shadowEntry) : shadowEntry := set_statePtr (Some s) (set_operation o e).

(** What a call inside the run time does to a batch in the making. *)
Lemma in_runtime_push body fs fs' base g t : inRT g = false → allocationMap g = Some t →
  body (push fs base (set_inRT true g)) = Some (push fs' base (set_inRT true g)) →
  in_runtime SHADOW_WINDOW NUM_BATCHES malloc_buffer body (push fs base g) = Some (push fs' base g).
Proof.
  intros Hrt Ht Hb. unfold in_runtime. assert (inRT (push fs base g) = false) as -> by done.
  assert (set_inRT true (push fs base g) = push fs base (set_inRT true g)) as -> by done. unfold texas_init.
  assert (allocationMap (push fs base (set_inRT true g)) = Some t) as -> by done. cbn [mbind option_bind]. rewrite Hb. cbn [mbind option_bind].
  f_equal. destruct g. cbn in *. by subst.
Qed.

Lemma allocate_push b fs base g t : inRT g = false → allocationMap g = Some t → activeState g = None →
  (List.length fs < SHADOW_WINDOW)%nat → (List.length fs < List.length base)%nat →
  allocate (push fs base g) b = Some (push (fs ++ [alloc_fill b]) base g).
Proof.
  intros Hrt Ht Hact H1 H2. unfold allocate, AddToAllocationTable. eapply in_runtime_push; [done|done|].
  rewrite <- (fill_slot_push (alloc_fill b) fs base (set_inRT true g) H1 H2). unfold fill_slot. rewrite getFreeSlot_push by done.
  cbn [mbind option_bind]. destruct (texasWorkEntries _ !! _); [|done]. cbn [mbind option_bind].
  assert (activeState (set_slotStart (S (List.length fs)) (push fs base (set_inRT true g))) = None) as -> by done. done.
Qed.

Lemma access_push x s fs base g t : inRT g = false → allocationMap g = Some t → activeState g = Some s →
  (List.length fs < SHADOW_WINDOW)%nat → (List.length fs < List.length base)%nat →
  access_call (push fs base g) x = Some (push (fs ++ [access_fill x]) base g).
Proof.
  intros Hrt Ht Hact H1 H2. unfold access_call, AddToState. eapply in_runtime_push; [done|done|].
  assert (activeState (push fs base (set_inRT true g)) = Some s) as -> by done. by apply fill_slot_push.
Qed.

Lemma many_push {A} (call : Globals → A → option Globals) (fill : A → shadowEntry → shadowEntry) base g (l : list A) :
  (∀ x fs, (List.length fs < SHADOW_WINDOW)%nat → (List.length fs < List.length base)%nat → call (push fs base g) x = Some (push (fs ++ [fill x]) base g)) →
  ∀ fs, (List.length fs + List.length l <= SHADOW_WINDOW)%nat → (List.length fs + List.length l <= List.length base)%nat →
  mfoldl call (push fs base g) l = Some (push (fs ++ (fill <$> l)) base g).
Proof.
  intros Hcall. induction l as [|x l IH]; intros fs H1 H2; [by rewrite app_nil_r|]. cbn [mfoldl List.length] in *.
  rewrite Hcall by lia. cbn [mbind option_bind]. rewrite IH by (rewrite length_app; cbn; lia). rewrite fmap_cons. by rewrite <- app_assoc.
Qed.
(** *** The region

    It is the only one, so its object and its identifier are 0. *)
Definition contents (st : State) : StateSets * StateSets * gmap Z operation := (sets st, final_sets st, statePtrMap st).
Definition no_contents : StateSets * StateSets * gmap Z operation := (empty_sets, empty_sets, ∅).

Record is_region (st : State) : Prop := {
  ir_name : functionName st = funcName; ir_line : lineNumber st = lineNum; ir_id : stateID st = 0; ir_root : parent st = None;
}.

(** Before and after it was entered first. *)
Definition at_region (g : Globals) (o : option State) : Prop :=
  match o with
  | None => stateMap g = ∅ ∧ currentStateID g = 0 ∧ states (store g) = ∅
  | Some st => stateMap g = {[0 := Some 0%nat]} ∧ states (store g) = {[0%nat := st]} ∧ is_region st
  end.

(** [g] with other regions. *)
Definition with_regions (sts : gmap sptr State) (act : option sptr) (sm : gmap Z (option sptr)) (id : Z) (g : Globals) : Globals :=
  set_store (set_states sts (store g)) (set_activeState act (set_stateMap sm (set_currentStateID id g))).

Definition same_but_regions (g g' : Globals) : Prop := ∃ sts act sm id, g' = with_regions sts act sm id g.

Lemma same_but_regions_trans g1 g2 g3 : same_but_regions g1 g2 → same_but_regions g2 g3 → same_but_regions g1 g3.
Proof. intros (? & ? & ? & ? & ->) (? & ? & ? & ? & ->). by eexists _, _, _, _. Qed.

Lemma same_but_regions_refl g : same_but_regions g g.
Proof. exists (states (store g)), (activeState g), (stateMap g), (currentStateID g). by destruct g as [[] ? ? ? ? ? ? ? ? ? ?]. Qed.

Definition footprint_ok (g : Globals) : Prop := ∃ t z, allocationMap g = Some t ∧ GetMemFootprint t (store g) = Some z.

Lemma footprint_regions g g' : same_but_regions g g' → footprint_ok g → footprint_ok g'.
Proof. by intros (? & ? & ? & ? & ->). Qed.

Lemma measure_region fs base g st : states (store g) = {[0%nat := st]} → footprint_ok g → is_region st →
  ∃ st', (if stateReductionTracking cfg then measure_naive 0 (push fs base g) else Some (push fs base g)) =
    Some (push fs base (set_store (set_states {[0%nat := st']} (store g)) g)) ∧ is_region st' ∧ contents st' = contents st.
Proof.
  intros Hst (t & z & Ht & Hz) [R1 R2 R3 R4]. destruct (stateReductionTracking cfg).
  - set (f := λ st, if decide (naiveStateSize st < z) then set_naiveStateSize z st else st). exists (f st). split.
    + unfold measure_naive. assert (allocationMap (push fs base g) = Some t) as -> by done. cbn [mbind option_bind].
      assert (store (push fs base g) = store g) as -> by done. rewrite Hz. cbn [mbind option_bind]. f_equal.
      fold f. unfold upd_state. rewrite Hst. by rewrite alter_singleton_eq.
    + unfold f. by case_decide.
  - exists st. split; [|done]. do 2 f_equal. rewrite <- Hst. by destruct g as [[] ? ? ? ? ? ? ? ? ? ?].
Qed.

Lemma GetState_push fs base g o : at_region g o → activeState g = None → footprint_ok g →
  (List.length fs < SHADOW_WINDOW)%nat → (List.length fs < List.length base)%nat →
  ∃ g' st, GetState SHADOW_WINDOW cfg mem strong_components funcName lineNum 0 (push fs base g) =
      Some (push (fs ++ [name_fill 0 STATE_BEGIN]) base g', 0) ∧
    at_region g' (Some st) ∧ contents st = default no_contents (contents <$> o) ∧ activeState g' = Some 0%nat ∧ same_but_regions g g'.
Proof.
  intros Ho Hact Hfoot H1 H2. unfold GetState.
  assert (∃ g1 st1, (found ← find_state (states (store (push fs base g))) funcName lineNum (map_to_list (stateMap (push fs base g)));
      Some (enter_region found funcName lineNum 0 (push fs base g))) = Some (push fs base g1, 0%nat) ∧
    at_region g1 (Some st1) ∧ contents st1 = default no_contents (contents <$> o) ∧ activeState g1 = Some 0%nat ∧ same_but_regions g g1)
    as (g1 & st1 & Henter & (Hm1 & Hs1 & Hr1) & Hc1 & Ha1 & Hsame1).
  { destruct o as [st|].
    - destruct Ho as (Hm & Hs & Hr). assert (stateMap (push fs base g) = {[0 := Some 0%nat]}) as -> by done.
      assert (states (store (push fs base g)) = {[0%nat := st]}) as -> by done. rewrite map_to_list_singleton. cbn [find_state mbind option_bind].
      rewrite lookup_singleton_eq. cbn [mbind option_bind]. rewrite decide_True by (split; apply Hr). cbn [mbind option_bind].
      exists (set_activeState (Some 0%nat) g), st. split; [done|]. split; [done|]. split; [done|]. split; [done|].
      exists (states (store g)), (Some 0%nat), (stateMap g), (currentStateID g). by destruct g as [[] ? ? ? ? ? ? ? ? ? ?].
    - destruct Ho as (Hm & Hid & Hs). assert (stateMap (push fs base g) = ∅) as -> by done. rewrite map_to_list_empty. cbn [find_state mbind option_bind].
      set (st := new_State funcName lineNum 0 0 None).
      exists (with_regions {[0%nat := st]} (Some 0%nat) {[0 := Some 0%nat]} 1 g), st. split; [|split; [done|split; [done|split; [done|by eexists _, _, _, _]]]].
      unfold enter_region. assert (currentStateID (push fs base g) = 0) as -> by done. assert (activeState (push fs base g) = None) as -> by done.
      unfold new_State_in. cbn [parent new_State]. f_equal. f_equal. destruct g as [[] ? ? ? ? ? ? ? ? ? ?]. cbn in *. subst. by rewrite insert_empty. }
  destruct (find_state _ _ _ _) as [found|]; [|done]. cbn [mbind option_bind] in Henter |- *. injection Henter as Henter.
  fold (enter_region found funcName lineNum 0 (push fs base g)). rewrite Henter.
  destruct (measure_region fs base g1 st1 Hs1 (footprint_regions _ _ Hsame1 Hfoot) Hr1) as (st2 & -> & Hr2 & Hc2). cbn [mbind option_bind].
  set (g2 := set_store _ g1) in *. fold (name_fill 0 STATE_BEGIN). rewrite (fill_slot_push (name_fill 0 STATE_BEGIN)) by done. cbn [mbind option_bind].
  assert (states (store (push (fs ++ [name_fill 0 STATE_BEGIN]) base g2)) !! 0%nat = Some st2) as -> by (cbn; by rewrite lookup_singleton_eq).
  cbn [mbind option_bind]. rewrite (ir_id _ Hr2). exists g2, st2. split; [done|]. split; [done|]. split; [by rewrite Hc2|]. split; [done|].
  eapply same_but_regions_trans; [exact Hsame1|]. exists {[0%nat := st2]}, (activeState g1), (stateMap g1), (currentStateID g1). by destruct g1 as [[] ? ? ? ? ? ? ? ? ? ?].
Qed.
Definition invocation_fill (accs : list access) : list (shadowEntry → shadowEntry) :=
  name_fill 0 STATE_BEGIN :: (access_fill <$> accs) ++ [name_fill 0 STATE_END].

Lemma invoke_push fs base g o accs id : inRT g = false → at_region g o → activeState g = None → footprint_ok g →
  (List.length fs + List.length (invocation_fill accs) <= SHADOW_WINDOW)%nat →
  (List.length fs + List.length (invocation_fill accs) <= List.length base)%nat →
  ∃ g' st, invoke (push fs base g, id) accs = Some (push (fs ++ invocation_fill accs) base g', 0) ∧
    at_region g' (Some st) ∧ contents st = default no_contents (contents <$> o) ∧ activeState g' = None ∧ same_but_regions g g'.
Proof.
  intros Hrt Ho Hact Hfoot H1 H2. unfold invocation_fill in H1, H2. cbn [List.length] in H1, H2. rewrite length_app, length_fmap in H1, H2. cbn [List.length] in H1, H2.
  unfold invoke. cbn [fst].
  destruct (GetState_push fs base g o Ho Hact Hfoot) as (g1 & st & -> & Ho1 & Hc1 & Ha1 & Hsame); [lia..|]. cbn [mbind option_bind].
  assert (inRT g1 = false ∧ ∃ t, allocationMap g1 = Some t) as [Hrt1 [t Ht1]].
  { destruct Hsame as (? & ? & ? & ? & ->). destruct Hfoot as (t & z & Ht & _). split; [done|by exists t]. }
  rewrite (many_push access_call access_fill); [| |rewrite length_app; cbn; lia..].
  2:{ intros x fs0 ? ?. by eapply (access_push x 0). }
  cbn [mbind option_bind]. unfold EndState.
  assert (activeState (push ((fs ++ [name_fill 0 STATE_BEGIN]) ++ (access_fill <$> accs)) base g1) = Some 0%nat) as -> by done.
  fold (name_fill 0 STATE_END). rewrite (fill_slot_push (name_fill 0 STATE_END)) by (rewrite !length_app, length_fmap; cbn; lia). cbn [mbind option_bind].
  destruct Ho1 as (Hm & Hs & Hr).
  assert (∀ fs, states (store (push fs base g1)) !! 0%nat = Some st) as -> by (intros fs0; cbn; by rewrite Hs, lookup_singleton_eq).
  cbn [mbind option_bind]. rewrite (ir_root _ Hr). exists (set_activeState None g1), st. split.
  { unfold invocation_fill. by rewrite <- !app_assoc. }
  split; [done|]. split; [done|]. split; [done|]. eapply same_but_regions_trans; [exact Hsame|].
  exists (states (store g1)), None, (stateMap g1), (currentStateID g1). by destruct g1 as [[] ? ? ? ? ? ? ? ? ? ?].
Qed.

Lemma invokes_push base invs : ∀ fs g o id, inRT g = false → at_region g o → activeState g = None → footprint_ok g →
  (List.length fs + List.length (concat (invocation_fill <$> invs)) <= SHADOW_WINDOW)%nat →
  (List.length fs + List.length (concat (invocation_fill <$> invs)) <= List.length base)%nat → invs ≠ [] →
  ∃ g' st, mfoldl invoke (push fs base g, id) invs = Some (push (fs ++ concat (invocation_fill <$> invs)) base g', 0) ∧
    at_region g' (Some st) ∧ contents st = default no_contents (contents <$> o) ∧ activeState g' = None ∧ same_but_regions g g'.
Proof.
  induction invs as [|accs invs IH]; intros fs g o id Hrt Ho Hact Hfoot H1 H2 Hne; [done|].
  rewrite fmap_cons in *. cbn [concat] in *. rewrite length_app in H1, H2. cbn [mfoldl].
  destruct (invoke_push fs base g o accs id Hrt Ho Hact Hfoot) as (g1 & st1 & -> & Ho1 & Hc1 & Ha1 & Hs1); [lia..|]. cbn [mbind option_bind].
  rewrite app_assoc. destruct invs as [|accs' invs].
  { exists g1, st1. cbn. by rewrite app_nil_r. }
  destruct (IH (fs ++ invocation_fill accs) g1 (Some st1) 0) as (g2 & st2 & -> & Ho2 & Hc2 & Ha2 & Hs2); try done.
  - by destruct Hs1 as (? & ? & ? & ? & ->).
  - by eapply footprint_regions.
  - rewrite length_app. lia.
  - rewrite length_app. lia.
  - exists g2, st2. split; [done|]. split; [done|]. split; [by rewrite Hc2|]. split; [done|]. by eapply same_but_regions_trans.
Qed.

(** The entries of a context. *)
Definition script (c : context) : list (shadowEntry → shadowEntry) :=
  (alloc_fill <$> c_blocks c) ++ concat (invocation_fill <$> c_invocations c) ++ [name_fill 0 STATE_COMMIT].

Lemma filled_fmap {A} (fill : A → shadowEntry → shadowEntry) (R : A → shadowEntry → Prop) l base :
  (∀ x e, R x (fill x e)) → (List.length l <= List.length base)%nat → Forall2 R l (filled (fill <$> l) base).
Proof.
  intros HR. revert base. induction l as [|x l IH]; intros [|e base] H; cbn in *; [constructor|constructor|lia|].
  constructor; [apply HR|]. apply IH. lia.
Qed.

Lemma filled_invocation accs base : (List.length (invocation_fill accs) <= List.length base)%nat → invocation_entries 0 accs (filled (invocation_fill accs) base).
Proof.
  intros H. unfold invocation_fill in *. destruct base as [|e base]; [cbn in H; lia|]. cbn [List.length] in H. rewrite length_app, length_fmap in H. cbn in H.
  assert (filled (name_fill 0 STATE_BEGIN :: (access_fill <$> accs) ++ [name_fill 0 STATE_END]) (e :: base) =
    name_fill 0 STATE_BEGIN e :: filled ((access_fill <$> accs) ++ [name_fill 0 STATE_END]) base) as -> by done.
  rewrite filled_app, length_fmap. destruct (lookup_lt_is_Some_2 base (List.length accs)) as [e' He']; [lia|]. rewrite (drop_S _ _ _ He').
  exists (name_fill 0 STATE_BEGIN e), (filled (access_fill <$> accs) base), (name_fill 0 STATE_END e'). split; [done|]. split; [done|]. split; [|done].
  apply filled_fmap; [|lia]. intros [[p w] i] e0. by destruct w.
Qed.

Lemma filled_invocations invs base : (List.length (concat (invocation_fill <$> invs)) <= List.length base)%nat →
  ∃ ess, Forall2 (invocation_entries 0) invs ess ∧ filled (concat (invocation_fill <$> invs)) base = concat ess.
Proof.
  revert base. induction invs as [|accs invs IH]; intros base H; [by exists []|]. rewrite fmap_cons in *. cbn [concat] in *. rewrite length_app in H.
  destruct (IH (drop (List.length (invocation_fill accs)) base)) as (ess & He & Hc); [rewrite length_drop; lia|].
  exists (filled (invocation_fill accs) base :: ess). rewrite filled_app, Hc. split; [|done]. constructor; [|done]. apply filled_invocation. lia.
Qed.

Lemma filled_script c base : (List.length (script c) <= List.length base)%nat →
  ∃ A ess C, filled (script c) base = A ++ concat ess ++ [C] ∧ Forall2 is_alloc_entry (c_blocks c) A ∧
    Forall2 (invocation_entries 0) (c_invocations c) ess ∧ names 0 STATE_COMMIT C.
Proof.
  intros H. unfold script in *. rewrite !length_app, length_fmap in H. cbn in H. rewrite !filled_app, length_fmap.
  destruct (filled_invocations (c_invocations c) (drop (List.length (c_blocks c)) base)) as (ess & Hess & ->); [rewrite length_drop; lia|].
  set (base' := drop _ (drop _ base)).
  assert (0 < List.length base')%nat as Hb by (unfold base'; rewrite !length_drop; lia). destruct base' as [|e base']; [cbn in Hb; lia|].
  exists (filled (alloc_fill <$> c_blocks c) base), ess, (name_fill 0 STATE_COMMIT e). split; [done|]. split; [|done].
  apply filled_fmap; [done|lia].
Qed.
(** *** A context *)

Lemma heap_states t rt bs sts : heap t rt bs → (∀ s, is_Some (states rt !! s) → is_Some (sts !! s)) → heap t (set_states sts rt) bs.
Proof.
  intros [G1 G2 G3 G4 G5 G6 G7] Hdom. split; try done; [by eapply table_ok_length_ext; [|exact G1]|].
  intros a b Hb. destruct (G4 _ _ Hb) as (ob & ? & ? & ? & [H1 H2]). exists ob. split; [done|]. split; [done|]. split; [done|]. split.
  - destruct (affiliatedState ob) as [s|]; [|done]. by apply Hdom.
  - intros s i Hi. destruct (H2 _ _ Hi). split; [by apply Hdom|done].
Qed.

(** The buffers as [texas_init] leaves them. *)
Definition initial_buffer (i : nat) : list shadowEntry :=
  match i with O => memset_zero SHADOW_WINDOW (malloc_buffer 0) | S _ => malloc_buffer i end.

(** Between two contexts: [n] buffers are used, [k] buffers were not used so far. *)
Record ready (g : Globals) (bs : list (aptr * block)) (n k : nat) (o : option State) : Prop := {
  rd_table : ∃ t, allocationMap g = Some t ∧ heap t (store g) bs;
  rd_rt : inRT g = false;
  rd_active : activeState g = None;
  rd_old : oldState g = None;
  rd_slot : slotStart g = 0%nat;
  rd_buffers : ∃ junk, texasWorkEntries g :: texasReadyBatchEntriesQueue g = (initial_buffer <$> seq n k) ++ junk;
  rd_rec a s c v : ¬ rec (store g) a s c v;
  rd_region : at_region g o;
  rd_clean st : o = Some st → sets st = empty_sets ∧ statePtrMap st = ∅;
}.

Lemma ready_footprint g bs n k o : ready g bs n k o → footprint_ok g.
Proof.
  intros [(t & Ht & Hh) _ _ _ _ _ _ _ _]. unfold footprint_ok, GetMemFootprint. exists t.
  rewrite (footprint_fold (λ e : Z * aptr, e.2)); [by eexists|..|done].
  intros [k' a] Hin. apply (hp_entries _ _ _ Hh) in Hin as (b & Hb & _). destruct (hp_block _ _ _ Hh _ _ Hb) as (ob & ? & _). by exists ob.
Qed.

Lemma is_region_wf g st : states (store g) = {[0%nat := st]} → is_region st → states_wf (states (store g)).
Proof. intros -> Hr s st' p Hs. apply lookup_singleton_Some in Hs as [_ <-]. by rewrite (ir_root _ Hr). Qed.

(** What [malloc] is asked for, and the sets that are tracked. *)
Context (buffer_size : ∀ i, List.length (malloc_buffer i) = SHADOW_WINDOW).
Context (inputs : trackInput cfg = true) (outputs : trackOutput cfg = true).

Record context_ok (bs : list block) (c : context) : Prop := {
  cx_placed : placed_all bs (c_blocks c);
  cx_invoked : c_invocations c ≠ [];
  cx_addresses accs x : accs ∈ c_invocations c → x ∈ accs → u64 x.1.1;
  cx_fits : (List.length (script c) < SHADOW_WINDOW)%nat;
}.

(** The worker reads one slot more than a context wrote.  In the first batch
    [texas_init] has cleared it, if the context is short enough; otherwise it is what
    [malloc] left there. *)
Definition slot_free (i : nat) (c : context) : Prop :=
  (i = 0%nat ∧ (List.length (script c) < SHADOW_WINDOW / sizeof_shadowEntry)%nat) ∨
  ∃ e, malloc_buffer i !! List.length (script c) = Some e ∧ eoperation e = FREE_SLOT.

Lemma initial_buffer_size i : List.length (initial_buffer i) = SHADOW_WINDOW.
Proof. destruct i; cbn [initial_buffer]; [rewrite memset_zero_length|]; apply buffer_size. Qed.

(** Only the first buffer is cleared. *)
Lemma initial_buffers n : initial_buffer <$> seq 0 (S n) = memset_zero SHADOW_WINDOW (malloc_buffer 0) :: (malloc_buffer <$> seq 1 n).
Proof.
  cbn [seq fmap list_fmap]. f_equal. apply list_fmap_ext. intros i x Hx. apply lookup_seq in Hx as [-> _]. done.
Qed.

Lemma slot_free_initial i c : slot_free i c → (List.length (script c) < SHADOW_WINDOW)%nat →
  ∃ e, initial_buffer i !! List.length (script c) = Some e ∧ eoperation e = FREE_SLOT.
Proof.
  intros H Hlt. destruct i as [|i]; cbn [initial_buffer].
  2:{ destruct H as [[? _]|H]; [done|exact H]. }
  destruct (lookup_lt_is_Some_2 (malloc_buffer 0) (List.length (script c))) as [e He]; [by rewrite buffer_size|].
  unfold memset_zero. rewrite list_lookup_imap, He. eexists. split; [done|].
  destruct H as [[_ H]|(e' & He' & Hfree)].
  - apply memset_entry_clears. unfold sizeof_shadowEntry in *.
    pose proof (Nat.Div0.mul_div_le SHADOW_WINDOW 56). lia.
  - rewrite He in He'. injection He' as <-. by apply memset_entry_free.
Qed.

(** What a context reports of an offset of an object. *)
Definition reports (bs : list (aptr * block)) (c : context) (o : operation) (a : aptr) (v : Z) : Prop :=
  ∃ b p, (a, b) ∈ bs ∧ bcovers b p ∧ v = p -₆₄ b_address b ∧ classify (history p (bare (c_invocations c))) = Some o.

(** The automaton leaves the rest of a region alone. *)
Definition outer (st : State) : string * Z * Z * option sptr * StateSets * StateSets :=
  (functionName st, lineNumber st, stateID st, parent st, sets st, final_sets st).

Lemma run_invocations_outer st invs : outer (run_invocations st invs) = outer st.
Proof.
  rewrite <- apply_invocations. generalize (invs ≫= invocation_events). intros evs. revert st.
  induction evs as [|ev evs IH]; intros st; [done|]. cbn [foldl]. rewrite IH.
  destruct ev as [|p op|]; [done| |done]. cbn [apply_event]. unfold fsa_access. repeat case_match; done.
Qed.

(** Processing a cleaned context. *)
Lemma process_context sm bs blocks A X C sh rt st : Forall2 is_alloc_entry blocks A → Forall (region_entry 0) X → names 0 STATE_COMMIT C →
  hasLeft sh = false → heap (localAllocationTable sh) rt bs → placed_all bs.*2 blocks → (∀ a s o v, ¬ rec rt a s o v) →
  states rt = {[0%nat := st]} → is_region st → sets st = empty_sets →
  ∃ sh' rt' new st', process_overflow mem strong_components cfg sm (A ++ X ++ [C]) sh rt = Some (sh', rt') ∧
    new.*2 = blocks ∧ heap (localAllocationTable sh') rt' (bs ++ new) ∧ (∀ a s o v, ¬ rec rt' a s o v) ∧
    states rt' = {[0%nat := st']} ∧ is_region st' ∧ sets st' = empty_sets ∧ statePtrMap st' = ∅ ∧
    ∀ o a v, is_class o → in_class (final_sets st') o a v ↔ in_class (final_sets st) o a v ∨
      ∃ e b, e ∈ X ∧ o = eoperation e ∧ (a, b) ∈ bs ++ new ∧ bcovers b (ptr e) ∧ v = ptr e -₆₄ b_address b.
Proof.
  intros HA HX [HC HCs] Hleft Hh Hp Hrec Hst Hr Hempty.
  assert (∀ rt0 : Runtime, states rt0 = states rt → states rt0 !! 0%nat = Some st ∧ states_wf (states rt0)) as Hlook.
  { intros rt0 ->. split; [by rewrite Hst, lookup_singleton_eq|]. intros s st0 p Hs. rewrite Hst in Hs. apply lookup_singleton_Some in Hs as [_ <-].
    by rewrite (ir_root _ Hr). }
  destruct (process_allocs mem strong_components cfg sm blocks A HA bs sh rt Hh Hp) as (sh1 & rt1 & new & H1 & Hl1 & Hh1 & Hn & Hs1 & Hr1).
  rewrite Hleft in Hl1. destruct (Hlook rt1 Hs1) as [Hst1 Hwf1].
  destruct (process_region mem strong_components cfg sm 0 st X HX (bs ++ new) sh1 rt1 Hl1 Hh1 Hst1 (ir_root _ Hr) Hwf1) as (rt2 & H2 & Hh2 & Hs2 & Hr2).
  destruct (Hlook rt2 (eq_trans Hs2 Hs1)) as [Hst2 Hwf2].
  assert (∀ a s o v, rec rt2 a s o v → s = 0%nat ∧ ∃ e b, e ∈ X ∧ o = eoperation e ∧ (a, b) ∈ bs ++ new ∧ bcovers b (ptr e) ∧ v = ptr e -₆₄ b_address b) as Hrec2.
  { intros a s o v H. pose proof (proj1 H) as Ho. apply Hr2 in H as [H|H]; [|done|done]. apply Hr1 in H. by destruct (Hrec a s o v). }
  destruct (process_commit_entry mem strong_components cfg sm (bs ++ new) C sh1 rt2 0 st HC HCs Hl1 Hh2 Hwf2 Hst2 Hempty)
    as (rt3 & st' & H3 & Hh3 & Hp3 & Hr3 & Hst3 & E1 & E2 & E3 & E4 & E5 & Hfin).
  { intros a s o v (_ & e & b & _ & _ & Hin & _)%Hrec2. by exists b. }
  exists sh1, rt3, new, st'. split.
  { rewrite !process_app, H1. cbn [mbind option_bind]. rewrite process_app, H2. cbn [mbind option_bind]. rewrite process_cons, H3. done. }
  split; [done|]. split; [done|]. split; [done|]. split; [|split; [|split; [done|split; [done|]]]].
  - apply map_eq. intros s. destruct (decide (s = 0%nat)) as [->|Hne]; [by rewrite Hst3, lookup_singleton_eq|].
    rewrite lookup_singleton_ne by done. specialize (Hp3 s). rewrite Hs2, Hs1, Hst, lookup_singleton_ne in Hp3 by done. by destruct (states rt3 !! s).
  - destruct Hr as [R1 R2 R3 R4]. split; [congruence|congruence|congruence|]. specialize (Hp3 0%nat). rewrite Hst3, Hst2 in Hp3. cbn in Hp3. congruence.
  - intros o a v Ho. rewrite Hfin by done. pose proof (Hrec a 0%nat o v) as Hno. split.
    + intros [H|H]; [by left|right]. by apply Hrec2 in H as [_ H].
    + intros [H|H]; [by left|right]. apply Hr2; [done|]. by right.
Qed.

(** The batch of a context, from the batch as it was written to the final sets. *)
Lemma context_batch base q g bs c st t z : context_ok bs.*2 c →
  List.length base = SHADOW_WINDOW → base !! List.length (script c) = Some q → eoperation q = FREE_SLOT → allocationMap g = Some t → heap t (store g) bs → (∀ a s o v, ¬ rec (store g) a s o v) →
  oldState g = None → states (store g) = {[0%nat := st]} → is_region st → sets st = empty_sets → statePtrMap st = ∅ →
  ∃ buf sh rt new st', serialProcessShadowBatch cfg mem strong_components (mkBatch (List.length (script c)) (texasWorkEntries (push (script c) base g)) z)
      (set_curBatchNumber (curBatchNumber g +₆₄ 1) (push (script c) base g)) =
    Some (set_readyQueue (texasReadyBatchEntriesQueue g ++ [buf]) (set_allocationMap (Some (localAllocationTable sh)) (set_oldState None
      (set_store rt (set_curBatchNumber (curBatchNumber g +₆₄ 1) (push (script c) base g)))))) ∧
    new.*2 = c_blocks c ∧ heap (localAllocationTable sh) rt (bs ++ new) ∧ (∀ a s o v, ¬ rec rt a s o v) ∧
    states rt = {[0%nat := st']} ∧ is_region st' ∧ sets st' = empty_sets ∧ statePtrMap st' = ∅ ∧
    ∀ o a v, is_class o → in_class (final_sets st') o a v ↔ in_class (final_sets st) o a v ∨ reports (bs ++ new) c o a v.
Proof.
  intros Hc Hbase Hq Hfree Ht Hh Hrec Hold Hst Hr Hempty Hmap. destruct Hc as [Hp Hne Hu Hfits]. set (n := List.length (script c)) in *.
  destruct (filled_script c base) as (A & ess & C & Hfilled & HA & HI & HC); [lia|].
  assert (List.length (filled (script c) base) = n) as Hlen by (apply filled_length; lia).
  unfold serialProcessShadowBatch. cbn [numEntries shadowEntries]. set (gp := set_curBatchNumber _ _).
  assert (texasWorkEntries (push (script c) base g) = filled (script c) base ++ drop n base) as -> by done.
  rewrite decide_False by (rewrite length_app, length_drop; lia).
  assert (oldState gp = None ∧ store gp = store g ∧ allocationMap gp = Some t) as (-> & -> & ->) by (split; [exact Hold|split; [done|exact Ht]]).
  rewrite take_app_length', drop_app_length' by done. rewrite Hfilled.
  destruct (cleanBatch_context cfg 0 (c_blocks c) A (c_invocations c) ess C (store g) st inputs outputs HA HI HC) as (X & Hclean & HX & Hcls);
    [by rewrite Hst, lookup_singleton_eq|apply Hr|done|done|].
  pose proof (cleanBatch_length _ _ _ _ _ _ _ Hclean) as Hlen'. rewrite <- Hfilled, Hlen in Hlen'. rewrite Hclean. cbn [mbind option_bind].
  set (rt1 := put_state 0 _ (store g)).
  assert (states rt1 = {[0%nat := run_invocations st (bare (c_invocations c))]}) as Hst1.
  { unfold rt1, put_state, upd_state. cbn [states set_states]. rewrite Hst. by rewrite alter_singleton_eq. }
  pose proof (run_invocations_outer st (bare (c_invocations c))) as Hout. unfold outer in Hout. injection Hout as O1 O2 O3 O4 O5 O6.
  destruct (process_context (stateMap gp) bs (c_blocks c) A X C (new_Shadow t false) rt1 (run_invocations st (bare (c_invocations c))))
    as (sh & rt2 & new & st' & Hrun & Hn & Hh2 & Hr2 & Hst2 & Hreg & E1 & E2 & Hfin); try done.
  { apply (heap_states t (store g)); [done|]. intros s. rewrite Hst. intros [st0 Hs]. apply lookup_singleton_Some in Hs as [<- _]. rewrite lookup_alter_eq.
    rewrite lookup_singleton_eq. by eexists. }
  { destruct Hr as [R1 R2 R3 R4]. split; congruence. }
  { by rewrite O5. }
  unfold processShadowBatch. change (clear_overflow (new_Shadow t false)) with (new_Shadow t false). rewrite Nat.sub_0_r.
  set (buf := (A ++ X ++ [C]) ++ drop n base).
  destruct (process_range_list mem strong_components cfg (stateMap gp) (S n) 0 buf (new_Shadow t false) rt1 sh rt2) as (buf' & ->).
  { unfold buf. rewrite (drop_S _ _ _ Hq). rewrite drop_0, cons_middle, app_assoc, take_app_length'.
    - rewrite process_app, Hrun. cbn [mbind option_bind]. rewrite process_cons. unfold process_entry.
      by rewrite Hfree.
    - rewrite length_app. cbn. lia. }
  { unfold buf. rewrite length_app, length_drop. lia. }
  cbn [mbind option_bind]. exists buf', sh, rt2, new, st'. split; [done|]. split; [done|]. split; [done|]. split; [done|]. split; [done|].
  split; [done|]. split; [done|]. split; [done|]. intros o a v Ho. rewrite Hfin, O6 by done. unfold reports. split.
  - intros [H|(e & b & He & -> & Hin & Hb & ->)]; [by left|right]. exists b, (ptr e). split; [done|]. split; [done|]. split; [done|].
    apply Hcls; [done|]. by exists e.
  - intros [H|(b & p & Hin & Hb & -> & Hp')]; [by left|right]. apply Hcls in Hp' as (e & He & <- & <-); [|done]. by exists e, b.
Qed.

Lemma run_context_ready g bs n k o c : ready g bs n (S k) o → context_ok bs.*2 c → slot_free n c →
  ∃ g' new st', run_context g c = Some g' ∧ new.*2 = c_blocks c ∧ ready g' (bs ++ new) (S n) k (Some st') ∧
    ∀ cls a v, is_class cls →
      in_class (final_sets st') cls a v ↔ in_class (default empty_sets (final_sets <$> o)) cls a v ∨ reports (bs ++ new) c cls a v.
Proof.
  intros Hready Hc Hslot_free. pose proof Hc as [Hp Hne Hu Hfits]. pose proof (ready_footprint _ _ _ _ _ Hready) as Hfoot.
  pose proof (initial_buffer_size n) as Hbase. destruct (slot_free_initial n c Hslot_free Hfits) as (q & Hq & Hfree).
  destruct Hready as [(t & Ht & Hh) Hrt Hact Hold Hslot (junk & Hbufs) Hrec Hreg Hclean]. cbn [seq fmap list_fmap app] in Hbufs. set (base := initial_buffer n) in *. injection Hbufs as Hbuf Hready.
  unfold script in Hfits. rewrite !length_app, length_fmap in Hfits. cbn [List.length] in Hfits.
  assert (g = push [] base g) as Hpush by (destruct g; cbn in *; by subst).
  assert (run_context g c = run_context (push [] base g) c) as -> by (by rewrite <- Hpush).
  unfold run_context. rewrite (many_push allocate alloc_fill); [| |cbn; lia..].
  2:{ intros b fs ? ?. by eapply allocate_push. }
  cbn [mbind option_bind app].
  destruct (invokes_push base (c_invocations c) (alloc_fill <$> c_blocks c) g o 0 Hrt Hreg Hact Hfoot)
    as (g1 & st & -> & (Hm1 & Hs1 & Hr1) & Hc1 & Ha1 & (sts & act & sm & id & Heq)); [rewrite length_fmap; lia..|done|]. cbn [mbind option_bind].
  unfold EndStateInvocation.
  assert (∀ fs, stateMap (push fs base g1) !! 0 = Some (Some 0%nat)) as -> by (intros fs; cbn; by rewrite Hm1, lookup_singleton_eq).
  fold (name_fill 0 STATE_COMMIT). rewrite (fill_slot_push (name_fill 0 STATE_COMMIT)) by (rewrite length_app, length_fmap; lia). cbn [mbind option_bind].
  assert (((alloc_fill <$> c_blocks c) ++ concat (invocation_fill <$> c_invocations c)) ++ [name_fill 0 STATE_COMMIT] = script c) as ->
    by (unfold script; by rewrite <- app_assoc).
  assert (contents st = default no_contents (contents <$> o)) as Hcont by done. unfold contents in Hcont.
  assert (sets st = empty_sets ∧ statePtrMap st = ∅ ∧ final_sets st = default empty_sets (final_sets <$> o)) as (Es & Em & Ef).
  { destruct o as [st0|]; cbn in Hcont; injection Hcont as -> -> ->; [|done]. destruct (Hclean st0 eq_refl) as [-> ->]. done. }
  assert (heap t (store g1) bs) as Hh1.
  { rewrite Heq. apply (heap_states t (store g)); [done|]. intros s. subst g1. cbn in Hs1. rewrite Hs1.
    destruct o as [st0|]; [destruct Hreg as (_ & -> & _); intros [? H]; apply lookup_singleton_Some in H as [<- _]; rewrite lookup_singleton_eq; by eexists|].
    destruct Hreg as (_ & _ & ->). intros [? H]. by rewrite lookup_empty in H. }
  destruct (context_batch base q g1 bs c st t (curBatchNumber g1) Hc) as (buf & sh & rt & new & st' & Hser & Hn & Hh2 & Hr2 & Hst2 & Hreg2 & E1 & E2 & Hfin);
    try done; try (by subst g1).
  unfold batchFull. assert (slotStart (push (script c) base g1) = List.length (script c)) as -> by done.
  assert (curBatchNumber (push (script c) base g1) = curBatchNumber g1) as -> by done. rewrite Hser. cbn [mbind option_bind].
  assert (texasReadyBatchEntriesQueue g1 = texasReadyBatchEntriesQueue g) as Eq by (by subst g1).
  cbn [texasReadyBatchEntriesQueue set_readyQueue]. rewrite Eq, Hready.
  destruct (((initial_buffer <$> seq (S n) k) ++ junk) ++ [buf]) as [|buf1 rest] eqn:Er; [by destruct ((initial_buffer <$> seq (S n) k) ++ junk)|].
  eexists _, new, st'. split; [reflexivity|]. split; [done|]. split; [|intros cls a v Hcls; rewrite Hfin, Ef by done; done].
  split; cbn [set_texasWorkEntries set_readyQueue set_slotStart set_allocationMap set_oldState set_store set_curBatchNumber push
    allocationMap store inRT activeState oldState slotStart texasWorkEntries texasReadyBatchEntriesQueue stateMap currentStateID].
  - by exists (localAllocationTable sh).
  - by subst g1.
  - done.
  - done.
  - done.
  - exists (junk ++ [buf]). by rewrite <- Er, app_assoc.
  - done.
  - done.
  - intros st0 [= <-]. done.
Qed.

(** ** Sessions *)

Fixpoint session_ok (bs : list block) (contexts : list context) : Prop :=
  match contexts with [] => True | c :: contexts => context_ok bs c ∧ session_ok (bs ++ c_blocks c) contexts end.

(** The contexts in which a block is known: from its allocation on. *)
Fixpoint known_in (b : block) (contexts : list context) : list context :=
  match contexts with
  | [] => []
  | c :: contexts' => if decide (b ∈ c_blocks c) then contexts else known_in b contexts'
  end.
Lemma heap_block_unique t rt bs a a' b : heap t rt bs → (a, b) ∈ bs → (a', b) ∈ bs → a = a'.
Proof.
  intros Hh H1 H2. eapply (entry_functional t rt (b_address b)); [apply Hh|apply (hp_entries _ _ _ Hh); by exists b..].
Qed.

Lemma run_contexts contexts : ∀ g bs n k o, ready g bs n k o → (List.length contexts <= k)%nat → session_ok bs.*2 contexts →
  (∀ i c, contexts !! i = Some c → slot_free (n + i) c) →
  ∃ g' new o', mfoldl run_context g contexts = Some g' ∧ new.*2 = concat (c_blocks <$> contexts) ∧
    ready g' (bs ++ new) (n + List.length contexts) (k - List.length contexts) o' ∧ (contexts = [] ∨ is_Some o') ∧
    ∀ cls a v, is_class cls → in_class (default empty_sets (final_sets <$> o')) cls a v ↔ in_class (default empty_sets (final_sets <$> o)) cls a v ∨
      ∃ b p c, (a, b) ∈ bs ++ new ∧ bcovers b p ∧ v = p -₆₄ b_address b ∧ c ∈ (if decide (b ∈ bs.*2) then contexts else known_in b contexts) ∧
        classify (history p (bare (c_invocations c))) = Some cls.
Proof.
  induction contexts as [|c contexts IH]; intros g bs n k o Hready Hk Hok Hslots.
  { exists g, [], o. rewrite app_nil_r, Nat.sub_0_r, Nat.add_0_r. split; [done|]. split; [done|]. split; [done|]. split; [by left|].
    intros cls a v _. split; [by left|]. intros [H|(b & p & c & _ & _ & _ & H & _)]; [done|]. by destruct (decide (b ∈ bs.*2)); apply elem_of_nil in H. }
  destruct Hok as [Hc Hok]. destruct k as [|k]; [cbn in Hk; lia|]. cbn [List.length] in Hk.
  destruct (run_context_ready g bs n k o c Hready Hc) as (g1 & new1 & st1 & H1 & Hn1 & Hready1 & Hfin1);
    [by rewrite <- (Nat.add_0_r n); apply Hslots|].
  destruct (IH g1 (bs ++ new1) (S n) k (Some st1) Hready1) as (g2 & new2 & o2 & H2 & Hn2 & Hready2 & Ho2 & Hfin2); [lia|by rewrite fmap_app, Hn1|intros i c' Hi; rewrite Nat.add_succ_comm; by apply Hslots|].
  exists g2, (new1 ++ new2), o2. cbn [mfoldl]. rewrite H1. cbn [mbind option_bind]. rewrite <- app_assoc, Nat.add_succ_comm in Hready2. split; [done|].
  split; [by rewrite fmap_app, Hn1, Hn2|]. split; [done|]. split.
  { right. destruct Ho2 as [->|Ho2]; [|done]. cbn in H2. injection H2 as <-. destruct o2; [by eexists|].
    destruct (rd_region _ _ _ _ _ Hready1) as [E _], (rd_region _ _ _ _ _ Hready2) as [E' _]. by rewrite E in E'. }
  destruct (rd_table _ _ _ _ _ Hready2) as (t2 & _ & Hh2).
  intros cls a v Hcls. rewrite Hfin2, Hfin1 by done. cbn [fmap option_fmap option_map default from_option id]. unfold reports.
  assert (∀ b, b ∈ (bs ++ new1).*2 ↔ b ∈ bs.*2 ∨ b ∈ c_blocks c) as Hmem by (intros b; by rewrite fmap_app, elem_of_app, Hn1).
  split.
  - intros [[H|(b & p & Hin & Hb & Hv & Hp)]|(b & p & c' & Hin & Hb & Hv & Hc' & Hp)]; [by left|right..].
    + exists b, p, c. rewrite app_assoc, elem_of_app. split; [by left|]. split; [done|]. split; [done|]. split; [|done].
      assert (b ∈ (bs ++ new1).*2) as Hb2 by (apply list_elem_of_fmap; by exists (a, b)). apply Hmem in Hb2.
      cbn [known_in]. case_decide; [by left|]. rewrite decide_True by tauto. by left.
    + exists b, p, c'. rewrite app_assoc. split; [done|]. split; [done|]. split; [done|]. split; [|done]. cbn [known_in].
      pose proof (Hmem b) as Hmb. destruct (decide (b ∈ (bs ++ new1).*2)) as [Hy|Hy].
      * apply Hmb in Hy. case_decide; [by right|]. rewrite decide_True by tauto. by right.
      * case_decide; [tauto|]. by rewrite decide_False by tauto.
  - intros [H|(b & p & c' & Hin & Hb & Hv & Hc' & Hp)]; [by left; left|]. cbn [known_in] in Hc'.
    pose proof (Hmem b) as Hmb. destruct (decide (b ∈ (bs ++ new1).*2)) as [Hy|Hy].
    + assert (c' ∈ c :: contexts) as [->|Hin']%elem_of_cons.
      { apply Hmb in Hy. destruct (decide (b ∈ bs.*2)); [done|]. by rewrite decide_True in Hc' by tauto. }
      * left. right. exists b, p. split; [|done]. apply list_elem_of_fmap in Hy as ([a' b'] & -> & Hy). cbn in *.
        assert (a = a') as ->; [|done]. eapply (heap_block_unique _ _ _ _ _ b' Hh2); [done|]. rewrite app_assoc, elem_of_app. by left.
      * right. exists b, p, c'. rewrite <- app_assoc. split; [done|]. split; [done|]. split; [done|]. split; [|done]. by rewrite decide_True.
    + right. exists b, p, c'. rewrite <- app_assoc. split; [done|]. split; [done|]. split; [done|]. split; [|done]. rewrite decide_False by done.
      rewrite !decide_False in Hc' by tauto. done.
Qed.

(** The run time after its initialisation. *)
Lemma init_ready : (0 < NUM_BATCHES)%nat → ∃ g, texas_init SHADOW_WINDOW NUM_BATCHES malloc_buffer empty_globals = Some g ∧ ready g [(1%positive, sentinel)] 0 NUM_BATCHES None.
Proof.
  intros Hn. unfold texas_init. destruct NUM_BATCHES as [|n] eqn:En; [lia|]. cbn [seq fmap list_fmap].
  eexists. split; [reflexivity|]. split; try done.
  - eexists. split; [reflexivity|]. cbn [store set_allocationMap set_store set_texasWorkEntries set_readyQueue].
    set (t := set_sorted _ _). set (rt := set_originToAllocMap _ _).
    assert (allocs rt !! 1%positive = Some (new_Allocation max_key 0 0)) as Hal by done.
    assert (∀ k a, (k, a) ∈ table_entries t ↔ k = max_key ∧ a = 1%positive) as Hent.
    { intros k a. assert (table_entries t = [(max_key, 1%positive)]) as -> by (vm_compute; reflexivity).
      rewrite list_elem_of_singleton. naive_solver. }
    split.
    + split.
      * vm_compute. repeat constructor.
      * vm_compute. by eexists.
      * intros [k a] [-> ->]%Hent. exists (new_Allocation max_key 0 0). split; [done|]. cbn. unfold max_key, two64. lia.
      * intros [k1 a1] [k2 a2] [-> ->]%Hent [-> ->]%Hent ob _. cbn. lia.
      * exists 0. split; [lia|]. split; [intros m Hm; by apply elem_of_nil in Hm|]. intros k a Hk.
        change ((∅ : gmap Z aptr) !! k = Some a) in Hk. by rewrite lookup_empty in Hk.
    + done.
    + intros k a. rewrite Hent. setoid_rewrite list_elem_of_singleton. split; [intros [-> ->]; by exists sentinel|by intros (b & [= -> ->] & ->)].
    + intros a b Hb. apply list_elem_of_singleton in Hb. injection Hb as -> ->. exists (new_Allocation max_key 0 0).
      split; [done|]. split; [done|]. split; [done|]. split; [done|]. intros s info Hi. cbn in Hi. by rewrite lookup_empty in Hi.
    + intros a Ha. cbn in Ha |- *. rewrite lookup_insert_ne by lia. apply lookup_empty.
    + intros x a Hx. cbn in Hx. by rewrite lookup_empty in Hx.
    + intros a b b' Hb Hb'. apply list_elem_of_singleton in Hb, Hb'. congruence.
  - exists []. rewrite app_nil_r. by rewrite initial_buffers.
  - intros a s o v (_ & ob & Hob & (info & offs & Hi & _)). cbn in Hob. apply lookup_insert_Some in Hob as [[_ <-]|[_ Hob]].
    + cbn in Hi. by rewrite lookup_empty in Hi.
    + by rewrite lookup_empty in Hob.
Qed.

(** C1: from the calls of a program to the sets that are saved.  A program that allocates
    blocks apart from each other, each under an origin of its own, and runs one region in
    at least one and at most [NUM_BATCHES] contexts, the entries of each of which (blocks,
    starts, accesses and ends of any number of invocations, and the commit) are fewer than
    a batch has slots, runs to its end; and afterwards an offset of a block is in the final
    set of a class if and only if that is the class (by the declarative definition over the
    accesses of the invocations) of its address in one of the contexts since the block was
    allocated.  So every access is accounted for, and in no other class, block or offset.
    Inputs and outputs are tracked.  The worker reads the slot behind the last entry of a
    context: for the first context [texas_init] has cleared it if the context is shorter
    than the entries that fit in [SHADOW_WINDOW] bytes; for a later one (or a longer first
    one) that one slot has to be free in what [malloc] returned.  Nothing is assumed of
    the rest of the buffers. *)
Theorem session_classifies contexts : contexts ≠ [] → (List.length contexts <= NUM_BATCHES)%nat → session_ok [sentinel] contexts →
  (∀ i c, contexts !! i = Some c → slot_free i c) →
  ∃ g st objects, run_session contexts = Some g ∧ activeState g = None ∧ stateMap g = {[0 := Some 0%nat]} ∧
    states (store g) = {[0%nat := st]} ∧ is_region st ∧ objects.*2 = concat (c_blocks <$> contexts) ∧
    (∀ a b, (a, b) ∈ objects → ∃ ob, allocs (store g) !! a = Some ob ∧ pointer ob = b_address b ∧ length ob = b_length b) ∧
    (∀ a b cls i, (a, b) ∈ objects → is_class cls → 0 <= i < b_length b →
      in_class (final_sets st) cls a i ↔
      ∃ c, c ∈ known_in b contexts ∧ classify (history (b_address b + i) (bare (c_invocations c))) = Some cls) ∧
    ∀ a cls v, is_class cls → in_class (final_sets st) cls a v → ∃ b, (a, b) ∈ (1%positive, sentinel) :: objects ∧ (v = 0 ∨ 0 <= v < b_length b).
Proof.
  intros Hne Hlen Hok Hslots. destruct init_ready as (g0 & Hinit & Hready); [destruct contexts; [done|cbn in Hlen; lia]|].
  destruct (run_contexts contexts g0 _ 0%nat _ _ Hready Hlen Hok Hslots) as (g & new & o & Hrun & Hnew & Hready' & Ho & Hfin).
  destruct Ho as [->|[st ->]]; [done|]. destruct (rd_region _ _ _ _ _ Hready') as (Hm & Hs & Hr). destruct (rd_table _ _ _ _ _ Hready') as (t & _ & Hh).
  assert (∀ b, b ∈ concat (c_blocks <$> contexts) → 0 <= b_address b ∧ 0 < b_length b ∧ b_address b + b_length b <= max_key) as Hpos.
  { clear -Hok. revert Hok. generalize [sentinel]. induction contexts as [|c contexts IH]; intros bs Hok b Hb; [by apply elem_of_nil in Hb|].
    destruct Hok as [[Hp _ _ _] Hok]. rewrite fmap_cons in Hb. cbn [concat] in Hb. apply elem_of_app in Hb as [Hb|Hb]; [|by eapply IH].
    clear -Hp Hb. revert bs Hp. induction (c_blocks c) as [|b0 l IH]; intros bs Hp; [by apply elem_of_nil in Hb|].
    destruct Hp as [[H1 H2 H3 _ _] Hp]. apply elem_of_cons in Hb as [->|Hb]; [done|by eapply IH]. }
  assert (∀ a b, (a, b) ∈ new → 0 <= b_address b ∧ 0 < b_length b ∧ b_address b + b_length b <= max_key) as Hpos'.
  { intros a b Hb. apply Hpos. rewrite <- Hnew. apply list_elem_of_fmap. by exists (a, b). }
  exists g, st, new. unfold run_session. rewrite Hinit. cbn [mbind option_bind]. split; [done|]. split; [apply Hready'|]. split; [done|]. split; [done|].
  split; [done|]. split; [done|]. split; [|split].
  - intros a b Hb. destruct (hp_block _ _ _ Hh a b) as (ob & ? & ? & ? & _); [apply elem_of_app; by right|by exists ob].
  - intros a b cls i Hb Hcls Hi. rewrite (Hfin cls a i Hcls). destruct (Hpos' _ _ Hb) as (P1 & P2 & P3). split.
    + intros [(x & offs & Hx & Hl & _)|(b' & p & c & Hin & Hcov & Hv & Hc & Hp)].
      { exfalso. assert (x = ∅) as -> by (destruct cls; cbn in Hx; congruence). by rewrite lookup_empty in Hl. }
      assert (b' = b) as -> by (eapply (hp_unique _ _ _ Hh); [exact Hin|apply elem_of_app; by right]).
      rewrite decide_False in Hc by (intros E%list_elem_of_singleton; subst b; cbn in P2; lia). exists c. split; [done|].
      assert (b_address b + i = p) as ->; [|done]. rewrite sub64_small in Hv; unfold bcovers, in_block, max_key in *; [lia|].
      destruct Hcov as [->|Hcov]; lia.
    + intros (c & Hc & Hp). right. exists b, (b_address b + i), c. split; [apply elem_of_app; by right|].
      split; [right; unfold in_block; lia|]. split; [rewrite sub64_small; unfold max_key in *; lia|]. split; [|done].
      rewrite decide_False; [done|]. intros E%list_elem_of_singleton. subst b. cbn in P2. lia.
  - intros a cls v Hcls Hin. apply (Hfin cls a v Hcls) in Hin as [(x & offs & Hx & Hl & _)|(b & p & c & Hin & Hcov & -> & _)].
    { exfalso. assert (x = ∅) as -> by (destruct cls; cbn in Hx; congruence). by rewrite lookup_empty in Hl. }
    exists b. split; [done|]. destruct Hcov as [->|Hcov]; [left; by rewrite sub64_small, Z.sub_diag by (rewrite Z.sub_diag; unfold two64; lia)|].
    assert (b = sentinel ∨ (a, b) ∈ new) as [->|Hb].
    { apply elem_of_app in Hin as [Hin|Hin]; [left; apply list_elem_of_singleton in Hin; congruence|by right]. }
    + unfold in_block in Hcov. cbn in Hcov. lia.
    + right. destruct (Hpos' _ _ Hb) as (P1 & P2 & P3). unfold in_block in Hcov. rewrite sub64_small; unfold max_key in *; lia.
Qed.
End program.

(** ** A session *)
Module Demo.
Definition window : nat := 600.

(** What an earlier use left in the memory: the removal of the first block. *)
Definition leftover : shadowEntry := mkEntry ALLOC_FREE 4096 (Size 7) 3 (Some 0%nat) 5.
Definition buffer (i : nat) : list shadowEntry :=
  <[8%nat := mkEntry FREE_SLOT 0 (Size 0) 0 None 0]> (replicate window leftover).

(** Offset 4 of the first block is read and then written by the first invocation and
    read first by the second one; the second context overwrites it, and its own block. *)
Definition contexts : list context :=
  [MkContext [MkBlock 4096 24 1] [[(4100, false, 7); (4100, true, 8)]; [(4100, false, 7)]];
   MkContext [MkBlock 8192 8 2] [[(4100, true, 8)]; [(8192, true, 9)]]].

Lemma contexts_ok : session_ok window [sentinel] contexts.
Proof.
  assert (∀ accs x, accs ∈ concat (c_invocations <$> contexts) → x ∈ accs → u64 x.1.1) as Hu.
  { intros accs x Ha Hx. assert (x ∈ concat (concat (c_invocations <$> contexts))) as Hin.
    { apply list_elem_of_In, in_concat. exists accs. by split; apply list_elem_of_In. }
    clear Ha Hx. revert x Hin. apply Forall_forall. repeat constructor; vm_compute; done. }
  assert (∀ bs b, 0 <= b_address b → 0 < b_length b → b_address b + b_length b <= max_key →
    (∀ b', b' ∈ bs → (b_address b' < b_address b ∧ b_address b' + b_length b' <= b_address b) ∨ b_address b + b_length b <= b_address b') →
    (∀ b', b' ∈ bs → b_origin b' ≠ b_origin b) → placed bs b) as Hpl by (by split).
  split; [|split; [|exact I]]; (split; [|discriminate| |apply (bool_decide_unpack _); vm_compute; exact I]).
  - split; [|done]. apply Hpl; cbn; unfold max_key, two64; [lia..| |].
    + intros b' ->%list_elem_of_singleton. right. cbn. unfold max_key, two64. lia.
    + intros b' ->%list_elem_of_singleton. cbn. lia.
  - intros accs x Ha. apply Hu. apply elem_of_app. by left.
  - split; [|done]. apply Hpl; cbn; unfold max_key, two64; [lia..| |].
    + intros b' [-> | ->%list_elem_of_singleton]%elem_of_cons; [right|left]; cbn; unfold max_key, two64; lia.
    + intros b' [-> | ->%list_elem_of_singleton]%elem_of_cons; cbn; lia.
  - intros accs x Ha. apply Hu. apply elem_of_app. right. apply elem_of_app. by left.
Qed.

(** The first context wrote nine slots of the ten that are cleared, the second one
    eight. *)
Lemma slots_free i c : contexts !! i = Some c → slot_free window buffer i c.
Proof.
  destruct i as [|[|i]]; [intros [= <-]; left|intros [= <-]; right|done].
  - split; [done|]. apply (bool_decide_unpack _). vm_compute. exact I.
  - eexists. split; [vm_compute; reflexivity|done].
Qed.

(** Offset 4 is TransferIO by the first context, Output by the second one, and nothing
    else. *)
Lemma session_classifies_witness : ∃ g st a, run_session window 4 default_config demo_mem demo_scc buffer "main" 3 contexts = Some g ∧
  states (store g) = {[0%nat := st]} ∧ in_class (final_sets st) STATE_ADD_TIO a 4 ∧ in_class (final_sets st) STATE_ADD_OUTPUT a 4 ∧
  ¬ in_class (final_sets st) STATE_ADD_IO a 4.
Proof.
  destruct (session_classifies window 4 default_config demo_mem demo_scc buffer "main" 3 ltac:(done) eq_refl eq_refl contexts)
    as (g & st & objects & Hrun & _ & _ & Hst & _ & Hobj & _ & Hcls & _); [done|cbn; lia|apply contexts_ok|apply slots_free|].
  change (concat (c_blocks <$> contexts)) with [MkBlock 4096 24 1; MkBlock 8192 8 2] in Hobj.
  destruct objects as [|[a b] rest]; [discriminate Hobj|]. rewrite fmap_cons in Hobj. injection Hobj as Hb _.
  exists g, st, a. split; [exact Hrun|]. split; [exact Hst|].
  assert (∀ cls, is_class cls → in_class (final_sets st) cls a 4 ↔
    ∃ c, c ∈ known_in b contexts ∧ classify (history (b_address b + 4) (bare (c_invocations c))) = Some cls) as H.
  { intros cls Ho. apply (Hcls a b cls 4); [by left|exact Ho|subst b; cbn; lia]. }
  subst b. split; [|split].
  - apply H; [by eexists|]. eexists. split; [by left|]. vm_compute. reflexivity.
  - apply H; [by eexists|]. eexists. split; [right; by left|]. vm_compute. reflexivity.
  - intros Hin. apply H in Hin; [|by eexists]. destruct Hin as (c & Hc & E).
    assert (known_in (MkBlock 4096 24 1) contexts = contexts) as Hk by (vm_compute; reflexivity). rewrite Hk in Hc.
    apply elem_of_cons in Hc as [->|Hc]; [vm_compute in E; discriminate|].
    apply list_elem_of_singleton in Hc as ->. vm_compute in E. discriminate.
Defined.
End Demo.
