(* ===== verification/Memory.v ===== *)
(** * The memory of the profiled process

    The packer and the patcher of the runtime write to the memory of the program
    they run in: they copy blocks and overwrite stored pointers.  Memory is a
    total function from addresses to bytes, so it speaks of mapped memory only;
    a pointer is stored as eight little-endian bytes. *)

From S2P Require Import Prelude.

Definition memory : Type := Z → Z.

(** [memcpy(dst, src, n)]; [memmove] is the same function of the old memory. *)
Definition memcpy (dst src n : Z) (m : memory) : memory :=
  λ a, if decide (dst <= a ∧ a < dst + n) then m (src + (a - dst)) else m a.

(** [((uint64_t* )a)[0]] *)
Definition load64 (m : memory) (a : Z) : Z :=
  foldr (λ i acc, m (a + i) + 256 * acc) 0 [0; 1; 2; 3; 4; 5; 6; 7].

(** [((uint64_t* )a)[0] = v] *)
Definition store64 (a v : Z) (m : memory) : memory :=
  λ b, if decide (a <= b ∧ b < a + 8) then Z.shiftr v (8 * (b - a)) mod 256 else m b.

Definition bytes_ok (m : memory) : Prop := ∀ a, 0 <= m a < 256.

(** Address ranges that share no byte. *)
Definition disjoint_ranges (a n b k : Z) : Prop := a + n <= b ∨ b + k <= a.

#[export] Instance disjoint_ranges_dec a n b k : Decision (disjoint_ranges a n b k).
Proof. unfold disjoint_ranges. apply _. Defined.

Section memory_lemmas.
  Implicit Types (m : memory) (a b dst src n v : Z).

Lemma memcpy_in dst src n m i : 0 <= i < n → memcpy dst src n m (dst + i) = m (src + i).
Proof. intros ?. unfold memcpy. rewrite decide_True by lia. f_equal. lia. Qed.

Lemma memcpy_out dst src n m a : ¬ (dst <= a < dst + n) → memcpy dst src n m a = m a.
Proof. intros ?. unfold memcpy. by rewrite decide_False by lia. Qed.

Lemma memcpy_bytes dst src n m : bytes_ok m → bytes_ok (memcpy dst src n m).
Proof. intros Hm a. unfold memcpy. case_decide; apply Hm. Qed.

Lemma store64_bytes a v m : bytes_ok m → bytes_ok (store64 a v m).
Proof.
  intros Hm b. unfold store64. case_decide; [|apply Hm]. by apply Z.mod_pos_bound.
Qed.

Lemma store64_out a v m b : ¬ (a <= b < a + 8) → store64 a v m b = m b.
Proof. intros ?. unfold store64. by rewrite decide_False by lia. Qed.

(** A word is the sum of its bytes. *)
Lemma bytes_of_word v :
  u64 v →
  foldr (λ i acc, Z.shiftr v (8 * i) mod 256 + 256 * acc) 0 [0; 1; 2; 3; 4; 5; 6; 7] = v.
Proof.
  intros Hv. simpl. rewrite !Z.shiftr_div_pow2 by lia.
  change (2 ^ (8 * 0)) with 1. change (2 ^ (8 * 1)) with 256.
  change (2 ^ (8 * 2)) with (256 * 256). change (2 ^ (8 * 3)) with (256 * 256 * 256).
  change (2 ^ (8 * 4)) with (256 * 256 * 256 * 256).
  change (2 ^ (8 * 5)) with (256 * 256 * 256 * 256 * 256).
  change (2 ^ (8 * 6)) with (256 * 256 * 256 * 256 * 256 * 256).
  change (2 ^ (8 * 7)) with (256 * 256 * 256 * 256 * 256 * 256 * 256).
  rewrite Z.div_1_r, <- !Z.div_div by lia.
  assert (v / 256 / 256 / 256 / 256 / 256 / 256 / 256 / 256 = 0) as H8.
  { rewrite !Z.div_div by lia. apply Z.div_small. destruct Hv. split; [lia|].
    eapply Z.lt_le_trans; [done|]. by vm_compute. }
  repeat match goal with
  | |- context [ ?x mod 256 ] => rewrite (Z.mod_eq x 256) by lia
  end. lia.
Qed.

Lemma load64_store64_same m a v : u64 v → load64 (store64 a v m) a = v.
Proof.
  intros Hv. rewrite <- (bytes_of_word v Hv) at 2. unfold load64, store64. simpl.
  repeat (rewrite decide_True by lia). by rewrite ?Z.add_simpl_l.
Qed.

(** Words that share no byte do not interfere. *)
Lemma load64_ext m m' a : (∀ i, 0 <= i < 8 → m (a + i) = m' (a + i)) → load64 m a = load64 m' a.
Proof. intros H. unfold load64. simpl. by rewrite !H by lia. Qed.

Lemma load64_store64_other m a b v :
  disjoint_ranges a 8 b 8 → load64 (store64 a v m) b = load64 m b.
Proof.
  intros Hd. apply load64_ext. intros i Hi. apply store64_out. unfold disjoint_ranges in Hd. lia.
Qed.

Lemma load64_range m a : bytes_ok m → u64 (load64 m a).
Proof.
  intros Hm. unfold load64. simpl.
  pose proof (Hm (a + 0)); pose proof (Hm (a + 1)); pose proof (Hm (a + 2)); pose proof (Hm (a + 3)).
  pose proof (Hm (a + 4)); pose proof (Hm (a + 5)); pose proof (Hm (a + 6)); pose proof (Hm (a + 7)).
  unfold u64. change two64 with 18446744073709551616. lia.
Qed.
End memory_lemmas.

#[export] Hint Resolve memcpy_bytes store64_bytes load64_range : carmot.
