(* ===== verification/StatePacker.v ===== *)
(** * The state packer

    [extra/texas/src/runtime/state_packer.c]: blocks are laid out one after
    another in a new region, the region is mapped, and the blocks are copied
    there in the same order.  A [NULL] state is [None]; a call returns its status
    code with the state and the contents of [*target] it leaves. *)

From S2P Require Import Prelude Memory.

(** ** State *)

Record state_packer_state := Packer {
  cache_line_size : Z;
  min_alignment : Z;
  current_offset : Z;
  page_alignment : Z;
  allocation_alignment : Z;
  allocation_size : Z;
  allocation_ptr : Z
}.

Definition set_current_offset (o : Z) (p : state_packer_state) : state_packer_state :=
  Packer (cache_line_size p) (min_alignment p) o (page_alignment p)
    (allocation_alignment p) (allocation_size p) (allocation_ptr p).
Definition set_cache_line_size (c : Z) (p : state_packer_state) : state_packer_state :=
  Packer c (min_alignment p) (current_offset p) (page_alignment p)
    (allocation_alignment p) (allocation_size p) (allocation_ptr p).
Definition set_page_alignment (g : Z) (p : state_packer_state) : state_packer_state :=
  Packer (cache_line_size p) (min_alignment p) (current_offset p) g
    (allocation_alignment p) (allocation_size p) (allocation_ptr p).
Definition set_allocation (al size ptr : Z) (p : state_packer_state) : state_packer_state :=
  Packer (cache_line_size p) (min_alignment p) (current_offset p) (page_alignment p)
    al size ptr.

Definition HUGE_PAGE : Z := 1073741824.
Definition LARGE_PAGE : Z := 2097152.
Definition STANDARD_PAGE : Z := 4096.

(** ** Layout *)

Definition get_current_offset (p : state_packer_state) : Z := current_offset p.

(** The fields that are not assigned are zero: the structure comes from
    [calloc]. *)
Definition state_packer_new (min_al cache_line : Z) : state_packer_state :=
  Packer cache_line min_al 0 0 0 0 0.

Definition state_packer_start_layout (state : option state_packer_state)
    : Z * option state_packer_state :=
  match state with
  | None => (1, None)
  | Some p => (0, Some (set_current_offset 0 p))
  end.

(** The alignment in force for a block. *)
Definition effective_alignment (min_al al : Z) : Z :=
  let alignment := if decide (min_al < al) then al else min_al in
  if decide (alignment = 0) then 8 else alignment.

(** [state->current_offset += (state->current_offset % alignment)] *)
Definition align_offset (alignment offset : Z) : Z := offset +₆₄ offset mod alignment.

(** Move to the next boundary when the block would extend past it. *)
Definition avoid_boundary (boundary len offset : Z) : Z :=
  let into := offset mod boundary in
  if decide (into ≠ 0) then
    if decide (boundary < len +₆₄ into) then offset +₆₄ (boundary -₆₄ into) else offset
  else offset.

Definition state_packer_add_allocation (state : option state_packer_state)
    (ptr_to_allocation len_of_allocation alignment_of_allocation target : Z)
    : Z * option state_packer_state * Z :=
  match state with
  | None => (1, None, target)
  | Some p =>
    let alignment := effective_alignment (min_alignment p) alignment_of_allocation in
    let p := set_current_offset (align_offset alignment (current_offset p)) p in
    let p := if decide (cache_line_size p = 0) then set_cache_line_size 64 p else p in
    let p := set_current_offset
               (avoid_boundary (cache_line_size p) len_of_allocation (current_offset p)) p in
    let p := if decide (page_alignment p = 0) then set_page_alignment 4096 p else p in
    let p := set_current_offset
               (avoid_boundary (page_alignment p) len_of_allocation (current_offset p)) p in
    let target := current_offset p in
    (0, Some (set_current_offset (current_offset p +₆₄ len_of_allocation) p), target)
  end.

(** ** Move *)

Definition MAP_HUGETLB : Z := 262144.
(** [MAP_SHARED | MAP_ANONYMOUS | MAP_POPULATE] *)
Definition MAP_FLAGS : Z := Z.lor 1 (Z.lor 32 32768).
(** [PROT_EXEC | PROT_READ | PROT_WRITE] *)
Definition PROTECTIONS : Z := Z.lor 4 (Z.lor 1 2).

(** The page size and the extra flag chosen for a size. *)
Definition page_of_size (size : Z) : Z * Z :=
  if decide (HUGE_PAGE < size) then (HUGE_PAGE, MAP_HUGETLB)
  else if decide (LARGE_PAGE < size) then (LARGE_PAGE, MAP_HUGETLB)
  else (STANDARD_PAGE, 0).

Section with_os.
  (** The kernel's [mmap]: the size, the protections and the flags of an
      anonymous mapping; [None] is [MAP_FAILED], which is the address -1. *)
  Context (mmap : Z → Z → Z → option Z).

Definition MAP_FAILED : Z := two64 - 1.

  (** The local variable [offset] is 0 when it is tested, so the size is never
      rounded. *)
Definition round_size (offset size alloc_offset : Z) : Z :=
    if decide (offset ≠ 0) then size +₆₄ (size -₆₄ alloc_offset) else size.

Definition state_packer_start_move (state : option state_packer_state)
      : Z * option state_packer_state :=
    match state with
    | None => (1, None)
    | Some p =>
      let offset := 0 in
      let '(al, huge) := page_of_size (current_offset p) in
      let size := round_size offset (current_offset p) (current_offset p mod al) in
      match mmap size PROTECTIONS (Z.lor huge MAP_FLAGS) with
      | None => (1, Some (set_allocation al size MAP_FAILED p))
      | Some base => (0, Some (set_allocation al size base p))
      end
    end.
End with_os.

(** What a move leaves behind: the memory, the contents of the movement file and
    the threads that were signalled. *)
Record process := Process {
  mem : memory;
  movement_file : option (Z * Z);
  signalled : list Z
}.

Definition PATCH_SIGNAL : Z := 12.

Section with_files.
  (** Whether the movement file can be opened, and the threads [/proc] lists for
      the process ([None] when the listing cannot be opened). *)
  Context (can_open : bool) (task : option (list Z)).

Definition signal_process_threads (signo : Z) (w : process) : Z * process :=
    match task with
    | None => (-1, w)
    | Some tids => (0, Process (mem w) (movement_file w) (signalled w ++ tids))
    end.

  (** [target] is the address of the caller's pointer, [at_target] what it
      holds. *)
Definition state_packer_move_allocation (state : option state_packer_state)
      (ptr_to_allocation len_of_allocation target at_target : Z) (w : process)
      : Z * process * Z :=
    match state with
    | None => (1, w, at_target)
    | Some p =>
      let at_target := at_target +₆₄ allocation_ptr p in
      let w := Process (memcpy at_target ptr_to_allocation len_of_allocation (mem w))
                 (movement_file w) (signalled w) in
      let pointers := (ptr_to_allocation, target) in
      if can_open then
        let w := Process (mem w) (Some pointers) (signalled w) in
        (0, (signal_process_threads PATCH_SIGNAL w).2, at_target)
      else (1, w, at_target)
    end.
End with_files.

Definition state_packer_finish (state : option state_packer_state) : Z := 0.
Definition state_packer_free_mem (state : option state_packer_state) : Z := 1.
Definition state_packer_free (state : option state_packer_state) : Z := 1.

(** ** Packing a list of blocks

    The two loops of [OptimizeState] (state_optimizer.cpp): every block of the
    packing order is laid out, and then every block is moved to its target. *)

Record block := Block { b_ptr : Z; b_len : Z; b_align : Z }.

Fixpoint add_all (state : option state_packer_state) (bs : list block)
    : option state_packer_state * list Z :=
  match bs with
  | [] => (state, [])
  | b :: bs =>
    let '(_, state, t) := state_packer_add_allocation state (b_ptr b) (b_len b) (b_align b) 0 in
    let '(state, ts) := add_all state bs in (state, t :: ts)
  end.

(** The moves of the blocks whose cells are at [cells] and hold [ts]; the result
    holds what the cells hold afterwards. *)
Fixpoint move_all (can_open : bool) (task : option (list Z))
    (state : option state_packer_state) (bs : list block) (cells ts : list Z) (w : process)
    : process * list Z :=
  match bs, cells, ts with
  | b :: bs, c :: cells, t :: ts =>
    let '(_, w, t) := state_packer_move_allocation can_open task state (b_ptr b) (b_len b) c t w in
    let '(w, ts) := move_all can_open task state bs cells ts w in (w, t :: ts)
  | _, _, _ => (w, [])
  end.

(** ** Well-formed packers *)

(** The line and page sizes in force once the defaults are filled in. *)
Definition line_of (p : state_packer_state) : Z :=
  if decide (cache_line_size p = 0) then 64 else cache_line_size p.
Definition page_of (p : state_packer_state) : Z :=
  if decide (page_alignment p = 0) then 4096 else page_alignment p.

Definition packer_ok (p : state_packer_state) : Prop :=
  0 <= cache_line_size p ∧ 0 <= min_alignment p ∧ 0 <= current_offset p ∧ 0 <= page_alignment p.

(** The most that laying out a block can add to the offset. *)
Definition cost (p : state_packer_state) (b : block) : Z :=
  b_len b + effective_alignment (min_alignment p) (b_align b) + line_of p + page_of p.

Definition block_args_ok (b : block) : Prop := 0 <= b_len b ∧ 0 <= b_align b.

(** All blocks can be laid out without a wrap-around. *)
Definition room (p : state_packer_state) (bs : list block) : Prop :=
  current_offset p + foldr Z.add 0 (cost p <$> bs) < two64.

#[export] Instance packer_ok_dec p : Decision (packer_ok p).
Proof. unfold packer_ok. apply _. Defined.

(** ** The arithmetic of one step *)

Lemma effective_alignment_pos min_al al :
  0 <= min_al → 0 <= al → 0 < effective_alignment min_al al.
Proof. intros. unfold effective_alignment. repeat case_decide; lia. Qed.

Lemma line_of_pos p : packer_ok p → 0 < line_of p.
Proof. intros (?&?&?&?). unfold line_of. case_decide; lia. Qed.

Lemma page_of_pos p : packer_ok p → 0 < page_of p.
Proof. intros (?&?&?&?). unfold page_of. case_decide; lia. Qed.

Lemma align_offset_eq a o : 0 < a → 0 <= o → o + a < two64 →
  align_offset a o = o + o mod a ∧ 0 <= o mod a < a.
Proof.
  intros ? ? ?. pose proof (Z.mod_pos_bound o a). unfold align_offset.
  rewrite add64_small by lia. lia.
Qed.

(** The offset stays, or becomes the next boundary; a block no larger than the
    boundary's unit fits in one unit. *)
Lemma avoid_boundary_spec b len o :
  0 < b → 0 <= len → 0 <= o → o + len + b < two64 →
  let t := avoid_boundary b len o in
  o <= t < o + b ∧ (t = o ∨ (b | t)) ∧ (len <= b → t mod b + len <= b).
Proof.
  intros Hb Hlen Ho Hroom t. subst t. unfold avoid_boundary.
  pose proof (Z.mod_pos_bound o b Hb) as Hm.
  case_decide as Hi.
  2: { split; [lia|]. split; [by left|]. lia. }
  rewrite add64_small by lia. case_decide as Hc.
  - rewrite sub64_small, add64_small by (rewrite ?sub64_small by lia; lia).
    assert (b | o + (b - o mod b)) as Hd.
    { exists (o / b + 1). pose proof (Z.div_mod o b). lia. }
    split; [lia|]. split; [by right|]. intros. apply Z.mod_divide in Hd; lia.
  - split; [lia|]. split; [by left|]. lia.
Qed.

(** Avoiding a page boundary does not undo what was achieved for the lines. *)
Lemma avoid_boundary_keeps c b len o :
  0 < c → (c | b) → 0 < b → 0 <= len → 0 <= o → o + len + b < two64 →
  len <= c → o mod c + len <= c → avoid_boundary b len o mod c + len <= c.
Proof.
  intros Hc Hcb Hb Hlen Ho Hroom Hle Hfit.
  destruct (avoid_boundary_spec b len o Hb Hlen Ho Hroom) as (_ & [->|Hd] & _); [done|].
  assert (avoid_boundary b len o mod c = 0) as ->; [|lia].
  apply Z.mod_divide; [lia|]. by eapply Z.divide_trans.
Qed.

(** The target of a block, as a function of the offset before it. *)
Definition target_of (p : state_packer_state) (len al : Z) : Z :=
  avoid_boundary (page_of p) len
    (avoid_boundary (line_of p) len
      (align_offset (effective_alignment (min_alignment p) al) (current_offset p))).

(** The packer after a block. *)
Definition packer_after (p : state_packer_state) (len al : Z) : state_packer_state :=
  Packer (line_of p) (min_alignment p) (target_of p len al +₆₄ len) (page_of p)
    (allocation_alignment p) (allocation_size p) (allocation_ptr p).

Lemma add_allocation_eq p ptr len al t :
  state_packer_add_allocation (Some p) ptr len al t =
  (0, Some (packer_after p len al), target_of p len al).
Proof.
  unfold state_packer_add_allocation, packer_after, target_of, line_of, page_of.
  destruct p; simpl. repeat case_decide; try done.
Qed.

(** What one block gets. *)
Definition well_placed (p : state_packer_state) (b : block) (t : Z) : Prop :=
  current_offset p <= t ∧ t + b_len b <= current_offset p + cost p b ∧
  (b_len b <= page_of p → t mod page_of p + b_len b <= page_of p) ∧
  (b_len b <= line_of p → (line_of p | page_of p) → t mod line_of p + b_len b <= line_of p).

Lemma target_of_well_placed p b :
  packer_ok p → block_args_ok b → current_offset p + cost p b < two64 →
  well_placed p b (target_of p (b_len b) (b_align b)).
Proof.
  intros Hp [Hl Ha] Hroom. unfold cost in Hroom.
  pose proof (line_of_pos p Hp). pose proof (page_of_pos p Hp). destruct Hp as (?&?&?&?).
  pose proof (effective_alignment_pos (min_alignment p) (b_align b)) as He.
  unfold well_placed, target_of, cost. revert Hroom He.
  generalize (effective_alignment (min_alignment p) (b_align b)). intros a Hroom He.
  specialize (He ltac:(lia) ltac:(lia)).
  destruct (align_offset_eq a (current_offset p)) as [E1 Hm]; [lia..|].
  revert E1. generalize (align_offset a (current_offset p)). intros o1 E1.
  destruct (avoid_boundary_spec (line_of p) (b_len b) o1) as (B2 & _ & F2); [lia..|].
  destruct (avoid_boundary_spec (page_of p) (b_len b) (avoid_boundary (line_of p) (b_len b) o1))
    as (B3 & _ & F3); [lia..|].
  split; [lia|]. split; [lia|]. split; [done|].
  intros ? ?. apply avoid_boundary_keeps; try lia; auto.
Qed.

Lemma packer_after_ok p b :
  packer_ok p → block_args_ok b → current_offset p + cost p b < two64 →
  packer_ok (packer_after p (b_len b) (b_align b)) ∧
  current_offset (packer_after p (b_len b) (b_align b)) =
    target_of p (b_len b) (b_align b) + b_len b ∧
  (∀ b', cost (packer_after p (b_len b) (b_align b)) b' = cost p b') ∧
  line_of (packer_after p (b_len b) (b_align b)) = line_of p ∧
  page_of (packer_after p (b_len b) (b_align b)) = page_of p.
Proof.
  intros Hp Hb Hroom. pose proof (target_of_well_placed p b Hp Hb Hroom) as (H1 & H2 & _).
  pose proof (line_of_pos p Hp) as Hl. pose proof (page_of_pos p Hp) as Hg.
  destruct Hp as (?&?&?&?), Hb as [??].
  assert (target_of p (b_len b) (b_align b) +₆₄ b_len b =
          target_of p (b_len b) (b_align b) + b_len b) as E by (rewrite add64_small; lia).
  assert (line_of (packer_after p (b_len b) (b_align b)) = line_of p) as E1.
  { unfold line_of at 1. simpl. by rewrite decide_False by lia. }
  assert (page_of (packer_after p (b_len b) (b_align b)) = page_of p) as E2.
  { unfold page_of at 1. simpl. by rewrite decide_False by lia. }
  split; [unfold packer_ok; simpl; lia|]. split; [done|]. split; [|done].
  intros b'. unfold cost. by rewrite E1, E2.
Qed.

(** ** Layouts *)

(** The blocks are placed in order, without overlap, in [[lo, hi)]. *)
Fixpoint in_order (lo hi : Z) (bs : list block) (ts : list Z) : Prop :=
  match bs, ts with
  | [], [] => lo <= hi
  | b :: bs, t :: ts => lo <= t ∧ in_order (t + b_len b) hi bs ts
  | _, _ => False
  end.

Definition no_straddle (line page : Z) (b : block) (t : Z) : Prop :=
  (b_len b <= page → t mod page + b_len b <= page) ∧
  (b_len b <= line → (line | page) → t mod line + b_len b <= line).

Lemma costs_nonneg p bs : packer_ok p → Forall block_args_ok bs → 0 <= foldr Z.add 0 (cost p <$> bs).
Proof.
  intros Hp Hbs. apply sum_nonneg, Forall_fmap. eapply Forall_impl; [exact Hbs|].
  intros b [Hl Ha]. simpl. unfold cost.
  pose proof (line_of_pos p Hp). pose proof (page_of_pos p Hp). destruct Hp as (?&?&?&?).
  pose proof (effective_alignment_pos (min_alignment p) (b_align b)). lia.
Qed.

Lemma add_all_spec p bs :
  packer_ok p → Forall block_args_ok bs → room p bs →
  ∃ p' ts, add_all (Some p) bs = (Some p', ts) ∧
    in_order (current_offset p) (current_offset p') bs ts ∧
    Forall2 (no_straddle (line_of p) (page_of p)) bs ts ∧
    current_offset p' <= current_offset p + foldr Z.add 0 (cost p <$> bs) ∧
    allocation_ptr p' = allocation_ptr p.
Proof.
  revert p. induction bs as [|b bs IH]; intros p Hp Hbs Hroom.
  { exists p, []. unfold room in Hroom. simpl in *. split; [done|]. split; [lia|].
    split; [constructor|]. split; [lia|done]. }
  apply Forall_cons in Hbs as [Hb Hbs]. unfold room in Hroom. rewrite fmap_cons in Hroom. cbn [foldr] in Hroom.
  pose proof (costs_nonneg p bs Hp Hbs) as Hsum.
  assert (current_offset p + cost p b < two64) as Hroom1 by lia.
  pose proof (target_of_well_placed p b Hp Hb Hroom1) as (W1 & W2 & W3 & W4).
  destruct (packer_after_ok p b Hp Hb Hroom1) as (Hp1 & Ho1 & Hc1 & El & Eg).
  destruct (IH (packer_after p (b_len b) (b_align b))) as (p' & ts & E & I & F & R & A);
    [done..| |].
  { unfold room. rewrite (list_fmap_ext _ (cost p)) by (intros; apply Hc1). lia. }
  exists p', (target_of p (b_len b) (b_align b) :: ts).
  cbn [add_all]. rewrite add_allocation_eq, E. split; [done|].
  rewrite Ho1 in I. rewrite El, Eg in F.
  split; [done|]. split; [constructor; [split|]; auto|]. split; [|done].
  rewrite Ho1, (list_fmap_ext _ (cost p)) in R by (intros; apply Hc1).
  rewrite fmap_cons. cbn [foldr]. lia.
Qed.

Lemma in_order_le lo hi bs ts : Forall block_args_ok bs → in_order lo hi bs ts → lo <= hi.
Proof.
  revert lo ts. induction bs as [|b bs IH]; intros lo [|t ts] Hbs; simpl; try done.
  intros [? Hin]. apply Forall_cons in Hbs as [[? _] Hbs]. specialize (IH _ _ Hbs Hin). lia.
Qed.

Lemma in_order_bounds lo hi bs ts i b t :
  Forall block_args_ok bs → in_order lo hi bs ts → bs !! i = Some b → ts !! i = Some t →
  lo <= t ∧ t + b_len b <= hi.
Proof.
  revert lo ts i. induction bs as [|b0 bs IH]; intros lo [|t0 ts] i Hbs; simpl; try done.
  intros [Hlo Hin] Hb Ht. apply Forall_cons in Hbs as [[Hl _] Hbs].
  destruct i as [|i]; simpl in *.
  - injection Hb as ->. injection Ht as ->. pose proof (in_order_le _ _ _ _ Hbs Hin). lia.
  - destruct (IH _ _ _ Hbs Hin Hb Ht). lia.
Qed.

Lemma in_order_apart lo hi bs ts i j bi bj ti tj :
  Forall block_args_ok bs → in_order lo hi bs ts → (i < j)%nat →
  bs !! i = Some bi → ts !! i = Some ti → bs !! j = Some bj → ts !! j = Some tj →
  ti + b_len bi <= tj.
Proof.
  revert lo ts i j. induction bs as [|b0 bs IH]; intros lo [|t0 ts] i j Hbs; simpl; try done.
  intros [Hlo Hin] Hij. apply Forall_cons in Hbs as [_ Hbs].
  destruct j as [|j]; [lia|]. destruct i as [|i]; simpl; intros Hb Ht Hb' Ht'.
  - injection Hb as ->. injection Ht as ->.
    by destruct (in_order_bounds _ _ _ _ _ _ _ Hbs Hin Hb' Ht').
  - eapply (IH _ _ i j); eauto. lia.
Qed.

Lemma in_order_length lo hi bs ts : in_order lo hi bs ts → List.length ts = List.length bs.
Proof.
  revert lo ts. induction bs as [|b bs IH]; intros lo [|t ts]; simpl; try done.
  intros [_ H]. f_equal. eauto.
Qed.

(** Laying out blocks from the start of a new region places them in the order
    they are given, without overlap, between 0 and the final offset, as long as
    the lengths with the paddings stay below 2^64; a block no longer than a page
    does not straddle a page, and one no longer than a cache line does not
    straddle a line when the line size divides the page size. *)
Theorem add_all_layout p bs :
  packer_ok p → Forall block_args_ok bs → room (set_current_offset 0 p) bs →
  ∃ p' ts, add_all (state_packer_start_layout (Some p)).2 bs = (Some p', ts) ∧
    List.length ts = List.length bs ∧
    (∀ i b t, bs !! i = Some b → ts !! i = Some t →
       0 <= t ∧ t + b_len b <= get_current_offset p' ∧
       no_straddle (line_of p) (page_of p) b t) ∧
    (∀ i j bi bj ti tj, (i < j)%nat →
       bs !! i = Some bi → ts !! i = Some ti → bs !! j = Some bj → ts !! j = Some tj →
       ti + b_len bi <= tj).
Proof.
  intros Hp Hbs Hroom.
  destruct (add_all_spec (set_current_offset 0 p) bs) as (p' & ts & E & I & F & R & A);
    [destruct Hp as (?&?&?&?); unfold packer_ok; simpl; lia|done..|].
  exists p', ts. split; [exact E|]. split; [by eapply in_order_length|]. split.
  - intros i b t Hb Ht. destruct (in_order_bounds _ _ _ _ _ _ _ Hbs I Hb Ht).
    split; [done|]. split; [done|]. eapply Forall2_lookup_lr in F; eauto.
  - intros i j bi bj ti tj Hij ? ? ? ?. by eapply (in_order_apart _ _ _ _ i j).
Qed.

Definition example_blocks : list block := [Block 4096 60 8; Block 8192 100 0; Block 16384 4000 8].

Lemma add_all_layout_witness :
  packer_ok (state_packer_new 8 64) ∧
  add_all (state_packer_start_layout (Some (state_packer_new 8 64))).2 example_blocks =
    (Some (Packer 64 8 8096 4096 0 0 0), [0; 64; 4096]) ∧
  ∃ p' ts, add_all (state_packer_start_layout (Some (state_packer_new 8 64))).2 example_blocks = (Some p', ts) ∧
    List.length ts = List.length example_blocks.
Proof.
  split; [done|]. split; [reflexivity|].
  destruct (add_all_layout (state_packer_new 8 64) example_blocks) as (p' & ts & E & L & _);
    [done|by repeat constructor|done|].
  exists p', ts. split; [exact E|exact L].
Defined.

Lemma align_offset_divide a o : 0 < a → (a | o + o mod a) ↔ o mod a = 0 ∨ 2 * (o mod a) = a.
Proof.
  intros Ha. pose proof (Z.mod_pos_bound o a Ha) as Hm. pose proof (Z.div_mod o a) as Hd.
  split.
  - intros [k Hk]. assert (2 * (o mod a) = a * (k - o / a)) as E by lia.
    assert (k - o / a < 2) by nia. assert (0 <= k - o / a) by nia.
    assert (k - o / a = 0 ∨ k - o / a = 1) as [E1|E1] by lia; rewrite E1 in E; lia.
  - intros [H|H]; [exists (o / a)|exists (o / a + 1)]; lia.
Qed.

(** A block is moved only to a boundary. *)
Lemma avoid_boundary_divide a b len o :
  (a | b) → 0 < b → 0 <= len → 0 <= o → o + len + b < two64 →
  (a | avoid_boundary b len o) ↔ avoid_boundary b len o ≠ o ∨ (a | o).
Proof.
  intros Hab Hb Hl Ho Hr.
  destruct (avoid_boundary_spec b len o Hb Hl Ho Hr) as (_ & [->|Hd] & _); [naive_solver|].
  assert (a | avoid_boundary b len o) as Hd' by (by eapply Z.divide_trans).
  destruct (decide (avoid_boundary b len o = o)) as [E|]; [rewrite E in *; naive_solver|naive_solver].
Qed.

(** The target of a block is a multiple of its alignment only if the block was
    moved to a new line or page, or the offset before it was a multiple of half
    its alignment: the code adds the remainder of the offset instead of rounding
    the offset up. *)
Theorem add_allocation_alignment p ptr len al t0 t p' :
  packer_ok p → 0 <= len → 0 <= al →
  current_offset p + cost p (Block ptr len al) < two64 →
  let a := effective_alignment (min_alignment p) al in
  let rest := current_offset p mod a in
  (a | line_of p) → (line_of p | page_of p) →
  state_packer_add_allocation (Some p) ptr len al t0 = (0, Some p', t) →
  (a | t) ↔ t ≠ current_offset p + rest ∨ rest = 0 ∨ 2 * rest = a.
Proof.
  intros Hp Hlen Hal Hroom a rest Hal' Hlp E. rewrite add_allocation_eq in E.
  injection E as _ <-. unfold cost in Hroom. simpl in Hroom.
  pose proof (line_of_pos p Hp). pose proof (page_of_pos p Hp). destruct Hp as (?&?&?&?).
  pose proof (effective_alignment_pos (min_alignment p) al) as He.
  unfold target_of. fold a. fold a in He. fold a in Hroom. specialize (He ltac:(lia) ltac:(lia)).
  destruct (align_offset_eq a (current_offset p)) as [E1 Hm]; [lia..|].
  pose proof (align_offset_divide a (current_offset p) He) as Hdiv.
  fold rest in E1, Hm, Hdiv. rewrite <- E1 in Hdiv |- *. clearbody rest. revert E1 Hdiv.
  generalize (align_offset a (current_offset p)). intros o1 E1 Hdiv.
  destruct (avoid_boundary_spec (line_of p) len o1) as (B1 & _); [lia..|].
  destruct (avoid_boundary_spec (page_of p) len (avoid_boundary (line_of p) len o1)) as (B2 & _);
    [lia..|].
  rewrite <- Hdiv, avoid_boundary_divide, avoid_boundary_divide; try lia; try done;
    [|by eapply Z.divide_trans].
  generalize dependent (avoid_boundary (page_of p) len (avoid_boundary (line_of p) len o1)).
  generalize dependent (avoid_boundary (line_of p) len o1). intros o2 B1 o3 B2.
  destruct (decide (o2 = o1)) as [->|]; split.
  - intros [?|[?|?]]; [by left|done|by right].
  - intros [?|?]; [by left|by do 2 right].
  - intros _. left. lia.
  - intros _. right. by left.
Qed.

(** A 2-byte block followed by an 8-byte one: the second target is 4. *)
Lemma add_allocation_alignment_witness :
  packer_ok (Packer 64 8 2 4096 0 0 0) ∧
  state_packer_add_allocation (Some (Packer 64 8 2 4096 0 0 0)) 4096 8 8 0 =
    (0, Some (Packer 64 8 12 4096 0 0 0), 4) ∧
  ¬ (8 | 4).
Proof.
  split; [done|]. split; [reflexivity|].
  intros Hd. apply (add_allocation_alignment (Packer 64 8 2 4096 0 0 0) 4096 8 8 0 4 (Packer 64 8 12 4096 0 0 0)) in Hd.
  - vm_compute in Hd. destruct Hd as [Hd|[Hd|Hd]]; [by apply Hd|discriminate Hd..].
  - done.
  - lia.
  - lia.
  - reflexivity.
  - by exists 8.
  - by exists 64.
  - reflexivity.
Defined.

(** ** The move *)

Lemma start_move_eq mmap p :
  state_packer_start_move mmap (Some p) =
  let page := (page_of_size (current_offset p)).1 in
  match mmap (current_offset p) PROTECTIONS (Z.lor (page_of_size (current_offset p)).2 MAP_FLAGS) with
  | None => (1, Some (set_allocation page (current_offset p) MAP_FAILED p))
  | Some base => (0, Some (set_allocation page (current_offset p) base p))
  end.
Proof. unfold state_packer_start_move. by destruct (page_of_size (current_offset p)). Qed.

(** A successful start of the move maps exactly the bytes that were laid out:
    the size is not rounded to the page size that was chosen for it, which is
    4 KiB, 2 MiB or 1 GiB by the size; a failed mapping leaves the address -1. *)
Theorem start_move_size mmap p st q :
  state_packer_start_move mmap (Some p) = (st, Some q) →
  allocation_size q = current_offset p ∧ current_offset q = current_offset p ∧
  allocation_alignment q =
    (if decide (1073741824 < current_offset p) then 1073741824
     else if decide (2097152 < current_offset p) then 2097152 else 4096) ∧
  match mmap (current_offset p) 7
          (if decide (2097152 < current_offset p) then 294945 else 32801) with
  | Some base => st = 0 ∧ allocation_ptr q = base
  | None => st = 1 ∧ allocation_ptr q = two64 - 1
  end.
Proof.
  rewrite start_move_eq. unfold page_of_size, HUGE_PAGE, LARGE_PAGE, STANDARD_PAGE.
  change PROTECTIONS with 7. intros H.
  assert (∀ al hg s,
    match mmap (current_offset p) 7 (Z.lor hg MAP_FLAGS) with
    | None => (1, Some (set_allocation al (current_offset p) MAP_FAILED p))
    | Some base => (0, Some (set_allocation al (current_offset p) base p))
    end = (s, Some q) →
    allocation_size q = current_offset p ∧ current_offset q = current_offset p ∧
    allocation_alignment q = al ∧
    match mmap (current_offset p) 7 (Z.lor hg MAP_FLAGS) with
    | Some base => s = 0 ∧ allocation_ptr q = base
    | None => s = 1 ∧ allocation_ptr q = two64 - 1
    end) as Hgen.
  { clear H. intros al hg s. destruct (mmap _ _ _) as [base|]; intros E;
      injection E as Es Eq; subst s q; done. }
  cbv zeta in H. repeat case_decide; try lia; apply Hgen in H; exact H.
Qed.

Lemma start_move_size_witness :
  allocation_size (Packer 64 8 5000 4096 4096 5000 65536) = 5000.
Proof.
  by apply (start_move_size (λ _ _ _, Some 65536) (Packer 64 8 5000 4096 0 0 0) 0 _ eq_refl).
Defined.

(** The region a move writes is apart from the blocks it reads. *)
Definition apart (base lo hi : Z) (b : block) : Prop :=
  disjoint_ranges (base + lo) (hi - lo) (b_ptr b) (b_len b).

Lemma memcpy_apart base lo hi t n src m b k :
  apart base lo hi b → lo <= t → t + n <= hi → 0 <= k < b_len b →
  memcpy (base + t) src n m (b_ptr b + k) = m (b_ptr b + k).
Proof. unfold apart, disjoint_ranges. intros. apply memcpy_out. lia. Qed.

Lemma move_all_spec can_open task p bs cells ts lo hi w :
  let base := allocation_ptr p in
  Forall block_args_ok bs → in_order lo hi bs ts → List.length cells = List.length bs →
  0 <= base → 0 <= lo → base + hi < two64 → Forall (apart base lo hi) bs →
  ∃ w', move_all can_open task (Some p) bs cells ts w = (w', (λ t, base + t) <$> ts) ∧
    (∀ i b t k, bs !! i = Some b → ts !! i = Some t → 0 <= k < b_len b →
       mem w' (base + t + k) = mem w (b_ptr b + k)) ∧
    (∀ a, ¬ (base + lo <= a < base + hi) → mem w' a = mem w a) ∧
    movement_file w' =
      (if can_open then
         match last (zip (b_ptr <$> bs) cells) with Some e => Some e | None => movement_file w end
       else movement_file w).
Proof.
  intros base. revert cells ts lo w.
  induction bs as [|b bs IH]; intros [|c cells] [|t ts] lo w Hbs Hin Hlen Hb0 Hl0 Hhi Hap;
    try done.
  { exists w. split; [done|]. split; [done|]. split; [done|]. by destruct can_open. }
  destruct Hin as [Hlo Hin]. apply Forall_cons in Hbs as [Hb Hbs], Hap as [Hb_ap Hap].
  pose proof (in_order_le _ _ _ _ Hbs Hin) as Hle. destruct Hb as [Hlen0 _].
  set (m1 := memcpy (base + t) (b_ptr b) (b_len b) (mem w)).
  set (w1 := Process m1 (if can_open then Some (b_ptr b, c) else movement_file w)
               (if can_open then signalled w ++ default [] task else signalled w)).
  destruct (IH cells ts (t + b_len b) w1) as (w' & E & Hmem & Hout & Hfile);
    [done|done|by injection Hlen|done|lia|done| |].
  { eapply Forall_impl; [exact Hap|]. unfold apart, disjoint_ranges. intros b'. lia. }
  assert (state_packer_move_allocation can_open task (Some p) (b_ptr b) (b_len b) c t w =
          (if can_open then 0 else 1, w1, base + t)) as E1.
  { unfold state_packer_move_allocation. fold base. rewrite add64_small by lia.
    rewrite (Z.add_comm t base). unfold w1, m1.
    destruct can_open, task as [tids|], w; simpl; by rewrite ?app_nil_r. }
  exists w'. cbn [move_all fmap list_fmap]. rewrite E1, E. split; [done|]. split; [|split].
  - intros [|i] b' t' k Hb' Ht' Hk; simpl in Hb', Ht'.
    + injection Hb' as <-. injection Ht' as <-.
      rewrite Hout by lia. unfold w1, m1. simpl. by apply memcpy_in.
    + rewrite (Hmem _ _ _ _ Hb' Ht' Hk). unfold w1, m1. simpl.
      eapply (memcpy_apart base lo hi); try lia.
      eapply Forall_lookup_1 in Hap; [exact Hap|done].
  - intros a Ha. rewrite Hout by lia. unfold w1, m1. simpl. apply memcpy_out. lia.
  - rewrite Hfile. unfold w1. cbn [movement_file]. destruct can_open; [|done].
    cbn [zip_with]. rewrite last_cons. by destruct (last _).
Qed.

(** C26: packing blocks by the protocol of the interface - lay all of them out, start
    the move, move each - copies every byte of every block to the target its cell
    now holds and changes no byte outside the new region, provided the region the
    kernel maps is apart from the blocks; the movement file ends with the old
    address of the last block and the address of its cell, not its new address. *)
Theorem pack_moves_all mmap can_open task p bs cells w :
  packer_ok p → Forall block_args_ok bs → room (set_current_offset 0 p) bs →
  List.length cells = List.length bs →
  (∀ size prot flags, 0 <= size <= foldr Z.add 0 (cost p <$> bs) →
     ∃ base, mmap size prot flags = Some base ∧ 0 <= base ∧ base + size < two64 ∧
             Forall (apart base 0 size) bs) →
  ∃ p1 p2 ts w',
    add_all (state_packer_start_layout (Some p)).2 bs = (Some p1, ts) ∧
    state_packer_start_move mmap (Some p1) = (0, Some p2) ∧
    move_all can_open task (Some p2) bs cells ts w =
      (w', (λ t, allocation_ptr p2 + t) <$> ts) ∧
    (∀ i b t k, bs !! i = Some b → ts !! i = Some t → 0 <= k < b_len b →
       mem w' (allocation_ptr p2 + t + k) = mem w (b_ptr b + k)) ∧
    (∀ a, ¬ (allocation_ptr p2 <= a < allocation_ptr p2 + allocation_size p2) →
       mem w' a = mem w a) ∧
    (can_open = true → movement_file w' =
       match last (zip (b_ptr <$> bs) cells) with Some e => Some e | None => movement_file w end).
Proof.
  intros Hp Hbs Hroom Hlen Hmmap.
  destruct (add_all_spec (set_current_offset 0 p) bs) as (p1 & ts & E & I & F & R & A);
    [destruct Hp as (?&?&?&?); unfold packer_ok; simpl; lia|done..|].
  pose proof (in_order_le _ _ _ _ Hbs I) as Hle. cbn [current_offset set_current_offset] in *.
  destruct (Hmmap (current_offset p1) PROTECTIONS
              (Z.lor (page_of_size (current_offset p1)).2 MAP_FLAGS)) as (base & Em & Hb0 & Hbase & Hap).
  { split; [done|]. exact R. }
  set (p2 := set_allocation (page_of_size (current_offset p1)).1 (current_offset p1) base p1).
  destruct (move_all_spec can_open task p2 bs cells ts 0 (current_offset p1) w)
    as (w' & Emv & Hmem & Hout & Hfile); [done..|].
  exists p1, p2, ts, w'. split; [exact E|]. split; [by rewrite start_move_eq; cbv zeta; rewrite Em|].
  split; [exact Emv|]. split; [exact Hmem|]. split.
  - intros a Ha. apply Hout. cbn [p2 allocation_ptr set_allocation allocation_size] in Ha |- *. lia.
  - intros ->. exact Hfile.
Qed.

Lemma pack_moves_all_witness :
  ∃ p1 p2 ts w',
    add_all (state_packer_start_layout (Some (state_packer_new 8 64))).2 example_blocks = (Some p1, ts) ∧
    state_packer_start_move (λ _ _ _, Some 1048576) (Some p1) = (0, Some p2) ∧
    move_all true (Some [7]) (Some p2) example_blocks [1; 2; 3] ts
      (Process (λ a, a mod 251) None []) = (w', (λ t, allocation_ptr p2 + t) <$> ts).
Proof.
  destruct (pack_moves_all (λ _ _ _, Some 1048576) true (Some [7]) (state_packer_new 8 64)
              example_blocks [1; 2; 3] (Process (λ a, a mod 251) None []))
    as (p1 & p2 & ts & w' & E1 & E2 & E3 & _).
  - done.
  - by repeat constructor.
  - done.
  - done.
  - intros size prot flags Hs. change (foldr Z.add 0 (cost (state_packer_new 8 64) <$> example_blocks)) with 16664 in Hs.
    exists 1048576. split; [done|]. split; [done|]. split; [word_unfold; lia|].
    repeat constructor; unfold apart, disjoint_ranges; simpl; lia.
  - exists p1, p2, ts, w'. split; [exact E1|]. split; [exact E2|exact E3].
Defined.
