(* ===== verification/StateOptimizer.v ===== *)
(** * The state optimizer

    [extra/texas/src/runtime/state_optimizer.cpp]: the blocks of a state are ordered
    by following the heaviest temporal edge, and packed in that order.  The
    unordered sets are lists in iteration order; a block is its identifier; what
    [GenerateConnectionGraph] does to the program's table is a parameter. *)

From S2P Require Import Prelude Memory StatePacker.

(** ** Data *)

Inductive hueristic_t :=
  | TEMPORAL_HEAVIEST_EDGE_FIRST
  | POINTER_HEAVIEST_EDGE_FIRST
  | TEMPORAL_HEAVIEST_NODE_FIRST
  | POINTER_HEAVIEST_NODE_FIRST.

#[export] Instance hueristic_eq_dec : EqDecision hueristic_t.
Proof. solve_decision. Defined.

(** The edges of a block with their weights. *)
Notation edges := (list (Z * Z)) (only parsing).

Record opt_state := OptState {
  os_allocations : list Z;
  os_temporal : gmap Z edges
}.

(** ** The order *)

(** The best edge so far: weight, current node, next node. *)
Record best := Best { b_weight : Z; b_current : option Z; b_next : option Z }.

(** One edge of a candidate. *)
Definition consider (unplaced : list Z) (candidate : Z) (s : best) (e : Z * Z) : best :=
  if decide (e.1 ∈ unplaced ∧ e.1 ≠ candidate) then
    if decide (b_weight s < e.2) then Best e.2 (Some candidate) (Some e.1) else s
  else s.

(** All edges of a candidate; a candidate without an entry is dereferenced past
    the end of the map. *)
Definition consider_node (conns : gmap Z edges) (unplaced : list Z) (s : best) (candidate : Z)
    : option best :=
  es ← conns !! candidate; Some (foldl (consider unplaced candidate) s es).

(** The loop: [current] is the node to place, [packed] the result so far. *)
Fixpoint temporal_loop (fuel : nat) (conns : gmap Z edges) (current : option Z)
    (unplaced packed : list Z) : option (list Z) :=
  match unplaced with
  | [] => Some packed
  | _ :: _ =>
    match fuel with
    | O => None
    | S fuel =>
      s ← (match current with
           | Some c => Some (Best 0 (Some c) None)
           | None => mfoldl (consider_node conns unplaced) (Best 0 None None) unplaced
           end);
      match b_current s with
      | None => Some (packed ++ unplaced)
      | Some c =>
        s ← (match b_next s with
             | Some _ => Some s
             | None => consider_node conns unplaced s c
             end);
        temporal_loop fuel conns (b_next s) (filter (.≠ c) unplaced) (packed ++ [c])
      end
    end
  end.

Definition TemporalHeaviestEdgeFirst (s : opt_state) (unplaced packed : list Z) : option (list Z) :=
  temporal_loop (length unplaced) (os_temporal s) None unplaced packed.

Section with_state.
  (** [processStateWindow] of the state (State.hpp) and the function
      [GenerateConnectionGraph()] without a table are declared and not defined in
      the repository: each is its effect on the state that is optimised.
      [StackEntry] is the entry that stands for the stack. *)
  Context (GenerateConnectionGraph processStateWindow : opt_state → opt_state) (StackEntry : Z).

Definition GetOptimizedState (stateMap : gmap Z opt_state) (stateID : Z) (h : hueristic_t)
      : option (list Z) :=
    match stateMap !! stateID with
    | None => Some []
    | Some state =>
      if decide (length (os_allocations state) < 2)%nat then Some []
      else
        let state := GenerateConnectionGraph state in
        let state := processStateWindow state in
        let unplaced := filter (.≠ StackEntry) (os_allocations state) in
        match h with
        | TEMPORAL_HEAVIEST_EDGE_FIRST => TemporalHeaviestEdgeFirst state unplaced []
        | TEMPORAL_HEAVIEST_NODE_FIRST => Some []
        | _ => TemporalHeaviestEdgeFirst state unplaced []
        end
    end.

Definition ALIGNMENT_SIZE : Z := 8.
Definition CACHE_LINE_SIZE : Z := 64.

  (** The file the offline mode writes: the size of the region, and for every
      block its address and its offset. *)
Record packing_file := PackingFile { pf_size : Z; pf_lines : list (Z * Z) }.

  (** The blocks are looked up in the table of entries. *)
Definition OptimizeState (entries : gmap Z block) (stateMap : gmap Z opt_state) (stateID : Z)
      (h : hueristic_t) : option packing_file :=
    order ← GetOptimizedState stateMap stateID h;
    bs ← mapM (λ id, entries !! id) order;
    let packingState := state_packer_new ALIGNMENT_SIZE CACHE_LINE_SIZE in
    let '(packingState, ts) := add_all (state_packer_start_layout (Some packingState)).2 bs in
    p ← packingState;
    Some (PackingFile (get_current_offset p) (zip (b_ptr <$> bs) ts)).

Definition OptimizeStates (entries : gmap Z block) (stateMap : gmap Z opt_state)
      : option (list (Z * packing_file)) :=
    mapM (λ e, f ← OptimizeState entries stateMap e.1 TEMPORAL_HEAVIEST_EDGE_FIRST; Some (e.1, f))
      (map_to_list stateMap).
End with_state.

(** ** The order is a greedy one *)

(** An edge with weight [w] from [x] to another of the given blocks. *)
Definition edge_to (conns : gmap Z edges) (among : list Z) (x y w : Z) : Prop :=
  ∃ es, conns !! x = Some es ∧ (y, w) ∈ es ∧ y ∈ among ∧ y ≠ x ∧ 0 < w.

(** The heaviest such edge from [x]. *)
Definition heaviest_from (conns : gmap Z edges) (among : list Z) (x y w : Z) : Prop :=
  edge_to conns among x y w ∧ ∀ z v, edge_to conns among x z v → v <= w.

(** The heaviest edge between any two of the blocks. *)
Definition heaviest (conns : gmap Z edges) (among : list Z) (x y w : Z) : Prop :=
  x ∈ among ∧ edge_to conns among x y w ∧
  ∀ u z v, u ∈ among → edge_to conns among u z v → v <= w.

(** What is packed after [prev] (at the start: after nothing) begins with the
    target of the heaviest edge from [prev] into the rest; without such an edge
    it begins with the source of the heaviest edge of the rest, followed by its
    target; without any edge the order does not matter. *)
Inductive greedy (conns : gmap Z edges) : option Z → list Z → Prop :=
  | greedy_nil prev : greedy conns prev []
  | greedy_follow x y w rest :
      heaviest_from conns (y :: rest) x y w → greedy conns (Some y) rest →
      greedy conns (Some x) (y :: rest)
  | greedy_start prev x y w rest :
      (∀ p z v, prev = Some p → ¬ edge_to conns (x :: y :: rest) p z v) →
      heaviest conns (x :: y :: rest) x y w → greedy conns (Some y) rest →
      greedy conns prev (x :: y :: rest)
  | greedy_rest prev rest :
      (∀ p z v, prev = Some p → ¬ edge_to conns rest p z v) →
      (∀ u z v, u ∈ rest → ¬ edge_to conns rest u z v) →
      greedy conns prev rest.

(** *** The scans *)

Section scans.
  Context (conns : gmap Z edges).

  (** The scan of the edges in [P], from [s]: either nothing is heavier, or the
      result is one of the heaviest. *)
Definition scan (s r : best) (P : Z → Z → Z → Prop) : Prop :=
    (r = s ∧ ∀ x y w, P x y w → w <= b_weight s) ∨
    (∃ x y w, r = Best w (Some x) (Some y) ∧ P x y w ∧ b_weight s < w ∧
              ∀ x' y' w', P x' y' w' → w' <= w).

Lemma scan_app s r t P Q R :
    scan s r P → scan r t Q → (∀ x y w, R x y w ↔ P x y w ∨ Q x y w) → scan s t R.
Proof.
    intros [[-> Hs]|(x & y & w & -> & HP & Hw & Hmax)] [[-> Hr]|(x' & y' & w' & -> & HQ & Hw' & Hmax')] HR;
      simpl in *.
    - left. split; [done|]. intros x y w [?|?]%HR; eauto.
    - right. exists x', y', w'. rewrite HR. split; [done|]. split; [by right|]. split; [done|].
      intros x y w [Hp|Hq]%HR; [|by eapply Hmax']. specialize (Hs _ _ _ Hp). lia.
    - right. exists x, y, w. rewrite HR. split; [done|]. split; [by left|]. split; [done|].
      intros x' y' w' [Hp|Hq]%HR; [by eapply Hmax|by eapply Hr].
    - right. exists x', y', w'. rewrite HR. split; [done|]. split; [by right|]. split; [lia|].
      intros x1 y1 w1 [Hp|Hq]%HR; [|by eapply Hmax']. specialize (Hmax _ _ _ Hp). lia.
  Qed.

  (** The edges of [es] from [c] into [among]. *)
Definition of_edges (among : list Z) (c : Z) (es : edges) (x y w : Z) : Prop :=
    x = c ∧ (y, w) ∈ es ∧ y ∈ among ∧ y ≠ c.

Lemma consider_scan among c es s :
    scan s (foldl (consider among c) s es) (of_edges among c es).
Proof.
    revert s. induction es as [|[y w] es IH]; intros s.
    { left. split; [done|]. intros x y w (_ & H & _). by apply elem_of_nil in H. }
    cbn [foldl]. eapply scan_app; [|apply IH|].
    - instantiate (1 := of_edges among c [(y, w)]). unfold consider. simpl.
      assert (∀ x' y' w', of_edges among c [(y, w)] x' y' w' ↔
                x' = c ∧ y' = y ∧ w' = w ∧ y ∈ among ∧ y ≠ c) as Hiff.
      { intros x' y' w'. unfold of_edges. rewrite list_elem_of_singleton. naive_solver. }
      case_decide as H1; [case_decide as H2|].
      + right. exists c, y, w. rewrite Hiff. split; [done|]. split; [naive_solver|]. split; [done|].
        intros x' y' w' (_&_&->&_)%Hiff. lia.
      + left. split; [done|]. intros x' y' w' (_&_&->&_)%Hiff. lia.
      + left. split; [done|]. intros x' y' w' (_&_&_&?&?)%Hiff. by destruct H1.
    - intros x' y' w'. unfold of_edges. rewrite elem_of_cons, list_elem_of_singleton. naive_solver.
  Qed.

Lemma consider_node_scan among c s es :
    conns !! c = Some es →
    ∃ r, consider_node conns among s c = Some r ∧ scan s r (of_edges among c es).
Proof.
    intros Hc. unfold consider_node. rewrite Hc. simpl. eexists. split; [done|]. apply consider_scan.
  Qed.

Lemma scan_all among cs s :
    (∀ c, c ∈ cs → is_Some (conns !! c)) →
    ∃ r, mfoldl (consider_node conns among) s cs = Some r ∧
      scan s r (λ x y w, x ∈ cs ∧ ∃ es, conns !! x = Some es ∧ of_edges among x es x y w).
Proof.
    revert s. induction cs as [|c cs IH]; intros s Hcs.
    { exists s. split; [done|]. left. split; [done|]. by intros x y w [H%elem_of_nil _]. }
    destruct (Hcs c) as [es Hes]; [apply elem_of_cons; by left|].
    destruct (consider_node_scan among c s es Hes) as (r & E & Hr).
    destruct (IH r) as (t & E' & Ht); [intros; apply Hcs, elem_of_cons; by right|].
    exists t. cbn [mfoldl]. rewrite E. cbn [mbind option_bind]. split; [exact E'|].
    eapply scan_app; [exact Hr|exact Ht|]. intros x y w. rewrite elem_of_cons. split.
    - intros [[->|Hx] (es' & H & Ho)]; [left|right; eauto].
      rewrite Hes in H. injection H as <-. exact Ho.
    - intros [Ho|[Hx (es' & H & Ho)]]; [|eauto 6].
      pose proof Ho as (-> & _). split; [by left|]. by exists es.
  Qed.

Lemma edge_to_of_edges among x y w es :
    conns !! x = Some es → edge_to conns among x y w ↔ of_edges among x es x y w ∧ 0 < w.
Proof.
    intros Hx. unfold edge_to, of_edges. split.
    - intros (es' & H & ?). rewrite Hx in H. injection H as <-. naive_solver.
    - intros. exists es. naive_solver.
  Qed.

Lemma edge_to_perm l l' x y w : l ≡ₚ l' → edge_to conns l x y w → edge_to conns l' x y w.
Proof. intros Hl (es & ? & ? & Hy & ?). exists es. rewrite <- Hl. done. Qed.

Lemma edge_to_filter l c x y w : edge_to conns (filter (.≠ c) l) x y w ↔ edge_to conns l x y w ∧ y ≠ c.
Proof. unfold edge_to. setoid_rewrite list_elem_of_filter. naive_solver. Qed.

Lemma not_in_filter_head (c : Z) l : NoDup l → c ∈ l → l ≡ₚ c :: filter (.≠ c) l.
Proof.
    intros Hnd Hc. apply NoDup_Permutation; [done| |].
    - constructor; [rewrite list_elem_of_filter; naive_solver|by apply NoDup_filter].
    - intros x. rewrite elem_of_cons, list_elem_of_filter. destruct (decide (x = c)); naive_solver.
  Qed.

  (** *** The loop *)

  (** What one run of the loop appends. *)
Definition loop_post (current prev : option Z) (l : list Z) : Prop :=
    match current with
    | None => greedy conns prev l
    | Some c => ∃ l', l = c :: l' ∧ greedy conns (Some c) l'
    end.

Definition loop_pre (current prev : option Z) (unplaced : list Z) : Prop :=
    NoDup unplaced ∧ (∀ c, c ∈ unplaced → is_Some (conns !! c)) ∧
    match current with
    | Some c => c ∈ unplaced
    | None => ∀ p z v, prev = Some p → ¬ edge_to conns unplaced p z v
    end.

Definition loop_ok (fuel : nat) : Prop := ∀ current prev unplaced packed,
    (length unplaced <= fuel)%nat → loop_pre current prev unplaced →
    ∃ l, temporal_loop fuel conns current unplaced packed = Some (packed ++ l) ∧
      l ≡ₚ unplaced ∧ loop_post current prev l.

  (** After [c] is placed, the loop continues without it. *)
Lemma loop_rest fuel c next unplaced packed :
    loop_ok fuel → (length unplaced <= S fuel)%nat → NoDup unplaced →
    (∀ c, c ∈ unplaced → is_Some (conns !! c)) → c ∈ unplaced →
    match next with
    | Some y => y ∈ unplaced ∧ y ≠ c
    | None => ∀ z v, ¬ edge_to conns unplaced c z v
    end →
    ∃ l, temporal_loop fuel conns next (filter (.≠ c) unplaced) (packed ++ [c]) =
           Some (packed ++ c :: l) ∧
      c :: l ≡ₚ unplaced ∧ l ≡ₚ filter (.≠ c) unplaced ∧ loop_post next (Some c) l.
Proof.
    intros IH Hfuel Hnd Hkeys Hc Hnext.
    pose proof (not_in_filter_head c unplaced Hnd Hc) as Hperm.
    pose proof (Permutation_length Hperm) as Hlen. simpl in Hlen.
    destruct (IH next (Some c) (filter (.≠ c) unplaced) (packed ++ [c])) as (l & El & Hp & Hg); [lia| |].
    { split; [by apply NoDup_filter|]. split; [intros z [_ Hz]%list_elem_of_filter; auto|].
      destruct next as [y|]; [apply list_elem_of_filter; naive_solver|].
      intros p z v [= <-] [He _]%edge_to_filter. by apply (Hnext z v). }
    exists l. rewrite El, <- app_assoc. split; [done|]. split; [by rewrite Hp|]. done.
  Qed.

Lemma loop_from_node fuel c prev unplaced packed :
    loop_ok fuel → (length unplaced <= S fuel)%nat → loop_pre (Some c) prev unplaced →
    ∃ l, temporal_loop (S fuel) conns (Some c) unplaced packed = Some (packed ++ l) ∧
      l ≡ₚ unplaced ∧ loop_post (Some c) prev l.
Proof.
    intros IH Hfuel (Hnd & Hkeys & Hc). destruct (Hkeys c Hc) as [es Hes].
    destruct (consider_node_scan unplaced c (Best 0 (Some c) None) es Hes) as (r & E & Hr).
    assert (temporal_loop (S fuel) conns (Some c) unplaced packed =
            temporal_loop fuel conns (b_next r) (filter (.≠ c) unplaced) (packed ++ [c])) as ->.
    { destruct unplaced; [by apply elem_of_nil in Hc|].
      cbn [temporal_loop mbind option_bind b_current b_next]. by rewrite E. }
    destruct Hr as [[-> Hno]|(x & y & w & -> & Ho & Hw & Hmax)]; cbn [b_next b_weight] in *.
    - destruct (loop_rest fuel c None unplaced packed) as (l & El & Hp & _ & Hg); [done..| |].
      { intros z v He. destruct (proj1 (edge_to_of_edges _ _ _ _ _ Hes) He) as [H Hv].
        specialize (Hno _ _ _ H). lia. }
      exists (c :: l). split; [done|]. split; [done|]. by exists l.
    - pose proof Ho as (-> & _ & Hy & Hyc).
      destruct (loop_rest fuel c (Some y) unplaced packed) as (l & El & Hp & Hf & l' & -> & Hg); [done..|].
      exists (c :: y :: l'). split; [done|]. split; [done|]. exists (y :: l'). split; [done|].
      apply (greedy_follow conns c y w l'); [|done]. split.
      + apply (edge_to_perm (filter (.≠ c) unplaced)); [done|]. apply edge_to_filter.
        split; [|done]. by apply (edge_to_of_edges _ _ _ _ _ Hes).
      + intros z v Hz. apply (edge_to_perm _ (filter (.≠ c) unplaced)) in Hz; [|done].
        apply edge_to_filter in Hz as [Hz _].
        destruct (proj1 (edge_to_of_edges _ _ _ _ _ Hes) Hz) as [Ho' _]. by eapply Hmax.
  Qed.

Lemma loop_from_nothing fuel prev unplaced packed :
    loop_ok fuel → (length unplaced <= S fuel)%nat → loop_pre None prev unplaced → unplaced ≠ [] →
    ∃ l, temporal_loop (S fuel) conns None unplaced packed = Some (packed ++ l) ∧
      l ≡ₚ unplaced ∧ loop_post None prev l.
Proof.
    intros IH Hfuel (Hnd & Hkeys & Hcur) Hne.
    destruct (scan_all unplaced unplaced (Best 0 None None) Hkeys) as (r & E & Hr).
    assert (temporal_loop (S fuel) conns None unplaced packed =
            match b_current r with
            | None => Some (packed ++ unplaced)
            | Some c =>
              s ← (match b_next r with Some _ => Some r | None => consider_node conns unplaced r c end);
              temporal_loop fuel conns (b_next s) (filter (.≠ c) unplaced) (packed ++ [c])
            end) as ->.
    { destruct unplaced as [|u us]; [done|]. cbn [temporal_loop]. by rewrite E. }
    destruct Hr as [[-> Hno]|(x & y & w & -> & (Hx & es & Hes & Ho) & Hw & Hmax)];
      cbn [b_next b_weight b_current mbind option_bind] in *.
    - exists unplaced. split; [done|]. split; [done|]. apply greedy_rest; [done|].
      intros u z v Hu He. destruct (Hkeys u Hu) as [es Hes].
      destruct (proj1 (edge_to_of_edges _ _ _ _ _ Hes) He) as [Ho Hv].
      assert (v <= 0); [|lia]. apply (Hno u z v). split; [done|]. by exists es.
    - pose proof Ho as (_ & _ & Hy & Hyx).
      destruct (loop_rest fuel x (Some y) unplaced packed) as (l & El & Hp & Hf & l' & -> & Hg); [done..|].
      exists (x :: y :: l'). split; [done|]. split; [done|].
      apply (greedy_start conns prev x y w l'); [| |done].
      + intros p z v Hprev He. apply (edge_to_perm _ unplaced) in He; [|done]. by eapply Hcur.
      + split; [apply elem_of_cons; by left|]. split.
        * apply (edge_to_perm unplaced); [done|]. by apply (edge_to_of_edges _ _ _ _ _ Hes).
        * intros u z v Hu He. apply (edge_to_perm _ unplaced) in He; [|done].
          rewrite Hp in Hu. destruct (Hkeys u Hu) as [es' Hes'].
          destruct (proj1 (edge_to_of_edges _ _ _ _ _ Hes') He) as [Ho' _].
          apply (Hmax u z v). split; [done|]. by exists es'.
  Qed.

Lemma temporal_loop_ok fuel : loop_ok fuel.
Proof.
    induction fuel as [|fuel IH]; intros current prev unplaced packed Hfuel Hpre;
      (destruct (decide (unplaced = [])) as [->|Hne];
       [exists []; rewrite app_nil_r; split; [by destruct current|]; split; [done|];
        destruct current as [c|]; [by destruct Hpre as (_ & _ & H%elem_of_nil)|apply greedy_nil]|]).
    - destruct unplaced; [done|simpl in Hfuel; lia].
    - destruct current as [c|]; [by apply loop_from_node|by apply loop_from_nothing].
  Qed.
End scans.

Lemma TemporalHeaviestEdgeFirst_ok s unplaced packed :
  NoDup unplaced → (∀ c, c ∈ unplaced → is_Some (os_temporal s !! c)) →
  ∃ l, TemporalHeaviestEdgeFirst s unplaced packed = Some (packed ++ l) ∧
       l ≡ₚ unplaced ∧ greedy (os_temporal s) None l.
Proof.
  intros Hnd Hkeys. apply (temporal_loop_ok (os_temporal s) (length unplaced) None None); [done|].
  split; [done|]. split; [done|]. intros p z v H. discriminate H.
Qed.

(** C27: the optimizer terminates and orders every block exactly once, and the order
    is greedy: each block is followed by the target of its heaviest temporal edge
    into the blocks still to be placed, and where there is none the heaviest
    remaining edge starts anew. *)
Theorem TemporalHeaviestEdgeFirst_greedy s unplaced packed :
  NoDup unplaced → (∀ c, c ∈ unplaced → is_Some (os_temporal s !! c)) →
  ∃ l, TemporalHeaviestEdgeFirst s unplaced packed = Some (packed ++ l) ∧
       l ≡ₚ unplaced ∧ greedy (os_temporal s) None l.
Proof. apply TemporalHeaviestEdgeFirst_ok. Qed.

Definition example_state : opt_state :=
  OptState [1; 2; 3; 4]
    (list_to_map [(1, [(2, 5); (3, 1)]); (2, [(1, 5); (4, 2)]); (3, [(4, 9)]); (4, [(1, 1); (3, 9)])]).

Lemma TemporalHeaviestEdgeFirst_greedy_witness :
  TemporalHeaviestEdgeFirst example_state [1; 2; 3; 4] [] = Some [3; 4; 1; 2] ∧
  ∃ l, TemporalHeaviestEdgeFirst example_state [1; 2; 3; 4] [] = Some ([] ++ l) ∧
       l ≡ₚ [1; 2; 3; 4] ∧ greedy (os_temporal example_state) None l.
Proof.
  split; [vm_compute; reflexivity|].
  apply TemporalHeaviestEdgeFirst_greedy; [apply (bool_decide_unpack _); vm_compute; done|].
  intros c Hc. repeat (apply elem_of_cons in Hc as [->|Hc]; [by vm_compute; eexists|]).
  by apply elem_of_nil in Hc.
Defined.

(** ** The packing file *)

Lemma sum_permutation (l l' : list Z) : l ≡ₚ l' → foldr Z.add 0 l = foldr Z.add 0 l'.
Proof. induction 1; simpl; lia. Qed.

Definition block_of (entries : gmap Z block) (id : Z) : block := default (Block 0 0 0) (entries !! id).

(** The file written for a state lists every block of the state but the stack
    exactly once, in a greedy order, at offsets that do not overlap and fit in the
    size at its head; a state that is unknown or has fewer than two blocks, or the
    node-first heuristic, gives the empty file. *)
Theorem OptimizeState_file gcg psw stack entries stateMap id h st :
  stateMap !! id = Some st → (2 <= length (os_allocations st))%nat →
  let st := psw (gcg st) in
  let blocks := filter (.≠ stack) (os_allocations st) in
  NoDup blocks → (∀ c, c ∈ blocks → is_Some (os_temporal st !! c)) →
  (∀ c, c ∈ blocks → is_Some (entries !! c)) →
  Forall block_args_ok (block_of entries <$> blocks) →
  room (state_packer_new ALIGNMENT_SIZE CACHE_LINE_SIZE) (block_of entries <$> blocks) →
  if decide (h = TEMPORAL_HEAVIEST_NODE_FIRST)
  then OptimizeState gcg psw stack entries stateMap id h = Some (PackingFile 0 [])
  else ∃ order ts f,
    OptimizeState gcg psw stack entries stateMap id h = Some f ∧
    order ≡ₚ blocks ∧ greedy (os_temporal st) None order ∧
    pf_lines f = zip (b_ptr <$> (block_of entries <$> order)) ts ∧
    in_order 0 (pf_size f) (block_of entries <$> order) ts ∧
    Forall2 (no_straddle 64 4096) (block_of entries <$> order) ts.
Proof.
  intros Hst Hlen st' blocks Hnd Hkeys Hent Hargs Hroom.
  assert (GetOptimizedState gcg psw stack stateMap id h =
          if decide (h = TEMPORAL_HEAVIEST_NODE_FIRST) then Some []
          else TemporalHeaviestEdgeFirst st' blocks []) as Hget.
  { unfold GetOptimizedState. rewrite Hst, decide_False by lia. by destruct h. }
  case_decide as Hh; unfold OptimizeState; rewrite Hget; [done|].
  destruct (TemporalHeaviestEdgeFirst_ok st' blocks []) as (order & -> & Hp & Hg); [done..|].
  cbn [mbind option_bind app].
  rewrite (mapM_total _ (block_of entries)).
  2: { intros c Hc. rewrite Hp in Hc. destruct (Hent c Hc) as [b Hb]. unfold block_of. by rewrite Hb. }
  cbn [mbind option_bind].
  destruct (add_all_spec (state_packer_new ALIGNMENT_SIZE CACHE_LINE_SIZE) (block_of entries <$> order))
    as (p' & ts & E & I & F & _ & _).
  - done.
  - by rewrite Hp.
  - unfold room in *.
    rewrite (sum_permutation _ (cost (state_packer_new ALIGNMENT_SIZE CACHE_LINE_SIZE) <$>
               (block_of entries <$> blocks))); [done|]. by rewrite Hp.
  - change (state_packer_start_layout (Some (state_packer_new ALIGNMENT_SIZE CACHE_LINE_SIZE))).2
      with (Some (state_packer_new ALIGNMENT_SIZE CACHE_LINE_SIZE)).
    rewrite E. cbn [mbind option_bind]. eexists order, ts, _. split; [done|].
    split; [done|]. split; [done|]. split; [done|]. split; [exact I|exact F].
Qed.

Definition example_entries : gmap Z block :=
  list_to_map [(1, Block 4096 60 8); (2, Block 8192 100 0); (3, Block 16384 4000 8); (4, Block 65536 8 8)].

Lemma OptimizeState_file_witness :
  OptimizeState (λ s, s) (λ s, s) 0 example_entries {[7 := example_state]} 7 TEMPORAL_HEAVIEST_EDGE_FIRST =
    Some (PackingFile 4196 [(16384, 0); (65536, 4000); (4096, 4032); (8192, 4096)]) ∧
  ∃ order ts f,
    OptimizeState (λ s, s) (λ s, s) 0 example_entries {[7 := example_state]} 7 TEMPORAL_HEAVIEST_EDGE_FIRST = Some f ∧
    order ≡ₚ [1; 2; 3; 4] ∧ in_order 0 (pf_size f) (block_of example_entries <$> order) ts.
Proof.
  split; [vm_compute; reflexivity|].
  destruct (OptimizeState_file (λ s, s) (λ s, s) 0 example_entries {[7 := example_state]} 7
              TEMPORAL_HEAVIEST_EDGE_FIRST example_state) as (order & ts & f & E & Hp & _ & _ & Hi & _).
  - done.
  - simpl. lia.
  - apply (bool_decide_unpack _). vm_compute. done.
  - intros c Hc. change (c ∈ [1; 2; 3; 4]) in Hc.
    repeat (apply elem_of_cons in Hc as [->|Hc]; [by vm_compute; eexists|]). by apply elem_of_nil in Hc.
  - intros c Hc. change (c ∈ [1; 2; 3; 4]) in Hc.
    repeat (apply elem_of_cons in Hc as [->|Hc]; [by vm_compute; eexists|]). by apply elem_of_nil in Hc.
  - repeat constructor; done.
  - reflexivity.
  - exists order, ts, f. split; [exact E|]. split; [exact Hp|exact Hi].
Defined.
