(* ===== verification/UserPatcher.v ===== *)
(** * The user-level patcher: heap, malloc hooks and start-up

    The part of [extra/texas/src/runtime/user_patcher.c] that decides when a patch
    may happen: the start of the heap, the flag the malloc hooks set while the
    program is inside the allocator, and the initialisation.  The handler of the
    patch signal is in Patching.v. *)

From stdpp Require Import relations.
From S2P Require Import Prelude.

(** ** The heap *)

(** One line of [/proc/<pid>/maps]: not the heap, the heap with a range that does
    not parse, or the heap from [start] to [end_]. *)
Inductive map_line :=
  | OtherMapping
  | HeapUnparsed
  | HeapAt (start end_ : Z).

(** The loop of [find_heap]: the first heap line decides. *)
Fixpoint scan_maps (lines : list map_line) : option Z :=
  match lines with
  | [] => None
  | OtherMapping :: lines => scan_maps lines
  | HeapUnparsed :: _ => None
  | HeapAt start _ :: _ => Some start
  end.

(** [find_heap]: the status and [heapstart]; [maps] is [None] when the file cannot
    be opened. *)
Definition find_heap (maps : option (list map_line)) (heapstart : Z) : Z * Z :=
  match maps with
  | None => (-1, heapstart)
  | Some lines =>
    match scan_maps lines with
    | Some start => (0, start)
    | None => (-1, heapstart)
    end
  end.

Definition safe_to_patch (heapstart begin : Z) : bool := bool_decide (heapstart <= begin).

(** ** The malloc hooks *)

(** Which function a hook variable of the C library points to. *)
Inductive hook := LibraryHook | MyHook.

#[export] Instance hook_eq_dec : EqDecision hook.
Proof. solve_decision. Defined.

(** The four hooks are treated alike; [cur_hook] stands for the variables of the
    C library, [old_hook] for the saved ones. *)
Record hooks := Hooks { cur_hook : hook; old_hook : hook }.

Definition install_my_malloc_hooks (h : hooks) : hooks := Hooks MyHook (cur_hook h).

(** The body of a hook: the flag is set and the old hook restored, the allocator
    runs, the own hook is set again and the flag cleared. *)
Definition hook_enter (h : hooks) (inmalloc : Z) : hooks * Z :=
  (Hooks (old_hook h) (old_hook h), Z.lor inmalloc 1).
Definition hook_leave (h : hooks) (inmalloc : Z) : hooks * Z :=
  (Hooks MyHook (old_hook h), Z.land inmalloc 0).

Definition malloc_safe (inmalloc : Z) : bool := bool_decide (inmalloc = 0).

(** The allocator is called through [cur_hook].  When the hook is the own one, it
    calls the allocator again after restoring [old_hook]; [fuel] bounds the depth,
    [None] is a recursion deeper than that.  The result is the number of times
    the own hook ran. *)
Fixpoint hooked_malloc (fuel : nat) (h : hooks) (inmalloc : Z) : option (nat * hooks * Z) :=
  match cur_hook h with
  | LibraryHook => Some (0%nat, h, inmalloc)
  | MyHook =>
    match fuel with
    | O => None
    | S fuel =>
      let '(h, inmalloc) := hook_enter h inmalloc in
      '(n, h, inmalloc) ← hooked_malloc fuel h inmalloc;
      let '(h, inmalloc) := hook_leave h inmalloc in
      Some (S n, h, inmalloc)
    end
  end.

(** *** Several threads *)

(** The flag and the threads that are between the two atomic operations of a
    hook.  A thread is inside the allocator exactly while it is in [inside]. *)
Record malloc_state := MallocState { flag : Z; inside : gset nat }.

Inductive malloc_step : malloc_state → malloc_state → Prop :=
  | step_enter s t : t ∉ inside s →
      malloc_step s (MallocState (Z.lor (flag s) 1) ({[t]} ∪ inside s))
  | step_leave s t : t ∈ inside s →
      malloc_step s (MallocState (Z.land (flag s) 0) (inside s ∖ {[t]})).

Definition malloc_init : malloc_state := MallocState 0 ∅.

(** ** Start-up *)

Record patcher_state := PatcherState {
  inited : bool;
  heapstart : Z;
  handler_installed : bool;
  ps_hooks : hooks;
  pid_file : option Z
}.

(** What [user_init] asks the system for. *)
Record environment := Environment {
  maps : option (list map_line);
  home : bool;
  can_create : bool;
  pid : Z
}.

Definition connect_to_kernel : Z := 0.
Definition disconnect_from_kernel : Z := 0.

Definition user_init (e : environment) (s : patcher_state) : patcher_state :=
  if inited s then s
  else if decide (connect_to_kernel ≠ 0) then s
  else
    let '(failed, start) := find_heap (maps e) (heapstart s) in
    let s := PatcherState false start (handler_installed s) (ps_hooks s) (pid_file s) in
    if decide (failed ≠ 0) then s
    else
      let s := PatcherState false start true (install_my_malloc_hooks (ps_hooks s)) (pid_file s) in
      if home e then
        if can_create e then PatcherState true start true (ps_hooks s) (Some (pid e))
        else s
      else s.

Definition user_deinit (s : patcher_state) : patcher_state :=
  if inited s then
    PatcherState false (heapstart s) (handler_installed s) (ps_hooks s) (pid_file s)
  else s.

Definition startup : patcher_state :=
  PatcherState false 0 false (Hooks LibraryHook LibraryHook) None.

(** ** Properties *)

Lemma safe_to_patch_spec heapstart begin : safe_to_patch heapstart begin = true ↔ heapstart <= begin.
Proof. apply bool_decide_eq_true. Qed.

Lemma scan_maps_spec lines start :
  scan_maps lines = Some start ↔
  ∃ before after stop, lines = before ++ HeapAt start stop :: after ∧
                       Forall (λ l, l = OtherMapping) before.
Proof.
  induction lines as [|l lines IH]; simpl.
  { split; [done|]. intros ([|??]&?&?&?&?); done. }
  destruct l as [| |s e]; simpl.
  - rewrite IH. split.
    + intros (b & a & z & -> & Hb). exists (OtherMapping :: b), a, z. split; [done|by constructor].
    + intros ([|x b] & a & z & E & Hb); [done|]. injection E as <- ->.
      apply Forall_cons in Hb as [_ Hb]. by exists b, a, z.
  - split; [done|]. intros ([|x b] & a & z & E & Hb); [done|]. injection E as <- ->.
    by apply Forall_cons in Hb as [? _].
  - split.
    + intros [= ->]. by exists [], lines, e.
    + intros ([|x b] & a & z & E & Hb); [by injection E as -> _ _|]. injection E as <- ->.
      by apply Forall_cons in Hb as [? _].
Qed.

(** One initialisation that succeeds routes every allocation through the own
    hook exactly once, with the flag raised meanwhile and lowered afterwards, and
    leaves the hooks as they were. *)
Theorem user_init_hooks e start stop before after :
  maps e = Some (before ++ HeapAt start stop :: after) →
  Forall (λ l, l = OtherMapping) before → home e = true → can_create e = true →
  let s := user_init e startup in
  inited s = true ∧ heapstart s = start ∧ handler_installed s = true ∧
  pid_file s = Some (pid e) ∧ user_init e s = s ∧
  (∀ fuel, (0 < fuel)%nat → hooked_malloc fuel (ps_hooks s) 0 = Some (1%nat, ps_hooks s, 0)) ∧
  malloc_safe (hook_enter (ps_hooks s) 0).2 = false ∧
  malloc_safe (hook_leave (ps_hooks s) (hook_enter (ps_hooks s) 0).2).2 = true.
Proof.
  intros Hm Hb Hh Hc s. assert (scan_maps (before ++ HeapAt start stop :: after) = Some start) as Es.
  { apply scan_maps_spec. by exists before, after, stop. }
  assert (s = PatcherState true start true (Hooks MyHook LibraryHook) (Some (pid e))) as ->.
  { subst s. unfold user_init, find_heap. rewrite Hm, Es, Hh, Hc. done. }
  repeat (split; [done|]). split; [|done].
  intros [|fuel] ?; [lia|]. simpl. by destruct fuel.
Qed.

Definition example_env : environment :=
  Environment (Some [OtherMapping; HeapAt 4096 8192]) true true 42.

Lemma user_init_hooks_witness : inited (user_init example_env startup) = true.
Proof. by apply (user_init_hooks example_env 4096 8192 [OtherMapping] []); repeat constructor. Defined.

(** When the first initialisation fails after the hooks were installed (no
    [HOME], or the pid file cannot be created), a second call saves the own hook
    as the old one, and every allocation recurses without end. *)
Theorem user_init_retry_recurses e e' start stop before after start' stop' before' after' fuel :
  maps e = Some (before ++ HeapAt start stop :: after) →
  Forall (λ l, l = OtherMapping) before → home e = false ∨ can_create e = false →
  maps e' = Some (before' ++ HeapAt start' stop' :: after') →
  Forall (λ l, l = OtherMapping) before' →
  let s := user_init e' (user_init e startup) in
  old_hook (ps_hooks s) = MyHook ∧ hooked_malloc fuel (ps_hooks s) 0 = None.
Proof.
  intros Hm Hb Hf Hm' Hb' s.
  assert (scan_maps (before ++ HeapAt start stop :: after) = Some start) as Es.
  { apply scan_maps_spec. by exists before, after, stop. }
  assert (scan_maps (before' ++ HeapAt start' stop' :: after') = Some start') as Es'.
  { apply scan_maps_spec. by exists before', after', stop'. }
  assert (ps_hooks s = Hooks MyHook MyHook) as ->.
  { subst s. assert (user_init e startup = PatcherState false start true (Hooks MyHook LibraryHook) None) as ->.
    { unfold user_init, find_heap. rewrite Hm, Es. simpl.
      destruct Hf as [->| ->]; [done|by destruct (home e)]. }
    unfold user_init, find_heap. rewrite Hm', Es'. simpl.
    by destruct (home e'), (can_create e'). }
  split; [done|]. generalize 0 as i. induction fuel as [|fuel IH]; intros i; [done|].
  simpl. change (Hooks MyHook MyHook) with (Hooks MyHook MyHook). by rewrite IH.
Qed.

Lemma user_init_retry_recurses_witness :
  hooked_malloc 50 (ps_hooks (user_init example_env
    (user_init (Environment (maps example_env) false true 42) startup))) 0 = None.
Proof.
  apply (user_init_retry_recurses (Environment (maps example_env) false true 42) example_env
           4096 8192 [OtherMapping] [] 4096 8192 [OtherMapping] [] 50);
    [done|by repeat constructor|by left|done|by repeat constructor].
Defined.

(** With one thread the flag is exact. *)
Definition flag_exact (s : malloc_state) : Prop :=
  (flag s = 0 ∨ flag s = 1) ∧ (flag s = 0 ↔ inside s = ∅) ∧ ∀ t, t ∈ inside s → t = 0%nat.

Lemma flag_step s s' :
  flag_exact s → malloc_step s s' → (∀ t, t ∈ inside s' → t = 0%nat) → flag_exact s'.
Proof.
  intros (Hv & Hf & Hin) Hstep Hone. destruct Hstep as [s t Ht|s t Ht]; simpl in *.
  - assert (inside s = ∅) as E.
    { assert (t = 0%nat) as -> by (apply Hone; set_solver).
      apply set_eq. intros t. split; [|set_solver]. intros H. pose proof (Hin t H). congruence. }
    apply Hf in E. rewrite E. split; [by right|]. split; [|done].
    split; [done|]. intros H. assert (t ∈ (∅ : gset nat)); [rewrite <- H|]; set_solver.
  - rewrite Z.land_0_r. split; [by left|]. split; [|done]. split; [|done]. intros _.
    apply set_eq. intros t'. split; [|set_solver]. intros [H Hne]%elem_of_difference.
    rewrite (Hin t' H), (Hin t Ht) in Hne. set_solver.
Qed.

(** The flag of the malloc hooks is sound and complete for a single thread (it
    is clear exactly while the thread is outside the allocator), but with two
    threads a state is reachable where a thread is inside the allocator and the
    handler is told that patching is safe. *)
Theorem malloc_flag_races :
  (∀ s, rtc (λ s s', malloc_step s s' ∧ ∀ t, t ∈ inside s' → t = 0%nat) malloc_init s →
     malloc_safe (flag s) = bool_decide (inside s = ∅)) ∧
  (∃ s, rtc malloc_step malloc_init s ∧ malloc_safe (flag s) = true ∧ inside s ≠ ∅).
Proof.
  split.
  - intros s Hs. assert (flag_exact s) as (_ & Hf & _).
    { revert s Hs. apply rtc_ind_r.
      - split; [by left|]. split; [done|]. intros t Ht. by apply elem_of_empty in Ht.
      - intros s s' _ [Hstep Hone] IH. by eapply flag_step. }
    unfold malloc_safe. apply bool_decide_ext. exact Hf.
  - exists (MallocState 0 {[1%nat]}). split; [|split; [done|]].
    + eapply rtc_l; [apply (step_enter malloc_init 0); simpl; set_solver|].
      eapply rtc_l; [apply (step_enter _ 1); simpl; set_solver|].
      eapply rtc_once.
      assert (∀ X Y : gset nat, 0%nat ∈ X → X ∖ {[0%nat]} = Y →
                malloc_step (MallocState 1 X) (MallocState 0 Y)) as Hleave.
      { intros X Y HX <-. by apply (step_leave (MallocState 1 X) 0). }
      apply Hleave; simpl; set_solver.
    + simpl. set_solver.
Qed.
