(* ===== verification/Patching.v ===== *)
(** * Patching pointers to moved blocks

    [extra/texas/src/runtime/patching.cpp] and the signal handler of
    [user_patcher.c]: for every block that moves, the recorded escapes that still
    point into it are collected as patches, executed, and the block is filed under
    its new address; the handler should then patch the registers and copy the
    bytes. *)

From S2P Require Import Prelude Helpers Memory UserPatcher.

(** ** Data *)

(** The fields of [allocEntry] the patcher uses. *)
Record allocEntry := AllocEntry {
  e_pointer : Z;
  e_length : Z;
  e_patchPointer : Z;
  e_escapes : list Z
}.

Definition set_e_pointer (p : Z) (e : allocEntry) : allocEntry :=
  AllocEntry p (e_length e) (e_patchPointer e) (e_escapes e).
Definition set_e_patch (len p : Z) (e : allocEntry) : allocEntry :=
  AllocEntry (e_pointer e) len p (e_escapes e).

Record patch_item := PatchItem { paddr_of_ptr : Z; new_paddr_to_write : Z }.

Record region := Region { oldAddr : Z; newAddr : Z; r_length : Z }.

(** ** Pages *)

Definition doRangesIntersect (range1Start range1End range2Start range2End : Z) : bool :=
  bool_decide (range1Start <= range2End ∧ range2Start <= range1End).

Definition page_base (a : Z) : Z := Z.land a (two64 - 4096).

Section with_heap.
  (** The allocator of the C library and its state. *)
  Context {heap : Type} (calloc : heap → Z → heap * Z) (free : heap → Z → heap).
  (** The start of the heap of the process, found by [find_heap]. *)
  Context (heapstart : Z).

Record world := World {
    w_entries : gmap Z allocEntry;
    w_map : gmap Z Z;
    w_mem : memory;
    w_heap : heap
  }.

Definition set_entries (es : gmap Z allocEntry) (w : world) : world :=
    World es (w_map w) (w_mem w) (w_heap w).
Definition set_mem (m : memory) (w : world) : world :=
    World (w_entries w) (w_map w) m (w_heap w).

  (** [addByPage]: one iteration, with the pages being moved and the pages to
      analyse. *)
Definition add_page_of (beingMoved : gset Z) (page : Z) (toAnalyze : gset Z) : gset Z :=
    if decide (page ∈ beingMoved) then toAnalyze else {[page]} ∪ toAnalyze.

Definition addByPage_step (oldA : Z) (beingMoved : gset Z) (es : gmap Z allocEntry)
      (s : gset Z * gset Z) (a : Z * Z) : option (gset Z * gset Z) :=
    let '(toMove, toAnalyze) := s in
    if decide (a.2 ∈ toMove) then Some s
    else
      e ← es !! a.2;
      if doRangesIntersect oldA (oldA +₆₄ 4096) a.1 (a.1 +₆₄ e_length e) then
        Some ({[a.2]} ∪ toMove,
              add_page_of beingMoved (page_base (a.1 +₆₄ e_length e))
                (add_page_of beingMoved (page_base a.1) toAnalyze))
      else Some s.

Definition addByPage (oldA : Z) (beingMoved : gset Z) (w : world) (toMove toAnalyze : gset Z)
      : option (gset Z * gset Z) :=
    mfoldl (addByPage_step oldA beingMoved (w_entries w)) (toMove, toAnalyze)
      (map_to_list (w_map w)).

  (** ** Preparing patches *)

  (** [calloc] clears the memory it returns. *)
Definition clear (p n : Z) (m : memory) : memory :=
    λ a, if decide (p <= a ∧ a < p + n) then 0 else m a.

  (** [verifyPatch]: every block gets a new place. *)
Definition verify_one (w : world) (id : Z) : option world :=
    e ← w_entries w !! id;
    let len := if decide (e_length e = 0) then 8 else e_length e in
    let '(h, p) := calloc (w_heap w) len in
    Some (World (<[id := set_e_patch len p e]> (w_entries w)) (w_map w)
            (clear p len (w_mem w)) h).

Definition verifyPatch (allocs : list Z) (w : world) : option (bool * world) :=
    w ← mfoldl verify_one w allocs; Some (true, w).

  (** The patch of one escape of a block. *)
Definition patch_of (m : memory) (e : allocEntry) (a : Z) : list patch_item :=
    let offset := doesItAlias (e_pointer e) (e_length e) (load64 m a) in
    if decide (0 < offset) then [PatchItem a (e_patchPointer e +₆₄ offset)] else [].

Definition collect_patches (m : memory) (e : allocEntry) : list patch_item :=
    e_escapes e ≫= patch_of m e.

Definition approxPatchSize (es : list allocEntry) : Z :=
    foldr Z.add 0 ((λ e, Z.of_nat (length (e_escapes e))) <$> es).

  (** The block is filed under its new address.  The insertion of an extracted
      node does not replace an entry that is there already. *)
Definition rekey (w : world) (id : Z) : option world :=
    e ← w_entries w !! id;
    if safe_to_patch heapstart (e_pointer e) then
      match w_map w !! e_pointer e with
      | None => Some w
      | Some v =>
        let m := delete (e_pointer e) (w_map w) in
        let m := match m !! e_patchPointer e with
                 | Some _ => m
                 | None => <[e_patchPointer e := v]> m
                 end in
        Some (World (<[id := set_e_pointer (e_patchPointer e) e]> (w_entries w)) m
                (w_mem w) (w_heap w))
      end
    else Some w.

Definition uset_add (id : Z) (allocs : list Z) : list Z :=
    if decide (id ∈ allocs) then allocs else id :: allocs.

  (** [None] is a dangling entry; the inner [None] the null pointer the code
      returns when there is nothing to patch. *)
Definition prepare_patch (oldAddr0 oldAddr1 : Z) (allocsToMove : list Z) (w : world)
      : option (world * list Z * option (list patch_item)) :=
    match w_map w !! oldAddr0 with
    | None => Some (w, allocsToMove, None)
    | Some id =>
      let allocsToMove := uset_add id allocsToMove in
      '(verified, w) ← (if decide (oldAddr1 = 0) then verifyPatch allocsToMove w
                        else Some (true, w));
      if verified : bool then
        es ← mapM (λ id, w_entries w !! id) allocsToMove;
        let patches := es ≫= collect_patches (w_mem w) in
        w ← mfoldl rekey w allocsToMove;
        Some (w, allocsToMove, Some patches)
      else Some (w, allocsToMove, None)
    end.

Definition execute_one (m : memory) (p : patch_item) : memory :=
    if decide (paddr_of_ptr p ≠ 0 ∧ new_paddr_to_write p ≠ 0) then
      if safe_to_patch heapstart (load64 m (paddr_of_ptr p)) then
        store64 (paddr_of_ptr p) (new_paddr_to_write p) m
      else m
    else m.

Definition execute_patch (patches : list patch_item) (m : memory) : memory :=
    foldl execute_one m patches.

Definition alloc_regions (es : gmap Z allocEntry) (allocs : list Z) : option (list region) :=
    mapM (λ id, e ← es !! id; Some (Region (e_pointer e) (e_patchPointer e) (e_length e))) allocs.

  (** [texas_entry]: the status, the world and what the caller's variables hold.
      The array of regions is stored in the parameter, not in the variable of the
      caller. *)
Definition texas_entry (addr0 addr1 : Z) (patchedAllocs : option (list region)) (numAllocs : Z)
      (w : world) : option (Z * world * option (list region) * Z) :=
    '(w, allocsToMove, escapePatches) ← prepare_patch addr0 addr1 [] w;
    match escapePatches with
    | None => Some (0, w, patchedAllocs, numAllocs)
    | Some patches =>
      let w := set_mem (execute_patch patches (w_mem w)) w in
      let numAllocs := Z.of_nat (length allocsToMove) in
      local_patchedAllocs ← alloc_regions (w_entries w) allocsToMove;
      Some (0, w, patchedAllocs, numAllocs)
    end.

  (** ** The handler of the patch signal *)

  (** The registers [REG_R8] to [REG_RIP] are the first 17 of [gregs].  The inner
      loop variable hides the outer one: the guard reads [patchedAllocs] at the
      index of the register. *)
Definition patch_register (regions : list region) (r : region) (gregs : list Z) (i : nat)
      : option (list Z) :=
    reg ← gregs !! i;
    if decide (oldAddr r <= reg ∧ reg < oldAddr r +₆₄ r_length r) then
      let new := newAddr r +₆₄ (reg -₆₄ oldAddr r) in
      guard_region ← regions !! i;
      if safe_to_patch heapstart (oldAddr guard_region) then Some (<[i := new]> gregs)
      else Some gregs
    else Some gregs.

Definition patch_registers (regions : list region) (gregs : list Z) : option (list Z) :=
    mfoldl (λ gregs r, mfoldl (patch_register regions r) gregs (seq 0 17)) gregs regions.

Definition move_block (w : world) (r : region) : world :=
    let allocLen := if decide (r_length r = 0) then 8 else r_length r in
    let m := memcpy (newAddr r) (oldAddr r) allocLen (w_mem w) in
    World (w_entries w) (w_map w) m
      (if safe_to_patch heapstart (oldAddr r) then free (w_heap w) (oldAddr r)
       else free (w_heap w) (newAddr r)).

  (** [movement] is the contents of the movement file. *)
Definition user_handler (is_inited : bool) (inmalloc : Z) (movement : option (Z * Z))
      (gregs : list Z) (w : world) : option (list Z * world) :=
    if negb is_inited then Some (gregs, w)
    else if negb (malloc_safe inmalloc) then Some (gregs, w)
    else
      match movement with
      | None => Some (gregs, w)
      | Some (addr0, addr1) =>
        '(status, w, patchedAllocs, numAllocs) ← texas_entry addr0 addr1 None 0 w;
        if decide (status = 1) then Some (gregs, w)
        else
          match patchedAllocs with
          | None => Some (gregs, w)
          | Some regions =>
            let regions := take (Z.to_nat numAllocs) regions in
            gregs ← patch_registers regions gregs;
            Some (gregs, foldl move_block w regions)
          end
      end.
End with_heap.

Arguments world : clear implicits.
Arguments World {heap}.
Arguments w_entries {heap}.
Arguments w_map {heap}.
Arguments w_mem {heap}.
Arguments w_heap {heap}.

(** ** Ranges and pages *)

Lemma doRangesIntersect_spec s1 e1 s2 e2 :
  s1 <= e1 → s2 <= e2 →
  doRangesIntersect s1 e1 s2 e2 = true ↔ ∃ a, s1 <= a <= e1 ∧ s2 <= a <= e2.
Proof.
  intros. unfold doRangesIntersect. rewrite bool_decide_eq_true. split.
  - intros. exists (Z.max s1 s2). lia.
  - intros (a & ? & ?). lia.
Qed.

Lemma page_base_spec a : u64 a → page_base a = a - a mod 4096.
Proof.
  intros Ha. unfold page_base. rewrite Z.mod_eq by lia.
  replace (a - (a - 4096 * (a / 4096))) with (a / 4096 * 2 ^ 12) by lia.
  change 4096 with (2 ^ 12). rewrite <- Z.shiftr_div_pow2, <- Z.shiftl_mul_pow2 by lia.
  apply Z.bits_inj'. intros n Hn. rewrite Z.land_spec, Z.shiftl_spec by lia.
  replace (two64 - 2 ^ 12) with (Z.shiftl (Z.ones 52) 12) by done.
  rewrite Z.shiftl_spec by lia. destruct (decide (n < 12)).
  - rewrite !(Z.testbit_neg_r _ (n - 12)) by lia. by rewrite andb_false_r.
  - rewrite Z.shiftr_spec by lia. replace (n - 12 + 12) with n by lia.
    destruct (decide (n - 12 < 52)); [by rewrite Z.ones_spec_low, andb_true_r by lia|].
    rewrite Z.ones_spec_high, andb_false_r by lia. symmetry.
    apply Z.bits_above_log2; [by destruct Ha|].
    destruct Ha as [Ha1 Ha2]. destruct (decide (a = 0)) as [->|]; [simpl; lia|].
    assert (Z.log2 a < 64); [|lia]. apply Z.log2_lt_pow2; [lia|exact Ha2].
Qed.

(** ** Collecting and executing patches *)

(** The escapes of a block that hold an address strictly inside it. *)
Definition points_inside (m : memory) (e : allocEntry) (a : Z) : Prop :=
  e_pointer e < load64 m a < e_pointer e + e_length e.

#[export] Instance points_inside_dec m e a : Decision (points_inside m e a).
Proof. unfold points_inside. apply _. Defined.

(** Escape cells that do not overlap. *)
Definition cells_ok (cells : list Z) : Prop :=
  NoDup cells ∧ ∀ a b, a ∈ cells → b ∈ cells → a ≠ b → disjoint_ranges a 8 b 8.

Definition outside_cells (cells : list Z) (b : Z) : Prop := ∀ a, a ∈ cells → ¬ (a <= b < a + 8).

Definition entry_ok (e : allocEntry) : Prop :=
  block_ok (e_pointer e) (e_length e) ∧ e_length e <= two63.

Lemma patch_of_spec m e a :
  entry_ok e →
  patch_of m e a =
  if decide (points_inside m e a)
  then [PatchItem a (e_patchPointer e +₆₄ (load64 m a - e_pointer e))] else [].
Proof.
  intros [Hb Hl]. unfold patch_of, points_inside.
  destruct (decide (in_block (e_pointer e) (e_length e) (load64 m a))) as [Hin|Hout].
  - rewrite (doesItAlias_in _ _ _ Hb Hl Hin). unfold in_block in Hin. repeat case_decide; (lia || done).
  - rewrite (doesItAlias_out _ _ _ Hb Hout). unfold in_block in Hout. repeat case_decide; (lia || done).
Qed.

Lemma collect_patches_eq m e :
  entry_ok e →
  collect_patches m e =
  (λ a, PatchItem a (e_patchPointer e +₆₄ (load64 m a - e_pointer e)))
    <$> filter (points_inside m e) (e_escapes e).
Proof.
  intros He. unfold collect_patches. induction (e_escapes e) as [|a l IH]; [done|].
  rewrite bind_cons, (patch_of_spec _ _ _ He), filter_cons, IH. by case_decide.
Qed.

Lemma collect_patches_length m e : Z.of_nat (length (collect_patches m e)) <= Z.of_nat (length (e_escapes e)).
Proof.
  unfold collect_patches. induction (e_escapes e) as [|a l IH]; [done|].
  rewrite bind_cons, length_app. simpl length. unfold patch_of at 1. case_decide; simpl; lia.
Qed.

(** The buffer of the patches, sized by the number of escapes of the blocks
    that move, is never overrun. *)
Theorem patches_fit m es :
  Z.of_nat (length (es ≫= collect_patches m)) <= approxPatchSize es.
Proof.
  unfold approxPatchSize. induction es as [|e es IH]; [done|].
  rewrite bind_cons, length_app, fmap_cons. cbn [foldr].
  pose proof (collect_patches_length m e). lia.
Qed.

Lemma cells_ok_filter (P : Z → Prop) `{∀ x, Decision (P x)} cells :
  cells_ok cells → cells_ok (filter P cells).
Proof.
  intros [Hnd Hd]. split; [by apply NoDup_filter|].
  intros a b [_ ?]%list_elem_of_filter [_ ?]%list_elem_of_filter. auto.
Qed.

Lemma cells_ok_cons a cells :
  cells_ok (a :: cells) → a ∉ cells ∧ cells_ok cells ∧ ∀ b, b ∈ cells → disjoint_ranges a 8 b 8.
Proof.
  intros [[Hni Hnd]%NoDup_cons Hd]. split; [done|]. split; [split; [done|]|].
  - intros x y Hx Hy. apply Hd; apply elem_of_cons; by right.
  - intros b Hb. apply Hd; [by apply elem_of_cons; left|by apply elem_of_cons; right|]. naive_solver.
Qed.

(** A patch that is executed: a cell in mapped memory, a word to write, and a
    stored pointer into the heap. *)
Definition patch_ok (hs : Z) (m : memory) (p : patch_item) : Prop :=
  paddr_of_ptr p ≠ 0 ∧ u64 (new_paddr_to_write p) ∧ new_paddr_to_write p ≠ 0 ∧
  hs <= load64 m (paddr_of_ptr p).

Lemma execute_patch_spec hs patches m :
  cells_ok (paddr_of_ptr <$> patches) → Forall (patch_ok hs m) patches →
  (∀ p, p ∈ patches → load64 (execute_patch hs patches m) (paddr_of_ptr p) = new_paddr_to_write p) ∧
  (∀ b, outside_cells (paddr_of_ptr <$> patches) b → execute_patch hs patches m b = m b).
Proof.
  unfold execute_patch. revert m. induction patches as [|p ps IH]; intros m Hc Hok.
  { split; [by intros p Hp%elem_of_nil|done]. }
  rewrite fmap_cons in Hc |- *. apply cells_ok_cons in Hc as (Hni & Hc & Hd).
  apply Forall_cons in Hok as [(Hp0 & Hu & Hn0 & Hs) Hok]. cbn [foldl].
  assert (execute_one hs m p = store64 (paddr_of_ptr p) (new_paddr_to_write p) m) as ->.
  { unfold execute_one. rewrite decide_True by done. by rewrite (proj2 (safe_to_patch_spec _ _)). }
  destruct (IH (store64 (paddr_of_ptr p) (new_paddr_to_write p) m) Hc) as [H1 H2].
  { apply Forall_forall. intros q Hq. rewrite Forall_forall in Hok. destruct (Hok q Hq) as (?&?&?&?).
    split; [done|]. split; [done|]. split; [done|]. rewrite load64_store64_other; [done|].
    apply Hd, list_elem_of_fmap. by exists q. }
  split.
  - intros q [->|Hq]%elem_of_cons; [|by apply H1].
    rewrite <- (load64_store64_same m (paddr_of_ptr p) (new_paddr_to_write p)) at 2 by done.
    apply load64_ext. intros i Hi. apply H2. intros a Ha. specialize (Hd a Ha).
    unfold disjoint_ranges in Hd. lia.
  - intros b Hb. rewrite H2; [apply store64_out, Hb; apply elem_of_cons; by left|].
    intros a Ha. apply Hb, elem_of_cons. by right.
Qed.

(** ** The entry of the patcher *)

Section entry.
  Context {heap : Type} (calloc : heap → Z → heap * Z) (free : heap → Z → heap) (hs : Z).
  Implicit Types (w : world heap) (e : allocEntry).

  (** The world once the block has a new place: a fresh one, or the one the packer
      wrote to the entry. *)
Definition placed (addr1 id : Z) w : option (world heap) :=
    if decide (addr1 = 0) then verify_one calloc w id else Some w.

  (** A block that can be moved: its own and its new address range are
      representable, it is on the heap and filed under its address, its new
      address is not taken, and its escape cells do not overlap. *)
Definition movable w (id : Z) (e : allocEntry) : Prop :=
    entry_ok e ∧ block_ok (e_patchPointer e) (e_length e) ∧ hs <= e_pointer e ∧
    w_entries w !! id = Some e ∧ w_map w !! e_pointer e = Some id ∧
    w_map w !! e_patchPointer e = None ∧ cells_ok (e_escapes e) ∧ 0 ∉ e_escapes e.

Lemma placed_map addr1 id w w1 : placed addr1 id w = Some w1 → w_map w1 = w_map w.
Proof.
    unfold placed, verify_one. case_decide; [|by intros [= ->]].
    destruct (w_entries w !! id) as [e|]; [|done]. simpl.
    destruct (calloc _ _). by intros [= <-].
  Qed.

Lemma rekey_movable w id e :
    movable w id e →
    rekey hs w id = Some (World (<[id := set_e_pointer (e_patchPointer e) e]> (w_entries w))
                            (<[e_patchPointer e := id]> (delete (e_pointer e) (w_map w)))
                            (w_mem w) (w_heap w)).
Proof.
    intros (_ & _ & Hh & He & Hm & Hn & _). unfold rekey. rewrite He. simpl.
    rewrite (proj2 (safe_to_patch_spec _ _)) by done. rewrite Hm.
    assert (e_patchPointer e ≠ e_pointer e) by congruence.
    by rewrite lookup_delete_ne, Hn by done.
  Qed.

Lemma patches_ok w id e :
    movable w id e →
    cells_ok (paddr_of_ptr <$> collect_patches (w_mem w) e) ∧
    Forall (patch_ok hs (w_mem w)) (collect_patches (w_mem w) e).
Proof.
    intros (He & Hq & Hh & _ & _ & _ & Hc & H0). rewrite (collect_patches_eq _ _ He).
    rewrite <- list_fmap_compose. rewrite (list_fmap_ext _ (λ a, a)); [|done]. split.
    - rewrite list_fmap_id. by apply cells_ok_filter.
    - apply Forall_fmap, Forall_forall. intros a [Hin Ha]%list_elem_of_filter.
      destruct Hq as (?&?&?). unfold points_inside in Hin. unfold patch_ok. simpl.
      rewrite add64_small by lia. unfold u64. split; [by intros ->|]. lia.
  Qed.

Lemma texas_entry_spec w id addr0 addr1 w1 e pa num :
    w_map w !! addr0 = Some id → placed addr1 id w = Some w1 →
    movable w1 id e → addr0 = e_pointer e →
    let q := e_patchPointer e in
    ∃ w', texas_entry calloc hs addr0 addr1 pa num w = Some (0, w', pa, 1) ∧
      (∀ a, a ∈ e_escapes e → load64 (w_mem w') a =
         if decide (points_inside (w_mem w1) e a)
         then q + (load64 (w_mem w1) a - e_pointer e) else load64 (w_mem w1) a) ∧
      (∀ b, outside_cells (e_escapes e) b → w_mem w' b = w_mem w1 b) ∧
      w_map w' = <[q := id]> (delete addr0 (w_map w)) ∧
      w_entries w' !! id = Some (set_e_pointer q e) ∧
      alloc_regions (w_entries w') [id] = Some [Region q q (e_length e)].
Proof.
    intros Hmap Hpl Hmv -> q. pose proof (placed_map _ _ _ _ Hpl) as Hm1.
    destruct (patches_ok _ _ _ Hmv) as [Hcells Hok].
    pose proof (rekey_movable _ _ _ Hmv) as Hrk.
    destruct Hmv as (He & Hq & Hh & Hid & Hm & Hn & Hc & H0).
    set (w' := World (<[id := set_e_pointer q e]> (w_entries w1))
                 (<[q := id]> (delete (e_pointer e) (w_map w1)))
                 (execute_patch hs (collect_patches (w_mem w1) e) (w_mem w1)) (w_heap w1)).
    assert (prepare_patch calloc hs (e_pointer e) addr1 [] w =
            Some (World (w_entries w') (w_map w') (w_mem w1) (w_heap w1), [id],
                  Some (collect_patches (w_mem w1) e))) as Hprep.
    { unfold prepare_patch. rewrite Hmap. unfold uset_add. rewrite decide_False by apply not_elem_of_nil.
      assert ((if decide (addr1 = 0) then verifyPatch calloc [id] w else Some (true, w)) =
              Some (true, w1)) as ->.
      { unfold placed in Hpl. case_decide; [|by injection Hpl as ->].
        unfold verifyPatch. simpl. by rewrite Hpl. }
      cbn [mbind option_bind mapM]. rewrite Hid. simpl. rewrite Hrk. simpl. by rewrite app_nil_r. }
    assert (alloc_regions (w_entries w') [id] = Some [Region q q (e_length e)]) as Hreg.
    { unfold alloc_regions, w'. simpl. by rewrite lookup_insert_eq. }
    exists w'. split.
    { unfold texas_entry. rewrite Hprep. cbn [mbind option_bind w_entries set_mem].
      fold (w_entries w'). rewrite Hreg. done. }
    destruct (execute_patch_spec hs _ _ Hcells Hok) as [Hin Hout].
    rewrite (collect_patches_eq _ _ He) in Hin, Hout. rewrite <- list_fmap_compose in Hout.
    rewrite (list_fmap_ext _ (λ a, a)), list_fmap_id in Hout by done.
    split; [|split; [|split; [unfold w'; simpl; by rewrite Hm1|split; [|done]]]].
    - intros a Ha. unfold w'. cbn [w_mem]. rewrite (collect_patches_eq _ _ He). case_decide as Hp.
      + specialize (Hin (PatchItem a (q +₆₄ (load64 (w_mem w1) a - e_pointer e)))).
        cbn [paddr_of_ptr new_paddr_to_write] in Hin. rewrite Hin.
        * destruct Hq as (?&?&?). unfold points_inside in Hp. rewrite add64_small; subst q; lia.
        * apply list_elem_of_fmap. exists a. split; [done|]. by apply list_elem_of_filter.
      + apply load64_ext. intros i Hi. apply Hout. intros a' [Hp' Ha']%list_elem_of_filter.
        destruct Hc as [_ Hd]. assert (a ≠ a') as Hne by congruence.
        specialize (Hd a a' Ha Ha' Hne). unfold disjoint_ranges in Hd. lia.
    - intros b Hb. unfold w'. cbn [w_mem]. rewrite (collect_patches_eq _ _ He).
      apply Hout. intros a [_ Ha]%list_elem_of_filter. by apply Hb.
    - unfold w'. simpl. by rewrite lookup_insert_eq.
  Qed.

  (** C28: moving one block redirects exactly the recorded escapes that point
      strictly inside it, by the offset they had, and changes no other byte; the
      block is filed under its new address. An escape that holds the start of the
      block is not redirected. The list of moved regions would name the new
      address twice, and it never reaches the caller. *)
Theorem texas_entry_redirects w id addr0 addr1 w1 e pa num :
    w_map w !! addr0 = Some id → placed addr1 id w = Some w1 →
    movable w1 id e → addr0 = e_pointer e →
    let q := e_patchPointer e in
    ∃ w', texas_entry calloc hs addr0 addr1 pa num w = Some (0, w', pa, 1) ∧
      (∀ a, a ∈ e_escapes e → load64 (w_mem w') a =
         if decide (points_inside (w_mem w1) e a)
         then q + (load64 (w_mem w1) a - e_pointer e) else load64 (w_mem w1) a) ∧
      (∀ b, outside_cells (e_escapes e) b → w_mem w' b = w_mem w1 b) ∧
      w_map w' = <[q := id]> (delete addr0 (w_map w)) ∧
      w_entries w' !! id = Some (set_e_pointer q e) ∧
      alloc_regions (w_entries w') [id] = Some [Region q q (e_length e)].
Proof. apply texas_entry_spec. Qed.

  (** The handler never moves a block. After a patch signal with no new address
      in the movement file, the escapes point into a new block that holds only
      zeros, the bytes of the old block are not copied, and no register is
      patched. *)
Theorem user_handler_loses_block w id addr0 w1 e gregs :
    w_map w !! addr0 = Some id → verify_one calloc w id = Some w1 →
    movable w1 id e → addr0 = e_pointer e →
    let q := e_patchPointer e in
    ∃ w', user_handler calloc free hs true 0 (Some (addr0, 0)) gregs w = Some (gregs, w') ∧
      (∀ a, a ∈ e_escapes e → points_inside (w_mem w1) e a →
         q < load64 (w_mem w') a < q + e_length e) ∧
      (∀ i, 0 <= i < e_length e → outside_cells (e_escapes e) (q + i) → w_mem w' (q + i) = 0) ∧
      w_map w' !! q = Some id ∧ w_map w' !! addr0 = None.
Proof.
    intros Hmap Hv Hmv -> q.
    destruct (texas_entry_spec w id (e_pointer e) 0 w1 e None 0) as
      (w' & E & Hin & Hout & Hm' & _); [done|done|done|done|].
    exists w'. split.
    { unfold user_handler. simpl negb. cbn [malloc_safe]. rewrite E. done. }
    split; [|split].
    - intros a Ha Hp. rewrite (Hin a Ha), decide_True by done. unfold points_inside in Hp. lia.
    - intros i Hi Hb. rewrite (Hout _ Hb). unfold verify_one in Hv.
      destruct (w_entries w !! id) as [e0|] eqn:E0; [|done]. simpl in Hv.
      destruct (calloc _ _) as [h p]. injection Hv as <-.
      destruct Hmv as (_ & _ & _ & Hid & _). simpl in Hid. rewrite lookup_insert_eq in Hid.
      injection Hid as <-. simpl in *. subst q. unfold clear. by rewrite decide_True by lia.
    - rewrite Hm'. fold q. rewrite lookup_insert_eq. split; [done|].
      destruct Hmv as (_ & _ & _ & _ & Hm & Hn & _).
      rewrite lookup_insert_ne by (unfold q; congruence). apply lookup_delete_eq.
  Qed.

  (** The loop that patches the registers reads the list of regions at the index
      of the register: with one moved region, a register after the first that
      points into it makes the read go out of bounds. *)
Theorem patch_registers_out_of_bounds r gregs i v :
    (0 < i < 17)%nat → gregs !! i = Some v → (17 <= length gregs)%nat →
    oldAddr r <= v < oldAddr r +₆₄ r_length r →
    (∀ j v', (j < i)%nat → gregs !! j = Some v' → ¬ (oldAddr r <= v' < oldAddr r +₆₄ r_length r)) →
    patch_registers hs [r] gregs = None.
Proof.
    intros Hi Hv Hlen Hin Hbefore. unfold patch_registers.
    replace (seq 0 17) with (seq 0 i ++ i :: seq (S i) (16 - i)).
    2: { replace 17%nat with (i + S (16 - i))%nat at 1 by lia. by rewrite seq_app. }
    assert (mfoldl (patch_register hs [r] r) gregs (seq 0 i) = Some gregs) as E.
    { assert (∀ j, j ∈ seq 0 i → patch_register hs [r] r gregs j = Some gregs) as Hstep.
      { intros j [_ Hj]%elem_of_seq. simpl in Hj.
        destruct (lookup_lt_is_Some_2 gregs j) as [v' Hv']; [lia|].
        unfold patch_register. rewrite Hv'. simpl. rewrite decide_False; [done|].
        by apply (Hbefore j). }
      revert Hstep. generalize (seq 0 i). intros l. induction l as [|j l IH]; intros Hstep; [done|].
      simpl. rewrite Hstep by (apply elem_of_cons; by left). simpl. apply IH.
      intros. apply Hstep, elem_of_cons. by right. }
    cbn [mfoldl]. rewrite mfoldl_app, E. cbn [mbind option_bind mfoldl].
    assert (patch_register hs [r] r gregs i = None) as ->; [|done].
    unfold patch_register. rewrite Hv. simpl. rewrite decide_True by done.
    destruct i as [|[|i]]; [lia|done|done].
  Qed.
End entry.

(** ** A concrete move

    A block of 64 bytes at 8192 with an escape at 20000 that points to its byte 8
    and one at 20008 that points to its start; the next free address is 100000. *)
Definition bump_calloc (h n : Z) : Z * Z := (h + n, h).

Definition example_world : world Z :=
  World {[1 := AllocEntry 8192 64 0 [20000; 20008]]} {[8192 := 1]}
    (store64 20000 8200 (store64 20008 8192 (λ _, 7))) 100000.

Definition example_placed : world Z :=
  World {[1 := AllocEntry 8192 64 100000 [20000; 20008]]} {[8192 := 1]}
    (clear 100000 64 (w_mem example_world)) 100064.

Lemma example_movable : movable 4096 example_placed 1 (AllocEntry 8192 64 100000 [20000; 20008]).
Proof.
  unfold movable, entry_ok, block_ok, cells_ok. simpl.
  split; [word_unfold; lia|]. split; [word_unfold; lia|]. split; [lia|].
  split; [done|]. split; [done|]. split; [done|]. split; [|set_solver by lia].
  split; [repeat constructor; set_solver|].
  intros a b Ha Hb Hne. unfold disjoint_ranges. set_unfold. lia.
Qed.

Lemma texas_entry_redirects_witness :
  ∃ w', texas_entry bump_calloc 4096 8192 0 None 0 example_world = Some (0, w', None, 1) ∧
        load64 (w_mem w') 20000 = 100008 ∧ load64 (w_mem w') 20008 = 8192.
Proof.
  destruct (texas_entry_redirects bump_calloc 4096 example_world 1 8192 0 example_placed
              (AllocEntry 8192 64 100000 [20000; 20008]) None 0) as (w' & E & Hin & _).
  - done.
  - done.
  - exact example_movable.
  - done.
  - exists w'. split; [exact E|].
    split; rewrite Hin; [reflexivity|by left|reflexivity|by right; left].
Defined.

Lemma user_handler_loses_block_witness :
  ∃ w', user_handler bump_calloc (λ h _, h) 4096 true 0 (Some (8192, 0)) (replicate 23 8200)
          example_world = Some (replicate 23 8200, w') ∧ w_mem w' 100008 = 0.
Proof.
  destruct (user_handler_loses_block bump_calloc (λ h _, h) 4096 example_world 1 8192 example_placed
              (AllocEntry 8192 64 100000 [20000; 20008]) (replicate 23 8200)) as (w' & E & _ & Hz & _).
  - done.
  - done.
  - exact example_movable.
  - done.
  - exists w'. split; [exact E|]. apply (Hz 8); [simpl; lia|].
    intros a Ha. simpl in Ha |- *. set_unfold. lia.
Defined.

Lemma patch_registers_out_of_bounds_witness :
  patch_registers 4096 [Region 8192 100000 64] (<[3%nat := 8200]> (replicate 23 0)) = None.
Proof.
  apply (patch_registers_out_of_bounds 4096 (Region 8192 100000 64) _ 3 8200);
    [lia|done|simpl; lia|vm_compute; by split|].
  intros [|[|[|j]]] v Hj Hv; [injection Hv as <-; vm_compute; naive_solver..|lia].
Defined.
