(* ===== verification/Callstack.v ===== *)
(** * Call stacks and their identifiers

    [include/utils.{hpp,cpp}] and the first part of [include/wrapper.cpp]: a
    backtrace is a [Trace]; the caches map equal traces to one object, and
    [saveCallstack] gives a unique identifier to a pair of a trace and a static
    identifier. *)

From S2P Require Import Prelude Memory.

(** ** Traces *)

Definition TRACE_SIZE : nat := 100.

(** The words of [buffer] are the bit patterns of the stored addresses. *)
Record Trace := MkTrace {
  buffer : list Z;
  nptrs : Z;
  accessFrequency : Z;
  hashPart1 : Z
}.

Definition set_accessFrequency (f : Z) (t : Trace) : Trace :=
  MkTrace (buffer t) (nptrs t) f (hashPart1 t).

(** The eight bytes of a word in memory. *)
Definition word_bytes (v : Z) : list Z :=
  (λ i, Z.shiftr v (8 * i) mod 256) <$> [0; 1; 2; 3; 4; 5; 6; 7].

Definition buffer_bytes (b : list Z) : list Z := b ≫= word_bytes.

(** [memcmp(b1, b2, n) == 0]: [n] counts bytes. *)
Definition memcmp_eq (b1 b2 : list Z) (n : Z) : bool :=
  bool_decide (take (Z.to_nat n) (buffer_bytes b1) = take (Z.to_nat n) (buffer_bytes b2)).

Definition traceCompare (trace1 trace2 : Trace) : bool :=
  if decide (nptrs trace1 ≠ nptrs trace2) then false
  else memcmp_eq (buffer trace1) (buffer trace2) (nptrs trace1).

(** [None] is the abort on an empty callstack. *)
Definition myHashPart1 (buffer : list Z) (nptrs : Z) : option Z :=
  if decide (nptrs <= 0) then None
  else Some (foldl Z.lxor 0 (take (Z.to_nat nptrs) buffer)).

(** ** The store of traces

    Traces are shared by pointers. *)
Record trace_store := TraceStore { ts_map : gmap Z Trace; ts_next : Z }.

Definition new_trace (t : Trace) (s : trace_store) : trace_store * Z :=
  (TraceStore (<[ts_next s := t]> (ts_map s)) (ts_next s + 1), ts_next s).

(** [find_trace]: the loop over a list of traces, the first one that compares
    equal; [None] is a dangling pointer. *)
Fixpoint find_trace (s : trace_store) (x : Trace) (l : list Z) : option (option Z) :=
  match l with
  | [] => Some None
  | p :: l =>
    t ← ts_map s !! p;
    if traceCompare x t then Some (Some p) else find_trace s x l
  end.

(** The table from hashes to the traces that have them. *)
Notation hash_table := (gmap Z (list Z)) (only parsing).

(** Look the trace up in the table, or make a new one and file it. *)
Definition lookup_or_insert (x : Trace) (s : trace_store) (h : hash_table)
    : option (trace_store * hash_table * Z) :=
  found ← (match h !! hashPart1 x with
           | Some l => find_trace s x l
           | None => Some None
           end);
  match found with
  | Some p => Some (s, h, p)
  | None =>
    let '(s, p) := new_trace x s in
    Some (s, <[hashPart1 x := default [] (h !! hashPart1 x) ++ [p]]> h, p)
  end.

(** ** The LRU cache *)

(** The nodes of the list have an identity, because [ma] stores iterators. *)
Record LRUCache := MkLRU {
  lru_table : hash_table;
  dq : list (Z * Z);
  ma : gmap Z Z;
  csize : nat;
  next_node : Z
}.

Definition new_LRUCache (n : nat) : LRUCache := MkLRU ∅ [] ∅ n 0.

Definition lruCacheSize : nat := 200.

(** [dq.push_front(p); ma[p] = dq.begin()] *)
Definition push_front (p : Z) (c : LRUCache) : LRUCache :=
  MkLRU (lru_table c) ((next_node c, p) :: dq c) (<[p := next_node c]> (ma c)) (csize c)
    (next_node c + 1).

(** [dq.back()] of an empty list is undefined. *)
Definition evict (c : LRUCache) : option LRUCache :=
  if decide (length (dq c) = csize c) then
    last_ ← last (dq c);
    Some (MkLRU (lru_table c) (removelast (dq c)) (delete last_.2 (ma c)) (csize c) (next_node c))
  else Some c.

(** [dq.erase(it)]: an iterator that is not in the list is undefined. *)
Definition erase_node (n : Z) (c : LRUCache) : option LRUCache :=
  if decide (n ∈ (dq c).*1) then
    Some (MkLRU (lru_table c) (filter (λ e, e.1 ≠ n) (dq c)) (ma c) (csize c) (next_node c))
  else None.

Definition refer (x : Trace) (s : trace_store) (c : LRUCache)
    : option (trace_store * LRUCache * Z) :=
  traceInCache ← find_trace s x ((dq c).*2);
  match traceInCache with
  | None =>
    c ← evict c;
    '(s, h, p) ← lookup_or_insert x s (lru_table c);
    Some (s, push_front p (MkLRU h (dq c) (ma c) (csize c) (next_node c)), p)
  | Some p =>
    it ← ma c !! p;
    if decide (head (dq c).*1 = Some it) then Some (s, c, p)
    else c ← erase_node it c; Some (s, push_front p c, p)
  end.

(** ** The frequency cache *)

Definition traceCacheSize : nat := 10.

(** A cache that is not full takes every trace, also one that is there already. *)
Definition insertOrGetTrace (x : Trace) (s : trace_store) (cache : list Z)
    : option (trace_store * list Z * option Z) :=
  if decide (length cache < traceCacheSize)%nat then
    let '(s, p) := new_trace x s in Some (s, cache ++ [p], Some p)
  else
    found ← find_trace s x cache; Some (s, cache, found).

(** The loop variable is a copy of the pointer: the exchange assigns to it and to
    the parameter.  The result is the cache and the two locals. *)
Fixpoint swapLeastFrequentTrace (s : trace_store) (trace : Z) (cache : list Z)
    : option (list Z * Z) :=
  match cache with
  | [] => Some ([], trace)
  | cachedTrace :: rest =>
    c ← ts_map s !! cachedTrace;
    t ← ts_map s !! trace;
    if decide (accessFrequency c < accessFrequency t) then
      let tempTrace := cachedTrace in
      let _local_cachedTrace := trace in
      Some (cachedTrace :: rest, tempTrace)
    else
      '(rest, trace) ← swapLeastFrequentTrace s trace rest;
      Some (cachedTrace :: rest, trace)
  end.

Definition bump_frequency (p : Z) (s : trace_store) : option trace_store :=
  t ← ts_map s !! p;
  Some (TraceStore (<[p := set_accessFrequency (accessFrequency t +₆₄ 1) t]> (ts_map s)) (ts_next s)).

(** ** Taking a backtrace *)

Record backtraces := Backtraces {
  bt_store : trace_store;
  bt_lru : option LRUCache;
  bt_cache : list Z;
  bt_table : hash_table;
  bt_unique : option (list (option Z))
}.

(** What [backtrace_asm] wrote: the words of the buffer and their number.  A trace
    is built from it with its hash. *)
Definition make_trace (b : list Z) (n : Z) : option Trace :=
  h ← myHashPart1 b n; Some (MkTrace b n 0 h).

(** [getBacktrace] with the LRU cache. *)
Definition getBacktrace_lru (disableCallstack : bool) (b : list Z) (n : Z) (s : backtraces)
    : option (backtraces * option Z) :=
  if disableCallstack then Some (s, None)
  else
    x ← make_trace b n;
    let c := default (new_LRUCache lruCacheSize) (bt_lru s) in
    '(st, c, p) ← refer x (bt_store s) c;
    Some (Backtraces st (Some c) (bt_cache s) (bt_table s) (bt_unique s), Some p).

(** [getBacktrace] without a cache. *)
Definition getBacktrace_nocache (disableCallstack : bool) (b : list Z) (n : Z) (s : backtraces)
    : option (backtraces * option Z) :=
  if disableCallstack then Some (s, None)
  else
    x ← make_trace b n;
    '(st, h, p) ← lookup_or_insert x (bt_store s) (bt_table s);
    Some (Backtraces st (bt_lru s) (bt_cache s) h (bt_unique s), Some p).

(** [getBacktrace] with the frequency cache. *)
Definition getBacktrace_cache (disableCallstack : bool) (b : list Z) (n : Z) (s : backtraces)
    : option (backtraces * option Z) :=
  if disableCallstack then Some (s, None)
  else
    x ← make_trace b n;
    '(st, cache, traceRet) ← insertOrGetTrace x (bt_store s) (bt_cache s);
    match traceRet with
    | Some p =>
      st ← bump_frequency p st;
      Some (Backtraces st (bt_lru s) cache (bt_table s) (bt_unique s), Some p)
    | None =>
      '(st, h, p) ← lookup_or_insert x st (bt_table s);
      st ← bump_frequency p st;
      '(cache, _) ← swapLeastFrequentTrace st p cache;
      Some (Backtraces st (bt_lru s) cache h (bt_unique s), Some p)
    end.

(** [getBacktraceUnique]: one trace per index; an index out of range is
    undefined. *)
Definition getBacktraceUnique (disableCallstack : bool) (index numberOfUniqueTraces : Z)
    (b : list Z) (n : Z) (s : backtraces) : option (backtraces * option Z) :=
  if disableCallstack then Some (s, None)
  else
    let u := default (replicate (Z.to_nat numberOfUniqueTraces) None) (bt_unique s) in
    slot ← u !! Z.to_nat index;
    match slot with
    | Some p => Some (Backtraces (bt_store s) (bt_lru s) (bt_cache s) (bt_table s) (Some u), Some p)
    | None =>
      x ← make_trace b n;
      let '(st, p) := new_trace x (bt_store s) in
      Some (Backtraces st (bt_lru s) (bt_cache s) (bt_table s)
              (Some (<[Z.to_nat index := Some p]> u)), Some p)
    end.

(** [getBacktrace2], compiled when the callstack instrumentation is not clustered:
    the trace is allocated first and deleted again when an equal one is known. *)
Definition getBacktrace2 (disableCallstack : bool) (b : list Z) (n : Z) (s : backtraces)
    : option (backtraces * option Z) :=
  if disableCallstack then Some (s, None)
  else
    x ← make_trace b n;
    let '(st, fresh) := new_trace x (bt_store s) in
    found ← (match bt_table s !! hashPart1 x with
             | Some l => find_trace st x l
             | None => Some None
             end);
    match found with
    | Some p =>
      Some (Backtraces (TraceStore (delete fresh (ts_map st)) (ts_next st)) (bt_lru s)
              (bt_cache s) (bt_table s) (bt_unique s), Some p)
    | None =>
      Some (Backtraces st (bt_lru s) (bt_cache s)
              (<[hashPart1 x := default [] (bt_table s !! hashPart1 x) ++ [fresh]]> (bt_table s))
              (bt_unique s), Some fresh)
    end.

(** ** What the comparison compares *)

Lemma word_bytes_length v : length (word_bytes v) = 8%nat.
Proof. done. Qed.

Lemma word_bytes_inj v w : u64 v → u64 w → word_bytes v = word_bytes w → v = w.
Proof.
  intros Hv Hw E. rewrite <- (bytes_of_word v Hv), <- (bytes_of_word w Hw).
  injection E as E0 E1 E2 E3 E4 E5 E6 E7. cbn [foldr].
  by rewrite E0, E1, E2, E3, E4, E5, E6, E7.
Qed.

Definition words_ok (b : list Z) : Prop := Forall u64 b.

(** The first [n] bytes agree exactly when the first [n / 8] words agree and the
    next word agrees in its low [n mod 8] bytes. *)
Lemma take_bytes b1 b2 n :
  words_ok b1 → words_ok b2 → length b1 = length b2 →
  take n (buffer_bytes b1) = take n (buffer_bytes b2) ↔
  take (n / 8) b1 = take (n / 8) b2 ∧
  (∀ v1 v2, b1 !! (n / 8)%nat = Some v1 → b2 !! (n / 8)%nat = Some v2 →
     take (n mod 8) (word_bytes v1) = take (n mod 8) (word_bytes v2)).
Proof.
  revert b2 n. induction b1 as [|v1 b1 IH]; intros [|v2 b2] n H1 H2 Hlen; try done.
  apply Forall_cons in H1 as [Hv1 H1], H2 as [Hv2 H2]. injection Hlen as Hlen.
  unfold buffer_bytes. rewrite !bind_cons. destruct (decide (n < 8)%nat) as [Hn|Hn].
  - rewrite Nat.div_small, Nat.mod_small by done.
    rewrite !take_app_le by (rewrite word_bytes_length; lia). cbn [take].
    split; [intros E; split; [done|]; intros ? ? [= <-] [= <-]; done|].
    intros [_ E]. by apply E.
  - assert (n = 8 + (n - 8))%nat as Hn8 by lia. revert Hn8. generalize (n - 8)%nat as k.
    intros k ->. replace (8 + k)%nat with (k + 1 * 8)%nat by lia.
    rewrite Nat.div_add, Nat.Div0.mod_add by lia. replace (k + 1 * 8)%nat with (8 + k)%nat by lia.
    replace (k / 8 + 1)%nat with (S (k / 8)) by lia.
    pose proof (IH b2 k H1 H2 Hlen) as IHk. unfold buffer_bytes in IHk.
    assert (∀ v l, take (8 + k) (word_bytes v ++ l) = word_bytes v ++ take k l) as Ht by done.
    rewrite !Ht. cbn [take lookup list_lookup]. split.
    + intros E. apply app_inj_1 in E as [E1 E2]; [|done].
      apply word_bytes_inj in E1 as ->; [|done..].
      apply IHk in E2 as [E2 E3]. by rewrite E2.
    + intros [E1 E2]. injection E1 as -> E1. f_equal. by apply IHk.
Qed.

Definition trace_ok (t : Trace) : Prop := words_ok (buffer t) ∧ length (buffer t) = TRACE_SIZE.

Lemma traceCompare_refl t : traceCompare t t = true.
Proof. unfold traceCompare, memcmp_eq. rewrite decide_False by naive_solver. by apply bool_decide_eq_true. Qed.

(** Two callstacks compare equal exactly when they have the same depth [n], the
    same first [n / 8] frames and a next frame with the same low [n mod 8] bytes:
    [memcmp] is given the number of frames as a number of bytes. *)
Theorem traceCompare_frames t1 t2 :
  trace_ok t1 → trace_ok t2 → 0 <= nptrs t1 →
  traceCompare t1 t2 = true ↔
  nptrs t1 = nptrs t2 ∧
  let n := Z.to_nat (nptrs t1) in
  take (n / 8) (buffer t1) = take (n / 8) (buffer t2) ∧
  (∀ v1 v2, buffer t1 !! (n / 8)%nat = Some v1 → buffer t2 !! (n / 8)%nat = Some v2 →
     take (n mod 8) (word_bytes v1) = take (n mod 8) (word_bytes v2)).
Proof.
  intros [H1 L1] [H2 L2] Hn. unfold traceCompare, memcmp_eq. case_decide as Hd; [naive_solver|].
  rewrite bool_decide_eq_true, take_bytes by (done || congruence). naive_solver.
Qed.

Definition example_trace (frames : list Z) : Trace :=
  MkTrace (frames ++ replicate (100 - length frames) 0) (Z.of_nat (length frames)) 0
    (foldl Z.lxor 0 frames).

(** Two different callstacks of depth 3 with the same innermost frame. *)
Lemma traceCompare_frames_witness :
  traceCompare (example_trace [4198400; 4198500; 4198600])
               (example_trace [4198400; 5198500; 6198600]) = true.
Proof.
  apply traceCompare_frames.
  - split; [apply (bool_decide_unpack _); vm_compute; done|reflexivity].
  - split; [apply (bool_decide_unpack _); vm_compute; done|reflexivity].
  - done.
  - split; [done|]. split; [reflexivity|]. intros v1 v2 H1 H2. vm_compute in H1, H2. congruence.
Defined.

(** ** The table of traces *)

(** Pointers are below the next one, and the table files live traces under their
    hash. *)
Definition store_ok (s : trace_store) : Prop := ∀ p, is_Some (ts_map s !! p) → p < ts_next s.

Definition table_ok (s : trace_store) (h : hash_table) : Prop :=
  ∀ k l p, h !! k = Some l → p ∈ l → ∃ t, ts_map s !! p = Some t ∧ hashPart1 t = k.

Definition live (s : trace_store) (l : list Z) : Prop := ∀ p, p ∈ l → is_Some (ts_map s !! p).

(** Traces that exist stay as they are. *)
Definition extends (s s' : trace_store) : Prop :=
  ∀ p t, ts_map s !! p = Some t → ts_map s' !! p = Some t.

Lemma extends_refl s : extends s s.
Proof. by intros p t. Qed.

Lemma new_trace_ok t s s' p :
  store_ok s → new_trace t s = (s', p) →
  store_ok s' ∧ extends s s' ∧ ts_map s' !! p = Some t ∧ ts_map s !! p = None ∧ ts_next s' = p + 1.
Proof.
  intros Hs [= <- <-].
  assert (ts_map s !! ts_next s = None) as Hn.
  { apply eq_None_not_Some. intros H%Hs. lia. }
  split; [|split; [|split; [|done]]]; simpl.
  - intros q [t' H]. simpl in *. apply lookup_insert_Some in H as [[<- _]|[_ H]]; [lia|].
    assert (q < ts_next s) by (apply Hs; by eexists). lia.
  - intros q t' H. apply lookup_insert_Some. right. split; [congruence|done].
  - by rewrite lookup_insert_eq.
Qed.

Lemma find_trace_spec s x l :
  live s l →
  (∃ p t, find_trace s x l = Some (Some p) ∧ p ∈ l ∧ ts_map s !! p = Some t ∧ traceCompare x t = true) ∨
  (find_trace s x l = Some None ∧ ∀ p t, p ∈ l → ts_map s !! p = Some t → traceCompare x t = false).
Proof.
  induction l as [|q l IH]; intros Hl.
  { right. split; [done|]. by intros p t H%elem_of_nil. }
  destruct (Hl q) as [t Ht]; [apply elem_of_cons; by left|]. cbn [find_trace].
  rewrite Ht. cbn [mbind option_bind]. destruct (traceCompare x t) eqn:Ec.
  { left. exists q, t. split; [done|]. split; [apply elem_of_cons; by left|done]. }
  destruct IH as [(p & t' & E & Hp & ?)|[E Hno]].
  - intros p Hp. apply Hl, elem_of_cons. by right.
  - left. exists p, t'. split; [done|]. split; [apply elem_of_cons; by right|done].
  - right. split; [done|]. intros p t' [->|Hp]%elem_of_cons Ht'; [congruence|by eapply Hno].
Qed.

(** A lookup gives a live trace that compares equal, has the hash, and is either
    in the table or new; nothing that exists changes. *)
Lemma lookup_or_insert_spec x s h :
  store_ok s → table_ok s h →
  ∃ s' h' p t, lookup_or_insert x s h = Some (s', h', p) ∧ store_ok s' ∧ table_ok s' h' ∧
    extends s s' ∧ ts_map s' !! p = Some t ∧ traceCompare x t = true ∧
    hashPart1 t = hashPart1 x ∧
    (∃ l, h' !! hashPart1 x = Some l ∧ p ∈ l) ∧
    (s' = s ∧ h' = h ∨ ts_map s !! p = None).
Proof.
  intros Hs Hh. unfold lookup_or_insert.
  assert (∃ l, h !! hashPart1 x = Some l ∨ (h !! hashPart1 x = None ∧ l = [])) as [l Hl].
  { destruct (h !! hashPart1 x) as [l|]; [exists l; by left|exists []; by right]. }
  assert ((match h !! hashPart1 x with Some l => find_trace s x l | None => Some None end) =
          find_trace s x l) as ->.
  { by destruct Hl as [->|[-> ->]]. }
  assert (live s l) as Hlive.
  { intros p Hp. destruct Hl as [Hl|[_ ->]]; [|by apply elem_of_nil in Hp].
    destruct (Hh _ _ _ Hl Hp) as (t & Ht & _). by eexists. }
  destruct (find_trace_spec s x l Hlive) as [(p & t & -> & Hp & Ht & Hc)|[-> _]]; cbn [mbind option_bind].
  - exists s, h, p, t. split; [done|]. split; [done|]. split; [done|]. split; [apply extends_refl|].
    split; [done|]. split; [done|]. destruct Hl as [Hl|[_ ->]]; [|by apply elem_of_nil in Hp].
    destruct (Hh _ _ _ Hl Hp) as (t' & Ht' & Hk). split; [congruence|]. split; [by exists l|by left].
  - destruct (new_trace x s) as [s' p] eqn:En.
    destruct (new_trace_ok _ _ _ _ Hs En) as (Hs' & Hext & Hp & Hpn & _).
    exists s', (<[hashPart1 x := default [] (h !! hashPart1 x) ++ [p]]> h), p, x.
    split; [done|]. split; [done|]. split; [|split; [done|]; split; [done|]; split;
      [apply traceCompare_refl|]; split; [done|]; split; [|by right]].
    + intros k l' q Hk Hq. apply lookup_insert_Some in Hk as [[<- <-]|[Hne Hk]].
      * apply elem_of_app in Hq as [Hq|Hq%list_elem_of_singleton]; [|subst q; eauto].
        destruct (h !! hashPart1 x) as [l0|] eqn:E0; simpl in Hq; [|by apply elem_of_nil in Hq].
        destruct (Hh _ _ _ E0 Hq) as (t & Ht & Hkt). eauto.
      * destruct (Hh _ _ _ Hk Hq) as (t & Ht & Hkt). eauto.
    + eexists. split; [apply lookup_insert_eq|]. apply elem_of_app. right. by apply list_elem_of_singleton.
Qed.

(** ** The LRU cache *)

Record lru_ok (s : trace_store) (c : LRUCache) : Prop := {
  lru_nodes : NoDup (dq c).*1;
  lru_ptrs : NoDup (dq c).*2;
  lru_ma : ∀ n p, (n, p) ∈ dq c ↔ ma c !! p = Some n;
  lru_next : ∀ n p, (n, p) ∈ dq c → n < next_node c;
  lru_size : (length (dq c) <= csize c)%nat;
  lru_live : live s (dq c).*2;
  lru_table_ok : table_ok s (lru_table c)
}.

Lemma live_extends s s' l : extends s s' → live s l → live s' l.
Proof. intros He Hl p Hp. destruct (Hl p Hp) as [t Ht]. eexists. by apply He. Qed.

(** The parts of the invariant that concern the list and the iterators. *)
Definition list_ok (c : LRUCache) : Prop :=
  NoDup (dq c).*1 ∧ NoDup (dq c).*2 ∧ (∀ n p, (n, p) ∈ dq c ↔ ma c !! p = Some n) ∧
  (∀ n p, (n, p) ∈ dq c → n < next_node c).

Lemma lru_list_ok s c : lru_ok s c → list_ok c.
Proof. intros []. done. Qed.

Lemma evict_spec c :
  list_ok c → (0 < csize c)%nat → (length (dq c) <= csize c)%nat →
  ∃ c', evict c = Some c' ∧ list_ok c' ∧ lru_table c' = lru_table c ∧ csize c' = csize c ∧
    next_node c' = next_node c ∧ (dq c').*2 = take (csize c - 1) (dq c).*2.
Proof.
  intros (Hn & Hp & Hma & Hlt) H0 Hlen. unfold evict. case_decide as Hfull.
  - destruct (dq c) as [|e l _] eqn:Edq using rev_ind; [simpl in Hfull; lia|].
    rewrite last_snoc. cbn [mbind option_bind]. eexists. split; [done|].
    rewrite removelast_last. simpl.
    rewrite !fmap_app in Hn, Hp. apply NoDup_app in Hn as (Hn1 & Hn2 & _), Hp as (Hp1 & Hp2 & _).
    split; [|split; [done|]; split; [done|]; split; [done|]].
    + split; [done|]. split; [done|]. simpl. split.
      * intros n p. rewrite lookup_delete_Some, <- Hma, elem_of_app, list_elem_of_singleton. split.
        -- intros Hin. split; [|by left]. intros <-.
           apply (Hp2 e.2); [apply list_elem_of_fmap; by exists (n, e.2)|]. simpl. by apply elem_of_cons; left.
        -- intros [Hne [?|<-]]; [done|]. by destruct Hne.
      * intros n p Hin. apply (Hlt n p), elem_of_app. by left.
    + rewrite length_app in Hfull. simpl in Hfull. rewrite fmap_app.
      rewrite take_app_le by (rewrite length_fmap; lia). symmetry. apply take_ge. rewrite length_fmap. lia.
  - exists c. split; [done|]. split; [done|]. split; [done|]. split; [done|]. split; [done|].
    symmetry. apply take_ge. rewrite length_fmap. lia.
Qed.

Lemma push_front_ok p c : list_ok c → p ∉ (dq c).*2 → list_ok (push_front p c).
Proof.
  intros (Hn & Hp & Hma & Hlt) Hni. unfold push_front. split; [|split; [|split]]; simpl.
  - constructor; [|done]. intros ([n q] & E & Hin)%list_elem_of_fmap. simpl in E.
    specialize (Hlt n q Hin). lia.
  - by constructor.
  - intros n q. rewrite elem_of_cons, lookup_insert_Some, <- Hma. split.
    + intros [[= -> ->]|Hin]; [by left|]. right. split; [|done]. intros ->.
      apply Hni, list_elem_of_fmap. by exists (n, q).
    + intros [[-> ->]|[_ ?]]; [by left|by right].
  - intros n q [[= -> ->]|Hin]%elem_of_cons; [lia|]. specialize (Hlt n q Hin). lia.
Qed.

Lemma fmap_filter {A B} (f : A → B) (P : A → Prop) (Q : B → Prop)
    `{∀ x, Decision (P x), ∀ y, Decision (Q y)} (l : list A) :
  (∀ x, x ∈ l → P x ↔ Q (f x)) → f <$> filter P l = filter Q (f <$> l).
Proof.
  induction l as [|x l IH]; intros Hl; [done|]. rewrite filter_cons, fmap_cons, filter_cons.
  pose proof (Hl x ltac:(apply elem_of_cons; by left)).
  rewrite <- IH by (intros; apply Hl, elem_of_cons; by right).
  repeat case_decide; naive_solver.
Qed.

Lemma erase_node_spec n p c :
  list_ok c → (n, p) ∈ dq c →
  ∃ c', erase_node n c = Some c' ∧ lru_table c' = lru_table c ∧ csize c' = csize c ∧
    (dq c').*2 = filter (.≠ p) (dq c).*2 ∧ list_ok (push_front p c') ∧
    (length (dq c') < length (dq c))%nat.
Proof.
  intros (Hn & Hp & Hma & Hlt) Hin. unfold erase_node.
  rewrite decide_True by (apply list_elem_of_fmap; by exists (n, p)).
  eexists. split; [done|]. simpl. split; [done|]. split; [done|].
  assert (∀ m q, (m, q) ∈ dq c → m ≠ n ↔ q ≠ p) as Hiff.
  { intros m q Hq. split; intros Hne ->; apply Hne.
    - apply Hma in Hin, Hq. congruence.
    - apply (elem_of_list_to_map_1 (M := gmap Z) _ _ _ Hn) in Hq.
      apply (elem_of_list_to_map_1 (M := gmap Z) _ _ _ Hn) in Hin. congruence. }
  split; [|split].
  - apply fmap_filter. intros [m q] Hq. by apply Hiff.
  - split; [|split; [|split]]; simpl.
    + constructor; [|rewrite (fmap_filter _ _ (.≠ n)); [by apply NoDup_filter|done]].
      intros ([m q] & E & [_ Hq]%list_elem_of_filter)%list_elem_of_fmap. simpl in E.
      specialize (Hlt m q Hq). lia.
    + rewrite (fmap_filter _ _ (.≠ p)) by (intros [m q] Hq; by apply Hiff).
      constructor; [|by apply NoDup_filter]. rewrite list_elem_of_filter. naive_solver.
    + intros m q. rewrite elem_of_cons, list_elem_of_filter, lookup_insert_Some, <- Hma. simpl. split.
      * intros [[= -> ->]|[Hm Hq]]; [by left|]. right. split; [|done].
        apply (Hiff _ _ Hq) in Hm. congruence.
      * intros [[-> ->]|[Hm Hq]]; [by left|]. right. split; [|done]. apply (Hiff _ _ Hq). congruence.
    + intros m q [[= -> ->]|[_ Hq]%list_elem_of_filter]%elem_of_cons; [lia|].
      specialize (Hlt m q Hq). lia.
  - apply (length_filter_lt _ _ (n, p)); [done|]. simpl. naive_solver.
Qed.

Lemma filter_all_ne (p : Z) (l : list Z) : p ∉ l → filter (.≠ p) l = l.
Proof.
  induction l as [|x l IH]; intros Hp; [done|].
  apply not_elem_of_cons in Hp as [? ?]. rewrite filter_cons_True by congruence. by rewrite IH.
Qed.

Lemma push_front_ptrs p c : (dq (push_front p c)).*2 = p :: (dq c).*2.
Proof. done. Qed.

Lemma refer_hit s c p t :
  lru_ok s c → p ∈ (dq c).*2 → ts_map s !! p = Some t →
  ∃ c', (it ← ma c !! p;
         if decide (head (dq c).*1 = Some it) then Some (s, c, p)
         else c ← erase_node it c; Some (s, push_front p c, p)) = Some (s, c', p) ∧
    lru_ok s c' ∧ csize c' = csize c ∧
    (dq c').*2 = take (csize c) (p :: filter (.≠ p) (dq c).*2).
Proof.
  intros Hok Hp Ht. pose proof (lru_list_ok _ _ Hok) as Hlok.
  destruct Hok as [Hn Hnd Hma Hlt Hsz Hlive Htab].
  apply list_elem_of_fmap in Hp as ([n q] & E & Hin). simpl in E. subst q.
  rewrite (proj1 (Hma n p) Hin). cbn [mbind option_bind]. case_decide as Hhead.
  - exists c. split; [done|]. split; [done|]. split; [done|].
    destruct (dq c) as [|[m q] l] eqn:Edq; [by apply elem_of_nil in Hin|]. simpl in Hhead. injection Hhead as ->.
    assert (q = p) as ->.
    { apply elem_of_cons in Hin as [[= <-]|Hin]; [done|]. simpl in Hn. apply NoDup_cons in Hn as [Hni _].
      destruct Hni. apply list_elem_of_fmap. by exists (n, p). }
    simpl in Hnd |- *. apply NoDup_cons in Hnd as [Hni _].
    rewrite filter_cons_False by naive_solver. rewrite filter_all_ne by done.
    rewrite take_ge; [done|]. simpl. rewrite length_fmap. simpl in Hsz. lia.
  - destruct (erase_node_spec n p c Hlok Hin) as (c1 & -> & Etab & Esz & Edq & Hok1 & Hlen1).
    exists (push_front p c1). split; [done|].
    assert ((dq (push_front p c1)).*2 = p :: filter (.≠ p) (dq c).*2) as Edq' by (rewrite push_front_ptrs; by f_equal).
    destruct Hok1 as (Hn1 & Hp1 & Hma1 & Hlt1).
    assert (length (dq (push_front p c1)) <= csize c)%nat as Hlen' by (simpl; lia).
    split; [|split; [done|]].
    + constructor; [done|done|done|done|by simpl csize; rewrite Esz|rewrite Edq'|by simpl; rewrite Etab].
      intros q [->|[_ Hq]%list_elem_of_filter]%elem_of_cons; [by eexists|by apply Hlive].
    + rewrite Edq', take_ge; [done|]. rewrite <- Edq', length_fmap. lia.
Qed.

Lemma refer_miss x s c :
  store_ok s → lru_ok s c → (0 < csize c)%nat →
  (∀ p t, p ∈ (dq c).*2 → ts_map s !! p = Some t → traceCompare x t = false) →
  ∃ s' c' p t,
    (c ← evict c;
     '(s, h, p) ← lookup_or_insert x s (lru_table c);
     Some (s, push_front p (MkLRU h (dq c) (ma c) (csize c) (next_node c)), p)) = Some (s', c', p) ∧
    store_ok s' ∧ lru_ok s' c' ∧ extends s s' ∧ ts_map s' !! p = Some t ∧ traceCompare x t = true ∧
    csize c' = csize c ∧ (dq c').*2 = take (csize c) (p :: filter (.≠ p) (dq c).*2).
Proof.
  intros Hs Hok H0 Hno. pose proof (lru_list_ok _ _ Hok) as Hlok.
  destruct Hok as [Hn Hnd Hma Hlt Hsz Hlive Htab].
  destruct (evict_spec c Hlok H0 Hsz) as (c1 & -> & Hok1 & Etab & Esz & Enx & Edq).
  cbn [mbind option_bind]. rewrite Etab.
  destruct (lookup_or_insert_spec x s (lru_table c) Hs Htab)
    as (s' & h' & p & t & -> & Hs' & Htab' & Hext & Hp & Hc & _ & _ & Hnew).
  cbn [mbind option_bind].
  assert (p ∉ (dq c).*2) as Hni.
  { intros Hin. destruct (Hlive p Hin) as [t0 Ht0].
    destruct Hnew as [[-> ->]|Hnone]; [|congruence]. rewrite (Hno p t Hin Hp) in Hc. done. }
  assert (p ∉ (dq c1).*2) as Hni1.
  { rewrite Edq. intros Hin. apply Hni. apply elem_of_take in Hin as (i & Hi & _). by eapply list_elem_of_lookup_2. }
  set (c2 := MkLRU h' (dq c1) (ma c1) (csize c1) (next_node c1)).
  assert (list_ok (push_front p c2)) as (Hn2 & Hp2 & Hma2 & Hlt2) by (by apply push_front_ok).
  eexists s', (push_front p c2), p, t. split; [done|]. split; [done|].
  assert (length (dq c1) = length (take (csize c - 1) (dq c).*2)) as El by (by rewrite <- Edq, length_fmap).
  rewrite length_take, length_fmap in El.
  split; [|split; [done|]; split; [done|]; split; [done|]; split; [done|]].
  - constructor; [done..| | |done].
    + simpl. rewrite Esz, El. lia.
    + rewrite push_front_ptrs. cbn [dq c2]. rewrite Edq. intros q [->|Hq]%elem_of_cons; [by eexists|].
      apply (live_extends _ _ _ Hext Hlive). apply elem_of_take in Hq as (i & Hi & _). by eapply list_elem_of_lookup_2.
  - rewrite push_front_ptrs. cbn [dq c2]. rewrite Edq, filter_all_ne by done. destruct (csize c) as [|n]; [lia|].
    simpl. by rewrite Nat.sub_0_r.
Qed.

Lemma refer_spec x s c :
  store_ok s → lru_ok s c → (0 < csize c)%nat →
  ∃ s' c' p t, refer x s c = Some (s', c', p) ∧ store_ok s' ∧ lru_ok s' c' ∧ extends s s' ∧
    ts_map s' !! p = Some t ∧ traceCompare x t = true ∧ csize c' = csize c ∧
    (dq c').*2 = take (csize c) (p :: filter (.≠ p) (dq c).*2).
Proof.
  intros Hs Hok H0. unfold refer.
  destruct (find_trace_spec s x (dq c).*2 (lru_live _ _ Hok)) as [(p & t & -> & Hp & Ht & Hc)|[-> Hno]];
    cbn [mbind option_bind].
  - destruct (refer_hit s c p t Hok Hp Ht) as (c' & E & Hok' & Esz & Edq).
    exists s, c', p, t. split; [exact E|]. split; [done|]. split; [done|]. split; [apply extends_refl|]. done.
  - by apply refer_miss.
Qed.

(** C24: a reference to the LRU cache never fails, keeps the list, its iterators and
    the table consistent and within the capacity, leaves the traces it knows
    unchanged, and returns a trace that compares equal to the one asked for; the
    cache then holds that trace first and the others in their old order, and
    drops the least recently used one when it was full. *)
Theorem refer_correct x s c :
  store_ok s → lru_ok s c → (0 < csize c)%nat →
  ∃ s' c' p t, refer x s c = Some (s', c', p) ∧ store_ok s' ∧ lru_ok s' c' ∧ extends s s' ∧
    ts_map s' !! p = Some t ∧ traceCompare x t = true ∧ csize c' = csize c ∧
    (dq c').*2 = take (csize c) (p :: filter (.≠ p) (dq c).*2).
Proof. apply refer_spec. Qed.

Definition example_store : trace_store := TraceStore ∅ 0.

Lemma example_store_ok : store_ok example_store.
Proof. intros p [t H]. discriminate H. Qed.

Lemma empty_lru_ok s n : lru_ok s (new_LRUCache n).
Proof.
  constructor; simpl; try done; try apply NoDup_nil_2; try lia.
  - intros m p. by rewrite elem_of_nil, lookup_empty.
  - by intros m p H%elem_of_nil.
  - by intros p H%elem_of_nil.
Qed.

Lemma refer_correct_witness :
  ∃ s' c' p t,
    refer (example_trace [4198400; 4198500]) example_store (new_LRUCache lruCacheSize) = Some (s', c', p) ∧
    ts_map s' !! p = Some t ∧ (dq c').*2 = take lruCacheSize (p :: filter (.≠ p) []).
Proof.
  destruct (refer_correct (example_trace [4198400; 4198500]) example_store (new_LRUCache lruCacheSize))
    as (s' & c' & p & t & E & _ & _ & _ & Ht & _ & _ & Hdq).
  - exact example_store_ok.
  - apply empty_lru_ok.
  - simpl. unfold lruCacheSize. lia.
  - exists s', c', p, t. split; [exact E|]. split; [exact Ht|exact Hdq].
Defined.

(** Comparing equal is an equivalence. *)
Lemma traceCompare_eq t1 t2 :
  traceCompare t1 t2 = true ↔
  nptrs t1 = nptrs t2 ∧
  take (Z.to_nat (nptrs t1)) (buffer_bytes (buffer t1)) = take (Z.to_nat (nptrs t1)) (buffer_bytes (buffer t2)).
Proof.
  unfold traceCompare, memcmp_eq. case_decide as Hd; [naive_solver|].
  rewrite bool_decide_eq_true. naive_solver.
Qed.

Lemma traceCompare_trans t1 t2 t3 :
  traceCompare t1 t2 = true → traceCompare t2 t3 = true → traceCompare t1 t3 = true.
Proof. rewrite !traceCompare_eq. intros [E1 H1] [E2 H2]. rewrite E1 in *. rewrite H1, H2. by split. Qed.

Lemma traceCompare_sym t1 t2 : traceCompare t1 t2 = true → traceCompare t2 t1 = true.
Proof. rewrite !traceCompare_eq. intros [E1 H1]. rewrite E1 in *. by rewrite H1. Qed.

(** The LRU cache conflates callstacks: after a reference to a callstack, a
    reference to any other one that compares equal to it (the same depth [n] and
    the same first [n / 8] frames are enough when [n] is a multiple of 8) is
    answered with the trace of the first, whatever their hashes are. *)
Theorem refer_conflates x y s c s' c' p :
  store_ok s → lru_ok s c → (0 < csize c)%nat →
  refer y s c = Some (s', c', p) → traceCompare x y = true →
  refer x s' c' = Some (s', c', p).
Proof.
  intros Hs Hok H0 Hy Hxy.
  destruct (refer_spec y s c Hs Hok H0) as (s1 & c1 & p1 & t & E & _ & Hok' & _ & Ht & Hyt & Esz & Hdq).
  rewrite Hy in E. injection E as <- <- <-.
  unfold refer. rewrite Hdq. destruct (csize c) as [|n] eqn:En; [lia|].
  cbn [take find_trace]. rewrite Ht. cbn [mbind option_bind].
  rewrite (traceCompare_trans _ _ _ Hxy Hyt). cbn [mbind option_bind].
  destruct (dq c') as [|[m q] l] eqn:Edq; [done|]. simpl in Hdq. injection Hdq as -> _.
  assert (ma c' !! p = Some m) as ->.
  { apply (lru_ma _ _ Hok'). rewrite Edq. apply elem_of_cons. by left. }
  cbn [mbind option_bind]. by rewrite decide_True.
Qed.

Lemma refer_conflates_witness :
  ∃ s' c' p,
    refer (example_trace [4198400; 4198500; 4198600]) example_store (new_LRUCache 200) = Some (s', c', p) ∧
    refer (example_trace [4198400; 5198500; 6198600]) s' c' = Some (s', c', p).
Proof.
  destruct (refer_spec (example_trace [4198400; 4198500; 4198600]) example_store (new_LRUCache 200))
    as (s' & c' & p & t & E & _).
  - exact example_store_ok.
  - apply empty_lru_ok.
  - simpl. lia.
  - exists s', c', p. split; [exact E|].
    apply (refer_conflates _ (example_trace [4198400; 4198500; 4198600]) example_store (new_LRUCache 200)).
    + exact example_store_ok.
    + apply empty_lru_ok.
    + simpl. lia.
    + exact E.
    + vm_compute. reflexivity.
Defined.

(** ** The frequency cache *)

Lemma swapLeastFrequentTrace_same s p cache cache' q :
  swapLeastFrequentTrace s p cache = Some (cache', q) → cache' = cache.
Proof.
  revert p cache' q. induction cache as [|c cache IH]; intros p cache' q; simpl; [by intros [= -> _]|].
  intros H. apply bind_Some in H as (tc & _ & H). apply bind_Some in H as (tp & _ & H).
  case_decide; [by injection H as <- _|].
  apply bind_Some in H as ([r q'] & E & H). injection H as <- _. f_equal. eauto.
Qed.

(** The exchange of the least frequent trace exchanges nothing: once the
    frequency cache holds ten traces it never changes again, and until then every
    backtrace makes a new trace. *)
Theorem getBacktrace_cache_frozen b n s s' r :
  getBacktrace_cache false b n s = Some (s', r) →
  ((traceCacheSize <= length (bt_cache s))%nat → bt_cache s' = bt_cache s) ∧
  ((length (bt_cache s) < traceCacheSize)%nat →
     r = Some (ts_next (bt_store s)) ∧ bt_cache s' = bt_cache s ++ [ts_next (bt_store s)]).
Proof.
  unfold getBacktrace_cache, insertOrGetTrace. intros H.
  apply bind_Some in H as (x & _ & H). case_decide as Hsz.
  - split; [lia|]. intros _. simpl in H. apply bind_Some in H as (st & _ & H). by injection H as <- <-.
  - split; [|lia]. intros _. apply bind_Some in H as ([[st cache] tr] & E & H).
    apply bind_Some in E as (found & _ & E). injection E as <- <- <-. destruct found as [p|].
    + apply bind_Some in H as (st' & _ & H). by injection H as <- _.
    + apply bind_Some in H as ([[st' h'] p] & _ & H). apply bind_Some in H as (st'' & _ & H).
      apply bind_Some in H as ([cache q] & E & H). apply swapLeastFrequentTrace_same in E.
      by injection H as <- _.
Qed.

Lemma getBacktrace_cache_frozen_witness :
  ∃ s' r, getBacktrace_cache false (buffer (example_trace [7; 8])) 2
            (Backtraces example_store None [] ∅ None) = Some (s', r) ∧ r = Some 0.
Proof.
  eexists _, _. split; [reflexivity|].
  destruct (getBacktrace_cache_frozen (buffer (example_trace [7; 8])) 2
              (Backtraces example_store None [] ∅ None) _ _ eq_refl) as [_ H].
  apply H. simpl. unfold traceCacheSize. lia.
Defined.
