(* ===== verification/UniqueIds.v ===== *)
(** * Unique identifiers of callstacks

    [saveCallstack] and its inverse [getTraceAndStaticID] of
    [include/wrapper.cpp]: a pair of a trace and a static identifier gets a
    number, under which the allocation and the uses it comes from are recorded. *)

From S2P Require Import Prelude Memory Callstack.

(** A [DynamicTrace] is never changed after it is filed, so the tables hold it by
    value. *)
Record DynamicTrace := MkDynamicTrace {
  dt_trace : Z;
  dt_staticID : Z;
  dt_uniqueID : Z
}.

(** [traces] maps a dynamic identifier and a depth to the traces that have them;
    [dynamicTraces] maps a unique identifier to its trace and is not allocated
    before the first call. *)
Record callstacks := Callstacks {
  cs_traces : gmap Z (gmap Z (list DynamicTrace));
  dynamicTraces : option (gmap Z DynamicTrace);
  globalID : Z
}.

Definition no_callstacks : callstacks := Callstacks ∅ None 1.

Section with_hash.
  (** [std::hash<uint64_t>] of the C++ library. *)
  Context (uint64Hash : Z → Z).

Definition myHashPart2 (hashPart1 staticID : Z) : Z := Z.lxor hashPart1 (uint64Hash staticID).

  (** [traces[dynamicID][nptrs]], or the empty list. *)
Definition bucket (cs : callstacks) (dynamicID n : Z) : list DynamicTrace :=
    default [] (m ← cs_traces cs !! dynamicID; m !! n).

Definition incrementPushReturn (trace n staticID dynamicID : Z) (cs : callstacks)
      : callstacks * Z :=
    let d := MkDynamicTrace trace staticID (globalID cs) in
    let m := default ∅ (cs_traces cs !! dynamicID) in
    let m := <[n := default [] (m !! n) ++ [d]]> m in
    (Callstacks (<[dynamicID := m]> (cs_traces cs))
       (Some (<[globalID cs := d]> (default ∅ (dynamicTraces cs))))
       (globalID cs +₆₄ 1),
     globalID cs).

  (** The loop over a bucket. *)
Fixpoint find_dynamic (s : trace_store) (t : Trace) (l : list DynamicTrace)
      : option (option DynamicTrace) :=
    match l with
    | [] => Some None
    | d :: l =>
      e ← ts_map s !! dt_trace d;
      if decide (hashPart1 e ≠ hashPart1 t) then find_dynamic s t l
      else if memcmp_eq (buffer t) (buffer e) (nptrs t) then Some (Some d)
      else find_dynamic s t l
    end.

Definition saveCallstack (s : trace_store) (staticID : Z) (traceArg : option Z) (cs : callstacks)
      : option (callstacks * Z) :=
    let cs := Callstacks (cs_traces cs) (Some (default ∅ (dynamicTraces cs))) (globalID cs) in
    match traceArg with
    | None => Some (cs, 0)
    | Some p =>
      t ← ts_map s !! p;
      let dynamicID := myHashPart2 (hashPart1 t) staticID in
      match cs_traces cs !! dynamicID with
      | None => Some (incrementPushReturn p (nptrs t) staticID dynamicID cs)
      | Some m =>
        match m !! nptrs t with
        | Some l =>
          existingTrace ← find_dynamic s t l;
          match existingTrace with
          | None => Some (incrementPushReturn p (nptrs t) staticID dynamicID cs)
          | Some d => Some (cs, dt_uniqueID d)
          end
        | None => Some (incrementPushReturn p (nptrs t) staticID dynamicID cs)
        end
      end
    end.

  (** [None] is the abort on an identifier that is not found, or a null
      dereference when nothing was ever saved. *)
Definition getTraceAndStaticID (disableCallstack : bool) (uniqueID : Z) (cs : callstacks)
      : option (option Z * Z) :=
    if disableCallstack then Some (None, uniqueID)
    else
      m ← dynamicTraces cs;
      d ← m !! uniqueID;
      Some (Some (dt_trace d), dt_staticID d).

  (** ** The tables are consistent *)

Definition dyn (cs : callstacks) : gmap Z DynamicTrace := default ∅ (dynamicTraces cs).

Record callstacks_ok (s : trace_store) (cs : callstacks) : Prop := {
    cs_bucket : ∀ k n d, d ∈ bucket cs k n → dyn cs !! dt_uniqueID d = Some d ∧
      ∃ t, ts_map s !! dt_trace d = Some t ∧ nptrs t = n ∧ k = myHashPart2 (hashPart1 t) (dt_staticID d);
    cs_dyn : ∀ u d, dyn cs !! u = Some d → 0 < u < globalID cs ∧ dt_uniqueID d = u;
    cs_id : 0 < globalID cs
  }.

  (** The same callstack, as far as the runtime tells them apart. *)
Definition same_callstack (t1 t2 : Trace) : Prop :=
    hashPart1 t1 = hashPart1 t2 ∧ traceCompare t1 t2 = true.

Lemma same_callstack_refl t : same_callstack t t.
Proof. split; [done|apply traceCompare_refl]. Qed.

Lemma find_dynamic_spec s t l :
    (∀ d, d ∈ l → ∃ e, ts_map s !! dt_trace d = Some e ∧ nptrs e = nptrs t) →
    (∃ d e, find_dynamic s t l = Some (Some d) ∧ d ∈ l ∧ ts_map s !! dt_trace d = Some e ∧
            same_callstack t e) ∨
    (find_dynamic s t l = Some None ∧
     ∀ d e, d ∈ l → ts_map s !! dt_trace d = Some e → ¬ same_callstack t e).
Proof.
    induction l as [|d l IH]; intros Hl.
    { right. split; [done|]. by intros d e H%elem_of_nil. }
    destruct (Hl d) as (e & He & Hn); [apply elem_of_cons; by left|]. cbn [find_dynamic].
    rewrite He. cbn [mbind option_bind].
    assert (same_callstack t e ↔ hashPart1 e = hashPart1 t ∧ memcmp_eq (buffer t) (buffer e) (nptrs t) = true)
      as Hsame.
    { unfold same_callstack, traceCompare. rewrite decide_False by (rewrite Hn; naive_solver). naive_solver. }
    destruct IH as [(d' & e' & E & Hd & ?)|[E Hno]].
    - intros d' Hd'. apply Hl, elem_of_cons. by right.
    - rewrite E. case_decide as Hh; [left; exists d', e'; split; [done|]; split; [by apply elem_of_cons; right|done]|].
      destruct (memcmp_eq _ _ _) eqn:Em.
      + left. exists d, e. split; [done|]. split; [apply elem_of_cons; by left|]. split; [done|].
        apply Hsame. split; [|done]. destruct (decide (hashPart1 e = hashPart1 t)); [done|contradiction].
      + left. exists d', e'. split; [done|]. split; [by apply elem_of_cons; right|done].
    - rewrite E.
      assert (¬ same_callstack t e →
              ∀ d0 e0, d0 ∈ d :: l → ts_map s !! dt_trace d0 = Some e0 → ¬ same_callstack t e0) as Hcons.
      { intros Hne d0 e0 [->|Hd0]%elem_of_cons He0; [congruence|by eapply Hno]. }
      case_decide as Hh; [right; split; [done|]; apply Hcons; rewrite Hsame; naive_solver|].
      destruct (memcmp_eq _ _ _) eqn:Em.
      + left. exists d, e. split; [done|]. split; [apply elem_of_cons; by left|]. split; [done|].
        apply Hsame. split; [|done]. destruct (decide (hashPart1 e = hashPart1 t)); [done|contradiction].
      + right. split; [done|]. apply Hcons. rewrite Hsame. naive_solver.
  Qed.

  (** ** One call *)

Lemma bucket_increment p n sid k cs cs' id k' n' :
    incrementPushReturn p n sid k cs = (cs', id) →
    bucket cs' k' n' =
    if decide (k' = k ∧ n' = n) then bucket cs k n ++ [MkDynamicTrace p sid id] else bucket cs k' n'.
Proof.
    intros [= <- <-]. unfold bucket. simpl. destruct (decide (k' = k)) as [->|Hk].
    - rewrite lookup_insert_eq. simpl. destruct (decide (n' = n)) as [->|Hn].
      + rewrite lookup_insert_eq, decide_True by done. simpl. by destruct (cs_traces cs !! k).
      + rewrite lookup_insert_ne, decide_False by naive_solver. by destruct (cs_traces cs !! k).
    - by rewrite lookup_insert_ne, decide_False by naive_solver.
  Qed.

Definition with_tables (cs : callstacks) : callstacks :=
    Callstacks (cs_traces cs) (Some (dyn cs)) (globalID cs).

  (** The branches that file a new trace do the same. *)
Lemma saveCallstack_eq s sid p t cs :
    ts_map s !! p = Some t →
    let k := myHashPart2 (hashPart1 t) sid in
    saveCallstack s sid (Some p) cs =
      existing ← find_dynamic s t (bucket cs k (nptrs t));
      match existing with
      | None => Some (incrementPushReturn p (nptrs t) sid k (with_tables cs))
      | Some d => Some (with_tables cs, dt_uniqueID d)
      end.
Proof.
    intros Ht k. unfold saveCallstack, bucket, with_tables, dyn. rewrite Ht. simpl. fold k.
    destruct (cs_traces cs !! k) as [m|]; simpl; [|done]. by destruct (m !! nptrs t).
  Qed.

Lemma with_tables_ok s cs : callstacks_ok s cs → callstacks_ok s (with_tables cs).
Proof. intros [H1 H2 H3]. by constructor. Qed.

Lemma bucket_live s cs k t :
    callstacks_ok s cs →
    ∀ d, d ∈ bucket cs k (nptrs t) → ∃ e, ts_map s !! dt_trace d = Some e ∧ nptrs e = nptrs t.
Proof. intros Hok d Hd. destruct (cs_bucket _ _ Hok _ _ _ Hd) as (_ & e & ? & ? & _). eauto. Qed.

Lemma increment_ok s sid p t cs cs' id :
    let k := myHashPart2 (hashPart1 t) sid in
    callstacks_ok s cs → ts_map s !! p = Some t → globalID cs + 1 < two64 →
    incrementPushReturn p (nptrs t) sid k cs = (cs', id) →
    callstacks_ok s cs' ∧ 0 < id < globalID cs' ∧
    dyn cs' = <[id := MkDynamicTrace p sid id]> (dyn cs) ∧ dyn cs !! id = None.
Proof.
    intros k Hok Ht Hroom E. pose proof (cs_id _ _ Hok) as H0.
    assert (id = globalID cs ∧ globalID cs' = globalID cs + 1 ∧
            dyn cs' = <[id := MkDynamicTrace p sid id]> (dyn cs)) as (-> & Hg & Hdyn).
    { injection E as <- <-. split; [done|]. split; [|done]. simpl. apply add64_small. lia. }
    assert (dyn cs !! globalID cs = None) as Hnone.
    { apply eq_None_not_Some. intros [d Hd]. apply (cs_dyn _ _ Hok) in Hd. lia. }
    split; [|split; [lia|done]]. constructor.
    - intros k' n' d Hd. rewrite (bucket_increment _ _ _ _ _ _ _ _ _ E) in Hd. rewrite Hdyn.
      assert (d ∈ bucket cs k' n' → <[globalID cs:=MkDynamicTrace p sid (globalID cs)]> (dyn cs) !! dt_uniqueID d = Some d ∧
        ∃ t0, ts_map s !! dt_trace d = Some t0 ∧ nptrs t0 = n' ∧ k' = myHashPart2 (hashPart1 t0) (dt_staticID d)) as Hold.
      { intros Hin. destruct (cs_bucket _ _ Hok _ _ _ Hin) as [H1 H2]. split; [|done].
        rewrite lookup_insert_ne; [done|]. apply (cs_dyn _ _ Hok) in H1. lia. }
      case_decide as Hkn; [|by apply Hold]. destruct Hkn as [-> ->].
      apply elem_of_app in Hd as [Hd|Hd%list_elem_of_singleton]; [by apply Hold|]. subst d. simpl.
      rewrite lookup_insert_eq. split; [done|]. by exists t.
    - intros u d Hd. rewrite Hdyn in Hd. rewrite Hg.
      apply lookup_insert_Some in Hd as [[<- <-]|[Hne Hd]]; [simpl; lia|].
      apply (cs_dyn _ _ Hok) in Hd. lia.
    - lia.
  Qed.

Lemma myHashPart2_inj h a b :
    (∀ x y, uint64Hash x = uint64Hash y → x = y) → myHashPart2 h a = myHashPart2 h b → a = b.
Proof.
    intros Hinj E. apply Hinj. unfold myHashPart2 in E.
    assert (∀ z, Z.lxor h (Z.lxor h z) = z) as Hx.
    { intros z. by rewrite <- Z.lxor_assoc, Z.lxor_nilpotent, Z.lxor_0_l. }
    by rewrite <- (Hx (uint64Hash a)), E, Hx.
  Qed.

Lemma find_dynamic_app s t l d e :
    find_dynamic s t l = Some None → ts_map s !! dt_trace d = Some e → same_callstack t e →
    find_dynamic s t (l ++ [d]) = Some (Some d).
Proof.
    intros Hl He Hsame. induction l as [|d' l IH]; cbn [find_dynamic app] in *.
    - rewrite He. cbn [mbind option_bind]. destruct Hsame as [Hh Hc].
      rewrite decide_False by congruence. unfold traceCompare in Hc. case_decide; [done|]. by rewrite Hc.
    - destruct (ts_map s !! dt_trace d') as [e'|]; [|done]. cbn [mbind option_bind] in *.
      case_decide; [by apply IH|]. destruct (memcmp_eq _ _ _); [done|by apply IH].
  Qed.

  (** C25: a saved callstack can be read back, up to the comparison the code makes.
      For a callstack whose trace is allocated, with an identifier left and a hash
      of the static identifiers without collisions: the identifier resolves to the
      static identifier that was given and to a trace with the same hash of which
      the first [nptrs] bytes (not frames: [swapped_callstacks_share]) are those of
      the trace given; it is that trace itself, unless the identifier stood for an
      earlier callstack already.  Saving the same callstack again gives the same
      identifier and changes nothing; the identifiers given before resolve as
      before. *)
Theorem saveCallstack_roundtrip s sid p t cs :
    callstacks_ok s cs → ts_map s !! p = Some t → globalID cs + 1 < two64 →
    (∀ x y, uint64Hash x = uint64Hash y → x = y) →
    ∃ cs' id q e, saveCallstack s sid (Some p) cs = Some (cs', id) ∧
      callstacks_ok s cs' ∧ 0 < id < globalID cs' ∧
      getTraceAndStaticID false id cs' = Some (Some q, sid) ∧
      ts_map s !! q = Some e ∧ same_callstack t e ∧
      (q = p ∨ getTraceAndStaticID false id cs = Some (Some q, sid)) ∧
      saveCallstack s sid (Some p) cs' = Some (cs', id) ∧
      (∀ u r, getTraceAndStaticID false u cs = Some r → getTraceAndStaticID false u cs' = Some r).
Proof.
    intros Hok Ht Hroom Hinj. rewrite (saveCallstack_eq _ _ _ _ _ Ht).
    pose proof (with_tables_ok _ _ Hok) as Hok1.
    destruct (find_dynamic_spec s t (bucket cs (myHashPart2 (hashPart1 t) sid) (nptrs t)))
      as [(d & e & Ef & Hd & He & Hsame)|[Ef Hno]];
      [by apply bucket_live| |]; rewrite Ef; cbn [mbind option_bind].
    - destruct (cs_bucket _ _ Hok _ _ _ Hd) as (Hu & e' & He' & _ & Hk).
      rewrite He in He'. injection He' as <-. destruct Hsame as [Hh Hc]. rewrite <- Hh in Hk.
      apply myHashPart2_inj in Hk; [|done].
      exists (with_tables cs), (dt_uniqueID d), (dt_trace d), e. split; [done|]. split; [done|].
      split; [by apply (cs_dyn _ _ Hok) in Hu as [? _]|].
      split; [unfold getTraceAndStaticID; simpl; rewrite Hu; simpl; by rewrite Hk|].
      split; [done|]. split; [done|].
      split; [right; unfold getTraceAndStaticID; unfold dyn in Hu; destruct (dynamicTraces cs) as [m|]; simpl in *; [by rewrite Hu, Hk|done]|].
      split.
      + rewrite (saveCallstack_eq _ _ _ _ _ Ht).
        change (bucket (with_tables cs)) with (bucket cs). by rewrite Ef.
      + intros u r. unfold getTraceAndStaticID, with_tables, dyn. simpl. by destruct (dynamicTraces cs).
    - destruct (incrementPushReturn p (nptrs t) sid (myHashPart2 (hashPart1 t) sid) (with_tables cs))
        as [cs' id] eqn:Ei.
      destruct (increment_ok _ _ _ _ _ _ _ Hok1 Ht Hroom Ei) as (Hok' & Hid & Hdyn & Hnone).
      assert (dynamicTraces cs' = Some (dyn cs')) as Etab by (by injection Ei as <- _).
      exists cs', id, p, t. split; [done|]. split; [done|]. split; [done|].
      split; [unfold getTraceAndStaticID; rewrite Etab, Hdyn; simpl; by rewrite lookup_insert_eq|].
      split; [done|]. split; [apply same_callstack_refl|]. split; [by left|]. split.
      + rewrite (saveCallstack_eq _ _ _ _ _ Ht), (bucket_increment _ _ _ _ _ _ _ _ _ Ei).
        rewrite decide_True by done. change (bucket (with_tables cs)) with (bucket cs).
        rewrite (find_dynamic_app _ _ _ (MkDynamicTrace p sid id) t Ef Ht (same_callstack_refl t)). cbn [mbind option_bind dt_uniqueID].
        unfold with_tables. rewrite <- Etab. by destruct cs'.
      + intros u r. unfold getTraceAndStaticID. rewrite Etab, Hdyn.
        change (dyn (with_tables cs)) with (dyn cs) in *. unfold dyn in Hnone |- *.
        destruct (dynamicTraces cs) as [m|]; [|done]. simpl in *. intros H.
        destruct (decide (u = id)) as [->|Hne]; [by rewrite Hnone in H|].
        by rewrite lookup_insert_ne by done.
  Qed.
End with_hash.

Lemma saveCallstack_roundtrip_witness :
  ∃ cs' id q,
    saveCallstack (λ x, x) (TraceStore {[0 := example_trace [4198400; 4198500]]} 1) 42 (Some 0) no_callstacks
      = Some (cs', id) ∧
    getTraceAndStaticID false id cs' = Some (Some q, 42).
Proof.
  destruct (saveCallstack_roundtrip (λ x, x) (TraceStore {[0 := example_trace [4198400; 4198500]]} 1) 42 0
              (example_trace [4198400; 4198500]) no_callstacks) as (cs' & id & q & e & E & _ & _ & Hg & _).
  - constructor; [|done|done]. intros k n d Hd. unfold bucket in Hd. simpl in Hd.
    rewrite lookup_empty in Hd. by apply elem_of_nil in Hd.
  - done.
  - done.
  - done.
  - exists cs', id, q. split; [exact E|exact Hg].
Defined.

(** Two callstacks that differ in the order of their outer frames: the hash is the
    exclusive or of the frames and three bytes of the innermost frame are compared,
    so the second gets the identifier of the first. *)
Definition two_traces : trace_store := TraceStore
  {[0 := example_trace [4198400; 4198500; 4198600]; 1 := example_trace [4198400; 4198600; 4198500]]} 2.

Example swapped_callstacks_share :
  ('(cs, id) ← saveCallstack (λ x, x) two_traces 42 (Some 0) no_callstacks;
   '(_, id') ← saveCallstack (λ x, x) two_traces 42 (Some 1) cs; Some (id, id')) = Some (1, 1).
Proof. vm_compute. reflexivity. Qed.
