(* ===== verification/Wrapper.v ===== *)
(** * The wrappers the compiler inserts

    The second part of [include/wrapper.cpp] and [include/pin_interface.cpp]: the
    functions the instrumented program calls.  They give a callstack its
    identifier, drop accesses that were seen before in the region, and forward
    the rest to the runtime, which is an interface here. *)

From S2P Require Import Prelude Helpers CleanBatch Memory Callstack UniqueIds.

(** ** The runtime as the wrappers see it *)

(** What the wrappers call and read; [t_active] is [activeState->stateID], [None]
    outside of all regions. *)
Class Texas (G : Type) := {
  t_active : G → option Z;
  t_AddToState : Z → Z → Z → G → option G;
  t_AddToAllocationTable : Z → Z → Z → G → option G;
  t_AddCallocToAllocationTable : Z → Z → Z → Z → G → option G;
  t_HandleReallocInAllocationTable : Z → Z → Z → Z → G → option G;
  t_RemoveFromAllocationTable : Z → G → option G;
  t_AddToEscapeTable : Z → G → option G;
  t_SetStateRegion : Z → Z → Z → Z → Z → G → option G;
  t_GetState : string → Z → Z → G → option (G * Z);
  t_EndState : Z → G → option (G * Z);
  t_EndStateInvocation : Z → G → option (G * Z)
}.

(** What the wrappers rely on: recording neither enters nor leaves a region. *)
Class TexasLaws (G : Type) `{Texas G} : Prop := {
  access_keeps_active a rw id g g' :
    t_AddToState a rw id g = Some g' → is_Some (t_active g) → is_Some (t_active g');
  alloc_keeps_inactive a l o g g' :
    t_AddToAllocationTable a l o g = Some g' → t_active g = None → t_active g' = None;
  free_keeps_inactive a g g' :
    t_RemoveFromAllocationTable a g = Some g' → t_active g = None → t_active g' = None;
  getstate_activates f l t g g' r :
    t_GetState f l t g = Some (g', r) → is_Some (t_active g')
}.

(** ** State *)

Record wrapper := MkWrapper {
  w_callstacks : callstacks;
  w_loads : option (gset Z);
  w_stores : option (gset Z)
}.

Definition set_callstacks (cs : callstacks) (w : wrapper) : wrapper :=
  MkWrapper cs (w_loads w) (w_stores w).
Definition set_loads (l : option (gset Z)) (w : wrapper) : wrapper :=
  MkWrapper (w_callstacks w) l (w_stores w).
Definition set_stores (l : option (gset Z)) (w : wrapper) : wrapper :=
  MkWrapper (w_callstacks w) (w_loads w) l.

Record flags := Flags { disableTexas : bool; disableStateUses : bool; disableCallstack : bool }.

(** The arguments of [prologue]; the last two override the flags of the
    wrappers. *)
Record options := Options {
  o_stateReduction : Z; o_input : Z; o_output : Z; o_cloneable : Z; o_transfer : Z; o_cycles : Z
}.

Definition prologue (measureState input output cloneable transfer cycles disableUses disableCall : Z)
    (f : flags) : options * flags :=
  (Options measureState input output cloneable transfer cycles,
   Flags (disableTexas f) (bool_decide (disableUses ≠ 0)) (bool_decide (disableCall ≠ 0))).

(** The actions PIN has recorded. *)
Inductive Address :=
  | TouchedAddress (address : Z) (isWritten : bool)
  | MallocAddress (address size : Z)
  | FreeAddress (address : Z).

(** An entry PIN delivers: its type and what the retrieval functions store. *)
Definition retrieveAddressesVector (pin : list (Z * Address)) : list Address :=
  foldl (λ addresses e,
    match e with
    | (0, TouchedAddress a w) => addresses ++ [TouchedAddress a w]
    | (1, MallocAddress a s) => addresses ++ [MallocAddress a s]
    | (2, FreeAddress a) => addresses
    | _ => addresses
    end) [] pin.

(** The conversion of the sum of an [int] and a [uint64_t] back to [int]. *)
Definition to_i32 (z : Z) : Z :=
  let c := z mod 4294967296 in if decide (c < 2147483648) then c else c - 4294967296.

Section wrappers.
  Context {G : Type} `{Texas G}.
  Context (fl : flags) (uint64Hash : Z → Z) (traces : trace_store).

  (** ** Identifiers *)

  (** [uniqueID] of the allocation wrappers. *)
Definition alloc_id (id : Z) (traceArg : option Z) (w : wrapper) : option (wrapper * Z) :=
    if disableCallstack fl then Some (w, id)
    else '(cs, u) ← saveCallstack uint64Hash traces id traceArg (w_callstacks w);
         Some (set_callstacks cs w, u).

  (** [uniqueID] of the wrappers that record a use. *)
Definition use_id (id : Z) (traceArg : option Z) (w : wrapper) : option (wrapper * Z) :=
    if disableStateUses fl then Some (w, 0) else alloc_id id traceArg w.

  (** ** Allocations *)

Definition caratStateRemoveFromAllocationTableWrapper (address : Z) (w : wrapper) (g : G)
      : option (wrapper * G) :=
    if disableTexas fl then Some (w, g)
    else g ← t_RemoveFromAllocationTable address g; Some (w, g).

Definition caratStateAllocWrapper (id address length : Z) (traceArg : option Z) (w : wrapper) (g : G)
      : option (wrapper * G) :=
    if disableTexas fl then Some (w, g)
    else '(w, u) ← alloc_id id traceArg w;
         g ← t_AddToAllocationTable address length u g; Some (w, g).

Definition caratStateCallocWrapper (id address length sizeOfEntry : Z) (traceArg : option Z)
      (w : wrapper) (g : G) : option (wrapper * G) :=
    if disableTexas fl then Some (w, g)
    else '(w, u) ← alloc_id id traceArg w;
         g ← t_AddCallocToAllocationTable address length sizeOfEntry u g; Some (w, g).

Definition caratStateReallocWrapper (id address newAddress length : Z) (traceArg : option Z)
      (w : wrapper) (g : G) : option (wrapper * G) :=
    if disableTexas fl then Some (w, g)
    else '(w, u) ← alloc_id id traceArg w;
         g ← t_HandleReallocInAllocationTable address newAddress length u g; Some (w, g).

Definition caratAddToEscapeTableWrapper (ptr : Z) (w : wrapper) (g : G) : option (wrapper * G) :=
    if disableTexas fl then Some (w, g)
    else g ← t_AddToEscapeTable ptr g; Some (w, g).

  (** ** Accesses *)

Definition seen (l : option (gset Z)) (p : Z) : bool := bool_decide (p ∈ default ∅ l).
Definition remember (p : Z) (l : option (gset Z)) : option (gset Z) := Some ({[p]} ∪ default ∅ l).

  (** [for (auto i = 0; i < sizeInBytes; i += sizeElementInBytes)]: [i] is an
      [int].  The comparison converts it to [uint64_t].  The loop diverges when
      [fuel] runs out for every [fuel]. *)
Fixpoint add_elements (fuel : nat) (ptr sizeInBytes sizeElementInBytes u i : Z) (g : G) : option G :=
    if decide (wrap64 i < sizeInBytes) then
      match fuel with
      | O => None
      | S fuel =>
        g ← t_AddToState (ptr +₆₄ i) 1 u g;
        add_elements fuel ptr sizeInBytes sizeElementInBytes u (to_i32 (i + sizeElementInBytes)) g
      end
    else Some g.

Definition texasAddToStateWithInfoWrapper (fuel : nat) (id ptr sizeInBytes sizeElementInBytes : Z)
      (traceArg : option Z) (w : wrapper) (g : G) : option (wrapper * G) :=
    if disableTexas fl then Some (w, g)
    else
      match t_active g with
      | None => Some (w, g)
      | Some _ =>
        if seen (w_stores w) ptr then Some (w, g)
        else
          let w := set_stores (remember ptr (w_stores w)) w in
          '(w, u) ← use_id id traceArg w;
          g ← add_elements fuel ptr sizeInBytes sizeElementInBytes u 0 g;
          Some (w, g)
      end.

Definition texasAddToStateLoad (id ptr : Z) (traceArg : option Z) (w : wrapper) (g : G)
      : option (wrapper * G) :=
    if disableTexas fl then Some (w, g)
    else
      match t_active g with
      | None => Some (w, g)
      | Some _ =>
        if seen (w_loads w) ptr then Some (w, g)
        else
          let w := set_loads (remember ptr (w_loads w)) w in
          '(w, u) ← use_id id traceArg w;
          g ← t_AddToState ptr 0 u g;
          Some (w, g)
      end.

  (** The induction variables are [int64_t], the width is [uint64_t]. *)
Definition setDirectState (id startPtr startIndVar stopIndVar elementBitwidth stateToSet : Z)
      (traceArg : option Z) (w : wrapper) (g : G) : option (wrapper * G) :=
    if disableTexas fl then Some (w, g)
    else
      match t_active g with
      | None => Some (w, g)
      | Some active =>
        '(w, u) ← use_id id traceArg w;
        let lengthInBytes := (wrap64 (stopIndVar - 1 - startIndVar) *₆₄ elementBitwidth) / 8 in
        g ← t_SetStateRegion startPtr lengthInBytes active stateToSet u g;
        Some (w, g)
      end.

  (** The loop over the actions of PIN: a touched address outside of all regions
      returns from the function. *)
Fixpoint add_pin_actions (u : Z) (addresses : list Address) (w : wrapper) (g : G)
      : option (wrapper * G) :=
    match addresses with
    | [] => Some (w, g)
    | TouchedAddress a isWritten :: rest =>
      match t_active g with
      | None => Some (w, g)
      | Some _ =>
        if isWritten then
          if seen (w_stores w) a then add_pin_actions u rest w g
          else
            let w := set_stores (remember a (w_stores w)) w in
            g ← t_AddToState a 1 u g; add_pin_actions u rest w g
        else
          if seen (w_loads w) a then add_pin_actions u rest w g
          else
            let w := set_loads (remember a (w_loads w)) w in
            g ← t_AddToState a 0 u g; add_pin_actions u rest w g
      end
    | MallocAddress a size :: rest =>
      g ← t_AddToAllocationTable a size u g; add_pin_actions u rest w g
    | FreeAddress a :: rest =>
      g ← t_RemoveFromAllocationTable a g; add_pin_actions u rest w g
    end.

Definition texasAddMultiToStatePin (id : Z) (traceArg : option Z) (pin : list (Z * Address))
      (w : wrapper) (g : G) : option (wrapper * G) :=
    if disableTexas fl then Some (w, g)
    else
      '(w, u) ← use_id id traceArg w;
      add_pin_actions u (retrieveAddressesVector pin) w g.

  (** ** Regions *)

Definition caratGetStateWrapper (funcName : string) (lineNum : Z) (w : wrapper) (g : G)
      : option (wrapper * G * Z) :=
    if disableTexas fl then Some (w, g, 0)
    else '(g, res) ← t_GetState funcName lineNum 0 g; Some (w, g, res).

Definition clear_set (l : option (gset Z)) : option (gset Z) :=
    match l with None => None | Some _ => Some ∅ end.

Definition caratReportStateWrapper (stateID : Z) (w : wrapper) (g : G) : option (wrapper * G) :=
    if disableTexas fl then Some (w, g)
    else
      let w := set_stores (clear_set (w_stores w)) (set_loads (clear_set (w_loads w)) w) in
      '(g, _) ← t_EndState stateID g; Some (w, g).

Definition endStateInvocationWrapper (stateID : Z) (w : wrapper) (g : G) : option (wrapper * G) :=
    '(g, _) ← t_EndStateInvocation stateID g; Some (w, g).
End wrappers.

(** ** The loop over the elements of a store *)

Lemma to_i32_small z : 0 <= z < 2147483648 → to_i32 z = z.
Proof. intros ?. unfold to_i32. rewrite Z.mod_small by lia. by rewrite decide_True by lia. Qed.

(** The addresses of the elements: one every [elem] bytes, the last one inside
    the store. *)
Definition element_addresses (ptr sizeInBytes elem : Z) : list Z :=
  (λ k : nat, ptr +₆₄ Z.of_nat k * elem) <$> seq 0 (Z.to_nat ((sizeInBytes + elem - 1) / elem)).

Definition element_count (sizeInBytes elem : Z) : nat := Z.to_nat ((sizeInBytes + elem - 1) / elem).

Lemma element_count_spec size elem :
  0 < elem → 0 <= size →
  size <= Z.of_nat (element_count size elem) * elem < size + elem.
Proof.
  intros He Hs. unfold element_count.
  pose proof (Z.div_mod (size + elem - 1) elem). pose proof (Z.mod_pos_bound (size + elem - 1) elem).
  pose proof (Z.div_pos (size + elem - 1) elem). rewrite Z2Nat.id by lia. lia.
Qed.

Section element_lemmas.
  Context {G : Type} `{Texas G}.

Lemma elements_from fuel ptr size elem u k m (g : G) :
    0 < elem → 0 <= size → size + elem <= 2147483648 →
    (k + m = element_count size elem)%nat → (m <= fuel)%nat →
    add_elements fuel ptr size elem u (Z.of_nat k * elem) g =
    mfoldl (λ g a, t_AddToState a 1 u g) g ((λ k : nat, ptr +₆₄ Z.of_nat k * elem) <$> seq k m).
Proof.
    intros He Hs Hr. pose proof (element_count_spec size elem He Hs) as Hn.
    revert k m g. induction fuel as [|fuel IH]; intros k m g Hkm Hf.
    - assert (m = 0%nat) as -> by lia. rewrite Nat.add_0_r in Hkm. subst k.
      cbn [add_elements seq fmap list_fmap mfoldl]. rewrite wrap64_small by (word_unfold; lia).
      by rewrite decide_False by lia.
    - destruct m as [|m].
      + rewrite Nat.add_0_r in Hkm. subst k.
        cbn [add_elements seq fmap list_fmap mfoldl]. rewrite wrap64_small by (word_unfold; lia).
        by rewrite decide_False by lia.
      + assert (Z.of_nat (S k) * elem < size + elem) as Hk by nia.
        cbn [add_elements seq fmap list_fmap mfoldl]. rewrite wrap64_small by (word_unfold; lia).
        rewrite decide_True by lia. destruct (t_AddToState _ 1 u g) as [g'|]; [|done].
        cbn [mbind option_bind]. rewrite to_i32_small by lia.
        replace (Z.of_nat k * elem + elem) with (Z.of_nat (S k) * elem) by lia.
        apply IH; lia.
  Qed.
End element_lemmas.

(** ** The filter of the wrappers *)

(** An access of the program: its static identifier, the address, and whether it
    is a store. *)
Record access := MkAccess { ac_id : Z; ac_ptr : Z; ac_store : bool }.

(** The accesses that are not dropped, given the addresses seen so far. *)
Fixpoint firsts (loads stores : gset Z) (l : list access) : list access :=
  match l with
  | [] => []
  | a :: l =>
    if ac_store a then
      if decide (ac_ptr a ∈ stores) then firsts loads stores l
      else a :: firsts loads ({[ac_ptr a]} ∪ stores) l
    else
      if decide (ac_ptr a ∈ loads) then firsts loads stores l
      else a :: firsts ({[ac_ptr a]} ∪ loads) stores l
  end.

Section filter.
  Context {G : Type} `{TexasLaws G}.
  Context (fl : flags) (uint64Hash : Z → Z) (traces : trace_store).

  (** The wrapper of one access of [n] bytes, a single element. *)
Definition wrap_access (n : Z) (s : wrapper * G) (a : access) : option (wrapper * G) :=
    if ac_store a
    then texasAddToStateWithInfoWrapper fl uint64Hash traces 1 (ac_id a) (ac_ptr a) n n None s.1 s.2
    else texasAddToStateLoad fl uint64Hash traces (ac_id a) (ac_ptr a) None s.1 s.2.

  (** The identifier recorded for a use when callstacks are disabled. *)
Definition plain_id (id : Z) : Z := if disableStateUses fl then 0 else id.

Definition record_access (g : G) (a : access) : option G :=
    t_AddToState (ac_ptr a) (if ac_store a then 1 else 0) (plain_id (ac_id a)) g.

  (** No identifier of a use is looked up in the callstacks. *)
Definition plain_uses : Prop := disableStateUses fl = true ∨ disableCallstack fl = true.

Lemma use_id_uses id tr w : plain_uses → use_id fl uint64Hash traces id tr w = Some (w, plain_id id).
Proof. intros [Hc|Hc]; unfold use_id, alloc_id, plain_id; rewrite Hc; [done|by destruct (disableStateUses fl)]. Qed.

Lemma use_id_plain id w :
    disableCallstack fl = true → use_id fl uint64Hash traces id None w = Some (w, plain_id id).
Proof. intros Hc. apply use_id_uses. by right. Qed.

Lemma one_element ptr n u (g : G) :
    u64 ptr → 0 < n → n <= 1073741824 →
    add_elements 1 ptr n n u 0 g = t_AddToState ptr 1 u g.
Proof.
    intros Hp Hn Hb. assert (element_count n n = 1%nat) as E.
    { pose proof (element_count_spec n n Hn). nia. }
    rewrite (elements_from 1 ptr n n u 0 1) by lia. simpl.
    rewrite add64_small by (unfold u64 in Hp; lia). rewrite Z.add_0_r.
    by destruct (t_AddToState ptr 1 u g).
  Qed.

Lemma seen_spec l p : seen l p = true ↔ p ∈ default ∅ l.
Proof. apply bool_decide_eq_true. Qed.

  (** What one wrapper does: nothing when the address was seen, else it is
      remembered and the access recorded. *)
Definition known (w : wrapper) (a : access) : bool :=
    if ac_store a then seen (w_stores w) (ac_ptr a) else seen (w_loads w) (ac_ptr a).
Definition note (a : access) (w : wrapper) : wrapper :=
    if ac_store a then set_stores (remember (ac_ptr a) (w_stores w)) w
    else set_loads (remember (ac_ptr a) (w_loads w)) w.

Lemma wrap_access_step n w g a :
    disableTexas fl = false → plain_uses → is_Some (t_active g) →
    0 < n → n <= 1073741824 → u64 (ac_ptr a) →
    wrap_access n (w, g) a =
    if known w a then Some (w, g) else g' ← record_access g a; Some (note a w, g').
Proof.
    intros Ht Hc [active Hact] Hn Hb Hp. unfold wrap_access, known, note, record_access.
    destruct (ac_store a).
    - unfold texasAddToStateWithInfoWrapper. cbn [fst snd]. rewrite Ht, Hact.
      destruct (seen _ _); [done|]. rewrite use_id_uses by done. cbn [mbind option_bind].
      by rewrite one_element.
    - unfold texasAddToStateLoad. cbn [fst snd]. rewrite Ht, Hact.
      destruct (seen _ _); [done|]. by rewrite use_id_uses by done.
  Qed.

Lemma firsts_step w a l :
    firsts (default ∅ (w_loads w)) (default ∅ (w_stores w)) (a :: l) =
    if known w a then firsts (default ∅ (w_loads w)) (default ∅ (w_stores w)) l
    else a :: firsts (default ∅ (w_loads (note a w))) (default ∅ (w_stores (note a w))) l.
Proof.
    cbn [firsts]. unfold known, note, seen. destruct (ac_store a); case_decide as Hd;
      [rewrite bool_decide_eq_true_2 by done|rewrite bool_decide_eq_false_2 by done
      |rewrite bool_decide_eq_true_2 by done|rewrite bool_decide_eq_false_2 by done]; done.
  Qed.

Lemma wrappers_forward n l w g :
    disableTexas fl = false → plain_uses → is_Some (t_active g) →
    0 < n → n <= 1073741824 → Forall (λ a, u64 (ac_ptr a)) l →
    snd <$> mfoldl (wrap_access n) (w, g) l =
    mfoldl record_access g (firsts (default ∅ (w_loads w)) (default ∅ (w_stores w)) l).
Proof.
    intros Ht Hc Hact Hn Hb Hl. revert w g Hact. induction l as [|a l IH]; intros w g Hact; [done|].
    apply Forall_cons in Hl as [Ha Hl]. specialize (IH Hl).
    cbn [mfoldl]. rewrite wrap_access_step, firsts_step by done.
    destruct (known w a); [by apply IH|]. cbn [mfoldl].
    destruct (record_access g a) as [g'|] eqn:Er; [|done]. cbn [mbind option_bind].
    apply IH. by apply (access_keeps_active _ _ _ _ _) in Er.
  Qed.

  (** One visit of a region, through the wrappers, and what the runtime is asked
      for when only the first load and the first store of each address are passed
      on. *)
Definition wrapped_invocation (n : Z) (s : wrapper * G) (visit : string * Z * list access) : option (wrapper * G) :=
    '(w, g, id) ← caratGetStateWrapper fl visit.1.1 visit.1.2 s.1 s.2;
    s ← mfoldl (wrap_access n) (w, g) visit.2;
    caratReportStateWrapper fl id s.1 s.2.

Definition forwarded_invocation (g : G) (visit : string * Z * list access) : option G :=
    '(g, id) ← t_GetState visit.1.1 visit.1.2 0 g;
    g ← mfoldl record_access g (firsts ∅ ∅ visit.2);
    fst <$> t_EndState id g.

  (** The wrapper forgets what it has seen when a region is left. *)
Definition cleared (w : wrapper) : Prop := default ∅ (w_loads w) = ∅ ∧ default ∅ (w_stores w) = ∅.

Lemma wrapped_invocation_spec n w g visit :
    disableTexas fl = false → plain_uses → 0 < n → n <= 1073741824 →
    Forall (λ a, u64 (ac_ptr a)) visit.2 → cleared w →
    snd <$> wrapped_invocation n (w, g) visit = forwarded_invocation g visit ∧
    ∀ w' g', wrapped_invocation n (w, g) visit = Some (w', g') → cleared w'.
Proof.
    intros Ht Hc Hn Hb Hl [Hlo Hst]. unfold wrapped_invocation, forwarded_invocation, caratGetStateWrapper, caratReportStateWrapper.
    rewrite Ht. cbn [fst snd]. destruct (t_GetState _ _ 0 g) as [[g1 id]|] eqn:Eg; [|done]. cbn [mbind option_bind].
    pose proof (wrappers_forward n visit.2 w g1 Ht Hc (getstate_activates _ _ _ _ _ _ Eg) Hn Hb Hl) as Hf.
    rewrite Hlo, Hst in Hf. rewrite <- Hf. destruct (mfoldl _ (w, g1) visit.2) as [[w1 g2]|]; [|done].
    cbn [fmap option_fmap option_map fst snd mbind option_bind]. destruct (t_EndState id g2) as [[g3 r]|]; [|done].
    split; [done|]. intros w' g' [= <- <-]. split; simpl; [by destruct (w_loads w1)|by destruct (w_stores w1)].
  Qed.

Lemma wrapped_invocations_spec n w g visits :
    disableTexas fl = false → plain_uses → 0 < n → n <= 1073741824 →
    Forall (λ v, Forall (λ a, u64 (ac_ptr a)) v.2) visits → cleared w →
    snd <$> mfoldl (wrapped_invocation n) (w, g) visits = mfoldl forwarded_invocation g visits.
Proof.
    intros Ht Hc Hn Hb Hl. revert w g. induction Hl as [|v visits Hv _ IH]; intros w g Hw; [done|].
    cbn [mfoldl]. destruct (wrapped_invocation_spec n w g v Ht Hc Hn Hb Hv Hw) as [E Hcl]. rewrite <- E.
    destruct (wrapped_invocation n (w, g) v) as [[w1 g1]|]; [|done]. by apply IH, (Hcl w1 g1).
  Qed.
End filter.

(** *** Dropping repeated accesses is sound *)

Definition as_accesses (l : list access) : list (Z * bool) := (λ a, (ac_ptr a, ac_store a)) <$> l.

(** What the class of an address depends on in one invocation. *)
Definition similar (it it' : list bool) : Prop := head it = head it' ∧ has_write it = has_write it'.

(** The filter for one address: has it been loaded, has it been stored. *)
Fixpoint firsts1 (loaded stored : bool) (it : list bool) : list bool :=
  match it with
  | [] => []
  | true :: it => if stored then firsts1 loaded stored it else true :: firsts1 loaded true it
  | false :: it => if loaded then firsts1 loaded stored it else false :: firsts1 true stored it
  end.

Lemma project_cons p a l :
  project p (as_accesses (a :: l)) =
  if decide (ac_ptr a = p) then ac_store a :: project p (as_accesses l) else project p (as_accesses l).
Proof. unfold project, as_accesses. rewrite fmap_cons, filter_cons. simpl. by case_decide. Qed.

Lemma project_firsts p loads stores l :
  project p (as_accesses (firsts loads stores l)) =
  firsts1 (bool_decide (p ∈ loads)) (bool_decide (p ∈ stores)) (project p (as_accesses l)).
Proof.
  revert loads stores. induction l as [|a l IH]; intros loads stores; [done|].
  cbn [firsts]. rewrite project_cons. destruct (ac_store a) eqn:Es; case_decide as Hin.
  - rewrite IH. case_decide as Hp; [|done]. subst p. cbn [firsts1].
    by rewrite (bool_decide_eq_true_2 (ac_ptr a ∈ stores)).
  - rewrite project_cons, IH, Es. case_decide as Hp.
    + subst p. cbn [firsts1]. rewrite (bool_decide_eq_false_2 (ac_ptr a ∈ stores)) by done.
      by rewrite (bool_decide_eq_true_2 (ac_ptr a ∈ {[ac_ptr a]} ∪ stores)) by set_solver.
    + f_equal. apply bool_decide_ext. set_solver.
  - rewrite IH. case_decide as Hp; [|done]. subst p. cbn [firsts1].
    by rewrite (bool_decide_eq_true_2 (ac_ptr a ∈ loads)).
  - rewrite project_cons, IH, Es. case_decide as Hp.
    + subst p. cbn [firsts1]. rewrite (bool_decide_eq_false_2 (ac_ptr a ∈ loads)) by done.
      by rewrite (bool_decide_eq_true_2 (ac_ptr a ∈ {[ac_ptr a]} ∪ loads)) by set_solver.
    + f_equal. apply bool_decide_ext. set_solver.
Qed.

Lemma firsts1_has_write r s it : has_write (firsts1 r s it) = negb s && has_write it.
Proof.
  revert r s. induction it as [|[] it IH]; intros r s; [by destruct s|..]; cbn [firsts1].
  - destruct s; [by rewrite IH|]. done.
  - destruct r; [by rewrite IH|]. unfold has_write in *. simpl. by rewrite IH.
Qed.

Lemma firsts1_similar it : similar (firsts1 false false it) it.
Proof.
  split; [by destruct it as [|[]]|]. by rewrite firsts1_has_write.
Qed.

Lemma later_starts_similar d w its its' :
  Forall2 similar its its' → later_starts d w its = later_starts d w its'.
Proof.
  intros Hs. revert d. induction Hs as [|it it' its its' [Hh Hw] _ IH]; intros d; [done|].
  cbn [later_starts]. by rewrite Hh, Hw, IH.
Qed.

Lemma classify_similar its its' : Forall2 similar its its' → classify its = classify its'.
Proof.
  intros Hs. pose proof (later_starts_similar false false _ _ Hs) as Hc.
  pose proof (later_starts_similar false true _ _ Hs) as Ho.
  assert (existsb has_write its = existsb has_write its') as Hw.
  { clear Hc Ho. induction Hs as [|it it' its its' [_ Hw] _ IH]; [done|]. simpl. by rewrite Hw, IH. }
  destruct Hs as [|it it' its its' [Hh Hw'] Hs]; [done|].
  unfold classify, carried, overwritten. unfold starts_with_write at 1. rewrite Hh.
  fold (starts_with_write it'). by rewrite Hc, Ho, Hw.
Qed.

Lemma similar_nil it it' : similar it it' → it = [] ↔ it' = [].
Proof. intros [Hh _]. by destruct it, it'. Qed.

Lemma firsts_keep_class p invs :
  classify (history p ((λ l, as_accesses (firsts ∅ ∅ l)) <$> invs)) =
  classify (history p (as_accesses <$> invs)).
Proof.
  apply classify_similar. unfold history. induction invs as [|l invs IH]; [constructor|].
  rewrite !fmap_cons, !filter_cons.
  assert (similar (project p (as_accesses (firsts ∅ ∅ l))) (project p (as_accesses l))) as Hs.
  { rewrite project_firsts. rewrite !bool_decide_eq_false_2 by set_solver. apply firsts1_similar. }
  pose proof (similar_nil _ _ Hs) as Hn. repeat case_decide; try tauto; by constructor.
Qed.

(** *** Where the filter goes wrong *)

Section filter_errors.
  Context {G : Type} `{Texas G}.
  Context (fl : flags) (uint64Hash : Z → Z) (traces : trace_store).

  (** Entering a region does not forget the addresses seen in the region around
      it: a load that was forwarded there is dropped in the inner region, which
      never records it. *)
Theorem nested_region_loses_load id id' ptr tr tr' funcName lineNum w g w1 g1 w2 g2 res :
    disableTexas fl = false → is_Some (t_active g) →
    texasAddToStateLoad fl uint64Hash traces id ptr tr w g = Some (w1, g1) →
    caratGetStateWrapper fl funcName lineNum w1 g1 = Some (w2, g2, res) →
    texasAddToStateLoad fl uint64Hash traces id' ptr tr' w2 g2 = Some (w2, g2).
Proof.
    intros Ht [active Hact] Hload Hget. unfold texasAddToStateLoad in Hload. rewrite Ht, Hact in Hload.
    assert (ptr ∈ default ∅ (w_loads w1)) as Hin.
    { destruct (seen (w_loads w) ptr) eqn:Es.
      - injection Hload as <- <-. by apply seen_spec.
      - apply bind_Some in Hload as ([w' u] & Hu & Hload). apply bind_Some in Hload as (g' & _ & [= <- <-]).
        assert (w_loads w' = remember ptr (w_loads w)) as ->; [|simpl; set_solver].
        unfold use_id, alloc_id in Hu. destruct (disableStateUses fl); [by injection Hu as <- _|].
        destruct (disableCallstack fl); [by injection Hu as <- _|].
        apply bind_Some in Hu as ([cs u'] & _ & Hu). by injection Hu as <- _. }
    unfold caratGetStateWrapper in Hget. rewrite Ht in Hget.
    apply bind_Some in Hget as ([g' r] & _ & [= <- <- _]).
    unfold texasAddToStateLoad. rewrite Ht. destruct (t_active g'); [|done].
    by rewrite (proj2 (seen_spec _ _) Hin).
  Qed.

  (** A store that is not dropped records every element of the range, and only
      those, as long as an element has a size and the range is below 2^31 bytes;
      with elements of size 0 the loop does not terminate. *)
Theorem store_records_elements fuel id ptr size elem w g active :
    disableTexas fl = false → disableCallstack fl = true → t_active g = Some active →
    ptr ∉ default ∅ (w_stores w) → 0 < size → size + elem <= 2147483648 →
    (elem = 0 → texasAddToStateWithInfoWrapper fl uint64Hash traces fuel id ptr size elem None w g = None) ∧
    (0 < elem → (element_count size elem <= fuel)%nat →
     snd <$> texasAddToStateWithInfoWrapper fl uint64Hash traces fuel id ptr size elem None w g =
     mfoldl (λ g a, t_AddToState a 1 (plain_id fl id) g) g
       ((λ k : nat, ptr +₆₄ Z.of_nat k * elem) <$> seq 0 (element_count size elem))).
Proof.
    intros Ht Hc Hact Hnew Hs Hr. unfold texasAddToStateWithInfoWrapper. rewrite Ht, Hact.
    assert (seen (w_stores w) ptr = false) as -> by (by apply bool_decide_eq_false).
    rewrite use_id_plain by done. cbn [mbind option_bind]. split.
    - intros ->. assert (∀ g, add_elements fuel ptr size 0 (plain_id fl id) 0 g = None) as ->; [|done].
      induction fuel as [|fuel IH]; intros g'; cbn [add_elements];
        (rewrite decide_True by (rewrite wrap64_small by done; lia)); [done|].
      destruct (t_AddToState _ _ _ _); [|done]. apply IH.
    - intros He Hf. change 0 with (Z.of_nat 0 * elem) at 1.
      rewrite (elements_from fuel ptr size elem (plain_id fl id) 0 (element_count size elem)) by lia.
      by destruct (mfoldl _ g _).
  Qed.
End filter_errors.

(** ** PIN actions *)

(** The allocations among the actions before the first touched address. *)
Fixpoint leading_mallocs (l : list Address) : list (Z * Z) :=
  match l with
  | MallocAddress a s :: l => (a, s) :: leading_mallocs l
  | FreeAddress _ :: l => leading_mallocs l
  | TouchedAddress _ _ :: _ => []
  | [] => []
  end.

(** An entry PIN delivers consistently. *)
Definition pin_entry (a : Address) : Z * Address :=
  match a with
  | TouchedAddress _ _ => (0, a)
  | MallocAddress _ _ => (1, a)
  | FreeAddress _ => (2, a)
  end.

Definition is_free (a : Address) : bool := match a with FreeAddress _ => true | _ => false end.

(** The vector holds everything but the frees, in order. *)
Lemma retrieve_no_free l :
  retrieveAddressesVector (pin_entry <$> l) = filter (λ a, is_free a = false) l.
Proof.
  unfold retrieveAddressesVector.
  assert (∀ acc, foldl (λ addresses e,
    match e with
    | (0, TouchedAddress a w) => addresses ++ [TouchedAddress a w]
    | (1, MallocAddress a s) => addresses ++ [MallocAddress a s]
    | (2, FreeAddress a) => addresses
    | _ => addresses
    end) acc (pin_entry <$> l) = acc ++ filter (λ a, is_free a = false) l) as Hgen; [|apply Hgen].
  induction l as [|a l IH]; intros acc; [by rewrite app_nil_r|].
  rewrite fmap_cons, filter_cons. cbn [foldl].
  destruct a; simpl pin_entry; simpl is_free; cbv beta iota; rewrite IH;
    [rewrite decide_True by done..|rewrite decide_False by done]; by rewrite <- ?app_assoc.
Qed.

Section pin.
  Context {G : Type} `{TexasLaws G}.
  Context (fl : flags) (uint64Hash : Z → Z) (traces : trace_store).

  (** Of the actions PIN recorded, a free never reaches the runtime, and outside
      of all regions nothing after the first touched address does, although
      allocations and frees matter there too. *)
Theorem pin_actions_outside id l w g :
    disableTexas fl = false → disableCallstack fl = true → t_active g = None →
    snd <$> texasAddMultiToStatePin fl uint64Hash traces id None (pin_entry <$> l) w g =
    mfoldl (λ g a, t_AddToAllocationTable a.1 a.2 (plain_id fl id) g) g (leading_mallocs l).
Proof.
    intros Ht Hc Hact. unfold texasAddMultiToStatePin. rewrite Ht, use_id_plain by done.
    cbn [mbind option_bind]. rewrite retrieve_no_free. generalize (plain_id fl id). intros u.
    revert w g Hact. induction l as [|a l IH]; intros w g Hact; [done|].
    rewrite filter_cons. destruct a as [a wr|a s|a]; simpl is_free.
    - rewrite decide_True by done. cbn [add_pin_actions leading_mallocs]. by rewrite Hact.
    - rewrite decide_True by done. cbn [add_pin_actions leading_mallocs mfoldl fst snd].
      destruct (t_AddToAllocationTable a s u g) as [g'|] eqn:Eg; [|done]. cbn [mbind option_bind].
      apply IH. by apply (alloc_keeps_inactive _ _ _ _ _) in Eg.
    - rewrite decide_False by done. cbn [leading_mallocs]. by apply IH.
  Qed.
End pin.

(** ** A runtime that logs *)

Inductive logged :=
  | LAccess (ptr rw id : Z)
  | LAlloc (address length origin : Z)
  | LFree (address : Z)
  | LOther.

Record log := Log { lg_active : option Z; lg_calls : list logged }.

Definition log_call (c : logged) (g : log) : option log := Some (Log (lg_active g) (lg_calls g ++ [c])).

#[export] Instance log_texas : Texas log := {|
  t_active := lg_active;
  t_AddToState p rw id := log_call (LAccess p rw id);
  t_AddToAllocationTable a l o := log_call (LAlloc a l o);
  t_AddCallocToAllocationTable a l n o := log_call (LAlloc a (l *₆₄ n) o);
  t_HandleReallocInAllocationTable a b l o g := log_call (LFree a) g ≫= log_call (LAlloc b l o);
  t_RemoveFromAllocationTable a := log_call (LFree a);
  t_AddToEscapeTable a := log_call LOther;
  t_SetStateRegion p l s c id := log_call LOther;
  t_GetState f l t g := Some (Log (Some (default 0 (lg_active g) + 1)) (lg_calls g), default 0 (lg_active g) + 1);
  t_EndState i g := Some (Log None (lg_calls g ++ [LOther]), 0);
  t_EndStateInvocation i g := Some (g, 0)
|}.

#[export] Instance log_laws : TexasLaws log.
Proof. split; by intros * [= <-]. Qed.

Definition plain_flags : flags := Flags false false true.
Definition fresh_wrapper : wrapper := MkWrapper no_callstacks None None.
Definition no_traces : trace_store := TraceStore ∅ 0.

(** *** Dropping repeated accesses, in the runs of a region *)

(** C20: the accesses the wrappers drop do not matter, for regions that are not
    nested, when every store writes one element of [n] bytes (at most 2^30) and no
    callstack is kept for the uses.  Over any sequence of visits of regions, each entered, run
    and left before the next is entered, any runtime that marks an entered region as
    active does through the wrappers exactly what it does when it is given, between
    the same calls that enter and leave the regions, only the first load and the
    first store of each address in the visit; and in whatever visits a region has,
    these accesses give every address the class that all accesses of the program
    give it.  (In a nested region the wrappers lose accesses,
    [nested_region_loses_load].) *)
Theorem dropping_keeps_class {G} `{TexasLaws G} fl uint64Hash traces n visits (g : G) :
  disableTexas fl = false → plain_uses fl → 0 < n → n <= 1073741824 →
  Forall (λ v : string * Z * list access, Forall (λ a, u64 (ac_ptr a)) v.2) visits →
  snd <$> mfoldl (wrapped_invocation fl uint64Hash traces n) (fresh_wrapper, g) visits =
    mfoldl (forwarded_invocation fl) g visits ∧
  ∀ region p, let visits_of := filter (λ v : string * Z * list access, v.1 = region) visits in
    classify (history p ((λ v, as_accesses (firsts ∅ ∅ v.2)) <$> visits_of)) =
    classify (history p ((λ v, as_accesses v.2) <$> visits_of)).
Proof.
  intros Ht Hc Hn Hb Hl. split; [by apply wrapped_invocations_spec|]. intros region p visits_of.
  pose proof (firsts_keep_class p (snd <$> visits_of)) as Hk. by rewrite <- !list_fmap_compose in Hk.
Qed.

(** Two visits, two stores of one address and two loads of it. *)
Definition two_visits : list (string * Z * list access) :=
  [("region", 1, [MkAccess 1 64 true; MkAccess 2 64 true]); ("region", 1, [MkAccess 1 64 false; MkAccess 2 64 false])].

Lemma dropping_keeps_class_witness :
  snd <$> mfoldl (wrapped_invocation (G := log) plain_flags (λ x, x) no_traces 8) (fresh_wrapper, Log None []) two_visits =
    Some (Log None [LAccess 64 1 1; LOther; LAccess 64 0 1; LOther]) ∧
  classify (history 64 ((λ v : string * Z * list access, as_accesses (firsts ∅ ∅ v.2)) <$> two_visits)) = Some STATE_ADD_TO.
Proof.
  destruct (dropping_keeps_class (G := log) plain_flags (λ x, x) no_traces 8 two_visits (Log None []))
    as [Hf Hk].
  - done.
  - by right.
  - lia.
  - lia.
  - repeat constructor; simpl; word_unfold; lia.
  - split; [rewrite Hf; vm_compute; reflexivity|]. specialize (Hk ("region", 1) 64).
    change (filter _ two_visits) with two_visits in Hk. rewrite Hk. vm_compute. reflexivity.
Defined.

Lemma nested_region_loses_load_witness :
  texasAddToStateLoad (G := log) plain_flags (λ x, x) no_traces 2 64 None
    (MkWrapper no_callstacks (Some {[64]}) None) (Log (Some 1) [LAccess 64 0 1]) =
  Some (MkWrapper no_callstacks (Some {[64]}) None, Log (Some 1) [LAccess 64 0 1]).
Proof.
  apply (nested_region_loses_load (G := log) plain_flags (λ x, x) no_traces 1 2 64 None None "inner" 7
           fresh_wrapper (Log (Some 0) []) (MkWrapper no_callstacks (Some {[64]}) None)
           (Log (Some 0) [LAccess 64 0 1]) _ _ 1);
    [done|by eexists|reflexivity|reflexivity].
Defined.

Lemma store_records_elements_witness :
  snd <$> texasAddToStateWithInfoWrapper (G := log) plain_flags (λ x, x) no_traces 4 1 64 10 4 None
            fresh_wrapper (Log (Some 0) []) =
  Some (Log (Some 0) [LAccess 64 1 1; LAccess 68 1 1; LAccess 72 1 1]).
Proof.
  destruct (store_records_elements (G := log) plain_flags (λ x, x) no_traces 4 1 64 10 4
              fresh_wrapper (Log (Some 0) []) 0) as [_ E].
  - done.
  - done.
  - done.
  - by vm_compute.
  - lia.
  - lia.
  - rewrite E; [reflexivity|lia|vm_compute; lia].
Defined.

Lemma pin_actions_outside_witness :
  snd <$> texasAddMultiToStatePin (G := log) plain_flags (λ x, x) no_traces 1 None
            (pin_entry <$> [MallocAddress 64 8; FreeAddress 32; TouchedAddress 64 true; MallocAddress 128 8])
            fresh_wrapper (Log None []) = Some (Log None [LAlloc 64 8 1]).
Proof. by rewrite (pin_actions_outside (G := log) plain_flags (λ x, x) no_traces 1). Defined.
