(* ===== verification/MemTrace.v ===== *)
(** * MemTrace.v: the PIN tool

    src/utils/MemTrace/memtrace.cpp watches library functions the pass cannot
    instrument.  When PIN compiles a trace (a straight piece of code with early
    exits) the tool adds calls that write the addresses the trace touches into a log;
    when the log is full or the tool is switched off the log is expanded into a list,
    to which calls of [malloc] and [free] are appended directly; the program fetches
    the list through functions the tool intercepts (include/pin_interface.cpp).

    Logs, lists and switches belong to a thread, so one thread is modelled.  PIN is a
    parameter: the traces, what they execute, and where [new] puts an object are
    arguments of the steps. *)

From S2P Require Import Prelude Helpers OrdMap Objects AllocTable ConnGraph Commit CleanBatch Shadow Batch.
From S2P Require Import Memory Callstack UniqueIds Wrapper.

(** ** Instrumenting a trace *)

Inductive TCMD_TYPE :=
  | TCMD_INVALID | TCMD_IMMEDIATE | TCMD_REG_VALUE | TCMD_REG_OFFSET | TCMD_TRACE_OFFSET | TCMD_BBLOCK.

Inductive IARG_TYPE := IARG_MEMORYREAD_EA | IARG_MEMORYWRITE_EA | IARG_MEMORYREAD2_EA.

#[global] Instance IARG_TYPE_dec : EqDecision IARG_TYPE.
Proof. solve_decision. Defined.

Record REF := MkREF { _ip : Z; _read : bool }.
Record CALL := MkCALL { _offset : Z; _itype : IARG_TYPE }.

(** What PIN says about an instruction. *)
Record INS := MkINS {
  INS_Address : Z;
  INS_IsStackRead : bool; INS_IsStackWrite : bool;
  INS_IsMemoryRead : bool; INS_IsMemoryWrite : bool; INS_HasMemoryRead2 : bool;
  INS_IsStandardMemop : bool;
}.

Definition sizeof_ADDRINT : Z := 8.

Record SCRATCH_TRACE_HEADER := MkScratch { _frameOffset : Z; s_cmds : list TCMD_TYPE; s_refs : list REF; s_calls : list CALL }.

Definition new_SCRATCH_TRACE_HEADER : SCRATCH_TRACE_HEADER := MkScratch sizeof_ADDRINT [] [] [].

Definition RecordLogImmediate (ins : INS) (itype : IARG_TYPE) (s : SCRATCH_TRACE_HEADER) : SCRATCH_TRACE_HEADER :=
  MkScratch (_frameOffset s + sizeof_ADDRINT) (s_cmds s ++ [TCMD_IMMEDIATE])
    (s_refs s ++ [MkREF (INS_Address ins) (negb (bool_decide (itype = IARG_MEMORYWRITE_EA)))])
    (s_calls s ++ [MkCALL (_frameOffset s) itype]).

Definition InstrumentINS (s : SCRATCH_TRACE_HEADER) (ins : INS) : SCRATCH_TRACE_HEADER :=
  if INS_IsStackRead ins || INS_IsStackWrite ins then s
  else
    let s := if INS_IsMemoryRead ins && INS_IsStandardMemop ins then RecordLogImmediate ins IARG_MEMORYREAD_EA s else s in
    let s := if INS_IsMemoryWrite ins && INS_IsStandardMemop ins then RecordLogImmediate ins IARG_MEMORYWRITE_EA s else s in
    if INS_HasMemoryRead2 ins && INS_IsStandardMemop ins then RecordLogImmediate ins IARG_MEMORYREAD2_EA s else s.

Definition InstrumentBBL (s : SCRATCH_TRACE_HEADER) (bbl : list INS) : SCRATCH_TRACE_HEADER := foldl InstrumentINS s bbl.

Record TRACE_HEADER := MkTraceHeader { _logBytes : Z; _cmds : list TCMD_TYPE; _refs : list REF }.

Definition new_TRACE_HEADER (s : SCRATCH_TRACE_HEADER) : TRACE_HEADER := MkTraceHeader (_frameOffset s) (s_cmds s) (s_refs s).

(** [InstrumentTrace]: the header and the calls, or nothing.  [off] is the switch,
    which is true when the tool is off. *)
Definition InstrumentTrace (off : bool) (trace : list (list INS)) : option (TRACE_HEADER * list CALL) :=
  if off then None
  else
    let scratchHeader := foldl InstrumentBBL new_SCRATCH_TRACE_HEADER trace in
    match s_cmds scratchHeader with [] => None | _ => Some (new_TRACE_HEADER scratchHeader, s_calls scratchHeader) end.

(** ** The log

    Offsets from the beginning of the buffer; what was never written is empty. *)
Definition BUFFER_SIZE : Z := 1000000.
Definition EMPTY_SLOT : Z := 0.

Definition slot_ok (off : Z) : bool := bool_decide (0 <= off ∧ off + sizeof_ADDRINT <= BUFFER_SIZE).
Definition at_slot (d : gmap Z Z) (off : Z) : Z := default EMPTY_SLOT (d !! off).

Definition read_slot (d : gmap Z Z) (off : Z) : option Z := if slot_ok off then Some (at_slot d off) else None.
Definition write_slot (off v : Z) (d : gmap Z Z) : option (gmap Z Z) := if slot_ok off then Some (<[off := v]> d) else None.

(** Addresses of the stack of the thread are not recorded. *)
Definition recorded_value (stackPtr rsp_value value : Z) : Z :=
  if decide (rsp_value < value ∧ value < stackPtr) then 0 else value.

Definition RecordImmediate (stackPtr rsp_value logCursor offset value : Z) (d : gmap Z Z) : option (gmap Z Z) :=
  write_slot (logCursor + offset) (recorded_value stackPtr rsp_value value) d.

Definition NumLogBytes (c : TCMD_TYPE) : option Z := match c with TCMD_IMMEDIATE => Some sizeof_ADDRINT | _ => None end.

(** The loop of [ExpandTrace], from command [ref]; [None] is a failed assertion. *)
Fixpoint ExpandTrace (cmds : list TCMD_TYPE) (refs : list REF) (ref : nat) (logCursor : Z) (d : gmap Z Z) (addresses : list Address)
    : option (gmap Z Z * list Address) :=
  match cmds with
  | [] => Some (d, addresses)
  | TCMD_IMMEDIATE as cmd :: cmds =>
      v ← read_slot d logCursor;
      '(d, addresses) ← (if decide (v = EMPTY_SLOT) then Some (d, addresses)
        else r ← refs !! ref; d ← write_slot logCursor EMPTY_SLOT d; Some (d, addresses ++ [TouchedAddress v (negb (_read r))]));
      n ← NumLogBytes cmd; ExpandTrace cmds refs (S ref) (logCursor + n) d addresses
  | _ => None
  end.

(** [Expand]: frame after frame, to the first empty header.  A slot that holds no
    pointer to a header is dereferenced as one: [None]. *)
Fixpoint Expand (fuel : nat) (headers : gmap Z TRACE_HEADER) (logCursor : Z) (d : gmap Z Z) (addresses : list Address)
    : option (gmap Z Z * list Address) :=
  match fuel with
  | O => None
  | S fuel =>
      v ← read_slot d logCursor;
      if decide (v = EMPTY_SLOT) then Some (d, addresses)
      else
        theader ← headers !! v;
        '(d, addresses) ← ExpandTrace (_cmds theader) (_refs theader) 0 (logCursor + sizeof_ADDRINT) d addresses;
        Expand fuel headers (logCursor + _logBytes theader) d addresses
  end.

(** More frames than slots there are not. *)
Definition frames_fuel : nat := Z.to_nat (BUFFER_SIZE / sizeof_ADDRINT).

Definition TraceAllocIf (logCursor size : Z) : bool := bool_decide (logCursor + size >= BUFFER_SIZE).

(** ** A thread of the program under the tool

    The log and its cursor (the register [scratch_reg0]), the headers, the compiled
    traces, the list, the switches and the stack pointer at the start. *)
Record tool := MkTool {
  t_data : gmap Z Z; t_cursor : Z; t_headers : gmap Z TRACE_HEADER; t_cache : gmap Z (option (Z * list CALL));
  t_addresses : list Address; t_offMemtrace : bool; t_offMalloc : bool; t_offFree : bool; t_stackPtr : Z;
}.

Definition ThreadStart (rsp_value : Z) (headers : gmap Z TRACE_HEADER) (cache : gmap Z (option (Z * list CALL))) : tool :=
  MkTool ∅ 0 headers cache [] true true true rsp_value.

Definition set_log (d : gmap Z Z) (cursor : Z) (s : tool) : tool :=
  MkTool d cursor (t_headers s) (t_cache s) (t_addresses s) (t_offMemtrace s) (t_offMalloc s) (t_offFree s) (t_stackPtr s).
Definition set_addresses (l : list Address) (s : tool) : tool :=
  MkTool (t_data s) (t_cursor s) (t_headers s) (t_cache s) l (t_offMemtrace s) (t_offMalloc s) (t_offFree s) (t_stackPtr s).
Definition set_switches (memtrace malloc free : bool) (s : tool) : tool :=
  MkTool (t_data s) (t_cursor s) (t_headers s) (t_cache s) (t_addresses s) memtrace malloc free (t_stackPtr s).
Definition set_cache (headers : gmap Z TRACE_HEADER) (cache : gmap Z (option (Z * list CALL))) (s : tool) : tool :=
  MkTool (t_data s) (t_cursor s) headers cache (t_addresses s) (t_offMemtrace s) (t_offMalloc s) (t_offFree s) (t_stackPtr s).

(** [Expand] and [ResetLogCursor]. *)
Definition flush (s : tool) : option tool :=
  '(d, addresses) ← Expand frames_fuel (t_headers s) 0 (t_data s) (t_addresses s);
  Some (set_addresses addresses (set_log d 0 s)).

Definition RecordTraceBegin (theader size : Z) (s : tool) : option tool :=
  d ← write_slot (t_cursor s) theader (t_data s); Some (set_log d (t_cursor s + size) s).

(** The calls of the instructions that are executed, with the stack pointer and the
    address of each; an early exit leaves the others out. *)
Definition record_step (frameSize : Z) (s : tool) (x : CALL * (Z * Z)) : option tool :=
  d ← RecordImmediate (t_stackPtr s) x.2.1 (t_cursor s) (_offset x.1 - frameSize) x.2.2 (t_data s); Some (set_log d (t_cursor s) s).

(** An execution of an instrumented trace. *)
Definition run_trace (theader : Z) (calls : list CALL) (executed : list (Z * Z)) (s : tool) : option tool :=
  h ← t_headers s !! theader;
  s ← (if TraceAllocIf (t_cursor s) (_logBytes h) then flush s else Some s);
  s ← RecordTraceBegin theader (_logBytes h) s;
  mfoldl (record_step (_logBytes h)) s (zip calls executed).

(** PIN compiles a trace when it is executed first; [theader] is where [new] puts
    its header. *)
Definition compile_trace (trace : Z) (code : list (list INS)) (theader : Z) (s : tool) : tool :=
  match t_cache s !! trace with
  | Some _ => s
  | None =>
      match InstrumentTrace (t_offMemtrace s) code with
      | None => set_cache (t_headers s) (<[trace := None]> (t_cache s)) s
      | Some (h, calls) => set_cache (<[theader := h]> (t_headers s)) (<[trace := Some (theader, calls)]> (t_cache s)) s
      end
  end.

Definition execute_trace (trace : Z) (executed : list (Z * Z)) (s : tool) : option tool :=
  compiled ← t_cache s !! trace;
  match compiled with None => Some s | Some (theader, calls) => run_trace theader calls executed s end.

(** *** The switches *)

Definition toggleon (s : tool) : tool := set_switches false false false s.
Definition toggleoff (s : tool) : option tool := flush (set_switches true true true s).
Definition toggleonmemtrace (s : tool) : tool := set_switches false (t_offMalloc s) (t_offFree s) s.
Definition toggleoffmemtrace (s : tool) : option tool := flush (set_switches true (t_offMalloc s) (t_offFree s) s).
Definition toggleonmalloc (s : tool) : tool := set_switches (t_offMemtrace s) false (t_offFree s) s.
Definition toggleoffmalloc (s : tool) : tool := set_switches (t_offMemtrace s) true (t_offFree s) s.
Definition toggleonfree (s : tool) : tool := set_switches (t_offMemtrace s) (t_offMalloc s) false s.
Definition toggleofffree (s : tool) : tool := set_switches (t_offMemtrace s) (t_offMalloc s) true s.

(** *** Calls of [malloc] and [free] *)

Definition recordMallocSize (size : Z) (s : tool) : tool :=
  if t_offMalloc s then s else set_addresses (t_addresses s ++ [MallocAddress 0 size]) s.

(** [back] is taken for the entry of [recordMallocSize], whatever it is. *)
Definition set_address (a : Z) (x : Address) : Address :=
  match x with TouchedAddress _ w => TouchedAddress a w | MallocAddress _ size => MallocAddress a size | FreeAddress _ => FreeAddress a end.

Definition recordMallocAddress (address : Z) (s : tool) : option tool :=
  if t_offMalloc s then Some s
  else x ← last (t_addresses s); Some (set_addresses (removelast (t_addresses s) ++ [set_address address x]) s).

Definition recordFreeAddress (address : Z) (s : tool) : tool :=
  if t_offFree s then s else set_addresses (t_addresses s ++ [FreeAddress address]) s.

(** [ThreadFini] deletes the log, which expands it. *)
Definition ThreadFini (s : tool) : option tool :=
  '(d, addresses) ← Expand frames_fuel (t_headers s) 0 (t_data s) (t_addresses s); Some (set_addresses addresses s).

(** *** Fetching the list *)

Definition type_of (x : Address) : Z := match x with TouchedAddress _ _ => 0 | MallocAddress _ _ => 1 | FreeAddress _ => 2 end.

(** The size goes through an [int], of which four bytes are copied. *)
Definition numAddress (s : tool) : Z := Z.of_nat (List.length (t_addresses s)) mod 4294967296.

(** The front of the list; [None] for an empty one. *)
Definition nextAddressType (s : tool) : option Z := type_of <$> head (t_addresses s).
Definition storeFront (s : tool) : option (Address * tool) :=
  match t_addresses s with [] => None | x :: rest => Some (x, set_addresses rest s) end.

(** [retrieveAddressesVector], in the program. *)
Fixpoint retrieve_loop (fuel : nat) (addresses : list Address) (s : tool) : option (list Address * tool) :=
  match fuel with
  | O => None
  | S fuel =>
      if decide (numAddress s = 0) then Some (addresses, s)
      else
        type ← nextAddressType s;
        '(curr, s) ← storeFront s;
        if decide (type = 2) then retrieve_loop fuel addresses s else retrieve_loop fuel (addresses ++ [curr]) s
  end.

(** *** The intercepted functions *)

Inductive routine :=
  | MallocEntryExit | FreeEntry | ToggleOn | ToggleOff | ToggleOnMemtrace | ToggleOffMemtrace | ToggleOnMalloc | ToggleOffMalloc
  | ToggleOnFree | ToggleOffFree | StoreAddress | StoreMallocAddress | StoreFreeAddress | NumAddress | NextAddressType.

Definition intercepted : list (string * routine) :=
  [("malloc", MallocEntryExit); ("free", FreeEntry);
   ("startLogPinAll", ToggleOn); ("stopLogPinAll", ToggleOff); ("startLogPinMemtrace", ToggleOnMemtrace);
   ("stopLogPinMemtrace", ToggleOffMemtrace); ("startLogPinMalloc", ToggleOnMalloc); ("stopLogPinMalloc", ToggleOffMalloc);
   ("startLogPinFree", ToggleOnFree); ("stopLogFree", ToggleOffFree); ("retrieveAddress", StoreAddress);
   ("retrieveMallocAddress", StoreMallocAddress); ("retrieveFreeAddress", StoreFreeAddress);
   ("retrieveNumAddresses", NumAddress); ("retrieveNextAddressType", NextAddressType)]%string.

Definition Image (rtn : string) : option routine := snd <$> (snd <$> list_find (λ e : string * routine, e.1 = rtn) intercepted).

(** ** What the log holds *)

Lemma at_slot_insert d o v q : at_slot (<[o := v]> d) q = if decide (o = q) then v else at_slot d q.
Proof. unfold at_slot. case_decide as E; [subst; by rewrite lookup_insert_eq|by rewrite lookup_insert_ne]. Qed.

Lemma slot_ok_spec q : 0 <= q → q < BUFFER_SIZE → (8 | q) → slot_ok q = true.
Proof. intros H0 H1 [k ->]. unfold slot_ok. apply bool_decide_eq_true. unfold sizeof_ADDRINT, BUFFER_SIZE in *. lia. Qed.

(** A header as [InstrumentTrace] makes them: a slot for each of its accesses behind
    the one for the header. *)
Record header_ok (h : TRACE_HEADER) : Prop := {
  ho_bytes : _logBytes h = 8 + 8 * Z.of_nat (List.length (_refs h));
  ho_cmds : _cmds h = replicate (List.length (_refs h)) TCMD_IMMEDIATE;
}.

(** A frame: the address of the header, the header, and the slots of its accesses. *)
Record frame := MkFrame { fr_ptr : Z; fr_header : TRACE_HEADER; fr_vals : list Z }.

Definition headers_ok (headers : gmap Z TRACE_HEADER) : Prop := ∀ p h, headers !! p = Some h → p ≠ 0 ∧ header_ok h.

Record frame_at (headers : gmap Z TRACE_HEADER) (d : gmap Z Z) (q : Z) (f : frame) : Prop := {
  fa_header : headers !! fr_ptr f = Some (fr_header f);
  fa_ptr : at_slot d q = fr_ptr f;
  fa_length : List.length (fr_vals f) = List.length (_refs (fr_header f));
  fa_vals : ∀ j v, fr_vals f !! j = Some v → at_slot d (q + 8 + 8 * Z.of_nat j) = v;
}.

Fixpoint frames_at (headers : gmap Z TRACE_HEADER) (d : gmap Z Z) (q : Z) (fs : list frame) : Prop :=
  match fs with
  | [] => True
  | f :: fs => frame_at headers d q f ∧ frames_at headers d (q + _logBytes (fr_header f)) fs
  end.

Definition frames_bytes (fs : list frame) : Z := foldr (λ f n, _logBytes (fr_header f) + n) 0 fs.

(** From [q] on there is nothing but empty slots and the headers of frames that were
    expanded before, with empty slots behind them. *)
Definition clean_from (headers : gmap Z TRACE_HEADER) (d : gmap Z Z) (q : Z) : Prop :=
  ∀ r, q <= r → (8 | r) → at_slot d r = 0 ∨ ∃ h, headers !! at_slot d r = Some h ∧ r + _logBytes h < BUFFER_SIZE ∧
    ∀ t, r < t < r + _logBytes h → (8 | t) → at_slot d t = 0.

(** The entries a frame becomes. *)
Definition entry_of (rv : REF * Z) : option Address :=
  if decide (rv.2 = 0) then None else Some (TouchedAddress rv.2 (negb (_read rv.1))).
Definition frame_entries (f : frame) : list Address := omap entry_of (zip (_refs (fr_header f)) (fr_vals f)).

Lemma header_size h : header_ok h → 8 <= _logBytes h ∧ (8 | _logBytes h).
Proof. intros [-> _]. split; [lia|]. exists (1 + Z.of_nat (List.length (_refs h))). lia. Qed.

(** Expanding the accesses of a frame gives its entries and empties its slots. *)
Lemma ExpandTrace_spec refs ref vals q d out :
  0 <= q → (8 | q) → q + 8 * Z.of_nat (List.length vals) <= BUFFER_SIZE → (ref + List.length vals = List.length refs)%nat →
  (∀ j v, vals !! j = Some v → at_slot d (q + 8 * Z.of_nat j) = v) →
  ∃ d', ExpandTrace (replicate (List.length vals) TCMD_IMMEDIATE) refs ref q d out =
      Some (d', out ++ omap entry_of (zip (drop ref refs) vals)) ∧
    (∀ r, q <= r < q + 8 * Z.of_nat (List.length vals) → (8 | r) → at_slot d' r = 0) ∧
    ∀ r, ¬ q <= r < q + 8 * Z.of_nat (List.length vals) → at_slot d' r = at_slot d r.
Proof.
  revert ref q d out. induction vals as [|v vals IH]; intros ref q d out Hq H8 Hend Hlen Hv.
  { exists d. rewrite zip_with_nil_r. cbn [omap list_omap]. rewrite app_nil_r. split; [done|]. simpl. split; [lia|done]. }
  cbn [List.length replicate ExpandTrace] in *. unfold read_slot. rewrite slot_ok_spec by (done || lia). cbn [mbind option_bind].
  assert (at_slot d q = v) as Hhead by (rewrite <- (Hv 0%nat v eq_refl); f_equal; lia). rewrite Hhead.
  destruct (lookup_lt_is_Some_2 refs ref) as [r Hr]; [lia|].
  assert (drop ref refs = r :: drop (S ref) refs) as -> by (by apply drop_S).
  assert ((8 | q + 8)) as H8' by (by apply Z.divide_add_r; [|exists 1]).
  assert (∀ d0, (∀ j, at_slot d0 (q + 8 + 8 * Z.of_nat j) = at_slot d (q + 8 + 8 * Z.of_nat j)) →
    ∀ j w, vals !! j = Some w → at_slot d0 (q + 8 + 8 * Z.of_nat j) = w) as Hrest.
  { intros d0 Hd0 j w Hw. rewrite Hd0, <- (Hv (S j) w Hw). f_equal. lia. }
  assert (∀ s, (8 | s) → ¬ q + 8 <= s → q <= s → s = q) as Hfirst by (intros s [k ->] ? ?; destruct H8 as [k' ->]; lia).
  unfold NumLogBytes, sizeof_ADDRINT, EMPTY_SLOT. case_decide as E0; cbn [mbind option_bind].
  - destruct (IH (S ref) (q + 8) d out) as (d' & Hd' & Hin & Hout); [lia|done|lia|lia|by apply Hrest|]. exists d'. rewrite Hd'. split; [|split].
    + rewrite E0. simpl. unfold entry_of at 2. simpl. done.
    + intros s Hs Hs8. destruct (decide (q + 8 <= s)); [apply Hin; [lia|done]|]. rewrite Hout by lia.
      rewrite (Hfirst s) by (done || lia). by rewrite Hhead.
    + intros s Hs. apply Hout. lia.
  - rewrite Hr. cbn [mbind option_bind]. unfold write_slot. rewrite slot_ok_spec by (done || lia). cbn [mbind option_bind].
    destruct (IH (S ref) (q + 8) (<[q := 0]> d) (out ++ [TouchedAddress v (negb (_read r))])) as (d' & Hd' & Hin & Hout); [lia|done|lia|lia| |].
    { apply Hrest. intros j. rewrite at_slot_insert, decide_False by lia. done. }
    exists d'. rewrite Hd'. split; [|split].
    + rewrite <- app_assoc. f_equal. f_equal. f_equal. simpl. unfold entry_of at 2. simpl. rewrite decide_False by done. done.
    + intros s Hs Hs8. destruct (decide (q + 8 <= s)); [apply Hin; [lia|done]|]. rewrite Hout, at_slot_insert by lia.
      by rewrite decide_True by (symmetry; apply Hfirst; done || lia).
    + intros s Hs. rewrite Hout, at_slot_insert by lia. rewrite decide_False by lia. done.
Qed.

Lemma ExpandTrace_empty n refs ref q d out : 0 <= q → (8 | q) → q + 8 * Z.of_nat n <= BUFFER_SIZE →
  (∀ r, q <= r < q + 8 * Z.of_nat n → (8 | r) → at_slot d r = 0) →
  ExpandTrace (replicate n TCMD_IMMEDIATE) refs ref q d out = Some (d, out).
Proof.
  revert ref q. induction n as [|n IH]; intros ref q Hq H8 Hend H0; [done|]. cbn [replicate ExpandTrace].
  unfold read_slot. rewrite slot_ok_spec by (done || lia). cbn [mbind option_bind]. rewrite H0 by (done || lia).
  rewrite decide_True by done. cbn [mbind option_bind NumLogBytes]. unfold sizeof_ADDRINT.
  apply IH; [lia|by apply Z.divide_add_r; [|exists 1]|lia|]. intros r Hr. apply H0. lia.
Qed.

Section log.
  Context (headers : gmap Z TRACE_HEADER) (Hheaders : headers_ok headers).

Lemma frame_at_ext d d' q f : 0 <= _logBytes (fr_header f) → (∀ r, q <= r < q + _logBytes (fr_header f) → at_slot d' r = at_slot d r) →
  frame_at headers d q f → frame_at headers d' q f.
Proof.
  intros _ E [H1 H2 H3 H4]. destruct (Hheaders _ _ H1) as [_ [Hb _]]. rewrite Hb, <- H3 in E.
  split; [done|by rewrite E by lia|done|]. intros j v Hj. rewrite E; [by apply H4|]. apply lookup_lt_Some in Hj. lia.
Qed.

Lemma frames_at_ext d d' q fs : (∀ r, q <= r → at_slot d' r = at_slot d r) → frames_at headers d q fs → frames_at headers d' q fs.
Proof.
  revert q. induction fs as [|f fs IH]; intros q E; [done|]. intros [Hf Hfs].
  destruct (header_size (fr_header f)) as [Hs _]; [by eapply Hheaders, fa_header|].
  split; [eapply frame_at_ext; [lia| |exact Hf]; intros; apply E; lia|]. apply IH; [|done]. intros r Hr. apply E. lia.
Qed.

Lemma clean_from_ext d d' q : (∀ r, q <= r → at_slot d' r = at_slot d r) → clean_from headers d q → clean_from headers d' q.
Proof.
  intros E Hc r Hr H8. rewrite E by done. destruct (Hc r Hr H8) as [?|(h & Hh & Hend & Hb)]; [by left|]. right. exists h.
  split; [done|]. split; [done|]. intros t Ht Ht8. rewrite E by lia. by apply Hb.
Qed.

Lemma clean_from_le d q q' : q <= q' → clean_from headers d q → clean_from headers d q'.
Proof. intros Hle Hc r Hr. apply Hc. lia. Qed.

(** Beyond the frames the walk finds nothing. *)
Lemma Expand_clean fuel q d out : 0 <= q → q < BUFFER_SIZE → (8 | q) → BUFFER_SIZE - q <= 8 * Z.of_nat fuel →
  clean_from headers d q → Expand fuel headers q d out = Some (d, out).
Proof.
  revert q. induction fuel as [|fuel IH]; intros q Hq Hend H8 Hfuel Hc; [lia|]. cbn [Expand]. unfold read_slot.
  rewrite slot_ok_spec by done. cbn [mbind option_bind]. unfold EMPTY_SLOT.
  destruct (Hc q) as [E|(h & Hh & He & Hb)]; [lia|done|by rewrite E, decide_True|].
  destruct (Hheaders _ _ Hh) as [Hne Hok]. rewrite decide_False by done. rewrite Hh. cbn [mbind option_bind].
  destruct (header_size h Hok) as [Hs Hs8]. destruct Hok as [Hbytes Hcmds]. rewrite Hcmds. unfold sizeof_ADDRINT.
  rewrite ExpandTrace_empty; [|lia|by apply Z.divide_add_r; [|exists 1]|lia|intros r Hr; apply Hb; lia]. cbn [mbind option_bind].
  apply IH; [lia|lia|by apply Z.divide_add_r|lia|]. eapply clean_from_le; [|exact Hc]. lia.
Qed.

(** The frames become their entries, in order, and leave a clean log. *)
Lemma Expand_frames fs : ∀ fuel q d out, 0 <= q → q + frames_bytes fs < BUFFER_SIZE → (8 | q) → BUFFER_SIZE - q <= 8 * Z.of_nat fuel →
  frames_at headers d q fs → clean_from headers d (q + frames_bytes fs) →
  ∃ d', Expand fuel headers q d out = Some (d', out ++ concat (frame_entries <$> fs)) ∧ clean_from headers d' q ∧
    ∀ r, r < q → at_slot d' r = at_slot d r.
Proof.
  induction fs as [|f fs IH]; intros fuel q d out Hq Hend H8 Hfuel Hfs Hc.
  { simpl in *. rewrite Z.add_0_r in *. exists d. rewrite Expand_clean by done. by rewrite app_nil_r. }
  destruct Hfs as [Hf Hfs]. destruct (Hheaders _ _ (fa_header _ _ _ _ Hf)) as [Hne Hok].
  destruct (header_size _ Hok) as [Hs Hs8]. cbn [frames_bytes foldr] in *. fold (frames_bytes fs) in *.
  assert (0 <= frames_bytes fs) as Hpos.
  { clear -Hfs Hheaders. revert Hfs. generalize (q + _logBytes (fr_header f)). induction fs as [|g fs IH]; intros p; [done|].
    intros [Hg Hfs]. cbn [frames_bytes foldr]. fold (frames_bytes fs). apply IH in Hfs.
    destruct (header_size (fr_header g)) as [? _]; [by eapply Hheaders, fa_header|]. lia. }
  destruct fuel as [|fuel]; [lia|]. cbn [Expand]. unfold read_slot. rewrite slot_ok_spec by (done || lia). cbn [mbind option_bind].
  rewrite (fa_ptr _ _ _ _ Hf). unfold EMPTY_SLOT. rewrite decide_False by done. rewrite (fa_header _ _ _ _ Hf). cbn [mbind option_bind].
  pose proof (fa_length _ _ _ _ Hf) as Hlen. destruct Hok as [Hbytes Hcmds]. rewrite Hcmds, <- Hlen. unfold sizeof_ADDRINT.
  destruct (ExpandTrace_spec (_refs (fr_header f)) 0 (fr_vals f) (q + 8) d out) as (d1 & -> & Hin & Hout);
    [lia|by apply Z.divide_add_r; [|exists 1]|lia|lia|apply (fa_vals _ _ _ _ Hf)|]. cbn [mbind option_bind]. rewrite drop_0.
  destruct (IH fuel (q + _logBytes (fr_header f)) d1 (out ++ frame_entries f)) as (d' & Hd' & Hclean & Hbelow);
    [lia|lia|by apply Z.divide_add_r|lia| | |].
  { eapply frames_at_ext; [|exact Hfs]. intros r Hr. apply Hout. lia. }
  { eapply clean_from_ext; [|rewrite <- Z.add_assoc; exact Hc]. intros r Hr. apply Hout. lia. }
  exists d'. split; [|split].
  - unfold frame_entries in Hd' at 1. rewrite Hd'. by rewrite fmap_cons, <- app_assoc.
  - intros r Hr Hr8. destruct (decide (q + _logBytes (fr_header f) <= r)) as [Hge|Hlt]; [by apply Hclean|].
    destruct (decide (q + 8 <= r)) as [Hge8|Hlt8]; [left; rewrite Hbelow by lia; apply Hin; [lia|done]|].
    assert (r = q) as -> by (destruct Hr8 as [k ->]; destruct H8 as [k' ->]; lia). right. exists (fr_header f).
    assert (at_slot d' q = fr_ptr f) as -> by (rewrite Hbelow, Hout by lia; apply Hf). split; [apply Hf|]. split; [lia|].
    intros t Ht Ht8. rewrite Hbelow by lia. apply Hin; [|done]. destruct Ht8 as [k ->]; destruct H8 as [k' ->]; lia.
  - intros r Hr. rewrite Hbelow, Hout by lia. done.
Qed.
End log.

(** ** The instrumentation of a trace *)

(** The accesses of an instruction that are recorded, in the order of the calls. *)
Definition accesses_of (ins : INS) : list IARG_TYPE :=
  if INS_IsStackRead ins || INS_IsStackWrite ins then []
  else (if INS_IsMemoryRead ins && INS_IsStandardMemop ins then [IARG_MEMORYREAD_EA] else []) ++
    (if INS_IsMemoryWrite ins && INS_IsStandardMemop ins then [IARG_MEMORYWRITE_EA] else []) ++
    (if INS_HasMemoryRead2 ins && INS_IsStandardMemop ins then [IARG_MEMORYREAD2_EA] else []).

Definition ref_of (ins : INS) (itype : IARG_TYPE) : REF := MkREF (INS_Address ins) (negb (bool_decide (itype = IARG_MEMORYWRITE_EA))).
Definition ins_refs (ins : INS) : list REF := ref_of ins <$> accesses_of ins.
Definition trace_refs (trace : list (list INS)) : list REF := concat (ins_refs <$> concat trace).

(** A scratch header with the accesses [refs]. *)
Record scratch_ok (s : SCRATCH_TRACE_HEADER) (refs : list REF) : Prop := {
  sc_refs : s_refs s = refs;
  sc_offset : _frameOffset s = 8 + 8 * Z.of_nat (List.length refs);
  sc_cmds : s_cmds s = replicate (List.length refs) TCMD_IMMEDIATE;
  sc_calls : List.length (s_calls s) = List.length refs ∧
    ∀ j c, s_calls s !! j = Some c → _offset c = 8 + 8 * Z.of_nat j;
}.

Lemma RecordLogImmediate_ok ins itype s refs : scratch_ok s refs → scratch_ok (RecordLogImmediate ins itype s) (refs ++ [ref_of ins itype]).
Proof.
  intros [H1 H2 H3 [H4 H5]]. split; cbn [RecordLogImmediate _frameOffset s_cmds s_refs s_calls]; rewrite ?length_app.
  - by rewrite H1.
  - rewrite H2. unfold sizeof_ADDRINT. simpl. lia.
  - rewrite H3, replicate_add. done.
  - rewrite H4. split; [done|]. intros j c Hj. apply lookup_app_Some in Hj as [Hj|[Hge Hj]]; [by apply H5|].
    apply list_lookup_singleton_Some in Hj as [Hj <-]. cbn [_offset]. rewrite H2. f_equal. lia.
Qed.

Lemma InstrumentINS_ok s refs ins : scratch_ok s refs → scratch_ok (InstrumentINS s ins) (refs ++ ins_refs ins).
Proof.
  intros H. unfold InstrumentINS, ins_refs, accesses_of. cbv zeta.
  destruct (INS_IsStackRead ins || INS_IsStackWrite ins); [by rewrite app_nil_r|].
  rewrite !fmap_app, !app_assoc.
  destruct (INS_IsMemoryRead ins && INS_IsStandardMemop ins), (INS_IsMemoryWrite ins && INS_IsStandardMemop ins),
    (INS_HasMemoryRead2 ins && INS_IsStandardMemop ins); cbn [fmap list_fmap]; rewrite ?app_nil_r; by repeat apply RecordLogImmediate_ok.
Qed.

Lemma InstrumentTrace_spec trace :
  InstrumentTrace false trace = match trace_refs trace with
    | [] => None
    | _ => let s := foldl InstrumentBBL new_SCRATCH_TRACE_HEADER trace in Some (new_TRACE_HEADER s, s_calls s)
    end ∧ scratch_ok (foldl InstrumentBBL new_SCRATCH_TRACE_HEADER trace) (trace_refs trace).
Proof.
  assert (scratch_ok (foldl InstrumentBBL new_SCRATCH_TRACE_HEADER trace) (trace_refs trace)) as Hok.
  { assert (∀ l s refs, scratch_ok s refs → scratch_ok (foldl InstrumentINS s l) (refs ++ concat (ins_refs <$> l))) as Hbbl.
    { induction l as [|ins l IH]; intros s refs H; [by rewrite app_nil_r|]. cbn [foldl]. rewrite fmap_cons. cbn [concat]. rewrite app_assoc.
      by apply IH, InstrumentINS_ok. }
    assert (∀ l s refs, scratch_ok s refs → scratch_ok (foldl InstrumentBBL s l) (refs ++ concat (ins_refs <$> concat l))) as Htr.
    { induction l as [|bbl l IH]; intros s refs H; [by rewrite app_nil_r|]. cbn [foldl concat]. rewrite fmap_app, concat_app, app_assoc.
      by apply IH, Hbbl. }
    apply (Htr trace new_SCRATCH_TRACE_HEADER []). by split. }
  split; [|done]. unfold InstrumentTrace. cbv zeta. rewrite (sc_cmds _ _ Hok). by destruct (trace_refs trace).
Qed.

Lemma new_TRACE_HEADER_ok s refs : scratch_ok s refs → header_ok (new_TRACE_HEADER s) ∧ _refs (new_TRACE_HEADER s) = refs.
Proof. intros [H1 H2 H3 _]. split; [split; simpl; by rewrite H1|done]. Qed.

(** ** The steps of a thread *)

Record log_inv (s : tool) (fs : list frame) : Prop := {
  li_headers : headers_ok (t_headers s);
  li_cursor : t_cursor s = frames_bytes fs;
  li_room : 0 <= t_cursor s < BUFFER_SIZE;
  li_aligned : (8 | t_cursor s);
  li_frames : frames_at (t_headers s) (t_data s) 0 fs;
  li_clean : clean_from (t_headers s) (t_data s) (t_cursor s);
}.

Lemma flush_spec s fs : log_inv s fs → ∃ d, flush s = Some (set_addresses (t_addresses s ++ concat (frame_entries <$> fs)) (set_log d 0 s)) ∧
  log_inv (set_addresses (t_addresses s ++ concat (frame_entries <$> fs)) (set_log d 0 s)) [].
Proof.
  intros [H1 H2 H3 H4 H5 H6]. unfold flush.
  destruct (Expand_frames (t_headers s) H1 fs frames_fuel 0 (t_data s) (t_addresses s)) as (d & -> & Hclean & _);
    [done|lia|by exists 0|vm_compute; done|done|by rewrite H2 in H6|].
  exists d. split; [done|]. split; cbn [set_addresses set_log t_headers t_cursor t_data]; try done. by exists 0.
Qed.

Lemma frames_bytes_app fs fs' : frames_bytes (fs ++ fs') = frames_bytes fs + frames_bytes fs'.
Proof. induction fs as [|f fs IH]; [done|]. cbn [app frames_bytes foldr]. fold (frames_bytes (fs ++ fs')) (frames_bytes fs). lia. Qed.

Lemma frames_at_app headers d q fs fs' : frames_at headers d q (fs ++ fs') ↔ frames_at headers d q fs ∧ frames_at headers d (q + frames_bytes fs) fs'.
Proof.
  revert q. induction fs as [|f fs IH]; intros q; cbn [app frames_at frames_bytes foldr]; [rewrite Z.add_0_r; tauto|].
  rewrite IH. fold (frames_bytes fs). rewrite Z.add_assoc. tauto.
Qed.

(** What a slot of a new frame holds before it is written. *)
Definition stale (headers : gmap Z TRACE_HEADER) (v : Z) : Prop := v = 0 ∨ is_Some (headers !! v).

(** The calls of the executed instructions fill the slots of the frame at [q]. *)
Lemma record_steps calls executed j q size s : size = 8 + 8 * Z.of_nat (j + List.length calls) → t_cursor s = q + size →
  0 <= q → q + size <= BUFFER_SIZE → (8 | q) → (List.length executed <= List.length calls)%nat →
  (∀ k c, calls !! k = Some c → _offset c = 8 + 8 * Z.of_nat (j + k)) →
  ∃ d, mfoldl (record_step size) s (zip calls executed) = Some (set_log d (t_cursor s) s) ∧
    (∀ k x, executed !! k = Some x → at_slot d (q + 8 + 8 * Z.of_nat (j + k)) = recorded_value (t_stackPtr s) x.1 x.2) ∧
    ∀ r, ¬ q + 8 + 8 * Z.of_nat j <= r < q + 8 + 8 * Z.of_nat (j + List.length executed) → at_slot d r = at_slot (t_data s) r.
Proof.
  revert calls j s. induction executed as [|x executed IH]; intros calls j s Hsize Hcur Hq Hend H8 Hlen Hoff.
  { rewrite zip_with_nil_r. exists (t_data s). split; [by destruct s|]. split; [by intros k x|]. done. }
  destruct calls as [|c calls]; [simpl in Hlen; lia|]. cbn [zip_with mfoldl].
  assert (record_step size s (c, x) = d ← write_slot (t_cursor s + (_offset c - size)) (recorded_value (t_stackPtr s) x.1 x.2) (t_data s);
    Some (set_log d (t_cursor s) s)) as -> by done. unfold write_slot.
  rewrite (Hoff 0%nat c eq_refl), Hcur. assert (q + size + (8 + 8 * Z.of_nat (j + 0) - size) = q + 8 + 8 * Z.of_nat j) as -> by lia.
  cbn [List.length] in *. rewrite slot_ok_spec by (first [lia|destruct H8 as [k ->]; exists (k + 1 + Z.of_nat j); lia]). cbn [mbind option_bind].
  set (v := recorded_value (t_stackPtr s) x.1 x.2).
  destruct (IH calls (S j) (set_log (<[q + 8 + 8 * Z.of_nat j := v]> (t_data s)) (q + size) s)) as (d & Hd & Hin & Hout); try done; try lia.
  { intros k c' Hk. rewrite (Hoff (S k) c' Hk). lia. }
  exists d. split; [rewrite Hd; by destruct s|]. cbn [set_log t_data t_stackPtr] in *. split.
  - intros [|k] y Hy; [|rewrite <- (Hin k y Hy); f_equal; lia]. injection Hy as <-. rewrite Hout, at_slot_insert, decide_True by lia. done.
  - intros r Hr. rewrite Hout, at_slot_insert by lia. rewrite decide_False by lia. done.
Qed.

Record calls_ok (h : TRACE_HEADER) (calls : list CALL) : Prop := {
  ca_length : List.length calls = List.length (_refs h);
  ca_offset : ∀ k c, calls !! k = Some c → _offset c = 8 + 8 * Z.of_nat k;
}.

Lemma frames_at_below headers d d' q fs : headers_ok headers → (∀ r, q <= r < q + frames_bytes fs → at_slot d' r = at_slot d r) →
  frames_at headers d q fs → 0 <= frames_bytes fs ∧ frames_at headers d' q fs.
Proof.
  intros Hh. revert q. induction fs as [|f fs IH]; intros q E; [done|]. intros [Hf Hfs]. cbn [frames_bytes foldr frames_at] in *.
  fold (frames_bytes fs) in *. destruct (header_size (fr_header f)) as [Hs _]; [by eapply Hh, fa_header|].
  assert (0 <= frames_bytes fs) as Hpos.
  { clear -Hfs Hh. revert Hfs. generalize (q + _logBytes (fr_header f)). induction fs as [|g fs IH]; intros p; [done|].
    intros [Hg Hfs]. cbn [frames_bytes foldr]. fold (frames_bytes fs). apply IH in Hfs.
    destruct (header_size (fr_header g)) as [? _]; [by eapply Hh, fa_header|]. lia. }
  destruct (IH (q + _logBytes (fr_header f))) as [_ Hfs']; [intros r Hr; apply E; lia|done|].
  split; [lia|]. split; [|done]. eapply frame_at_ext; [done|lia| |exact Hf]. intros r Hr. apply E. lia.
Qed.

(** Beginning a trace and recording what it executes adds a frame. *)
Lemma frame_added s fs theader h calls executed : log_inv s fs → t_headers s !! theader = Some h → calls_ok h calls →
  (List.length executed <= List.length calls)%nat → t_cursor s + _logBytes h < BUFFER_SIZE →
  ∃ d rest, (s' ← RecordTraceBegin theader (_logBytes h) s; mfoldl (record_step (_logBytes h)) s' (zip calls executed)) =
      Some (set_log d (t_cursor s + _logBytes h) s) ∧
    log_inv (set_log d (t_cursor s + _logBytes h) s)
      (fs ++ [MkFrame theader h (((λ x, recorded_value (t_stackPtr s) x.1 x.2) <$> executed) ++ rest)]) ∧
    (List.length executed + List.length rest = List.length calls)%nat ∧ Forall (stale (t_headers s)) rest.
Proof.
  intros [H1 H2 H3 H4 H5 H6] Hh [Hlen Hoff] Hex Hroom. destruct (H1 _ _ Hh) as [Hne Hok]. destruct (header_size h Hok) as [Hs Hs8].
  pose proof (ho_bytes _ Hok) as Hbytes. unfold RecordTraceBegin, write_slot. rewrite slot_ok_spec by (done || lia). cbn [mbind option_bind].
  set (q := t_cursor s) in *. set (s1 := set_log (<[q := theader]> (t_data s)) (q + _logBytes h) s).
  destruct (record_steps calls executed 0 q (_logBytes h) s1) as (d & Hd & Hin & Hout); try done; try lia.
  exists d. exists ((λ k, at_slot (t_data s) (q + 8 + 8 * Z.of_nat k)) <$> seq (List.length executed) (List.length calls - List.length executed)).
  split; [by rewrite Hd|]. rewrite length_fmap, length_seq.
  assert (∀ r, r < q ∨ q + 8 + 8 * Z.of_nat (List.length executed) <= r → at_slot d r = at_slot (t_data s) r) as Hother.
  { intros r Hr. rewrite Hout by lia. unfold s1. cbn [set_log t_data]. rewrite at_slot_insert, decide_False by lia. done. }
  assert (at_slot d q = theader) as Hptr.
  { rewrite Hout by lia. unfold s1. cbn [set_log t_data]. by rewrite at_slot_insert, decide_True. }
  split; [|split; [lia|]].
  - split; cbn [set_log t_headers t_cursor t_data]; try done.
    + rewrite frames_bytes_app. cbn [frames_bytes foldr fr_header]. lia.
    + lia.
    + by apply Z.divide_add_r.
    + apply frames_at_app. rewrite <- H2. split.
      * eapply (frames_at_below _ (t_data s)); [done| |done]. intros r Hr. apply Hother. lia.
      * split; [|done]. rewrite Z.add_0_l. split; cbn [fr_ptr fr_header fr_vals]; [done|done| |].
        -- rewrite length_app, !length_fmap, length_seq. lia.
        -- intros j v Hj. apply lookup_app_Some in Hj as [Hj|[Hge Hj]].
           ++ apply list_lookup_fmap_Some in Hj as (x & -> & Hx). pose proof (Hin j x Hx) as E.
              unfold s1 in E. cbn [set_log t_stackPtr] in E. rewrite <- E. f_equal; lia.
           ++ rewrite length_fmap in Hge, Hj. apply list_lookup_fmap_Some in Hj as (k & -> & Hk).
              apply lookup_seq in Hk as [-> Hk]. rewrite Hother by lia. f_equal. lia.
    + eapply (clean_from_ext _ (t_data s)); [intros r Hr; apply Hother; lia|]. eapply clean_from_le; [|exact H6]. lia.
  - apply Forall_fmap, Forall_forall. intros k Hk. unfold stale. destruct (H6 (q + 8 + 8 * Z.of_nat k)) as [?|(h' & ? & _)];
      [lia|destruct H4 as [m ->]; exists (m + 1 + Z.of_nat k); lia|by left|right; by exists h'].
Qed.

(** An execution either finds room behind the frames or expands them first. *)
Definition advance (cursor n : Z) : Z := if decide (n = 0) then cursor else if TraceAllocIf cursor n then n else cursor + n.

Lemma run_trace_spec s fs theader h calls executed : log_inv s fs → t_headers s !! theader = Some h → calls_ok h calls →
  (List.length executed <= List.length calls)%nat → _logBytes h < BUFFER_SIZE →
  ∃ d l pre rest, run_trace theader calls executed s = Some (set_log d (advance (t_cursor s) (_logBytes h)) (set_addresses l s)) ∧
    log_inv (set_log d (advance (t_cursor s) (_logBytes h)) (set_addresses l s))
      (pre ++ [MkFrame theader h (((λ x, recorded_value (t_stackPtr s) x.1 x.2) <$> executed) ++ rest)]) ∧
    (if TraceAllocIf (t_cursor s) (_logBytes h) then pre = [] ∧ l = t_addresses s ++ concat (frame_entries <$> fs)
     else pre = fs ∧ l = t_addresses s) ∧
    (List.length executed + List.length rest = List.length calls)%nat ∧ Forall (stale (t_headers s)) rest.
Proof.
  intros Hinv Hh Hca Hex Hroom. unfold run_trace, advance. rewrite Hh. cbn [mbind option_bind].
  destruct (li_headers _ _ Hinv _ _ Hh) as [_ Hok]. destruct (header_size h Hok) as [Hs _]. rewrite decide_False by lia.
  unfold TraceAllocIf. case_bool_decide as Hfull.
  - destruct (flush_spec s fs Hinv) as (d0 & -> & Hinv0). cbn [mbind option_bind].
    destruct (frame_added _ [] theader h calls executed Hinv0 Hh Hca Hex) as (d & rest & -> & Hinv1 & Hr1 & Hr2); [simpl; lia|].
    eexists d, _, [], rest. split; [reflexivity|]. split; [exact Hinv1|]. split; [done|done].
  - cbn [mbind option_bind]. destruct (frame_added _ fs theader h calls executed Hinv Hh Hca Hex) as (d & rest & -> & Hinv1 & Hr1 & Hr2); [lia|].
    exists d, (t_addresses s), fs, rest.
    assert (set_addresses (t_addresses s) s = s) as -> by (by destruct s). split; [done|]. split; [done|]. split; [done|done].
Qed.

(** ** Sessions

    Between [startLogPinAll] and [stopLogPinAll] the thread executes traces, some of
    them inside a call of [malloc], and calls [malloc] and [free]. *)
Record exec := MkExec { e_trace : Z; e_executed : list (Z * Z) }.

Inductive event := Exec (e : exec) | Malloc (size : Z) (inner : list exec) (address : Z) | Free (address : Z).

Definition execs (es : list event) : list exec :=
  x ← es; match x with Exec e => [e] | Malloc _ inner _ => inner | Free _ => [] end.
Definition calls_of (es : list event) : list Address :=
  x ← es; match x with Exec _ => [] | Malloc size _ a => [MallocAddress a size] | Free a => [FreeAddress a] end.

Definition is_touched (x : Address) : bool := match x with TouchedAddress _ _ => true | _ => false end.

Section session.
  Context (program : Z → list (list INS)) (new_at : gmap Z TRACE_HEADER → Z).

Definition exec_step (s : tool) (e : exec) : option tool :=
  execute_trace (e_trace e) (e_executed e) (compile_trace (e_trace e) (program (e_trace e)) (new_at (t_headers s)) s).

Definition tool_step (s : tool) (x : event) : option tool :=
  match x with
  | Exec e => exec_step s e
  | Malloc size inner address => s ← mfoldl exec_step (recordMallocSize size s) inner; recordMallocAddress address s
  | Free address => Some (recordFreeAddress address s)
  end.

Definition session (es : list event) (s : tool) : option tool :=
  s ← mfoldl tool_step (toggleon s) es; toggleoff s.

(** What is recorded of a trace, which depends on the traces compiled so far. *)
Definition traced (cache : gmap Z (option (Z * list CALL))) (t : Z) : list REF :=
  match cache !! t with Some None => [] | _ => trace_refs (program t) end.
Definition log_size (cache : gmap Z (option (Z * list CALL))) (t : Z) : Z :=
  match traced cache t with [] => 0 | refs => 8 + 8 * Z.of_nat (List.length refs) end.

Definition exec_entries (cache : gmap Z (option (Z * list CALL))) (stackPtr : Z) (e : exec) : list Address :=
  omap entry_of (zip (traced cache (e_trace e)) ((λ x, recorded_value stackPtr x.1 x.2) <$> e_executed e)).

(** An execution without an early exit. *)
Definition complete (cache : gmap Z (option (Z * list CALL))) (e : exec) : bool :=
  bool_decide (List.length (traced cache (e_trace e)) <= List.length (e_executed e))%nat.

(** The log is not expanded between the entry and the exit of a [malloc]. *)
Definition logged (cache : gmap Z (option (Z * list CALL))) (l : list exec) : Z := foldr (λ e n, log_size cache (e_trace e) + n) 0 l.

Fixpoint calls_fit (cache : gmap Z (option (Z * list CALL))) (cursor : Z) (es : list event) : bool :=
  match es with
  | [] => true
  | Exec e :: es => calls_fit cache (advance cursor (log_size cache (e_trace e))) es
  | Malloc _ inner _ :: es => bool_decide (cursor + logged cache inner < BUFFER_SIZE) && calls_fit cache (cursor + logged cache inner) es
  | Free _ :: es => calls_fit cache cursor es
  end.

(** The traces compiled so far are instrumented as their code says. *)
Record cache_ok (headers : gmap Z TRACE_HEADER) (cache : gmap Z (option (Z * list CALL))) : Prop := {
  co_headers : headers_ok headers;
  co_code : ∀ t p calls, cache !! t = Some (Some (p, calls)) → ∃ h, headers !! p = Some h ∧ _refs h = trace_refs (program t) ∧
    _refs h ≠ [] ∧ calls_ok h calls;
}.

(** [cache'] is [cache] after some of the traces were compiled with the tool on. *)
Definition later (cache cache' : gmap Z (option (Z * list CALL))) : Prop :=
  ∀ t, (cache !! t = Some None → cache' !! t = Some None) ∧
    (cache' !! t = Some None → cache !! t = Some None ∨ trace_refs (program t) = []).

(** What is delivered of some executions: the entries of each, and after an early exit
    entries that hold addresses of headers instead of data. *)
Definition noise (headers : gmap Z TRACE_HEADER) (l : list Address) : Prop :=
  ∀ x, x ∈ l → ∃ p w, x = TouchedAddress p w ∧ is_Some (headers !! p).

Definition delivered (headers : gmap Z TRACE_HEADER) (cache : gmap Z (option (Z * list CALL))) (stackPtr : Z) (e : exec) (l : list Address) : Prop :=
  ∃ rest, l = exec_entries cache stackPtr e ++ rest ∧ noise headers rest ∧ (complete cache e = true → rest = []).

(** The heap returns fresh objects, and every trace fits in the log. *)
Context (new_at_fresh : ∀ headers, new_at headers ≠ 0 ∧ headers !! new_at headers = None).
Context (trace_fits : ∀ t, 8 + 8 * Z.of_nat (List.length (trace_refs (program t))) < BUFFER_SIZE).

Definition pending (fs : list frame) : list Address := concat (frame_entries <$> fs).

(** The thread during a session that began with the traces [cache]. *)
Record running (cache : gmap Z (option (Z * list CALL))) (s : tool) (fs : list frame) : Prop := {
  ru_log : log_inv s fs;
  ru_cache : cache_ok (t_headers s) (t_cache s);
  ru_later : later cache (t_cache s);
  ru_memtrace : t_offMemtrace s = false;
  ru_malloc : t_offMalloc s = false;
  ru_free : t_offFree s = false;
}.

Lemma log_inv_headers headers cache s fs : t_headers s ⊆ headers → headers_ok headers → log_inv s fs → log_inv (set_cache headers cache s) fs.
Proof.
  intros Hsub Hok [H1 H2 H3 H4 H5 H6]. split; cbn [set_cache t_headers t_cursor t_data]; try done.
  - clear -Hsub H5. revert H5. generalize 0. induction fs as [|f fs IH]; intros q; [done|]. intros [[G1 G2 G3 G4] Hfs].
    split; [|by apply IH]. split; [|done..]. by eapply lookup_weaken.
  - intros r Hr H8. destruct (H6 r Hr H8) as [?|(h & Hh & Hrest)]; [by left|]. right. exists h. split; [by eapply lookup_weaken|done].
Qed.

(** After compilation the cache says what is recorded. *)
Lemma compile_trace_spec cache s fs t : running cache s fs →
  let s' := compile_trace t (program t) (new_at (t_headers s)) s in
  running cache s' fs ∧ t_headers s ⊆ t_headers s' ∧ s' = set_cache (t_headers s') (t_cache s') s ∧
  ((t_cache s' !! t = Some None ∧ traced cache t = []) ∨
   ∃ p h calls, t_cache s' !! t = Some (Some (p, calls)) ∧ t_headers s' !! p = Some h ∧ _refs h = traced cache t ∧ _refs h ≠ [] ∧ calls_ok h calls).
Proof.
  intros [Hlog Hcache Hlater Hon Hm Hf]. cbv zeta. unfold compile_trace, traced. destruct (Hlater t) as [Hl1 Hl2].
  destruct (t_cache s !! t) as [compiled|] eqn:Hc.
  { split; [done|]. split; [done|]. split; [by destruct s|]. rewrite Hc.
    destruct compiled as [[p calls]|].
    - right. destruct (co_code _ _ Hcache _ _ _ Hc) as (h & Hh & Hrefs & Hne & Hca). exists p, h, calls.
      split; [done|]. split; [done|]. split; [|done]. rewrite Hrefs. destruct (cache !! t) as [[?|]|]; try done. by specialize (Hl1 eq_refl).
    - left. split; [done|]. destruct (Hl2 eq_refl) as [->|E]; [done|]. by destruct (cache !! t) as [[?|]|]. }
  assert (cache !! t ≠ Some None) as Hnot by (intros E; by specialize (Hl1 E)).
  rewrite Hon. destruct (InstrumentTrace_spec (program t)) as [-> Hsc].
  destruct (new_TRACE_HEADER_ok _ _ Hsc) as [Hok Hrefs]. destruct (sc_calls _ _ Hsc) as [Hn Hoff].
  destruct (new_at_fresh (t_headers s)) as [Hne Hfresh].
  assert (match cache !! t with Some None => [] | _ => trace_refs (program t) end = trace_refs (program t)) as -> by (by destruct (cache !! t) as [[?|]|]).
  destruct (trace_refs (program t)) as [|r refs] eqn:Er; cbv zeta.
  - cbn [set_cache t_headers t_cache]. rewrite lookup_insert_eq. split; [|split; [done|split; [done|by left]]]. split; try done.
    + apply log_inv_headers; [done| |done]. apply Hcache.
    + split; [apply Hcache|]. cbn [set_cache t_headers t_cache]. intros t' p calls. rewrite lookup_insert_Some. intros [[_ [=]]|[_ H]]. by eapply co_code.
    + intros t'. cbn [set_cache t_cache]. destruct (decide (t = t')) as [<-|Hd]; [rewrite lookup_insert_eq|rewrite lookup_insert_ne by done; apply Hlater].
      split; [done|]. rewrite Er. by right.
  - set (p := new_at (t_headers s)) in *. set (h := new_TRACE_HEADER (foldl InstrumentBBL new_SCRATCH_TRACE_HEADER (program t))) in *.
    assert (t_headers s ⊆ <[p := h]> (t_headers s)) as Hsub by (by apply insert_subseteq).
    assert (headers_ok (<[p := h]> (t_headers s))) as Hoks.
    { intros p' h'. rewrite lookup_insert_Some. intros [[<- <-]|[_ H]]; [done|]. by apply (co_headers _ _ Hcache). }
    assert (calls_ok h (s_calls (foldl InstrumentBBL new_SCRATCH_TRACE_HEADER (program t)))) as Hca by (split; [by rewrite Hn, Hrefs|done]).
    cbn [set_cache t_headers t_cache]. rewrite lookup_insert_eq. split; [|split; [done|split; [done|right]]].
    + split; try done.
      * by apply log_inv_headers.
      * split; [done|]. cbn [set_cache t_headers t_cache]. intros t' p' calls. rewrite lookup_insert_Some. intros [[<- [= <- <-]]|[_ H]].
        -- exists h. rewrite lookup_insert_eq, Er, Hrefs. done.
        -- destruct (co_code _ _ Hcache _ _ _ H) as (h' & Hh' & ?). exists h'. split; [by eapply lookup_weaken|done].
      * intros t'. cbn [set_cache t_cache]. destruct (decide (t = t')) as [<-|Hd]; [rewrite lookup_insert_eq|rewrite lookup_insert_ne by done; apply Hlater].
        done.
    + exists p, h, (s_calls (foldl InstrumentBBL new_SCRATCH_TRACE_HEADER (program t))). rewrite lookup_insert_eq, Hrefs. done.
Qed.
Lemma frame_entries_touched fs x : x ∈ pending fs → is_touched x = true.
Proof.
  unfold pending. rewrite list_elem_of_In, in_concat. intros (l & Hl & Hx). apply list_elem_of_In, list_elem_of_fmap in Hl as (f & -> & _).
  apply list_elem_of_In, list_elem_of_omap in Hx as ([r v] & _ & E). unfold entry_of in E. case_decide; [done|]. by injection E as <-.
Qed.

Lemma noise_weaken headers headers' l : headers ⊆ headers' → noise headers l → noise headers' l.
Proof. intros Hsub H x Hx. destruct (H x Hx) as (p & w & -> & [h Hh]). exists p, w. split; [done|]. exists h. by eapply lookup_weaken. Qed.

Lemma delivered_weaken headers headers' cache stackPtr e l :
  headers ⊆ headers' → delivered headers cache stackPtr e l → delivered headers' cache stackPtr e l.
Proof. intros Hsub (rest & -> & Hn & Hc). exists rest. split; [done|]. split; [by eapply noise_weaken|done]. Qed.

Lemma zip_app_r {A B} (l : list A) (k1 k2 : list B) : zip l (k1 ++ k2) = zip l k1 ++ zip (drop (List.length k1) l) k2.
Proof. revert l. induction k1 as [|b k1 IH]; intros [|a l]; [done|done|done|]. simpl. by rewrite IH. Qed.

(** What is left in the slots of an early exit. *)
Lemma rest_noise headers refs rest : Forall (stale headers) rest → noise headers (omap entry_of (zip refs rest)).
Proof.
  intros H x Hx. apply list_elem_of_omap in Hx as ([r v] & Hin & E). apply elem_of_zip_r in Hin.
  rewrite Forall_forall in H. destruct (H v Hin) as [->|Hv]; [by unfold entry_of in E; case_decide|].
  unfold entry_of in E. cbn [snd fst] in E. case_decide; [done|]. injection E as <-. by exists v, (negb (_read r)).
Qed.

(** One execution: what it records is delivered at once or later, behind what was
    pending. *)
Lemma exec_step_spec cache s fs e : running cache s fs → (List.length (e_executed e) <= List.length (trace_refs (program (e_trace e))))%nat →
  let n := log_size cache (e_trace e) in
  ∃ s' fs' out l, exec_step s e = Some s' ∧ running cache s' fs' ∧ t_cursor s' = advance (t_cursor s) n ∧
    t_headers s ⊆ t_headers s' ∧ t_stackPtr s' = t_stackPtr s ∧ t_addresses s' = t_addresses s ++ out ∧
    out ++ pending fs' = pending fs ++ l ∧ delivered (t_headers s') cache (t_stackPtr s) e l ∧
    (t_cursor s + n < BUFFER_SIZE → out = []) ∧ ∀ x, x ∈ out → x ∈ pending fs.
Proof.
  intros Hrun Hex n. destruct (compile_trace_spec cache s fs (e_trace e) Hrun) as (Hrun' & Hsub & Heq & Hcase).
  unfold exec_step. set (s1 := compile_trace _ _ _ _) in *.
  assert (t_cursor s1 = t_cursor s ∧ t_addresses s1 = t_addresses s ∧ t_stackPtr s1 = t_stackPtr s) as (Ec & Ea & Es) by (by rewrite Heq).
  unfold execute_trace, n, log_size, delivered, exec_entries, complete.
  destruct Hcase as [(-> & ->)|(p & h & calls & -> & Hh & Hrefs & Hne & Hca)]; cbn [mbind option_bind].
  { exists s1, fs, [], []. split; [done|]. split; [done|]. split; [done|]. split; [done|]. split; [done|].
    split; [by rewrite app_nil_r|]. split; [by rewrite app_nil_r|].
    split; [exists []; split; [done|split; [by intros x Hx%elem_of_nil|done]]|]. split; [done|by intros x Hx%elem_of_nil]. }
  assert (traced cache (e_trace e) = trace_refs (program (e_trace e))) as Htr.
  { unfold traced in *. destruct (cache !! e_trace e) as [[?|]|]; [done| |done]. by rewrite Hrefs in Hne. }
  destruct (li_headers _ _ (ru_log _ _ _ Hrun') _ _ Hh) as [_ [Hbytes _]].
  destruct (traced cache (e_trace e)) as [|r refs] eqn:Er; [by rewrite Hrefs in Hne|]. rewrite <- Hrefs.
  destruct (run_trace_spec s1 fs p h calls (e_executed e) (ru_log _ _ _ Hrun') Hh Hca) as (d & l & pre & rest & -> & Hinv & Hpre & Hlen & Hrest).
  { destruct Hca as [-> _]. by rewrite Hrefs, Htr. }
  { rewrite Hbytes, Hrefs, Htr. apply trace_fits. }
  rewrite <- Hbytes, <- Ec. set (f := MkFrame _ _ _) in *.
  eexists _, (pre ++ [f]), (if TraceAllocIf (t_cursor s1) (_logBytes h) then pending fs else []), (frame_entries f).
  split; [reflexivity|]. destruct Hrun' as [_ [R1 R2] R3 R4 R5 R6]. split; [by split|]. split; [done|]. split; [done|]. split; [done|].
  cbn [set_log set_addresses t_addresses t_headers]. rewrite <- Ea, <- Es.
  assert (pending (pre ++ [f]) = pending pre ++ frame_entries f) as Hp.
  { unfold pending. rewrite fmap_app, concat_app. cbn [fmap list_fmap concat]. by rewrite app_nil_r. }
  split; [|split; [|split; [|split]]].
  - destruct (TraceAllocIf _ _); destruct Hpre as [_ ->]; by rewrite ?app_nil_r.
  - rewrite Hp. by destruct (TraceAllocIf _ _); destruct Hpre as [-> _].
  - exists (omap entry_of (zip (drop (List.length (e_executed e)) (_refs h)) rest)). split; [|split; [by apply rest_noise|]].
    + unfold frame_entries, f. cbn [fr_header fr_vals]. by rewrite zip_app_r, omap_app, length_fmap.
    + intros Hc%bool_decide_eq_true. destruct Hca as [Hcl _]. rewrite drop_ge by lia. by destruct rest.
  - unfold TraceAllocIf. case_bool_decide; [lia|done].
  - destruct (TraceAllocIf _ _); [done|by intros x Hx%elem_of_nil].
Qed.
(** The thread in the course of a session: the list has grown by [new], the calls of
    [malloc] and [free] are on it, and the touched addresses on it and in the log are
    those of the executions, in order. *)
Record progress (cache : gmap Z (option (Z * list CALL))) (s0 s : tool) (done : list exec) (calls new : list Address) (fs : list frame) : Prop := {
  pr_running : running cache s fs;
  pr_stack : t_stackPtr s = t_stackPtr s0;
  pr_headers : t_headers s0 ⊆ t_headers s;
  pr_new : t_addresses s = t_addresses s0 ++ new;
  pr_calls : filter (λ x, is_touched x = false) new = calls;
  pr_touched : ∃ ls, filter (λ x, is_touched x = true) new ++ pending fs = concat ls ∧
    Forall2 (delivered (t_headers s) cache (t_stackPtr s0)) done ls;
}.

(** An early exit leaves out the calls of the instructions behind it. *)
Definition exec_ok (e : exec) : Prop := (List.length (e_executed e) <= List.length (trace_refs (program (e_trace e))))%nat.

Lemma filter_touched l : (∀ x, x ∈ l → is_touched x = true) →
  filter (λ x, is_touched x = false) l = [] ∧ filter (λ x, is_touched x = true) l = l.
Proof.
  induction l as [|x l IH]; intros H; [done|]. destruct IH as [IH1 IH2]; [intros y Hy; apply H; by right|].
  rewrite !filter_cons, (H x) by (by left). by rewrite IH1, IH2.
Qed.

Lemma progress_exec cache s0 s dn calls new fs e : progress cache s0 s dn calls new fs → exec_ok e →
  let n := log_size cache (e_trace e) in
  ∃ s' fs' out, exec_step s e = Some s' ∧ t_cursor s' = advance (t_cursor s) n ∧ (t_cursor s + n < BUFFER_SIZE → out = []) ∧
    progress cache s0 s' (dn ++ [e]) calls (new ++ out) fs'.
Proof.
  intros [R1 R2 R3 R4 R5 (ls & R6 & R7)] He n.
  destruct (exec_step_spec cache s fs e R1 He) as (s' & fs' & out & l & H1 & H2 & H3 & H4 & H5 & H6 & H7 & H8 & H9 & H10).
  exists s', fs', out. split; [done|]. split; [done|]. split; [done|].
  destruct (filter_touched out) as [Hf1 Hf2]; [intros x Hx; by eapply frame_entries_touched, H10|].
  split; [done|by rewrite H5|by etrans|by rewrite H6, R4, app_assoc| |].
  - rewrite filter_app, Hf1. by rewrite app_nil_r.
  - exists (ls ++ [l]). rewrite filter_app, Hf2, concat_app. cbn [concat]. rewrite app_nil_r, <- R6, <- !app_assoc, H7. split; [done|].
    apply Forall2_app; [|apply Forall2_cons; split; [by rewrite <- R2|constructor]].
    eapply Forall2_impl; [exact R7|]. intros ? ?. by apply delivered_weaken.
Qed.

Lemma log_size_nonneg cache t : 0 <= log_size cache t.
Proof. unfold log_size. destruct (traced cache t); lia. Qed.

Lemma logged_nonneg cache l : 0 <= logged cache l.
Proof. induction l as [|e l IH]; [done|]. cbn [logged foldr]. fold (logged cache l). pose proof (log_size_nonneg cache (e_trace e)). lia. Qed.

Lemma advance_small c n : 0 <= n → c + n < BUFFER_SIZE → advance c n = c + n.
Proof. intros Hn H. unfold advance. case_decide; [lia|]. unfold TraceAllocIf. case_bool_decide; lia. Qed.

(** The executions inside a [malloc] do not touch the list. *)
Lemma progress_inner cache s0 inner : ∀ s dn calls new fs, progress cache s0 s dn calls new fs → Forall exec_ok inner →
  t_cursor s + logged cache inner < BUFFER_SIZE →
  ∃ s' fs', mfoldl exec_step s inner = Some s' ∧ t_cursor s' = t_cursor s + logged cache inner ∧
    progress cache s0 s' (dn ++ inner) calls new fs'.
Proof.
  induction inner as [|e inner IH]; intros s dn calls new fs Hp He Hroom.
  { exists s, fs. rewrite app_nil_r. cbn [logged foldr]. split; [done|]. split; [lia|done]. }
  inversion He as [|? ? He1 He2]; subst. cbn [logged foldr mfoldl] in *. fold (logged cache inner) in *.
  pose proof (logged_nonneg cache inner) as Hn. pose proof (log_size_nonneg cache (e_trace e)) as Hn'.
  destruct (progress_exec _ _ _ _ _ _ _ e Hp He1) as (s1 & fs1 & out & -> & Hc & Hout & Hp1). cbn [mbind option_bind].
  rewrite Hout in Hp1 by lia. rewrite app_nil_r in Hp1. rewrite advance_small in Hc by lia.
  destruct (IH s1 _ _ _ _ Hp1 He2) as (s2 & fs2 & -> & Hc2 & Hp2); [lia|]. exists s2, fs2. split; [done|]. split; [lia|].
  by rewrite <- app_assoc in Hp2.
Qed.

Lemma progress_calls cache s0 s dn calls new fs x l : is_touched x = false → l = t_addresses s ++ [x] →
  progress cache s0 s dn calls new fs → progress cache s0 (set_addresses l s) dn (calls ++ [x]) (new ++ [x]) fs.
Proof.
  intros Hx -> [R1 R2 R3 R4 R5 R6]. split; cbn [set_addresses t_stackPtr t_headers t_addresses]; try done.
  - destruct R1 as [[L1 L2 L3 L4 L5 L6] R12 R13 R14 R15 R16]. split; try done; by split.
  - by rewrite R4, app_assoc.
  - by rewrite filter_app, R5, filter_cons, Hx.
  - by rewrite filter_app, filter_cons, Hx, app_nil_r.
Qed.
Lemma progress_last cache s0 s dn calls new fs size address :
  progress cache s0 s dn (calls ++ [MallocAddress 0 size]) (new ++ [MallocAddress 0 size]) fs →
  ∃ s', recordMallocAddress address s = Some s' ∧ t_cursor s' = t_cursor s ∧
    progress cache s0 s' dn (calls ++ [MallocAddress address size]) (new ++ [MallocAddress address size]) fs.
Proof.
  intros [R1 R2 R3 R4 R5 R6]. unfold recordMallocAddress. rewrite (ru_malloc _ _ _ R1), R4, app_assoc, last_snoc. cbn [mbind option_bind].
  rewrite removelast_last. eexists. split; [reflexivity|]. split; [done|].
  rewrite filter_app, filter_cons in R5. apply app_inj_2 in R5 as [R5 _]; [|done].
  rewrite filter_app, filter_cons, app_nil_r in R6.
  split; cbn [set_addresses t_stackPtr t_headers t_addresses set_address]; try done.
  - destruct R1 as [[L1 L2 L3 L4 L5 L6] R12 R13 R14 R15 R16]. split; try done; by split.
  - by rewrite app_assoc.
  - by rewrite filter_app, R5, filter_cons.
  - by rewrite filter_app, filter_cons, app_nil_r.
Qed.

(** Every event of a session makes progress. *)
Lemma progress_events cache s0 es : ∀ s dn calls new fs, progress cache s0 s dn calls new fs → Forall exec_ok (execs es) →
  calls_fit cache (t_cursor s) es = true →
  ∃ s' new' fs', mfoldl tool_step s es = Some s' ∧ progress cache s0 s' (dn ++ execs es) (calls ++ calls_of es) new' fs'.
Proof.
  induction es as [|x es IH]; intros s dn calls new fs Hp He Hfit.
  { exists s, new, fs. by rewrite !app_nil_r. }
  assert (execs (x :: es) = (match x with Exec e => [e] | Malloc _ inner _ => inner | Free _ => [] end) ++ execs es) as Ee by done.
  assert (calls_of (x :: es) = (match x with Exec _ => [] | Malloc size _ a => [MallocAddress a size] | Free a => [FreeAddress a] end) ++ calls_of es)
    as Ec by done.
  rewrite Ee in He |- *. rewrite Ec. apply Forall_app in He as [He1 He2]. rewrite !app_assoc. cbn [mfoldl calls_fit] in *.
  destruct x as [e|size inner address|address]; cbn [tool_step].
  - inversion He1 as [|? ? He _]; subst. destruct (progress_exec _ _ _ _ _ _ _ e Hp He) as (s1 & fs1 & out & -> & Hc & _ & Hp1).
    cbn [mbind option_bind]. rewrite app_nil_r. eapply IH; [exact Hp1|done|by rewrite Hc].
  - apply andb_true_iff in Hfit as [Hroom%bool_decide_eq_true Hfit].
    assert (recordMallocSize size s = set_addresses (t_addresses s ++ [MallocAddress 0 size]) s) as ->.
    { unfold recordMallocSize. by rewrite (ru_malloc _ _ _ (pr_running _ _ _ _ _ _ _ Hp)). }
    pose proof (progress_calls _ _ _ _ _ _ _ (MallocAddress 0 size) _ eq_refl eq_refl Hp) as Hp1.
    destruct (progress_inner _ _ inner _ _ _ _ _ Hp1 He1 Hroom) as (s2 & fs2 & -> & Hc2 & Hp2). cbn [mbind option_bind].
    destruct (progress_last _ _ _ _ _ _ _ _ address Hp2) as (s3 & -> & Hc3 & Hp3). cbn [mbind option_bind].
    eapply IH; [exact Hp3|done|]. by rewrite Hc3, Hc2.
  - cbn [mbind option_bind]. unfold recordFreeAddress. rewrite (ru_free _ _ _ (pr_running _ _ _ _ _ _ _ Hp)). rewrite app_nil_r.
    eapply IH; [by apply progress_calls|done|done].
Qed.

Lemma complete_entries headers cache stackPtr es ls : Forall2 (delivered headers cache stackPtr) es ls →
  forallb (complete cache) es = true → concat ls = concat (exec_entries cache stackPtr <$> es).
Proof.
  induction 1 as [|e l es ls (rest & -> & _ & Hc) _ IH]; [done|]. cbn [forallb]. intros [He Hes]%andb_true_iff.
  rewrite fmap_cons. cbn [concat]. by rewrite (Hc He), app_nil_r, (IH Hes).
Qed.

(** C31: a session delivers what the thread did in traces that record.  From an
    expanded log, the tool is switched on, the thread executes traces (with early
    exits anywhere), calls [malloc] (with traces inside, as long as the log is not
    expanded there) and [free], and the tool is switched off.  Then no read or write
    is out of the log; the list has grown by exactly one entry for each [malloc] and
    [free], with its size and address, in the order of the calls; and, of the touched
    addresses, in the order of the executions, by those of [exec_entries]: of each
    execution of a trace that was compiled while the tool was on, the addresses it
    touched that are not between the stack pointer and the start of the stack; of a
    trace that was compiled while the tool was off, and that the code cache keeps,
    nothing ([compiled_off]).  Each is followed, only after an early
    exit, by entries that are addresses of headers of the tool.  The log is expanded
    again, so that the next session starts as this one did. *)
Theorem session_delivers s es : log_inv s [] → cache_ok (t_headers s) (t_cache s) → Forall exec_ok (execs es) →
  calls_fit (t_cache s) (t_cursor s) es = true →
  ∃ s' new, session es s = Some s' ∧ t_addresses s' = t_addresses s ++ new ∧
    filter (λ x, is_touched x = false) new = calls_of es ∧
    (∃ ls, filter (λ x, is_touched x = true) new = concat ls ∧
      Forall2 (delivered (t_headers s') (t_cache s) (t_stackPtr s)) (execs es) ls) ∧
    (forallb (complete (t_cache s)) (execs es) = true →
      filter (λ x, is_touched x = true) new = concat (exec_entries (t_cache s) (t_stackPtr s) <$> execs es)) ∧
    log_inv s' [] ∧ cache_ok (t_headers s') (t_cache s') ∧ t_cursor s' = 0.
Proof.
  intros Hlog Hcache Hex Hfit. unfold session.
  assert (progress (t_cache s) s (toggleon s) [] [] [] []) as Hp.
  { split; cbn [toggleon set_switches t_stackPtr t_headers t_addresses]; try done.
    - destruct Hlog as [L1 L2 L3 L4 L5 L6]. split; [by split|done| |done..]. intros t. by split; [|left].
    - by rewrite app_nil_r.
    - by exists []. }
  destruct (progress_events _ _ es _ _ _ _ _ Hp Hex Hfit) as (s1 & new & fs & -> & [R1 R2 R3 R4 R5 (ls & R6 & R7)]). cbn [mbind option_bind].
  assert (log_inv (set_switches true true true s1) fs) as Hlog1.
  { destruct R1 as [[L1 L2 L3 L4 L5 L6] _ _ _ _ _]. by split. }
  destruct (flush_spec _ _ Hlog1) as (d & Hd & Hlog'). unfold toggleoff. rewrite Hd.
  eexists _, (new ++ pending fs). split; [reflexivity|]. destruct (filter_touched (pending fs)) as [Hf1 Hf2]; [by apply frame_entries_touched|].
  cbn [set_addresses set_log set_switches t_addresses t_headers t_cache t_cursor]. rewrite !filter_app, Hf1, Hf2, R5, R6, app_nil_r.
  split; [by rewrite R4, app_assoc|]. split; [done|]. split; [by exists ls|].
  split; [intros Hall; by eapply complete_entries|]. split; [exact Hlog'|]. split; [apply R1|done].
Qed.
End session.

(** ** The list in the program *)

(** The loop of the program empties the list, into the vector that Wrapper.v takes
    for what [retrieveAddressesVector] returns. *)
Lemma retrieve_loop_spec fuel acc s : Z.of_nat (List.length (t_addresses s)) < 4294967296 → (List.length (t_addresses s) < fuel)%nat →
  retrieve_loop fuel acc s = Some (acc ++ filter (λ a, is_free a = false) (t_addresses s), set_addresses [] s).
Proof.
  revert acc s. induction fuel as [|fuel IH]; intros acc s Hsmall Hfuel; [lia|]. cbn [retrieve_loop].
  unfold numAddress. rewrite Z.mod_small by lia. case_decide as Hn.
  { destruct (t_addresses s) as [|? ?] eqn:E; [|simpl in Hn; lia]. rewrite app_nil_r. destruct s; simpl in *; by subst. }
  unfold nextAddressType, storeFront. destruct (t_addresses s) as [|x l] eqn:E; [done|]. cbn [head fmap option_fmap option_map mbind option_bind].
  cbn [List.length] in *. rewrite filter_cons. destruct x as [a w|a n|a]; cbn [type_of is_free]; case_decide as Ht; try done;
    (rewrite IH by (cbn [set_addresses t_addresses]; lia)); cbn [set_addresses t_addresses]; by rewrite <- ?app_assoc.
Qed.

Lemma retrieve_drains s : Z.of_nat (List.length (t_addresses s)) < 4294967296 →
  retrieve_loop (S (List.length (t_addresses s))) [] s = Some (retrieveAddressesVector (pin_entry <$> t_addresses s), set_addresses [] s).
Proof. intros H. rewrite retrieve_loop_spec by (done || lia). by rewrite retrieve_no_free. Qed.

(** ** Where the tool does not do what it means to *)

(** A trace that is executed first while the tool is off is never recorded. *)
Lemma compiled_off program new_at s e : t_cache s !! e_trace e = None → t_offMemtrace s = true →
  ∃ s', exec_step program new_at s e = Some s' ∧ traced program (t_cache s') (e_trace e) = [].
Proof.
  intros Hc Hoff. unfold exec_step, compile_trace, execute_trace, InstrumentTrace. rewrite Hc, Hoff.
  eexists. cbn [set_cache t_cache]. rewrite lookup_insert_eq. cbn [mbind option_bind]. split; [reflexivity|].
  unfold traced. cbn [set_cache t_cache]. by rewrite lookup_insert_eq.
Qed.

(** [stopLogPinFree] is not intercepted, by a slip in its name. *)
Lemma stopLogPinFree_ignored : Image "stopLogPinFree" = None ∧ Image "stopLogFree" = Some ToggleOffFree.
Proof. done. Qed.

(** The exit of a [malloc] inside of another takes the entry for its own, and the
    exit of the other takes it again. *)
Lemma nested_malloc s outer inner a b : t_offMalloc s = false →
  (s ← recordMallocAddress a (recordMallocSize inner (recordMallocSize outer s)); recordMallocAddress b s) =
  Some (set_addresses (t_addresses s ++ [MallocAddress 0 outer; MallocAddress b inner]) s).
Proof.
  intros Hon. destruct s. simpl in Hon. subst. unfold recordMallocAddress, recordMallocSize, set_addresses. cbn.
  rewrite last_snoc, removelast_last. cbn. rewrite last_snoc, removelast_last. cbn. by rewrite <- app_assoc.
Qed.

(** ** A session *)
Module Demo.
(** A trace with a load, and one with a load, a store and a load, after a push. *)
Definition load (ip : Z) : INS := MkINS ip false false true false false true.
Definition store (ip : Z) : INS := MkINS ip false false false true false true.
Definition push (ip : Z) : INS := MkINS ip false true false true false true.

Definition program (t : Z) : list (list INS) :=
  if decide (t = 1) then [[load 100]] else if decide (t = 2) then [[push 200; load 201]; [store 202; load 203]] else [].

Definition new_at (headers : gmap Z TRACE_HEADER) : Z := fresh ({[0]} ∪ dom headers : gset Z).

Lemma new_at_fresh headers : new_at headers ≠ 0 ∧ headers !! new_at headers = None.
Proof. pose proof (is_fresh ({[0]} ∪ dom headers : gset Z)) as H. rewrite <- not_elem_of_dom. unfold new_at. set_solver. Qed.

Lemma trace_fits t : 8 + 8 * Z.of_nat (List.length (trace_refs (program t))) < BUFFER_SIZE.
Proof. unfold program. repeat case_decide; vm_compute; reflexivity. Qed.

Definition start : tool := ThreadStart 1000 ∅ ∅.

Lemma start_log_inv : log_inv start [] ∧ cache_ok program (t_headers start) (t_cache start).
Proof.
  split; [split|split]; try done; [by exists 0|by left].
Qed.

Definition touch (a : Z) : Z * Z := (900, a).

(** The stack reaches from 900 to 1000. *)
Definition events : list event :=
  [Exec (MkExec 1 [touch 5000]); Malloc 32 [MkExec 1 [touch 6000]] 7000; Free 7000; Exec (MkExec 2 [touch 950; touch 8000; touch 9000])].

Definition after (es : list event) (s : tool) : list Address := default [] (t_addresses <$> session program new_at es s).

Lemma session_delivers_witness : ∃ s', session program new_at events start = Some s' ∧
  t_addresses s' = [MallocAddress 7000 32; FreeAddress 7000; TouchedAddress 5000 false; TouchedAddress 6000 false; TouchedAddress 8000 true;
    TouchedAddress 9000 false] ∧
  filter (λ x, is_touched x = true) (t_addresses s') = concat (exec_entries program (t_cache start) 1000 <$> execs events).
Proof.
  destruct (session_delivers program new_at new_at_fresh trace_fits start events) as (s' & new & Hs & Hnew & _ & _ & Hall & _).
  - apply start_log_inv.
  - apply start_log_inv.
  - repeat constructor; unfold exec_ok; apply (bool_decide_unpack _); vm_compute; exact I.
  - vm_compute. reflexivity.
  - exists s'. split; [exact Hs|]. split.
    + assert (Some (t_addresses s') = t_addresses <$> session program new_at events start) as E by (by rewrite Hs).
      apply (inj Some). rewrite E. vm_compute. reflexivity.
    + rewrite Hnew. apply Hall. vm_compute. reflexivity.
Defined.

(** After an early exit the slot of the second access still holds what an earlier frame
    left there, the address of its header, and it is delivered as an address the
    program wrote. *)
Lemma header_delivered :
  (s ← session program new_at events start; Some (after [Exec (MkExec 2 [touch 5000])] (set_addresses [] s))) =
  Some [TouchedAddress 5000 false; TouchedAddress (new_at ∅) true].
Proof. vm_compute. reflexivity. Qed.

(** A trace compiled with the tool on goes on recording with the tool off, and the next
    session delivers it. *)
Lemma recorded_when_off :
  (s ← session program new_at events start; s ← exec_step program new_at (set_addresses [] s) (MkExec 1 [touch 4000]); Some (after [] s)) =
  Some [TouchedAddress 4000 false].
Proof. vm_compute. reflexivity. Qed.
End Demo.
