(* ===== verification/RunData.v ===== *)
(** * The data of a run

    The last part of [include/wrapper.cpp] and the classes of
    [include/utils.hpp]: at the end of the program the sets of every region are
    turned into the structure that is serialized to [runData.dat].  Here the
    runtime of Batch.v implements the interface of Wrapper.v. *)

From S2P Require Import Prelude Helpers OrdMap Objects AllocTable ConnGraph Commit CleanBatch Shadow Batch.
From S2P Require Import Memory Callstack UniqueIds Wrapper.

(** ** Saved data *)

Record UseToSave := MkUseToSave { us_trace : option Z; us_staticID : Z; us_uniqueID : Z }.

Record AllocationToSave := MkAllocationToSave {
  as_trace : option Z;
  as_staticID : Z;
  as_uniqueID : Z;
  as_pointer : Z;
  as_length : Z;
  as_offsets : gset Z;
  as_uses : list UseToSave;
  as_isDirectState : bool
}.

Record CycleToSave := MkCycleToSave {
  cy_cycle : list AllocationToSave;
  cy_weakPoint : AllocationToSave
}.

Record StateToSave := MkStateToSave {
  sv_functionName : string;
  sv_lineNumber : Z;
  sv_I : list AllocationToSave;
  sv_O : list AllocationToSave;
  sv_IO : list AllocationToSave;
  sv_CO : list AllocationToSave;
  sv_TO : list AllocationToSave;
  sv_CIO : list AllocationToSave;
  sv_TIO : list AllocationToSave;
  sv_cycles : list CycleToSave
}.

Definition new_StateToSave : StateToSave := MkStateToSave "" 0 [] [] [] [] [] [] [] [].

Section saving.
  Context (fl : flags) (cs : callstacks).

  (** [getAllocationToSave].  [StateCommitInfoMap[state]] makes a null entry when
      there is none and dereferences it; the null state has no entry. *)
Definition getAllocationToSave (rt : Runtime) (alloc : aptr) (offsets : option (gset Z))
      (state : option sptr) : option AllocationToSave :=
    a ← allocs rt !! alloc;
    '(trace, staticID) ← getTraceAndStaticID (disableCallstack fl) (origin a) cs;
    s ← state;
    info ← StateCommitInfoMap a !! s;
    let save uses := MkAllocationToSave trace staticID (origin a) (pointer a) (length a)
                       (default ∅ offsets) uses (regionBasedOffsets info) in
    if disableStateUses fl then Some (save [])
    else
      st ← states rt !! s;
      match allocationInfo st !! alloc with
      | None => Some (save [])
      | Some ids =>
        uses ← mapM (λ useID,
          '(useTrace, useStaticID) ← getTraceAndStaticID (disableCallstack fl) useID cs;
          Some (MkUseToSave useTrace useStaticID useID)) (elements ids);
        Some (save uses)
      end.

  (** [saveStateSet]: the keys of a map are distinct, so the check for duplicates
      never finds one. *)
Definition saveStateSet (rt : Runtime) (stateSet : gmap aptr (gset Z)) (state : sptr)
      (saved : list AllocationToSave) : option (list AllocationToSave) :=
    l ← mapM (λ e : aptr * gset Z, getAllocationToSave rt e.1 (Some e.2) (Some state))
          (map_to_list stateSet);
    Some (saved ++ l).

  (** [saveCycle] *)
Definition saveCycle (rt : Runtime) (cycle : SmartPointerCycle) (cycles : list CycleToSave)
      : option (list CycleToSave) :=
    l ← mapM (λ a, getAllocationToSave rt a None None) (AllocTable.cycle cycle);
    w ← weakPoint cycle;
    weak ← getAllocationToSave rt w None None;
    Some (cycles ++ [MkCycleToSave l weak]).

  (** [saveCycles]: a cycle is filed under each of its regions. *)
Definition saveCycle_for (rt : Runtime) (c : SmartPointerCycle) (saved : gmap Z StateToSave) (s : sptr)
      : option (gmap Z StateToSave) :=
    st ← states rt !! s;
    let sv := match saved !! stateID st with
              | None => MkStateToSave (functionName st) (lineNumber st) [] [] [] [] [] [] [] []
              | Some sv => sv
              end in
    cycles ← saveCycle rt c (sv_cycles sv);
    Some (<[stateID st := MkStateToSave (sv_functionName sv) (sv_lineNumber sv) (sv_I sv) (sv_O sv)
              (sv_IO sv) (sv_CO sv) (sv_TO sv) (sv_CIO sv) (sv_TIO sv) cycles]> saved).

Definition saveCycles (rt : Runtime) (allocationMap : AllocationTable) (saved : gmap Z StateToSave)
      : option (gmap Z StateToSave) :=
    mfoldl (λ saved c, mfoldl (saveCycle_for rt c) saved (elements (cycle_states c))) saved
      (AllocTable.cycles allocationMap).

  (** One region in the loop of [PrintJSONWrapper]. *)
Definition saveState (rt : Runtime) (s : sptr) (st : State) (sv : StateToSave) : option StateToSave :=
    let f := final_sets st in
    i ← saveStateSet rt (Input f) s (sv_I sv);
    o ← saveStateSet rt (Output f) s (sv_O sv);
    io ← saveStateSet rt (IO f) s (sv_IO sv);
    co ← saveStateSet rt (CloneableOutput f) s (sv_CO sv);
    to ← saveStateSet rt (TransferOutput f) s (sv_TO sv);
    cio ← saveStateSet rt (CloneableIO f) s (sv_CIO sv);
    tio ← saveStateSet rt (TransferIO f) s (sv_TIO sv);
    Some (MkStateToSave (functionName st) (lineNumber st) i o io co to cio tio (sv_cycles sv)).

Definition save_step (rt : Runtime) (saved : gmap Z StateToSave) (e : Z * option sptr)
      : option (gmap Z StateToSave) :=
    s ← e.2;
    st ← states rt !! s;
    sv ← saveState rt s st (default new_StateToSave (saved !! stateID st));
    Some (<[stateID st := sv]> saved).

Definition saveStates (rt : Runtime) (stateMap : gmap Z (option sptr)) : option (gmap Z StateToSave) :=
    mfoldl (save_step rt) ∅ (map_to_list stateMap).
End saving.

Section printing.
  Context (SHADOW_WINDOW NUM_BATCHES : nat) (cfg : config) (mem : Z → Z)
    (strong_components : graph_t → list nat) (malloc_buffer : nat → list shadowEntry).

  (** [FindCycleInAllocationMapWrapper] returns when the runtime has raised the
      flag; the code that would save the cycles is after the [return]. *)
Definition FindCycleInAllocationMapWrapper (sync : Z) (g : Globals) : option Globals :=
    if trackCycles cfg then
      FindCycleInAllocationMap SHADOW_WINDOW cfg mem strong_components sync g
    else Some g.

  (** [PrintJSONWrapper]; the result is what is serialized. *)
Definition PrintJSONWrapper (fl : flags) (cs : callstacks) (sync : Z) (g : Globals)
      : option (Globals * option (gmap Z StateToSave)) :=
    if disableTexas fl then Some (g, None)
    else
      g ← FindCycleInAllocationMapWrapper sync g;
      g ← ReportStatistics cfg mem strong_components g;
      saved ← saveStates fl cs (store g) (stateMap g);
      Some (g, Some saved).

  (** ** The runtime implements the interface *)

#[export] Instance batch_texas : Texas Globals := {|
    t_active g := s ← activeState g; st ← states (store g) !! s; Some (stateID st);
    t_AddToState := AddToState SHADOW_WINDOW NUM_BATCHES cfg mem strong_components malloc_buffer;
    t_AddToAllocationTable := AddToAllocationTable SHADOW_WINDOW NUM_BATCHES cfg mem strong_components malloc_buffer;
    t_AddCallocToAllocationTable := AddCallocToAllocationTable SHADOW_WINDOW NUM_BATCHES cfg mem strong_components malloc_buffer;
    t_HandleReallocInAllocationTable := HandleReallocInAllocationTable SHADOW_WINDOW NUM_BATCHES cfg mem strong_components malloc_buffer;
    t_RemoveFromAllocationTable := RemoveFromAllocationTable SHADOW_WINDOW NUM_BATCHES cfg mem strong_components malloc_buffer;
    t_AddToEscapeTable := AddToEscapeTable SHADOW_WINDOW NUM_BATCHES cfg mem strong_components malloc_buffer;
    t_SetStateRegion := SetStateRegion SHADOW_WINDOW NUM_BATCHES cfg mem strong_components malloc_buffer;
    t_GetState := GetState SHADOW_WINDOW cfg mem strong_components;
    t_EndState := EndState SHADOW_WINDOW cfg mem strong_components;
    t_EndStateInvocation := EndStateInvocation SHADOW_WINDOW cfg mem strong_components
  |}.

Lemma active_frame g g' :
    frame g g' → is_Some (t_active g) ↔ is_Some (t_active g').
Proof.
    intros (Hp & Ha & _). simpl. rewrite Ha. destruct (activeState g) as [s|]; [|done]. simpl.
    specialize (Hp s). destruct (states (store g) !! s), (states (store g') !! s);
      simpl in *; try done; split; by eexists.
  Qed.

(** An entered region is active. *)
Lemma GetState_activates f l t g g' r :
  GetState SHADOW_WINDOW cfg mem strong_components f l t g = Some (g', r) → is_Some (t_active g').
Proof.
  unfold GetState. intros H. apply bind_Some in H as (found & _ & H).
  assert (∀ g0 s, activeState g0 = Some s →
    (g1 ← (if stateReductionTracking cfg then measure_naive s g0 else Some g0);
     g2 ← fill_slot SHADOW_WINDOW cfg mem strong_components (λ e, set_statePtr (Some s) (set_operation STATE_BEGIN e)) g1;
     st ← states (store g2) !! s; Some (g2, stateID st)) = Some (g', r) → is_Some (t_active g')) as Hrest.
  { intros g0 s Ea H'. apply bind_Some in H' as (g1 & H1 & H'). apply bind_Some in H' as (g2 & H2 & H').
    apply bind_Some in H' as (st & Hst & [= <- _]).
    assert (activeState g1 = Some s) as Ea1.
    { destruct (stateReductionTracking cfg); [|by injection H1 as <-]. apply measure_naive_frame in H1 as (_ & E & _). congruence. }
    apply fill_slot_frame in H2 as (_ & Ea2 & _). simpl. rewrite Ea2, Ea1. simpl. rewrite Hst. by eexists. }
  destruct found; (eapply Hrest; [|exact H]; done).
Qed.

#[export] Instance batch_laws : TexasLaws Globals.
Proof.
    assert (∀ g g', frame g g' → t_active g = None → t_active g' = None) as Hnone.
    { intros g g' Hf Hn. apply eq_None_not_Some. intros Hs%(active_frame _ _ Hf). rewrite Hn in Hs.
      by destruct Hs. }
    split.
    - intros a rw id g g' Hg Hs. by apply (active_frame _ _ (access_frame _ _ _ _ _ _ _ _ _ _ _ Hg)).
    - intros a l o g g' Hg. apply Hnone. eapply alloc_frame. exact Hg.
    - intros a g g' Hg. apply Hnone. eapply free_frame. exact Hg.
    - intros f l t g g' r Hg. exact (GetState_activates _ _ _ _ _ _ Hg).
  Qed.
End printing.

(** ** What is saved *)

Section saved.
  Context (fl : flags) (cs : callstacks).

Definition resolves (u : Z) : Prop := is_Some (getTraceAndStaticID (disableCallstack fl) u cs).

  (** The uses of a block in a region that are saved. *)
Definition saved_uses (rt : Runtime) (s : sptr) (a : aptr) : list Z :=
    if disableStateUses fl then []
    else elements (default ∅ (st ← states rt !! s; allocationInfo st !! a)).

  (** Everything the code dereferences or looks up is there. *)
Definition saveable (rt : Runtime) (s : sptr) (a : aptr) : Prop :=
    ∃ ob, allocs rt !! a = Some ob ∧ resolves (origin ob) ∧ is_Some (StateCommitInfoMap ob !! s) ∧
      (disableStateUses fl = false → is_Some (states rt !! s)) ∧
      ∀ u, u ∈ saved_uses rt s a → resolves u.

  (** The record of a use. *)
Definition use_saved_as (u : Z) (r : UseToSave) : Prop :=
    us_uniqueID r = u ∧ getTraceAndStaticID (disableCallstack fl) u cs = Some (us_trace r, us_staticID r).

  (** The record of a block in a set of a region. *)
Definition saved_as (rt : Runtime) (s : sptr) (e : aptr * gset Z) (r : AllocationToSave) : Prop :=
    ∃ ob info, allocs rt !! e.1 = Some ob ∧ StateCommitInfoMap ob !! s = Some info ∧
      as_uniqueID r = origin ob ∧ as_pointer r = pointer ob ∧ as_length r = length ob ∧
      as_offsets r = e.2 ∧ as_isDirectState r = regionBasedOffsets info ∧
      getTraceAndStaticID (disableCallstack fl) (origin ob) cs = Some (as_trace r, as_staticID r) ∧
      Forall2 use_saved_as (saved_uses rt s e.1) (as_uses r).

Definition save_use (useID : Z) : option UseToSave :=
    '(useTrace, useStaticID) ← getTraceAndStaticID (disableCallstack fl) useID cs;
    Some (MkUseToSave useTrace useStaticID useID).

Lemma save_use_Some u r : save_use u = Some r → use_saved_as u r.
Proof. unfold save_use. intros H. by apply bind_Some in H as ([t sid] & E & [= <-]). Qed.

Lemma uses_saved ids uses : mapM save_use ids = Some uses → Forall2 use_saved_as ids uses.
Proof. intros H%mapM_Some. eapply Forall2_impl; [exact H|]. apply save_use_Some. Qed.

Lemma save_use_resolves u : is_Some (save_use u) ↔ resolves u.
Proof.
    unfold resolves, save_use. destruct (getTraceAndStaticID _ u cs) as [[t sid]|]; [|split; by intros []].
    split; intros _; [by exists (t, sid)|by exists (MkUseToSave t sid u)].
  Qed.

Lemma uses_resolve ids : is_Some (mapM save_use ids) ↔ ∀ u, u ∈ ids → resolves u.
Proof.
    rewrite mapM_is_Some, Forall_forall. by split; intros H u Hu; apply save_use_resolves, H.
  Qed.

  (** A block can be saved exactly when everything is there, and its record is as it
      should be. *)
Lemma getAllocationToSave_saveable rt s e :
    is_Some (getAllocationToSave fl cs rt e.1 (Some e.2) (Some s)) ↔ saveable rt s e.1.
Proof.
    unfold getAllocationToSave, saveable, saved_uses, resolves. split.
    - intros [r H]. apply bind_Some in H as (ob & Ha & H). apply bind_Some in H as ([t sid] & Ho & H).
      cbn [mbind option_bind] in H. apply bind_Some in H as (info & Hi & H). exists ob.
      split; [done|]. split; [by eexists|]. split; [by eexists|].
      destruct (disableStateUses fl); [split; [done|intros u Hu; by apply elem_of_nil in Hu]|].
      apply bind_Some in H as (st & Hst & H). rewrite Hst. split; [by eexists|]. simpl.
      destruct (allocationInfo st !! e.1) as [ids|]; [|intros u Hu; exfalso; revert Hu; simpl; rewrite elem_of_elements; set_solver].
      apply bind_Some in H as (uses & Hu & _). apply (uses_resolve (elements ids)). by exists uses.
    - intros (ob & Ha & [[t sid] Ho] & [info Hi] & Hst & Hu). rewrite Ha. cbn [mbind option_bind]. rewrite Ho.
      cbn [mbind option_bind]. rewrite Hi. cbn [mbind option_bind]. destruct (disableStateUses fl); [by eexists|].
      destruct (Hst eq_refl) as [st Est]. rewrite Est in Hu |- *. cbn [mbind option_bind] in *.
      destruct (allocationInfo st !! e.1) as [ids|]; [|by eexists].
      apply (uses_resolve (elements ids)) in Hu as [uses Hu]. unfold save_use in Hu. rewrite Hu. by eexists.
  Qed.

Lemma getAllocationToSave_saved rt s e r :
    getAllocationToSave fl cs rt e.1 (Some e.2) (Some s) = Some r → saved_as rt s e r.
Proof.
    unfold getAllocationToSave, saved_as, saved_uses. intros H.
    apply bind_Some in H as (ob & Ha & H). apply bind_Some in H as ([t sid] & Ho & H).
    cbn [mbind option_bind] in H. apply bind_Some in H as (info & Hi & H). exists ob, info.
    destruct (disableStateUses fl); [by injection H as <-|].
    apply bind_Some in H as (st & Hst & H). rewrite Hst. cbn [mbind option_bind].
    destruct (allocationInfo st !! e.1) as [ids|]; [|by injection H as <-].
    apply bind_Some in H as (uses & Hu & [= <-]). apply uses_saved in Hu. by split_and!.
  Qed.

Lemma getAllocationToSave_Some rt s a offsets r :
    getAllocationToSave fl cs rt a offsets (Some s) = Some r →
    ∃ ob, allocs rt !! a = Some ob ∧ is_Some (StateCommitInfoMap ob !! s).
Proof.
    unfold getAllocationToSave. intros H. apply bind_Some in H as (ob & Ha & H).
    apply bind_Some in H as ([t sid] & _ & H). cbn [mbind option_bind] in H.
    apply bind_Some in H as (info & Hi & _). exists ob. split; [done|]. by eexists.
  Qed.

  (** C29: saving a set of a region either crashes or is complete, and which of the
      two is known beforehand.  It succeeds if and only if every block of the set is
      [saveable]: it exists, the identifier of its origin resolves, it has commit
      information for the region (which a free in the region that allocated the
      block erases, [freed_session_crashes]), and, when uses are recorded, the region
      exists and each of its uses resolves.  Then every block of the set is saved
      once, in the order of the set, with its address and length, the offsets of the
      set, the callstack and static identifier of its origin, the mark of a directly
      set range, and for each of its uses in the region the identifier, the callstack
      and the static identifier. *)
Theorem saveStateSet_complete rt stateSet s saved :
    match saveStateSet fl cs rt stateSet s saved with
    | Some r => (∀ a, a ∈ dom stateSet → saveable rt s a) ∧
        ∃ l, r = saved ++ l ∧ Forall2 (saved_as rt s) (map_to_list stateSet) l
    | None => ∃ a, a ∈ dom stateSet ∧ ¬ saveable rt s a
    end.
Proof.
    unfold saveStateSet. set (f := λ e : aptr * gset Z, getAllocationToSave fl cs rt e.1 (Some e.2) (Some s)).
    destruct (mapM f (map_to_list stateSet)) as [l|] eqn:E; cbn [mbind option_bind].
    - split.
      + intros a [os Ha]%elem_of_dom. apply (getAllocationToSave_saveable rt s (a, os)).
        assert (is_Some (mapM f (map_to_list stateSet))) as Hall by (by eexists).
        rewrite mapM_is_Some, Forall_forall in Hall. apply (Hall (a, os)). by apply elem_of_map_to_list.
      + exists l. split; [done|]. apply mapM_Some in E. eapply Forall2_impl; [exact E|]. intros e r. apply getAllocationToSave_saved.
    - apply eq_None_not_Some in E. rewrite mapM_is_Some in E. apply not_Forall_Exists in E; [|intros e; unfold compose; apply _].
      apply Exists_exists in E as ([a os] & Hin & Hn). exists a. split; [apply elem_of_dom; exists os; by apply elem_of_map_to_list|].
      intros Hs. apply Hn. by apply (getAllocationToSave_saveable rt s (a, os)).
  Qed.

Lemma mapM_None {A B} (f : A → option B) l x : x ∈ l → f x = None → mapM f l = None.
Proof.
    induction l as [|y l IH]; intros Hx Hf; [by apply elem_of_nil in Hx|]. cbn [mapM].
    apply elem_of_cons in Hx as [->|Hx]; [by rewrite Hf|].
    destruct (f y); [|done]. cbn [mbind option_bind]. by rewrite IH.
  Qed.

Lemma mfoldl_None {A B} (f : B → A → option B) b l x :
    x ∈ l → (∀ b, f b x = None) → mfoldl f b l = None.
Proof.
    revert b. induction l as [|y l IH]; intros b Hx Hf; [by apply elem_of_nil in Hx|]. cbn [mfoldl].
    apply elem_of_cons in Hx as [->|Hx]; [by rewrite Hf|].
    destruct (f b y); [|done]. cbn [mbind option_bind]. by apply IH.
  Qed.

Lemma saveStateSet_None rt stateSet s saved a ob :
    a ∈ dom stateSet → allocs rt !! a = Some ob → StateCommitInfoMap ob !! s = None →
    saveStateSet fl cs rt stateSet s saved = None.
Proof.
    intros [os Ha]%elem_of_dom Hob Hn. unfold saveStateSet.
    rewrite (mapM_None _ _ (a, os)); [done|by apply elem_of_map_to_list|].
    destruct (getAllocationToSave _ _ _ _ _ _) as [r|] eqn:E; [|done]. simpl in E.
    apply getAllocationToSave_Some in E as (ob' & Hob' & [info Hi]). congruence.
  Qed.

  (** The report of the whole program crashes when a set of some region holds a
      block that keeps no commit information for that region; a free in the region
      that allocated the block erases that information but not the block from the
      sets. *)
Theorem saveStates_missing_info rt stateMap id s st a ob o set :
    stateMap !! id = Some (Some s) → states rt !! s = Some st →
    set_of o (final_sets st) = Some set → a ∈ dom set →
    allocs rt !! a = Some ob → StateCommitInfoMap ob !! s = None →
    saveStates fl cs rt stateMap = None.
Proof.
    intros Hid Hs Ho Ha Hob Hn. unfold saveStates.
    apply (mfoldl_None _ _ _ (id, Some s)); [by apply elem_of_map_to_list|].
    intros acc. unfold save_step. cbn [snd mbind option_bind]. rewrite Hs. cbn [mbind option_bind].
    assert (∀ sv, saveState fl cs rt s st sv = None) as ->; [|done]. intros sv.
    assert (∀ saved, saveStateSet fl cs rt set s saved = None) as Hset.
    { intros saved. by apply (saveStateSet_None _ _ _ _ a ob). }
    unfold saveState. destruct o; simpl in Ho; try done; injection Ho as ->; rewrite ?Hset;
      repeat (match goal with |- context [saveStateSet ?f ?c ?r ?x ?y ?z] =>
                destruct (saveStateSet f c r x y z); cbn [mbind option_bind]; [|done] end);
      by rewrite ?Hset.
  Qed.

Lemma save_step_cycles rt saved e saved' :
    save_step fl cs rt saved e = Some saved' →
    (∀ id sv, saved !! id = Some sv → sv_cycles sv = []) →
    ∀ id sv, saved' !! id = Some sv → sv_cycles sv = [].
Proof.
    unfold save_step. intros H Hold. apply bind_Some in H as (s & _ & H).
    apply bind_Some in H as (st & _ & H). apply bind_Some in H as (sv & Hsv & [= <-]).
    intros id sv' Hl. apply lookup_insert_Some in Hl as [[_ <-]|[_ Hl]]; [|by eapply Hold].
    unfold saveState in Hsv. destruct_bind. simpl.
    destruct (saved !! stateID st) as [sv0|] eqn:E0; simpl; [|done]. by eapply Hold.
  Qed.
End saved.

(** Reference cycles are never reported: nothing files the cycles the runtime
    found, and if the code after the early return were reached, saving a cycle of
    any region would dereference a null pointer. *)
Theorem cycles_never_saved SHADOW_WINDOW cfg mem scc fl cs sync g g' saved :
  PrintJSONWrapper SHADOW_WINDOW cfg mem scc fl cs sync g = Some (g', Some saved) →
  (∀ id sv, saved !! id = Some sv → sv_cycles sv = []) ∧
  ∀ rt t c s saved', c ∈ AllocTable.cycles t → s ∈ cycle_states c → saveCycles fl cs rt t saved' = None.
Proof.
  unfold PrintJSONWrapper. intros H. destruct (disableTexas fl); [done|].
  apply bind_Some in H as (g1 & _ & H). apply bind_Some in H as (g2 & _ & H).
  apply bind_Some in H as (sv & Hs & [= <- <-]). split.
  - unfold saveStates in Hs.
    eapply (mfoldl_ind (λ saved : gmap Z StateToSave, ∀ id sv, saved !! id = Some sv → sv_cycles sv = []));
      [exact Hs|by intros id sv0 Hl|]. intros b x b' _ Hb Hx. by eapply save_step_cycles.
  - assert (∀ rt a, getAllocationToSave fl cs rt a None None = None) as Hnull.
    { intros rt a. unfold getAllocationToSave. destruct (allocs rt !! a) as [ob|]; [|done].
      cbn [mbind option_bind]. by destruct (getTraceAndStaticID _ _ _) as [[? ?]|]. }
    assert (∀ rt c l, saveCycle fl cs rt c l = None) as Hcycle.
    { intros rt c l. unfold saveCycle. destruct (AllocTable.cycle c) as [|a as_]; cbn [mapM mbind option_bind].
      - destruct (weakPoint c); [|done]. cbn [mbind option_bind]. by rewrite Hnull.
      - by rewrite Hnull. }
    intros rt t c s saved' Hc Hin. apply (mfoldl_None _ _ _ c); [done|]. intros b.
    apply (mfoldl_None _ _ _ s); [by apply elem_of_elements|]. intros b'. unfold saveCycle_for.
    destruct (states rt !! s); [|done]. cbn [mbind option_bind]. by rewrite Hcycle.
Qed.

(** ** Whole runs *)

(** A region allocates a block of 24 bytes and writes its offset 4. *)
Definition kept_session : option Globals :=
  g ← started;
  '(g, id) ← texas0 GetState "main" 1 0 g;
  g ← texas AddToAllocationTable 4096 24 1 g;
  g ← texas AddToState 4100 1 8 g;
  '(g, _) ← texas0 EndState id g;
  '(g, _) ← texas0 EndStateInvocation id g;
  Some g.

(** Its next invocation frees the block. *)
Definition freed_session : option Globals :=
  g ← kept_session;
  '(g, id) ← texas0 GetState "main" 1 0 g;
  g ← texas RemoveFromAllocationTable 4096 g;
  '(g, _) ← texas0 EndState id g;
  '(g, _) ← texas0 EndStateInvocation id g;
  Some g.

Definition print_run (run : option Globals) : option (Globals * option (gmap Z StateToSave)) :=
  g ← run;
  PrintJSONWrapper 8 default_config demo_mem demo_scc (Flags false false true) no_callstacks 0 g.

(** The block is saved in the output set of the region, with its use. *)
Example kept_session_saved :
  (r ← print_run kept_session; saved ← r.2; sv ← saved !! 0;
   Some (sv_functionName sv, sv_lineNumber sv, sv_O sv, sv_I sv)) =
  Some ("main", 1, [MkAllocationToSave None 1 1 4096 24 {[ 4 ]} [MkUseToSave None 8 8] false], []).
Proof. vm_compute. reflexivity. Qed.

(** After the free, the report crashes. *)
Example freed_session_crashes : is_Some freed_session ∧ print_run freed_session = None.
Proof. split; [by vm_compute; eexists|vm_compute; reflexivity]. Qed.

(** The written offset is in a set that is saved; after the free, it cannot be. *)
Lemma saved_block : ∃ g r, kept_session = Some g ∧
  saveStateSet plain_flags no_callstacks (store g) {[2%positive := {[ 4 ]}]} 0%nat [] = Some [r] ∧ as_pointer r = 4096.
Proof.
  assert (match kept_session with
    | Some g => match saveStateSet plain_flags no_callstacks (store g) {[2%positive := {[ 4 ]}]} 0%nat [] with
      | Some [r] => bool_decide (as_pointer r = 4096) | _ => false end
    | None => false end = true) as H by (vm_compute; reflexivity).
  destruct kept_session as [g|]; [|done]. destruct (saveStateSet _ _ _ _ _ _) as [[|r [|]]|] eqn:E; try done.
  exists g, r. split; [done|]. split; [done|]. by apply bool_decide_eq_true in H.
Qed.

Lemma saveStates_missing_info_witness :
  ∃ g, freed_session = Some g ∧ saveStates plain_flags no_callstacks (store g) (stateMap g) = None.
Proof.
  destruct freed_session as [g|] eqn:E0; [|vm_compute in E0; discriminate].
  exists g. split; [done|].
  destruct (states (store g) !! 0%nat) as [st|] eqn:Est;
    [|vm_compute in E0; injection E0 as <-; vm_compute in Est; discriminate].
  destruct (allocs (store g) !! 2%positive) as [ob|] eqn:Eob;
    [|vm_compute in E0; injection E0 as <-; vm_compute in Eob; discriminate].
  apply (saveStates_missing_info plain_flags no_callstacks (store g) (stateMap g) 0 0%nat st 2%positive ob
           STATE_ADD_OUTPUT (Output (final_sets st))).
  - vm_compute in E0. injection E0 as <-. reflexivity.
  - exact Est.
  - reflexivity.
  - vm_compute in E0. injection E0 as <-. vm_compute in Est. injection Est as <-.
    apply elem_of_dom. by vm_compute; eexists.
  - exact Eob.
  - vm_compute in E0. injection E0 as <-. vm_compute in Eob. injection Eob as <-. reflexivity.
Defined.

Lemma cycles_never_saved_witness :
  ∃ g' saved, print_run kept_session = Some (g', Some saved) ∧
    ∀ id sv, saved !! id = Some sv → sv_cycles sv = [].
Proof.
  destruct (print_run kept_session) as [[g' [saved|]]|] eqn:E;
    [|vm_compute in E; discriminate|vm_compute in E; discriminate].
  exists g', saved. split; [done|]. unfold print_run in E.
  destruct kept_session as [g|] eqn:E0; [|discriminate E]. cbn [mbind option_bind] in E.
  exact (proj1 (cycles_never_saved 8 default_config demo_mem demo_scc (Flags false false true)
                  no_callstacks 0 g g' saved E)).
Defined.
