(* ===== verification/Teardown.v ===== *)
(** * The end of a run

    [freeMemory] of [include/wrapper.cpp], the last act of [PrintJSONWrapper]: the
    tables of callstacks are released.  A ledger says which table owns each trace
    through every sequence of backtraces, so no trace is deleted twice, and the
    ones nobody deletes are named. *)

From S2P Require Import Prelude Memory Objects AllocTable ConnGraph CleanBatch Batch Callstack UniqueIds Wrapper RunData.

(** ** Releasing the tables *)

(** [delete trace]: [None] is a pointer that is not to a live trace. *)
Definition delete_trace (s : trace_store) (p : Z) : option trace_store :=
  _ ← ts_map s !! p; Some (TraceStore (delete p (ts_map s)) (ts_next s)).

(** [delete elem] of a slot of [uniqueTraces]; deleting a null pointer is allowed. *)
Definition delete_slot (s : trace_store) (slot : option Z) : option trace_store :=
  match slot with
  | None => Some s
  | Some p => delete_trace s p
  end.

(** The loop over [hashToTraceMap], the one over [dynamicTraces], the one over
    [uniqueTraces].  The result is what is left of the traces, and the dynamic
    traces in the order they are deleted.  The tables are gone and the global
    pointers to them stay as they are; [traces], [loads] and [stores] own
    nothing. *)
Definition freeMemory (b : backtraces) (cs : callstacks) : option (trace_store * list DynamicTrace) :=
  s ← mfoldl (λ s e, mfoldl delete_trace s e.2) (bt_store b) (map_to_list (bt_table b));
  let deleted := (map_to_list (default ∅ (dynamicTraces cs))).*2 in
  s ← mfoldl delete_slot s (default [] (bt_unique b));
  Some (s, deleted).

Section exit.
  Context (SHADOW_WINDOW : nat) (cfg : config) (mem : Z → Z)
    (strong_components : graph_t → list nat).

  (** [PrintJSONWrapper] to its end: with the run time disabled it returns before
      anything is released. *)
Definition PrintJSON_exit (fl : flags) (sync : Z) (g : Globals) (b : backtraces) (cs : callstacks)
      : option (Globals * option (gmap Z StateToSave) * trace_store) :=
    '(g, saved) ← PrintJSONWrapper SHADOW_WINDOW cfg mem strong_components fl cs sync g;
    match saved with
    | None => Some (g, None, bt_store b)
    | Some sv => '(s, _) ← freeMemory b cs; Some (g, Some sv, s)
    end.
End exit.

(** ** Runs *)

Definition no_backtraces : backtraces := Backtraces (TraceStore ∅ 0) None [] ∅ None.

(** One backtrace, by any of the functions that take one. *)
Inductive takes_backtrace : backtraces → backtraces → Prop :=
  | takes_lru d buf n s s' r : getBacktrace_lru d buf n s = Some (s', r) → takes_backtrace s s'
  | takes_nocache d buf n s s' r : getBacktrace_nocache d buf n s = Some (s', r) → takes_backtrace s s'
  | takes_cache d buf n s s' r : getBacktrace_cache d buf n s = Some (s', r) → takes_backtrace s s'
  | takes_unique d i m buf n s s' r :
      getBacktraceUnique d i m buf n s = Some (s', r) → takes_backtrace s s'
  | takes_backtrace2 d buf n s s' r : getBacktrace2 d buf n s = Some (s', r) → takes_backtrace s s'.

(** ** The ledger *)

Definition stored (s : trace_store) : list Z := (map_to_list (ts_map s)).*1.

Definition table_traces (h : gmap Z (list Z)) : list Z := map_to_list h ≫= snd.

(** The traces [freeMemory] deletes. *)
Definition freed (b : backtraces) : list Z :=
  table_traces (bt_table b) ++ omap id (default [] (bt_unique b)).

(** The traces of the LRU cache's own table and of the frequency cache. *)
Definition kept (b : backtraces) : list Z :=
  table_traces (from_option lru_table ∅ (bt_lru b)) ++ bt_cache b.

(** Every live trace has exactly one owner. *)
Definition accounted (b : backtraces) : Prop :=
  store_ok (bt_store b) ∧ stored (bt_store b) ≡ₚ freed b ++ kept b.

(** ** What one operation adds *)

(** The store and an owner gained the same traces. *)
Definition gains (s s' : trace_store) (l l' : list Z) : Prop :=
  store_ok s' ∧ ∃ ps, stored s' ≡ₚ ps ++ stored s ∧ l' ≡ₚ ps ++ l.

Lemma gains_refl s l : store_ok s → gains s s l l.
Proof. intros Hs. split; [done|]. by exists []. Qed.

Lemma stored_lookup s p : p ∈ stored s ↔ is_Some (ts_map s !! p).
Proof.
  unfold stored. rewrite list_elem_of_fmap. split.
  - intros ([q t] & -> & Hin%elem_of_map_to_list). by eexists.
  - intros [t Ht]. exists (p, t). by rewrite elem_of_map_to_list.
Qed.

Lemma stored_NoDup s : NoDup (stored s).
Proof. apply NoDup_fst_map_to_list. Qed.

Lemma stored_insert_new x s :
  store_ok s → stored (new_trace x s).1 ≡ₚ (new_trace x s).2 :: stored s.
Proof.
  intros Hs. unfold stored, new_trace. simpl. rewrite map_to_list_insert; [done|].
  apply eq_None_not_Some. intros H%Hs. lia.
Qed.

Lemma stored_delete s p t :
  ts_map s !! p = Some t →
  p :: stored (TraceStore (delete p (ts_map s)) (ts_next s)) ≡ₚ stored s.
Proof. intros Ht. unfold stored. simpl. by rewrite <- (map_to_list_delete (ts_map s) p t Ht). Qed.

(** Filing a trace in a table adds it to the traces of the table. *)
Lemma table_traces_file (h : gmap Z (list Z)) k p :
  table_traces (<[k := default [] (h !! k) ++ [p]]> h) ≡ₚ p :: table_traces h.
Proof.
  unfold table_traces. rewrite <- insert_delete_eq, map_to_list_insert by apply lookup_delete_eq.
  rewrite bind_cons. simpl. destruct (h !! k) as [l|] eqn:Ek; simpl.
  - rewrite <- (map_to_list_delete h k l Ek), bind_cons. simpl. rewrite <- app_assoc.
    by rewrite Permutation_middle.
  - by rewrite delete_id.
Qed.

Lemma lookup_or_insert_gains x s h s' h' p :
  store_ok s → lookup_or_insert x s h = Some (s', h', p) →
  gains s s' (table_traces h) (table_traces h').
Proof.
  intros Hs. unfold lookup_or_insert. intros H. apply bind_Some in H as (found & _ & H).
  destruct found as [q|]; [injection H as <- <- _; by apply gains_refl|].
  destruct (new_trace x s) as [s1 q] eqn:En. injection H as <- <- <-.
  destruct (new_trace_ok _ _ _ _ Hs En) as (Hs1 & _). split; [done|]. exists [q].
  pose proof (stored_insert_new x s Hs) as Hst. rewrite En in Hst. split; [done|].
  apply table_traces_file.
Qed.

Lemma bump_frequency_stored p s s' :
  store_ok s → bump_frequency p s = Some s' → store_ok s' ∧ stored s' ≡ₚ stored s.
Proof.
  intros Hs H. apply bind_Some in H as (t & Ht & [= <-]). split.
  - intros q [t' Hq]. simpl in *. apply Hs.
    apply lookup_insert_Some in Hq as [[<- _]|[_ Hq]]; by eexists.
  - unfold stored. simpl. rewrite <- insert_delete_eq, map_to_list_insert by apply lookup_delete_eq.
    by rewrite <- (map_to_list_delete (ts_map s) p t Ht).
Qed.

(** The LRU list and its iterators own nothing. *)
Lemma refer_gains x s c s' c' p :
  store_ok s → refer x s c = Some (s', c', p) →
  gains s s' (table_traces (lru_table c)) (table_traces (lru_table c')).
Proof.
  intros Hs H. apply bind_Some in H as (found & _ & H). destruct found as [q|].
  - apply bind_Some in H as (it & _ & H). case_decide; [injection H as <- <- _; by apply gains_refl|].
    apply bind_Some in H as (c1 & He & H). injection H as <- <- _. unfold erase_node in He.
    case_decide; [injection He as <-; by apply gains_refl|done].
  - apply bind_Some in H as (c1 & He & H). apply bind_Some in H as ([[s1 h1] q] & Hl & [= <- <- <-]).
    assert (lru_table c1 = lru_table c) as <-; [|by apply (lookup_or_insert_gains x _ _ _ _ q)].
    unfold evict in He. case_decide; [apply bind_Some in He as (l & _ & He)|]; by injection He as <-.
Qed.

(** A null slot that is set adds its trace. *)
Lemma slot_traces_set (u : list (option Z)) i p :
  u !! i = Some None → omap id (<[i := Some p]> u) ≡ₚ p :: omap id u.
Proof.
  intros Hi. rewrite <- (take_drop_middle u i None Hi) at 2.
  rewrite insert_take_drop by (by eapply lookup_lt_Some). rewrite !omap_app. simpl.
  by rewrite Permutation_middle.
Qed.

Lemma slot_traces_new n : omap id (replicate n (@None Z)) = [].
Proof. by induction n. Qed.

(** ** Every trace stays accounted for *)

Lemma no_backtraces_accounted : accounted no_backtraces.
Proof. split; [intros p [t H]; discriminate H|done]. Qed.

Lemma gains_table s s' h h' rest :
  gains s s' h h' → stored s ≡ₚ h ++ rest → stored s' ≡ₚ h' ++ rest.
Proof. intros (_ & ps & -> & ->) ->. by rewrite <- app_assoc. Qed.

(** The part of the ledger that gains is brought to the front. *)
Lemma ledger_table b :
  freed b ++ kept b ≡ₚ table_traces (bt_table b) ++ omap id (default [] (bt_unique b)) ++ kept b.
Proof. unfold freed. by rewrite app_assoc. Qed.

Lemma ledger_unique b :
  freed b ++ kept b ≡ₚ omap id (default [] (bt_unique b)) ++ table_traces (bt_table b) ++ kept b.
Proof. by rewrite ledger_table, Permutation_app_swap_app. Qed.

Lemma ledger_lru b :
  freed b ++ kept b ≡ₚ table_traces (from_option lru_table ∅ (bt_lru b)) ++ freed b ++ bt_cache b.
Proof. unfold kept. by rewrite Permutation_app_swap_app. Qed.

Lemma ledger_cache b :
  freed b ++ kept b ≡ₚ
  bt_cache b ++ freed b ++ table_traces (from_option lru_table ∅ (bt_lru b)).
Proof. unfold kept. by rewrite (Permutation_app_comm (table_traces _) (bt_cache b)), Permutation_app_swap_app. Qed.

Lemma lru_accounted d buf n s s' r :
  accounted s → getBacktrace_lru d buf n s = Some (s', r) → accounted s'.
Proof.
  intros [Hs Hl] H. unfold getBacktrace_lru in H. destruct d; [by injection H as <- _|].
  apply bind_Some in H as (x & _ & H). apply bind_Some in H as ([[st c] p] & Hr & [= <- _]).
  apply refer_gains in Hr as Hg; [|done]. split; [by apply Hg|].
  rewrite ledger_lru. rewrite ledger_lru in Hl. eapply gains_table; [exact Hg|].
  simpl. by destruct (bt_lru s).
Qed.

Lemma nocache_accounted d buf n s s' r :
  accounted s → getBacktrace_nocache d buf n s = Some (s', r) → accounted s'.
Proof.
  intros [Hs Hl] H. unfold getBacktrace_nocache in H. destruct d; [by injection H as <- _|].
  apply bind_Some in H as (x & _ & H). apply bind_Some in H as ([[st h] p] & Hr & [= <- _]).
  apply lookup_or_insert_gains in Hr as Hg; [|done]. split; [by apply Hg|].
  rewrite ledger_table. rewrite ledger_table in Hl. by eapply gains_table.
Qed.

Lemma cache_accounted d buf n s s' r :
  accounted s → getBacktrace_cache d buf n s = Some (s', r) → accounted s'.
Proof.
  intros [Hs Hl] H. unfold getBacktrace_cache in H. destruct d; [by injection H as <- _|].
  apply bind_Some in H as (x & _ & H). apply bind_Some in H as ([[st cache] tr] & Hi & H).
  unfold insertOrGetTrace in Hi. case_decide.
  - destruct (new_trace x (bt_store s)) as [s1 q] eqn:En. injection Hi as <- <- <-.
    apply bind_Some in H as (s2 & Hb & [= <- _]).
    destruct (new_trace_ok _ _ _ _ Hs En) as (Hs1 & _).
    destruct (bump_frequency_stored _ _ _ Hs1 Hb) as [Hs2 Hst]. split; [done|]. simpl.
    pose proof (stored_insert_new x _ Hs) as Hn. rewrite En in Hn. simpl in Hn.
    rewrite Hst, Hn, ledger_cache, Hl, ledger_cache. simpl. change (q :: ?l) with ([q] ++ l).
    rewrite <- !app_assoc. by rewrite Permutation_app_swap_app.
  - apply bind_Some in Hi as (found & _ & [= <- <- <-]). destruct found as [q|].
    + apply bind_Some in H as (s2 & Hb & [= <- _]).
      destruct (bump_frequency_stored _ _ _ Hs Hb) as [Hs2 Hst]. split; [done|]. simpl.
      by rewrite Hst, Hl.
    + apply bind_Some in H as ([[s1 h] q] & Hr & H). apply bind_Some in H as (s2 & Hb & H).
      apply bind_Some in H as ([cache q'] & Hw & [= <- _]).
      apply swapLeastFrequentTrace_same in Hw as ->.
      apply lookup_or_insert_gains in Hr as Hg; [|done].
      destruct (bump_frequency_stored _ _ _ (proj1 Hg) Hb) as [Hs2 Hst]. split; [done|]. simpl.
      rewrite Hst, ledger_table. rewrite ledger_table in Hl. by eapply gains_table.
Qed.

Lemma unique_accounted d i m buf n s s' r :
  accounted s → getBacktraceUnique d i m buf n s = Some (s', r) → accounted s'.
Proof.
  intros [Hs Hl] H. unfold getBacktraceUnique in H. destruct d; [by injection H as <- _|].
  set (u := default (replicate (Z.to_nat m) None) (bt_unique s)) in *.
  assert (omap id u = omap id (default [] (bt_unique s))) as Hu.
  { unfold u. destruct (bt_unique s); [done|]. apply slot_traces_new. }
  apply bind_Some in H as (slot & Hslot & H). destruct slot as [p|].
  - injection H as <- _. split; [done|]. rewrite ledger_unique in Hl |- *. simpl. rewrite Hu. exact Hl.
  - apply bind_Some in H as (x & _ & H). destruct (new_trace x (bt_store s)) as [s1 q] eqn:En.
    injection H as <- _. destruct (new_trace_ok _ _ _ _ Hs En) as (Hs1 & _). split; [done|].
    pose proof (stored_insert_new x _ Hs) as Hn. rewrite En in Hn. simpl in Hn |- *.
    rewrite ledger_unique in Hl |- *. simpl. rewrite slot_traces_set by done.
    rewrite Hn, Hu, Hl. done.
Qed.

Lemma backtrace2_accounted d buf n s s' r :
  accounted s → getBacktrace2 d buf n s = Some (s', r) → accounted s'.
Proof.
  intros [Hs Hl] H. unfold getBacktrace2 in H. destruct d; [by injection H as <- _|].
  apply bind_Some in H as (x & _ & H). destruct (new_trace x (bt_store s)) as [s1 q] eqn:En.
  destruct (new_trace_ok _ _ _ _ Hs En) as (Hs1 & _ & Hq & Hfresh & _).
  apply bind_Some in H as (found & _ & H). destruct found as [p|]; injection H as <- _.
  - split; simpl.
    + intros p' [t Ht]. apply Hs1. simpl in Ht. apply lookup_delete_Some in Ht as [_ Ht]. by eexists.
    + rewrite <- Hl. injection En as <- <-. unfold stored. simpl in Hfresh |- *.
      by rewrite delete_insert_id.
  - split; [done|]. pose proof (stored_insert_new x _ Hs) as Hn. rewrite En in Hn. simpl in Hn |- *.
    rewrite ledger_table in Hl |- *. simpl. rewrite table_traces_file, Hn, Hl. done.
Qed.

Lemma takes_accounted s s' : takes_backtrace s s' → accounted s → accounted s'.
Proof.
  intros [] ?; eauto using lru_accounted, nocache_accounted, cache_accounted, unique_accounted,
    backtrace2_accounted.
Qed.

Lemma run_accounted s : rtc takes_backtrace no_backtraces s → accounted s.
Proof.
  assert (∀ x y, rtc takes_backtrace x y → accounted x → accounted y) as H.
  { induction 1; eauto using takes_accounted. }
  intros Hr. apply (H _ _ Hr), no_backtraces_accounted.
Qed.

(** ** What is released *)

Lemma mfoldl_bind {A B C} (f : B → A → option B) (g : C → list A) b l :
  mfoldl (λ b c, mfoldl f b (g c)) b l = mfoldl f b (l ≫= g).
Proof.
  revert b. induction l as [|c l IH]; intros b; [done|]. rewrite bind_cons, mfoldl_app. cbn [mfoldl].
  destruct (mfoldl f b (g c)); [apply IH|done].
Qed.

Lemma delete_slots s u : mfoldl delete_slot s u = mfoldl delete_trace s (omap id u).
Proof.
  revert s. induction u as [|[p|] u IH]; intros s; [done| |]; cbn [mfoldl omap list_omap id delete_slot];
    [destruct (delete_trace s p); [apply IH|done]|apply IH].
Qed.

(** Deleting live traces once each succeeds and leaves the others as they are. *)
Lemma delete_all s l r :
  stored s ≡ₚ l ++ r →
  ∃ s', mfoldl delete_trace s l = Some s' ∧ stored s' ≡ₚ r ∧ ts_map s' ⊆ ts_map s.
Proof.
  revert s. induction l as [|p l IH]; intros s Hl; [by exists s|]. cbn [mfoldl].
  assert (is_Some (ts_map s !! p)) as [t Ht].
  { apply stored_lookup. rewrite Hl. apply elem_of_cons. by left. }
  assert (delete_trace s p = Some (TraceStore (delete p (ts_map s)) (ts_next s))) as ->
    by (unfold delete_trace; by rewrite Ht).
  destruct (IH (TraceStore (delete p (ts_map s)) (ts_next s))) as (s' & E & Hr & Hsub).
  { apply (Permutation_cons_inv (a := p)). by rewrite (stored_delete s p t Ht). }
  exists s'. split; [exact E|]. split; [done|]. etrans; [exact Hsub|]. apply delete_subseteq.
Qed.

(** What is left and what is deleted. *)
Lemma freeMemory_spec s cs hash :
  rtc takes_backtrace no_backtraces s → callstacks_ok hash (bt_store s) cs →
  ∃ st deleted, freeMemory s cs = Some (st, deleted) ∧
    (∀ p, is_Some (ts_map st !! p) ↔ p ∈ kept s) ∧ ts_map st ⊆ ts_map (bt_store s) ∧
    NoDup (dt_uniqueID <$> deleted) ∧
    ∀ k n d, d ∈ bucket cs k n → d ∈ deleted.
Proof.
  intros Hr Hcs. destruct (run_accounted s Hr) as [_ Hl]. unfold freed in Hl.
  rewrite <- app_assoc in Hl. unfold freeMemory. rewrite mfoldl_bind.
  destruct (delete_all _ _ _ Hl) as (s1 & E1 & Hl1 & Hsub1). unfold table_traces in E1. rewrite E1.
  cbn [mbind option_bind]. rewrite delete_slots.
  destruct (delete_all _ _ _ Hl1) as (s2 & E2 & Hl2 & Hsub2). rewrite E2. eexists _, _. split; [done|].
  split; [intros p; by rewrite <- stored_lookup, Hl2|]. split; [by etrans|]. split.
  - rewrite <- list_fmap_compose.
    rewrite (list_fmap_ext _ fst) by
      (intros i [u d] Hi; apply list_elem_of_lookup_2, elem_of_map_to_list, (cs_dyn _ _ _ Hcs) in Hi;
       by destruct Hi).
    apply NoDup_fst_map_to_list.
  - intros k n d Hd. destruct (cs_bucket _ _ _ Hcs _ _ _ Hd) as [Hu _].
    apply list_elem_of_fmap. exists (dt_uniqueID d, d). by rewrite elem_of_map_to_list.
Qed.

(** C30: whatever backtraces a run takes, the exit that saves the sets also releases
    the tables: it deletes no trace twice and no trace that is gone; what is left
    are exactly the traces of the LRU cache's own table and of the frequency cache,
    unchanged, which nothing deletes; every dynamic trace that is filed in a bucket
    is deleted, and the deleted ones are distinct. *)
Theorem exit_releases SHADOW_WINDOW cfg mem scc fl sync g g' saved s cs hash :
  rtc takes_backtrace no_backtraces s → callstacks_ok hash (bt_store s) cs →
  PrintJSONWrapper SHADOW_WINDOW cfg mem scc fl cs sync g = Some (g', Some saved) →
  ∃ st deleted, freeMemory s cs = Some (st, deleted) ∧
    PrintJSON_exit SHADOW_WINDOW cfg mem scc fl sync g s cs = Some (g', Some saved, st) ∧
    (∀ p, is_Some (ts_map st !! p) ↔ p ∈ kept s) ∧ ts_map st ⊆ ts_map (bt_store s) ∧
    NoDup (dt_uniqueID <$> deleted) ∧
    ∀ k n d, d ∈ bucket cs k n → d ∈ deleted.
Proof.
  intros Hr Hcs Hp. destruct (freeMemory_spec s cs hash Hr Hcs) as (st & deleted & Ef & H).
  exists st, deleted. split; [done|]. split; [|done].
  unfold PrintJSON_exit. rewrite Hp. cbn [mbind option_bind]. by rewrite Ef.
Qed.

(** ** A run of a build with the LRU cache *)

(** A callstack for one slot of a function that is reached once, the slot asked
    again, and a callstack through the cache. *)
Definition frames_a : list Z := buffer (example_trace [4198400; 4198500]).

Definition frames_b : list Z := buffer (example_trace [4198400; 4198700; 4198900]).

Definition exit_run : option backtraces :=
  '(s, _) ← getBacktraceUnique false 1 2 frames_a 2 no_backtraces;
  '(s, _) ← getBacktraceUnique false 1 2 frames_a 2 s;
  '(s, _) ← getBacktrace_lru false frames_b 3 s;
  Some s.

(** The same without a cache. *)
Definition exit_run_nocache : option backtraces :=
  '(s, _) ← getBacktraceUnique false 1 2 frames_a 2 no_backtraces;
  '(s, _) ← getBacktrace_nocache false frames_b 3 s;
  '(s, _) ← getBacktrace_nocache false frames_b 3 s;
  Some s.

(** The trace of the cache is left. *)
Example lru_traces_left :
  (s ← exit_run; '(st, _) ← freeMemory s no_callstacks; Some (stored (bt_store s), stored st)) =
  Some ([1; 0], [1]).
Proof. vm_compute. reflexivity. Qed.

(** Without a cache nothing is. *)
Example nocache_none_left :
  (s ← exit_run_nocache; '(st, _) ← freeMemory s no_callstacks; Some (stored (bt_store s), stored st)) =
  Some ([1; 0], []).
Proof. vm_compute. reflexivity. Qed.

(** The first trace saved under the static identifier 7. *)
Definition exit_callstacks (t : Trace) : callstacks :=
  (incrementPushReturn 0 (nptrs t) 7 (myHashPart2 (λ x, x) (hashPart1 t) 7) no_callstacks).1.

Lemma no_callstacks_ok hash s : callstacks_ok hash s no_callstacks.
Proof.
  constructor; [|done|done]. intros k n d Hd. unfold bucket in Hd. simpl in Hd.
  rewrite lookup_empty in Hd. by apply elem_of_nil in Hd.
Qed.

Lemma exit_callstacks_ok s t :
  ts_map s !! 0 = Some t → callstacks_ok (λ x, x) s (exit_callstacks t).
Proof.
  intros Ht. unfold exit_callstacks.
  destruct (incrementPushReturn 0 (nptrs t) 7 (myHashPart2 (λ x, x) (hashPart1 t) 7) no_callstacks)
    as [cs id] eqn:E.
  apply (increment_ok (λ x, x) s 7 0 t no_callstacks cs id); [apply no_callstacks_ok|done|done|done].
Qed.

Definition exit_flags : flags := Flags false false true.

Definition print_exit (g : Globals) (cs : callstacks) : option (Globals * option (gmap Z StateToSave)) :=
  PrintJSONWrapper 8 default_config demo_mem demo_scc exit_flags cs 0 g.

Lemma exit_run_steps :
  ∃ s t, exit_run = Some s ∧ rtc takes_backtrace no_backtraces s ∧ kept s = [1] ∧
    ts_map (bt_store s) !! 0 = Some t.
Proof.
  assert (∃ s1 s2 s3 r1 r2 r3, getBacktraceUnique false 1 2 frames_a 2 no_backtraces = Some (s1, r1) ∧
    getBacktraceUnique false 1 2 frames_a 2 s1 = Some (s2, r2) ∧
    getBacktrace_lru false frames_b 3 s2 = Some (s3, r3) ∧ exit_run = Some s3 ∧
    kept s3 = [1] ∧ is_Some (ts_map (bt_store s3) !! 0))
    as (s1 & s2 & s3 & r1 & r2 & r3 & E1 & E2 & E3 & E & Hk & [t Ht]).
  { do 6 eexists. repeat (split; [vm_compute; reflexivity|]). vm_compute. by eexists. }
  exists s3, t. split; [done|]. split; [|done].
  eapply rtc_l; [by eapply takes_unique|]. eapply rtc_l; [by eapply takes_unique|].
  eapply rtc_l; [by eapply takes_lru|]. apply rtc_refl.
Qed.

Lemma exit_bucket t :
  MkDynamicTrace 0 7 1 ∈ bucket (exit_callstacks t) (myHashPart2 (λ x, x) (hashPart1 t) 7) (nptrs t).
Proof.
  unfold bucket, exit_callstacks, incrementPushReturn. simpl. rewrite lookup_insert_eq. simpl.
  rewrite lookup_insert_eq. simpl. set_solver.
Qed.

Lemma exit_releases_witness :
  ∃ g s t st deleted, kept_session = Some g ∧ exit_run = Some s ∧
    freeMemory s (exit_callstacks t) = Some (st, deleted) ∧
    is_Some (PrintJSON_exit 8 default_config demo_mem demo_scc exit_flags 0 g s (exit_callstacks t)) ∧
    is_Some (ts_map st !! 1) ∧ MkDynamicTrace 0 7 1 ∈ deleted.
Proof.
  destruct exit_run_steps as (s & t & E & Hr & Hk & Ht).
  destruct (g ← kept_session; print_exit g (exit_callstacks t)) as [[g' [saved|]]|] eqn:Ep;
    [|clear -Ep; vm_compute in Ep; discriminate|clear -Ep; vm_compute in Ep; discriminate].
  destruct kept_session as [g|]; [|discriminate Ep].
  destruct (exit_releases 8 default_config demo_mem demo_scc exit_flags 0 g g' saved s (exit_callstacks t)
              (λ x, x)) as (st & deleted & Ef & Ex & Hp & _ & _ & Hd).
  - exact Hr.
  - by apply exit_callstacks_ok.
  - exact Ep.
  - exists g, s, t, st, deleted. split; [done|]. split; [done|]. split; [done|].
    split; [rewrite Ex; by eexists|]. split; [apply Hp; rewrite Hk; set_solver|].
    apply (Hd _ _ _ (exit_bucket t)).
Defined.
