(* ===== verification/Queues.v ===== *)
(** * The background worker and the batch pipeline

    extra/texas/src/runtime/texas.cpp, the threaded side of the runtime.

    [Worker]: the mode the runtime starts in by default.  [texas_init] starts
    one thread, [singleShadowProcessShadowBatches]; the program fills buffers,
    pushes them to [texasWorkEntriesQueue] ([batchFull]) and waits for a free
    buffer of [texasReadyBatchEntriesQueue]; at exit [ReportStatistics] pushes
    the last batch and the kill message and joins the thread.  The step relation
    interleaves the two threads; for calls that create no region, with no statistics
    measured, it is shown to refine the serial mode of Batch.v, never to deadlock,
    and to end.

    [Bounds]: how [shadowRun] splits a batch over [NUM_SHADOWS] workers.

    [Pipeline]: the scheduler [processShadowBatches], which overlaps the
    cleaning of one batch with the processing of an earlier one. *)

From stdpp Require Import relations.
From S2P Require Import Prelude Helpers OrdMap Objects AllocTable ConnGraph Commit CleanBatch Shadow Batch.

(** ** One worker thread *)

Module Worker.
Section worker.
  Context (SHADOW_WINDOW : nat) (cfg : config) (mem : Z → Z)
    (strong_components : graph_t → list nat).

(** What a call of the program does to the current batch once the runtime runs
    and its region exists: it fills a slot, ends the batch early, or changes the
    active region; with [stateReductionTracking] on, [GetState] also measures the
    table for the region it enters.  The fields a filled slot keeps are those of
    the recycled buffer. *)
Inductive action :=
  | Fill (f : shadowEntry → shadowEntry)
  | Flush
  | SetActive (s : option sptr)
  | Measure (s : sptr).

(** The serial mode: the calls of Batch.v one after the other. *)
Definition serial_action (g : Globals) (a : action) : option Globals :=
  match a with
  | Fill f => fill_slot SHADOW_WINDOW cfg mem strong_components f g
  | Flush => batchFull SHADOW_WINDOW cfg mem strong_components false g
  | SetActive s => Some (set_activeState s g)
  | Measure s => measure_naive s g
  end.

(** Messages of [texasWorkEntriesQueue]. *)
Inductive message :=
  | NEW_BATCH (b : shadowBatch)
  | KILL_BATCH.

(** Where the main thread is: between two actions, in [waitPop] at the end of
    [batchFull], in [join], or past it. *)
Inductive phase := Running | Waiting | Joining | Joined.

Record system := mkSystem {
  globals : Globals;
  workQueue : list message;
  todo : list action;
  main_phase : phase;
  worker_alive : bool;
}.

(** [batchFull] up to its [waitPop]: the batch is pushed, the buffer now belongs
    to the worker. *)
Definition push_batch (n : nat) (acts : list action) (c : system) : system :=
  let g := globals c in
  mkSystem (set_slotStart 0 (set_curBatchNumber (curBatchNumber g +₆₄ 1) g))
    (workQueue c ++ [NEW_BATCH (mkBatch n (texasWorkEntries g) (curBatchNumber g))])
    acts Waiting (worker_alive c).

(** [ReportStatistics] up to [join]: the last batch, then the kill message. *)
Definition push_last (c : system) : system :=
  let g := globals c in
  mkSystem (set_curBatchNumber (curBatchNumber g +₆₄ 1) g)
    (workQueue c ++ [NEW_BATCH (mkBatch (slotStart g) (texasWorkEntries g) (curBatchNumber g)); KILL_BATCH])
    [] Joining (worker_alive c).

(** The steps of the two threads.  An iteration of the worker that finds the
    queue empty changes nothing and is no step. *)
Inductive step : system → system → Prop :=
  | step_fill g q f acts alive e :
      (slotStart g < SHADOW_WINDOW)%nat → texasWorkEntries g !! slotStart g = Some e →
      step (mkSystem g q (Fill f :: acts) Running alive)
        (mkSystem (set_texasWorkEntries (alter f (slotStart g) (texasWorkEntries g))
          (set_slotStart (S (slotStart g)) g)) q acts Running alive)
  | step_full g q f acts alive :
      (SHADOW_WINDOW <= slotStart g)%nat →
      step (mkSystem g q (Fill f :: acts) Running alive)
        (push_batch SHADOW_WINDOW (Fill f :: acts) (mkSystem g q (Fill f :: acts) Running alive))
  | step_flush g q acts alive :
      step (mkSystem g q (Flush :: acts) Running alive)
        (push_batch (slotStart g) acts (mkSystem g q (Flush :: acts) Running alive))
  | step_active g q s acts alive :
      step (mkSystem g q (SetActive s :: acts) Running alive)
        (mkSystem (set_activeState s g) q acts Running alive)
  | step_measure g g' q s acts alive :
      measure_naive s g = Some g' →
      step (mkSystem g q (Measure s :: acts) Running alive) (mkSystem g' q acts Running alive)
  | step_pop g q acts alive buf ready :
      texasReadyBatchEntriesQueue g = buf :: ready →
      step (mkSystem g q acts Waiting alive)
        (mkSystem (set_texasWorkEntries buf (set_readyQueue ready g)) q acts Running alive)
  | step_report g q alive :
      step (mkSystem g q [] Running alive) (push_last (mkSystem g q [] Running alive))
  | step_join g q acts :
      step (mkSystem g q acts Joining false) (mkSystem g q acts Joined false)
  | step_work g g' b q acts ph :
      serialProcessShadowBatch cfg mem strong_components b g = Some g' →
      step (mkSystem g (NEW_BATCH b :: q) acts ph true) (mkSystem g' q acts ph true)
  | step_kill g q acts ph :
      step (mkSystem g (KILL_BATCH :: q) acts ph true) (mkSystem g q acts ph false).

Definition initial (g : Globals) (acts : list action) : system := mkSystem g [] acts Running true.

(** The serial run up to the join: the last batch is processed in
    [ReportStatistics]. *)
Definition serial_last (g : Globals) : option Globals :=
  serialProcessShadowBatch cfg mem strong_components
    (mkBatch (slotStart g) (texasWorkEntries g) (curBatchNumber g))
    (set_curBatchNumber (curBatchNumber g +₆₄ 1) g).

Definition serial_run (g : Globals) (acts : list action) : option Globals :=
  g ← mfoldl serial_action g acts; serial_last g.

(** What [ReportStatistics] does after the join. *)
Definition report_joined (g : Globals) : option Globals :=
  table ← allocationMap g;
  rt ← CommitStateInfoForAllocations table (store g);
  '(table, rt) ← (if trackCycles cfg then
      '(t, rt) ← GenerateConnectionGraph mem table rt;
      t ← FindCyclesInConnectionGraph strong_components rt (stateMap g) t;
      Some (t, rt)
    else Some (table, rt));
  g ← each_state (λ _ st, Some (CommitState st)) (set_allocationMap (Some table) (set_store rt g));
  g ← ReportStates cfg g;
  Some (set_inRT true g).

Lemma ReportStatistics_split g :
  ReportStatistics cfg mem strong_components g = g' ← serial_last g; report_joined g'.
Proof. done. Qed.

(** ** What the worker touches *)

(** The fields of the globals that only the worker reads and writes while it
    runs: the store, its table and the region of the last marker.  The rest
    belongs to the main thread, but for the queue of free buffers, to which the
    worker appends. *)
Definition work (b : shadowBatch) (sm : gmap Z (option sptr)) (rt : Runtime) (tbl : option AllocationTable)
    (old : option sptr) : option (Runtime * option AllocationTable * option sptr * list shadowEntry) :=
  if decide (List.length (shadowEntries b) < numEntries b)%nat then None
  else
    '(rt, old, cleaned) ← cleanBatch cfg rt old (take (numEntries b) (shadowEntries b));
    let buf := cleaned ++ drop (numEntries b) (shadowEntries b) in
    table ← tbl;
    '(worker, _, rt, buf) ← processShadowBatch mem strong_components cfg sm None 0 (numEntries b) buf
      (new_Shadow table false) rt;
    Some (rt, Some (localAllocationTable worker), old, buf).

(** The worker's part of [g], the main thread's part of [m], and the ready queue
    of [m] followed by [bufs]. *)
Definition overlay (g m : Globals) (bufs : list (list shadowEntry)) : Globals :=
  mkGlobals (store g) (allocationMap g) (inRT m) (activeState m) (currentStateID m) (stateMap m)
    (oldState g) (slotStart m) (texasWorkEntries m) (texasReadyBatchEntriesQueue m ++ bufs)
    (curBatchNumber m).

Lemma serialProcess_work b g :
  serialProcessShadowBatch cfg mem strong_components b g =
  '(rt, tbl, old, buf) ← work b (stateMap g) (store g) (allocationMap g) (oldState g);
  Some (set_readyQueue (texasReadyBatchEntriesQueue g ++ [buf])
    (set_allocationMap tbl (set_oldState old (set_store rt g)))).
Proof.
  unfold serialProcessShadowBatch, work. case_decide; [done|].
  destruct (cleanBatch _ _ _ _) as [[[rt old] cl]|]; [|done]. cbn [mbind option_bind].
  destruct (allocationMap g) as [t|]; [|done]. cbn [mbind option_bind].
  by destruct (processShadowBatch _ _ _ _ _ _ _ _ _ _) as [[[[? ?] ?] ?]|].
Qed.

(** Processing a batch is the same whatever the main thread has done meanwhile,
    as long as it created no region. *)
Lemma serialProcess_overlay b g m g' :
  serialProcessShadowBatch cfg mem strong_components b g = Some g' → stateMap m = stateMap g →
  ∃ buf, texasReadyBatchEntriesQueue g' = texasReadyBatchEntriesQueue g ++ [buf] ∧
    g' = overlay g' g [buf] ∧
    ∀ bufs, serialProcessShadowBatch cfg mem strong_components b (overlay g m bufs) =
      Some (overlay g' m (bufs ++ [buf])).
Proof.
  rewrite serialProcess_work. intros H Hsm. apply bind_Some in H as ([[[rt tbl] old] buf] & Hw & [= <-]).
  exists buf. split; [done|]. split; [by destruct g|]. intros bufs.
  rewrite serialProcess_work. simpl. rewrite Hsm, Hw. simpl. unfold overlay. simpl. by rewrite app_assoc.
Qed.

(** All the batches of the queue, one after the other. *)
Definition drain (q : list message) (g : Globals) : option Globals :=
  mfoldl (λ g msg, match msg with
    | NEW_BATCH b => serialProcessShadowBatch cfg mem strong_components b g
    | KILL_BATCH => Some g
    end) g q.

Lemma drain_overlay q g g' :
  drain q g = Some g' →
  ∃ bufs, texasReadyBatchEntriesQueue g' = texasReadyBatchEntriesQueue g ++ bufs ∧ g' = overlay g' g bufs ∧
    ∀ m bufs', stateMap m = stateMap g →
      drain q (overlay g m bufs') = Some (overlay g' m (bufs' ++ bufs)).
Proof.
  revert g. induction q as [|[b|] q IH]; intros g; simpl.
  - intros [= <-]. exists []. rewrite app_nil_r. split; [done|]. split; [destruct g; by unfold overlay; simpl; rewrite app_nil_r|].
    intros m bufs' _. by rewrite app_nil_r.
  - intros H. apply bind_Some in H as (g1 & Hb & H). apply IH in H as (bufs & Hr & Hg & Ho).
    destruct (serialProcess_overlay _ _ g _ Hb eq_refl) as (buf & Hr1 & Hg1 & _).
    exists (buf :: bufs). split; [by rewrite Hr, Hr1, <- app_assoc|]. split.
    { rewrite Hg at 1. rewrite Hg1 at 1. unfold overlay. simpl. by rewrite <- app_assoc. }
    intros m bufs' Hm. destruct (serialProcess_overlay _ _ m _ Hb Hm) as (buf' & Hr1' & _ & Ho1).
    rewrite Hr1 in Hr1'. apply app_inj_tail in Hr1' as [_ <-].
    unfold drain. cbn [mfoldl]. rewrite Ho1. cbn [mbind option_bind].
    change (drain q (overlay g1 m (bufs' ++ [buf])) = Some (overlay g' m (bufs' ++ buf :: bufs))).
    rewrite Ho by (rewrite Hg1; done). by rewrite <- app_assoc.
  - apply IH.
Qed.

(** ** The serial run that remains *)

(** The end of [waitPop]. *)
Definition pop (g : Globals) : option Globals :=
  match texasReadyBatchEntriesQueue g with
  | [] => None
  | buf :: ready => Some (set_texasWorkEntries buf (set_readyQueue ready g))
  end.

(** Where the run would end if the pending batches and then the remaining
    actions were processed serially. *)
Definition serial_rest (c : system) : option Globals :=
  g ← drain (workQueue c) (globals c);
  match main_phase c with
  | Running => serial_run g (todo c)
  | Waiting => g ← pop g; serial_run g (todo c)
  | Joining | Joined => Some g
  end.

(** A step of the main thread leaves the worker's fields and the regions. *)
Definition main_change (g m : Globals) : Prop :=
  store m = store g ∧ allocationMap m = allocationMap g ∧ oldState m = oldState g ∧ stateMap m = stateMap g.

Lemma drain_main q g gs :
  drain q g = Some gs →
  ∃ w bufs, gs = overlay w g bufs ∧
    ∀ m, main_change g m → drain q m = Some (overlay w m bufs).
Proof.
  intros H. destruct (drain_overlay _ _ _ H) as (bufs & Hr & Hg & Ho). exists gs, bufs.
  split; [done|]. intros m (H1 & H2 & H3 & H4). specialize (Ho m [] H4).
  replace (overlay g m []) with m in Ho; [done|].
  destruct m; unfold overlay; simpl in *. rewrite app_nil_r. congruence.
Qed.

Lemma drain_app q1 q2 g : drain (q1 ++ q2) g = g' ← drain q1 g; drain q2 g'.
Proof. apply mfoldl_app. Qed.

(** [batchFull]: pushing the batch and waiting for a buffer leads the worker to
    where the serial call ends. *)
Lemma push_rest q g gs cap g4 :
  drain q g = Some gs → batchFull SHADOW_WINDOW cfg mem strong_components cap gs = Some g4 →
  (g' ← drain (q ++ [NEW_BATCH (mkBatch (if cap then SHADOW_WINDOW else slotStart g)
      (texasWorkEntries g) (curBatchNumber g))])
    (set_slotStart 0 (set_curBatchNumber (curBatchNumber g +₆₄ 1) g)); pop g') = Some g4.
Proof.
  intros Hq Hb. destruct (drain_main _ _ _ Hq) as (w & bufs & -> & Hm).
  rewrite drain_app. rewrite Hm by done. cbn [mbind option_bind].
  unfold batchFull in Hb. apply bind_Some in Hb as (g3 & Hp & Hb).
  set (b := mkBatch _ _ _) in *.
  destruct (serialProcess_overlay b _ (set_slotStart 0 (set_curBatchNumber (curBatchNumber g +₆₄ 1) g)) g3 Hp)
    as (buf & Hr & Hg3 & Ho); [done|].
  specialize (Ho bufs). unfold drain. cbn [mfoldl].
  change (overlay (set_curBatchNumber (curBatchNumber (overlay w g bufs) +₆₄ 1) (overlay w g bufs))
    (set_slotStart 0 (set_curBatchNumber (curBatchNumber g +₆₄ 1) g)) bufs)
    with (overlay w (set_slotStart 0 (set_curBatchNumber (curBatchNumber g +₆₄ 1) g)) bufs) in Ho.
  change (mkBatch (if cap then SHADOW_WINDOW else slotStart g) (texasWorkEntries g) (curBatchNumber g)) with b.
  rewrite Ho. cbn [mbind option_bind]. unfold pop. simpl in Hr |- *. rewrite Hr in Hb.
  rewrite app_assoc. destruct ((texasReadyBatchEntriesQueue g ++ bufs) ++ [buf]) as [|x r]; [done|].
  injection Hb as <-. rewrite Hg3. done.
Qed.

Lemma fill_slot_ready f g e :
  (slotStart g < SHADOW_WINDOW)%nat → texasWorkEntries g !! slotStart g = Some e →
  fill_slot SHADOW_WINDOW cfg mem strong_components f g =
  Some (set_texasWorkEntries (alter f (slotStart g) (texasWorkEntries g)) (set_slotStart (S (slotStart g)) g)).
Proof.
  intros Hlt He. unfold fill_slot, getFreeSlot. rewrite decide_False by lia. cbn [mbind option_bind].
  simpl. by rewrite He.
Qed.

Lemma fill_slot_full f g :
  (0 < SHADOW_WINDOW)%nat → (SHADOW_WINDOW <= slotStart g)%nat →
  fill_slot SHADOW_WINDOW cfg mem strong_components f g =
  g ← batchFull SHADOW_WINDOW cfg mem strong_components true g;
  fill_slot SHADOW_WINDOW cfg mem strong_components f g.
Proof.
  intros Hpos Hle. unfold fill_slot at 1, getFreeSlot. rewrite decide_True by done.
  destruct (batchFull _ _ _ _ true g) as [g1|] eqn:Hb; [|done]. cbn [mbind option_bind].
  assert (slotStart g1 = 0%nat) as E.
  { unfold batchFull in Hb. apply bind_Some in Hb as (g2 & _ & Hb).
    destruct (texasReadyBatchEntriesQueue g2); [done|]. by injection Hb as <-. }
  unfold fill_slot, getFreeSlot. rewrite decide_False by lia. done.
Qed.

(** Actions that measure nothing: [stateReductionTracking] is off. *)
Definition quiet (a : action) : Prop := match a with Measure _ => False | _ => True end.

Lemma serial_run_cons a acts g :
  serial_run g (a :: acts) = g' ← serial_action g a; serial_run g' acts.
Proof. unfold serial_run. simpl. by destruct (serial_action g a). Qed.

Lemma step_rest c c' gF :
  (0 < SHADOW_WINDOW)%nat → Forall quiet (todo c) → step c c' →
  serial_rest c = Some gF → serial_rest c' = Some gF ∧ Forall quiet (todo c').
Proof.
  intros Hpos Hqu Hstep Hrest. unfold serial_rest in Hrest. apply bind_Some in Hrest as (gs & Hq & Hrest).
  destruct Hstep; simpl in *; try (apply Forall_cons in Hqu as [Ha Hqu]).
  - split; [|done]. destruct (drain_main _ _ _ Hq) as (w & bufs & -> & Hm).
    unfold serial_rest. simpl. rewrite Hm by done. simpl.
    rewrite serial_run_cons in Hrest. simpl in Hrest. by rewrite (fill_slot_ready f _ e) in Hrest.
  - split; [|by apply Forall_cons]. destruct (drain_main _ _ _ Hq) as (w & bufs & -> & _).
    rewrite serial_run_cons in Hrest. simpl in Hrest. rewrite fill_slot_full in Hrest by done.
    apply bind_Some in Hrest as (g1 & Hf & Hrest). apply bind_Some in Hf as (g4 & Hb & Hf).
    pose proof (push_rest q g _ true g4 Hq Hb) as Hp. apply bind_Some in Hp as (g5 & Hd & Hp).
    unfold serial_rest. simpl. rewrite Hd. simpl. rewrite Hp. simpl.
    rewrite serial_run_cons. simpl. by rewrite Hf.
  - split; [|done]. rewrite serial_run_cons in Hrest. apply bind_Some in Hrest as (g4 & Hb & Hrest).
    simpl in Hb. pose proof (push_rest q g _ false g4 Hq Hb) as Hp. apply bind_Some in Hp as (g5 & Hd & Hp).
    unfold serial_rest. simpl. rewrite Hd. simpl. by rewrite Hp.
  - split; [|done]. destruct (drain_main _ _ _ Hq) as (w & bufs & -> & Hm).
    unfold serial_rest. simpl. by rewrite Hm.
  - done.
  - split; [|done]. destruct (drain_main _ _ _ Hq) as (w & bufs & -> & Hm).
    unfold pop in Hrest. simpl in Hrest. rewrite H in Hrest. simpl in Hrest.
    unfold serial_rest. simpl. by rewrite Hm.
  - split; [|done]. destruct (drain_main _ _ _ Hq) as (w & bufs & -> & Hm).
    unfold serial_rest. cbn [workQueue globals push_last main_phase]. rewrite drain_app, Hm by done.
    cbn [mbind option_bind]. unfold drain. cbn [mfoldl].
    change (serial_last (overlay w g bufs) = Some gF) in Hrest. unfold serial_last in Hrest.
    change (overlay w (set_curBatchNumber (curBatchNumber g +₆₄ 1) g) bufs) with
      (set_curBatchNumber (curBatchNumber g +₆₄ 1) (overlay w g bufs)).
    change (slotStart (overlay w g bufs)) with (slotStart g) in Hrest.
    change (texasWorkEntries (overlay w g bufs)) with (texasWorkEntries g) in Hrest.
    change (curBatchNumber (overlay w g bufs)) with (curBatchNumber g) in Hrest.
    by rewrite Hrest.
  - split; [|done]. unfold serial_rest. simpl. by rewrite Hq.
  - split; [|done]. unfold serial_rest. simpl. unfold drain in Hq. simpl in Hq. rewrite H in Hq.
    cbn [mbind option_bind] in Hq. unfold drain. by rewrite Hq.
  - split; [|done]. unfold serial_rest. simpl. unfold drain in *. simpl in Hq. by rewrite Hq.
Qed.

(** ** Progress *)

Definition is_batch (msg : message) : Prop := match msg with NEW_BATCH _ => True | KILL_BATCH => False end.

(** The kill message is the last one, and it is sent exactly when the main thread
    joins. *)
Definition shape (c : system) : Prop :=
  match main_phase c with
  | Running | Waiting => worker_alive c = true ∧ Forall is_batch (workQueue c)
  | Joining => (worker_alive c = true ∧ ∃ bs, workQueue c = bs ++ [KILL_BATCH] ∧ Forall is_batch bs)
               ∨ (worker_alive c = false ∧ workQueue c = [])
  | Joined => worker_alive c = false ∧ workQueue c = []
  end.

Lemma step_shape c c' : step c c' → shape c → shape c'.
Proof.
  intros Hstep Hs. destruct Hstep; unfold shape in *; simpl in *; try done.
  - destruct Hs as [-> Hq]. split; [done|]. apply Forall_app. split; [done|by repeat constructor].
  - destruct Hs as [-> Hq]. split; [done|]. apply Forall_app. split; [done|by repeat constructor].
  - destruct Hs as [-> Hq]. left. split; [done|].
    exists (q ++ [NEW_BATCH (mkBatch (slotStart g) (texasWorkEntries g) (curBatchNumber g))]).
    rewrite <- app_assoc. split; [done|]. apply Forall_app. split; [done|by repeat constructor].
  - destruct Hs as [[? _]|[_ ->]]; [done|by split].
  - destruct ph; simpl in *; [|..|by destruct Hs].
    + destruct Hs as [_ Hq]. by apply Forall_cons in Hq as [_ ?].
    + destruct Hs as [_ Hq]. by apply Forall_cons in Hq as [_ ?].
    + left. split; [done|]. destruct Hs as [(_ & [|m bs] & Hbs & Hq)|[? _]]; [done| |done].
      injection Hbs as <- ->. apply Forall_cons in Hq as [_ ?]. by exists bs.
  - destruct ph; simpl in *.
    + destruct Hs as [_ Hq]. by apply Forall_cons in Hq as [? _].
    + destruct Hs as [_ Hq]. by apply Forall_cons in Hq as [? _].
    + right. split; [done|]. destruct Hs as [(_ & [|m bs] & Hbs & Hq)|[? _]]; [| |done].
      * by injection Hbs.
      * injection Hbs as <- ->. by apply Forall_cons in Hq as [? _].
    + by destruct Hs.
Qed.

(** The worker can take a batch whenever the serial run that remains exists. *)
Lemma worker_progress g msg q acts ph gF :
  drain (msg :: q) g = Some gF → ∃ c', step (mkSystem g (msg :: q) acts ph true) c'.
Proof.
  destruct msg as [b|]; [|eexists; apply step_kill]. unfold drain. simpl. intros H.
  apply bind_Some in H as (g1 & Hb & _). eexists. by eapply step_work.
Qed.

Lemma serial_progress g gs q a acts gF :
  drain q g = Some gs → quiet a → serial_action gs a = Some gF →
  ∃ c', step (mkSystem g q (a :: acts) Running true) c'.
Proof.
  intros Hq Ha Hs. destruct a as [f| |s|s]; [|eexists; apply step_flush|eexists; apply step_active|done].
  destruct (decide (SHADOW_WINDOW <= slotStart g)%nat) as [Hle|Hlt].
  { eexists. by apply step_full. }
  destruct (drain_main _ _ _ Hq) as (w & bufs & -> & _). simpl in Hs.
  unfold fill_slot, getFreeSlot in Hs. rewrite decide_False in Hs by done. simpl in Hs.
  apply bind_Some in Hs as (e & He & _). eexists. eapply step_fill; [lia|exact He].
Qed.

Lemma rest_progress c gF :
  shape c → Forall quiet (todo c) → serial_rest c = Some gF →
  (main_phase c = Joined ∧ globals c = gF) ∨ ∃ c', step c c'.
Proof.
  destruct c as [g q acts ph alive]. intros Hs Hqu Hr.
  unfold serial_rest in Hr. simpl in *. apply bind_Some in Hr as (gs & Hq & Hr).
  destruct ph; unfold shape in Hs; simpl in *.
  - destruct Hs as [-> _]. right. destruct acts as [|a acts]; [eexists; apply step_report|].
    rewrite serial_run_cons in Hr. apply bind_Some in Hr as (g1 & Ha & _).
    apply Forall_cons in Hqu as [Hqa _]. by eapply serial_progress.
  - destruct Hs as [-> _]. right. destruct q as [|msg q]; [|by eapply worker_progress].
    unfold drain in Hq. injection Hq as <-. unfold pop in Hr.
    destruct (texasReadyBatchEntriesQueue g) as [|buf ready] eqn:E; [done|].
    eexists. by eapply step_pop.
  - right. destruct Hs as [(-> & [|msg bs] & -> & _)|[-> ->]].
    + by eapply worker_progress.
    + by eapply worker_progress.
    + eexists. apply step_join.
  - left. destruct Hs as [-> ->]. unfold drain in Hq. simpl in Hq. by simplify_eq.
Qed.

Lemma reachable_ok g acts gF c :
  (0 < SHADOW_WINDOW)%nat → Forall quiet acts → serial_run g acts = Some gF →
  rtc step (initial g acts) c → shape c ∧ Forall quiet (todo c) ∧ serial_rest c = Some gF.
Proof.
  intros Hpos Hqu Hrun Hreach.
  assert (shape (initial g acts) ∧ Forall quiet (todo (initial g acts)) ∧
    serial_rest (initial g acts) = Some gF) as Hinit by (split; [by split|]; split; done).
  revert Hinit. generalize (initial g acts) Hreach. clear g acts Hqu Hrun Hreach.
  intros c0 Hreach. induction Hreach as [c|c1 c2 c3 Hstep _ IH]; [done|].
  intros (Hs & Hqu & Hr). apply IH. split; [by eapply step_shape|].
  by destruct (step_rest _ _ _ Hpos Hqu Hstep Hr).
Qed.

(** ** Termination *)

Definition measure (c : system) : nat :=
  4 * List.length (todo c) + List.length (workQueue c) +
  (if decide (SHADOW_WINDOW <= slotStart (globals c))%nat then 3 else 0) +
  match main_phase c with Running => 4 | Waiting => 5 | Joining => 1 | Joined => 0 end.

Lemma step_measure_lt c c' : (0 < SHADOW_WINDOW)%nat → step c c' → (measure c' < measure c)%nat.
Proof.
  intros Hpos Hstep. destruct Hstep; unfold measure; simpl; rewrite ?length_app; simpl;
    try (repeat case_decide; lia).
  destruct (serialProcess_overlay _ _ g _ H eq_refl) as (buf & _ & -> & _). simpl. lia.
Qed.

Lemma steps_bounded n c c' : (0 < SHADOW_WINDOW)%nat → nsteps step n c c' → (n <= measure c)%nat.
Proof.
  intros Hpos. induction 1 as [c|n c1 c2 c3 Hstep _ IH]; [lia|].
  pose proof (step_measure_lt _ _ Hpos Hstep). lia.
Qed.

(** ** The calls of the program as actions *)

(** Every call of the runtime that fills the batch; those that take a region, with
    the region. *)
Inductive apicall :=
  | CAlloc (address len ori : Z)
  | CCalloc (address len sizeOfEntry ori : Z)
  | CRealloc (address newAddress len ori : Z)
  | CFree (address : Z)
  | CAllocFor (address len ori : Z) (state : option sptr)
  | CCallocFor (address len sizeOfEntry ori : Z) (state : option sptr)
  | CReallocFor (address newAddress len ori : Z) (state : option sptr)
  | CFreeFor (address : Z) (state : option sptr)
  | CEscape (address : Z)
  | CFindCycle (sync stateID : Z)
  | CAccess (allocPtr rw id : Z)
  | CAccessMulti (allocPtr1 allocPtr2 rw rw2 id : Z)
  | CRedundant
  | CSetRegion (startPtr lengthInBytes stateID class id : Z)
  | CEnter (funcName : string) (lineNum : Z)
  | CEnd (stateID : Z)
  | CInvocation (stateID : Z).

(** The calls of Batch.v.  The buffers exist, so the parameters of
    [texas_init] do not matter. *)
Definition run_call (g : Globals) (c : apicall) : option Globals :=
  match c with
  | CAlloc a l o => AddToAllocationTable SHADOW_WINDOW 0 cfg mem strong_components (λ _, []) a l o g
  | CCalloc a l n o => AddCallocToAllocationTable SHADOW_WINDOW 0 cfg mem strong_components (λ _, []) a l n o g
  | CRealloc a a' l o => HandleReallocInAllocationTable SHADOW_WINDOW 0 cfg mem strong_components (λ _, []) a a' l o g
  | CFree a => RemoveFromAllocationTable SHADOW_WINDOW 0 cfg mem strong_components (λ _, []) a g
  | CAllocFor a l o s => AddToAllocationTable_state SHADOW_WINDOW 0 cfg mem strong_components (λ _, []) a l o s g
  | CCallocFor a l n o s => AddCallocToAllocationTable_state SHADOW_WINDOW 0 cfg mem strong_components (λ _, []) a l n o s g
  | CReallocFor a a' l o s => HandleReallocInAllocationTable_state SHADOW_WINDOW 0 cfg mem strong_components (λ _, []) a a' l o s g
  | CFreeFor a s => RemoveFromAllocationTable_state SHADOW_WINDOW 0 cfg mem strong_components (λ _, []) a s g
  | CEscape a => AddToEscapeTable SHADOW_WINDOW 0 cfg mem strong_components (λ _, []) a g
  | CAccess a rw id => AddToState SHADOW_WINDOW 0 cfg mem strong_components (λ _, []) a rw id g
  | CAccessMulti a b rw rw2 id => AddToStateMulti SHADOW_WINDOW 0 cfg mem strong_components (λ _, []) a b rw rw2 id g
  | CFindCycle a id => FindCycleInAllocationMap_state SHADOW_WINDOW cfg mem strong_components a id g
  | CRedundant => AddRedundantOp SHADOW_WINDOW 0 cfg mem strong_components (λ _, []) g
  | CSetRegion a l sid cl id => SetStateRegion SHADOW_WINDOW 0 cfg mem strong_components (λ _, []) a l sid cl id g
  | CEnter f l => fst <$> GetState SHADOW_WINDOW cfg mem strong_components f l 0 g
  | CEnd id => fst <$> EndState SHADOW_WINDOW cfg mem strong_components id g
  | CInvocation id => fst <$> EndStateInvocation SHADOW_WINDOW cfg mem strong_components id g
  end.

(** The slot of an allocation, of a deallocation and of an access. *)
Definition alloc_slot (a l o : Z) (state : option sptr) (e : shadowEntry) : shadowEntry :=
  set_eaffiliated state (set_information o (set_size l (set_ptr a (set_operation ALLOC_ADD e)))).

Definition free_slot (a : Z) (state : option sptr) (e : shadowEntry) : shadowEntry :=
  set_eaffiliated state (set_ptr a (set_operation ALLOC_FREE e)).

Definition access_actions (g : Globals) (a rw id : Z) : list action :=
  match activeState g with
  | None => []
  | Some _ => [Fill (λ e, set_information id (set_ptr a
      (set_operation (op_of_code (wrap64 (op_code STATE_ADD_READ + rw))) e)))]
  end.

(** What the call does to the batch.  It looks only at fields the worker never
    writes: the active region, [stateMap], and the names and parents of the
    regions.  A call that creates a region, or an entry of [stateMap], has no
    actions. *)
Definition actions_of (g : Globals) (c : apicall) : option (list action) :=
  match c with
  | CAlloc a l o => Some [Fill (alloc_slot a l o (activeState g))]
  | CCalloc a l n o => Some [Fill (alloc_slot a (l *₆₄ n) o (activeState g))]
  | CRealloc a a' l o => Some [Fill (free_slot a (activeState g)); Fill (alloc_slot a' l o (activeState g))]
  | CFree a => Some [Fill (free_slot a (activeState g))]
  | CAllocFor a l o s => Some [Fill (λ e, set_information o (set_eaffiliated s (set_size l (set_ptr a (set_operation ALLOC_ADD e)))))]
  | CCallocFor a l n o s =>
      Some [Fill (λ e, set_information o (set_eaffiliated s (set_size (l *₆₄ n) (set_ptr a (set_operation ALLOC_ADD e)))))]
  | CReallocFor a a' l o s => Some [Fill (free_slot a s);
      Fill (λ e, set_information o (set_eaffiliated s (set_size l (set_ptr a' (set_operation ALLOC_ADD e)))))]
  | CFreeFor a s => Some [Fill (free_slot a s)]
  | CEscape a => Some (if trackCycles cfg then [Fill (λ e, set_ptr a (set_operation ESCAPE_ADD e))] else [])
  | CFindCycle a id => Some [Fill (λ e, set_size id (set_operation DETECT_CYCLE (set_ptr a e))); Flush]
  | CAccess a rw id => Some (access_actions g a rw id)
  | CAccessMulti a b rw rw2 id =>
      Some (access_actions g a rw id ++ if decide (b ≠ 0) then access_actions g b rw2 id else [])
  | CRedundant => Some [Fill (λ e, set_size 0 (set_ptr 0 (set_operation REDUNDANT (set_information 0 e))))]
  | CSetRegion a l sid cl id =>
      s ← stateMap g !! sid;
      Some [Fill (λ e, set_stateToSet (char_cast cl) (set_size l (set_eaffiliated s (set_ptr a
        (set_operation STATE_REGION_SET (set_information id e))))))]
  | CEnter f l =>
      found ← find_state (states (store g)) f l (map_to_list (stateMap g)); s ← found;
      Some (SetActive (Some s) :: (if stateReductionTracking cfg then [Measure s] else []) ++
        [Fill (λ e, set_statePtr (Some s) (set_operation STATE_BEGIN e))])
  | CEnd id =>
      match activeState g with
      | None => Some []
      | Some s => st ← states (store g) !! s;
          Some [Fill (λ e, set_statePtr (Some s) (set_operation STATE_END e)); SetActive (parent st)]
      end
  | CInvocation id => Some (match stateMap g !! id with
      | None => []
      | Some s => [Fill (λ e, set_statePtr s (set_operation STATE_COMMIT e)); Flush]
      end)
  end.

(** The actions of a sequence of calls, followed along the serial run. *)
Fixpoint trace (g : Globals) (cs : list apicall) : option (list action) :=
  match cs with
  | [] => Some []
  | c :: cs => a ← actions_of g c; g' ← run_call g c; acts ← trace g' cs; Some (a ++ acts)
  end.

Definition running (g : Globals) : Prop := inRT g = false ∧ is_Some (allocationMap g).

Lemma serialProcess_running b g g' :
  serialProcessShadowBatch cfg mem strong_components b g = Some g' → is_Some (allocationMap g').
Proof.
  rewrite serialProcess_work. intros H. apply bind_Some in H as ([[[rt tbl] old] buf] & Hw & [= <-]).
  unfold work in Hw. case_decide; [done|]. apply bind_Some in Hw as ([[rt1 old1] cl] & _ & Hw).
  apply bind_Some in Hw as (t & _ & Hw). apply bind_Some in Hw as ([[[sh r] rt2] buf2] & _ & [= _ <- _ _]).
  by eexists.
Qed.

Lemma batchFull_inRT cap x g :
  batchFull SHADOW_WINDOW cfg mem strong_components cap (set_inRT x g) =
  set_inRT x <$> batchFull SHADOW_WINDOW cfg mem strong_components cap g.
Proof.
  unfold batchFull. rewrite !serialProcess_work. simpl.
  destruct (work _ _ _ _ _) as [[[[rt tbl] old] buf]|]; [|done]. simpl.
  by destruct (texasReadyBatchEntriesQueue g ++ [buf]).
Qed.

Lemma fill_slot_inRT f x g :
  fill_slot SHADOW_WINDOW cfg mem strong_components f (set_inRT x g) =
  set_inRT x <$> fill_slot SHADOW_WINDOW cfg mem strong_components f g.
Proof.
  unfold fill_slot, getFreeSlot. simpl. case_decide.
  - rewrite batchFull_inRT. destruct (batchFull _ _ _ _ true g) as [g1|]; [|done]. simpl.
    by destruct (texasWorkEntries g1 !! slotStart g1).
  - simpl. by destruct (texasWorkEntries g !! slotStart g).
Qed.

Lemma batchFull_running cap g g' :
  batchFull SHADOW_WINDOW cfg mem strong_components cap g = Some g' → running g → running g'.
Proof.
  unfold batchFull, running. intros H [Hin _]. apply bind_Some in H as (g1 & Hs & H).
  pose proof (serialProcess_running _ _ _ Hs) as Ht.
  destruct (serialProcess_overlay _ _ g _ Hs eq_refl) as (buf & _ & Hg & _). rewrite Hg in H, Ht.
  simpl in H. destruct (texasReadyBatchEntriesQueue g ++ [buf]); [done|]. by injection H as <-.
Qed.

Lemma fill_slot_running f g g' :
  fill_slot SHADOW_WINDOW cfg mem strong_components f g = Some g' → running g → running g'.
Proof.
  unfold fill_slot, getFreeSlot. intros H Hr. apply bind_Some in H as ([g1 i] & H1 & H).
  apply bind_Some in H as (e & _ & [= <-]). apply bind_Some in H1 as (g2 & H2 & [= <- _]).
  case_decide; [|by injection H2 as <-].
  destruct (batchFull_running true g g2) as [? ?]; [done..|by split].
Qed.

(** Outside the runtime, a call that fills one slot is that action. *)
Lemma in_runtime_fill f g :
  running g → in_runtime SHADOW_WINDOW 0 (λ _, []) (fill_slot SHADOW_WINDOW cfg mem strong_components f) g =
  fill_slot SHADOW_WINDOW cfg mem strong_components f g.
Proof.
  intros [Hin [t Ht]]. unfold in_runtime, texas_init. rewrite Hin. simpl. rewrite Ht. simpl.
  rewrite fill_slot_inRT. destruct (fill_slot _ _ _ _ f g) as [g1|] eqn:E; [|done]. simpl.
  destruct (fill_slot_running _ _ _ E) as [Hin1 _]; [by split|]. f_equal.
  destruct g1. simpl in Hin1. by subst.
Qed.

Lemma alloc_is_fill a l o g :
  AddToAllocationTable SHADOW_WINDOW 0 cfg mem strong_components (λ _, []) a l o g =
  in_runtime SHADOW_WINDOW 0 (λ _, []) (fill_slot SHADOW_WINDOW cfg mem strong_components
    (λ e, set_eaffiliated (activeState g) (set_information o (set_size l (set_ptr a (set_operation ALLOC_ADD e)))))) g.
Proof.
  unfold AddToAllocationTable, in_runtime. destruct (inRT g); [done|].
  destruct (texas_init SHADOW_WINDOW 0 (λ _, []) (set_inRT true g)) as [g1|] eqn:E1; [|done].
  apply texas_init_frame in E1 as (_ & Ea & _). simpl in Ea. cbn [mbind option_bind].
  unfold fill_slot. destruct (getFreeSlot _ _ _ _ g1) as [[g2 i]|] eqn:E2; [|done].
  apply getFreeSlot_frame in E2 as (_ & Ea2 & _). cbn [mbind option_bind].
  by rewrite Ea2, Ea.
Qed.

Lemma free_is_fill a g :
  RemoveFromAllocationTable SHADOW_WINDOW 0 cfg mem strong_components (λ _, []) a g =
  in_runtime SHADOW_WINDOW 0 (λ _, []) (fill_slot SHADOW_WINDOW cfg mem strong_components
    (λ e, set_eaffiliated (activeState g) (set_ptr a (set_operation ALLOC_FREE e)))) g.
Proof.
  unfold RemoveFromAllocationTable, in_runtime. destruct (inRT g); [done|].
  destruct (texas_init SHADOW_WINDOW 0 (λ _, []) (set_inRT true g)) as [g1|] eqn:E1; [|done].
  apply texas_init_frame in E1 as (_ & Ea & _). simpl in Ea. cbn [mbind option_bind]. by rewrite Ea.
Qed.

(** Likewise [SetStateRegion] of a region that is known. *)
Lemma set_region_is_fill a l sid cl id s g :
  running g → stateMap g !! sid = Some s →
  SetStateRegion SHADOW_WINDOW 0 cfg mem strong_components (λ _, []) a l sid cl id g =
  fill_slot SHADOW_WINDOW cfg mem strong_components (λ e, set_stateToSet (char_cast cl) (set_size l (set_eaffiliated s (set_ptr a
    (set_operation STATE_REGION_SET (set_information id e)))))) g.
Proof.
  intros Hrun Hs. rewrite <- in_runtime_fill by done. unfold SetStateRegion, in_runtime.
  destruct (inRT g); [done|]. destruct (texas_init SHADOW_WINDOW 0 (λ _, []) (set_inRT true g)) as [g1|] eqn:E1; [|done].
  apply texas_init_frame in E1 as (_ & _ & _ & Em). simpl in Em. cbn [mbind option_bind].
  unfold fill_slot. destruct (getFreeSlot _ _ _ _ g1) as [[g2 i]|] eqn:E2; [|done].
  apply getFreeSlot_frame in E2 as (_ & _ & _ & Em2). cbn [mbind option_bind].
  destruct (texasWorkEntries g2 !! i); [|done]. cbn [mbind option_bind]. rewrite Em2, Em, Hs. simpl.
  assert (set_stateMap (stateMap g2) g2 = g2) as E by (by destruct g2). rewrite Em2, Em in E. by rewrite E.
Qed.

Definition does (g : Globals) (acts : list action) (g' : Globals) : Prop :=
  mfoldl serial_action g acts = Some g' ∧ running g' ∧ activeState g' = activeState g.

Section actions.
  Context (g : Globals) (Hrun : running g).

Lemma fill_does f g' : fill_slot SHADOW_WINDOW cfg mem strong_components f g = Some g' → does g [Fill f] g'.
Proof using Hrun.
  intros H. unfold does. simpl. rewrite H. split; [done|]. split; [by eapply fill_slot_running|].
  by apply fill_slot_frame in H as (_ & ? & _).
Qed.

Lemma alloc_does a l o g' :
  AddToAllocationTable SHADOW_WINDOW 0 cfg mem strong_components (λ _, []) a l o g = Some g' →
  does g [Fill (alloc_slot a l o (activeState g))] g'.
Proof using Hrun. rewrite alloc_is_fill, in_runtime_fill by done. apply fill_does. Qed.

Lemma free_does a g' :
  RemoveFromAllocationTable SHADOW_WINDOW 0 cfg mem strong_components (λ _, []) a g = Some g' →
  does g [Fill (free_slot a (activeState g))] g'.
Proof using Hrun. rewrite free_is_fill, in_runtime_fill by done. apply fill_does. Qed.

Lemma in_runtime_does f g' :
  in_runtime SHADOW_WINDOW 0 (λ _, []) (fill_slot SHADOW_WINDOW cfg mem strong_components f) g = Some g' → does g [Fill f] g'.
Proof using Hrun. rewrite in_runtime_fill by done. apply fill_does. Qed.

Lemma access_does a rw id g' :
  AddToState SHADOW_WINDOW 0 cfg mem strong_components (λ _, []) a rw id g = Some g' → does g (access_actions g a rw id) g'.
Proof using Hrun.
  intros H. unfold AddToState, in_runtime, access_actions in *. pose proof Hrun as [Hin [t Ht]]. rewrite Hin in H.
  unfold texas_init in H. simpl in H. rewrite Ht in H. simpl in H. destruct (activeState g) eqn:Ea.
  - apply in_runtime_does. unfold in_runtime, texas_init. rewrite Hin. simpl. by rewrite Ht.
  - injection H as <-. split; [by destruct g; simpl in *; subst|]. split; [split; [done|by eexists]|done].
Qed.

Lemma flush_does f g1 g' : fill_slot SHADOW_WINDOW cfg mem strong_components f g = Some g1 →
  batchFull SHADOW_WINDOW cfg mem strong_components false g1 = Some g' →
  mfoldl serial_action g [Fill f; Flush] = Some g' ∧ running g'.
Proof using Hrun.
  intros Hfl Hb. simpl. rewrite Hfl. simpl. rewrite Hb. split; [done|].
  eapply (batchFull_running false); [exact Hb|]. by eapply fill_slot_running.
Qed.
End actions.

(** One call after the other. *)
Lemma then_does g g1 g' acts acts' :
  mfoldl serial_action g acts = Some g1 → mfoldl serial_action g1 acts' = Some g' →
  mfoldl serial_action g (acts ++ acts') = Some g'.
Proof. intros H1 H2. by rewrite mfoldl_app, H1. Qed.

Lemma enter_actions g f l acts g' :
  running g → actions_of g (CEnter f l) = Some acts → run_call g (CEnter f l) = Some g' →
  mfoldl serial_action g acts = Some g' ∧ running g'.
Proof.
  intros Hrun Hacts Hc. simpl in *.
  apply bind_Some in Hacts as (found & Hf & Hacts). apply bind_Some in Hacts as (s & -> & [= <-]).
  unfold GetState in Hc. rewrite Hf in Hc. cbn [mbind option_bind] in Hc.
  apply fmap_Some in Hc as ([g2 i] & Hc & [= ->]).
  apply bind_Some in Hc as (g1 & Hm & Hc). apply bind_Some in Hc as (g3 & Hfl & Hc).
  apply bind_Some in Hc as (st & _ & [= -> _]).
  assert (running g1) as Hr1.
  { destruct (stateReductionTracking cfg); [|by injection Hm as <-].
    unfold measure_naive in Hm. apply bind_Some in Hm as (t & _ & Hm).
    apply bind_Some in Hm as (z & _ & [= <-]). done. }
  split; [|by eapply fill_slot_running]. simpl.
  destruct (stateReductionTracking cfg); simpl.
  - rewrite Hm. simpl. by rewrite Hfl.
  - injection Hm as ->. by rewrite Hfl.
Qed.

Lemma end_actions g id acts g' :
  running g → actions_of g (CEnd id) = Some acts → run_call g (CEnd id) = Some g' →
  mfoldl serial_action g acts = Some g' ∧ running g'.
Proof.
  intros Hrun Hacts Hc. simpl in *. apply fmap_Some in Hc as ([g2 i] & Hc & [= ->]). unfold EndState in Hc.
  destruct (activeState g) as [s|]; [|by injection Hacts as <-; injection Hc as <- _].
  apply bind_Some in Hacts as (st & Hst & [= <-]).
  apply bind_Some in Hc as (g1 & Hfl & Hc). apply bind_Some in Hc as (st1 & Hst1 & [= <- _]).
  simpl. rewrite Hfl. simpl. split; [|by destruct (fill_slot_running _ _ _ Hfl Hrun); split].
  apply fill_slot_frame in Hfl as (Hp & _). specialize (Hp s). rewrite Hst, Hst1 in Hp. by injection Hp as ->.
Qed.

Lemma call_actions g c acts g' :
  running g → actions_of g c = Some acts → run_call g c = Some g' →
  mfoldl serial_action g acts = Some g' ∧ running g'.
Proof.
  intros Hrun Hacts Hc.
  destruct c; try (by eapply enter_actions); try (by eapply end_actions); simpl in *;
    try (injection Hacts as <-).
  - by apply (alloc_does g Hrun) in Hc as (? & ? & _).
  - by apply (alloc_does g Hrun) in Hc as (? & ? & _).
  - apply bind_Some in Hc as (g1 & H1 & Hc). apply (free_does g Hrun) in H1 as (H1 & Hr1 & Ea).
    apply (alloc_does g1 Hr1) in Hc as (H2 & ? & _). rewrite Ea in H2. split; [by eapply (then_does _ _ _ [_])|done].
  - by apply (free_does g Hrun) in Hc as (? & ? & _).
  - by apply (in_runtime_does g Hrun) in Hc as (? & ? & _).
  - by apply (in_runtime_does g Hrun) in Hc as (? & ? & _).
  - apply bind_Some in Hc as (g1 & H1 & Hc). apply (in_runtime_does g Hrun) in H1 as (H1 & Hr1 & _).
    apply (in_runtime_does g1 Hr1) in Hc as (H2 & ? & _). split; [by eapply (then_does _ _ _ [_])|done].
  - by apply (in_runtime_does g Hrun) in Hc as (? & ? & _).
  - unfold AddToEscapeTable in Hc. destruct (trackCycles cfg); [|by injection Hc as <-].
    by apply (in_runtime_does g Hrun) in Hc as (? & ? & _).
  - apply bind_Some in Hc as (g1 & H1 & Hc). by eapply flush_does.
  - by apply (access_does g Hrun) in Hc as (? & ? & _).
  - apply bind_Some in Hc as (g1 & H1 & Hc). apply (access_does g Hrun) in H1 as (H1 & Hr1 & Ea).
    case_decide; [|injection Hc as <-; by rewrite app_nil_r].
    apply (access_does g1 Hr1) in Hc as (H2 & ? & _). unfold access_actions in H2 at 1. rewrite Ea in H2.
    split; [by eapply then_does|done].
  - by apply (in_runtime_does g Hrun) in Hc as (? & ? & _).
  - apply bind_Some in Hacts as (s & Hs & [= <-]). rewrite (set_region_is_fill _ _ _ _ _ s) in Hc by done.
    by apply (fill_does g Hrun) in Hc as (? & ? & _).
  - apply fmap_Some in Hc as ([g2 i] & Hc & [= ->]).
    unfold EndStateInvocation in Hc. destruct (stateMap g !! stateID) as [s|]; [|by injection Hc as <- _].
    apply bind_Some in Hc as (g1 & Hfl & Hc). apply bind_Some in Hc as (g3 & Hb & [= <- _]). by eapply flush_does.
Qed.

Lemma trace_actions g cs acts g' :
  running g → trace g cs = Some acts → mfoldl run_call g cs = Some g' →
  mfoldl serial_action g acts = Some g'.
Proof.
  revert g acts. induction cs as [|c cs IH]; intros g acts Hrun; simpl; [by intros [= <-] [= ->]|].
  intros Ht Hc. apply bind_Some in Ht as (a & Ha & Ht). apply bind_Some in Ht as (g1 & H1 & Ht).
  apply bind_Some in Ht as (acts' & Ht & [= <-]). rewrite H1 in Hc. simpl in Hc.
  destruct (call_actions _ _ _ _ Hrun Ha H1) as [Hs Hr1]. rewrite mfoldl_app, Hs. simpl. by apply IH.
Qed.

Lemma run_bounded n g acts c :
  (0 < SHADOW_WINDOW)%nat → nsteps step n (initial g acts) c → (n <= 4 * List.length acts + 7)%nat.
Proof.
  intros Hpos Hn. apply steps_bounded in Hn; [|done]. unfold measure, initial in Hn. simpl in Hn.
  case_decide; lia.
Qed.

Lemma trace_quiet g cs acts :
  stateReductionTracking cfg = false → trace g cs = Some acts → Forall quiet acts.
Proof.
  intros Hoff. revert g acts. induction cs as [|c cs IH]; intros g acts; simpl; [by intros [= <-]|].
  intros Ht. apply bind_Some in Ht as (a & Ha & Ht). apply bind_Some in Ht as (g1 & _ & Ht).
  apply bind_Some in Ht as (acts' & Ht & [= <-]). apply Forall_app. split; [|by eapply IH].
  assert (∀ a rw id, Forall quiet (access_actions g a rw id)) as Hacc
    by (intros; unfold access_actions; case_match; by repeat constructor).
  destruct c; simpl in Ha; rewrite ?Hoff in Ha; repeat case_match; destruct_bind; simplify_eq; try by repeat constructor.
  all: by apply Forall_app.
Qed.


(** ** Executing a schedule *)

Definition main_step (c : system) : option system :=
  let '(mkSystem g q acts ph alive) := c in
  match ph with
  | Running =>
      match acts with
      | Fill f :: rest =>
          if decide (SHADOW_WINDOW <= slotStart g)%nat then Some (push_batch SHADOW_WINDOW acts c)
          else
            _ ← texasWorkEntries g !! slotStart g;
            Some (mkSystem (set_texasWorkEntries (alter f (slotStart g) (texasWorkEntries g))
              (set_slotStart (S (slotStart g)) g)) q rest Running alive)
      | Flush :: rest => Some (push_batch (slotStart g) rest c)
      | SetActive s :: rest => Some (mkSystem (set_activeState s g) q rest Running alive)
      | Measure s :: rest => g' ← measure_naive s g; Some (mkSystem g' q rest Running alive)
      | [] => Some (push_last c)
      end
  | Waiting => g' ← pop g; Some (mkSystem g' q acts Running alive)
  | Joining => if alive then None else Some (mkSystem g q acts Joined false)
  | Joined => None
  end.

Definition worker_step (c : system) : option system :=
  let '(mkSystem g q acts ph alive) := c in
  if alive then
    match q with
    | NEW_BATCH b :: q => g' ← serialProcessShadowBatch cfg mem strong_components b g;
        Some (mkSystem g' q acts ph true)
    | KILL_BATCH :: q => Some (mkSystem g q acts ph false)
    | [] => None
    end
  else None.

(** [true] lets the main thread go, [false] the worker. *)
Definition run_schedule (schedule : list bool) (c : system) : option system :=
  mfoldl (λ c (main : bool), if main then main_step c else worker_step c) c schedule.

Lemma main_step_sound c c' : main_step c = Some c' → step c c'.
Proof.
  destruct c as [g q acts ph alive]. intros H. destruct ph; simpl in H.
  - destruct acts as [|[f| |s|s] acts].
    + injection H as <-. apply step_report.
    + case_decide; [injection H as <-; by apply step_full|].
      apply bind_Some in H as (e & He & [= <-]). eapply step_fill; [lia|done].
    + injection H as <-. apply step_flush.
    + injection H as <-. apply step_active.
    + apply bind_Some in H as (g' & Hm & [= <-]). by apply step_measure.
  - apply bind_Some in H as (g' & Hp & [= <-]). unfold pop in Hp.
    destruct (texasReadyBatchEntriesQueue g) eqn:E; [done|]. injection Hp as <-. by apply step_pop.
  - destruct alive; [done|]. injection H as <-. apply step_join.
  - done.
Qed.

Lemma run_schedule_sound sched c c' : run_schedule sched c = Some c' → rtc step c c'.
Proof.
  revert c. induction sched as [|main sched IH]; intros c H; [by injection H as ->|].
  apply bind_Some in H as (c1 & H1 & H). eapply rtc_l; [|by apply IH].
  destruct main; [by apply main_step_sound|]. destruct c as [g q acts ph alive]. simpl in H1.
  destruct alive; [|done]. destruct q as [|[b|] q]; [done| |injection H1 as <-; apply step_kill].
  apply bind_Some in H1 as (g' & Hb & [= <-]). by apply step_work.
Qed.
End worker.
End Worker.

(** ** Witnesses for the worker *)

Definition quiet_config : config := mkConfig true true true true true false.

(** The runtime after the first visit to a region, with the region left again. *)
Definition visited : option Globals :=
  g ← started;
  '(g, id) ← GetState 8 quiet_config demo_mem demo_scc "main" 1 0 g;
  '(g, _) ← EndState 8 quiet_config demo_mem demo_scc id g;
  '(g, _) ← EndStateInvocation 8 quiet_config demo_mem demo_scc id g;
  Some g.

(** A second visit. *)
Definition visit_calls : list Worker.apicall :=
  [Worker.CAlloc 4096 24 1; Worker.CEnter "main" 1; Worker.CAccess 4100 0 7; Worker.CAccess 4100 1 8;
   Worker.CEnd 0; Worker.CInvocation 0].

(** The main thread pushes its first batch and must wait for the worker only at
    the join. *)
Definition visit_schedule : list bool :=
  replicate 8 true ++ [true; true; true; false; false; false; true].

Notation quietly f := (f 8%nat quiet_config demo_mem demo_scc) (only parsing).

(** All of the session is defined. *)
Definition visit_check : bool :=
  match visited with
  | None => false
  | Some g =>
      match mfoldl (quietly Worker.run_call) g visit_calls with
      | None => false
      | Some g1 =>
          match quietly Worker.trace g visit_calls with
          | None => false
          | Some acts =>
              match ReportStatistics quiet_config demo_mem demo_scc g1 with
              | None => false
              | Some _ =>
                  match quietly Worker.run_schedule visit_schedule (Worker.initial g acts) with
                  | None => false
                  | Some _ => if inRT g then false else match allocationMap g with Some _ => true | None => false end
                  end
              end
          end
      end
  end.

Example visit_ok : visit_check = true.
Proof. vm_compute. reflexivity. Qed.


(** That schedule runs to the join. *)
Example visit_joins :
  (g ← visited; acts ← quietly Worker.trace g visit_calls;
   c ← quietly Worker.run_schedule visit_schedule (Worker.initial g acts);
   Some (Worker.main_phase c, Worker.workQueue c)) = Some (Worker.Joined, []).
Proof. vm_compute. reflexivity. Qed.

(** With [stateReductionTracking] on, the outcome depends on the schedule: the
    main thread measures the allocation table the worker is writing. *)
Definition measured_calls : list Worker.apicall :=
  [Worker.CAlloc 4096 24 1; Worker.CInvocation 0; Worker.CEnter "main" 1].

Definition naive_size (schedule : list bool) (g : Globals) (acts : list Worker.action)
    : option (Worker.phase * Z) :=
  c ← texas0 Worker.run_schedule schedule (Worker.initial g acts);
  st ← states (store (Worker.globals c)) !! 0%nat;
  Some (Worker.main_phase c, naiveStateSize st).

(** In one schedule the worker adds the block before the region is entered, in
    the other one after. *)
Definition worker_first : list bool := replicate 4 true ++ [false] ++ replicate 4 true ++ [false; false; true].
Definition worker_last : list bool := replicate 8 true ++ [false; false; false; true].

Example naive_sizes :
  (g ← visited; acts ← texas0 Worker.trace g measured_calls;
   x ← naive_size worker_first g acts; y ← naive_size worker_last g acts; Some (x, y)) =
  Some ((Worker.Joined, 24), (Worker.Joined, 0)).
Proof. vm_compute. reflexivity. Qed.

Lemma naive_size_reached schedule g acts ph z :
  naive_size schedule g acts = Some (ph, z) →
  ∃ c st, rtc (texas0 Worker.step) (Worker.initial g acts) c ∧ Worker.main_phase c = ph ∧
    states (store (Worker.globals c)) !! 0%nat = Some st ∧ naiveStateSize st = z.
Proof.
  unfold naive_size. intros H. apply bind_Some in H as (c & Hc & H). apply bind_Some in H as (st & Hst & [= <- <-]).
  exists c, st. split; [exact (Worker.run_schedule_sound _ _ _ _ _ _ _ Hc)|done].
Qed.

(** With [stateReductionTracking] on, as State.cpp sets it, the result is a
    race.  [GetState] reads the allocation table in the main thread while the
    worker updates it: the same calls (a block of 24 bytes, the end of an
    invocation, a region) give a region a naive size of 24 or of 0 bytes. *)
Theorem measure_depends_on_schedule :
  ∃ g acts c1 c2 st1 st2, texas0 Worker.trace g measured_calls = Some acts ∧
    rtc (texas0 Worker.step) (Worker.initial g acts) c1 ∧ Worker.main_phase c1 = Worker.Joined ∧
    rtc (texas0 Worker.step) (Worker.initial g acts) c2 ∧ Worker.main_phase c2 = Worker.Joined ∧
    states (store (Worker.globals c1)) !! 0%nat = Some st1 ∧
    states (store (Worker.globals c2)) !! 0%nat = Some st2 ∧
    naiveStateSize st1 = 24 ∧ naiveStateSize st2 = 0.
Proof.
  pose proof naive_sizes as H. apply bind_Some in H as (g & _ & H). apply bind_Some in H as (acts & Ht & H).
  apply bind_Some in H as (x & H1 & H). apply bind_Some in H as (y & H2 & H). injection H as -> ->.
  apply naive_size_reached in H1 as (c1 & st1 & ? & ? & ? & ?).
  apply naive_size_reached in H2 as (c2 & st2 & ? & ? & ? & ?).
  exists g, acts, c1, c2, st1, st2. repeat (split; [assumption|]). assumption.
Qed.

(** ** Splitting a batch over the shadows *)

Module Bounds.
Section bounds.
  Context (NUM_SHADOWS : nat).

(** [shadowRun]: the first and the last index a shadow processes, both
    included. *)
Definition shadowRun_bounds (n tid : nat) : nat * nat :=
  let subBatchSize := (n `div` NUM_SHADOWS)%nat in
  let extraWork := (n `mod` NUM_SHADOWS)%nat in
  if decide (subBatchSize = 0%nat) then (0%nat, if decide (tid = 0%nat) then extraWork else 0%nat)
  else
    (tid * subBatchSize,
     (tid + 1) * subBatchSize - 1 + (if decide (tid + 1 = NUM_SHADOWS) then extraWork else 0))%nat.

(** The indices the loop of [processShadowBatch] visits. *)
Definition visited_by (n tid : nat) : list nat :=
  let '(l, r) := shadowRun_bounds n tid in seq l (S r - l).

Definition visited_all (n : nat) : list nat := concat (visited_by n <$> seq 0 NUM_SHADOWS).

Lemma visited_prefix n k :
  (n `div` NUM_SHADOWS ≠ 0)%nat → (k < NUM_SHADOWS)%nat →
  concat (visited_by n <$> seq 0 k) = seq 0 (k * (n `div` NUM_SHADOWS)).
Proof.
  intros Hsub. induction k as [|k IH]; intros Hk; [done|].
  rewrite seq_S, fmap_app, concat_app, IH by lia. simpl. rewrite app_nil_r.
  unfold visited_by, shadowRun_bounds. rewrite decide_False by done. rewrite decide_False by lia.
  replace (S ((k + 1) * (n `div` NUM_SHADOWS) - 1 + 0) - k * (n `div` NUM_SHADOWS))%nat
    with (n `div` NUM_SHADOWS)%nat by nia.
  rewrite <- seq_app. f_equal. lia.
Qed.

(** The shadows share a batch evenly.  If the batch has at least one entry
    per shadow, the ranges of the shadows, from the first to the last, list every
    entry exactly once and in order; the remainder goes to the last shadow. *)
Theorem shadowRun_partition n :
  (0 < NUM_SHADOWS)%nat → (NUM_SHADOWS <= n)%nat → visited_all n = seq 0 n.
Proof.
  intros Hpos Hle. assert (n `div` NUM_SHADOWS ≠ 0)%nat as Hsub.
  { pose proof (Nat.div_str_pos n NUM_SHADOWS). lia. }
  unfold visited_all. assert (∃ k, NUM_SHADOWS = S k) as [k E] by (exists (pred NUM_SHADOWS); lia).
  replace (seq 0 NUM_SHADOWS) with (seq 0 k ++ [k]) by (rewrite E, seq_S; done).
  rewrite fmap_app, concat_app, visited_prefix; [|done|lia]. simpl. rewrite app_nil_r.
  unfold visited_by, shadowRun_bounds. rewrite decide_False by done. rewrite decide_True by lia.
  pose proof (Nat.div_mod_eq n NUM_SHADOWS) as Hdm.
  replace (S ((k + 1) * (n `div` NUM_SHADOWS) - 1 + n `mod` NUM_SHADOWS) - k * (n `div` NUM_SHADOWS))%nat
    with (n `div` NUM_SHADOWS + n `mod` NUM_SHADOWS)%nat by nia.
  rewrite <- seq_app. f_equal. rewrite E in Hdm at 1. nia.
Qed.

(** A batch smaller than the number of shadows.  The bounds are inclusive,
    so every shadow visits entry 0, even of an empty batch, and the first shadow
    visits one entry past the batch. *)
Theorem shadowRun_small n :
  (n < NUM_SHADOWS)%nat → visited_all n = seq 0 (S n) ++ replicate (NUM_SHADOWS - 1) 0%nat.
Proof.
  intros Hlt. unfold visited_all. assert (∃ k, NUM_SHADOWS = S k) as [k E] by (exists (pred NUM_SHADOWS); lia).
  assert (n `div` NUM_SHADOWS = 0)%nat as Hd by (by apply Nat.div_small).
  assert (∀ j, (0 < j)%nat → visited_by n j = [0%nat]) as Hj.
  { intros j Hj. unfold visited_by, shadowRun_bounds. rewrite decide_True by done.
    by rewrite decide_False by lia. }
  replace (seq 0 NUM_SHADOWS) with (0%nat :: seq 1 k) by (by rewrite E). rewrite fmap_cons. cbn [concat].
  f_equal.
  - unfold visited_by, shadowRun_bounds. rewrite decide_True by done. rewrite decide_True by done.
    rewrite (Nat.mod_small n) by done. by rewrite Nat.sub_0_r.
  - replace (NUM_SHADOWS - 1)%nat with k by lia. clear E Hd Hlt.
    assert (∀ i, (0 < i)%nat → concat (visited_by n <$> seq i k) = replicate k 0%nat) as H; [|apply H; lia].
    induction k as [|k IH]; intros i Hi; [done|]. simpl. rewrite Hj by lia. simpl. f_equal. apply IH. lia.
Qed.
End bounds.

Lemma shadowRun_partition_witness : visited_all 4 11 = seq 0 11.
Proof. apply (shadowRun_partition 4 11); lia. Defined.

Lemma shadowRun_small_witness : visited_all 4 2 = [0; 1; 2; 0; 0; 0]%nat.
Proof. apply (shadowRun_small 4 2). lia. Defined.
End Bounds.

(** ** The pipelined scheduler *)

Module Pipeline.

(** Batches are known by their number.  [events] is history: what the threads
    the scheduler starts have done, in order. *)
Inductive message := NEW (n : nat) | KILL.

Inductive event :=
  | Cleaned (n : nat)   (** [cleanBatch] has set its flag to 2 *)
  | Processed (n : nat) (** [shadowRun] of shadow 0 has set its flag to 2 *).

(** The flags [batchBeingCleaned] and [batchBeingProcessed]: 0, 1, 2. *)
Inductive progress := Idle | Busy | Finished.

#[global] Instance progress_dec : EqDecision progress.
Proof. solve_decision. Defined.

Record sched := mkSched {
  texasWorkEntriesQueue : list message;
  curBatchNumber : nat;
  ready : nat;              (** free buffers *)
  holding : bool;           (** the main thread has a buffer *)
  reported : bool;          (** the main thread is in [join] *)
  newShadowBatches : gset nat;
  cleanedShadowBatches : gset nat;
  batchBeingCleaned : progress;
  batchBeingProcessed : progress;
  cleaningBatchNumber : nat;
  servingBatchNumber : nat;
  kill : bool;
  alive : bool;
  events : list event;
}.

(** The loop body of [processShadowBatches], in its four parts. *)
Definition poll (s : sched) : sched :=
  match texasWorkEntriesQueue s with
  | [] => s
  | KILL :: q =>
      mkSched q (curBatchNumber s) (ready s) (holding s) (reported s) (newShadowBatches s)
        (cleanedShadowBatches s) (batchBeingCleaned s) (batchBeingProcessed s) (cleaningBatchNumber s)
        (servingBatchNumber s) true (alive s) (events s)
  | NEW n :: q =>
      mkSched q (curBatchNumber s) (ready s) (holding s) (reported s) ({[n]} ∪ newShadowBatches s)
        (cleanedShadowBatches s) (batchBeingCleaned s) (batchBeingProcessed s) (cleaningBatchNumber s)
        (servingBatchNumber s) (kill s) (alive s) (events s)
  end.

Definition check_clean (s : sched) : sched :=
  match batchBeingCleaned s with
  | Idle =>
      if decide (cleaningBatchNumber s ∈ newShadowBatches s) then
        mkSched (texasWorkEntriesQueue s) (curBatchNumber s) (ready s) (holding s) (reported s)
          (newShadowBatches s) (cleanedShadowBatches s) Busy (batchBeingProcessed s)
          (cleaningBatchNumber s) (servingBatchNumber s) (kill s) (alive s) (events s)
      else s
  | Finished =>
      mkSched (texasWorkEntriesQueue s) (curBatchNumber s) (ready s) (holding s) (reported s)
        (newShadowBatches s ∖ {[cleaningBatchNumber s]}) ({[cleaningBatchNumber s]} ∪ cleanedShadowBatches s)
        Idle (batchBeingProcessed s) (S (cleaningBatchNumber s)) (servingBatchNumber s) (kill s) (alive s)
        (events s)
  | Busy => s
  end.

Definition check_serve (s : sched) : sched :=
  match batchBeingProcessed s with
  | Idle =>
      if decide (servingBatchNumber s ∈ cleanedShadowBatches s) then
        mkSched (texasWorkEntriesQueue s) (curBatchNumber s) (ready s) (holding s) (reported s)
          (newShadowBatches s)
          (if decide (servingBatchNumber s ≠ 0%nat)
           then cleanedShadowBatches s ∖ {[(servingBatchNumber s - 1)%nat]} else cleanedShadowBatches s)
          (batchBeingCleaned s) Busy (cleaningBatchNumber s) (servingBatchNumber s) (kill s) (alive s) (events s)
      else s
  | Finished =>
      mkSched (texasWorkEntriesQueue s) (curBatchNumber s) (ready s) (holding s) (reported s)
        (newShadowBatches s) (cleanedShadowBatches s) (batchBeingCleaned s) Idle (cleaningBatchNumber s)
        (S (servingBatchNumber s)) (kill s) (alive s) (events s)
  | Busy => s
  end.

Definition check_exit (s : sched) : sched :=
  if decide (kill s = true ∧ (curBatchNumber s <= servingBatchNumber s)%nat ∧ servingBatchNumber s ≠ 0%nat ∧
    batchBeingProcessed s = Idle ∧ batchBeingCleaned s = Idle)
  then mkSched (texasWorkEntriesQueue s) (curBatchNumber s) (ready s) (holding s) (reported s)
    (newShadowBatches s) (cleanedShadowBatches s) (batchBeingCleaned s) (batchBeingProcessed s)
    (cleaningBatchNumber s) (servingBatchNumber s) (kill s) false (events s)
  else s.

Definition iteration (s : sched) : sched := check_exit (check_serve (check_clean (poll s))).

(** The main thread's [batchFull], its [waitPop], and [ReportStatistics]. *)
Definition push (msgs : list message) (done : bool) (s : sched) : sched :=
  mkSched (texasWorkEntriesQueue s ++ msgs) (S (curBatchNumber s)) (ready s) false done (newShadowBatches s)
    (cleanedShadowBatches s) (batchBeingCleaned s) (batchBeingProcessed s) (cleaningBatchNumber s)
    (servingBatchNumber s) (kill s) (alive s) (events s).

Definition take_buffer (s : sched) : sched :=
  mkSched (texasWorkEntriesQueue s) (curBatchNumber s) (pred (ready s)) true (reported s) (newShadowBatches s)
    (cleanedShadowBatches s) (batchBeingCleaned s) (batchBeingProcessed s) (cleaningBatchNumber s)
    (servingBatchNumber s) (kill s) (alive s) (events s).

(** The threads the scheduler starts.  [shadowRun] frees the buffer of the batch;
    it does not go back to [texasReadyBatchEntriesQueue]. *)
Definition cleaner_done (s : sched) : sched :=
  mkSched (texasWorkEntriesQueue s) (curBatchNumber s) (ready s) (holding s) (reported s) (newShadowBatches s)
    (cleanedShadowBatches s) Finished (batchBeingProcessed s) (cleaningBatchNumber s)
    (servingBatchNumber s) (kill s) (alive s) (events s ++ [Cleaned (cleaningBatchNumber s)]).

Definition shadows_done (s : sched) : sched :=
  mkSched (texasWorkEntriesQueue s) (curBatchNumber s) (ready s) (holding s) (reported s) (newShadowBatches s)
    (cleanedShadowBatches s) (batchBeingCleaned s) Finished (cleaningBatchNumber s)
    (servingBatchNumber s) (kill s) (alive s) (events s ++ [Processed (servingBatchNumber s)]).

Inductive step : sched → sched → Prop :=
  | step_push s : holding s = true → step s (push [NEW (curBatchNumber s)] (reported s) s)
  | step_report s : holding s = true → step s (push [NEW (curBatchNumber s); KILL] true s)
  | step_take s : holding s = false → reported s = false → (0 < ready s)%nat → step s (take_buffer s)
  | step_iteration s : alive s = true → step s (iteration s)
  | step_cleaner s : batchBeingCleaned s = Busy → step s (cleaner_done s)
  | step_shadows s : batchBeingProcessed s = Busy → step s (shadows_done s).

(** After [texas_init]: the main thread holds one of the buffers. *)
Definition start (NUM_BATCHES : nat) : sched :=
  mkSched [] 0 (NUM_BATCHES - 1) true false ∅ ∅ Idle Idle 0 0 false true [].

(** ** Order *)

Definition cleaned_events (l : list event) : list nat :=
  omap (λ e, match e with Cleaned n => Some n | Processed _ => None end) l.
Definition processed_events (l : list event) : list nat :=
  omap (λ e, match e with Processed n => Some n | Cleaned _ => None end) l.

(** Batches between those popped and those created wait in the queue, followed
    by the kill message once the main thread has reported. *)
Definition queued (popped : nat) (s : sched) : Prop :=
  texasWorkEntriesQueue s = (NEW <$> seq popped (curBatchNumber s - popped)) ++
    (if reported s && negb (kill s) then [KILL] else []) ∧
  (popped <= curBatchNumber s)%nat ∧ (kill s = true → reported s = true ∧ popped = curBatchNumber s).

Record inv (popped : nat) (s : sched) : Prop := {
  inv_queue : queued popped s;
  inv_reported : reported s = true → holding s = false;
  inv_new n : n ∈ newShadowBatches s ↔ (cleaningBatchNumber s <= n < popped)%nat;
  inv_cleaned n : n ∈ cleanedShadowBatches s → (n < cleaningBatchNumber s)%nat;
  inv_cleaned_in n : (servingBatchNumber s <= n < cleaningBatchNumber s)%nat → n ∈ cleanedShadowBatches s;
  inv_order : (servingBatchNumber s <= cleaningBatchNumber s <= popped)%nat;
  inv_cleaning : batchBeingCleaned s ≠ Idle → (cleaningBatchNumber s < popped)%nat;
  inv_serving : batchBeingProcessed s ≠ Idle → (servingBatchNumber s < cleaningBatchNumber s)%nat;
  inv_cleaned_events : cleaned_events (events s) =
    seq 0 (cleaningBatchNumber s + (if decide (batchBeingCleaned s = Finished) then 1 else 0));
  inv_processed_events : processed_events (events s) =
    seq 0 (servingBatchNumber s + (if decide (batchBeingProcessed s = Finished) then 1 else 0));
  inv_before l1 l2 n : events s = l1 ++ Processed n :: l2 → Cleaned n ∈ l1;
  inv_exit : alive s = false → kill s = true ∧ (curBatchNumber s <= servingBatchNumber s)%nat;
}.

Lemma start_inv n : inv 0 (start n).
Proof.
  split; simpl; try done; try lia.
  - intros m. split; [set_solver|lia].
  - intros l1 l2 m H. by destruct l1.
Qed.

Lemma poll_inv p s : inv p s → alive s = true → ∃ p', inv p' (poll s) ∧ alive (poll s) = true.
Proof.
  intros Hi Ha. destruct (inv_queue _ _ Hi) as (Hq & Hle & Hk). unfold poll.
  destruct (seq p (curBatchNumber s - p)) as [|n l] eqn:E; simpl in Hq.
  - assert (p = curBatchNumber s) as Hp by (destruct (curBatchNumber s - p)%nat eqn:?; [lia|done]).
    rewrite Hq. destruct (reported s && negb (kill s)) eqn:Er; [|by exists p].
    apply andb_prop in Er as [Er Ek]. apply negb_true_iff in Ek. exists p. split; [|done].
    destruct Hi. split; simpl; try done; [|congruence].
    split; simpl; [|split; [lia|done]]. by rewrite E, Er.
  - assert (n = p ∧ l = seq (S p) (curBatchNumber s - S p)) as [-> ->].
    { destruct (curBatchNumber s - p)%nat as [|m] eqn:Em; [done|]. injection E as <- <-. split; [done|]. f_equal. lia. }
    rewrite Hq. exists (S p). split; [|done].
    assert (p < curBatchNumber s)%nat as Hlt by (destruct (curBatchNumber s - p)%nat eqn:?; [done|lia]).
    destruct Hi. split; simpl; try done; try lia.
    + split; simpl; [done|]. split; [lia|]. intros Hkill. destruct (Hk Hkill). lia.
    + intros n. rewrite elem_of_union, elem_of_singleton, inv_new0. lia.
Qed.

Lemma check_clean_inv p s : inv p s → inv p (check_clean s).
Proof.
  intros Hi. unfold check_clean. destruct (batchBeingCleaned s) eqn:Ec; [|done|].
  - case_decide as Hin; [|done]. destruct Hi. rewrite Ec in *.
    split; simpl; try done. intros _. apply inv_new0 in Hin. lia.
  - destruct Hi. rewrite Ec in *. pose proof (inv_cleaning0 ltac:(done)) as Hlt.
    split; simpl; try done; try lia.
    + intros n. rewrite elem_of_difference, elem_of_singleton, inv_new0. lia.
    + intros n. rewrite elem_of_union, elem_of_singleton. intros [->|H%inv_cleaned0]; lia.
    + intros n Hn. rewrite elem_of_union, elem_of_singleton. destruct (decide (n = cleaningBatchNumber s)); [by left|].
      right. apply inv_cleaned_in0. lia.
    + rewrite inv_cleaned_events0. simpl. by rewrite Nat.add_0_r, Nat.add_1_r.
Qed.

Lemma check_serve_inv p s : inv p s → alive s = true → inv p (check_serve s).
Proof.
  intros Hi Ha. unfold check_serve. destruct (batchBeingProcessed s) eqn:Ep; [|done|].
  - case_decide as Hin; [|done]. destruct Hi. rewrite Ep in *.
    split; simpl; try done.
    + intros n Hn. apply inv_cleaned0. destruct (decide (servingBatchNumber s ≠ 0%nat)); set_solver.
    + intros n Hn. specialize (inv_cleaned_in0 n Hn).
      destruct (decide (servingBatchNumber s ≠ 0%nat)); [|done].
      apply elem_of_difference. split; [done|]. rewrite elem_of_singleton. lia.
    + intros _. by apply inv_cleaned0 in Hin.
  - destruct Hi. rewrite Ep in *. pose proof (inv_serving0 ltac:(done)) as Hlt.
    split; simpl; try done; try lia.
    + intros n Hn. apply inv_cleaned_in0. lia.
    + rewrite inv_processed_events0. simpl. by rewrite Nat.add_0_r, Nat.add_1_r.
    + congruence.
Qed.

Lemma check_exit_inv p s : inv p s → inv p (check_exit s).
Proof.
  intros Hi. unfold check_exit. case_decide as Hc; [|done]. destruct Hc as (Hk & Hle & _).
  by destruct Hi.
Qed.

Lemma alive_check_clean s : alive (check_clean s) = alive s.
Proof. unfold check_clean. destruct (batchBeingCleaned s); [case_decide|..]; done. Qed.

Lemma before_snoc l e n l1 l2 :
  l ++ [e] = l1 ++ Processed n :: l2 →
  (∃ l2', l = l1 ++ Processed n :: l2' ∧ l2 = l2' ++ [e]) ∨ (l = l1 ∧ e = Processed n).
Proof.
  destruct l2 as [|e' l2 _] using rev_ind.
  - intros [-> [= ->]]%app_inj_tail. by right.
  - rewrite app_comm_cons, app_assoc. intros [-> [= ->]]%app_inj_tail. left. by exists l2.
Qed.

Lemma push_inv p s msgs done' :
  holding s = true → inv p s →
  (msgs = [NEW (curBatchNumber s)] ∧ done' = reported s) ∨
  (msgs = [NEW (curBatchNumber s); KILL] ∧ done' = true) →
  inv p (push msgs done' s).
Proof.
  intros Hh Hi Hm. destruct (inv_queue _ _ Hi) as (Hq & Hle & Hk).
  assert (reported s = false) as Hr by (destruct (reported s) eqn:E; [|done]; by rewrite (inv_reported _ _ Hi E) in Hh).
  assert (kill s = false) as Hkill by (destruct (kill s) eqn:E; [|done]; destruct (Hk eq_refl); congruence).
  destruct Hi. split; simpl; try done.
  - split; simpl; [|split; [lia|by rewrite Hkill]]. rewrite Hq, Hr, Hkill.
    replace (S (curBatchNumber s) - p)%nat with (S (curBatchNumber s - p)) by lia.
    rewrite seq_S, fmap_app. replace (p + (curBatchNumber s - p))%nat with (curBatchNumber s) by lia.
    rewrite app_nil_r. simpl. destruct Hm as [[-> ->]|[-> ->]].
    + rewrite Hr. simpl. by rewrite app_nil_r.
    + simpl. by rewrite <- app_assoc.
  - intros Hal. destruct (inv_exit0 Hal). congruence.
Qed.

Lemma step_inv p s s' : inv p s → step s s' → ∃ p', inv p' s'.
Proof.
  intros Hi Hstep. destruct Hstep as [s Hh|s Hh|s Hh Hr Hready|s Ha|s Hc|s Hp].
  - exists p. apply push_inv; [done..|by left].
  - exists p. apply push_inv; [done..|by right].
  - exists p. destruct Hi. split; simpl; try done. congruence.
  - destruct (poll_inv _ _ Hi Ha) as (p' & Hi' & Ha'). exists p'.
    apply check_exit_inv, check_serve_inv; [by apply check_clean_inv|by rewrite alive_check_clean].
  - exists p. destruct Hi. rewrite Hc in *. split; simpl; try done.
    + intros _. by apply inv_cleaning0.
    + unfold cleaned_events in *. rewrite omap_app, inv_cleaned_events0. simpl.
      by rewrite Nat.add_0_r, Nat.add_1_r, seq_S.
    + unfold processed_events in *. rewrite omap_app, inv_processed_events0. simpl. by rewrite app_nil_r.
    + intros l1 l2 n [(l2' & Hl & _)|[_ [=]]]%before_snoc. by eapply inv_before0.
  - exists p. destruct Hi. rewrite Hp in *. split; simpl; try done.
    + intros _. by apply inv_serving0.
    + unfold cleaned_events in *. rewrite omap_app, inv_cleaned_events0. simpl. by rewrite app_nil_r.
    + unfold processed_events in *. rewrite omap_app, inv_processed_events0. simpl.
      by rewrite Nat.add_0_r, Nat.add_1_r, seq_S.
    + intros l1 l2 n [(l2' & Hl & _)|[<- [= <-]]]%before_snoc; [by eapply inv_before0|].
      assert (servingBatchNumber s ∈ cleaned_events (events s)) as Hin.
      { rewrite inv_cleaned_events0. apply elem_of_seq. specialize (inv_serving0 ltac:(done)). lia. }
      unfold cleaned_events in Hin. apply list_elem_of_omap in Hin as ([m|m] & He & Hn); by simplify_eq.
Qed.

Lemma reachable_inv n s : rtc step (start n) s → ∃ p, inv p s.
Proof.
  intros Hr. assert (∃ p, inv p (start n)) as Hi by (exists 0%nat; apply start_inv).
  induction Hr as [s|s1 s2 s3 Hs _ IH]; [done|]. apply IH. destruct Hi as [p Hi]. by eapply step_inv.
Qed.

(** The pipeline keeps the order.  Under every interleaving of the program,
    the scheduler, the cleaning thread and the shadows, batches are cleaned in
    the order they were created, and processed in that order, each once and only
    after it was cleaned.  When the scheduler returns, every batch that was ever
    created has been processed. *)
Theorem pipeline_in_order n s :
  rtc step (start n) s →
  (∃ k, cleaned_events (events s) = seq 0 k) ∧
  (∃ k, processed_events (events s) = seq 0 k) ∧
  (∀ l1 l2 i, events s = l1 ++ Processed i :: l2 → Cleaned i ∈ l1) ∧
  (alive s = false → processed_events (events s) = seq 0 (curBatchNumber s)).
Proof.
  intros [p Hi]%reachable_inv. destruct (inv_queue _ _ Hi) as (_ & Hle & Hk). destruct Hi.
  split; [by eexists|]. split; [by eexists|]. split; [done|].
  intros Ha. destruct (inv_exit0 Ha) as [Hkill Hs]. destruct (Hk Hkill) as [_ ->].
  destruct (decide (batchBeingProcessed s = Idle)) as [Hp|Hp]; [|specialize (inv_serving0 Hp); lia].
  rewrite Hp in inv_processed_events0. rewrite inv_processed_events0. simpl. f_equal. lia.
Qed.

(** The scheduler leaves the main thread's fields alone. *)
Definition same_main (s s' : sched) : Prop :=
  curBatchNumber s' = curBatchNumber s ∧ ready s' = ready s ∧ holding s' = holding s ∧ reported s' = reported s.

Lemma poll_main s : same_main s (poll s).
Proof. unfold poll. by destruct (texasWorkEntriesQueue s) as [|[]]. Qed.

Lemma check_clean_main s : same_main s (check_clean s).
Proof. unfold check_clean. destruct (batchBeingCleaned s); [case_decide|..]; done. Qed.

Lemma check_serve_main s : same_main s (check_serve s).
Proof. unfold check_serve. destruct (batchBeingProcessed s); [case_decide|..]; done. Qed.

Lemma iteration_main s : same_main s (iteration s).
Proof.
  unfold iteration. destruct (poll_main s) as (E1 & E2 & E3 & E4).
  destruct (check_clean_main (poll s)) as (F1 & F2 & F3 & F4).
  destruct (check_serve_main (check_clean (poll s))) as (G1 & G2 & G3 & G4).
  set (s3 := check_serve _) in *. assert (same_main s3 (check_exit s3)) as (H1 & H2 & H3 & H4)
    by (unfold check_exit; by case_decide).
  unfold same_main. by rewrite H1, H2, H3, H4, G1, G2, G3, G4, F1, F2, F3, F4.
Qed.

(** Buffers the main thread has used up never come back. *)
Lemma buffers_used N s :
  (0 < N)%nat → rtc step (start N) s →
  (curBatchNumber s + ready s + (if holding s then 1 else 0) = N)%nat.
Proof.
  intros HN Hr. assert (curBatchNumber (start N) + ready (start N) + (if holding (start N) then 1 else 0) = N)%nat
    as Hi by (simpl; lia).
  induction Hr as [s|s1 s2 s3 Hs _ IH]; [done|]. apply IH. clear IH.
  destruct Hs as [s Hh|s Hh|s Hh Hr Hready|s Ha|s Hc|s Hp]; simpl; rewrite ?Hh in Hi; try lia.
  destruct (iteration_main s) as (-> & -> & -> & _). done.
Qed.

(** The pipeline runs out of buffers.  [shadowRun] frees the buffer of a
    batch instead of returning it, so a run creates at most [NUM_BATCHES]
    batches: once the program has filled them all without having reported, it
    waits forever, and never reports. *)
Theorem pipeline_starves N s s' :
  (0 < N)%nat → rtc step (start N) s → curBatchNumber s = N → reported s = false → rtc step s s' →
  reported s' = false ∧ curBatchNumber s' = N.
Proof.
  intros HN Hr Hcur Hrep Hrr.
  assert (reported s' = false ∧ curBatchNumber s' = N) as H; [|done].
  induction Hrr as [s|s1 s2 s3 Hs _ IH]; [done|].
  assert (reported s2 = false ∧ curBatchNumber s2 = N) as [? ?]; [|apply IH; [by eapply rtc_r|done..]].
  pose proof (buffers_used N s1 HN Hr) as Hb.
  destruct Hs as [s Hh|s Hh|s Hh Hrr Hready|s Ha|s Hc|s Hp]; simpl; rewrite ?Hh in Hb; try lia; try done.
  by destruct (iteration_main s) as (-> & _ & _ & ->).
Qed.

(** ** Witnesses for the pipeline *)

(** One batch, the report, and the scheduler's work up to its end. *)
Definition one_batch : sched :=
  let s := push [NEW 0; KILL] true (start 4) in
  let s := cleaner_done (iteration s) in
  let s := iteration (iteration s) in
  iteration (shadows_done s).

Lemma one_batch_reachable : rtc step (start 4) one_batch.
Proof.
  unfold one_batch. eapply rtc_l; [apply step_report; reflexivity|].
  eapply rtc_l; [apply step_iteration; reflexivity|]. eapply rtc_l; [apply step_cleaner; reflexivity|].
  do 2 (eapply rtc_l; [apply step_iteration; reflexivity|]).
  eapply rtc_l; [apply step_shadows; reflexivity|]. eapply rtc_l; [apply step_iteration; reflexivity|].
  apply rtc_refl.
Qed.

Lemma pipeline_in_order_witness :
  alive one_batch = false ∧ events one_batch = [Cleaned 0; Processed 0] ∧
  processed_events (events one_batch) = [0%nat].
Proof.
  split; [reflexivity|]. split; [reflexivity|].
  destruct (pipeline_in_order 4 one_batch one_batch_reachable) as (_ & _ & _ & H).
  apply H; reflexivity.
Defined.

(** A single buffer: the first batch is also the last one that can be filled. *)
Lemma pipeline_starves_witness :
  rtc step (start 1) (push [NEW 0] false (start 1)) ∧
  reported (iteration (push [NEW 0] false (start 1))) = false ∧
  curBatchNumber (iteration (push [NEW 0] false (start 1))) = 1%nat.
Proof.
  assert (rtc step (start 1) (push [NEW 0] false (start 1))) as H
    by (apply rtc_once, (step_push (start 1)); reflexivity).
  split; [exact H|].
  apply (pipeline_starves 1 (push [NEW 0] false (start 1))); [lia|exact H|reflexivity|reflexivity|].
  apply rtc_once, step_iteration. reflexivity.
Defined.
End Pipeline.
