(* ===== verification/PostProcess.v ===== *)
(** * The recommenders

    utils/prettyPrint/get-parallelfor.cpp and get-ward.cpp: the tools that read
    the saved run data and turn the sets of a region into advice.  Both first
    remove duplicates from every set, then move an allocation that is in several
    sets to the set the lattice of the classes prescribes ([fixSets]), and
    remove the duplicates this made.  get-ward then insists that the sets are
    disjoint.

    An allocation is known by its [uniqueID].  The theorems state for which
    identifiers the three passes compute the join of the lattice, and that the
    others are exactly those on which the sanity check aborts. *)

From S2P Require Import Prelude Helpers OrdMap Objects AllocTable ConnGraph Commit CleanBatch Shadow Batch.
From S2P Require Import Memory Callstack UniqueIds Wrapper RunData.

(** ** The sets of a region *)

Inductive set_name := sI | sO | sIO | sCO | sTO | sCIO | sTIO.

#[global] Instance set_name_dec : EqDecision set_name.
Proof. solve_decision. Defined.

Definition all_sets : list set_name := [sI; sO; sIO; sCO; sTO; sCIO; sTIO].

Lemma elem_of_all_sets s : s ∈ all_sets.
Proof. apply list_elem_of_In. destruct s; simpl; tauto. Qed.

(** The member of [StateToSave] a name stands for. *)
Definition get_set (s : set_name) (sv : StateToSave) : list AllocationToSave :=
  match s with
  | sI => sv_I sv | sO => sv_O sv | sIO => sv_IO sv | sCO => sv_CO sv | sTO => sv_TO sv
  | sCIO => sv_CIO sv | sTIO => sv_TIO sv
  end.

Definition put_set (s : set_name) (l : list AllocationToSave) (sv : StateToSave) : StateToSave :=
  let f s' := if decide (s = s') then l else get_set s' sv in
  MkStateToSave (sv_functionName sv) (sv_lineNumber sv) (f sI) (f sO) (f sIO) (f sCO) (f sTO) (f sCIO) (f sTIO)
    (sv_cycles sv).

Lemma get_put_set s s' l sv : get_set s' (put_set s l sv) = if decide (s = s') then l else get_set s' sv.
Proof. by destruct s'. Qed.

(** ** Removing duplicates *)

(** The loop of [removeDuplicatesFromSet]: [uniqueIDs] are the identifiers met so
    far; a later allocation with one of them is erased. *)
Fixpoint removeDuplicatesFromSet (uniqueIDs : gset Z) (allocations : list AllocationToSave)
    : list AllocationToSave :=
  match allocations with
  | [] => []
  | a :: l =>
      if decide (as_uniqueID a ∈ uniqueIDs) then removeDuplicatesFromSet uniqueIDs l
      else a :: removeDuplicatesFromSet ({[as_uniqueID a]} ∪ uniqueIDs) l
  end.

(** [removeDuplicates] of one region. *)
Definition removeDuplicates (sv : StateToSave) : StateToSave :=
  foldl (λ sv s, put_set s (removeDuplicatesFromSet ∅ (get_set s sv)) sv) sv all_sets.

(** ** The lattice *)

(** The inner loop of [fixSet]: erase the first allocation of the second set with
    this identifier, if there is one. *)
Fixpoint erase_first (id : Z) (l : list AllocationToSave) : option (list AllocationToSave) :=
  match l with
  | [] => None
  | a :: l => if decide (id = as_uniqueID a) then Some l else (a ::.) <$> erase_first id l
  end.

(** The outer loop: what is left of the two sets, and [allocationsToAdd]. *)
Fixpoint fixSet_loop (l1 l2 : list AllocationToSave)
    : list AllocationToSave * list AllocationToSave * list AllocationToSave :=
  match l1 with
  | [] => ([], l2, [])
  | a :: l1 =>
      match erase_first (as_uniqueID a) l2 with
      | Some l2 => let '(r1, r2, add) := fixSet_loop l1 l2 in (r1, r2, a :: add)
      | None => let '(r1, r2, add) := fixSet_loop l1 l2 in (a :: r1, r2, add)
      end
  end.

(** [fixSet(src1, src2, dst)]; [dst] may be [src2]. *)
Definition fixSet (src1 src2 dst : set_name) (sv : StateToSave) : StateToSave :=
  let '(r1, r2, add) := fixSet_loop (get_set src1 sv) (get_set src2 sv) in
  let sv := put_set src2 r2 (put_set src1 r1 sv) in
  put_set dst (get_set dst sv ++ add) sv.

(** The calls of [fixSets], in order. *)
Definition fixSets_steps : list (set_name * set_name * set_name) :=
  [(sI, sO, sIO); (sI, sCO, sCIO); (sI, sTO, sTIO); (sI, sIO, sIO); (sI, sCIO, sCIO); (sI, sTIO, sTIO);
   (sO, sCO, sCO); (sO, sTO, sTO); (sO, sIO, sIO); (sO, sCIO, sCIO); (sO, sTIO, sTIO);
   (sIO, sCO, sCIO); (sIO, sTO, sTIO); (sIO, sCIO, sCIO); (sIO, sTIO, sTIO);
   (sCO, sTO, sTO); (sCO, sCIO, sCIO); (sCO, sTIO, sTIO);
   (sTO, sCIO, sTIO); (sTO, sTIO, sTIO);
   (sCIO, sTIO, sTIO)].

Definition fixSets (sv : StateToSave) : StateToSave :=
  foldl (λ sv '(s1, s2, d), fixSet s1 s2 d sv) sv fixSets_steps.

(** The three passes of both [main] functions, for one region and for all. *)
Definition postprocess (sv : StateToSave) : StateToSave :=
  removeDuplicates (fixSets (removeDuplicates sv)).

Definition postprocess_all (saved : gmap Z StateToSave) : gmap Z StateToSave := postprocess <$> saved.

(** ** get-ward: the sanity check and the percentage *)

Definition isThereIntersection (set1 set2 : list AllocationToSave) : bool :=
  let ids l : gset Z := list_to_set (as_uniqueID <$> l) in
  bool_decide (0 < size (ids set1 ∩ ids set2))%nat.

(** The pairs [sanityCheck] compares. *)
Definition sanity_pairs : list (set_name * set_name) :=
  [(sI, sO); (sI, sIO); (sI, sCO); (sI, sTO); (sI, sCIO); (sI, sTIO);
   (sO, sIO); (sO, sCO); (sO, sTO); (sO, sCIO); (sO, sTIO);
   (sIO, sCO); (sIO, sTO); (sIO, sCIO); (sIO, sTIO);
   (sCO, sTO); (sCO, sCIO); (sCO, sTIO);
   (sTO, sCIO); (sTO, sTIO);
   (sCIO, sTIO)].

(** [None]: the process aborts. *)
Definition sanityCheck (sv : StateToSave) : option unit :=
  if existsb (λ '(s1, s2), isThereIntersection (get_set s1 sv) (get_set s2 sv)) sanity_pairs
  then None else Some tt.

(** [getPercentageOfWardAllocations], as the two numbers it divides. *)
Definition getPercentageOfWardAllocations (sv : StateToSave) : nat * nat :=
  let n s := List.length (get_set s sv) in
  let totalAllocationsNotInTransferSet := (n sI + n sO + n sIO + n sCO + n sCIO)%nat in
  (totalAllocationsNotInTransferSet, totalAllocationsNotInTransferSet + n sTO + n sTIO)%nat.

Definition processStateToSave (sv : StateToSave) : option (nat * nat) :=
  _ ← sanityCheck sv; Some (getPercentageOfWardAllocations sv).

(** ** Counting an identifier *)

Definition count (id : Z) (l : list AllocationToSave) : nat :=
  List.length (filter (λ a, as_uniqueID a = id) l).

Lemma count_nil id : count id [] = 0%nat.
Proof. done. Qed.

Lemma count_cons id a l :
  count id (a :: l) = ((if decide (as_uniqueID a = id) then 1 else 0) + count id l)%nat.
Proof. unfold count. rewrite filter_cons. by case_decide. Qed.

Lemma count_app id l1 l2 : count id (l1 ++ l2) = (count id l1 + count id l2)%nat.
Proof. unfold count. by rewrite filter_app, length_app. Qed.

Lemma count_pos id l : (0 < count id l)%nat ↔ id ∈ as_uniqueID <$> l.
Proof.
  induction l as [|a l IH]; [rewrite count_nil; split; [lia|by intros ?%elem_of_nil]|].
  rewrite count_cons, fmap_cons, elem_of_cons, <- IH. case_decide; split; try lia; intuition (congruence || lia).
Qed.

Lemma removeDuplicates_count id seen l :
  count id (removeDuplicatesFromSet seen l) = if decide (id ∈ seen) then 0%nat else min 1 (count id l).
Proof.
  revert seen. induction l as [|a l IH]; intros seen; simpl; [by case_decide|].
  destruct (decide (as_uniqueID a ∈ seen)) as [Hin|Hni]; rewrite ?count_cons, IH.
  - destruct (decide (id ∈ seen)); [done|]. by rewrite decide_False by congruence.
  - destruct (decide (as_uniqueID a = id)) as [<-|Hne].
    + rewrite decide_True by set_solver. rewrite decide_False by done. done.
    + destruct (decide (id ∈ seen)); [by rewrite decide_True by set_solver|].
      by rewrite decide_False by set_solver.
Qed.

Lemma erase_first_None id l : erase_first id l = None → count id l = 0%nat.
Proof.
  induction l as [|a l IH]; simpl; [done|]. case_decide as Hd; [done|].
  rewrite count_cons, decide_False by congruence. destruct (erase_first id l); [done|]. by intros _; rewrite IH.
Qed.

Lemma erase_first_Some id l l' :
  erase_first id l = Some l' →
  ∀ id', count id' l = ((if decide (id = id') then 1 else 0) + count id' l')%nat.
Proof.
  revert l'. induction l as [|a l IH]; intros l'; simpl; [done|]. case_decide as Hd.
  - intros [= ->] id'. rewrite count_cons. by rewrite Hd.
  - intros (l1 & Hl & ->)%fmap_Some id'. rewrite !count_cons, (IH _ Hl id'). lia.
Qed.

(** Every allocation of the first set consumes one of the second. *)
Lemma fixSet_loop_count id l1 l2 r1 r2 add :
  fixSet_loop l1 l2 = (r1, r2, add) →
  let m := min (count id l1) (count id l2) in
  count id r1 = (count id l1 - m)%nat ∧ count id r2 = (count id l2 - m)%nat ∧ count id add = m.
Proof.
  revert l2 r1 r2 add. induction l1 as [|a l1 IH]; intros l2 r1 r2 add; simpl.
  { intros [= <- <- <-]. rewrite count_nil. lia. }
  destruct (erase_first (as_uniqueID a) l2) as [l2'|] eqn:E;
    destruct (fixSet_loop l1 _) as [[r1' r2'] add'] eqn:El; intros [= <- <- <-];
    destruct (IH _ _ _ _ El) as (H1 & H2 & H3); rewrite !count_cons.
  - pose proof (erase_first_Some _ _ _ E id). case_decide; lia.
  - case_decide as Hd; [|lia]. apply erase_first_None in E. rewrite Hd in E. lia.
Qed.

(** ** The passes as seen by one identifier

    Every pass acts on each identifier separately: what matters of a region is how
    often the identifier is in each of its seven sets. *)

Record seven := mk7 { nI : nat; nO : nat; nIO : nat; nCO : nat; nTO : nat; nCIO : nat; nTIO : nat }.

#[global] Instance seven_dec : EqDecision seven.
Proof. solve_decision. Defined.

Definition get7 (s : set_name) (v : seven) : nat :=
  match s with
  | sI => nI v | sO => nO v | sIO => nIO v | sCO => nCO v | sTO => nTO v | sCIO => nCIO v | sTIO => nTIO v
  end.

Definition tabulate (f : set_name → nat) : seven := mk7 (f sI) (f sO) (f sIO) (f sCO) (f sTO) (f sCIO) (f sTIO).

Definition put7 (s : set_name) (n : nat) (v : seven) : seven :=
  tabulate (λ s', if decide (s = s') then n else get7 s' v).

Definition counts_of (id : Z) (sv : StateToSave) : seven := tabulate (λ s, count id (get_set s sv)).

Definition fix7 (s1 s2 d : set_name) (v : seven) : seven :=
  let m := min (get7 s1 v) (get7 s2 v) in
  let v := put7 s2 (get7 s2 v - m) (put7 s1 (get7 s1 v - m) v) in
  put7 d (get7 d v + m) v.

Definition cap7 (v : seven) : seven := tabulate (λ s, if decide (get7 s v = 0)%nat then 0%nat else 1%nat).

Definition postprocess7 (v : seven) : seven :=
  cap7 (foldl (λ v '(s1, s2, d), fix7 s1 s2 d v) (cap7 v) fixSets_steps).

Lemma get7_tabulate s f : get7 s (tabulate f) = f s.
Proof. by destruct s. Qed.

Lemma get7_put7 s s' n v : get7 s' (put7 s n v) = if decide (s = s') then n else get7 s' v.
Proof. unfold put7. by rewrite get7_tabulate. Qed.

Lemma seven_ext v w : (∀ s, get7 s v = get7 s w) → v = w.
Proof.
  intros H. destruct v, w. pose proof (H sI). pose proof (H sO). pose proof (H sIO). pose proof (H sCO).
  pose proof (H sTO). pose proof (H sCIO). pose proof (H sTIO). simpl in *. congruence.
Qed.

Lemma counts_put id s l sv : counts_of id (put_set s l sv) = put7 s (count id l) (counts_of id sv).
Proof.
  apply seven_ext. intros s'. rewrite get7_put7. unfold counts_of. rewrite !get7_tabulate, get_put_set.
  by case_decide.
Qed.

Lemma counts_fixSet id s1 s2 d sv :
  s1 ≠ s2 → counts_of id (fixSet s1 s2 d sv) = fix7 s1 s2 d (counts_of id sv).
Proof.
  intros Hne. unfold fixSet. destruct (fixSet_loop _ _) as [[r1 r2] add] eqn:E.
  destruct (fixSet_loop_count id _ _ _ _ _ E) as (H1 & H2 & H3).
  cbv zeta. rewrite !counts_put, count_app, H1, H2, H3, !get_put_set. unfold fix7. cbv zeta.
  assert (∀ s, get7 s (counts_of id sv) = count id (get_set s sv)) as Hg
    by (intros s; unfold counts_of; by rewrite get7_tabulate).
  rewrite !get7_put7, !Hg. f_equal. f_equal.
  destruct (decide (s2 = d)) as [<-|]; [by rewrite H2|].
  by destruct (decide (s1 = d)) as [<-|]; [rewrite H1|].
Qed.

Lemma steps_distinct s1 s2 d : (s1, s2, d) ∈ fixSets_steps → s1 ≠ s2.
Proof.
  assert (Forall (λ '(s1, s2, d), s1 ≠ s2) fixSets_steps) as H by (repeat constructor; done).
  intros Hin. by apply (proj1 (Forall_forall _ _) H) in Hin.
Qed.

Lemma counts_fixSets id sv :
  counts_of id (fixSets sv) = foldl (λ v '(s1, s2, d), fix7 s1 s2 d v) (counts_of id sv) fixSets_steps.
Proof.
  unfold fixSets. pose proof steps_distinct as Hd. revert Hd sv.
  generalize fixSets_steps. intros l. induction l as [|[[s1 s2] d] l IH]; intros Hd sv; [done|].
  simpl. rewrite IH by (intros; eapply Hd; apply elem_of_cons; by right).
  rewrite counts_fixSet; [done|]. apply (Hd s1 s2 d), elem_of_cons. by left.
Qed.

Lemma counts_removeDuplicates id sv : counts_of id (removeDuplicates sv) = cap7 (counts_of id sv).
Proof.
  unfold removeDuplicates, all_sets. cbn [foldl]. rewrite !counts_put, !get_put_set. simpl.
  rewrite !removeDuplicates_count. apply seven_ext. intros s. unfold cap7. rewrite get7_tabulate.
  unfold counts_of. rewrite get7_tabulate. destruct s; simpl; by destruct (count id _).
Qed.

(** The three passes, identifier by identifier. *)
Lemma counts_postprocess id sv : counts_of id (postprocess sv) = postprocess7 (counts_of id sv).
Proof. unfold postprocess. by rewrite counts_removeDuplicates, counts_fixSets, counts_removeDuplicates. Qed.

(** ** The specification: a join in the lattice of classes

    A class tells whether the block is read first, and how it is written: not at
    all, or so that the new value can stay (O), can be cloned (CO), or must be
    transferred (TO) from one invocation to the next. *)

Definition rank (s : set_name) : bool * nat :=
  match s with
  | sI => (true, 0) | sO => (false, 1) | sIO => (true, 1) | sCO => (false, 2) | sCIO => (true, 2)
  | sTO => (false, 3) | sTIO => (true, 3)
  end%nat.

Definition join_rank (x y : bool * nat) : bool * nat := (x.1 || y.1, max x.2 y.2).

(** The class of an identifier that is in the sets [l]; none if it is nowhere. *)
Definition merged (l : list set_name) : list set_name :=
  filter (λ s, rank s = foldr join_rank (false, 0%nat) (rank <$> l)) all_sets.

(** The calls of [fixSets] follow the lattice. *)
Lemma fixSets_steps_join s1 s2 d : (s1, s2, d) ∈ fixSets_steps → rank d = join_rank (rank s1) (rank s2).
Proof.
  assert (Forall (λ '(s1, s2, d), rank d = join_rank (rank s1) (rank s2)) fixSets_steps) as H
    by (repeat constructor; done).
  intros Hin. by apply (proj1 (Forall_forall _ _) H) in Hin.
Qed.

(** The sets an identifier is in. *)
Definition classes7 (v : seven) : list set_name := filter (λ s, get7 s v ≠ 0%nat) all_sets.
Definition classes_of (id : Z) (sv : StateToSave) : list set_name :=
  filter (λ s, id ∈ as_uniqueID <$> get_set s sv) all_sets.

Lemma classes_of_counts id sv : classes_of id sv = classes7 (counts_of id sv).
Proof.
  unfold classes_of, classes7. apply filter_ext_in. intros s _. unfold counts_of. rewrite get7_tabulate.
  rewrite <- count_pos. lia.
Qed.

(** The ten combinations of sets that a single round of [fixSets] does not bring
    together. *)
Definition unresolved : list (list set_name) :=
  [[sI; sO; sIO; sCIO]; [sI; sO; sIO; sTIO]; [sI; sCO; sCIO; sTIO]; [sIO; sCO; sCIO; sTIO];
   [sI; sO; sCO; sCIO; sTIO]; [sI; sIO; sCO; sCIO; sTIO]; [sO; sIO; sCO; sCIO; sTIO];
   [sI; sIO; sCO; sTO; sCIO]; [sI; sO; sIO; sCO; sCIO; sTIO]; [sI; sO; sIO; sCO; sTO; sCIO]].

Definition zero_or_one : list nat := [0; 1]%nat.
Definition all_sevens : list seven :=
  a ← zero_or_one; b ← zero_or_one; c ← zero_or_one; d ← zero_or_one; e ← zero_or_one; f ← zero_or_one;
  g ← zero_or_one; [mk7 a b c d e f g].

Definition check7 (v : seven) : bool :=
  let after := classes7 (postprocess7 v) in
  if bool_decide (classes7 v ∈ unresolved) then bool_decide (2 <= List.length after)%nat
  else bool_decide (after = merged (classes7 v)).

Lemma check_all : forallb check7 all_sevens = true.
Proof. vm_compute. reflexivity. Qed.

Lemma all_sevens_in a b c d e f g :
  Forall (λ n, n ∈ zero_or_one) [a; b; c; d; e; f; g] → mk7 a b c d e f g ∈ all_sevens.
Proof.
  rewrite !Forall_cons. intros (Ha & Hb & Hc & Hd & He & Hf & Hg & _). unfold all_sevens.
  apply list_elem_of_bind. exists a. split; [|done]. apply list_elem_of_bind. exists b. split; [|done].
  apply list_elem_of_bind. exists c. split; [|done]. apply list_elem_of_bind. exists d. split; [|done].
  apply list_elem_of_bind. exists e. split; [|done]. apply list_elem_of_bind. exists f. split; [|done].
  apply list_elem_of_bind. exists g. split; [|done]. by apply list_elem_of_singleton.
Qed.

Lemma cap7_in v : cap7 v ∈ all_sevens.
Proof.
  assert (∀ s, (if decide (get7 s v = 0)%nat then 0 else 1)%nat ∈ zero_or_one) as H.
  { intros s. unfold zero_or_one. case_decide; set_solver. }
  apply all_sevens_in. rewrite !Forall_cons. split_and!; try apply H. by apply Forall_nil.
Qed.

Lemma classes7_cap v : classes7 (cap7 v) = classes7 v.
Proof.
  unfold classes7. apply filter_ext_in. intros s _. unfold cap7. rewrite get7_tabulate. by case_decide.
Qed.

Lemma cap7_idemp v : cap7 (cap7 v) = cap7 v.
Proof. apply seven_ext. intros s. unfold cap7. rewrite !get7_tabulate. by repeat case_decide. Qed.

Lemma check7_holds v : check7 v = true.
Proof.
  assert (check7 (cap7 v) = true) as H by (pose proof check_all as Ha; rewrite forallb_forall in Ha;
    apply Ha, list_elem_of_In, cap7_in).
  unfold check7, postprocess7 in *. by rewrite classes7_cap, cap7_idemp in H.
Qed.

Lemma postprocess_classes id sv :
  if decide (classes_of id sv ∈ unresolved) then (2 <= List.length (classes_of id (postprocess sv)))%nat
  else classes_of id (postprocess sv) = merged (classes_of id sv).
Proof.
  pose proof (check7_holds (counts_of id sv)) as H. unfold check7 in H.
  rewrite !classes_of_counts, counts_postprocess.
  destruct (decide (classes7 (counts_of id sv) ∈ unresolved)) as [Hin|Hin].
  - rewrite bool_decide_true in H by done. by apply bool_decide_eq_true in H.
  - rewrite bool_decide_false in H by done. by apply bool_decide_eq_true in H.
Qed.

(** ** Consequences *)

Lemma count_le_NoDup l : (∀ id, count id l <= 1)%nat → NoDup (as_uniqueID <$> l).
Proof.
  induction l as [|a l IH]; intros H; [constructor|]. rewrite fmap_cons. constructor.
  - intros Hin%count_pos. specialize (H (as_uniqueID a)). rewrite count_cons, decide_True in H by done. lia.
  - apply IH. intros id. specialize (H id). rewrite count_cons in H. lia.
Qed.

(** After the passes every set holds an identifier at most once. *)
Lemma postprocess_NoDup s sv : NoDup (as_uniqueID <$> get_set s (postprocess sv)).
Proof.
  apply count_le_NoDup. intros id. replace (count id (get_set s (postprocess sv)))
    with (get7 s (counts_of id (postprocess sv))) by (unfold counts_of; by rewrite get7_tabulate).
  rewrite counts_postprocess. unfold postprocess7, cap7. rewrite get7_tabulate. case_decide; lia.
Qed.

Lemma elem_of_classes id sv s : s ∈ classes_of id sv ↔ id ∈ as_uniqueID <$> get_set s sv.
Proof.
  unfold classes_of. rewrite list_elem_of_filter. pose proof (elem_of_all_sets s). tauto.
Qed.

Lemma unresolved_long l : l ∈ unresolved → (4 <= List.length l)%nat.
Proof.
  assert (Forall (λ l, 4 <= List.length l)%nat unresolved) as H by (repeat constructor; simpl; lia).
  intros Hl. by apply (proj1 (Forall_forall _ _) H).
Qed.

(** C16: the passes compute the join of the classes.  An identifier that was in at
    most three sets of a region (or in any combination but ten) is afterwards in
    exactly one set, once: the least class above all of them; one that was in
    none stays in none. *)
Theorem postprocess_joins id sv :
  (List.length (classes_of id sv) <= 3)%nat ∨ classes_of id sv ∉ unresolved →
  classes_of id (postprocess sv) = merged (classes_of id sv) ∧
  ∀ s, count id (get_set s (postprocess sv)) = if decide (s ∈ merged (classes_of id sv)) then 1%nat else 0%nat.
Proof.
  intros Hl. assert (classes_of id sv ∉ unresolved) as Hni
    by (destruct Hl as [Hl|]; [intros Hin%unresolved_long; lia|done]).
  pose proof (postprocess_classes id sv) as Hp. rewrite decide_False in Hp by done. split; [done|].
  intros s. rewrite <- Hp. case_decide as Hin; rewrite elem_of_classes, <- count_pos in Hin; [|lia].
  pose proof (get7_tabulate s (λ s, count id (get_set s (postprocess sv)))) as Hg.
  fold (counts_of id (postprocess sv)) in Hg. rewrite counts_postprocess in Hg.
  unfold postprocess7, cap7 in Hg. rewrite get7_tabulate in Hg. case_decide; lia.
Qed.

Lemma isThereIntersection_true l1 l2 :
  isThereIntersection l1 l2 = true ↔ ∃ id, id ∈ as_uniqueID <$> l1 ∧ id ∈ as_uniqueID <$> l2.
Proof.
  unfold isThereIntersection. rewrite bool_decide_eq_true. split.
  - intros Hsz. destruct (set_choose_or_empty
      ((list_to_set (as_uniqueID <$> l1) : gset Z) ∩ list_to_set (as_uniqueID <$> l2))) as [[id Hid]|He].
    + exists id. rewrite elem_of_intersection, !elem_of_list_to_set in Hid. done.
    + apply size_empty_iff in He. lia.
  - intros (id & H1 & H2). apply Nat.neq_0_lt_0. rewrite size_non_empty_iff. intros He. apply (not_elem_of_empty (C := gset Z) id), He.
    rewrite elem_of_intersection, !elem_of_list_to_set. done.
Qed.

Lemma sanity_pairs_all s1 s2 : s1 ≠ s2 → (s1, s2) ∈ sanity_pairs ∨ (s2, s1) ∈ sanity_pairs.
Proof.
  rewrite !list_elem_of_In. unfold sanity_pairs. simpl. intros H. destruct s1, s2; try done; tauto.
Qed.

Lemma sanity_pairs_distinct s1 s2 : (s1, s2) ∈ sanity_pairs → s1 ≠ s2.
Proof.
  assert (Forall (λ '(s1, s2), s1 ≠ s2) sanity_pairs) as H by (repeat constructor; done).
  intros Hin. by apply (proj1 (Forall_forall _ _) H) in Hin.
Qed.

Lemma classes_NoDup id sv : NoDup (classes_of id sv).
Proof. unfold classes_of. apply NoDup_filter. repeat constructor; set_solver. Qed.

Lemma sanityCheck_None sv : sanityCheck sv = None ↔ ∃ id, (2 <= List.length (classes_of id sv))%nat.
Proof.
  unfold sanityCheck. destruct (existsb _ _) eqn:E; (split; [intros H|intros H]); try done.
  - apply existsb_exists in E as ([s1 s2] & Hin & Hi). apply list_elem_of_In, sanity_pairs_distinct in Hin.
    apply isThereIntersection_true in Hi as (id & H1 & H2). exists id.
    apply elem_of_classes in H1, H2. pose proof (two_elems _ _ _ Hin H1 H2). lia.
  - exfalso. destruct H as [id Hl]. pose proof (classes_NoDup id sv) as Hnd.
    destruct (classes_of id sv) as [|s1 [|s2 l]] eqn:Ec; simpl in Hl; try lia.
    assert (s1 ≠ s2) as Hne by (apply NoDup_cons in Hnd as [Hnd _]; set_solver).
    assert (s1 ∈ classes_of id sv ∧ s2 ∈ classes_of id sv) as [H1 H2] by (rewrite Ec; set_solver).
    apply elem_of_classes in H1, H2.
    apply not_true_iff_false in E. apply E, existsb_exists.
    destruct (sanity_pairs_all s1 s2 Hne) as [Hp|Hp];
      (eexists; split; [by apply list_elem_of_In|]); simpl; apply isThereIntersection_true; by exists id.
Qed.

Lemma merged_short l : (List.length (merged l) <= 1)%nat.
Proof.
  unfold merged. generalize (foldr join_rank (false, 0%nat) (rank <$> l)). intros [b n].
  unfold all_sets. rewrite !filter_cons, filter_nil. simpl.
  destruct b; repeat case_decide; simplify_eq; simpl; lia.
Qed.

(** C40: when get-ward aborts.  The sanity check after the passes fails exactly
    when some identifier was in one of the ten combinations of sets; for an
    identifier in I, O, IO and CIO, say, the first step makes a second copy in
    IO, and only one of the two is moved on to CIO. *)
Theorem sanityCheck_aborts_iff sv :
  sanityCheck (postprocess sv) = None ↔ ∃ id, classes_of id sv ∈ unresolved.
Proof.
  rewrite sanityCheck_None. split; intros [id H]; exists id; pose proof (postprocess_classes id sv) as Hp.
  - case_decide as Hd; [done|]. rewrite Hp in H. pose proof (merged_short (classes_of id sv)). lia.
  - by rewrite decide_True in Hp.
Qed.

Lemma merged_nil l : merged l = [] ↔ l = [].
Proof.
  split; [|by intros ->]. intros H. destruct l as [|s l]; [done|exfalso].
  assert (∀ l, (foldr join_rank (false, 0%nat) (rank <$> l)).2 <= 3)%nat as Hmax.
  { clear. induction l as [|s l IH]; [simpl; lia|].
    change (max (rank s).2 (foldr join_rank (false, 0%nat) (rank <$> l)).2 <= 3)%nat.
    assert ((rank s).2 <= 3)%nat by (destruct s; simpl; lia). lia. }
  specialize (Hmax l).
  assert (filter (λ s0, rank s0 = join_rank (rank s) (foldr join_rank (false, 0%nat) (rank <$> l))) all_sets = [])
    as Hnil by exact H. clear H. revert Hmax Hnil.
  generalize (foldr join_rank (false, 0%nat) (rank <$> l)). intros [b n] Hmax H. simpl in Hmax.
  assert (∃ s', rank s' = join_rank (rank s) (b, n)) as [s' Hs'].
  { destruct s, b, n as [|[|[|[|n]]]]; try lia; unfold join_rank; simpl;
      first [by exists sI|by exists sO|by exists sIO|by exists sCO|by exists sTO|by exists sCIO|by exists sTIO]. }
  assert (s' ∈ filter (λ s0, rank s0 = join_rank (rank s) (b, n)) all_sets) as Hin
    by (apply list_elem_of_filter; split; [done|apply elem_of_all_sets]).
  rewrite H in Hin. by apply elem_of_nil in Hin.
Qed.

(** No identifier is lost or invented. *)
Lemma postprocess_keeps_ids id sv : classes_of id (postprocess sv) = [] ↔ classes_of id sv = [].
Proof.
  pose proof (postprocess_classes id sv) as Hp. case_decide as Hd.
  - apply unresolved_long in Hd. split; intros E; [rewrite E in Hp; simpl in Hp|rewrite E in Hd; simpl in Hd]; lia.
  - by rewrite Hp, merged_nil.
Qed.

(** ** get-ward: the percentage *)

(** The identifiers in some of the sets of a region, set by set. *)
Definition ids_in (L : list set_name) (sv : StateToSave) : list Z :=
  concat ((λ s, as_uniqueID <$> get_set s sv) <$> L).

Lemma elem_of_ids_in L sv id : id ∈ ids_in L sv ↔ ∃ s, s ∈ L ∧ s ∈ classes_of id sv.
Proof.
  unfold ids_in. rewrite list_elem_of_In, in_concat. setoid_rewrite <- list_elem_of_In.
  setoid_rewrite list_elem_of_fmap. setoid_rewrite elem_of_classes. naive_solver.
Qed.

Lemma ids_in_length L sv : List.length (ids_in L sv) = foldr Nat.add 0%nat ((λ s, List.length (get_set s sv)) <$> L).
Proof.
  unfold ids_in. induction L as [|s L IH]; [done|]. rewrite fmap_cons. cbn [concat foldr fmap list_fmap].
  rewrite length_app, length_fmap. f_equal. exact IH.
Qed.

(** Disjoint sets without duplicates list every identifier once. *)
Lemma ids_in_NoDup L sv :
  (∀ s, NoDup (as_uniqueID <$> get_set s sv)) → sanityCheck sv = Some tt → NoDup L → NoDup (ids_in L sv).
Proof.
  intros Hnd Hs HL. induction HL as [|s L Hni _ IH]; [constructor|].
  change (NoDup ((as_uniqueID <$> get_set s sv) ++ ids_in L sv)). apply NoDup_app. split; [apply Hnd|].
  split; [|done]. intros id Hid Hin. apply elem_of_ids_in in Hin as (s2 & Hs2 & Hc).
  assert (s ≠ s2) as Hne by congruence. apply elem_of_classes in Hid.
  pose proof (two_elems _ _ _ Hne Hid Hc).
  assert (sanityCheck sv = None) as Hn; [|congruence]. apply sanityCheck_None. exists id. lia.
Qed.

Lemma ids_in_size L sv :
  (∀ s, NoDup (as_uniqueID <$> get_set s sv)) → sanityCheck sv = Some tt → NoDup L →
  size (list_to_set (ids_in L sv) : gset Z) = foldr Nat.add 0%nat ((λ s, List.length (get_set s sv)) <$> L).
Proof. intros. rewrite size_list_to_set by (by apply ids_in_NoDup). apply ids_in_length. Qed.

(** The numbers of the percentage, in a region that passes the check. *)
Lemma percentage_sizes sv notTransfer total :
  (∀ s, NoDup (as_uniqueID <$> get_set s sv)) → processStateToSave sv = Some (notTransfer, total) →
  sanityCheck sv = Some tt ∧ total = size (list_to_set (ids_in all_sets sv) : gset Z) ∧
  notTransfer = size (list_to_set (ids_in [sI; sO; sIO; sCO; sCIO] sv) : gset Z).
Proof.
  unfold processStateToSave, getPercentageOfWardAllocations. intros Hnd H.
  destruct (sanityCheck sv) as [[]|] eqn:Hs; [|done]. split; [done|].
  injection H as <- <-. rewrite !ids_in_size; [simpl; lia|done|done| |done|done|]; repeat constructor; set_solver.
Qed.

Lemma merged_singleton l s s' : s ∈ merged l → s' ∈ merged l → s = s'.
Proof.
  intros H1 H2. destruct (decide (s = s')) as [|Hne]; [done|].
  pose proof (two_elems _ _ _ Hne H1 H2). pose proof (merged_short l). lia.
Qed.

(** The percentage counts every identifier once.  When the sanity check
    passes, the total is the number of distinct identifiers of the region as it
    was saved, and the part outside the transfer sets is the number of those whose
    join is neither TO nor TIO. *)
Theorem ward_percentage sv notTransfer total :
  processStateToSave (postprocess sv) = Some (notTransfer, total) →
  let ids : gset Z := list_to_set (ids_in all_sets sv) in
  total = size ids ∧
  notTransfer = size (filter (λ id, sTO ∉ merged (classes_of id sv) ∧ sTIO ∉ merged (classes_of id sv)) ids).
Proof.
  intros H ids. apply percentage_sizes in H as (Hs & -> & ->); [|intros; apply postprocess_NoDup].
  assert (∀ id, classes_of id (postprocess sv) = merged (classes_of id sv)) as Hc.
  { intros id. pose proof (postprocess_classes id sv) as Hp. case_decide as Hd; [|done].
    assert (sanityCheck (postprocess sv) = None) as Hn by (apply sanityCheck_None; by exists id). congruence. }
  split.
  - f_equal. apply set_eq. intros id. unfold ids. rewrite !elem_of_list_to_set, !elem_of_ids_in.
    pose proof (postprocess_keeps_ids id sv) as Hk.
    assert (∀ l : list set_name, (∃ s, s ∈ all_sets ∧ s ∈ l) ↔ l ≠ []) as Hne.
    { intros l. split; [intros (s & _ & Hin) ->; by apply elem_of_nil in Hin|].
      intros Hl. destruct l as [|s l]; [done|].
      exists s. split; [apply elem_of_all_sets|apply elem_of_cons; by left]. }
    rewrite !Hne. tauto.
  - f_equal. apply set_eq. intros id. unfold ids.
    rewrite elem_of_filter, !elem_of_list_to_set, !elem_of_ids_in, Hc. split.
    + intros (s & Hs1 & Hs2). assert (s ≠ sTO ∧ s ≠ sTIO) as [H1 H2] by set_solver.
      split; [split; intros Hin; by pose proof (merged_singleton _ _ _ Hs2 Hin)|].
      destruct (classes_of id sv) as [|s0 l]; [by apply elem_of_nil in Hs2|].
      exists s0. split; [apply elem_of_all_sets|apply elem_of_cons; by left].
    + intros ([H1 H2] & s & _ & Hin).
      destruct (merged (classes_of id sv)) as [|s0 l] eqn:Em.
      { apply (proj1 (merged_nil _)) in Em. rewrite Em in Hin. by apply elem_of_nil in Hin. }
      exists s0. split; [|apply elem_of_cons; by left]. destruct s0; set_solver.
Qed.

(** ** Which entry survives *)

Lemma erase_first_subset id l l' a : erase_first id l = Some l' → a ∈ l' → a ∈ l.
Proof.
  revert l'. induction l as [|b l IH]; intros l'; simpl; [done|]. case_decide.
  - intros [= ->] Ha. apply elem_of_cons. by right.
  - intros (l1 & Hl & ->)%fmap_Some Ha. apply elem_of_cons in Ha as [->|Ha]; apply elem_of_cons; [by left|right].
    by eapply IH.
Qed.

Lemma fixSet_loop_from l1 l2 r1 r2 add :
  fixSet_loop l1 l2 = (r1, r2, add) →
  (∀ a, a ∈ r1 ∨ a ∈ add → a ∈ l1) ∧ (∀ a, a ∈ r2 → a ∈ l2).
Proof.
  revert l2 r1 r2 add. induction l1 as [|b l1 IH]; intros l2 r1 r2 add; simpl.
  { intros [= <- <- <-]. split; [|done]. intros a [H|H]; by apply elem_of_nil in H. }
  destruct (erase_first (as_uniqueID b) l2) as [l2'|] eqn:E;
    destruct (fixSet_loop l1 _) as [[r1' r2'] add'] eqn:El; intros [= <- <- <-];
    destruct (IH _ _ _ _ El) as [H1 H2]; split; intros a; rewrite ?elem_of_cons.
  - intros [H|[->|H]]; [right; apply H1; by left|by left|right; apply H1; by right].
  - intros H. eapply erase_first_subset; [done|]. by apply H2.
  - intros [[->|H]|H]; [by left|right; apply H1; by left|right; apply H1; by right].
  - apply H2.
Qed.

Lemma fixSet_from s1 s2 d sv s a : a ∈ get_set s (fixSet s1 s2 d sv) → ∃ s', a ∈ get_set s' sv.
Proof.
  unfold fixSet. destruct (fixSet_loop _ _) as [[r1 r2] add] eqn:E. cbv zeta.
  apply fixSet_loop_from in E as [H1 H2]. rewrite !get_put_set.
  intros Ha. repeat case_decide; try rewrite elem_of_app in Ha; naive_solver.
Qed.

Lemma removeDuplicatesFromSet_from seen l a : a ∈ removeDuplicatesFromSet seen l → a ∈ l.
Proof.
  revert seen. induction l as [|b l IH]; intros seen; simpl; [done|]. rewrite elem_of_cons.
  case_decide; [intros H'; right; by eapply IH|]. rewrite elem_of_cons. intros [->|H']; [by left|right; by eapply IH].
Qed.

Lemma removeDuplicates_from s sv a : a ∈ get_set s (removeDuplicates sv) → a ∈ get_set s sv.
Proof.
  unfold removeDuplicates, all_sets. cbn [foldl]. rewrite !get_put_set.
  intros Ha. destruct s; simpl in Ha; by apply removeDuplicatesFromSet_from in Ha.
Qed.

Lemma fixSets_from sv s a : a ∈ get_set s (fixSets sv) → ∃ s', a ∈ get_set s' sv.
Proof.
  unfold fixSets. generalize fixSets_steps. intros steps. revert s sv.
  induction steps as [|[[s1 s2] d] steps IH]; intros s sv Ha; [by exists s|].
  destruct (IH _ _ Ha) as (s' & Hs'). by eapply fixSet_from.
Qed.

Lemma postprocess_eq sv : postprocess sv = removeDuplicates (fixSets (removeDuplicates sv)).
Proof. unfold postprocess. reflexivity. Qed.

(** What is reported for an identifier is one of its saved entries, unchanged: the
    pointer, the offsets and the uses of its other entries are dropped, not
    merged. *)
Lemma postprocess_entries s sv a : a ∈ get_set s (postprocess sv) → ∃ s', a ∈ get_set s' sv.
Proof.
  rewrite postprocess_eq. intros Ha. apply removeDuplicates_from, fixSets_from in Ha as (s' & Ha).
  exists s'. by apply removeDuplicates_from.
Qed.

(** ** Witnesses *)

Definition demo_alloc (id : Z) : AllocationToSave := MkAllocationToSave None 1 id 4096 24 ∅ [] false.

(** Identifier 5 is an input and an output, twice; 6 is transferred. *)
Definition demo_region : StateToSave :=
  MkStateToSave "main" 1 [demo_alloc 5; demo_alloc 5] [demo_alloc 5] [] [] [demo_alloc 6] [] [] [].

Lemma postprocess_joins_witness :
  classes_of 5 demo_region = [sI; sO] ∧ classes_of 5 (postprocess demo_region) = [sIO].
Proof.
  split; [vm_compute; reflexivity|].
  destruct (postprocess_joins 5 demo_region) as [H _]; [left; vm_compute; lia|].
  rewrite H. vm_compute. reflexivity.
Defined.

Lemma ward_percentage_witness :
  processStateToSave (postprocess demo_region) = Some (1%nat, 2%nat) ∧
  2%nat = size (list_to_set (ids_in all_sets demo_region) : gset Z).
Proof.
  assert (processStateToSave (postprocess demo_region) = Some (1%nat, 2%nat)) as H by (vm_compute; reflexivity).
  split; [exact H|]. exact (proj1 (ward_percentage demo_region 1 2 H)).
Defined.

(** A region with one identifier in I, O, IO and CIO: get-ward aborts. *)
Example demo_unresolved :
  sanityCheck (postprocess (MkStateToSave "main" 1 [demo_alloc 5] [demo_alloc 5] [demo_alloc 5] [] []
    [demo_alloc 5] [] [])) = None.
Proof. vm_compute. reflexivity. Qed.
