(* ===== verification/DebugInfo.v ===== *)
(** * Source positions, from the compiler pass to the tools

    The pass gives every instrumented entry an identifier and writes one record
    per entry to [debugData.dat] (src/CatPass.cpp, src/include/DebugData.hpp,
    src/include/Utils.hpp); the run-time data refer to the entries by these
    static identifiers; the tools of utils/prettyPrint read the file back
    (help.cpp) and print the positions.  The file is the bytes of the structs, one
    after the other. *)

From stdpp Require Import pretty.
From S2P Require Import Prelude Helpers OrdMap Objects AllocTable ConnGraph Commit CleanBatch Shadow Batch.
From S2P Require Import Memory Callstack UniqueIds Wrapper RunData PostProcess.
From Stdlib Require Import Ascii.

(** ** Records *)

Definition STRING_SIZE : nat := 1000.

(** [DebugData]: two arrays of [STRING_SIZE] characters and two [unsigned]. *)
Record DebugData := MkDebugData {
  pathToFile : list ascii;
  varName : list ascii;
  lineNum : Z;
  columnNum : Z;
}.

Definition nul : ascii := Ascii.zero.

(** [memset] to 0, then [memcpy] of the string and its terminator. *)
Definition char_array (s : list ascii) : list ascii :=
  s ++ replicate (STRING_SIZE - List.length s) nul.

(** The constructor; [None] is [abort]. *)
Definition new_DebugData (path var : list ascii) (line column : Z) : option DebugData :=
  if decide (STRING_SIZE <= List.length path ∨ STRING_SIZE <= List.length var)%nat then None
  else Some (MkDebugData (char_array path) (char_array var) line column).

(** A [char] array read as a string ([std::string(debugDatum->varName)],
    [std::cout << debugData->pathToFile]): up to the first zero. *)
Fixpoint c_str (l : list ascii) : list ascii :=
  match l with
  | [] => []
  | c :: l => if decide (c = nul) then [] else c :: c_str l
  end.

(** ** The bytes of a record

    The arrays fill 2000 bytes and the integers follow, little endian, without
    padding: 2008 bytes. *)

Definition byte_of (z : Z) : ascii := ascii_of_N (Z.to_N (z mod 256)).
Definition of_byte (c : ascii) : Z := Z.of_N (N_of_ascii c).

Definition le32 (z : Z) : list ascii :=
  [byte_of z; byte_of (z / 256); byte_of (z / 65536); byte_of (z / 16777216)].

Definition of_le32 (l : list ascii) : Z :=
  match l with
  | [a; b; c; d] => of_byte a + 256 * of_byte b + 65536 * of_byte c + 16777216 * of_byte d
  | _ => 0
  end.

Definition sizeof_DebugData : nat := STRING_SIZE + STRING_SIZE + 8.

Definition struct_bytes (d : DebugData) : list ascii :=
  pathToFile d ++ varName d ++ le32 (lineNum d) ++ le32 (columnNum d).

Definition of_struct_bytes (l : list ascii) : DebugData :=
  MkDebugData (take STRING_SIZE l) (take STRING_SIZE (drop STRING_SIZE l))
    (of_le32 (take 4 (drop (STRING_SIZE + STRING_SIZE) l)))
    (of_le32 (take 4 (drop (STRING_SIZE + STRING_SIZE + 4) l))).

(** ** The pass *)

(** The fields of [Entry] that end up in the file, and its identifier. *)
Record Entry := MkEntry {
  en_path : list ascii;
  en_var : list ascii;
  en_line : Z;
  en_column : Z;
  en_id : Z;
}.

Definition set_id (id : Z) (e : Entry) : Entry :=
  MkEntry (en_path e) (en_var e) (en_line e) (en_column e) id.

Definition getDebugData_of (e : Entry) : option DebugData :=
  new_DebugData (en_path e) (en_var e) (en_line e) (en_column e).

(** [createDebugDataForVector]: the entries with their identifiers, and the
    records so far. *)
Fixpoint createDebugDataForVector (entries : list Entry) (debugData : list DebugData)
    : option (list Entry * list DebugData) :=
  match entries with
  | [] => Some ([], debugData)
  | e :: es =>
      let e := set_id (wrap64 (Z.of_nat (List.length debugData)) +₆₄ 1) e in
      d ← getDebugData_of e;
      '(es, debugData) ← createDebugDataForVector es (debugData ++ [d]);
      Some (e :: es, debugData)
  end.

(** [createDebugData] *)
Fixpoint createDebugData (allEntries : list (list Entry)) (debugData : list DebugData)
    : option (list (list Entry) * list DebugData) :=
  match allEntries with
  | [] => Some ([], debugData)
  | es :: all =>
      '(es, debugData) ← createDebugDataForVector es debugData;
      '(all, debugData) ← createDebugData all debugData;
      Some (es :: all, debugData)
  end.

(** [writeDebugData]: the contents of the file. *)
Definition writeDebugData (debugData : list DebugData) : list ascii := concat (struct_bytes <$> debugData).

(** ** The tools *)

(** The loop of [getDebugData]: a read that meets the end of the file ends it. *)
Fixpoint read_records (fuel : nat) (file : list ascii) (staticID : Z) (debugData : gmap Z DebugData)
    : gmap Z DebugData :=
  match fuel with
  | O => debugData
  | S fuel =>
      if decide (List.length file < sizeof_DebugData)%nat then debugData
      else read_records fuel (drop sizeof_DebugData file) (staticID +₆₄ 1)
        (<[staticID := of_struct_bytes (take sizeof_DebugData file)]> debugData)
  end.

(** Every round consumes a record, so the length of the file is fuel enough. *)
Definition getDebugData (file : list ascii) : gmap Z DebugData := read_records (List.length file) file 1 ∅.

(** ** The file read back *)

Definition u32 (z : Z) : Prop := 0 <= z < 4294967296.

Definition well_formed (d : DebugData) : Prop :=
  List.length (pathToFile d) = STRING_SIZE ∧ List.length (varName d) = STRING_SIZE ∧
  u32 (lineNum d) ∧ u32 (columnNum d).

Lemma byte_roundtrip z : of_byte (byte_of z) = z mod 256.
Proof.
  unfold of_byte, byte_of. pose proof (Z.mod_pos_bound z 256).
  rewrite N_ascii_embedding; [rewrite Z2N.id; lia|]. apply N2Z.inj_lt. rewrite Z2N.id by lia. simpl. lia.
Qed.

Lemma le32_roundtrip z : u32 z → of_le32 (le32 z) = z.
Proof.
  unfold u32, le32, of_le32. intros Hz. rewrite !byte_roundtrip.
  replace 65536 with (256 * 256) by lia. replace 16777216 with (256 * 256 * 256) by lia.
  rewrite <- !Z.div_div by lia. set (a := z / 256). set (b := a / 256). set (c := b / 256).
  pose proof (Z.div_mod z 256). pose proof (Z.div_mod a 256). pose proof (Z.div_mod b 256).
  assert (c = c mod 256) as Hc.
  { symmetry. apply Z.mod_small. unfold c, b, a. rewrite !Z.div_div by lia. split.
    - apply Z.div_pos; lia.
    - apply Z.div_lt_upper_bound; lia. }
  rewrite <- Hc. lia.
Qed.

Lemma le32_length z : List.length (le32 z) = 4%nat.
Proof. done. Qed.

#[local] Opaque STRING_SIZE le32 of_le32.

Lemma struct_bytes_length d : well_formed d → List.length (struct_bytes d) = sizeof_DebugData.
Proof.
  intros (Hp & Hv & _ & _). unfold struct_bytes, sizeof_DebugData.
  rewrite !length_app, Hp, Hv, !le32_length. lia.
Qed.

Lemma struct_roundtrip d : well_formed d → of_struct_bytes (struct_bytes d) = d.
Proof.
  intros (Hp & Hv & Hl & Hc). unfold of_struct_bytes, struct_bytes.
  rewrite (take_app_length' (pathToFile d)) by done.
  rewrite (drop_app_length' (pathToFile d)) by done.
  rewrite (take_app_length' (varName d)) by done.
  rewrite (app_assoc (pathToFile d)). rewrite (drop_app_length' (pathToFile d ++ varName d)) by (rewrite length_app; lia).
  rewrite (take_app_length' (le32 (lineNum d))) by (by rewrite le32_length).
  rewrite (app_assoc (pathToFile d ++ varName d)).
  rewrite (drop_app_length' ((pathToFile d ++ varName d) ++ le32 (lineNum d)))
    by (rewrite !length_app, le32_length; lia).
  rewrite (firstn_all2 (le32 (columnNum d))) by (rewrite le32_length; lia).
  rewrite !le32_roundtrip by done. by destruct d.
Qed.

Lemma c_str_char_array s : (List.length s < STRING_SIZE)%nat → c_str (char_array s) = c_str s.
Proof.
  intros Hlt. unfold char_array. destruct (STRING_SIZE - List.length s)%nat as [|n] eqn:E; [lia|]. clear Hlt E.
  induction s as [|c s IH]; simpl; [done|]. case_decide; [done|]. f_equal. exact IH.
Qed.

Lemma char_array_length s : (List.length s < STRING_SIZE)%nat → List.length (char_array s) = STRING_SIZE.
Proof. intros. unfold char_array. rewrite length_app, length_replicate. lia. Qed.

(** The text before the first zero of a string without zeros is all of it. *)
Lemma c_str_no_nul s : nul ∉ s → c_str s = s.
Proof.
  induction s as [|c s IH]; simpl; intros Hn; [done|]. rewrite decide_False by set_solver.
  f_equal. apply IH. set_solver.
Qed.

Lemma new_DebugData_spec path var line column d :
  new_DebugData path var line column = Some d → u32 line → u32 column →
  well_formed d ∧ c_str (pathToFile d) = c_str path ∧ c_str (varName d) = c_str var ∧
  lineNum d = line ∧ columnNum d = column.
Proof.
  unfold new_DebugData. case_decide as Hd; [done|]. intros [= <-] Hl Hc. simpl.
  rewrite !c_str_char_array by lia. unfold well_formed. simpl. rewrite !char_array_length by lia. done.
Qed.

(** Lengths as integers. *)
Notation zlen l := (Z.of_nat (List.length l)).

Lemma read_records_spec fuel dds id m k :
  Forall well_formed dds → (List.length dds <= fuel)%nat → 0 <= id → id + zlen dds < two64 →
  read_records fuel (concat (struct_bytes <$> dds)) id m !! k =
  if decide (id <= k < id + zlen dds) then dds !! Z.to_nat (k - id) else m !! k.
Proof.
  intros Hwf. revert fuel id m. induction Hwf as [|d dds Hd _ IH]; intros fuel id m Hfuel Hid Hmax; simpl in *.
  - rewrite decide_False by lia. destruct fuel as [|fuel]; simpl; [done|].
    rewrite decide_True; [done|]. unfold sizeof_DebugData. lia.
  - destruct fuel as [|fuel]; [lia|]. simpl. rewrite length_app, struct_bytes_length by done.
    rewrite decide_False by lia. rewrite drop_app_length' by (by rewrite struct_bytes_length).
    rewrite take_app_length' by (by rewrite struct_bytes_length). rewrite struct_roundtrip by done.
    rewrite add64_small by lia. rewrite IH by lia.
    destruct (decide (k = id)) as [->|Hne].
    + rewrite decide_False by lia. rewrite decide_True by lia. rewrite lookup_insert_eq.
      by replace (Z.to_nat (id - id)) with 0%nat by lia.
    + destruct (decide (id + 1 <= k < id + 1 + zlen dds)) as [Hin|Hout].
      * rewrite decide_True by lia. replace (Z.to_nat (k - id)) with (S (Z.to_nat (k - (id + 1)))) by lia. done.
      * rewrite decide_False by lia. by rewrite lookup_insert_ne by lia.
Qed.

Lemma getDebugData_spec dds k :
  Forall well_formed dds → zlen dds + 1 < two64 →
  getDebugData (writeDebugData dds) !! k =
  if decide (1 <= k <= zlen dds) then dds !! Z.to_nat (k - 1) else None.
Proof.
  intros Hwf Hmax. unfold getDebugData, writeDebugData. rewrite read_records_spec; [|done| |lia|lia].
  - rewrite lookup_empty. repeat case_decide; done || lia.
  - assert (List.length dds <= List.length (concat (struct_bytes <$> dds)))%nat as H; [|done].
    clear Hmax. induction Hwf as [|d dds Hd _ IH]; [simpl; lia|].
    rewrite fmap_cons. cbn [concat List.length]. rewrite length_app, struct_bytes_length by done. unfold sizeof_DebugData. lia.
Qed.

(** Identifiers are positions in the file, counted from 1. *)
Definition recorded (dds : list DebugData) (e : Entry) : Prop :=
  1 <= en_id e <= zlen dds ∧ ∃ d, dds !! Z.to_nat (en_id e - 1) = Some d ∧ getDebugData_of e = Some d.

Lemma recorded_app dds dds' e : recorded dds e → recorded (dds ++ dds') e.
Proof.
  intros (Hid & d & Hd & He). split; [rewrite length_app; lia|]. exists d. split; [|done].
  rewrite lookup_app_l by lia. done.
Qed.

Lemma createDebugDataForVector_spec es dds es' dds' :
  createDebugDataForVector es dds = Some (es', dds') → zlen dds + zlen es + 1 < two64 →
  (∃ new, dds' = dds ++ new ∧ List.length new = List.length es) ∧ Forall (recorded dds') es' ∧
  en_id <$> es' = seqZ (zlen dds + 1) (zlen es) ∧ set_id 0 <$> es' = set_id 0 <$> es.
Proof.
  revert dds es' dds'. induction es as [|e es IH]; intros dds es' dds'; simpl.
  { intros [= <- <-] _. split; [exists []; by rewrite app_nil_r|]. split; [done|]. by split. }
  intros H Hmax. apply bind_Some in H as (d & Hd & H). apply bind_Some in H as ([es1 dds1] & Hes & [= <- <-]).
  destruct (IH _ _ _ Hes) as ((new & -> & Hnew) & Hrec & Hids & Hsame).
  { rewrite length_app. simpl. lia. }
  rewrite length_app in Hids. simpl in Hids.
  assert (wrap64 (Z.of_nat (List.length dds)) +₆₄ 1 = zlen dds + 1) as Hid.
  { rewrite wrap64_small by (unfold u64; lia). apply add64_small. lia. }
  split; [|split; [|split]].
  - exists (d :: new). rewrite <- app_assoc. split; [done|]. simpl. lia.
  - constructor; [|done]. unfold recorded. simpl. rewrite Hid, !length_app. simpl. split; [lia|].
    exists d. split; [|done]. rewrite <- app_assoc.
    replace (Z.to_nat (zlen dds + 1 - 1)) with (List.length dds) by lia.
    change ([d] ++ new) with (d :: new). by rewrite list_lookup_middle.
  - rewrite fmap_cons, Hids. simpl. rewrite Hid.
    replace (Z.of_nat (S (List.length es))) with (Z.succ (zlen es)) by lia.
    rewrite (seqZ_cons _ (Z.succ (zlen es))) by lia. f_equal. f_equal; lia.
  - rewrite !fmap_cons, Hsame. by destruct e.
Qed.

Lemma createDebugData_spec all dds all' dds' :
  createDebugData all dds = Some (all', dds') →
  zlen dds + zlen (concat all) + 1 < two64 →
  (∃ new, dds' = dds ++ new ∧ List.length new = List.length (concat all)) ∧ Forall (recorded dds') (concat all') ∧
  en_id <$> concat all' = seqZ (zlen dds + 1) (zlen (concat all)) ∧
  set_id 0 <$> concat all' = set_id 0 <$> concat all.
Proof.
  revert dds all' dds'. induction all as [|es all IH]; intros dds all' dds'; simpl.
  { intros [= <- <-] _. split; [exists []; by rewrite app_nil_r|]. split; [done|]. by split. }
  intros H Hmax. rewrite length_app in Hmax.
  apply bind_Some in H as ([es1 dds1] & Hes & H). apply bind_Some in H as ([all1 dds2] & Hall & [= <- <-]).
  apply createDebugDataForVector_spec in Hes as ((new & -> & Hnew) & Hrec & Hids & Hsame); [|lia].
  apply IH in Hall as ((new2 & -> & Hnew2) & Hrec2 & Hids2 & Hsame2); [|rewrite length_app; lia].
  split; [|split; [|split]].
  - exists (new ++ new2). rewrite app_assoc. split; [done|]. rewrite !length_app. lia.
  - simpl. apply Forall_app. split; [|done]. eapply Forall_impl; [done|]. intros e. apply recorded_app.
  - cbn [concat]. rewrite fmap_app, Hids, Hids2, (length_app dds new), (length_app es), Hnew.
    rewrite (Nat2Z.inj_add (List.length es) (List.length (concat all))), seqZ_app by lia.
    f_equal. f_equal. lia.
  - simpl. by rewrite !fmap_app, Hsame, Hsame2.
Qed.

(** Entry by entry, numbering changes only the identifier. *)
Definition same_but_id (e' e : Entry) : Prop := set_id 0 e' = set_id 0 e.

Lemma createDebugDataForVector_same es dds es' dds' :
  createDebugDataForVector es dds = Some (es', dds') → Forall2 same_but_id es' es.
Proof.
  revert dds es' dds'. induction es as [|e es IH]; intros dds es' dds'; simpl; [intros [= <- <-]; constructor|].
  intros H. apply bind_Some in H as (d & _ & H). apply bind_Some in H as ([es1 dds1] & H1 & [= <- <-]).
  constructor; [done|by eapply IH].
Qed.

Lemma createDebugData_same all dds all' dds' :
  createDebugData all dds = Some (all', dds') → Forall2 (Forall2 same_but_id) all' all.
Proof.
  revert dds all' dds'. induction all as [|es all IH]; intros dds all' dds'; simpl; [intros [= <- <-]; constructor|].
  intros H. apply bind_Some in H as ([es1 dds1] & H1 & H). apply bind_Some in H as ([all1 dds2] & H2 & [= <- <-]).
  constructor; [by eapply createDebugDataForVector_same|by eapply IH].
Qed.

(** Numbering aborts only on a path or a name that does not fit. *)
Definition fits (e : Entry) : Prop :=
  (List.length (en_path e) < STRING_SIZE)%nat ∧ (List.length (en_var e) < STRING_SIZE)%nat.

Lemma createDebugDataForVector_total es dds : Forall fits es → is_Some (createDebugDataForVector es dds).
Proof.
  intros H. revert dds. induction H as [|e es [Hp Hv] _ IH]; intros dds; simpl; [done|].
  unfold getDebugData_of, new_DebugData. simpl. rewrite decide_False by lia. simpl.
  edestruct IH as ([es' dds'] & ->). done.
Qed.

Lemma createDebugData_total all dds : Forall fits (concat all) → is_Some (createDebugData all dds).
Proof.
  revert dds. induction all as [|es all IH]; intros dds; simpl; [done|]. rewrite Forall_app. intros [H1 H2].
  edestruct (createDebugDataForVector_total es dds H1) as ([es' dds'] & ->). simpl.
  edestruct (IH dds' H2) as ([all' dds''] & ->). done.
Qed.

(** The entries the file is written for keep their positions. *)
Lemma numbered_u32 all all' :
  set_id 0 <$> concat all' = set_id 0 <$> concat all → Forall (λ e, u32 (en_line e) ∧ u32 (en_column e)) (concat all) →
  ∀ e, e ∈ concat all' → u32 (en_line e) ∧ u32 (en_column e).
Proof.
  intros Hsame Hu32 e He.
  assert (set_id 0 e ∈ set_id 0 <$> concat all) as Hin by (rewrite <- Hsame; by apply list_elem_of_fmap_2).
  apply list_elem_of_fmap in Hin as (e0 & E & He0). rewrite Forall_forall in Hu32. apply Hu32 in He0.
  injection E as _ _ El Ec. by rewrite El, Ec.
Qed.

(** The record of the file for an entry, and the identifiers the file has. *)
Lemma numbered_resolves all all' dds :
  createDebugData all [] = Some (all', dds) → zlen (concat all) + 1 < two64 →
  Forall (λ e, u32 (en_line e) ∧ u32 (en_column e)) (concat all) →
  List.length dds = List.length (concat all) ∧ Forall well_formed dds ∧
  ∀ e, e ∈ concat all' → ∃ d, getDebugData (writeDebugData dds) !! en_id e = Some d ∧
    c_str (pathToFile d) = c_str (en_path e) ∧ c_str (varName d) = c_str (en_var e) ∧
    lineNum d = en_line e ∧ columnNum d = en_column e.
Proof.
  intros Hc Hmax Hu32.
  apply createDebugData_spec in Hc as ((new & -> & Hnew) & Hrec & Hids & Hsame); [|simpl; lia].
  simpl in *. rewrite Forall_forall in Hrec. pose proof (numbered_u32 all all' Hsame Hu32) as Hu.
  assert (Forall well_formed new) as Hwf.
  { apply Forall_lookup. intros i d Hd.
    assert (Z.of_nat i + 1 ∈ en_id <$> concat all') as Hin.
    { rewrite Hids. apply elem_of_seqZ. apply lookup_lt_Some in Hd. lia. }
    apply list_elem_of_fmap in Hin as (e & He & Hin). destruct (Hrec e Hin) as (_ & d' & Hd' & Hg).
    rewrite <- He in Hd'. replace (Z.to_nat (Z.of_nat i + 1 - 1)) with i in Hd' by lia.
    rewrite Hd in Hd'. injection Hd' as ->. destruct (Hu e Hin) as [H1 H2].
    by destruct (new_DebugData_spec _ _ _ _ _ Hg H1 H2). }
  split; [done|]. split; [done|].
  intros e He. destruct (Hrec e He) as (Hid & d & Hd & Hg). exists d.
  rewrite getDebugData_spec by (done || lia). rewrite decide_True by lia. split; [done|].
  destruct (Hu e He) as [H1 H2]. by destruct (new_DebugData_spec _ _ _ _ _ Hg H1 H2) as (_ & ? & ? & ? & ?).
Qed.

(** C17: a static identifier leads back to its source position.  Write the file
    for any lists of entries and read it with the tools: every entry has its own
    identifier, from 1 on (0 is reserved), the identifiers are those of the file
    and no others, and the record found under an entry's identifier has its path
    and variable (up to a zero character), line and column. *)
Theorem debug_data_roundtrip all all' dds :
  createDebugData all [] = Some (all', dds) → zlen (concat all) + 1 < two64 →
  Forall (λ e, u32 (en_line e) ∧ u32 (en_column e)) (concat all) →
  set_id 0 <$> concat all' = set_id 0 <$> concat all ∧
  en_id <$> concat all' = seqZ 1 (zlen (concat all)) ∧
  (∀ k, is_Some (getDebugData (writeDebugData dds) !! k) ↔ k ∈ en_id <$> concat all') ∧
  ∀ e, e ∈ concat all' → ∃ d, getDebugData (writeDebugData dds) !! en_id e = Some d ∧
    c_str (pathToFile d) = c_str (en_path e) ∧ c_str (varName d) = c_str (en_var e) ∧
    lineNum d = en_line e ∧ columnNum d = en_column e.
Proof.
  intros Hc Hmax Hu32. destruct (numbered_resolves all all' dds Hc Hmax Hu32) as (Hlen & Hwf & Hres).
  apply createDebugData_spec in Hc as (_ & _ & Hids & Hsame); [|simpl; lia].
  split; [done|]. split; [done|]. split; [|done]. intros k. simpl in Hids.
  rewrite Hids, elem_of_seqZ, getDebugData_spec by (done || lia).
  case_decide as Hd; [|split; [by intros []|lia]]. split; [lia|]. intros _. apply lookup_lt_is_Some. lia.
Qed.

(** ** What the tools print

    The tools differ in the sets they walk and in whether they print the
    allocations themselves or the uses of them.  An identifier without a record
    aborts the tool. *)

Section printing.
  Context (debugData : gmap Z DebugData).

(** [printAllocationToSave] of get-parallelfor, get-stateprivatization and
    get-referencecycles; [printUseToSave]. *)
Definition printAllocation (a : AllocationToSave) : option DebugData := debugData !! as_staticID a.
Definition printUse (u : UseToSave) : option DebugData := debugData !! us_staticID u.

(** [printAllocationToSave] of get-accelerator, get-criticalsection and
    prettyPrint: the allocation must have a record, then its uses are printed. *)
Definition printUsesOfAllocation (a : AllocationToSave) : option (list DebugData) :=
  _ ← printAllocation a; mapM printUse (as_uses a).

(** [printStateSetToSave], for a list of sets one after the other. *)
Definition print_sets {A} (print : AllocationToSave → option A) (sets : list set_name) (sv : StateToSave)
    : option (list (list A)) :=
  mapM (λ s, mapM print (get_set s sv)) sets.

(** [printStateToSave] of each tool. *)
Definition parallelfor_print (sv : StateToSave) := print_sets printAllocation [sI; sO; sIO; sCO; sTO; sCIO; sTIO] sv.
Definition stateprivatization_print (sv : StateToSave) := print_sets printAllocation [sCO; sCIO] sv.
Definition prettyPrint_print (sv : StateToSave) := print_sets printUsesOfAllocation [sI; sO; sIO; sCO; sTO; sCIO; sTIO] sv.
Definition criticalsection_print (sv : StateToSave) := print_sets printUsesOfAllocation [sTO; sTIO] sv.

(** The three groups of get-accelerator: to, from-to and from the device. *)
Definition accelerator_print (sv : StateToSave) :=
  to ← print_sets printUsesOfAllocation [sI; sCIO; sTIO] sv;
  fromTo ← print_sets printUsesOfAllocation [sTO; sTIO] sv;
  from ← print_sets printUsesOfAllocation [sO; sCO; sTO; sIO; sCIO; sTIO] sv;
  Some (to, fromTo, from).

(** [printCycle] *)
Definition printCycle (c : CycleToSave) : option (list DebugData * DebugData) :=
  l ← mapM printAllocation (cy_cycle c); w ← printAllocation (cy_weakPoint c); Some (l, w).

(** [getAllocations] of get-parallelfor: the names of a clause.  A variable
    without a name is known by its line.  [debugData[staticID]] makes a null
    entry for an unknown identifier and dereferences it. *)
Definition clause_name (d : DebugData) : list ascii :=
  match c_str (varName d) with
  | [] => String.list_ascii_of_string (pretty (lineNum d))
  | name => name
  end.

Definition getAllocations (s : set_name) (sv : StateToSave) : option (gset (list ascii)) :=
  mfoldl (λ names a, d ← debugData !! as_staticID a; Some ({[clause_name d]} ∪ names)) ∅ (get_set s sv).

(** [printPragma]: the clauses [shared], [private] and [transfer], set by set. *)
Definition printPragma (sv : StateToSave)
    : option (gset (list ascii) * list (gset (list ascii)) * list (gset (list ascii))) :=
  shared ← getAllocations sI sv;
  private ← mapM (λ s, getAllocations s sv) [sO; sIO; sCO; sCIO];
  transfer ← mapM (λ s, getAllocations s sv) [sTO; sTIO];
  Some (shared, private, transfer).

(** The static identifiers a set refers to. *)
Definition known (a : AllocationToSave) : Prop := is_Some (debugData !! as_staticID a).

Lemma getAllocations_spec s sv :
  Forall known (get_set s sv) →
  ∃ names, getAllocations s sv = Some names ∧
    ∀ n, n ∈ names ↔ ∃ a d, a ∈ get_set s sv ∧ debugData !! as_staticID a = Some d ∧ n = clause_name d.
Proof.
  intros Hk. destruct (mfoldl_collect
    (λ names a, d ← debugData !! as_staticID a; Some ({[clause_name d]} ∪ names))
    (λ a n, ∃ d, debugData !! as_staticID a = Some d ∧ n = clause_name d) (get_set s sv) (∅ : gset (list ascii)))
    as (names & Hn & Hin).
  - intros acc a Ha. rewrite Forall_forall in Hk. destruct (Hk a Ha) as [d Hd]. rewrite Hd. simpl.
    eexists. split; [done|]. intros n. rewrite elem_of_union, elem_of_singleton. naive_solver.
  - exists names. split; [done|]. intros n. rewrite Hin. set_solver.
Qed.

(** A tool that prints allocations gets through exactly when every allocation of
    its sets has a record. *)
Lemma print_sets_total {A} (print : AllocationToSave → option A) sets sv :
  is_Some (print_sets print sets sv) ↔ ∀ s a, s ∈ sets → a ∈ get_set s sv → is_Some (print a).
Proof.
  unfold print_sets. rewrite mapM_is_Some, Forall_forall. setoid_rewrite mapM_is_Some.
  setoid_rewrite Forall_forall. naive_solver.
Qed.

(** The clauses of the pragma.  Once every allocation has a record, printing
    and the pragma succeed, and a name is in the private clause of a set, say,
    exactly when an allocation of that set has it.  Nothing relates the clauses
    of different sets: two allocations of one variable may put it in both. *)
Theorem printPragma_clauses sv :
  (∀ s a, a ∈ get_set s sv → known a) →
  is_Some (parallelfor_print sv) ∧
  ∃ shared private transfer, printPragma sv = Some (shared, private, transfer) ∧
    (∀ n, n ∈ shared ↔ ∃ a d, a ∈ sv_I sv ∧ debugData !! as_staticID a = Some d ∧ n = clause_name d) ∧
    Forall2 (λ s names, ∀ n, n ∈ names ↔
      ∃ a d, a ∈ get_set s sv ∧ debugData !! as_staticID a = Some d ∧ n = clause_name d)
      [sO; sIO; sCO; sCIO; sTO; sTIO] (private ++ transfer).
Proof.
  intros Hk. split; [apply print_sets_total; naive_solver|].
  assert (∀ s, Forall known (get_set s sv)) as Hs by (intros s; apply Forall_forall; intros a; apply Hk).
  unfold printPragma. cbn [mapM mret option_ret].
  destruct (getAllocations_spec sI sv (Hs sI)) as (nI & -> & HI).
  destruct (getAllocations_spec sO sv (Hs sO)) as (nO & -> & HO).
  destruct (getAllocations_spec sIO sv (Hs sIO)) as (nIO & -> & HIO).
  destruct (getAllocations_spec sCO sv (Hs sCO)) as (nCO & -> & HCO).
  destruct (getAllocations_spec sCIO sv (Hs sCIO)) as (nCIO & -> & HCIO).
  destruct (getAllocations_spec sTO sv (Hs sTO)) as (nTO & -> & HTO).
  destruct (getAllocations_spec sTIO sv (Hs sTIO)) as (nTIO & -> & HTIO).
  cbn [mbind option_bind]. eexists nI, [nO; nIO; nCO; nCIO], [nTO; nTIO]. split; [done|]. split; [done|].
  do 6 (constructor; [assumption|]). constructor.
Qed.
End printing.

(** ** Witnesses *)

Definition text (s : string) : list ascii := String.list_ascii_of_string s.

(** An allocation, two stores and a load. *)
Definition demo_entries : list (list Entry) :=
  [[MkEntry (text "/src/a.c") (text "buf") 10 0 0];
   [MkEntry (text "/src/a.c") [] 12 7 0; MkEntry (text "/src/b.c") [] 70000 1 0];
   [MkEntry (text "UnknownPathToFile") [] 0 0 0]].

Lemma debug_data_roundtrip_witness :
  ∃ all' dds, createDebugData demo_entries [] = Some (all', dds) ∧
    en_id <$> concat all' = [1; 2; 3; 4] ∧
    ∀ k, is_Some (getDebugData (writeDebugData dds) !! k) ↔ k ∈ [1; 2; 3; 4].
Proof.
  destruct (createDebugData demo_entries []) as [[all' dds]|] eqn:E; [|vm_compute in E; discriminate].
  exists all', dds. split; [reflexivity|].
  destruct (debug_data_roundtrip demo_entries all' dds E) as (_ & Hids & Hk & _).
  - vm_compute. reflexivity.
  - unfold demo_entries. simpl. repeat (constructor; [split; split; vm_compute; done|]). constructor.
  - change (seqZ 1 (Z.of_nat (List.length (concat demo_entries)))) with [1; 2; 3; 4] in Hids.
    rewrite Hids in Hk. split; [exact Hids|exact Hk].
Defined.

Definition demo_debugData : gmap Z DebugData :=
  {[ 1 := MkDebugData (char_array (text "/src/a.c")) (char_array (text "buf")) 10 0 ]}.

Definition demo_allocation : AllocationToSave := MkAllocationToSave None 1 5 4096 24 ∅ [] false.
Definition demo_saved : StateToSave := MkStateToSave "main" 1 [demo_allocation] [] [demo_allocation] [] [] [] [] [].

Lemma printPragma_clauses_witness :
  ∃ shared private transfer, printPragma demo_debugData demo_saved = Some (shared, private, transfer) ∧
    text "buf" ∈ shared.
Proof.
  destruct (printPragma_clauses demo_debugData demo_saved) as (_ & sh & pr & tr & Hp & Hs & _).
  - intros s a Ha. assert (a = demo_allocation) as ->
      by (destruct s; simpl in Ha; try (by apply elem_of_nil in Ha); by apply list_elem_of_singleton in Ha).
    unfold known. eexists. reflexivity.
  - exists sh, pr, tr. split; [exact Hp|]. apply Hs. eexists demo_allocation, _.
    split; [by apply list_elem_of_singleton|]. split; [reflexivity|]. vm_compute. reflexivity.
Defined.
