(* ===== verification/Advice.v ===== *)
(** * Advice.v: the tools that quote the source

    utils/prettyPrint/get-criticalsection.cpp and get-accelerator.cpp look up the
    line of a use in its file.  The first prints each text once, under a pragma, with
    a position; the second prints every use with the character its column points to.
    The files of the program are an argument. *)

From stdpp Require Import pretty.
From S2P Require Import Prelude Helpers OrdMap Objects AllocTable ConnGraph Commit CleanBatch Shadow Batch.
From S2P Require Import Memory Callstack UniqueIds Wrapper RunData PostProcess DebugInfo.
From Stdlib Require Import Ascii.

(** ** [std::getline] *)

Definition newline : ascii := ascii_of_nat 10.

(** The characters before the first newline, and what follows it if there is one. *)
Fixpoint until_newline (l : list ascii) : list ascii * option (list ascii) :=
  match l with
  | [] => ([], None)
  | c :: l => if decide (c = newline) then ([], Some l) else let '(line, rest) := until_newline l in (c :: line, rest)
  end.

(** A stream: what is left of the file, and whether its end was met. *)
Record stream := MkStream { s_rest : list ascii; s_eof : bool }.

(** The string is cleared only if the stream is good; the end of the file before any
    character is a failure. *)
Definition getline (infile : stream) (line : list ascii) : bool * stream * list ascii :=
  if s_eof infile then (false, infile, line)
  else match s_rest infile with
  | [] => (false, MkStream [] true, [])
  | l => let '(line, rest) := until_newline l in
         match rest with Some r => (true, MkStream r false, line) | None => (true, MkStream [] true, line) end
  end.

(** The loop of [printDebugData]: the line and its number when it ends. *)
Fixpoint read_until (fuel : nat) (infile : stream) (currLineNum lineNum : Z) (line : list ascii) : option (Z * list ascii) :=
  match fuel with
  | O => None
  | S fuel =>
      let '(ok, infile, line) := getline infile line in
      if ok : bool then
        if decide (currLineNum = lineNum) then Some (currLineNum, line)
        else read_until fuel infile (currLineNum + 1) lineNum line
      else Some (currLineNum, line)
  end.

(** Every round but the last takes a character. *)
Definition look_up (contents : list ascii) (lineNum : Z) : option (Z * list ascii) :=
  read_until (S (List.length contents)) (MkStream contents false) 1 lineNum [].

Section tools.
  Context (files : list ascii → option (list ascii)) (debugData : gmap Z DebugData).

(** ** get-criticalsection.cpp

    A file that cannot be opened and an identifier without a record abort. *)

Definition printDebugData (d : DebugData) : option (list ascii) :=
  contents ← files (c_str (pathToFile d)); snd <$> look_up contents (lineNum d).

(** [linesSet] and [lineInfoMap]. *)
Definition advice : Type := gset (list ascii) * gmap (list ascii) DebugData.

Definition note_line (line : list ascii) (d : DebugData) (lineInfoMap : gmap (list ascii) DebugData) : gmap (list ascii) DebugData :=
  let lineInfoMap := match lineInfoMap !! line with None => <[line := d]> lineInfoMap | Some _ => lineInfoMap end in
  if decide (lineNum d = 0) then lineInfoMap else <[line := d]> lineInfoMap.

Definition printUseToSave (st : advice) (u : UseToSave) : option advice :=
  d ← debugData !! us_staticID u;
  line ← printDebugData d;
  Some ({[line]} ∪ st.1, note_line line d st.2).

Definition printUsesToSave (st : advice) (usesToSave : list UseToSave) : option advice := mfoldl printUseToSave st usesToSave.

Definition printAllocationToSave (st : advice) (a : AllocationToSave) : option advice :=
  _ ← debugData !! as_staticID a; printUsesToSave st (as_uses a).

Definition printStateSetToSave (st : advice) (l : list AllocationToSave) : option advice := mfoldl printAllocationToSave st l.

(** What follows each pragma: path, line and text.  [lineInfoMap[line]] of a line
    without an entry is a null pointer. *)
Definition print_line (lineInfoMap : gmap (list ascii) DebugData) (line : list ascii) : option (list ascii * Z * list ascii) :=
  d ← lineInfoMap !! line; Some (c_str (pathToFile d), lineNum d, line).

Definition printStateToSave (sv : StateToSave) : option (list (list ascii * Z * list ascii)) :=
  st ← printStateSetToSave (∅, ∅) (sv_TO sv);
  '(linesSet, lineInfoMap) ← printStateSetToSave st (sv_TIO sv);
  mapM (print_line lineInfoMap) (elements linesSet).

(** [printStatesToSave]: the regions with a running number. *)
Definition printStatesToSave (states : list StateToSave) : option (list (nat * list (list ascii * Z * list ascii))) :=
  imap pair <$> mapM printStateToSave states.

(** ** get-accelerator.cpp

    [operator[]] of a string has a zero at the end and nothing beyond; the index is
    an [unsigned] and wraps. *)
Definition char_at (line : list ascii) (index : Z) : option ascii :=
  if decide (index = Z.of_nat (List.length line)) then Some nul else line !! Z.to_nat index.

Definition columnChar (line : list ascii) (columnNum : Z) : option ascii := char_at line ((columnNum - 1) mod 4294967296).

(** The line number that is printed is where the loop stopped. *)
Definition accelerator_printDebugData (d : DebugData) : option (Z * Z * ascii * list ascii) :=
  contents ← files (c_str (pathToFile d));
  '(currLineNum, line) ← look_up contents (lineNum d);
  c ← columnChar line (columnNum d);
  Some (currLineNum, columnNum d, c, line).

Definition accelerator_printUse (u : UseToSave) : option (Z * Z * ascii * list ascii) :=
  d ← debugData !! us_staticID u; accelerator_printDebugData d.

Definition accelerator_printAllocation (a : AllocationToSave) : option (list (Z * Z * ascii * list ascii)) :=
  _ ← debugData !! as_staticID a; mapM accelerator_printUse (as_uses a).

(** [printStateToSave]: to, from-to and from variables. *)
Definition accelerator_printStateToSave (sv : StateToSave) :=
  to ← print_sets accelerator_printAllocation [sI; sCIO; sTIO] sv;
  fromTo ← print_sets accelerator_printAllocation [sTO; sTIO] sv;
  from ← print_sets accelerator_printAllocation [sO; sCO; sTO; sIO; sCIO; sTIO] sv;
  Some (to, fromTo, from).
End tools.

(** ** The lines of a file

    The pieces between newlines; the last piece is a line of its own unless it is
    empty. *)

Fixpoint pieces (l : list ascii) : list ascii * list (list ascii) :=
  match l with
  | [] => ([], [])
  | c :: l => let '(first, rest) := pieces l in if decide (c = newline) then ([], first :: rest) else (c :: first, rest)
  end.

Definition segments (l : list ascii) : list (list ascii) := let '(first, rest) := pieces l in first :: rest.
Definition last_segment (l : list ascii) : list ascii := default [] (last (segments l)).
Definition text_lines (l : list ascii) : list (list ascii) :=
  if decide (last_segment l = []) then removelast (segments l) else segments l.

(** What a tool quotes for a line number: that line, or what follows the last newline
    if there is no such line. *)
Definition quoted_line (contents : list ascii) (n : Z) : list ascii :=
  if decide (1 <= n) then default (last_segment contents) (text_lines contents !! Z.to_nat (n - 1)) else last_segment contents.

Lemma until_none l line : until_newline l = (line, None) → segments l = [line] ∧ line = l.
Proof.
  revert line. induction l as [|c l IH]; intros line; [by intros [= <-]|]. cbn. case_decide as Hc; [done|].
  destruct (until_newline l) as [line' r] eqn:E. intros [= <- ->]. destruct (IH line' eq_refl) as [H ->].
  unfold segments in *. cbn. destruct (pieces l) as [f rest]. rewrite decide_False by done. by injection H as -> ->.
Qed.

Lemma until_some l line r : until_newline l = (line, Some r) →
  segments l = line :: segments r ∧ (List.length r < List.length l)%nat.
Proof.
  revert line. induction l as [|c l IH]; intros line; [done|]. cbn. case_decide as Hc.
  - intros [= <- ->]. unfold segments. cbn. destruct (pieces r) as [f rest]. rewrite decide_True by done. split; [done|lia].
  - destruct (until_newline l) as [line' r'] eqn:E. intros [= <- ->]. destruct (IH line' eq_refl) as [H Hlen].
    unfold segments in *. cbn. destruct (pieces l) as [f rest]. rewrite decide_False by done. injection H as -> ->. split; [done|lia].
Qed.

Lemma segments_last line r : last (line :: segments r) = last (segments r).
Proof. unfold segments. by destruct (pieces r). Qed.

Lemma lines_cons l line r : segments l = line :: segments r → last_segment l = last_segment r ∧ text_lines l = line :: text_lines r.
Proof.
  intros E. assert (last_segment l = last_segment r) as El by (unfold last_segment; by rewrite E, segments_last). split; [done|].
  unfold text_lines. rewrite El, E. case_decide; [|done]. unfold segments. by destruct (pieces r).
Qed.

Lemma read_until_spec fuel rest cur n line : (List.length rest < fuel)%nat →
  read_until fuel (MkStream rest false) cur n line =
  Some match (if decide (cur <= n) then text_lines rest !! Z.to_nat (n - cur) else None) with
       | Some t => (n, t)
       | None => (cur + zlen (text_lines rest), last_segment rest)
       end.
Proof.
  revert rest cur line. induction fuel as [|fuel IH]; intros rest cur line Hfuel; [lia|]. cbn [read_until]. unfold getline. cbn [s_eof s_rest].
  destruct rest as [|c rest].
  { change (text_lines []) with (@nil (list ascii)). change (last_segment []) with (@nil ascii). rewrite lookup_nil. cbn.
    rewrite Z.add_0_r. by case_decide. }
  destruct (until_newline (c :: rest)) as [t r] eqn:E. destruct r as [r|].
  - apply until_some in E as [Eseg Hlen]. apply lines_cons in Eseg as [El ->]. rewrite El.
    case_decide as Hcn; [subst n; rewrite decide_True, Z.sub_diag by lia; done|].
    rewrite IH by (cbn in Hlen, Hfuel; lia). f_equal. destruct (decide (cur <= n)) as [Hle|Hle].
    + rewrite decide_True by lia. replace (Z.to_nat (n - cur)) with (S (Z.to_nat (n - (cur + 1)))) by lia. cbn [lookup list_lookup].
      destruct (text_lines r !! _); [done|]. f_equal. cbn [List.length]. lia.
    + rewrite decide_False by lia. f_equal. cbn [List.length]. lia.
  - apply until_none in E as [Eseg ->]. assert (text_lines (c :: rest) = [c :: rest] ∧ last_segment (c :: rest) = c :: rest) as [-> ->].
    { unfold text_lines, last_segment. by rewrite Eseg. }
    destruct fuel as [|fuel]; [cbn in Hfuel; lia|]. cbn [read_until getline s_eof].
    case_decide as Hcn; [subst n; rewrite decide_True, Z.sub_diag by lia; done|].
    destruct (decide (cur <= n)) as [Hle|Hle]; [|done].
    replace (Z.to_nat (n - cur)) with (S (Z.to_nat (n - cur - 1))) by lia. done.
Qed.

(** The loop ends with the line that was asked for. *)
Lemma look_up_spec contents n :
  look_up contents n = Some (if decide (1 <= n <= zlen (text_lines contents)) then n else 1 + zlen (text_lines contents), quoted_line contents n).
Proof.
  unfold look_up, quoted_line. rewrite read_until_spec by lia. f_equal. destruct (decide (1 <= n)) as [Hn|Hn].
  - destruct (text_lines contents !! Z.to_nat (n - 1)) as [t|] eqn:E.
    + apply lookup_lt_Some in E. by rewrite decide_True by lia.
    + apply lookup_ge_None in E. by rewrite decide_False by lia.
  - by rewrite decide_False by lia.
Qed.

(** ** Critical sections *)

Section advice.
  Context (files : list ascii → option (list ascii)) (debugData : gmap Z DebugData).

(** The use is at a position of the file, whose text is the line. *)
Definition quotes (u : UseToSave) (d : DebugData) (line : list ascii) : Prop :=
  debugData !! us_staticID u = Some d ∧ ∃ contents, files (c_str (pathToFile d)) = Some contents ∧ line = quoted_line contents (lineNum d).

Definition all_uses (l : list AllocationToSave) : list UseToSave := concat (as_uses <$> l).

Lemma printDebugData_spec d contents : files (c_str (pathToFile d)) = Some contents →
  printDebugData files d = Some (quoted_line contents (lineNum d)).
Proof. intros H. unfold printDebugData. rewrite H. cbn [mbind option_bind]. by rewrite look_up_spec. Qed.

Lemma quotes_iff u d line : quotes u d line ↔ debugData !! us_staticID u = Some d ∧ printDebugData files d = Some line.
Proof.
  unfold quotes, printDebugData. destruct (files (c_str (pathToFile d))) as [contents|]; cbn [mbind option_bind]; [rewrite look_up_spec; cbn|]; naive_solver.
Qed.

(** What the set and the map know of the uses so far: the map has a position for each
    text of the set, and one with a line number if there is any. *)
Record collected (done : list UseToSave) (st : advice) : Prop := {
  ad_lines : ∀ line, line ∈ st.1 ↔ ∃ u d, u ∈ done ∧ quotes u d line;
  ad_keys : ∀ line, line ∈ st.1 ↔ is_Some (st.2 !! line);
  ad_position : ∀ line d, st.2 !! line = Some d → (∃ u, u ∈ done ∧ quotes u d line) ∧
    (lineNum d = 0 → ∀ u d', u ∈ done → quotes u d' line → lineNum d' = 0);
}.

Lemma lookup_note line d m line' : note_line line d m !! line' =
  if decide (line' = line) then
    match m !! line with Some d0 => Some (if decide (lineNum d = 0) then d0 else d) | None => Some d end
  else m !! line'.
Proof.
  unfold note_line. destruct (decide (line' = line)) as [->|Hne].
  - destruct (m !! line) eqn:E; case_decide; by rewrite ?lookup_insert_eq.
  - destruct (m !! line); case_decide; by rewrite ?lookup_insert_ne by done.
Qed.

Lemma printUseToSave_collected done st u d line : collected done st → quotes u d line →
  ∃ st', printUseToSave files debugData st u = Some st' ∧ collected (done ++ [u]) st'.
Proof.
  intros [Hlines Hkeys Hpos] Hq. pose proof Hq as [Hd Hp]%quotes_iff. unfold printUseToSave. rewrite Hd. cbn [mbind option_bind]. rewrite Hp. cbn [mbind option_bind].
  eexists. split; [done|].
  assert (∀ d' line', quotes u d' line' → d' = d ∧ line' = line) as Hfun.
  { intros d' line' [Hd' Hp']%quotes_iff. rewrite Hd in Hd'. injection Hd' as <-. rewrite Hp in Hp'. by injection Hp' as <-. }
  split; cbn [fst snd].
  - intros line'. rewrite elem_of_union, elem_of_singleton, Hlines. setoid_rewrite elem_of_app. setoid_rewrite list_elem_of_singleton. split.
    + intros [->|(u' & d' & Hu & H)]; [exists u, d; by auto|exists u', d'; by auto].
    + intros (u' & d' & [Hu| ->] & H); [right; by exists u', d'|left; by apply Hfun in H as [_ ->]].
  - intros line'. rewrite elem_of_union, elem_of_singleton, Hkeys, lookup_note. case_decide as Hl; [subst line'|naive_solver].
    split; [by destruct (st.2 !! line)|by left].
  - intros line' d1. rewrite lookup_note. setoid_rewrite elem_of_app. setoid_rewrite list_elem_of_singleton.
    case_decide as Hl; [subst line'|].
    + destruct (st.2 !! line) as [d0|] eqn:E.
      * destruct (Hpos line d0 E) as [(u0 & Hu0 & Hq0) Hz]. intros [= <-]. case_decide as Hd0.
        -- split; [exists u0; by auto|]. intros H0 u' d' [Hu| ->] Hq'; [by apply (Hz H0 u')|]. by apply Hfun in Hq' as [-> _].
        -- split; [exists u; by auto|done].
      * intros [= <-]. split; [exists u; by auto|]. intros H0 u' d' [Hu| ->] Hq'; [|by apply Hfun in Hq' as [-> _]].
        exfalso. assert (line ∈ st.1) as Hin by (apply Hlines; by exists u', d'). apply Hkeys in Hin. rewrite E in Hin. by destruct Hin.
    + intros E. destruct (Hpos line' d1 E) as [(u0 & Hu0 & Hq0) Hz]. split; [exists u0; by auto|].
      intros H0 u' d' [Hu| ->] Hq'; [by apply (Hz H0 u')|]. by apply Hfun in Hq' as [_ ->].
Qed.

(** Every use has a record and a file. *)
Definition quotable (u : UseToSave) : Prop := ∃ d line, quotes u d line.

Lemma printUses_collected done st us : collected done st → Forall quotable us →
  ∃ st', printUsesToSave files debugData st us = Some st' ∧ collected (done ++ us) st'.
Proof.
  unfold printUsesToSave. intros Hc Hus. revert done st Hc. induction Hus as [|u us (d & line & Hq) _ IH]; intros done st Hc.
  { exists st. by rewrite app_nil_r. }
  destruct (printUseToSave_collected done st u d line Hc Hq) as (st1 & H1 & Hc1).
  destruct (IH _ _ Hc1) as (st2 & H2 & Hc2). exists st2. cbn [mfoldl]. rewrite H1. cbn [mbind option_bind].
  by rewrite <- app_assoc in Hc2.
Qed.

Lemma printSet_collected done st l : collected done st → Forall (known debugData) l → Forall quotable (all_uses l) →
  ∃ st', printStateSetToSave files debugData st l = Some st' ∧ collected (done ++ all_uses l) st'.
Proof.
  unfold printStateSetToSave, all_uses. intros Hc Hl. revert done st Hc. induction Hl as [|a l [d Hd] _ IH]; intros done st Hc Hus.
  { exists st. by rewrite app_nil_r. }
  cbn in Hus. apply Forall_app in Hus as [Hu Hus]. destruct (printUses_collected done st (as_uses a) Hc Hu) as (st1 & H1 & Hc1).
  destruct (IH _ _ Hc1 Hus) as (st2 & H2 & Hc2). exists st2. cbn [mfoldl].
  assert (printAllocationToSave files debugData st a = Some st1) as -> by (unfold printAllocationToSave; by rewrite Hd).
  cbn [mbind option_bind]. by rewrite <- app_assoc in Hc2.
Qed.

(** C33: the advice on critical sections covers the uses of what iterations transfer,
    and nothing else.  If every allocation of the sets TO and TIO has a record and
    every use of one a record and a file, the tool succeeds.  It prints a text once,
    exactly if a use is at a line with that text; the position it prints with the text
    is that of such a use, and it has no line number only if none of them has one. *)
Theorem criticalsection_advice sv :
  Forall (known debugData) (sv_TO sv ++ sv_TIO sv) → Forall quotable (all_uses (sv_TO sv ++ sv_TIO sv)) →
  ∃ out, printStateToSave files debugData sv = Some out ∧ NoDup out.*2 ∧
    (∀ line, line ∈ out.*2 ↔ ∃ u d, u ∈ all_uses (sv_TO sv ++ sv_TIO sv) ∧ quotes u d line) ∧
    (∀ path n line, (path, n, line) ∈ out →
      (∃ u d, u ∈ all_uses (sv_TO sv ++ sv_TIO sv) ∧ quotes u d line ∧ path = c_str (pathToFile d) ∧ n = lineNum d) ∧
      (n = 0 → ∀ u d, u ∈ all_uses (sv_TO sv ++ sv_TIO sv) → quotes u d line → lineNum d = 0)).
Proof.
  intros [HkTO HkTIO]%Forall_app Hu. assert (all_uses (sv_TO sv ++ sv_TIO sv) = all_uses (sv_TO sv) ++ all_uses (sv_TIO sv)) as Eapp
    by (unfold all_uses; by rewrite fmap_app, concat_app).
  rewrite Eapp in *. apply Forall_app in Hu as [HuTO HuTIO].
  destruct (printSet_collected [] (∅, ∅) (sv_TO sv)) as (st1 & H1 & Hc1); [|done|done|].
  { split; cbn; [set_solver| |]; intros line; rewrite lookup_empty; [|done]. split; [set_solver|by intros []]. }
  destruct (printSet_collected _ st1 (sv_TIO sv) Hc1) as ([S m] & H2 & [Hlines Hkeys Hpos]); [done..|]. cbn [app fst snd] in *.
  set (us := all_uses (sv_TO sv) ++ all_uses (sv_TIO sv)) in *.
  set (entry := λ line, let d := default (MkDebugData [] [] 0 0) (m !! line) in (c_str (pathToFile d), lineNum d, line)).
  assert (mapM (print_line m) (elements S) = Some (entry <$> elements S)) as Hm.
  { apply mapM_total. intros line Hl%elem_of_elements%Hkeys. destruct Hl as [d Hd]. unfold print_line, entry. by rewrite Hd. }
  assert ((entry <$> elements S).*2 = elements S) as E2 by (rewrite <- list_fmap_compose; apply list_fmap_id).
  exists (entry <$> elements S). split.
  { unfold printStateToSave. rewrite H1. cbn [mbind option_bind]. rewrite H2. exact Hm. }
  rewrite E2. split; [apply NoDup_elements|]. split; [intros line; by rewrite elem_of_elements, Hlines|].
  intros path n line Hin. apply list_elem_of_fmap in Hin as (line' & E & Hl). injection E as -> -> <-.
  apply elem_of_elements, Hkeys in Hl as [d Hd]. rewrite Hd. cbn. destruct (Hpos line d Hd) as [(u & Hu & Hq) Hz]. split; [by exists u, d|exact Hz].
Qed.

(** ** Accelerators *)

(** C39: the character that is printed with a use is read within its line, or is the
    zero at the end, exactly when the column is between 1 and the length of the quoted
    line plus 1; the index of a position without a column wraps around and is out of
    range.  What is printed is the quoted line, its column and the character there. *)
Theorem accelerator_in_range d contents : files (c_str (pathToFile d)) = Some contents →
  0 <= columnNum d < 4294967296 → zlen (quoted_line contents (lineNum d)) < 4294967295 →
  (is_Some (accelerator_printDebugData files d) ↔ 1 <= columnNum d <= zlen (quoted_line contents (lineNum d)) + 1) ∧
  (∀ n c ch line, accelerator_printDebugData files d = Some (n, c, ch, line) →
    line = quoted_line contents (lineNum d) ∧ c = columnNum d ∧
    (ch = nul ∨ line !! Z.to_nat (columnNum d - 1) = Some ch)).
Proof.
  intros Hf Hc Hlen. unfold accelerator_printDebugData. rewrite Hf. cbn [mbind option_bind]. rewrite look_up_spec. cbn [mbind option_bind].
  set (line := quoted_line contents (lineNum d)) in *. unfold columnChar, char_at.
  destruct (decide (columnNum d = 0)) as [E0|H0].
  - rewrite E0. change ((0 - 1) mod 4294967296) with 4294967295. rewrite (decide_False (P := 4294967295 = zlen line)) by lia.
    rewrite lookup_ge_None_2 by lia. cbn [mbind option_bind]. split; [|done]. split; [by intros []|lia].
  - rewrite Z.mod_small by lia. destruct (decide (columnNum d - 1 = zlen line)) as [E|E].
    + cbn. split; [split; [lia|done]|]. intros n c ch l [= <- <- <- <-]. split; [done|]. split; [done|by left].
    + destruct (line !! Z.to_nat (columnNum d - 1)) as [ch|] eqn:El; cbn [mbind option_bind].
      * apply lookup_lt_Some in El as Hlt. split; [split; [lia|done]|]. intros n c ch' l [= <- <- <- <-]. split; [done|]. split; [done|]. right. done.
      * apply lookup_ge_None in El. split; [|done]. split; [by intros []|lia].
Qed.
End advice.

(** ** Witnesses, and what the tool leaves out *)

Module Demo.

Definition nl : string := String newline EmptyString.

(** Lines 2 and 4 read the same. *)
Definition source : list ascii := text ("lock();" +:+ nl +:+ "n++;" +:+ nl +:+ "use(n);" +:+ nl +:+ "n++;" +:+ nl).
Definition one_file (path : list ascii) : option (list ascii) := if decide (path = text "a.c") then Some source else None.
Definition at_line (n : Z) : DebugData := MkDebugData (text "a.c") [] n 1.
Definition records : gmap Z DebugData := {[ 1 := at_line 1; 2 := at_line 2; 4 := at_line 4; 9 := MkDebugData (text "UnknownPathToFile") [] 0 0 ]}.

Definition used (l : list Z) : AllocationToSave := MkAllocationToSave None 1 5 4096 24 ∅ ((λ id, MkUseToSave None id id) <$> l) false.
Definition saved (to tio : list AllocationToSave) : StateToSave := MkStateToSave "main" 1 [] [] [] [] to [] tio [].

Example four_lines : text_lines source = [text "lock();"; text "n++;"; text "use(n);"; text "n++;"] ∧ quoted_line source 2 = text "n++;".
Proof. vm_compute. done. Qed.

Lemma quotable_record id d : records !! id = Some d → c_str (pathToFile d) = text "a.c" →
  quotable one_file records (MkUseToSave None id id).
Proof. intros Hd Hp. exists d, (quoted_line source (lineNum d)). split; [exact Hd|]. exists source. by rewrite Hp. Qed.

Lemma criticalsection_advice_witness : ∃ out, printStateToSave one_file records (saved [used [2]] [used [1]]) = Some out ∧ text "n++;" ∈ out.*2.
Proof.
  destruct (criticalsection_advice one_file records (saved [used [2]] [used [1]])) as (out & H & _ & Hl & _).
  - repeat (constructor; [by eexists|]). constructor.
  - constructor; [|constructor; [|constructor]]; eapply quotable_record; reflexivity.
  - exists out. split; [exact H|]. apply Hl. exists (MkUseToSave None 2 2), (at_line 2). split; [by left|].
    split; [reflexivity|]. exists source. split; [reflexivity|]. vm_compute. reflexivity.
Defined.

(** Two positions with the same text get one pragma, with the position that came
    last: the update on line 2 is left out. *)
Lemma same_text_once : printStateToSave one_file records (saved [used [2; 4]] []) = Some [(text "a.c", 4, text "n++;")].
Proof. vm_compute. reflexivity. Qed.

(** A use the compiler had no position for has a path that is not a file: the tool
    aborts and prints nothing of the other uses. *)
Lemma unknown_position_aborts : printStateToSave one_file records (saved [used [2]] [used [9]]) = None.
Proof. vm_compute. reflexivity. Qed.

(** A line without a column reads before the string. *)
Definition no_column : gmap Z DebugData := {[ 1 := MkDebugData (text "a.c") [] 2 0 ]}.

Lemma accelerator_in_range_witness : accelerator_printStateToSave one_file no_column (saved [used [1]] []) = None.
Proof.
  destruct (accelerator_in_range one_file (MkDebugData (text "a.c") [] 2 0) source eq_refl) as [[H _] _]; [done|vm_compute; done|].
  assert (accelerator_printDebugData one_file (MkDebugData (text "a.c") [] 2 0) = None) as E.
  { destruct (accelerator_printDebugData one_file (MkDebugData (text "a.c") [] 2 0)) as [x|]; [|done].
    destruct (H (ex_intro _ x eq_refl)) as [H1 _]. by destruct H1. }
  unfold accelerator_printStateToSave, print_sets. cbn [mapM get_set saved sv_I sv_CIO sv_TIO sv_TO mbind option_bind mret option_ret].
  unfold accelerator_printAllocation, used. cbn [as_staticID as_uses fmap list_fmap mapM].
  unfold accelerator_printUse. cbn [us_staticID].
  assert (no_column !! 1 = Some (MkDebugData (text "a.c") [] 2 0)) as -> by reflexivity. cbn [mbind option_bind]. by rewrite E.
Defined.
End Demo.
