(* ===== verification/Types.v ===== *)
(** * Types.v: the sizes the pass gives to variables

    src/src/CatPass.cpp works out the size of every local and global variable
    from its LLVM type: [findArraySize], [findStructSize], and what
    [visitAllocaInst] and [getGlobals] make of them.  The size becomes the length
    of the block the runtime is told about, so an access past it is lost. *)

From S2P Require Import Prelude Helpers.

(** ** LLVM types

    A type is what the pass can ask of it.  For a type that is neither an array
    nor a struct it asks [getPrimitiveSizeInBits] (0 for a pointer) and
    [isPointerTy]. *)
Inductive llvm_type :=
  | ArrayTy (numElements : Z) (element : llvm_type)
  | StructTy (elements : list llvm_type)
  | OtherTy (primitiveSizeInBits : Z) (isPointer : bool).

(** [findArraySize] of an array and [findStructSize] of a struct: they call each
    other on what is inside.  The pointers of an array add 8 bytes to the number
    of elements.  A field of unknown size makes the size of its struct 0. *)
Fixpoint findSize (t : llvm_type) : Z :=
  match t with
  | ArrayTy n inside =>
      let size := wrap64 n in
      match inside with
      | OtherTy bits isPointer =>
          if decide (0 < bits) then size *₆₄ (bits / 8)
          else if isPointer then size +₆₄ 8 else 0
      | _ => size *₆₄ findSize inside
      end
  | StructTy fields =>
      (fix loop (size : Z) (fields : list llvm_type) : Z :=
        match fields with
        | [] => size
        | OtherTy bits isPointer :: fields =>
            if decide (0 < bits) then loop (size +₆₄ (bits / 8)) fields
            else if isPointer then loop (size +₆₄ 8) fields else 0
        | t :: fields => loop (size +₆₄ findSize t) fields
        end) 0 fields
  | OtherTy _ _ => 0
  end.

Definition findArraySize (n : Z) (inside : llvm_type) : Z := findSize (ArrayTy n inside).
Definition findStructSize (fields : list llvm_type) : Z := findSize (StructTy fields).

(** The size of a variable of a type: [visitAllocaInst] and [getGlobals] do the
    same.  A variable is a pointer in LLVM, so a size of 0 is replaced by the size
    of a pointer, [getPointerTypeSize] of the data layout. *)
Definition variable_size (pointerTypeSize : Z) (t : llvm_type) : Z :=
  let totalSizeInBytes :=
    match t with
    | ArrayTy n inside => findArraySize n inside
    | StructTy fields => findStructSize fields
    | OtherTy bits _ => bits / 8
    end in
  if decide (totalSizeInBytes = 0) then pointerTypeSize else totalSizeInBytes.

(** ** What a variable occupies

    Fields one after the other without padding, and the layout of the System V
    ABI: natural alignment, size and alignment of the type. *)
Fixpoint packed_size (t : llvm_type) : Z :=
  match t with
  | ArrayTy n inside => n * packed_size inside
  | StructTy fields => foldr (λ t size, packed_size t + size) 0 fields
  | OtherTy bits _ => if decide (0 < bits) then bits / 8 else 8
  end.

Definition round_up (n align : Z) : Z := (n + align - 1) / align * align.

Fixpoint layout (t : llvm_type) : Z * Z :=
  match t with
  | ArrayTy n inside => (n * (layout inside).1, (layout inside).2)
  | StructTy fields =>
      let '(size, align) := foldl (λ '(offset, align) l, (round_up offset l.2 + l.1, Z.max align l.2))
        (0, 1) (layout <$> fields) in
      (round_up size align, align)
  | OtherTy bits _ => if decide (0 < bits) then (bits / 8, bits / 8) else (8, 8)
  end.

(** The types the pass knows: whole bytes, no vector or function inside, and no
    array of pointers. *)
Fixpoint sized (t : llvm_type) : bool :=
  match t with
  | ArrayTy n inside => bool_decide (0 <= n) && sized inside &&
      match inside with OtherTy bits _ => bool_decide (0 < bits) | _ => true end
  | StructTy fields => forallb sized fields
  | OtherTy bits isPointer => bool_decide (0 <= bits) && bool_decide (bits mod 8 = 0) &&
      (bool_decide (0 < bits) || isPointer)
  end.

Section llvm_type_induction.
  Context (P : llvm_type → Prop)
    (HA : ∀ n t, P t → P (ArrayTy n t)) (HS : ∀ l, Forall P l → P (StructTy l))
    (HO : ∀ b p, P (OtherTy b p)).

Fixpoint llvm_type_nested_ind (t : llvm_type) : P t :=
    match t with
    | ArrayTy n t => HA n t (llvm_type_nested_ind t)
    | StructTy l => HS l ((fix all l : Forall P l := match l with
        | [] => Forall_nil_2 P
        | t :: l => Forall_cons_2 P t l (llvm_type_nested_ind t) (all l) end) l)
    | OtherTy b p => HO b p
    end.
End llvm_type_induction.

(** The loop over the fields. *)
Fixpoint struct_loop (size : Z) (fields : list llvm_type) : Z :=
  match fields with
  | [] => size
  | OtherTy bits isPointer :: fields =>
      if decide (0 < bits) then struct_loop (size +₆₄ (bits / 8)) fields
      else if isPointer then struct_loop (size +₆₄ 8) fields else 0
  | t :: fields => struct_loop (size +₆₄ findSize t) fields
  end.

Lemma findSize_struct l : findSize (StructTy l) = struct_loop 0 l.
Proof. done. Qed.

Lemma sized_bytes b p : sized (OtherTy b p) = true → 0 <= b ∧ b mod 8 = 0 ∧ (0 < b ∨ p = true).
Proof.
  simpl. rewrite !andb_true_iff, orb_true_iff, !bool_decide_eq_true. naive_solver.
Qed.

Lemma packed_nonneg t : sized t = true → 0 <= packed_size t.
Proof.
  induction t as [n t IH|l IH|b p] using llvm_type_nested_ind; simpl.
  - rewrite !andb_true_iff, bool_decide_eq_true. intros [[Hn Ht] _]. specialize (IH Ht). nia.
  - intros Hl. induction IH as [|t l Ht _ IHl]; simpl in *; [done|]. apply andb_true_iff in Hl as [? ?].
    specialize (Ht ltac:(done)). specialize (IHl ltac:(done)). lia.
  - intros H. apply (sized_bytes b p) in H as (Hb & _ & _). case_decide; [|lia].
    apply Z.div_pos; lia.
Qed.

Lemma struct_loop_packed l size :
  Forall (λ t, match t with OtherTy _ _ => True | _ => packed_size t < two64 → findSize t = packed_size t end) l →
  forallb sized l = true → 0 <= size → size + packed_size (StructTy l) < two64 →
  struct_loop size l = size + packed_size (StructTy l).
Proof.
  intros H. revert size. induction H as [|t l Ht _ IH]; intros size Hl Hsize Hmax; simpl in *; [lia|].
  apply andb_true_iff in Hl as [Hs Hl].
  assert (0 <= foldr (λ t size, packed_size t + size) 0 l) as Hrest by (by apply (packed_nonneg (StructTy l))).
  pose proof (packed_nonneg _ Hs) as Hp.
  destruct t as [n t'|l'|b p].
  - rewrite Ht, IH by (done || rewrite ?add64_small; lia). rewrite add64_small by lia. lia.
  - rewrite Ht, IH by (done || rewrite ?add64_small; lia). rewrite add64_small by lia. lia.
  - apply sized_bytes in Hs as (Hb & _ & Hor). cbn [packed_size] in *. case_decide as Hd.
    + rewrite IH by (done || rewrite ?add64_small; lia). rewrite add64_small by lia. lia.
    + destruct Hor as [?| ->]; [lia|]. rewrite IH by (done || rewrite ?add64_small; lia).
      rewrite add64_small by lia. lia.
Qed.

Lemma findSize_packed t :
  sized t = true → packed_size t < two64 → match t with OtherTy _ _ => True | _ => findSize t = packed_size t end.
Proof.
  induction t as [n t IH|l IH|b p] using llvm_type_nested_ind; [| |done].
  - simpl. rewrite !andb_true_iff, bool_decide_eq_true. intros [[Hn Ht] Hin] Hmax.
    pose proof (packed_nonneg _ Ht) as Hp.
    destruct (decide (n = 0)) as [->|Hn0].
    { destruct t as [m t|l|b p]; [done|done|]. apply bool_decide_eq_true in Hin.
      by rewrite decide_True by lia. }
    destruct (decide (packed_size t = 0)) as [Ep|Hp0].
    + assert (packed_size t < two64) as Hsmall by (rewrite Ep; done).
      specialize (IH Ht Hsmall). destruct t as [m t|l|b p].
      * rewrite IH, Ep. unfold mul64. by rewrite !Z.mul_0_r.
      * rewrite IH, Ep. unfold mul64. by rewrite !Z.mul_0_r.
      * apply bool_decide_eq_true in Hin. cbn [packed_size] in *. rewrite decide_True in Ep by lia.
        rewrite !decide_True by lia. rewrite Ep. unfold mul64. by rewrite !Z.mul_0_r.
    + assert (n < two64 ∧ packed_size t < two64) as [Hn64 Hp64] by nia.
      rewrite (wrap64_small n) by (unfold u64; lia). specialize (IH Ht Hp64).
      destruct t as [m t|l|b p].
      * rewrite IH. apply wrap64_small. unfold u64. nia.
      * rewrite IH. apply wrap64_small. unfold u64. nia.
      * apply bool_decide_eq_true in Hin. cbn [packed_size] in *.
        rewrite decide_True in Hmax, Hp by lia. rewrite !decide_True by lia. apply wrap64_small. unfold u64. nia.
  - intros Hl Hmax. rewrite findSize_struct, struct_loop_packed; [lia| |done|lia|lia].
    clear Hmax. induction IH as [|t l Ht _ IHl]; simpl in *; [constructor|].
    apply andb_true_iff in Hl as [Hs Hl]. constructor; [|by apply IHl].
    destruct t; [by apply Ht|by apply Ht|done].
Qed.

(** ** Padding *)

Lemma round_up_le n a : 0 < a → n <= round_up n a.
Proof.
  intros Ha. unfold round_up. pose proof (Z.div_mod (n + a - 1) a ltac:(lia)).
  pose proof (Z.mod_pos_bound (n + a - 1) a Ha). nia.
Qed.

Lemma layout_packed t : sized t = true → packed_size t <= (layout t).1 ∧ 0 < (layout t).2.
Proof.
  induction t as [n t IH|l IH|b p] using llvm_type_nested_ind; simpl.
  - rewrite !andb_true_iff, bool_decide_eq_true. intros [[Hn Ht] _]. specialize (IH Ht).
    pose proof (packed_nonneg _ Ht). nia.
  - intros Hl.
    set (step := λ '(offset, align) (l : Z * Z), (round_up offset l.2 + l.1, Z.max align l.2)).
    assert (∀ offset align, 0 < align →
      offset + packed_size (StructTy l) <= (foldl step (offset, align) (layout <$> l)).1 ∧
      0 < (foldl step (offset, align) (layout <$> l)).2) as Hloop.
    { induction IH as [|t l Ht _ IHl]; intros offset align Ha.
      { simpl packed_size. cbn [fmap list_fmap foldl fst snd]. lia. }
      rewrite fmap_cons. simpl in *. apply andb_true_iff in Hl as [Hs Hl]. specialize (Ht Hs) as [Hp Hal].
      specialize (IHl Hl (round_up offset (layout t).2 + (layout t).1) (Z.max align (layout t).2) ltac:(lia)).
      pose proof (round_up_le offset _ Hal). simpl in IHl. lia. }
    specialize (Hloop 0 1 ltac:(lia)). destruct (foldl step _ _) as [size align]. simpl in *.
    pose proof (round_up_le size align ltac:(lia)). lia.
  - intros H. apply (sized_bytes b p) in H as (Hb & Hmod & _). case_decide; [|simpl; lia]. simpl.
    apply Z.div_exact in Hmod; [|lia]. lia.
Qed.

(** ** Correctness *)

(** The size of a variable.  For a type of whole bytes without arrays of
    pointers it is the sum of the sizes of its parts, or a pointer's where that is
    0; it is never more than what the variable occupies, and less where the
    layout pads. *)
Theorem variable_size_packed t :
  sized t = true → packed_size t < two64 →
  variable_size 8 t = (if decide (packed_size t = 0) then 8 else packed_size t) ∧
  packed_size t <= (layout t).1.
Proof.
  intros Hs Hmax. split; [|by apply layout_packed].
  pose proof (findSize_packed t Hs Hmax) as Hf. destruct t as [n t|l|b p]; unfold variable_size.
  - unfold findArraySize. by rewrite Hf.
  - unfold findStructSize. by rewrite Hf.
  - apply sized_bytes in Hs as (Hb & Hmod & Hor). cbn [packed_size]. destruct (decide (0 < b)) as [Hd|Hd]; [done|].
    by replace b with 0 by lia.
Qed.

Definition pointer : llvm_type := OtherTy 0 true.

Definition padded : llvm_type := StructTy [OtherTy 8 false; OtherTy 64 false; OtherTy 8 false; OtherTy 64 false].

Lemma variable_size_packed_witness :
  sized padded = true ∧ variable_size 8 padded = 18 ∧ packed_size padded <= (layout padded).1 ∧ (layout padded).1 = 32.
Proof.
  destruct (variable_size_packed padded eq_refl eq_refl) as [H1 H2].
  split; [reflexivity|]. split; [exact H1|]. split; [exact H2|reflexivity].
Defined.

(** The last field of [padded] is at offset 24, past the 18 bytes the runtime
    knows: it belongs to no block. *)
Lemma padded_field_lost start :
  0 <= start → start + 32 < two64 → doesItAlias start (variable_size 8 padded) (start + 24) = -1.
Proof.
  intros H0 Hmax. change (variable_size 8 padded) with 18. unfold doesItAlias.
  rewrite add64_small by lia. by rewrite decide_False by lia.
Qed.

(** An array of n pointers gets n + 8 bytes instead of 8 n, so the pointers
    from there on belong to no block of the runtime: the last one as soon as
    there are three. *)
Theorem pointer_array_size n start i :
  1 <= n → 0 <= i < n → 0 <= start → start + 8 * n + 1 < two64 →
  variable_size 8 (ArrayTy n pointer) = n + 8 ∧
  (doesItAlias start (variable_size 8 (ArrayTy n pointer)) (start + 8 * i) = -1 ↔ n + 8 <= 8 * i).
Proof.
  intros Hn Hi H0 Hmax.
  assert (variable_size 8 (ArrayTy n pointer) = n + 8) as E.
  { unfold variable_size, findArraySize. change (findSize (ArrayTy n pointer)) with (wrap64 n +₆₄ 8).
    rewrite wrap64_small by (unfold u64; lia).
    rewrite add64_small by (unfold two64 in *; lia). by rewrite decide_False by lia. }
  split; [done|]. rewrite E. unfold doesItAlias.
  rewrite (add64_small start (n + 8)) by (unfold two64 in *; lia). case_decide as Hd; [|split; [lia|done]].
  rewrite sub64_small by lia. unfold to_i64. case_decide as Hd'; unfold two63, two64 in *; lia.
Qed.

Lemma pointer_array_size_witness :
  variable_size 8 (ArrayTy 3 pointer) = 11 ∧ doesItAlias 4096 (variable_size 8 (ArrayTy 3 pointer)) (4096 + 8 * 2) = -1.
Proof.
  destruct (pointer_array_size 3 4096 2 ltac:(lia) ltac:(lia) ltac:(lia) ltac:(unfold two64; lia)) as [H1 H2].
  split; [exact H1|]. apply H2. lia.
Defined.
