(* ===== verification/CallGraph.v ===== *)
(** * CallGraph.v: which functions the pass instruments

    The call graph is NOELLE's and a parameter: the callees and the callers of a
    function.  [visitOutgoingEdges] and [getFunctionsToInstrumentLoadStore]
    (src/src/CatPass.cpp) collect the functions a region can reach;
    [visitDepthFirst] and [callstackInstrumentation]
    (src/src/ClusterCallstackInstrumentation.cpp) find the functions with a single
    chain of callers and number them for [getBacktraceUnique]. *)

From stdpp Require Import relations.
From S2P Require Import Prelude Helpers OrdMap Objects AllocTable ConnGraph Callstack.

(** ** The set operations of the standard library

    [std::set_union] and [std::merge] of two ranges into a set, for whatever
    order the iterators run in: the ranges are those of unordered sets, so they
    are not sorted as the functions ask. *)
Section set_operations.
  Context {A : Type} `{Countable A} (less : A → A → bool).

Fixpoint set_union (l1 : list A) : list A → list A :=
  fix go (l2 : list A) : list A :=
    match l1, l2 with
    | [], _ => l2
    | _, [] => l1
    | x :: l1', y :: l2' =>
        if less y x then y :: go l2'
        else x :: set_union l1' (if less x y then l2 else l2')
    end.

Fixpoint merge (l1 : list A) : list A → list A :=
  fix go (l2 : list A) : list A :=
    match l1, l2 with
    | [], _ => l2
    | _, [] => l1
    | x :: l1', y :: l2' => if less y x then y :: go l2' else x :: merge l1' l2
    end.

(** [mergeSets]: each set is merged with the result so far, into the result. *)
Definition mergeSets (elements : gset A → list A) (sets : list (gset A)) : gset A :=
  foldl (λ mergeSet s, list_to_set (merge (elements s) (elements mergeSet)) ∪ mergeSet) ∅ sets.
End set_operations.

Section set_operation_facts.
  Context {A : Type} `{Countable A} (less : A → A → bool).

Lemma elem_of_merge l1 l2 x : x ∈ merge less l1 l2 ↔ x ∈ l1 ∨ x ∈ l2.
Proof.
  revert l2. induction l1 as [|a l1 IH1]; intros l2.
  { destruct l2; simpl; set_solver. }
  induction l2 as [|b l2 IH2]; [simpl; set_solver|].
  assert (merge less (a :: l1) (b :: l2) =
    if less b a then b :: merge less (a :: l1) l2 else a :: merge less l1 (b :: l2)) as -> by done.
  destruct (less b a).
  - rewrite elem_of_cons, IH2. set_solver.
  - rewrite elem_of_cons, IH1. set_solver.
Qed.

(** The order has to tell different elements apart for the union to keep both. *)
Lemma elem_of_set_union l1 l2 x :
  (∀ a b, less a b = false → less b a = false → a = b) →
  x ∈ set_union less l1 l2 ↔ x ∈ l1 ∨ x ∈ l2.
Proof.
  intros Htotal. revert l2. induction l1 as [|a l1 IH1]; intros l2.
  { destruct l2; simpl; set_solver. }
  induction l2 as [|b l2 IH2]; [simpl; set_solver|].
  assert (set_union less (a :: l1) (b :: l2) =
    if less b a then b :: set_union less (a :: l1) l2
    else a :: set_union less l1 (if less a b then b :: l2 else l2)) as -> by done.
  destruct (less b a) eqn:Eba.
  - rewrite elem_of_cons, IH2. set_solver.
  - rewrite elem_of_cons, IH1. destruct (less a b) eqn:Eab; [set_solver|].
    rewrite (Htotal a b) by done. set_solver.
Qed.

Lemma elem_of_mergeSets (elements : gset A → list A) sets x :
  (∀ s y, y ∈ elements s ↔ y ∈ s) →
  x ∈ mergeSets less elements sets ↔ ∃ s, s ∈ sets ∧ x ∈ s.
Proof.
  intros Hel. unfold mergeSets.
  assert (∀ acc, x ∈ foldl (λ mergeSet s, list_to_set (merge less (elements s) (elements mergeSet)) ∪ mergeSet)
    acc sets ↔ x ∈ acc ∨ ∃ s, s ∈ sets ∧ x ∈ s) as Hacc.
  { induction sets as [|s sets IH]; intros acc; cbn [foldl]; [set_solver|].
    rewrite IH, elem_of_union, elem_of_list_to_set, elem_of_merge, !Hel. set_solver. }
  rewrite Hacc. set_solver.
Qed.
End set_operation_facts.

(** ** The functions a region can reach *)

Section callgraph.
  Context {K : Type} `{Countable K} (outgoing incoming : K → list K).

(** [visitOutgoingEdges]: depth first, the set [visited] is shared by all calls.
    [None] is a stack that never ends. *)
Fixpoint visitOutgoingEdges (fuel : nat) (outgoingEdges : list K) (visited : gset K) : option (gset K) :=
  match fuel with
  | O => None
  | S fuel =>
      mfoldl (λ visited function,
        if decide (function ∈ visited) then Some visited
        else visitOutgoingEdges fuel (outgoing function) ({[function]} ∪ visited))
        visited outgoingEdges
  end.

(** [getFunctionsThatCallStartTracking]: the callers of [caratGetStateWrapper]. *)
Definition getFunctionsThatCallStartTracking (startTracking : K) : gset K := list_to_set (incoming startTracking).

(** [getFunctionsToInstrumentLoadStore]; [elements] is the order of iteration of
    an unordered set, [less] the order of pointers. *)
Definition getFunctionsToInstrumentLoadStore (fuel : nat) (elements : gset K → list K) (less : K → K → bool)
    (startTracking : K) : option (gset K) :=
  let starts := getFunctionsThatCallStartTracking startTracking in
  visited ← mfoldl (λ visited child, visitOutgoingEdges fuel (outgoing child) visited) ∅ (elements starts);
  Some (list_to_set (set_union less (elements starts) (elements visited))).

Definition edge (f g : K) : Prop := g ∈ outgoing f.

(** What a visit adds: everything it was asked to visit, closed under calls, and
    nothing that cannot be reached. *)
Record visited_post (nodes visited : gset K) (edges : list K) (visited' : gset K) : Prop := {
  vp_grows : visited ⊆ visited';
  vp_nodes : visited' ⊆ visited ∪ nodes;
  vp_edges : ∀ e, e ∈ edges → e ∈ visited';
  vp_closed : ∀ f, f ∈ visited' → f ∉ visited → ∀ g, edge f g → g ∈ visited';
  vp_reach : ∀ f, f ∈ visited' → f ∉ visited → ∃ e, e ∈ edges ∧ rtc edge e f;
}.

Lemma size_shrinks (nodes v v' : gset K) : v ⊆ v' → (size (nodes ∖ v') <= size (nodes ∖ v))%nat.
Proof. intros Hv. apply subseteq_size. set_solver. Qed.

Lemma size_shrinks_strict (nodes v : gset K) f :
  f ∈ nodes → f ∉ v → (size (nodes ∖ ({[f]} ∪ v)) < size (nodes ∖ v))%nat.
Proof. intros Hf Hv. apply subset_size. set_solver. Qed.

Lemma visitOutgoingEdges_post (nodes : gset K) fuel edges visited :
  (∀ f g, f ∈ nodes → edge f g → g ∈ nodes) → (∀ e, e ∈ edges → e ∈ nodes) →
  (size (nodes ∖ visited) < fuel)%nat →
  ∃ visited', visitOutgoingEdges fuel edges visited = Some visited' ∧ visited_post nodes visited edges visited'.
Proof.
  intros Hclosed. revert edges visited. induction fuel as [|fuel IH]; intros edges visited Hin Hfuel; [lia|].
  cbn [visitOutgoingEdges]. revert visited Hfuel. induction edges as [|f edges IHe]; intros visited Hfuel.
  { exists visited. split; [done|]. split; [done|set_solver|set_solver|done|done]. }
  cbn [mfoldl]. case_decide as Hf.
  - destruct (IHe ltac:(set_solver) visited Hfuel) as (v' & Hv' & [? ? ? ? Hr]). exists v'. split; [exact Hv'|].
    split; [done|done|set_solver|done|]. intros x Hx Hxn. destruct (Hr x Hx Hxn) as (e & He & ?).
    exists e. split; [set_solver|done].
  - assert (f ∈ nodes) as Hfn by set_solver.
    destruct (IH (outgoing f) ({[f]} ∪ visited)) as (v1 & Hv1 & [Hg1 Hn1 He1 Hc1 Hr1]).
    { intros g Hg. by apply (Hclosed f). }
    { pose proof (size_shrinks_strict nodes visited f Hfn Hf). lia. }
    rewrite Hv1. cbn [mbind option_bind].
    assert (visited ⊆ v1) as Hgv1 by set_solver.
    destruct (IHe ltac:(set_solver) v1) as (v2 & Hv2 & [Hg2 Hn2 He2 Hc2 Hr2]).
    { pose proof (size_shrinks nodes visited v1 Hgv1). lia. }
    exists v2. split; [exact Hv2|]. split; [set_solver|set_solver|set_solver| |].
    + intros x Hx Hxn g Hg. destruct (decide (x ∈ v1)) as [Hx1|Hx1]; [|by apply (Hc2 x)].
      apply Hg2. destruct (decide (x = f)) as [->|Hxf]; [by apply He1|]. apply (Hc1 x); set_solver.
    + intros x Hx Hxn. destruct (decide (x ∈ v1)) as [Hx1|Hx1].
      * exists f. split; [set_solver|]. destruct (decide (x = f)) as [->|Hxf]; [done|].
        destruct (Hr1 x Hx1) as (e & He & Hre); [set_solver|]. by apply rtc_l with e.
      * destruct (Hr2 x Hx Hx1) as (e & He & Hre). exists e. split; [set_solver|done].
Qed.

Lemma visit_starts_post (nodes : gset K) fuel (starts : list K) :
  (∀ f g, f ∈ nodes → edge f g → g ∈ nodes) → (∀ s, s ∈ starts → s ∈ nodes) → (size nodes < fuel)%nat →
  ∃ visited, mfoldl (λ visited child, visitOutgoingEdges fuel (outgoing child) visited) ∅ starts = Some visited ∧
    ∀ f, f ∈ visited ↔ ∃ s, s ∈ starts ∧ tc edge s f.
Proof.
  intros Hclosed Hs Hfuel.
  assert (∀ v0 : gset K, (∀ f, f ∈ v0 → ∀ g, edge f g → g ∈ v0) → v0 ⊆ nodes →
    ∃ v, mfoldl (λ visited child, visitOutgoingEdges fuel (outgoing child) visited) v0 starts = Some v ∧
    (∀ f, f ∈ v → ∀ g, edge f g → g ∈ v) ∧
    (∀ f, f ∈ v ↔ f ∈ v0 ∨ ∃ s, s ∈ starts ∧ tc edge s f)) as Hgen.
  { induction starts as [|s starts IH]; intros v0 Hv0 Hn0.
    { exists v0. split; [done|]. split; [done|]. set_solver. }
    assert (s ∈ nodes) as Hsn by set_solver. cbn [mfoldl].
    destruct (visitOutgoingEdges_post nodes fuel (outgoing s) v0 Hclosed) as (v1 & -> & [Hg Hn He Hc Hr]).
    { intros g Hg. by apply (Hclosed s). }
    { pose proof (size_shrinks nodes ∅ v0 ltac:(set_solver)). rewrite difference_empty_L in *. lia. }
    cbn [mbind option_bind]. destruct (IH ltac:(set_solver) v1) as (v2 & Hv2 & Hcl2 & Hv2').
    { intros f Hf g Hfg. destruct (decide (f ∈ v0)); [apply Hg; by apply (Hv0 f)|by apply (Hc f)]. }
    { set_solver. }
    exists v2. split; [exact Hv2|]. split; [done|]. intros f. rewrite Hv2'.
    assert (f ∈ v1 ↔ f ∈ v0 ∨ tc edge s f) as ->; [|set_solver].
    split.
    - intros Hf. destruct (decide (f ∈ v0)) as [?|Hn0']; [by left|]. right.
      destruct (Hr f Hf Hn0') as (e & He' & Hre). eapply tc_rtc_r; [by apply tc_once|done].
    - intros [Hf|Hf]; [by apply Hg|].
      assert (∀ g, edge s g → g ∈ v1) as Hfirst by (intros g; apply He).
      assert (∀ f, f ∈ v1 → ∀ g, edge f g → g ∈ v1) as Hcl1.
      { intros x Hx g Hxg. destruct (decide (x ∈ v0)); [apply Hg; by apply (Hv0 x)|by apply (Hc x)]. }
      assert (∃ x, edge s x ∧ rtc edge x f) as (x & Hx & Hrx).
      { destruct Hf as [s f Hsf|s x f Hsx Hxf]; [by exists f|]. exists x. split; [done|by apply tc_rtc]. }
      clear -Hx Hrx Hfirst Hcl1. apply Hfirst in Hx. clear Hfirst. induction Hrx as [|x y z Hxy _ IH]; [done|].
      apply IH. by apply (Hcl1 x). }
  destruct (Hgen ∅) as (v & Hv & _ & Hiff); [set_solver..|]. exists v. split; [done|]. set_solver.
Qed.

(** Loads and stores are instrumented in exactly the functions that a region
    can run: those that open one and those reachable from them by calls, in
    whatever order sets and edges are visited, recursion included.  The visit
    ends: its depth is at most the number of functions. *)
Theorem getFunctionsToInstrumentLoadStore_reach (nodes : gset K) fuel elements less startTracking :
  (∀ f g, f ∈ nodes → edge f g → g ∈ nodes) →
  (∀ f, f ∈ incoming startTracking → f ∈ nodes) → (size nodes < fuel)%nat →
  (∀ s y, y ∈ elements s ↔ y ∈ s) →
  (∀ a b, less a b = false → less b a = false → a = b) →
  ∃ functions, getFunctionsToInstrumentLoadStore fuel elements less startTracking = Some functions ∧
    ∀ f, f ∈ functions ↔ ∃ s, s ∈ incoming startTracking ∧ rtc edge s f.
Proof.
  intros Hclosed Hin Hfuel Hel Htotal. unfold getFunctionsToInstrumentLoadStore, getFunctionsThatCallStartTracking.
  set (starts := list_to_set (incoming startTracking) : gset K).
  assert (∀ s, s ∈ elements starts ↔ s ∈ incoming startTracking) as Hstarts
    by (intros s; unfold starts; by rewrite Hel, elem_of_list_to_set).
  destruct (visit_starts_post nodes fuel (elements starts) Hclosed) as (v & -> & Hv).
  { intros s. rewrite Hstarts. apply Hin. }
  { done. }
  cbn [mbind option_bind]. eexists. split; [done|]. intros f.
  rewrite elem_of_list_to_set, elem_of_set_union, !Hel, Hv by done. setoid_rewrite Hstarts.
  unfold starts. rewrite elem_of_list_to_set. split.
  - intros [Hf|(s & Hs & Hsf)]; [by exists f|]. exists s. split; [done|by apply tc_rtc].
  - intros (s & Hs & Hsf). destruct Hsf as [f|s x f Hsx Hxf]; [by left|right].
    exists s. split; [done|]. eapply tc_rtc_r; [by apply tc_once|done].
Qed.

(** ** Functions with one chain of callers *)

(** [visitDepthFirst] keeps no visited set; [None] is a stack that never ends. *)
Fixpoint visitDepthFirst (fuel : nat) (node : K) (uniqueCallstackFunctions : gset K) : option (gset K) :=
  match fuel with
  | O => None
  | S fuel =>
      if decide (1 < List.length (incoming node))%nat then Some uniqueCallstackFunctions
      else
        mfoldl (λ unique nextNode, visitDepthFirst fuel nextNode unique)
          ({[node]} ∪ uniqueCallstackFunctions) (outgoing node)
  end.

(** [getUniqueCallstackFunctions] *)
Definition getUniqueCallstackFunctions (fuel : nat) (entryNode : K) : option (gset K) :=
  visitDepthFirst fuel entryNode ∅.

(** Call chains from the entry of the program, and those that only go through
    functions with at most one caller. *)
Inductive call_path (entry : K) : list K → K → Prop :=
  | call_path_entry : call_path entry [entry] entry
  | call_path_step p f g : call_path entry p f → edge f g → call_path entry (p ++ [g]) g.

Definition single (f : K) : Prop := (List.length (incoming f) <= 1)%nat.

Inductive single_path (entry : K) : list K → K → Prop :=
  | single_path_entry : single entry → single_path entry [entry] entry
  | single_path_step p f g : single_path entry p f → edge f g → single g → single_path entry (p ++ [g]) g.

Lemma single_path_call_path entry p f : single_path entry p f → call_path entry p f.
Proof. induction 1; by econstructor. Qed.

Lemma single_path_single entry p f : single_path entry p f → single f.
Proof. by destruct 1. Qed.

Lemma single_path_prefix entry p f g :
  single_path entry p f → g ∈ p → ∃ p1 p2, p = p1 ++ g :: p2 ∧ single_path entry (p1 ++ [g]) g.
Proof.
  induction 1 as [He|p f h Hp IH Hfh Hh]; intros Hg.
  - apply list_elem_of_singleton in Hg as ->. exists [], []. split; [done|by constructor].
  - apply elem_of_app in Hg as [Hg|Hg].
    + destruct (IH Hg) as (p1 & p2 & -> & Hp1). exists p1, (p2 ++ [h]). by rewrite <- app_assoc.
    + apply list_elem_of_singleton in Hg as ->. exists p, []. split; [done|by econstructor].
Qed.

Lemma single_path_last entry p f : single_path entry p f → last p = Some f.
Proof. destruct 1; [done|by rewrite last_snoc]. Qed.

Lemma single_path_edge entry p f p1 a b p2 :
  single_path entry p f → p = p1 ++ a :: b :: p2 → edge a b.
Proof.
  intros Hp. revert p1 a b p2. induction Hp as [He|p f g Hp IH Hfg Hg]; intros p1 a b p2 E.
  { by destruct p1 as [|? [|? ?]]. }
  destruct p2 as [|c p2 _] using rev_ind.
  - replace (p1 ++ [a; b]) with ((p1 ++ [a]) ++ [b]) in E by (by rewrite <- app_assoc).
    apply app_inj_tail in E as [-> ->]. apply single_path_last in Hp. rewrite last_snoc in Hp. by injection Hp as ->.
  - replace (p1 ++ a :: b :: p2 ++ [c]) with ((p1 ++ a :: b :: p2) ++ [c]) in E by (by rewrite <- app_assoc).
    apply app_inj_tail in E as [E _]. by apply (IH p1 a b p2).
Qed.

Section unique.
  Context (Hdual : ∀ f g, edge f g ↔ f ∈ incoming g) (entry : K) (Hentry : incoming entry = []).

(** With nobody calling the entry, a function behind single callers has exactly
    one call chain. *)
Lemma single_path_unique p q f : single_path entry p f → call_path entry q f → p = q.
Proof using Hdual Hentry.
  intros Hp. revert q. induction Hp as [He|p f g Hp IH Hfg Hg]; intros q Hq.
  - inversion Hq as [|q' f g Hq' Hfg]; [done|]. subst. apply Hdual in Hfg. rewrite Hentry in Hfg. by apply elem_of_nil in Hfg.
  - inversion Hq as [|q' f' g' Hq' Hfg' Eq Eg].
    { subst. apply Hdual in Hfg. rewrite Hentry in Hfg. by apply elem_of_nil in Hfg. }
    subst. f_equal. apply IH. replace f with f'; [done|].
    apply Hdual in Hfg, Hfg'. unfold single in Hg.
    destruct (incoming g) as [|x [|y l]]; [by apply elem_of_nil in Hfg| |simpl in Hg; lia].
    apply list_elem_of_singleton in Hfg, Hfg'. congruence.
Qed.

Lemma single_path_fresh p f g : single_path entry p f → edge f g → single g → g ∉ p.
Proof using Hdual Hentry.
  intros Hp Hfg Hg Hin. destruct (single_path_prefix _ _ _ _ Hp Hin) as (p1 & p2 & E & Hp1).
  assert (single_path entry (p ++ [g]) g) as Hp2 by (by econstructor).
  pose proof (single_path_unique _ _ _ Hp1 (single_path_call_path _ _ _ Hp2)) as Heq.
  apply (f_equal List.length) in Heq. rewrite E, !length_app in Heq. simpl in Heq. lia.
Qed.

Lemma single_path_nodup (nodes : gset K) p f :
  (∀ f g, f ∈ nodes → edge f g → g ∈ nodes) → entry ∈ nodes →
  single_path entry p f → NoDup p ∧ (∀ g, g ∈ p → g ∈ nodes).
Proof using Hdual Hentry.
  intros Hclosed Hen. induction 1 as [He|p f g Hp [IHd IHn] Hfg Hg].
  - split; [apply NoDup_singleton|]. set_solver.
  - assert (f ∈ p) as Hf by (apply last_Some_elem_of; by apply single_path_last in Hp). split.
    + apply NoDup_app. split; [done|]. split; [|apply NoDup_singleton].
      intros x Hx Hxg. apply list_elem_of_singleton in Hxg as ->. by apply (single_path_fresh p f g).
    + intros x Hx. apply elem_of_app in Hx as [Hx|Hx]; [by apply IHn|].
      apply list_elem_of_singleton in Hx as ->. apply (Hclosed f); [by apply IHn|done].
Qed.

(** The next function of a walk: the entry, or a callee of where the walk is. *)
Definition extends (p : list K) (node : K) : Prop :=
  (p = [] ∧ node = entry) ∨ ∃ f, single_path entry p f ∧ edge f node.

Lemma extends_single p node : extends p node → single node → single_path entry (p ++ [node]) node.
Proof. intros [[-> ->]|(f & Hp & Hf)] Hs; [by constructor|by econstructor]. Qed.

Lemma visitDepthFirst_post (nodes : gset K) fuel node p unique :
  (∀ f g, f ∈ nodes → edge f g → g ∈ nodes) → entry ∈ nodes →
  extends p node → (size nodes < fuel + List.length p)%nat →
  ∃ unique', visitDepthFirst fuel node unique = Some unique' ∧
    ∀ x, x ∈ unique' ↔ x ∈ unique ∨ ∃ q, single_path entry (p ++ node :: q) x.
Proof using Hdual Hentry.
  intros Hclosed Hen. revert node p unique. induction fuel as [|fuel IH]; intros node p unique Hext Hfuel.
  { exfalso. destruct Hext as [[-> ->]|(f & Hp & Hf)]; [simpl in Hfuel; lia|].
    destruct (single_path_nodup nodes p f Hclosed Hen Hp) as [Hd Hn].
    assert (size (list_to_set p : gset K) <= size nodes)%nat as Hle
      by (apply subseteq_size; intros x; rewrite elem_of_list_to_set; apply Hn).
    rewrite size_list_to_set in Hle by done. lia. }
  cbn [visitDepthFirst]. case_decide as Hs.
  { exists unique. split; [done|]. intros x. split; [by left|]. intros [Hx|(q & Hq)]; [done|].
    destruct (single_path_prefix _ _ _ node Hq) as (p1 & p2 & _ & Hp1); [set_solver|].
    apply single_path_single in Hp1. unfold single in Hp1. lia. }
  assert (single_path entry (p ++ [node]) node) as Hnode by (apply extends_single; [done|unfold single; lia]).
  destruct (mfoldl_collect (λ unique nextNode, visitDepthFirst fuel nextNode unique)
    (λ g x, ∃ q, single_path entry ((p ++ [node]) ++ g :: q) x) (outgoing node) ({[node]} ∪ unique))
    as (u & Hu & Hiff).
  { intros acc g Hg. apply IH; [by right; exists node|]. rewrite length_app. simpl. lia. }
  exists u. split; [exact Hu|]. intros x. rewrite Hiff, elem_of_union, elem_of_singleton. split.
  - intros [[->|Hx]|(g & Hg & q & Hq)]; [right; by exists []|by left|].
    right. exists (g :: q). by rewrite <- app_assoc in Hq.
  - intros [Hx|([|g q] & Hq)]; [by left; right| |].
    + left. left. apply single_path_last in Hq. rewrite last_snoc in Hq. by injection Hq as ->.
    + right. exists g. split; [by apply (single_path_edge entry _ x p node g q Hq)|].
      exists q. by rewrite <- app_assoc.
Qed.

(** Without a call of the entry function, the search for unique callstacks
    ends, within the depth of the call graph, and finds exactly the functions that
    are reached through functions with a single caller; each of them has exactly
    one call chain from the entry. *)
Theorem getUniqueCallstackFunctions_unique (nodes : gset K) fuel :
  (∀ f g, f ∈ nodes → edge f g → g ∈ nodes) → entry ∈ nodes → (size nodes < fuel)%nat →
  ∃ unique, getUniqueCallstackFunctions fuel entry = Some unique ∧
    (∀ f, f ∈ unique ↔ ∃ p, single_path entry p f) ∧
    ∀ f, f ∈ unique → ∃ p, call_path entry p f ∧ ∀ q, call_path entry q f → q = p.
Proof using Hdual Hentry.
  intros Hclosed Hen Hfuel.
  destruct (visitDepthFirst_post nodes fuel entry [] ∅ Hclosed Hen) as (unique & Hu & Hiff);
    [by left|simpl; lia|].
  assert (∀ f, f ∈ unique ↔ ∃ p, single_path entry p f) as Hsingle.
  { intros f. rewrite Hiff. split; [intros [?|(q & Hq)]; [set_solver|by exists (entry :: q)]|].
    intros (p & Hp). right. exists (tail p). simpl. replace (entry :: tail p) with p; [done|].
    clear -Hp. induction Hp as [|p f g Hp IH ? ?]; [done|]. destruct p; [|by simplify_eq/=].
    by apply single_path_last in Hp. }
  exists unique. split; [exact Hu|]. split; [exact Hsingle|]. intros f Hf. apply Hsingle in Hf as (p & Hp).
  exists p. split; [by apply single_path_call_path|]. intros q Hq. symmetry. by apply (single_path_unique p q f).
Qed.

(** A recursive entry function: the walk goes around for ever. *)
Lemma visitDepthFirst_recursive_entry fuel unique f :
  incoming f = [f] → outgoing f = [f] → visitDepthFirst fuel f unique = None.
Proof.
  intros Hin Hout. revert unique. induction fuel as [|fuel IH]; intros unique; [done|].
  cbn [visitDepthFirst]. rewrite Hin, Hout. rewrite decide_False by (simpl; lia). cbn [mfoldl]. by rewrite IH.
Qed.
End unique.
End callgraph.

(** ** The calls that build the callstacks

    What is inserted at the start of a function: [getBacktraceUnique] with an index
    and the number of unique functions, or [getBacktrace]. *)
Inductive callstack_call :=
  | BacktraceUnique (index numberOfUniqueTraces : Z)
  | Backtrace.

Section instrumentation.
  Context {K : Type} `{Countable K} (empty isIntrinsic : K → bool).

(** The loop of [callstackInstrumentation] over the functions of the module, with
    the map [funcToCallstack] and the next index. *)
Definition callstack_step (unique : gset K) (st : gmap K callstack_call * Z) (F : K) : gmap K callstack_call * Z :=
  let '(funcToCallstack, index) := st in
  if empty F then st
  else if isIntrinsic F then st
  else if decide (F ∈ unique) then
    (<[F := BacktraceUnique index (Z.of_nat (size unique))]> funcToCallstack, index +₆₄ 1)
  else (<[F := Backtrace]> funcToCallstack, index).

Definition callstackInstrumentation (M : list K) (unique : gset K) : gmap K callstack_call :=
  (foldl (callstack_step unique) (∅, 0) M).1.

Definition defined (F : K) : Prop := empty F = false ∧ isIntrinsic F = false.

(** The state of the loop after the functions [done_]: the indices given so far are
    the numbers below [index], each to one function. *)
Record indexed (unique : gset K) (seen : list K) (st : gmap K callstack_call * Z) : Prop := {
  ix_dom : ∀ F, is_Some (st.1 !! F) ↔ F ∈ seen ∧ defined F;
  ix_count : ∃ u : gset K, st.2 = Z.of_nat (size u) ∧ u ⊆ unique ∧ (∀ F, F ∈ u → F ∈ seen);
  ix_unique : ∀ F i n, st.1 !! F = Some (BacktraceUnique i n) →
    F ∈ unique ∧ n = Z.of_nat (size unique) ∧ 0 <= i < st.2;
  ix_all : ∀ F, F ∈ seen → defined F → F ∈ unique → st.1 !! F ≠ Some Backtrace;
  ix_inj : ∀ F G i n m, st.1 !! F = Some (BacktraceUnique i n) → st.1 !! G = Some (BacktraceUnique i m) → F = G;
}.

Lemma callstack_step_indexed unique seen st F :
  Z.of_nat (size unique) < two64 → F ∉ seen → indexed unique seen st →
  indexed unique (seen ++ [F]) (callstack_step unique st F).
Proof.
  intros Hmax HF [Hdom (u & Hu & Hsub & Hseen) Hun Hall Hinj]. destruct st as [m index]. simpl in *.
  assert (m !! F = None) as HmF.
  { destruct (m !! F) eqn:E; [|done]. exfalso. apply HF, Hdom. by eexists. }
  assert (¬ defined F → indexed unique (seen ++ [F]) (m, index)) as Hskip.
  { intros Hd. split; simpl.
    - intros G. rewrite Hdom, elem_of_app, list_elem_of_singleton. naive_solver.
    - exists u. split; [done|]. split; [done|]. set_solver.
    - done.
    - intros G HG HdG HGu. apply elem_of_app in HG as [HG|HG]; [by apply Hall|]. set_solver.
    - done. }
  unfold callstack_step. destruct (empty F) eqn:Ee; [apply Hskip; intros [??]; congruence|].
  destruct (isIntrinsic F) eqn:Ei; [apply Hskip; intros [??]; congruence|]. assert (defined F) as Hd by done. clear Hskip.
  case_decide as HFu.
  - assert (size ({[F]} ∪ u) = S (size u)) as Hsz.
    { rewrite size_union, size_singleton; [done|]. set_solver. }
    assert (size ({[F]} ∪ u) <= size unique)%nat as Hle by (apply subseteq_size; set_solver).
    assert (index +₆₄ 1 = index + 1) as -> by (apply add64_small; lia).
    split; simpl.
    + intros G. rewrite lookup_insert_is_Some, Hdom, elem_of_app, list_elem_of_singleton.
      destruct (decide (F = G)); naive_solver.
    + exists ({[F]} ∪ u). split; [lia|]. set_solver.
    + intros G i n. rewrite lookup_insert_Some. intros [[<- [= <- <-]]|[_ HG]]; [split; [done|split; [done|lia]]|].
      destruct (Hun G i n HG) as (? & ? & ?). split; [done|split; [done|lia]].
    + intros G HG HdG HGu. apply elem_of_app in HG as [HG|HG].
      * rewrite lookup_insert_ne by set_solver. by apply Hall.
      * apply list_elem_of_singleton in HG as ->. by rewrite lookup_insert_eq.
    + intros G1 G2 i n k. rewrite !lookup_insert_Some.
      intros [[<- [= <- <-]]|[_ H1]] [[<- E]|[_ H2]]; [done| | |by eapply Hinj].
      * apply Hun in H2. lia.
      * injection E as <- <-. apply Hun in H1. lia.
  - split; simpl.
    + intros G. rewrite lookup_insert_is_Some, Hdom, elem_of_app, list_elem_of_singleton.
      destruct (decide (F = G)); naive_solver.
    + exists u. split; [done|]. split; [done|]. set_solver.
    + intros G i n. rewrite lookup_insert_Some. intros [[_ [=]]|[_ HG]]. by apply Hun.
    + intros G HG HdG HGu. apply elem_of_app in HG as [HG|HG].
      * rewrite lookup_insert_ne by set_solver. by apply Hall.
      * apply list_elem_of_singleton in HG as ->. done.
    + intros G1 G2 i n k. rewrite !lookup_insert_Some. intros [[_ [=]]|[_ H1]] [[_ [=]]|[_ H2]]. by eapply Hinj.
Qed.

Lemma callstackInstrumentation_indexed M unique :
  Z.of_nat (size unique) < two64 → NoDup M → indexed unique M (foldl (callstack_step unique) (∅, 0) M).
Proof.
  intros Hmax. induction M as [|F M IH] using rev_ind; intros Hnd.
  - split; simpl; try done.
    + intros F. rewrite lookup_empty. split; [by intros []|]. intros [HF _]. by apply elem_of_nil in HF.
    + exists ∅. by rewrite size_empty.
  - apply NoDup_app in Hnd as (Hnd & HF & _). rewrite foldl_snoc.
    apply callstack_step_indexed; [done| |by apply IH]. intros Hin. apply (HF F Hin). set_solver.
Qed.

(** The table of [getBacktraceUnique] is not made yet or has a slot per unique
    function; what a slot holds. *)
Definition slots_ready (n : Z) (s : backtraces) : Prop :=
  match bt_unique s with None => True | Some u => Z.of_nat (List.length u) = n end.

Definition slot (s : backtraces) (i : Z) : option Z := u ← bt_unique s; mjoin (u !! Z.to_nat i).

Lemma getBacktraceUnique_slot n i b k x s :
  slots_ready n s → 0 <= i < n → make_trace b k = Some x →
  ∃ s' p, getBacktraceUnique false i n b k s = Some (s', Some p) ∧ slots_ready n s' ∧
    slot s' i = Some p ∧ (∀ q, slot s i = Some q → p = q) ∧ ∀ j, 0 <= j → j ≠ i → slot s' j = slot s j.
Proof.
  intros Hready Hi Hx. unfold getBacktraceUnique, slot, slots_ready in *. rewrite Hx.
  set (u := default (replicate (Z.to_nat n) None) (bt_unique s)).
  assert (Z.of_nat (List.length u) = n) as Hlen.
  { unfold u. destruct (bt_unique s) as [u'|]; [done|]. simpl. rewrite length_replicate. lia. }
  assert (∀ j, mjoin (u !! Z.to_nat j) = (u ← bt_unique s; mjoin (u !! Z.to_nat j))) as Hslot.
  { intros j. unfold u. destruct (bt_unique s) as [u'|]; [done|]. cbn [default mbind option_bind].
    destruct (replicate _ None !! Z.to_nat j) as [o|] eqn:E; [|done]. by apply lookup_replicate in E as [-> _]. }
  destruct (lookup_lt_is_Some_2 u (Z.to_nat i)) as [o Ho]; [lia|]. rewrite Ho. cbn [mbind option_bind].
  destruct o as [p|].
  - eexists _, p. split; [done|]. simpl. rewrite Ho. split; [done|]. split; [done|]. split.
    + intros q Hq. rewrite <- Hslot, Ho in Hq. by injection Hq.
    + intros j _ _. apply Hslot.
  - cbn [mbind option_bind]. destruct (new_trace x (bt_store s)) as [st p]. eexists _, p. split; [done|]. simpl.
    rewrite length_insert. split; [done|]. rewrite list_lookup_insert_eq by lia. split; [done|]. split.
    + intros q Hq. rewrite <- Hslot, Ho in Hq. done.
    + intros j Hj Hne. rewrite list_lookup_insert_ne by lia. apply Hslot.
Qed.

(** The compiled calls of [getBacktraceUnique] are safe.  Every function with a
    body gets one call; the functions with one call chain get different indices
    below the number passed with them, so that a call never leaves the table of the
    runtime, keeps the trace it took first, and never touches the slot of another
    function. *)
Theorem callstackInstrumentation_slots M unique :
  NoDup M → Z.of_nat (size unique) < two64 →
  let funcToCallstack := callstackInstrumentation M unique in
  (∀ F, is_Some (funcToCallstack !! F) ↔ F ∈ M ∧ defined F) ∧
  (∀ F, F ∈ M → defined F → (∃ i n, funcToCallstack !! F = Some (BacktraceUnique i n)) ↔ F ∈ unique) ∧
  (∀ F G i n m, funcToCallstack !! F = Some (BacktraceUnique i n) →
    funcToCallstack !! G = Some (BacktraceUnique i m) → F = G) ∧
  ∀ F i n b k x s, funcToCallstack !! F = Some (BacktraceUnique i n) →
    slots_ready (Z.of_nat (size unique)) s → make_trace b k = Some x →
    ∃ s' p, getBacktraceUnique false i n b k s = Some (s', Some p) ∧ slots_ready (Z.of_nat (size unique)) s' ∧
      slot s' i = Some p ∧ (∀ q, slot s i = Some q → p = q) ∧ ∀ j, 0 <= j → j ≠ i → slot s' j = slot s j.
Proof.
  intros Hnd Hmax. cbv zeta.
  destruct (callstackInstrumentation_indexed M unique Hmax Hnd) as [Hdom (u & Hu & Hsub & _) Hun Hall Hinj].
  split; [exact Hdom|]. split; [|split; [exact Hinj|]].
  - intros F HF Hd. split; [intros (i & n & Hi); by apply Hun in Hi as [? _]|]. intros HFu.
    destruct (proj2 (Hdom F) (conj HF Hd)) as [c Hc]. destruct c as [i n|]; [by exists i, n|].
    by apply (Hall F) in Hc.
  - intros F i n b k x s HF Hready Hx. apply Hun in HF as (_ & -> & Hi).
    apply (getBacktraceUnique_slot _ _ _ _ x); [done| |done].
    apply subseteq_size in Hsub. lia.
Qed.
End instrumentation.

(** ** A program

    main calls [work] and [helper]; both call [helper], which calls itself. *)
Module Demo.
Definition main : nat := 1.
Definition work : nat := 2.
Definition helper : nat := 3.
Definition start : nat := 4.

Definition outgoing (f : nat) : list nat :=
  match f with 1 => [2; 3] | 2 => [3; 4] | 3 => [3] | _ => [] end%nat.
Definition incoming (f : nat) : list nat :=
  match f with 2 => [1] | 3 => [1; 2; 3] | 4 => [2] | _ => [] end%nat.
Definition nodes : gset nat := {[1; 2; 3; 4]}%nat.

Definition reached : gset nat :=
  default ∅ (getFunctionsToInstrumentLoadStore outgoing incoming 5 elements Nat.ltb start).

Lemma closed f g : f ∈ nodes → edge outgoing f g → g ∈ nodes.
Proof.
  unfold edge. intros Hf Hg. destruct f as [|[|[|[|f]]]]; unfold nodes; simpl in Hg; set_solver.
Qed.

Lemma dual f g : edge outgoing f g ↔ f ∈ incoming g.
Proof.
  unfold edge. destruct f as [|[|[|[|f]]]]; destruct g as [|[|[|[|[|g]]]]]; simpl; set_solver.
Qed.

Lemma getFunctionsToInstrumentLoadStore_reach_witness :
  reached = {[2; 3; 4]}%nat ∧ ∀ f, f ∈ reached ↔ ∃ s, s ∈ incoming start ∧ rtc (edge outgoing) s f.
Proof.
  destruct (getFunctionsToInstrumentLoadStore_reach outgoing incoming nodes 5 elements Nat.ltb start)
    as (functions & Hf & Hiff).
  - exact closed.
  - intros f Hf. unfold incoming, start in Hf. apply list_elem_of_singleton in Hf as ->. set_solver.
  - vm_compute. lia.
  - intros s y. apply elem_of_elements.
  - intros a b Ha Hb. apply Nat.ltb_ge in Ha, Hb. lia.
  - unfold reached. split; [apply (bool_decide_unpack _); vm_compute; reflexivity|]. rewrite Hf. exact Hiff.
Defined.

Lemma getUniqueCallstackFunctions_unique_witness :
  ∃ unique, getUniqueCallstackFunctions outgoing incoming 5 main = Some unique ∧ unique = {[1; 2; 4]}%nat ∧
    ∀ f, f ∈ unique → ∃ p, call_path outgoing main p f ∧ ∀ q, call_path outgoing main q f → q = p.
Proof.
  destruct (getUniqueCallstackFunctions_unique outgoing incoming dual main eq_refl nodes 5 closed)
    as (unique & Hu & _ & Hp); [set_solver|vm_compute; lia|].
  exists unique. split; [exact Hu|]. split; [|exact Hp].
  assert (getUniqueCallstackFunctions outgoing incoming 5 main = Some {[1; 2; 4]}%nat) as E
    by (apply (bool_decide_unpack _); vm_compute; reflexivity).
  rewrite Hu in E. injection E as ->. reflexivity.
Defined.

Definition no_body (f : nat) : bool := bool_decide (f = start).
Definition calls : gmap nat callstack_call := callstackInstrumentation no_body (λ _, false) [1; 2; 3; 4]%nat {[1; 2; 4]}%nat.

Lemma callstackInstrumentation_slots_witness :
  calls !! work = Some (BacktraceUnique 1 3) ∧ calls !! helper = Some Backtrace ∧ calls !! start = None ∧
  ∀ i n m, calls !! main = Some (BacktraceUnique i n) → calls !! work = Some (BacktraceUnique i m) → main = work.
Proof.
  destruct (callstackInstrumentation_slots no_body (λ _, false) [1; 2; 3; 4]%nat {[1; 2; 4]}%nat)
    as (_ & _ & Hinj & _).
  - apply (bool_decide_unpack _). vm_compute. reflexivity.
  - vm_compute. reflexivity.
  - split; [vm_compute; reflexivity|]. split; [vm_compute; reflexivity|]. split; [vm_compute; reflexivity|].
    intros i n m. apply Hinj.
Defined.
End Demo.
