(* ===== verification/TouchSame.v ===== *)
(** * TouchSame.v: accesses that need no report

    src/src/TouchSameObject.cpp runs a data-flow analysis that finds the loads
    (and the stores) whose pointer has already been loaded (stored) on every path,
    and the pass leaves them out.  The data-flow engine and the dominator trees are
    NOELLE's: parameters, the engine as a worklist that is given the callbacks. *)

From stdpp Require Import relations functions.
From S2P Require Import Prelude Helpers OrdMap Objects AllocTable ConnGraph Commit CleanBatch Shadow Batch.
From S2P Require Import Memory Callstack UniqueIds Wrapper.

(** ** Paths *)

Section paths.
  Context {I : Type}.

(** A path through a function from its first instruction: each instruction is a
    predecessor of the next. *)
Fixpoint linked (preds : I → list I) (l : list I) : Prop :=
  match l with
  | a :: (b :: _) as l' => a ∈ preds b ∧ linked preds l'
  | _ => True
  end.

Definition path (preds : I → list I) (first : I) (l : list I) : Prop := head l = Some first ∧ linked preds l.

Lemma linked_app preds l1 d l2 : linked preds (l1 ++ d :: l2) ↔ linked preds (l1 ++ [d]) ∧ linked preds (d :: l2).
Proof.
  induction l1 as [|a l1 IH]; [simpl; tauto|]. destruct l1 as [|b l1]; [simpl; tauto|].
  change ((a :: b :: l1) ++ d :: l2) with (a :: b :: (l1 ++ d :: l2)).
  change ((a :: b :: l1) ++ [d]) with (a :: b :: (l1 ++ [d])).
  change ((b :: l1) ++ d :: l2) with (b :: (l1 ++ d :: l2)) in IH.
  change ((b :: l1) ++ [d]) with (b :: (l1 ++ [d])) in IH. cbn [linked]. tauto.
Qed.

Lemma path_prefix preds first l1 d l2 : path preds first (l1 ++ d :: l2) → path preds first (l1 ++ [d]).
Proof.
  intros [Hh Hl]. apply linked_app in Hl as [Hl _]. split; [|done]. by destruct l1.
Qed.

(** An instruction on every path to another one. *)
Definition on_all_paths (preds : I → list I) (first d j : I) : Prop :=
  ∀ l, path preds first (l ++ [j]) → d ∈ l ++ [j].

End paths.

(** ** The analysis *)

Section analysis.
  Context {I V F : Type} `{Countable I} `{Countable V} `{Countable F}.

(** A load or a store with its pointer operand. *)
Inductive memory_op := LoadOp (ptr : V) | StoreOp (ptr : V).

(** The module: what its instructions are, the function each is in, and the base
    pointer of a pointer that is a [GetElementPtrInst]. *)
  Context (op : I → option memory_op) (getFunction : I → F) (gepPointerOperand : V → option V).

(** A region of interest: its start call and its stop calls.  The dominator trees
    of a function. *)
Record region := Region { roi_start : I; roi_stops : list I }.
  Context (dominates postDominates : I → I → bool).

(** [TouchObjectInstVisitor]: the maps for loads and stores. *)
Record touch_maps := TouchMaps { instToObjMapLoad : gmap I V; instToObjMapStore : gmap I V }.

Definition visitInstObjGranularity (inst : I) (o : memory_op) (maps : touch_maps) : touch_maps :=
  match o with
  | LoadOp addr => match gepPointerOperand addr with
      | None => maps
      | Some obj => TouchMaps (<[inst := obj]> (instToObjMapLoad maps)) (instToObjMapStore maps)
      end
  | StoreOp addr => match gepPointerOperand addr with
      | None => maps
      | Some obj => TouchMaps (instToObjMapLoad maps) (<[inst := obj]> (instToObjMapStore maps))
      end
  end.

Definition visitInstPtrGranularity (inst : I) (o : memory_op) (maps : touch_maps) : touch_maps :=
  match o with
  | LoadOp addr => TouchMaps (<[inst := addr]> (instToObjMapLoad maps)) (instToObjMapStore maps)
  | StoreOp addr => TouchMaps (instToObjMapLoad maps) (<[inst := addr]> (instToObjMapStore maps))
  end.

(** [visitLoadStoreInst]: in a function with regions, only the instructions that
    are inside all of them. *)
Definition inside_roi (inst : I) (roi : region) : bool :=
  dominates (roi_start roi) inst && existsb (λ stop, postDominates stop inst) (roi_stops roi).

Definition visitLoadStoreInst (enableDFAObjGranularity : bool) (functionsToRunDFA : gset F) (rois : list region)
    (maps : touch_maps) (inst : I) : touch_maps :=
  match op inst with
  | None => maps
  | Some o =>
      if decide (getFunction inst ∉ functionsToRunDFA) then maps
      else
        let funcRois := filter (λ roi, getFunction (roi_start roi) = getFunction inst) rois in
        let considerThisInst := forallb (inside_roi inst) funcRois in
        if considerThisInst then
          if enableDFAObjGranularity then visitInstObjGranularity inst o maps
          else visitInstPtrGranularity inst o maps
        else maps
  end.

Definition visit_all enableDFAObjGranularity functionsToRunDFA rois (M : list I) : touch_maps :=
  foldl (visitLoadStoreInst enableDFAObjGranularity functionsToRunDFA rois) (TouchMaps ∅ ∅) M.

(** The sets the engine keeps for every instruction. *)
Record DataFlowResult := Dfr { GEN : I → gset V; IN : I → gset V; OUT : I → gset V }.

Definition set_GEN (i : I) (s : gset V) (df : DataFlowResult) : DataFlowResult := Dfr (<[i := s]> (GEN df)) (IN df) (OUT df).
Definition set_IN (i : I) (s : gset V) (df : DataFlowResult) : DataFlowResult := Dfr (GEN df) (<[i := s]> (IN df)) (OUT df).
Definition set_OUT (i : I) (s : gset V) (df : DataFlowResult) : DataFlowResult := Dfr (GEN df) (IN df) (<[i := s]> (OUT df)).

(** The callbacks given to the engine, each with the set it is to change. *)
Definition computeGEN (instToObjMap : gmap I V) (i : I) (df : DataFlowResult) : DataFlowResult :=
  match instToObjMap !! i with
  | None => df
  | Some obj => set_GEN i (GEN df i ∪ {[obj]}) df
  end.

Definition computeKILL (i : I) (df : DataFlowResult) : DataFlowResult := df.

Definition computeOUT (i : I) (OUT : gset V) (df : DataFlowResult) : gset V := OUT ∪ GEN df i ∪ IN df i.

Definition computeIN (i : I) (IN : gset V) (pred : I) (df : DataFlowResult) : gset V :=
  let outP := OUT df pred in
  let currIN := IN in
  outP ∩ currIN.

Definition initializeIN (firstInst : F → I) (instToObjMap : gmap I V) (i : I) (IN : gset V) : gset V :=
  if decide (firstInst (getFunction i) = i) then IN
  else IN ∪ list_to_set (map_to_list instToObjMap).*2.

Definition initializeOUT (i : I) (OUT : gset V) : gset V := OUT.

(** The engine's entry point, and what the tool asks of it: the result for each
    function. *)
Definition engine : Type :=
  F → (I → DataFlowResult → DataFlowResult) → (I → DataFlowResult → DataFlowResult) →
  (I → gset V → gset V) → (I → gset V → gset V) →
  (I → gset V → I → DataFlowResult → gset V) → (I → gset V → DataFlowResult → gset V) → DataFlowResult.

Definition getFuncToDfrMap (applyForward : engine) (firstInst : F → I) (instToObjMap : gmap I V) (f : F) : DataFlowResult :=
  applyForward f (computeGEN instToObjMap) computeKILL (initializeIN firstInst instToObjMap) initializeOUT computeIN computeOUT.

(** What is relied on of the engine, which is NOELLE's and a parameter: that it is the
    usual worklist over its arguments, in any order.  Empty sets are filled by the
    first four callbacks; then instructions are visited, some of them repeatedly: a
    visit gives the IN set to [computeIN] once for each predecessor, then the OUT set
    to [computeOUT].  IN is not filled again, so it is not in general the largest
    solution of the equations. *)
Section worklist.
  Context (gen kill : I → DataFlowResult → DataFlowResult) (initIN initOUT : I → gset V → gset V).
  Context (compIN : I → gset V → I → DataFlowResult → gset V) (compOUT : I → gset V → DataFlowResult → gset V).
  Context (preds : I → list I).

Definition prepare_inst (df : DataFlowResult) (i : I) : DataFlowResult := kill i (gen i df).

Definition initialize_inst (df : DataFlowResult) (i : I) : DataFlowResult :=
  set_OUT i (initOUT i (OUT df i)) (set_IN i (initIN i (IN df i)) df).

Definition process_inst (df : DataFlowResult) (i : I) : DataFlowResult :=
  let df := set_IN i (foldl (λ s p, compIN i s p df) (IN df i) (preds i)) df in
  set_OUT i (compOUT i (OUT df i) df) df.

Definition worklist (insts schedule : list I) : DataFlowResult :=
  let df := foldl prepare_inst (Dfr (λ _, ∅) (λ _, ∅) (λ _, ∅)) insts in
  foldl process_inst (foldl initialize_inst df insts) schedule.
End worklist.

(** The hypothesis: for a function with a body and any callbacks, there are the
    instructions and a schedule of visits, in which is whatever a path reaches, that
    give the result of the engine. *)
Definition applies_forward (applyForward : engine) (firstInst : F → I) (preds : I → list I) : Prop :=
  ∀ f gen kill initIN initOUT compIN compOUT, getFunction (firstInst f) = f → ∃ insts schedule,
    (∀ l i, path preds (firstInst f) (l ++ [i]) → i ∈ schedule) ∧
    applyForward f gen kill initIN initOUT compIN compOUT =
      worklist gen kill initIN initOUT compIN compOUT preds insts schedule.

(** [getInstsToSkip] over the instructions of the functions. *)
Definition skippable (funcToDfr : F → DataFlowResult) (instToObjMap : gmap I V) (functionsToRunDFA : gset F)
    (i : I) : bool :=
  bool_decide (getFunction i ∈ functionsToRunDFA) &&
  match instToObjMap !! i with
  | Some obj => bool_decide (obj ∈ IN (funcToDfr (getFunction i)) i)
  | None => false
  end.

Definition getInstsToSkip (funcToDfr : F → DataFlowResult) (instToObjMap : gmap I V)
    (functionsToRunDFA : gset F) (M : list I) : gset I :=
  list_to_set (filter (λ i, skippable funcToDfr instToObjMap functionsToRunDFA i = true) M).

(** [getTouchSameObjectInsts]: the engine is run once for the loads and once for
    the stores. *)
Definition getTouchSameObjectInsts (applyForward : engine) (firstInst : F → I)
    enableDFAObjGranularity functionsToRunDFA rois (M : list I) : gset I :=
  let maps := visit_all enableDFAObjGranularity functionsToRunDFA rois M in
  getInstsToSkip (getFuncToDfrMap applyForward firstInst (instToObjMapLoad maps)) (instToObjMapLoad maps) functionsToRunDFA M ∪
  getInstsToSkip (getFuncToDfrMap applyForward firstInst (instToObjMapStore maps)) (instToObjMapStore maps) functionsToRunDFA M.

Lemma elem_of_computeIN i x init preds df :
  x ∈ foldl (λ s p, computeIN i s p df) init preds ↔ x ∈ init ∧ ∀ p, p ∈ preds → x ∈ OUT df p.
Proof.
  revert init. induction preds as [|p preds IH]; intros init; cbn [foldl].
  - split; [intros ?; split; [done|]|by intros []]. intros o Ho. by apply elem_of_nil in Ho.
  - rewrite IH. unfold computeIN. rewrite elem_of_intersection. setoid_rewrite elem_of_cons. naive_solver.
Qed.

(** What the sets satisfy at every moment of the worklist: only objects of the map
    are generated; the IN set of the first instruction is empty, the OUT sets are
    within the equations, and so are the IN sets of what has been visited. *)
Record bounded (firstInst : F → I) (preds : I → list I) (instToObjMap : gmap I V) (visited : list I)
    (df : DataFlowResult) : Prop := {
  bo_gen : ∀ i x, x ∈ GEN df i → instToObjMap !! i = Some x;
  bo_first : ∀ i, firstInst (getFunction i) = i → IN df i = ∅;
  bo_in : ∀ i p, i ∈ visited → p ∈ preds i → IN df i ⊆ OUT df p;
  bo_out : ∀ i, OUT df i ⊆ GEN df i ∪ IN df i;
  bo_unvisited : ∀ i, i ∉ visited → OUT df i = ∅;
}.

Lemma worklist_start firstInst preds m insts :
  bounded firstInst preds m [] (foldl (initialize_inst (initializeIN firstInst m) initializeOUT)
    (foldl (prepare_inst (computeGEN m) computeKILL) (Dfr (λ _, ∅) (λ _, ∅) (λ _, ∅)) insts) insts).
Proof.
  set (df := foldl (prepare_inst _ _) _ insts).
  assert ((∀ i x, x ∈ GEN df i → m !! i = Some x) ∧ (∀ i, IN df i = ∅) ∧ ∀ i, OUT df i = ∅) as (Hg & Hi & Ho).
  { subst df. apply foldl_ind; [by split; [intros i x; set_solver|]|].
    intros df j _ (Hg & Hi & Ho). unfold prepare_inst, computeKILL, computeGEN.
    destruct (m !! j) as [obj|] eqn:Ej; [|done]. split; [|done]. intros i x. simpl.
    destruct (decide (j = i)) as [->|]; [rewrite fn_lookup_insert|rewrite fn_lookup_insert_ne by done; apply Hg].
    rewrite elem_of_union, elem_of_singleton. intros [?| ->]; [by apply Hg|done]. }
  enough (∀ df', (GEN df' = GEN df ∧ (∀ i, firstInst (getFunction i) = i → IN df' i = ∅) ∧ ∀ i, OUT df' i = ∅) →
    bounded firstInst preds m [] df') as Hb.
  { apply Hb, foldl_ind; [done|]. intros df' j _ (Eg & Hi' & Ho'). split; [done|].
    unfold initialize_inst, initializeIN, initializeOUT. simpl.
    split; intros i; (destruct (decide (j = i)) as [->|]; [rewrite fn_lookup_insert|rewrite fn_lookup_insert_ne by done; auto]).
    - intros Hf. rewrite decide_True by done. by apply Hi'.
    - apply Ho'. }
  intros df' (Eg & Hi' & Ho'). split; [by rewrite Eg|done| | |done].
  - intros i p Hv. by apply elem_of_nil in Hv.
  - intros i. rewrite Ho'. set_solver.
Qed.

(** A visit keeps the bounds: an IN set was cut down at its first visit, when the
    OUT sets were no larger than they are later. *)
Lemma visit_bounded firstInst preds m visited df j :
  bounded firstInst preds m visited df →
  bounded firstInst preds m (visited ++ [j]) (process_inst computeIN computeOUT preds df j).
Proof.
  intros [Bg Bf Bi Bo Bu]. unfold process_inst.
  set (new := foldl (λ s p, computeIN j s p df) (IN df j) (preds j)).
  assert (∀ x, x ∈ new ↔ x ∈ IN df j ∧ ∀ p, p ∈ preds j → x ∈ OUT df p) as Hnew by (intros x; apply elem_of_computeIN).
  set (df' := set_IN j new df). set (out := computeOUT j (OUT df' j) df').
  assert (out = OUT df j ∪ GEN df j ∪ new) as Eout
    by (subst out df'; unfold computeOUT; simpl; by rewrite fn_lookup_insert).
  assert (∀ p, OUT df p ⊆ OUT (set_OUT j out df') p) as Hgrow.
  { intros p. simpl. destruct (decide (j = p)) as [->|]; [rewrite fn_lookup_insert|by rewrite fn_lookup_insert_ne].
    rewrite Eout. set_solver. }
  split; try done; intros i; simpl.
  - intros Hi. destruct (decide (j = i)) as [->|]; [|rewrite fn_lookup_insert_ne by done; by apply Bf].
    rewrite fn_lookup_insert. apply set_eq. intros x. rewrite Hnew, (Bf i Hi). set_solver.
  - intros p Hi Hp. etrans; [|apply Hgrow]. destruct (decide (j = i)) as [->|Hne].
    + rewrite fn_lookup_insert. intros x Hx. apply Hnew in Hx as [_ Hx]. by apply Hx.
    + rewrite fn_lookup_insert_ne by done. apply Bi; [set_solver|done].
  - destruct (decide (j = i)) as [->|]; [|rewrite !fn_lookup_insert_ne by done; apply Bo].
    rewrite !fn_lookup_insert, Eout. intros x. rewrite !elem_of_union. intros [[Hx|?]|?]; [|by left|by right].
    destruct (decide (i ∈ visited)) as [Hv|Hv]; [|rewrite Bu in Hx by done; set_solver].
    apply Bo, elem_of_union in Hx as [?|Hin]; [by left|right]. apply Hnew. split; [done|].
    intros p Hp. by apply (Bi i p Hv Hp).
  - intros Hi. rewrite fn_lookup_insert_ne by set_solver. apply Bu. set_solver.
Qed.

Lemma worklist_bounded firstInst preds m insts schedule :
  bounded firstInst preds m schedule
    (worklist (computeGEN m) computeKILL (initializeIN firstInst m) initializeOUT computeIN computeOUT preds insts schedule).
Proof.
  unfold worklist. generalize (worklist_start firstInst preds m insts). generalize (foldl (initialize_inst
    (initializeIN firstInst m) initializeOUT) (foldl (prepare_inst (computeGEN m) computeKILL) (Dfr (λ _, ∅) (λ _, ∅) (λ _, ∅)) insts) insts).
  intros df Hdf. change schedule with ([] ++ schedule) at 1. revert df Hdf. generalize (@nil I).
  induction schedule as [|j schedule IH]; intros visited df Hdf; [by rewrite app_nil_r|].
  cbn [foldl]. change (j :: schedule) with ([j] ++ schedule). rewrite app_assoc. by apply IH, visit_bounded.
Qed.

(** A pointer is in the IN set of an instruction only if every path to it passes
    an instruction that touches the pointer. *)
Lemma in_touched firstInst preds applyForward instToObjMap f l i obj :
  applies_forward applyForward firstInst preds →
  (∀ i j, i ∈ preds j → getFunction i = getFunction j) → getFunction (firstInst f) = f →
  path preds (firstInst f) (l ++ [i]) → obj ∈ IN (getFuncToDfrMap applyForward firstInst instToObjMap f) i →
  ∃ j, j ∈ l ∧ instToObjMap !! j = Some obj.
Proof.
  intros Hdfe Hpreds Hfirst Hp. unfold getFuncToDfrMap.
  destruct (Hdfe f (computeGEN instToObjMap) computeKILL (initializeIN firstInst instToObjMap) initializeOUT computeIN computeOUT)
    as (insts & schedule & Hvis & ->); [done|].
  pose proof (worklist_bounded firstInst preds instToObjMap insts schedule) as [Bg Bf Bi Bo _].
  set (dfr := worklist _ _ _ _ _ _ _ _ _) in *. revert i Hp. induction l as [|a l IH] using rev_ind; intros b Hp.
  - destruct Hp as [[= ->] _]. rewrite Bf by (by rewrite Hfirst). set_solver.
  - pose proof (Hvis _ _ Hp) as Hb. rewrite <- app_assoc in Hp. change ([a] ++ [b]) with [a; b] in Hp.
    pose proof (path_prefix _ _ _ _ _ Hp) as Hpa.
    destruct Hp as [_ Hl]. apply linked_app in Hl as [_ [Hab _]].
    intros Hin. apply (Bi b a Hb Hab) in Hin. apply Bo, elem_of_union in Hin as [Hgen|Hin].
    + exists a. split; [set_solver|by apply Bg].
    + destruct (IH a Hpa Hin) as (j & Hj & Ej). exists j. split; [set_solver|done].
Qed.

(** So the first touch of a path is not one the analysis leaves out. *)
Lemma first_touch firstInst preds applyForward instToObjMap f l i obj :
  applies_forward applyForward firstInst preds →
  (∀ i j, i ∈ preds j → getFunction i = getFunction j) → getFunction (firstInst f) = f →
  path preds (firstInst f) (l ++ [i]) → obj ∈ IN (getFuncToDfrMap applyForward firstInst instToObjMap f) i →
  ∃ j, j ∈ l ∧ instToObjMap !! j = Some obj ∧
    obj ∉ IN (getFuncToDfrMap applyForward firstInst instToObjMap f) j.
Proof.
  intros Hdfe Hpreds Hfirst. revert i. induction l as [l IH] using (induction_ltof1 _ (@List.length I)). unfold ltof in IH.
  intros i Hp Hin. destruct (in_touched _ _ _ _ _ _ _ _ Hdfe Hpreds Hfirst Hp Hin) as (j & Hj & Ej).
  destruct (decide (obj ∈ IN (getFuncToDfrMap applyForward firstInst instToObjMap f) j)) as [Hinj|]; [|by exists j].
  apply list_elem_of_split in Hj as (l1 & l2 & ->).
  destruct (IH l1) with (i := j) as (k & Hk & ?); [rewrite length_app; simpl; lia| |done|exists k; split; [set_solver|done]].
  rewrite <- app_assoc in Hp. by apply path_prefix in Hp.
Qed.

Lemma path_function firstInst preds f l j :
  (∀ i j, i ∈ preds j → getFunction i = getFunction j) → getFunction (firstInst f) = f →
  path preds (firstInst f) l → j ∈ l → getFunction j = f.
Proof.
  intros Hpreds Hfirst [Hh Hl] Hj. destruct l as [|a l]; [done|]. injection Hh as ->.
  revert Hl Hj Hfirst. generalize (firstInst f). induction l as [|b l IH]; intros a Hl Hj Ha.
  { by apply list_elem_of_singleton in Hj as ->. }
  destruct Hl as [Hab Hl]. apply elem_of_cons in Hj as [->|Hj]; [done|].
  apply (IH b Hl Hj). rewrite <- Ha. symmetry. by apply Hpreds.
Qed.

(** If some instruction, the definition of the pointer say, is on every path to a
    touch of the pointer, then the touch the analysis found lies after its last
    execution: a path that skips back to it could not have met another. *)
Lemma in_touched_since firstInst preds applyForward instToObjMap f l1 d l2 i obj :
  applies_forward applyForward firstInst preds →
  (∀ i j, i ∈ preds j → getFunction i = getFunction j) → getFunction (firstInst f) = f →
  (∀ j, getFunction j = f → instToObjMap !! j = Some obj → j ≠ d ∧ on_all_paths preds (firstInst f) d j) →
  path preds (firstInst f) (l1 ++ d :: l2 ++ [i]) → obj ∈ IN (getFuncToDfrMap applyForward firstInst instToObjMap f) i →
  ∃ j, j ∈ l2 ∧ instToObjMap !! j = Some obj ∧
    obj ∉ IN (getFuncToDfrMap applyForward firstInst instToObjMap f) j.
Proof.
  intros Hdfe Hpreds Hfirst Hd Hp Hi.
  assert (∃ p q, d ∉ p ∧ l1 ++ [d] = p ++ d :: q) as (p & q & Hdp & Epq).
  { destruct (list_elem_of_split_l (l1 ++ [d]) d) as (p & q & E & Hni); [set_solver|]. by exists p, q. }
  assert (path preds (firstInst f) ((p ++ d :: l2) ++ [i])) as Hp'.
  { destruct Hp as [Hh Hl]. rewrite <- app_assoc. simpl. apply linked_app in Hl as [Hl1 Hl2]. split.
    - assert (head (l1 ++ [d]) = Some (firstInst f)) as Hh' by (by destruct l1).
      rewrite Epq in Hh'. by destruct p.
    - apply linked_app. split; [|done]. rewrite Epq in Hl1. by apply linked_app in Hl1 as [? _]. }
  destruct (first_touch _ _ _ _ _ _ _ _ Hdfe Hpreds Hfirst Hp' Hi) as (j & Hj & Ej & Hnin).
  exists j. split; [|done]. assert (getFunction j = f) as Hjf.
  { apply (path_function _ _ _ _ _ Hpreds Hfirst Hp'). set_solver. }
  destruct (Hd j Hjf Ej) as [Hne Hall].
  apply elem_of_app in Hj as [Hj|Hj]; [|set_solver]. exfalso.
  apply list_elem_of_split in Hj as (p1 & p2 & ->).
  assert (path preds (firstInst f) (p1 ++ [j])) as Hpj.
  { rewrite <- !app_assoc in Hp'. simpl in Hp'. by apply path_prefix in Hp'. }
  specialize (Hall p1 Hpj). set_solver.
Qed.

(** ** What the visitor collects *)

(** The object of an access: the pointer itself, or the base of the pointer. *)
Definition object_of (enableDFAObjGranularity : bool) (ptr : V) : option V :=
  if enableDFAObjGranularity then gepPointerOperand ptr else Some ptr.

Definition pointer_operand (o : memory_op) : V := match o with LoadOp p | StoreOp p => p end.
Definition is_store (o : memory_op) : bool := match o with LoadOp _ => false | StoreOp _ => true end.

(** Two accesses of one kind to one object. *)
Definition same_touch enableDFAObjGranularity (i j : I) : Prop :=
  ∃ oi oj, op i = Some oi ∧ op j = Some oj ∧ is_store oi = is_store oj ∧
    is_Some (object_of enableDFAObjGranularity (pointer_operand oi)) ∧
    object_of enableDFAObjGranularity (pointer_operand oi) = object_of enableDFAObjGranularity (pointer_operand oj).

(** An entry of one of the two maps: [store] says which. *)
Definition entry_ok en (rois : list region) (store : bool) (maps : touch_maps) : Prop :=
  ∀ i v, (if store then instToObjMapStore maps else instToObjMapLoad maps) !! i = Some v →
    (∃ o, op i = Some o ∧ is_store o = store ∧ object_of en (pointer_operand o) = Some v) ∧
    ∀ roi, roi ∈ rois → getFunction (roi_start roi) = getFunction i → dominates (roi_start roi) i = true.

Lemma visitLoadStoreInst_ok en functionsToRunDFA rois maps i store :
  entry_ok en rois store maps → entry_ok en rois store (visitLoadStoreInst en functionsToRunDFA rois maps i).
Proof.
  intros Hok. unfold visitLoadStoreInst. destruct (op i) as [o|] eqn:Eo; [|done].
  case_decide; [done|]. destruct (forallb _ _) eqn:Hin; [|done].
  assert (∀ roi, roi ∈ rois → getFunction (roi_start roi) = getFunction i → dominates (roi_start roi) i = true) as Hdom.
  { intros roi Hr Hf. rewrite forallb_forall in Hin. specialize (Hin roi).
    rewrite <- list_elem_of_In, list_elem_of_filter in Hin. specialize (Hin (conj Hf Hr)).
    by apply andb_true_iff in Hin as [? _]. }
  assert (∀ v, object_of en (pointer_operand o) = Some v →
    (∃ o', op i = Some o' ∧ is_store o' = is_store o ∧ object_of en (pointer_operand o') = Some v) ∧
    ∀ roi, roi ∈ rois → getFunction (roi_start roi) = getFunction i → dominates (roi_start roi) i = true)
    as Hnew by (intros v Hv; split; [by exists o|done]).
  unfold object_of, visitInstObjGranularity, visitInstPtrGranularity in *.
  destruct en, o as [ptr|ptr], store; simpl in *; try done; try (destruct (gepPointerOperand ptr) eqn:Eg; [|done]);
    intros j u; simpl; try apply Hok; rewrite lookup_insert_Some; (intros [[<- <-]|[_ Hj]]; [by apply Hnew|by apply Hok]).
Qed.

Lemma visit_all_ok en functionsToRunDFA rois M store :
  entry_ok en rois store (visit_all en functionsToRunDFA rois M).
Proof.
  unfold visit_all. apply foldl_ind.
  - intros i v. destruct store; simpl; by rewrite lookup_empty.
  - intros maps i _. apply visitLoadStoreInst_ok.
Qed.

Lemma elem_of_getInstsToSkip funcToDfr m functionsToRunDFA M i :
  i ∈ getInstsToSkip funcToDfr m functionsToRunDFA M →
  getFunction i ∈ functionsToRunDFA ∧ ∃ v, m !! i = Some v ∧ v ∈ IN (funcToDfr (getFunction i)) i.
Proof.
  unfold getInstsToSkip, skippable. rewrite elem_of_list_to_set, list_elem_of_filter, andb_true_iff, bool_decide_eq_true.
  intros [[Hf Hm] _]. split; [done|]. destruct (m !! i) as [v|]; [|done]. apply bool_decide_eq_true in Hm. by exists v.
Qed.

(** ** Correctness *)

Section correctness.
  Context (firstInst : F → I) (preds : I → list I) (applyForward : engine).
  Context (en : bool) (functionsToRunDFA : gset F) (rois : list region) (M : list I).
Let maps := visit_all en functionsToRunDFA rois M.
Let touched (store : bool) : gmap I V := if store then instToObjMapStore maps else instToObjMapLoad maps.

  (** The engine is a worklist, and dominators are what they should be. *)
  Context (Hdfe : applies_forward applyForward firstInst preds).
  Context (Hdom : ∀ d j, dominates d j = true → on_all_paths preds (firstInst (getFunction j)) d j).
  Context (Hpreds : ∀ i j, i ∈ preds j → getFunction i = getFunction j)
    (Hfirst : ∀ f, f ∈ functionsToRunDFA → getFunction (firstInst f) = f).

Lemma skipped_in i :
  i ∈ getTouchSameObjectInsts applyForward firstInst en functionsToRunDFA rois M →
  ∃ store v, getFunction i ∈ functionsToRunDFA ∧ touched store !! i = Some v ∧
    v ∈ IN (getFuncToDfrMap applyForward firstInst (touched store) (getFunction i)) i.
Proof.
  intros Hi. unfold getTouchSameObjectInsts in Hi. fold maps in Hi.
  apply elem_of_union in Hi as [Hi|Hi]; apply elem_of_getInstsToSkip in Hi as [Hf (v & Hv)];
    [by exists false, v|by exists true, v].
Qed.

Lemma touched_same store i j v : touched store !! i = Some v → touched store !! j = Some v → same_touch en i j.
Proof.
  intros Hi Hj. pose proof (visit_all_ok en functionsToRunDFA rois M store) as Hok. fold maps in Hok.
  destruct (Hok i v Hi) as ((oi & Eoi & Hsi & Hvi) & _). destruct (Hok j v Hj) as ((oj & Eoj & Hsj & Hvj) & _).
  exists oi, oj. split; [done|]. split; [done|]. split; [congruence|]. split; [by exists v|congruence].
Qed.

(** An instruction is in one of the maps only. *)
Lemma touched_kept store j v : touched store !! j = Some v →
  v ∉ IN (getFuncToDfrMap applyForward firstInst (touched store) (getFunction j)) j →
  j ∉ getTouchSameObjectInsts applyForward firstInst en functionsToRunDFA rois M.
Proof.
  intros Hj Hn Hskip. apply skipped_in in Hskip as (store' & v' & _ & Hj' & Hin).
  pose proof (λ store, visit_all_ok en functionsToRunDFA rois M store) as Hok. fold maps in Hok.
  destruct (Hok store j v Hj) as ((oj & Eoj & Hsj & _) & _). destruct (Hok store' j v' Hj') as ((oj' & Eoj' & Hsj' & _) & _).
  assert (store' = store) as -> by congruence. assert (v' = v) as -> by congruence. done.
Qed.

End correctness.
End analysis.

(** ** Leaving accesses out

    The accesses of an invocation, each with a mark that says whether it is left
    out.  A skipped one has an access of its kind and address before it. *)
Definition covered (loads stores : gset Z) (l : list (access * bool)) : Prop :=
  ∀ l1 a l2, l = l1 ++ (a, true) :: l2 →
    ac_ptr a ∈ (if ac_store a then stores else loads) ∨
    ∃ b, b ∈ l1 ∧ ac_store b.1 = ac_store a ∧ ac_ptr b.1 = ac_ptr a.

Definition reported (l : list (access * bool)) : list access := (filter (λ b, b.2 = false) l).*1.

Lemma firsts_reported loads stores l :
  covered loads stores l → firsts loads stores (reported l) = firsts loads stores l.*1.
Proof.
  revert loads stores. induction l as [|[a skip] l IH]; intros loads stores Hc; [done|].
  assert (∀ loads' stores', loads ⊆ loads' → stores ⊆ stores' →
    ac_ptr a ∈ (if ac_store a then stores' else loads') → covered loads' stores' l) as Htail.
  { intros loads' stores' Hl Hs Ha l1 x l2 ->. destruct (Hc ((a, skip) :: l1) x l2 eq_refl) as [Hx|(b & Hb & Hk & Hp)].
    - left. destruct (ac_store x); set_solver.
    - apply elem_of_cons in Hb as [->|Hb]; [|right; by exists b]. left. simpl in *. rewrite <- Hp, <- Hk. done. }
  unfold reported in *. rewrite filter_cons, fmap_cons. simpl. destruct skip; cbn [snd].
  - rewrite decide_False by done. destruct (Hc [] a l eq_refl) as [Ha|(b & Hb & _)]; [|by apply elem_of_nil in Hb].
    rewrite IH by (by apply Htail). destruct (ac_store a); by rewrite decide_True.
  - rewrite decide_True by done. rewrite fmap_cons. cbn [firsts fst].
    destruct (ac_store a) eqn:Es; case_decide as Hd.
    + apply IH, Htail; done.
    + f_equal. apply IH, Htail; set_solver.
    + apply IH, Htail; done.
    + f_equal. apply IH, Htail; set_solver.
Qed.

(** Leaving out accesses that repeat an earlier one of their invocation, load
    for load and store for store, changes the class of no address. *)
Theorem skipping_keeps_class p (invs : list (list (access * bool))) :
  Forall (covered ∅ ∅) invs →
  classify (history p ((λ l, as_accesses (reported l)) <$> invs)) =
  classify (history p ((λ l, as_accesses l.*1) <$> invs)).
Proof.
  intros Hc.
  pose proof (firsts_keep_class p (reported <$> invs)) as H1. pose proof (firsts_keep_class p ((λ l : list (access * bool), l.*1) <$> invs)) as H2.
  rewrite <- !list_fmap_compose in H1, H2. unfold compose in H1, H2. rewrite <- H1, <- H2. do 2 f_equal.
  apply list_fmap_ext. intros i l Hl. f_equal. apply firsts_reported.
  rewrite Forall_forall in Hc. apply Hc. by apply list_elem_of_lookup_2 in Hl.
Qed.

(** ** A function

    [0: p = alloca], [1: start()], a loop [2: load p], [3: store p], [4: load p],
    then [5: stop()], [6: ret]: the load at 4 is left out. *)
Module Demo.
Definition op (i : nat) : option (memory_op (V := nat)) :=
  match i with 2 => Some (LoadOp 10) | 3 => Some (StoreOp 10) | 4 => Some (LoadOp 10) | _ => None end%nat.
Definition getFunction (i : nat) : nat := 0.
Definition firstInst (f : nat) : nat := 0.
Definition preds (i : nat) : list nat :=
  match i with 1 => [0] | 2 => [1; 4] | 3 => [2] | 4 => [3] | 5 => [4] | 6 => [5] | _ => [] end%nat.
Definition dominates (d j : nat) : bool := bool_decide (d = 1 ∧ 1 <= j < 7)%nat.
Definition postDominates (d j : nat) : bool := bool_decide (d = 5 ∧ j <= 5)%nat.
Definition roi : region := Region 1%nat [5%nat].
Definition body : list nat := [0; 1; 2; 3; 4; 5; 6]%nat.

(** A data-flow engine: the worklist over the body, twice. *)
Definition applyForward : engine (I := nat) (V := nat) (F := nat) :=
  λ _ gen kill initIN initOUT compIN compOUT,
    worklist gen kill initIN initOUT compIN compOUT preds body (body ++ body).

Lemma in_body l i : path preds 0%nat (l ++ [i]) → i ∈ body.
Proof.
  destruct l as [|a l _] using rev_ind; intros Hp; [destruct Hp as [[= ->] _]; by left|].
  destruct Hp as [_ Hl]. rewrite <- app_assoc in Hl. apply linked_app in Hl as [_ [Ha _]].
  unfold body. apply list_elem_of_In. simpl. do 7 (destruct i as [|i]; [lia|]). by apply elem_of_nil in Ha.
Qed.

Lemma forward : applies_forward getFunction applyForward firstInst preds.
Proof.
  intros f gen kill initIN initOUT compIN compOUT _. exists body, (body ++ body). split; [|reflexivity].
  intros l i Hp. apply elem_of_app. left. by eapply in_body.
Qed.

Lemma dominates_paths d j : dominates d j = true → on_all_paths preds (firstInst (getFunction j)) d j.
Proof.
  unfold dominates. rewrite bool_decide_eq_true. intros [-> [Hj Hj7]] l.
  unfold firstInst.
  revert j Hj Hj7. induction l as [|a l IH] using rev_ind; intros j Hj Hj7 Hp.
  { destruct Hp as [[= ->] _]. lia. }
  destruct (decide (j = 1%nat)) as [->|Hne]; [set_solver|].
  rewrite <- app_assoc in Hp. simpl in Hp.
  pose proof (path_prefix _ _ _ _ _ Hp) as Hpa. destruct Hp as [_ Hl]. apply linked_app in Hl as [_ [Ha _]].
  apply elem_of_app. left. apply IH; [| |done];
    do 7 (destruct j as [|j]; [simpl in Ha; repeat (apply elem_of_cons in Ha as [->|Ha]; [lia|]);
      by apply elem_of_nil in Ha|]); lia.
Qed.

Lemma first_in f : f ∈ ({[0%nat]} : gset nat) → getFunction (firstInst f) = f.
Proof. intros Hf. by apply elem_of_singleton in Hf as ->. Qed.

Definition skipped : gset nat :=
  getTouchSameObjectInsts op getFunction (λ _, None) dominates postDominates applyForward firstInst false {[0%nat]} [roi] body.

End Demo.

Lemma skipping_keeps_class_witness :
  let invs := [[(MkAccess 1 64 false, false); (MkAccess 2 64 false, true); (MkAccess 3 64 true, false)]] in
  Forall (covered ∅ ∅) invs ∧
  classify (history 64 ((λ l, as_accesses (reported l)) <$> invs)) =
  classify (history 64 ((λ l, as_accesses l.*1) <$> invs)).
Proof.
  assert (covered ∅ ∅ [(MkAccess 1 64 false, false); (MkAccess 2 64 false, true); (MkAccess 3 64 true, false)]) as Hc.
  { intros l1 a l2 E. right. destruct l1 as [|x1 [|x2 [|x3 [|x4 l1]]]]; simplify_eq/=.
    exists (MkAccess 1 64 false, false). split; [by apply list_elem_of_singleton|]. split; reflexivity. }
  cbv zeta. split; [constructor; [exact Hc|constructor]|].
  apply skipping_keeps_class. constructor; [exact Hc|constructor].
Defined.
