(* ===== verification/Guards.v ===== *)
(** * Guards.v: the code the pass puts around an access

    For some accesses the pass does not insert a report but a guard: it splits the
    basic block before the access and inserts blocks that decide at run time
    whether to report.  The guards of src/src/OnlyRead.cpp, DirectState.cpp,
    Invariant.cpp, MostlyInvariant.cpp and of
    [instrumentLoopMostlyInvariantsToRemove] in CatPass.cpp are given here as the
    blocks they create, with an interpreter for such blocks, and refine small
    state machines that say which executions are reported. *)

From S2P Require Import Prelude Helpers OrdMap Objects AllocTable ConnGraph Commit CleanBatch.

(** ** Blocks

    A guard has global variables that keep their value from one execution to the
    next, and registers.  [OldBlock] is what comes before the access, [NewBlock]
    starts with the access. *)
Inductive label := OldBlock | NewBlock | WrapperBlock | WrapperBlock2 | ExecutedWrapperBlock
  | LessThan2Block | ResetCounterBlock.

Inductive global := NewAllocation | CounterAllocation | ExecutedOnce.

#[global] Instance label_dec : EqDecision label.
Proof. solve_decision. Defined.
#[global] Instance global_dec : EqDecision global.
Proof. solve_decision. Defined.

Inductive reg := RLoad | RCmp | RLoad2 | RCmp2 | RAdd.

#[global] Instance reg_dec : EqDecision reg.
Proof. solve_decision. Defined.

Inductive operand := Addr | Reg (r : reg) | Const (n : Z).

(** The calls of the runtime: the report of a load or store
    ([getLoadStoreInstrumentation]), and [setDirectState] with a class
    ([createCallToRuntime]). *)
Inductive call := AddToState | SetState (FSAState : operation).

Inductive instruction :=
  | LoadInst (r : reg) (g : global)
  | StoreInst (v : operand) (g : global)
  | ICmpEQ (r : reg) (a b : operand)
  | ICmpULT (r : reg) (a b : operand)
  | Add (r : reg) (a b : operand)
  | Call (c : call).

Inductive terminator := Br (l : label) | CondBr (c : reg) (ifTrue ifFalse : label).

Definition blocks := label → option (list instruction * terminator).

(** ** Execution *)

Record state := State { globals : global → Z; regs : reg → Z; calls : list call }.

Definition update {A} `{EqDecision A} (f : A → Z) (x : A) (v : Z) : A → Z :=
  λ y, if decide (y = x) then v else f y.

Definition value (addr : Z) (s : state) (o : operand) : Z :=
  match o with Addr => addr | Reg r => regs s r | Const n => n end.

Definition exec_instruction (addr : Z) (s : state) (i : instruction) : state :=
  match i with
  | LoadInst r g => State (globals s) (update (regs s) r (globals s g)) (calls s)
  | StoreInst v g => State (update (globals s) g (value addr s v)) (regs s) (calls s)
  | ICmpEQ r a b => State (globals s)
      (update (regs s) r (if decide (value addr s a = value addr s b) then 1 else 0)) (calls s)
  | ICmpULT r a b => State (globals s)
      (update (regs s) r (if decide (value addr s a < value addr s b) then 1 else 0)) (calls s)
  | Add r a b => State (globals s) (update (regs s) r (value addr s a +₆₄ value addr s b)) (calls s)
  | Call c => State (globals s) (regs s) (calls s ++ [c])
  end.

(** From a label to [NewBlock].  The blocks of a guard have no cycle, so that a
    step per block is enough. *)
Fixpoint exec_blocks (fuel : nat) (bs : blocks) (addr : Z) (l : label) (s : state) : option state :=
  if decide (l = NewBlock) then Some s
  else
    match fuel with
    | O => None
    | S fuel =>
        '(insts, t) ← bs l;
        let s := foldl (exec_instruction addr) s insts in
        match t with
        | Br l => exec_blocks fuel bs addr l s
        | CondBr c ifTrue ifFalse => exec_blocks fuel bs addr (if decide (regs s c = 1) then ifTrue else ifFalse) s
        end
    end.

(** One execution of a guarded access: the globals afterwards and the calls made. *)
Definition exec (bs : blocks) (addr : Z) (g : global → Z) : option ((global → Z) * list call) :=
  s ← exec_blocks 4 bs addr OldBlock (State g (λ _, 0) []);
  Some (globals s, calls s).

(** The globals start as a null pointer, 0 and false. *)
Definition initial : global → Z := λ _, 0.

(** The calls of a sequence of executions, with the address of each. *)
Fixpoint exec_all (bs : blocks) (addrs : list Z) (g : global → Z) : option (list (Z * list call)) :=
  match addrs with
  | [] => Some []
  | a :: addrs => '(g, cs) ← exec bs a g; rest ← exec_all bs addrs g; Some ((a, cs) :: rest)
  end.

(** ** The guards *)

(** [instrumentOnlyReads]: report if the address is not that of the last report. *)
Definition instrumentOnlyReads : blocks := λ l,
  match l with
  | OldBlock => Some ([LoadInst RLoad NewAllocation; ICmpEQ RCmp Addr (Reg RLoad)],
      CondBr RCmp NewBlock WrapperBlock)
  | WrapperBlock => Some ([StoreInst Addr NewAllocation; Call AddToState], Br NewBlock)
  | _ => None
  end.

(** [instrumentDirectStateIorO]; its flag [executedOnce] is not used. *)
Definition instrumentDirectStateIorO (FSAState : operation) : blocks := λ l,
  match l with
  | OldBlock => Some ([LoadInst RLoad NewAllocation; ICmpEQ RCmp Addr (Reg RLoad)],
      CondBr RCmp NewBlock WrapperBlock)
  | WrapperBlock => Some ([StoreInst Addr NewAllocation; Call (SetState FSAState)], Br NewBlock)
  | _ => None
  end.

(** [instrumentDirectStateOorCO].  The branch of [executedWrapperBlock] is on
    [cmpInst] of the first block, not on [isExecutedOnce] computed before it. *)
Definition instrumentDirectStateOorCO : blocks := λ l,
  match l with
  | OldBlock => Some ([LoadInst RLoad NewAllocation; ICmpEQ RCmp Addr (Reg RLoad)],
      CondBr RCmp ExecutedWrapperBlock WrapperBlock)
  | WrapperBlock => Some ([StoreInst (Const 1) ExecutedOnce; StoreInst Addr NewAllocation;
      Call (SetState STATE_ADD_OUTPUT)], Br NewBlock)
  | ExecutedWrapperBlock => Some ([LoadInst RLoad2 ExecutedOnce; ICmpEQ RCmp2 (Const 1) (Reg RLoad2)],
      CondBr RCmp WrapperBlock2 NewBlock)
  | WrapperBlock2 => Some ([StoreInst (Const 0) ExecutedOnce; Call (SetState STATE_ADD_CO)], Br NewBlock)
  | _ => None
  end.

(** [instrumentLoopInvariants]: the first two executions. *)
Definition instrumentLoopInvariants : blocks := λ l,
  match l with
  | OldBlock => Some ([LoadInst RLoad CounterAllocation; ICmpULT RCmp (Reg RLoad) (Const 2)],
      CondBr RCmp WrapperBlock NewBlock)
  | WrapperBlock => Some ([Add RAdd (Reg RLoad) (Const 1); StoreInst (Reg RAdd) CounterAllocation;
      Call AddToState], Br NewBlock)
  | _ => None
  end.

(** [instrumentLoopMostlyInvariants]: the first two executions after a change of
    the address.  The store of the address is the first instruction of
    [wrapperBlock]. *)
Definition instrumentLoopMostlyInvariants : blocks := λ l,
  match l with
  | OldBlock => Some ([LoadInst RLoad NewAllocation; ICmpEQ RCmp Addr (Reg RLoad)],
      CondBr RCmp LessThan2Block ResetCounterBlock)
  | ResetCounterBlock => Some ([StoreInst (Const 0) CounterAllocation], Br WrapperBlock)
  | LessThan2Block => Some ([LoadInst RLoad2 CounterAllocation; ICmpULT RCmp2 (Reg RLoad2) (Const 2)],
      CondBr RCmp2 WrapperBlock NewBlock)
  | WrapperBlock => Some ([StoreInst Addr NewAllocation; LoadInst RLoad2 CounterAllocation;
      Add RAdd (Reg RLoad2) (Const 1); StoreInst (Reg RAdd) CounterAllocation; Call AddToState], Br NewBlock)
  | _ => None
  end.

(** [instrumentLoopMostlyInvariantsToRemove] of CatPass.cpp. *)
Definition instrumentLoopMostlyInvariantsToRemove : blocks := λ l,
  match l with
  | OldBlock => Some ([LoadInst RLoad CounterAllocation; ICmpULT RCmp (Reg RLoad) (Const 2)],
      CondBr RCmp WrapperBlock NewBlock)
  | WrapperBlock => Some ([LoadInst RLoad2 CounterAllocation; Add RAdd (Reg RLoad2) (Const 1);
      StoreInst (Reg RAdd) CounterAllocation; Call AddToState], Br NewBlock)
  | _ => None
  end.

(** ** State machines *)

(** Report on a change of address, and something else (or nothing) otherwise. *)
Fixpoint on_change (changed same : list call) (last : Z) (addrs : list Z) : list (Z * list call) :=
  match addrs with
  | [] => []
  | a :: addrs => (a, if decide (a = last) then same else changed) :: on_change changed same a addrs
  end.

(** Report the first [n] executions. *)
Fixpoint first_n (n : nat) (addrs : list Z) : list (Z * list call) :=
  match addrs with
  | [] => []
  | a :: addrs => (a, match n with O => [] | S _ => [AddToState] end) :: first_n (pred n) addrs
  end.

(** Report the first two executions of every run of one address; [n] is how many
    of the run of [last] have been reported. *)
Fixpoint first_two_of_runs (last : Z) (n : nat) (addrs : list Z) : list (Z * list call) :=
  match addrs with
  | [] => []
  | a :: addrs =>
      if decide (a = last) then
        (a, match n with O | 1%nat => [AddToState] | _ => [] end) :: first_two_of_runs last (min 2 (S n)) addrs
      else (a, [AddToState]) :: first_two_of_runs a 1 addrs
  end.

Ltac run_guard :=
  unfold exec; simpl; unfold update; simpl; repeat (case_decide; simpl; unfold update; simpl; try done).

(** ** The guards refine the machines *)

Lemma exec_all_on_change bs changed same addrs g :
  (∀ a g, ∃ g', exec bs a g = Some (g', if decide (a = g NewAllocation) then same else changed) ∧
    g' NewAllocation = a) →
  exec_all bs addrs g = Some (on_change changed same (g NewAllocation) addrs).
Proof.
  intros Hspec. revert g. induction addrs as [|a addrs IH]; intros g; [done|].
  cbn [exec_all on_change]. destruct (Hspec a g) as (g' & -> & Ha). cbn [mbind option_bind].
  rewrite IH, Ha. done.
Qed.

Lemma exec_all_first_n bs addrs g n :
  (∀ a g, ∃ g', exec bs a g = Some (g', if decide (g CounterAllocation < 2) then [AddToState] else []) ∧
    g' CounterAllocation =
      if decide (g CounterAllocation < 2) then g CounterAllocation +₆₄ 1 else g CounterAllocation) →
  (n <= 2)%nat → g CounterAllocation = 2 - Z.of_nat n → exec_all bs addrs g = Some (first_n n addrs).
Proof.
  intros Hspec. revert g n. induction addrs as [|a addrs IH]; intros g n Hn Hg; [done|].
  cbn [exec_all first_n]. destruct (Hspec a g) as (g' & -> & Ha). cbn [mbind option_bind].
  destruct n as [|n].
  - rewrite decide_False in Ha by lia. rewrite decide_False by lia. rewrite (IH g' 0%nat) by (lia || congruence). done.
  - rewrite decide_True in Ha by lia. rewrite decide_True by lia. rewrite add64_small in Ha by (unfold two64; lia).
    rewrite (IH g' n) by lia. done.
Qed.

Lemma exec_instrumentOnlyReads a g :
  ∃ g', exec instrumentOnlyReads a g = Some (g', if decide (a = g NewAllocation) then [] else [AddToState]) ∧
    g' NewAllocation = a.
Proof. run_guard; eexists; by split. Qed.

Lemma exec_instrumentDirectStateIorO c a g :
  ∃ g', exec (instrumentDirectStateIorO c) a g =
    Some (g', if decide (a = g NewAllocation) then [] else [SetState c]) ∧ g' NewAllocation = a.
Proof. run_guard; eexists; by split. Qed.

Lemma exec_instrumentDirectStateOorCO a g :
  ∃ g', exec instrumentDirectStateOorCO a g =
    Some (g', if decide (a = g NewAllocation) then [SetState STATE_ADD_CO] else [SetState STATE_ADD_OUTPUT]) ∧
    g' NewAllocation = a.
Proof. run_guard; eexists; by split. Qed.

Lemma exec_instrumentLoopInvariants a g :
  ∃ g', exec instrumentLoopInvariants a g =
    Some (g', if decide (g CounterAllocation < 2) then [AddToState] else []) ∧
    g' CounterAllocation = if decide (g CounterAllocation < 2) then g CounterAllocation +₆₄ 1 else g CounterAllocation.
Proof. run_guard; eexists; by split. Qed.

Lemma exec_instrumentLoopMostlyInvariantsToRemove a g :
  ∃ g', exec instrumentLoopMostlyInvariantsToRemove a g =
    Some (g', if decide (g CounterAllocation < 2) then [AddToState] else []) ∧
    g' CounterAllocation = if decide (g CounterAllocation < 2) then g CounterAllocation +₆₄ 1 else g CounterAllocation.
Proof. run_guard; eexists; by split. Qed.

Lemma exec_instrumentLoopMostlyInvariants a g :
  ∃ g', exec instrumentLoopMostlyInvariants a g =
    Some (g', if decide (a = g NewAllocation ∧ 2 <= g CounterAllocation) then [] else [AddToState]) ∧
    g' NewAllocation = a ∧
    g' CounterAllocation = if decide (a = g NewAllocation) then
      (if decide (g CounterAllocation < 2) then g CounterAllocation +₆₄ 1 else g CounterAllocation) else 1.
Proof.
  run_guard; try lia; try tauto; eexists; (split; [done|split; [done|]]); done.
Qed.

(** C34: what three of the guards report, in any sequence of executions.  An access
    guarded by OnlyRead is reported exactly when its address differs from that of the
    previous execution (a null pointer at first), and an input or output of
    DirectState sets its class exactly then.  The guard for an output that may be
    cloneable makes a call on every execution: it sets the class Output on a change
    of address, and the class CloneableOutput on every further execution with the
    same address, not only on the second one, for the flag [executedOnce] decides
    nothing (DirectState.cpp:472). *)
Theorem change_guards_refine addrs c :
  exec_all instrumentOnlyReads addrs initial = Some (on_change [AddToState] [] 0 addrs) ∧
  exec_all (instrumentDirectStateIorO c) addrs initial = Some (on_change [SetState c] [] 0 addrs) ∧
  exec_all instrumentDirectStateOorCO addrs initial =
    Some (on_change [SetState STATE_ADD_OUTPUT] [SetState STATE_ADD_CO] 0 addrs).
Proof.
  split; [|split]; apply exec_all_on_change.
  - apply exec_instrumentOnlyReads.
  - apply exec_instrumentDirectStateIorO.
  - apply exec_instrumentDirectStateOorCO.
Qed.

Lemma exec_all_first_two_of_runs addrs g n :
  (n <= 2)%nat → g CounterAllocation = Z.of_nat n →
  exec_all instrumentLoopMostlyInvariants addrs g = Some (first_two_of_runs (g NewAllocation) n addrs).
Proof.
  revert g n. induction addrs as [|a addrs IH]; intros g n Hn Hg; [done|].
  cbn [exec_all first_two_of_runs].
  destruct (exec_instrumentLoopMostlyInvariants a g) as (g' & -> & Hp & Hc). cbn [mbind option_bind].
  destruct (decide (a = g NewAllocation)) as [E|E].
  - rewrite (IH g' (min 2 (S n))) by (rewrite ?Hc; try case_decide; rewrite ?add64_small by (unfold two64; lia); lia).
    cbn [mbind option_bind]. do 2 f_equal; [|by rewrite Hp, E]. f_equal.
    destruct (decide (a = g NewAllocation ∧ 2 <= g CounterAllocation)) as [[_ H2]|H2].
    + destruct n as [|[|n]]; [lia|lia|done].
    + destruct n as [|[|n]]; [done|done|lia].
  - rewrite (IH g' 1%nat) by (rewrite ?Hc; lia). rewrite decide_False by tauto. by rewrite Hp.
Qed.

(** The counting guards.  An invariant access is reported the first two times
    it executes in the whole run; a mostly invariant one the first two times of
    every run of executions with one address. *)
Theorem counting_guards_refine addrs :
  exec_all instrumentLoopInvariants addrs initial = Some (first_n 2 addrs) ∧
  exec_all instrumentLoopMostlyInvariantsToRemove addrs initial = Some (first_n 2 addrs) ∧
  exec_all instrumentLoopMostlyInvariants addrs initial = Some (first_two_of_runs 0 0 addrs).
Proof.
  split; [|split].
  - apply exec_all_first_n; [apply exec_instrumentLoopInvariants|done|done].
  - apply exec_all_first_n; [apply exec_instrumentLoopMostlyInvariantsToRemove|done|done].
  - apply (exec_all_first_two_of_runs addrs initial 0); [lia|done].
Qed.

(** ** The classes *)

(** The executions of an invocation that are reported, with the address of the
    last execution before it. *)
Definition was_reported (e : Z * list call) : bool := match e.2 with [] => false | _ => true end.

Fixpoint reported_loads (last_addr : Z) (invs : list (list Z)) : list (list (Z * bool)) :=
  match invs with
  | [] => []
  | inv :: invs =>
      ((λ e, (e.1, false)) <$> filter (λ e, was_reported e = true) (on_change [AddToState] [] last_addr inv)) ::
      reported_loads (default last_addr (last inv)) invs
  end.

Definition all_loads (invs : list (list Z)) : list (list (Z * bool)) :=
  (λ inv : list Z, (λ a, (a, false)) <$> inv) <$> invs.

Lemma classify_only_reads its : Forall (Forall (λ w, w = false)) its → its ≠ [] → classify its = Some STATE_ADD_INPUT.
Proof.
  intros H Hne. destruct its as [|it its]; [done|]. unfold classify.
  assert (starts_with_write it = false) as ->.
  { apply Forall_cons in H as [Hit _]. unfold starts_with_write. destruct Hit as [|w it -> _]; done. }
  assert (existsb has_write (it :: its) = false) as ->; [|done].
  apply not_true_is_false. rewrite existsb_exists. intros (x & Hx & Hw). unfold has_write in Hw.
  apply existsb_exists in Hw as (w & Hin & ->). rewrite Forall_forall in H. specialize (H x).
  rewrite list_elem_of_In in H. specialize (H Hx). rewrite Forall_forall in H.
  by specialize (H true ltac:(by apply list_elem_of_In)).
Qed.

Lemma history_reads p invs :
  Forall (Forall (λ a : Z * bool, a.2 = false)) invs → Forall (Forall (λ w, w = false)) (history p invs).
Proof.
  intros H. unfold history. apply Forall_forall. intros it Hit. apply list_elem_of_filter in Hit as [_ Hit].
  apply list_elem_of_fmap in Hit as (accs & -> & Hin). rewrite Forall_forall in H. specialize (H accs Hin).
  unfold project. apply Forall_fmap. apply Forall_forall. intros a Ha. apply list_elem_of_filter in Ha as [_ Ha].
  rewrite Forall_forall in H. by apply H.
Qed.

Lemma history_nil p invs : history p invs = [] ↔ ∀ accs a, accs ∈ invs → a ∈ accs → a.1 ≠ p.
Proof.
  unfold history, project. induction invs as [|accs invs IH]; [split; [set_solver|done]|].
  rewrite fmap_cons, filter_cons. case_decide as Hd.
  - split; [done|]. intros H. exfalso. apply Hd.
    destruct (filter (λ a : Z * bool, a.1 = p) accs) as [|a l] eqn:E; [done|]. exfalso.
    assert (a ∈ filter (λ a : Z * bool, a.1 = p) accs) as Ha by (rewrite E; set_solver).
    apply list_elem_of_filter in Ha as [Hp Ha]. by apply (H accs a); [set_solver| |].
  - rewrite IH. assert (filter (λ a : Z * bool, a.1 = p) accs = []) as Hnil.
    { destruct (filter (λ a : Z * bool, a.1 = p) accs) as [|a l]; [done|]. done. }
    split.
    + intros H accs' a Hin Ha. apply elem_of_cons in Hin as [->|Hin]; [|by apply (H accs')].
      intros Hp. assert (a ∈ filter (λ a : Z * bool, a.1 = p) accs) as Hf by (by apply list_elem_of_filter).
      rewrite Hnil in Hf. by apply elem_of_nil in Hf.
    + intros H accs' a Hin Ha. apply (H accs'); [set_solver|done].
Qed.

(** The first execution with an address is reported. *)
Lemma on_change_first p last_addr addrs :
  p ≠ last_addr → p ∈ addrs →
  ∃ e, e ∈ on_change [AddToState] [] last_addr addrs ∧ e.1 = p ∧ was_reported e = true.
Proof.
  revert last_addr. induction addrs as [|a addrs IH]; intros last_addr Hne Hp; [by apply elem_of_nil in Hp|].
  cbn [on_change]. destruct (decide (p = a)) as [<-|Hpa].
  - eexists. split; [by apply list_elem_of_here|]. simpl. by rewrite decide_False by done.
  - apply elem_of_cons in Hp as [?|Hp]; [done|]. destruct (IH a Hpa Hp) as (e & He & Ep & Hr).
    exists e. split; [by apply list_elem_of_further|done].
Qed.

Lemma reported_loads_reads last_addr invs : Forall (Forall (λ a : Z * bool, a.2 = false)) (reported_loads last_addr invs).
Proof.
  revert last_addr. induction invs as [|inv invs IH]; intros last_addr; [constructor|].
  constructor; [|apply IH]. apply Forall_fmap, Forall_forall. done.
Qed.

Lemma on_change_addrs l1 l2 last_addr addrs : (on_change l1 l2 last_addr addrs).*1 = addrs.
Proof. revert last_addr. induction addrs as [|a addrs IH]; intros; simpl; [done|]. by rewrite IH. Qed.

Lemma reported_loads_elem p last_addr invs :
  p ≠ last_addr →
  (∃ accs a, accs ∈ reported_loads last_addr invs ∧ a ∈ accs ∧ a.1 = p) ↔ (∃ inv, inv ∈ invs ∧ p ∈ inv).
Proof.
  intros Hne. split.
  - intros (accs & a & Hin & Ha & <-). clear Hne. revert last_addr Hin.
    induction invs as [|inv invs IH]; intros last_addr Hin; [by apply elem_of_nil in Hin|].
    cbn [reported_loads] in Hin. apply elem_of_cons in Hin as [->|Hin].
    + exists inv. split; [set_solver|]. apply list_elem_of_fmap in Ha as (e & -> & He).
      apply list_elem_of_filter in He as [_ He]. simpl. rewrite <- (on_change_addrs [AddToState] [] last_addr inv).
      by apply list_elem_of_fmap_2.
    + destruct (IH _ Hin) as (inv' & Hi & Hp). exists inv'. split; [set_solver|done].
  - intros (inv & Hin & Hp). revert last_addr Hne. induction invs as [|inv' invs IH]; intros last_addr Hne.
    { by apply elem_of_nil in Hin. }
    cbn [reported_loads]. destruct (decide (p ∈ inv')) as [Hp'|Hp'].
    + destruct (on_change_first p last_addr inv' Hne Hp') as (e & He & Ee & Hr).
      eexists _, (e.1, false). split; [by apply list_elem_of_here|]. split; [|done].
      apply list_elem_of_fmap. exists e. split; [done|]. by apply list_elem_of_filter.
    + apply elem_of_cons in Hin as [->|Hin]; [done|].
      destruct (IH Hin (default last_addr (last inv'))) as (accs & a & Ha & Hx).
      * destruct (last inv') as [x|] eqn:El; [|done]. simpl. intros ->. apply Hp'. by apply last_Some_elem_of.
      * exists accs, a. split; [by apply list_elem_of_further|done].
Qed.

(** The OnlyRead guard is enough for addresses that are only read: over any
    number of invocations, the loads it reports give every address the class that
    all the loads give it. *)
Theorem onlyRead_keeps_class p invs :
  p ≠ 0 → classify (history p (reported_loads 0 invs)) = classify (history p (all_loads invs)).
Proof.
  intros Hp.
  assert (Forall (Forall (λ a : Z * bool, a.2 = false)) (all_loads invs)) as Hall.
  { apply Forall_fmap, Forall_forall. intros inv _. by apply Forall_fmap, Forall_forall. }
  pose proof (history_reads p _ Hall) as H1. pose proof (history_reads p _ (reported_loads_reads 0 invs)) as H2.
  assert (history p (reported_loads 0 invs) = [] ↔ history p (all_loads invs) = []) as Hiff.
  { rewrite !history_nil. pose proof (reported_loads_elem p 0 invs Hp) as He. split.
    - intros H accs a Hin Ha Ep. apply list_elem_of_fmap in Hin as (inv & -> & Hin).
      apply list_elem_of_fmap in Ha as (x & -> & Hx). simpl in Ep. subst x.
      destruct (proj2 He (ex_intro _ inv (conj Hin Hx))) as (accs & a & ? & ? & ?). by apply (H accs a).
    - intros H accs a Hin Ha Ep. destruct (proj1 He) as (inv & Hi & Hpi); [by exists accs, a|].
      apply (H ((λ a, (a, false)) <$> inv) (p, false)); [by apply list_elem_of_fmap_2| |done].
      by apply (list_elem_of_fmap_2 (λ a, (a, false))). }
  destruct (decide (history p (all_loads invs) = [])) as [E|E].
  - rewrite E. apply Hiff in E. by rewrite E.
  - rewrite (classify_only_reads _ H1 E). apply classify_only_reads; [done|]. tauto.
Qed.

Lemma onlyRead_keeps_class_witness :
  64 ≠ 0 ∧ classify (history 64 (reported_loads 0 [[64; 64]; [64]; [72; 64]])) =
    classify (history 64 (all_loads [[64; 64]; [64]; [72; 64]])) ∧
  reported_loads 0 [[64; 64]; [64]; [72; 64]] = [[(64, false)]; []; [(72, false); (64, false)]].
Proof.
  split; [lia|]. split; [apply (onlyRead_keeps_class 64 [[64; 64]; [64]; [72; 64]]); lia|reflexivity].
Defined.

(** The guard of an invariant store uses up its two reports in an invocation that
    stores twice; the overwriting by the next invocation goes unseen, and the
    address is an output instead of a cloneable output. *)
Lemma invariant_guard_loses_overwriting :
  let stores := [[64; 64]; [64]] in
  let all := (λ inv : list Z, (λ a, (a, true)) <$> inv) <$> stores in
  let reported := [[(64, true); (64, true)]; []] in
  exec_all instrumentLoopInvariants (concat stores) initial =
    Some [(64, [AddToState]); (64, [AddToState]); (64, [])] ∧
  classify (history 64 all) = Some STATE_ADD_CO ∧ classify (history 64 reported) = Some STATE_ADD_OUTPUT.
Proof. cbv zeta. split; [|split]; vm_compute; reflexivity. Qed.
