(* ===== verification/Visitor.v ===== *)
(** * Visitor.v: what the pass finds in a module

    The module as the pass sees it, and the first half of src/src/CatPass.cpp:
    [MyInstVisitor] collects allocations, accesses, calls and returns, [getGlobals]
    the global variables, [filterLibraryCalls] the library calls PIN has to watch;
    [number] gives every entry its identifier and its record in the file of
    DebugInfo.v.  LLVM is a parameter: an instruction carries the answers to what
    the pass asks of it. *)

From stdpp Require Import pretty.
From S2P Require Import Prelude Helpers OrdMap Objects AllocTable ConnGraph Commit CleanBatch Shadow Batch.
From S2P Require Import Memory Callstack UniqueIds Wrapper RunData PostProcess DebugInfo Types.
From Stdlib Require Import Ascii.

(** ** Modules *)

(** A [Value*] is known by its identity. *)
Inductive value := Inst (id : Z) | GlobalVar (id : Z) | OtherValue (id : Z).

#[global] Instance value_dec : EqDecision value.
Proof. solve_decision. Defined.

Record DILocation := MkLoc {
  di_directory : list ascii; di_filename : list ascii; di_line : Z; di_column : Z
}.

(** What the search for the [llvm.dbg.declare] of an alloca ends in. *)
Inductive dbg_declare :=
  | NoDeclare
  | NotAVariable
  | LocalVariable (directory filename name : list ascii) (line : Z).

Inductive opcode :=
  | CallInst (callee : option string) (operands : list value)
  | InvokeInst (callee : option string) (operands : list value) (normalDest unwindDest : string)
  | LoadInst (pointerOperand : value)
  | StoreInst (valueOperand pointerOperand : value) (isPointer : bool) (scalarSizeInBits primitiveSizeInBits : Z)
  | AllocaInst (allocatedType : llvm_type)
  | ReturnInst
  | PHINode
  | OtherInst (isTerminator : bool).

Record inst := MkInst { i_id : Z; i_op : opcode; i_loc : option DILocation; i_dbg : dbg_declare }.

Record block := MkBlock { b_name : string; b_insts : list inst }.

(** A function without blocks is a declaration. *)
Record func := MkFunc {
  f_name : string; f_blocks : list block; f_isIntrinsic : bool; f_hasOptimizeLocals : bool
}.

Record global := MkGlobal {
  g_id : Z; g_name : string; g_isPointerTy : bool; g_valueType : llvm_type;
  g_debug : option (list ascii * list ascii * list ascii * Z)
}.

Record modul := MkModule { m_functions : list func; m_globals : list global }.

Definition f_insts (f : func) : list inst := concat (b_insts <$> f_blocks f).

Definition getFunction (M : modul) (name : string) : option func :=
  list_find (λ f, f_name f = name) (m_functions M) ≫= λ x, Some x.2.

Definition path_to_file (directory filename : list ascii) : list ascii := directory ++ text "/" ++ filename.

(** ** Entries *)

(** [Entry]: the LLVM values of an entry, with the part of DebugInfo.v.  The value
    is an instruction or a global variable; [en_function] is the function the
    instruction is in. *)
Record entry := MkIEntry {
  en_value : value;
  en_function : string;
  en_allocPointer : option value;
  en_allocNewPointer : option value;
  en_allocSize : option value;
  en_allocNumElems : option value;
  en_size : Z;
  en_sizeElement : Z;
  en_debug : Entry;
}.

Definition set_debug (d : Entry) (e : entry) : entry :=
  MkIEntry (en_value e) (en_function e) (en_allocPointer e) (en_allocNewPointer e) (en_allocSize e)
    (en_allocNumElems e) (en_size e) (en_sizeElement e) d.

(** ** The visitor *)

(** [enum AllocFunctions] and the map [functionCalls]. *)
Inductive AllocFunctions :=
  | _malloc | _calloc | _realloc | _jemalloc | _mmap | _mremap | _new | _munmap | _delete | _free | _unknown.

Definition functionCalls (name : string) : AllocFunctions :=
  if decide (name = "malloc") then _malloc
  else if decide (name = "calloc") then _calloc
  else if decide (name = "realloc") then _realloc
  else if decide (name = "jemalloc") then _jemalloc
  else if decide (name = "mmap") then _mmap
  else if decide (name = "mremap") then _mremap
  else if decide (name = "_Znwm") then _new
  else if decide (name = "munmap") then _munmap
  else if decide (name = "_ZdlPv") then _delete
  else if decide (name = "free") then _free
  else _unknown.

Definition MEMORYTOOL_START_TRACKING : string := "caratGetStateWrapper".
Definition MEMORYTOOL_STOP_TRACKING : string := "caratReportStateWrapper".
Definition MEMORYTOOL_CONTEXT : string := "endStateInvocationWrapper".
Definition MEMORYTOOL_PROLOGUE : string := "_Z8prologueiiiiiiii".
Definition MEMORYTOOL_EPILOGUE : string := "_Z16PrintJSONWrapperv".

Definition knowns : list string :=
  [MEMORYTOOL_START_TRACKING; MEMORYTOOL_STOP_TRACKING; MEMORYTOOL_PROLOGUE; MEMORYTOOL_EPILOGUE; MEMORYTOOL_CONTEXT].

(** The vectors of [MyInstVisitor]; returns, invokes and deallocations with the
    function they are in. *)
Record visitor := MkVisitor {
  callsToStartTracking : list inst;
  returns : list (string * inst);
  invokes : list (string * inst);
  escapes : list (string * inst);
  deallocs : list (string * inst);
  loads : list entry;
  stores : list entry;
  allocations : list entry;
  callocs : list entry;
  reallocs : list entry;
  unknowns : list entry;
  functionAllocaMap : gmap string (list value);
}.

Definition empty_visitor : visitor := MkVisitor [] [] [] [] [] [] [] [] [] [] [] ∅.

Definition push_start i v := MkVisitor (callsToStartTracking v ++ [i]) (returns v) (invokes v) (escapes v) (deallocs v)
  (loads v) (stores v) (allocations v) (callocs v) (reallocs v) (unknowns v) (functionAllocaMap v).
Definition push_return r v := MkVisitor (callsToStartTracking v) (returns v ++ [r]) (invokes v) (escapes v) (deallocs v)
  (loads v) (stores v) (allocations v) (callocs v) (reallocs v) (unknowns v) (functionAllocaMap v).
Definition push_invoke r v := MkVisitor (callsToStartTracking v) (returns v) (invokes v ++ [r]) (escapes v) (deallocs v)
  (loads v) (stores v) (allocations v) (callocs v) (reallocs v) (unknowns v) (functionAllocaMap v).
Definition push_escape r v := MkVisitor (callsToStartTracking v) (returns v) (invokes v) (escapes v ++ [r]) (deallocs v)
  (loads v) (stores v) (allocations v) (callocs v) (reallocs v) (unknowns v) (functionAllocaMap v).
Definition push_dealloc r v := MkVisitor (callsToStartTracking v) (returns v) (invokes v) (escapes v) (deallocs v ++ [r])
  (loads v) (stores v) (allocations v) (callocs v) (reallocs v) (unknowns v) (functionAllocaMap v).
Definition push_load e v := MkVisitor (callsToStartTracking v) (returns v) (invokes v) (escapes v) (deallocs v)
  (loads v ++ [e]) (stores v) (allocations v) (callocs v) (reallocs v) (unknowns v) (functionAllocaMap v).
Definition push_store e v := MkVisitor (callsToStartTracking v) (returns v) (invokes v) (escapes v) (deallocs v)
  (loads v) (stores v ++ [e]) (allocations v) (callocs v) (reallocs v) (unknowns v) (functionAllocaMap v).
Definition push_allocation e v := MkVisitor (callsToStartTracking v) (returns v) (invokes v) (escapes v) (deallocs v)
  (loads v) (stores v) (allocations v ++ [e]) (callocs v) (reallocs v) (unknowns v) (functionAllocaMap v).
Definition push_calloc e v := MkVisitor (callsToStartTracking v) (returns v) (invokes v) (escapes v) (deallocs v)
  (loads v) (stores v) (allocations v) (callocs v ++ [e]) (reallocs v) (unknowns v) (functionAllocaMap v).
Definition push_realloc e v := MkVisitor (callsToStartTracking v) (returns v) (invokes v) (escapes v) (deallocs v)
  (loads v) (stores v) (allocations v) (callocs v) (reallocs v ++ [e]) (unknowns v) (functionAllocaMap v).
Definition push_unknown e v := MkVisitor (callsToStartTracking v) (returns v) (invokes v) (escapes v) (deallocs v)
  (loads v) (stores v) (allocations v) (callocs v) (reallocs v) (unknowns v ++ [e]) (functionAllocaMap v).
Definition push_alloca f a v := MkVisitor (callsToStartTracking v) (returns v) (invokes v) (escapes v) (deallocs v)
  (loads v) (stores v) (allocations v) (callocs v) (reallocs v) (unknowns v)
  (<[f := default [] (functionAllocaMap v !! f) ++ [a]]> (functionAllocaMap v)).

Section visitor.
  Context (M : modul) (pointerTypeSize : Z).
  Context (functionsToInstrumentAllocaInst functionsToInstrumentLoadStore : gset string) (touchesToSkip : gset Z).

(** [visitCallInvokeInst].  Only calls of declared functions that are no
    intrinsics, and only with a source position. *)
Definition visitCallInvokeInst (F : string) (callee : option string) (operands : list value) (isInvoke : bool)
    (i : inst) (v : visitor) : option visitor :=
  match callee with
  | None => Some v
  | Some funcName =>
      fp ← getFunction M funcName;
      match f_blocks fp with
      | _ :: _ => Some v
      | [] =>
        if f_isIntrinsic fp then Some v
        else
          match i_loc i with
          | None => Some v
          | Some loc =>
              let debug := MkEntry (path_to_file (di_directory loc) (di_filename loc)) [] (di_line loc) (di_column loc) 0 in
              let inst := Inst (i_id i) in
              let e ptr newptr size num := MkIEntry inst F ptr newptr size num 0 0 debug in
              v ← match functionCalls funcName with
                | _malloc | _new => s ← operands !! 0%nat; Some (push_allocation (e (Some inst) None (Some s) None) v)
                | _mmap => s ← operands !! 1%nat; Some (push_allocation (e (Some inst) None (Some s) None) v)
                | _calloc => s ← operands !! 1%nat; n ← operands !! 0%nat;
                    Some (push_calloc (e (Some inst) None (Some s) (Some n)) v)
                | _realloc => p ← operands !! 0%nat; s ← operands !! 1%nat;
                    Some (push_realloc (e (Some p) (Some inst) (Some s) None) v)
                | _mremap => p ← operands !! 0%nat; s ← operands !! 2%nat;
                    Some (push_realloc (e (Some p) (Some inst) (Some s) None) v)
                | _munmap | _free | _delete => Some (push_dealloc (F, i) v)
                | _ =>
                    if decide (funcName ∈ knowns) then
                      Some (if decide (funcName = MEMORYTOOL_START_TRACKING) then push_start i v else v)
                    else Some (push_unknown (e None None None None) v)
                end;
              Some (if isInvoke then push_invoke (F, i) v else v)
          end
      end
  end.

(** The source position of a load or store; without one it is unknown. *)
Definition access_debug (i : inst) : Entry :=
  match i_loc i with
  | Some loc => MkEntry (path_to_file (di_directory loc) (di_filename loc)) [] (di_line loc) (di_column loc) 0
  | None => MkEntry (text "UnknownPathToFile") [] 0 0 0
  end.

Definition visitLoadInst (F : string) (pointerOperand : value) (i : inst) (v : visitor) : visitor :=
  if decide (F ∉ functionsToInstrumentLoadStore) then v
  else if decide (i_id i ∈ touchesToSkip) then v
  else push_load (MkIEntry (Inst (i_id i)) F (Some pointerOperand) None None None 0 0 (access_debug i)) v.

Definition visitStoreInst (F : string) (pointerOperand : value) (isPointer : bool)
    (scalarSizeInBits primitiveSizeInBits : Z) (i : inst) (v : visitor) : visitor :=
  let v := if isPointer then push_escape (F, i) v else v in
  if decide (F ∉ functionsToInstrumentLoadStore) then v
  else if decide (i_id i ∈ touchesToSkip) then v
  else push_store (MkIEntry (Inst (i_id i)) F (Some pointerOperand) None None None
    (primitiveSizeInBits / 8) (scalarSizeInBits / 8) (access_debug i)) v.

Definition visitAllocaInst (F : string) (allocatedType : llvm_type) (i : inst) (v : visitor) : option visitor :=
  if decide (F ∉ functionsToInstrumentAllocaInst) then Some v
  else
    let size := variable_size pointerTypeSize allocatedType in
    let push debug :=
      push_alloca F (Inst (i_id i))
        (push_allocation (MkIEntry (Inst (i_id i)) F (Some (Inst (i_id i))) None None None size 0 debug) v) in
    match i_loc i with
    | Some loc => Some (push (MkEntry (path_to_file (di_directory loc) (di_filename loc))
        (text "UnavailableVariableName") (di_line loc) (di_column loc) 0))
    | None =>
        match i_dbg i with
        | NoDeclare => Some v
        | NotAVariable => None
        | LocalVariable directory filename name line =>
            Some (push (MkEntry (path_to_file directory filename) name line 0 0))
        end
    end.

(** The dispatch of [InstVisitor]. *)
Definition visit_inst (F : string) (v : visitor) (i : inst) : option visitor :=
  match i_op i with
  | CallInst callee operands => visitCallInvokeInst F callee operands false i v
  | InvokeInst callee operands _ _ => visitCallInvokeInst F callee operands true i v
  | LoadInst p => Some (visitLoadInst F p i v)
  | StoreInst _ p isPointer scalar primitive => Some (visitStoreInst F p isPointer scalar primitive i v)
  | AllocaInst t => visitAllocaInst F t i v
  | ReturnInst => Some (push_return (F, i) v)
  | _ => Some v
  end.

(** [IV.visit(M)] *)
Definition visit : option visitor :=
  mfoldl (λ v f, mfoldl (visit_inst (f_name f)) v (f_insts f)) empty_visitor (m_functions M).

(** [getGlobals]: appended to the allocations. *)
Definition getGlobals : list entry :=
  omap (λ g,
    if decide (g_name g = "llvm.global_ctors") then None
    else if g_isPointerTy g then
      '(directory, filename, name, line) ← g_debug g;
      Some (MkIEntry (GlobalVar (g_id g)) "" (Some (GlobalVar (g_id g))) None None None
        (variable_size pointerTypeSize (g_valueType g)) 0
        (MkEntry (path_to_file directory filename) name line 0 0))
    else None) (m_globals M).

(** [filterLibraryCalls]; a call without a known callee aborts. *)
Definition funcNamesToSkip : list string :=
  ["fprintf"; "fwrite"; "printf"; "fflush"; "exit"; "strcmp"; "atoi"; "fopen"; "fgetc_unlocked"; "fclose"; "fread";
   "puts"; "stat"; "__iso99_sscanf"; "atof"; "sprintf"; "__iso99_fscanf"; "fgets"; "perror"; "getc"; "strlen";
   "strncmp"; "fputc"; "ftell"; "fseek"; "feof"; "strtol"; "putchar"; "__errno_location"; "omp_get_max_threads";
   "omp_set_max_threads"; "strerror"; "vprintf"; "snprintf"; "vsnprintf"].

Definition filterLibraryCalls (getCalledFunction : value → option string) (isTheLibraryFunctionPure : string → bool)
    (unknowns : list entry) : option (list entry) :=
  mfoldl (λ filtered e,
    funcName ← getCalledFunction (en_value e);
    Some (if isTheLibraryFunctionPure funcName then filtered
      else if decide (funcName ∈ funcNamesToSkip) then filtered
      else filtered ++ [e])) [] unknowns.

(** [findFunctionsToInstrument] of AvoidLocalVariableInstrumentation.cpp. *)
Definition findFunctionsToInstrument : gset string :=
  list_to_set (f_name <$> filter (λ f, f_hasOptimizeLocals f = true) (m_functions M)).
End visitor.

(** ** Identifiers

    The vectors in the order in which they are numbered; each entry gets its
    identifier in place. *)
Definition allEntries (v : visitor) : list (list entry) :=
  [allocations v; callocs v; reallocs v; unknowns v; stores v; loads v].

Definition number (all : list (list entry)) : option (list (list entry) * list DebugData) :=
  '(numbered, debugData) ← createDebugData ((λ es : list entry, en_debug <$> es) <$> all) [];
  Some (zip_with (zip_with set_debug) numbered all, debugData).

(** ** What is collected

    The instructions of the module in order, with the functions they are in, and
    what each of them contributes to the vectors. *)
Definition all_insts (M : modul) : list (string * inst) :=
  concat ((λ f, (λ i, (f_name f, i)) <$> f_insts f) <$> m_functions M).

Definition call_of (i : inst) : option (string * list value) :=
  match i_op i with
  | CallInst (Some callee) operands | InvokeInst (Some callee) operands _ _ => Some (callee, operands)
  | _ => None
  end.

(** A call of a library function with a source position. *)
Definition library_call (M : modul) (i : inst) : option (string * list value * DILocation) :=
  '(callee, operands) ← call_of i; fp ← getFunction M callee; loc ← i_loc i;
  if decide (f_blocks fp = [] ∧ f_isIntrinsic fp = false) then Some (callee, operands, loc) else None.

Definition loc_debug (loc : DILocation) : Entry :=
  MkEntry (path_to_file (di_directory loc) (di_filename loc)) [] (di_line loc) (di_column loc) 0.

Section spec.
  Context (M : modul) (pointerTypeSize : Z).
  Context (allocaFunctions accessFunctions : gset string) (touchesToSkip : gset Z).

Definition load_entry (Fi : string * inst) : option entry :=
  match i_op Fi.2 with
  | LoadInst p =>
      if decide (Fi.1 ∈ accessFunctions ∧ i_id Fi.2 ∉ touchesToSkip) then
        Some (MkIEntry (Inst (i_id Fi.2)) Fi.1 (Some p) None None None 0 0 (access_debug Fi.2))
      else None
  | _ => None
  end.

Definition store_entry (Fi : string * inst) : option entry :=
  match i_op Fi.2 with
  | StoreInst _ p _ scalar primitive =>
      if decide (Fi.1 ∈ accessFunctions ∧ i_id Fi.2 ∉ touchesToSkip) then
        Some (MkIEntry (Inst (i_id Fi.2)) Fi.1 (Some p) None None None (primitive / 8) (scalar / 8) (access_debug Fi.2))
      else None
  | _ => None
  end.

(** The block an allocation makes: [malloc], [new], [mmap] and the allocas. *)
Definition allocation_entry (Fi : string * inst) : option entry :=
  match i_op Fi.2 with
  | AllocaInst t =>
      if decide (Fi.1 ∈ allocaFunctions) then
        debug ← match i_loc Fi.2, i_dbg Fi.2 with
          | Some loc, _ => Some (MkEntry (path_to_file (di_directory loc) (di_filename loc))
              (text "UnavailableVariableName") (di_line loc) (di_column loc) 0)
          | None, LocalVariable d f name line => Some (MkEntry (path_to_file d f) name line 0 0)
          | None, _ => None
          end;
        Some (MkIEntry (Inst (i_id Fi.2)) Fi.1 (Some (Inst (i_id Fi.2))) None None None
          (variable_size pointerTypeSize t) 0 debug)
      else None
  | _ =>
      '(callee, operands, loc) ← library_call M Fi.2;
      size ← match functionCalls callee with
        | _malloc | _new => operands !! 0%nat
        | _mmap => operands !! 1%nat
        | _ => None
        end;
      Some (MkIEntry (Inst (i_id Fi.2)) Fi.1 (Some (Inst (i_id Fi.2))) None (Some size) None 0 0 (loc_debug loc))
  end.

(** The blocks of [calloc], the moves of [realloc] and [mremap], and the calls of a
    library function that is none the visitor knows. *)
Definition calloc_entry (Fi : string * inst) : option entry :=
  '(callee, operands, loc) ← library_call M Fi.2;
  match functionCalls callee with
  | _calloc =>
      size ← operands !! 1%nat; num ← operands !! 0%nat;
      Some (MkIEntry (Inst (i_id Fi.2)) Fi.1 (Some (Inst (i_id Fi.2))) None (Some size) (Some num) 0 0 (loc_debug loc))
  | _ => None
  end.

Definition realloc_entry (Fi : string * inst) : option entry :=
  '(callee, operands, loc) ← library_call M Fi.2;
  size_at ← match functionCalls callee with _realloc => Some 1%nat | _mremap => Some 2%nat | _ => None end;
  old ← operands !! 0%nat; size ← operands !! size_at;
  Some (MkIEntry (Inst (i_id Fi.2)) Fi.1 (Some old) (Some (Inst (i_id Fi.2))) (Some size) None 0 0 (loc_debug loc)).

Definition unknown_entry (Fi : string * inst) : option entry :=
  '(callee, _, loc) ← library_call M Fi.2;
  match functionCalls callee with
  | _jemalloc | _unknown =>
      if decide (callee ∈ knowns) then None
      else Some (MkIEntry (Inst (i_id Fi.2)) Fi.1 None None None None 0 0 (loc_debug loc))
  | _ => None
  end.

Definition dealloc_call (Fi : string * inst) : option (string * inst) :=
  '(callee, _, _) ← library_call M Fi.2;
  match functionCalls callee with _munmap | _free | _delete => Some Fi | _ => None end.

Definition return_inst (Fi : string * inst) : option (string * inst) :=
  match i_op Fi.2 with ReturnInst => Some Fi | _ => None end.

Definition alloca_value (F : string) (Fi : string * inst) : option value :=
  match i_op Fi.2 with
  | AllocaInst _ => if decide (Fi.1 = F) then en_value <$> allocation_entry Fi else None
  | _ => None
  end.

Lemma visit_fold :
  visit M pointerTypeSize allocaFunctions accessFunctions touchesToSkip =
  mfoldl (λ v Fi, visit_inst M pointerTypeSize allocaFunctions accessFunctions touchesToSkip Fi.1 v Fi.2)
    empty_visitor (all_insts M).
Proof.
  unfold visit, all_insts. generalize empty_visitor. induction (m_functions M) as [|f fs IH]; intros v; [done|].
  rewrite fmap_cons. cbn [mfoldl concat]. rewrite mfoldl_app.
  assert (∀ v, mfoldl (λ v Fi, visit_inst M pointerTypeSize allocaFunctions accessFunctions touchesToSkip Fi.1 v Fi.2) v
    ((λ i, (f_name f, i)) <$> f_insts f) =
    mfoldl (visit_inst M pointerTypeSize allocaFunctions accessFunctions touchesToSkip (f_name f)) v (f_insts f)) as ->.
  { clear. induction (f_insts f) as [|i l IH]; intros v; [done|]. rewrite fmap_cons. cbn [mfoldl fst snd].
    destruct (visit_inst _ _ _ _ _ _ _ _); [apply IH|done]. }
  destruct (mfoldl _ v (f_insts f)); [apply IH|done].
Qed.

(** What one instruction adds. *)
Record adds (Fi : string * inst) (v v' : visitor) : Prop := {
  add_loads : loads v' = loads v ++ option_list (load_entry Fi);
  add_stores : stores v' = stores v ++ option_list (store_entry Fi);
  add_allocations : allocations v' = allocations v ++ option_list (allocation_entry Fi);
  add_deallocs : deallocs v' = deallocs v ++ option_list (dealloc_call Fi);
  add_returns : returns v' = returns v ++ option_list (return_inst Fi);
  add_allocas : ∀ F, default [] (functionAllocaMap v' !! F) =
    default [] (functionAllocaMap v !! F) ++ option_list (alloca_value F Fi);
}.

Ltac adds_nothing := split; simpl; by rewrite ?app_nil_r.

Lemma visitCallInvokeInst_adds F callee operands isInvoke i v v' :
  i_op i = CallInst callee operands ∨ (∃ d u, i_op i = InvokeInst callee operands d u) →
  visitCallInvokeInst M F callee operands isInvoke i v = Some v' → adds (F, i) v v'.
Proof.
  intros Hop H. unfold visitCallInvokeInst in H.
  assert (load_entry (F, i) = None ∧ store_entry (F, i) = None ∧ return_inst (F, i) = None ∧
    ∀ G, alloca_value G (F, i) = None) as (El & Es & Er & Ea).
  { unfold load_entry, store_entry, return_inst, alloca_value. simpl.
    destruct Hop as [-> | (d & u & ->)]; done. }
  assert (call_of i = match callee with Some c => Some (c, operands) | None => None end) as Ecall.
  { unfold call_of. by destruct Hop as [-> | (d & u & ->)]; destruct callee. }
  assert (allocation_entry (F, i) = '(callee, operands, loc) ← library_call M i;
      size ← match functionCalls callee with _malloc | _new => operands !! 0%nat | _mmap => operands !! 1%nat | _ => None end;
      Some (MkIEntry (Inst (i_id i)) F (Some (Inst (i_id i))) None (Some size) None 0 0 (loc_debug loc))) as Ealloc.
  { unfold allocation_entry. simpl. by destruct Hop as [-> | (d & u & ->)]. }
  assert (library_call M i = None → v' = v → adds (F, i) v v') as Hnone.
  { intros Hl ->. unfold dealloc_call in *. rewrite Hl in Ealloc.
    split; simpl; rewrite ?El, ?Es, ?Er, ?Ealloc; unfold dealloc_call; simpl; rewrite ?Hl; simpl;
      [by rewrite app_nil_r..|]. intros G. by rewrite Ea, app_nil_r. }
  destruct callee as [callee|]; [|injection H as <-; apply Hnone; [|done]; unfold library_call; by rewrite Ecall].
  apply bind_Some in H as (fp & Hfp & H).
  assert (library_call M i = loc ← i_loc i;
    if decide (f_blocks fp = [] ∧ f_isIntrinsic fp = false) then Some (callee, operands, loc) else None) as Elib.
  { unfold library_call. by rewrite Ecall; simpl; rewrite Hfp. }
  destruct (f_blocks fp) as [|b bs] eqn:Eb.
  2:{ injection H as <-. apply Hnone; [|done]. rewrite Elib. destruct (i_loc i); [|done].
    cbn [mbind option_bind]. case_decide; naive_solver. }
  destruct (f_isIntrinsic fp) eqn:Ei.
  { injection H as <-. apply Hnone; [|done]. rewrite Elib. destruct (i_loc i); [|done].
    cbn [mbind option_bind]. case_decide; naive_solver. }
  destruct (i_loc i) as [loc|]; [|injection H as <-; by apply Hnone].
  cbn [mbind option_bind] in Elib. rewrite decide_True in Elib by done.
  rewrite Elib in Ealloc. cbn [mbind option_bind] in Ealloc.
  assert (dealloc_call (F, i) = match functionCalls callee with _munmap | _free | _delete => Some (F, i) | _ => None end) as Ed.
  { unfold dealloc_call. simpl. by rewrite Elib. }
  clear Hnone Elib Ecall Hop. cbv zeta in H. apply bind_Some in H as (v1 & H1 & H).
  enough (adds (F, i) v v1) as [? ? ? ? ? ?].
  { injection H as <-. destruct isInvoke; [|by split]. split; done. }
  clear H. destruct (functionCalls callee);
    destruct_bind; try case_decide; try case_decide; simplify_eq;
    (split; simpl; rewrite ?El, ?Es, ?Er, ?Ed, ?Ealloc; simpl;
      repeat match goal with H : ?x = Some _ |- context [?x] => rewrite H; simpl end;
      rewrite ?app_nil_r; try done; intros G; by rewrite Ea, app_nil_r).
Qed.

Lemma guarded_access {A} (F : string) (id : Z) (x : A) :
  (if decide (F ∉ accessFunctions) then None else if decide (id ∈ touchesToSkip) then None else Some x) =
  if decide (F ∈ accessFunctions ∧ id ∉ touchesToSkip) then Some x else None.
Proof.
  destruct (decide (F ∈ accessFunctions)), (decide (id ∈ touchesToSkip)); repeat case_decide; tauto.
Qed.

Lemma visitLoadInst_entry F p i v : i_op i = LoadInst p →
  visitLoadInst accessFunctions touchesToSkip F p i v = from_option (λ e, push_load e v) v (load_entry (F, i)).
Proof.
  intros Eop. unfold load_entry, visitLoadInst. cbn [fst snd]. rewrite Eop, <- guarded_access. by repeat case_decide.
Qed.

Lemma visitStoreInst_entry F w p ip scalar primitive i v : i_op i = StoreInst w p ip scalar primitive →
  visitStoreInst accessFunctions touchesToSkip F p ip scalar primitive i v =
  let v := if ip then push_escape (F, i) v else v in from_option (λ e, push_store e v) v (store_entry (F, i)).
Proof.
  intros Eop. unfold store_entry, visitStoreInst. cbn [fst snd]. rewrite Eop, <- guarded_access. by repeat case_decide.
Qed.

Lemma visitAllocaInst_entry F t i v v' : i_op i = AllocaInst t →
  visitAllocaInst pointerTypeSize allocaFunctions F t i v = Some v' →
  v' = from_option (λ e, push_alloca F (en_value e) (push_allocation e v)) v (allocation_entry (F, i)).
Proof.
  intros Eop. unfold allocation_entry, visitAllocaInst. cbn [fst snd]. rewrite Eop.
  case_decide; case_decide; try done; [by intros [= <-]|].
  destruct (i_loc i), (i_dbg i); try done; by intros [= <-].
Qed.

Lemma no_library_call F i : (∀ callee operands, i_op i ≠ CallInst callee operands) →
  (∀ callee operands d u, i_op i ≠ InvokeInst callee operands d u) → library_call M i = None ∧ dealloc_call (F, i) = None.
Proof.
  intros H1 H2. assert (library_call M i = None) as E; [|split; [done|unfold dealloc_call; simpl; by rewrite E]].
  unfold library_call, call_of. destruct (i_op i) eqn:Eop; naive_solver.
Qed.

(** The components of [adds] that an instruction of another kind leaves alone. *)
Ltac adds_other Eop E Ed :=
  split; unfold load_entry, store_entry, return_inst, alloca_value, allocation_entry; rewrite ?Ed;
  cbn [fst snd]; rewrite ?Eop, ?E; simpl; intros; rewrite ?app_nil_r; try done.

Lemma visit_inst_adds F i v v' :
  visit_inst M pointerTypeSize allocaFunctions accessFunctions touchesToSkip F v i = Some v' → adds (F, i) v v'.
Proof.
  unfold visit_inst. destruct (i_op i) as [callee operands|callee operands d u|p|w p ip sc pr|t| | |b] eqn:Eop.
  1: intros H; by eapply visitCallInvokeInst_adds; [left|].
  1: intros H; eapply visitCallInvokeInst_adds; [|done]; right; by exists d, u.
  all: destruct (no_library_call F i) as [E Ed]; [by rewrite Eop..|].
  - intros [= <-]. rewrite visitLoadInst_entry by done.
    destruct (load_entry (F, i)) eqn:El; adds_other Eop E Ed; revert El; unfold load_entry; cbn [fst snd]; rewrite Eop; simpl; intros ->; by rewrite ?app_nil_r.
  - intros [= <-]. erewrite visitStoreInst_entry by done.
    destruct (store_entry (F, i)) eqn:El, ip; adds_other Eop E Ed; revert El; unfold store_entry; cbn [fst snd]; rewrite Eop; simpl; intros ->; by rewrite ?app_nil_r.
  - intros H. apply visitAllocaInst_entry in H as ->; [|done].
    destruct (allocation_entry (F, i)) as [e|] eqn:El; adds_other Eop E Ed.
    all: revert El; unfold allocation_entry; cbn [fst snd]; rewrite Eop; simpl; intros El; rewrite El; simpl;
      rewrite ?app_nil_r; try done.
    all: destruct (decide (F = F0)) as [->|]; simpl; rewrite ?app_nil_r; try done.
    + by rewrite lookup_insert_eq.
    + by rewrite lookup_insert_ne.
  - intros [= <-]. adds_other Eop E Ed.
  - intros [= <-]. adds_other Eop E Ed.
  - intros [= <-]. adds_other Eop E Ed.
Qed.

(** The three vectors of library calls that the visitor only numbers or hands to
    PIN. *)
Definition calls_of (v : visitor) : list entry * list entry * list entry := (callocs v, reallocs v, unknowns v).

Definition add_calls (Fi : string * inst) (v : visitor) : list entry * list entry * list entry :=
  (callocs v ++ option_list (calloc_entry Fi), reallocs v ++ option_list (realloc_entry Fi),
   unknowns v ++ option_list (unknown_entry Fi)).

Lemma add_calls_none F i v : library_call M i = None → calls_of v = add_calls (F, i) v.
Proof.
  intros E. unfold add_calls, calloc_entry, realloc_entry, unknown_entry. cbn [snd]. rewrite E. simpl.
  by rewrite !app_nil_r.
Qed.

Lemma visitCallInvokeInst_calls F callee operands isInvoke i v v' :
  call_of i = (λ c, (c, operands)) <$> callee →
  visitCallInvokeInst M F callee operands isInvoke i v = Some v' → calls_of v' = add_calls (F, i) v.
Proof.
  intros Ecall H. unfold visitCallInvokeInst in H.
  assert (library_call M i = None → v' = v → calls_of v' = add_calls (F, i) v) as Hnone
    by (intros E ->; by apply add_calls_none).
  unfold library_call in Hnone. rewrite Ecall in Hnone. destruct callee as [callee|]; [|injection H as <-; by apply Hnone].
  apply bind_Some in H as (fp & Hfp & H). simpl in Hnone. rewrite Hfp in Hnone. cbn [mbind option_bind] in Hnone.
  assert (¬ (f_blocks fp = [] ∧ f_isIntrinsic fp = false) → v' = v → calls_of v' = add_calls (F, i) v) as Hother.
  { intros Hn. apply Hnone. destruct (i_loc i); [|done]. cbn [mbind option_bind]. by rewrite decide_False. }
  destruct (f_blocks fp) as [|b bs] eqn:Eb; [|injection H as <-; apply Hother; [by intros []|done]].
  destruct (f_isIntrinsic fp) eqn:Ei; [injection H as <-; apply Hother; [by intros []|done]|].
  destruct (i_loc i) as [loc|] eqn:Eloc; [|injection H as <-; by apply Hnone].
  assert (library_call M i = Some (callee, operands, loc)) as Elib.
  { unfold library_call. rewrite Ecall. simpl. rewrite Hfp. simpl. rewrite Eloc. simpl. by rewrite decide_True. }
  clear Hnone Hother Ecall. cbv zeta in H. apply bind_Some in H as (v1 & H1 & H).
  enough (calls_of v1 = add_calls (F, i) v) as <- by (injection H as <-; by destruct isInvoke).
  clear H. unfold add_calls, calloc_entry, realloc_entry, unknown_entry, calls_of. cbn [fst snd]. rewrite Elib.
  cbn [mbind option_bind]. destruct (functionCalls callee); destruct_bind; repeat case_decide; simplify_eq; simpl;
    repeat match goal with H : ?x = Some _ |- context [?x] => rewrite H; simpl end; by rewrite ?app_nil_r.
Qed.

Lemma visit_inst_calls F i v v' :
  visit_inst M pointerTypeSize allocaFunctions accessFunctions touchesToSkip F v i = Some v' →
  calls_of v' = add_calls (F, i) v.
Proof.
  unfold visit_inst. destruct (i_op i) as [callee operands|callee operands d u|p|w p ip sc pr|t| | |b] eqn:Eop.
  1, 2: apply visitCallInvokeInst_calls; unfold call_of; rewrite Eop; by destruct callee.
  all: destruct (no_library_call F i) as [E _]; [by rewrite Eop..|]; pose proof (add_calls_none F i v E) as Hn.
  - intros [= <-]. rewrite <- Hn. unfold visitLoadInst. by repeat case_decide.
  - intros [= <-]. rewrite <- Hn. unfold visitStoreInst. destruct ip; by repeat case_decide.
  - intros H. apply visitAllocaInst_entry in H as ->; [|done]. rewrite <- Hn. by destruct (allocation_entry (F, i)).
  - by intros [= <-].
  - by intros [= <-].
  - by intros [= <-].
Qed.

Lemma calls_fold l v v' :
  mfoldl (λ v Fi, visit_inst M pointerTypeSize allocaFunctions accessFunctions touchesToSkip Fi.1 v Fi.2) v l = Some v' →
  callocs v' = callocs v ++ omap calloc_entry l ∧ reallocs v' = reallocs v ++ omap realloc_entry l ∧
  unknowns v' = unknowns v ++ omap unknown_entry l.
Proof.
  revert v. induction l as [|[F i] l IH]; intros v; cbn [mfoldl]; [intros [= <-]; by rewrite !app_nil_r|].
  intros H. apply bind_Some in H as (v1 & H1 & H). apply visit_inst_calls in H1 as [= A1 A2 A3].
  apply IH in H as (B1 & B2 & B3). cbn [omap list_omap].
  assert (∀ A (o : option A) (l : list A), match o with Some y => y :: l | None => l end = option_list o ++ l) as E
    by (by intros ? []).
  rewrite B1, B2, B3, A1, A2, A3, !E. by rewrite !app_assoc.
Qed.

(** What the pass relies on: a callee is in the module, the allocation functions
    are called with their arguments, and the one user of an alloca's metadata is
    the intrinsic of a variable. *)
Definition operands_needed (callee : string) : nat :=
  match functionCalls callee with _malloc | _new => 1 | _mmap | _calloc | _realloc => 2 | _mremap => 3 | _ => 0 end.

Definition visitable (Fi : string * inst) : Prop :=
  match i_op Fi.2 with
  | CallInst (Some callee) operands | InvokeInst (Some callee) operands _ _ =>
      is_Some (getFunction M callee) ∧ (operands_needed callee <= List.length operands)%nat
  | AllocaInst _ => i_loc Fi.2 = None → i_dbg Fi.2 ≠ NotAVariable
  | _ => True
  end.

Lemma operand_at (operands : list value) n k : (k <= List.length operands)%nat → (n < k)%nat → is_Some (operands !! n).
Proof. intros. apply lookup_lt_is_Some. lia. Qed.

Lemma visitCallInvokeInst_total F callee operands isInvoke i v :
  is_Some (getFunction M callee) → (operands_needed callee <= List.length operands)%nat →
  is_Some (visitCallInvokeInst M F (Some callee) operands isInvoke i v).
Proof.
  intros (fp & Hfp) Hops. unfold visitCallInvokeInst. rewrite Hfp. cbn [mbind option_bind].
  destruct (f_blocks fp); [|done]. destruct (f_isIntrinsic fp); [done|]. destruct (i_loc i); [|done]. cbv zeta.
  unfold operands_needed in Hops. pose proof (operand_at operands) as Hat. destruct (functionCalls callee);
    try (by case_decide); try done.
  - destruct (Hat 0%nat _ Hops) as (? & ->); [lia|done].
  - destruct (Hat 1%nat _ Hops) as (? & ->); [lia|]. destruct (Hat 0%nat _ Hops) as (? & ->); [lia|done].
  - destruct (Hat 0%nat _ Hops) as (? & ->); [lia|]. destruct (Hat 1%nat _ Hops) as (? & ->); [lia|done].
  - destruct (Hat 1%nat _ Hops) as (? & ->); [lia|done].
  - destruct (Hat 0%nat _ Hops) as (? & ->); [lia|]. destruct (Hat 2%nat _ Hops) as (? & ->); [lia|done].
  - destruct (Hat 0%nat _ Hops) as (? & ->); [lia|done].
Qed.

Lemma visit_inst_total F v i : visitable (F, i) →
  is_Some (visit_inst M pointerTypeSize allocaFunctions accessFunctions touchesToSkip F v i).
Proof.
  unfold visitable, visit_inst. cbn [snd].
  destruct (i_op i) as [[callee|] operands|[callee|] operands d u|p|w p ip sc pr|t| | |b]; try done.
  1, 2: intros [H1 H2]; by apply visitCallInvokeInst_total.
  unfold visitAllocaInst. intros H. case_decide; [done|]. destruct (i_loc i); [done|].
  destruct (i_dbg i); [done|by destruct H|done].
Qed.

(** The visit as a fold of contributions. *)
Lemma adds_fold l v v' :
  mfoldl (λ v Fi, visit_inst M pointerTypeSize allocaFunctions accessFunctions touchesToSkip Fi.1 v Fi.2) v l = Some v' →
  loads v' = loads v ++ omap load_entry l ∧ stores v' = stores v ++ omap store_entry l ∧
  allocations v' = allocations v ++ omap allocation_entry l ∧ deallocs v' = deallocs v ++ omap dealloc_call l ∧
  returns v' = returns v ++ omap return_inst l ∧
  ∀ F, default [] (functionAllocaMap v' !! F) = default [] (functionAllocaMap v !! F) ++ omap (alloca_value F) l.
Proof.
  revert v. induction l as [|[F i] l IH]; intros v; cbn [mfoldl].
  { intros [= <-]. rewrite !app_nil_r. repeat split; try done. intros F. by rewrite app_nil_r. }
  intros H. apply bind_Some in H as (v1 & H1 & H). apply visit_inst_adds in H1 as [A1 A2 A3 A4 A5 A6].
  apply IH in H as (B1 & B2 & B3 & B4 & B5 & B6). cbn [omap list_omap].
  assert (∀ A (o : option A) (l : list A), match o with Some y => y :: l | None => l end = option_list o ++ l) as E
    by (by intros ? []).
  rewrite B1, B2, B3, B4, B5, A1, A2, A3, A4, A5, !E. repeat split; try by rewrite app_assoc.
  intros G. by rewrite B6, A6, E, app_assoc.
Qed.

Lemma visit_total : Forall visitable (all_insts M) →
  is_Some (visit M pointerTypeSize allocaFunctions accessFunctions touchesToSkip).
Proof.
  intros Hall. rewrite visit_fold. rewrite Forall_forall in Hall.
  destruct (mfoldl_Some (λ _, True)
    (λ v Fi, visit_inst M pointerTypeSize allocaFunctions accessFunctions touchesToSkip Fi.1 v Fi.2)
    empty_visitor (all_insts M)) as (v & Hv & _); [done| |by exists v].
  intros v [F i] Hin _. destruct (visit_inst_total F v i) as (v' & Hv'); [by apply Hall|]. by exists v'.
Qed.

(** C19: the visitor finds what is in the module and nothing else, in program
    order.  On every module whose calls are well formed it does not abort, and
    collects: exactly the loads and stores of the functions to instrument that are
    not to be skipped, with their pointers and positions; as allocations the calls
    of malloc, new and mmap that have a position and the allocas of the
    instrumented functions; the deallocating calls; all the returns; and for each
    function its recorded allocas. *)
Theorem visit_collects :
  Forall visitable (all_insts M) →
  ∃ v, visit M pointerTypeSize allocaFunctions accessFunctions touchesToSkip = Some v ∧
    loads v = omap load_entry (all_insts M) ∧
    stores v = omap store_entry (all_insts M) ∧
    allocations v = omap allocation_entry (all_insts M) ∧
    deallocs v = omap dealloc_call (all_insts M) ∧
    returns v = omap return_inst (all_insts M) ∧
    ∀ F, default [] (functionAllocaMap v !! F) = omap (alloca_value F) (all_insts M).
Proof.
  intros Hall. destruct (visit_total Hall) as (v & Hv). rewrite visit_fold in Hv |- *.
  exists v. split; [done|]. apply adds_fold in Hv as (? & ? & ? & ? & ? & Ha).
  repeat (split; [done|]). intros F. rewrite Ha. simpl. by rewrite lookup_empty.
Qed.
End spec.

(** ** Identifiers lead back to instructions *)

(** A position that fits a record of the file. *)
Definition recordable (e : Entry) : Prop :=
  (List.length (en_path e) < STRING_SIZE)%nat ∧ (List.length (en_var e) < STRING_SIZE)%nat ∧
  u32 (en_line e) ∧ u32 (en_column e).

Definition recordable_inst (Fi : string * inst) : Prop :=
  match i_loc Fi.2, i_dbg Fi.2 with
  | Some loc, _ => recordable (loc_debug loc)
  | None, LocalVariable directory filename name line => recordable (MkEntry (path_to_file directory filename) name line 0 0)
  | None, _ => True
  end.

Definition recordable_global (g : global) : Prop :=
  ∀ directory filename name line, g_debug g = Some (directory, filename, name, line) →
  recordable (MkEntry (path_to_file directory filename) name line 0 0).

Lemma omap_elem {A B} (f : A → option B) (l : list A) x y : x ∈ l → f x = Some y → y ∈ omap f l.
Proof. intros Hx Hy. apply list_elem_of_omap. by exists x. Qed.

Lemma Forall2_partner {A B} (R : A → B → Prop) l k y : Forall2 R l k → y ∈ k → ∃ x, x ∈ l ∧ R x y.
Proof.
  intros H [i Hi]%list_elem_of_lookup. eapply Forall2_lookup_r in H as (x & Hx & HR); [|done].
  exists x. split; [by eapply list_elem_of_lookup_2|done].
Qed.

Section collect.
  Context (M : modul) (pointerTypeSize : Z).
  Context (allocaFunctions accessFunctions : gset string) (touchesToSkip : gset Z).
  Context (getCalledFunction : value → option string) (isTheLibraryFunctionPure : string → bool).

(** The part of [runOnModule] that collects and numbers. *)
Definition collect : option (list (list entry) * list DebugData) :=
  v ← visit M pointerTypeSize allocaFunctions accessFunctions touchesToSkip;
  unknowns ← filterLibraryCalls getCalledFunction isTheLibraryFunctionPure (unknowns v);
  number [allocations v ++ getGlobals M pointerTypeSize; callocs v; reallocs v; unknowns; stores v; loads v].

(** One instruction makes at most one entry, at its own position. *)
Definition grows (P : entry → Prop) (v v' : visitor) : Prop :=
  ∃ new, concat (allEntries v') ≡ₚ new ++ concat (allEntries v) ∧ (List.length new <= 1)%nat ∧ Forall P new.

Lemma grows_none P v v' : concat (allEntries v') = concat (allEntries v) → grows P v v'.
Proof. unfold grows. intros ->. by exists []; split_and!; [|simpl; lia|]. Qed.

Lemma grows_one (P : entry → Prop) e v v' : P e → concat (allEntries v') ≡ₚ e :: concat (allEntries v) → grows P v v'.
Proof. intros HP Hp. by exists [e]; split_and!; [|simpl; lia|constructor]. Qed.

Lemma short_text s : (String.length s < STRING_SIZE)%nat → (List.length (text s) < STRING_SIZE)%nat.
Proof. intros H. unfold text. assert (List.length (String.list_ascii_of_string s) = String.length s) as -> by (clear H; induction s; simpl; congruence). done. Qed.

Lemma access_debug_recordable F i : recordable_inst (F, i) → recordable (access_debug i).
Proof.
  unfold recordable_inst, access_debug. cbn [snd]. destruct (i_loc i); [done|]. intros _.
  unfold recordable. cbn [en_path en_var en_line en_column]. unfold u32.
  split; [|split; [|split; lia]]; [apply short_text|]; unfold STRING_SIZE; simpl; lia.
Qed.

Ltac grown := first
  [ apply grows_none; reflexivity
  | eapply grows_one; [|unfold allEntries; simpl; by solve_Permutation] ].

Lemma visit_inst_grows F v i v' : recordable_inst (F, i) →
  visit_inst M pointerTypeSize allocaFunctions accessFunctions touchesToSkip F v i = Some v' →
  grows (λ e, recordable (en_debug e)) v v'.
Proof.
  intros Hrec. pose proof (access_debug_recordable F i Hrec) as Hacc. unfold visit_inst.
  assert (∀ callee operands inv, visitCallInvokeInst M F callee operands inv i v = Some v' →
    grows (λ e, recordable (en_debug e)) v v') as Hcall.
  { intros [callee|] operands inv; unfold visitCallInvokeInst; [|intros [= <-]; grown].
    intros H. apply bind_Some in H as (fp & _ & H).
    destruct (f_blocks fp); [|injection H as <-; grown]. destruct (f_isIntrinsic fp); [injection H as <-; grown|].
    unfold recordable_inst in Hrec. cbn [snd] in Hrec.
    destruct (i_loc i) as [loc|]; [|injection H as <-; grown]. cbv zeta in H. apply bind_Some in H as (v1 & H1 & [= <-]).
    enough (grows (λ e, recordable (en_debug e)) v v1) as (new & ? & ? & ?) by (exists new; by destruct inv).
    destruct (functionCalls callee); destruct_bind; try case_decide; try case_decide; simplify_eq; grown; exact Hrec. }
  destruct (i_op i) as [callee operands|callee operands d u|p|w p ip sc pr|t| | |b]; [apply Hcall..| | | | | |].
  - intros [= <-]. unfold visitLoadInst. repeat case_decide; grown. exact Hacc.
  - intros [= <-]. unfold visitStoreInst. destruct ip; repeat case_decide; grown; exact Hacc.
  - unfold visitAllocaInst, recordable_inst in *. cbn [snd] in Hrec. case_decide; [intros [= <-]; grown|].
    destruct (i_loc i) as [loc|]; [|destruct (i_dbg i); [|done|]]; intros [= <-]; grown.
    + unfold recordable in *. simpl in *. destruct Hrec as (? & _ & ?). split; [done|]. split; [|done].
      unfold STRING_SIZE. lia.
    + exact Hrec.
  - intros [= <-]. grown.
  - intros [= <-]. grown.
  - intros [= <-]. grown.
Qed.

Lemma visit_grows l v v' : Forall recordable_inst l →
  mfoldl (λ v Fi, visit_inst M pointerTypeSize allocaFunctions accessFunctions touchesToSkip Fi.1 v Fi.2) v l = Some v' →
  ∃ new, concat (allEntries v') ≡ₚ new ++ concat (allEntries v) ∧ (List.length new <= List.length l)%nat ∧
    Forall (λ e, recordable (en_debug e)) new.
Proof.
  intros Hrec. revert v. induction Hrec as [|[F i] l Hi _ IH]; intros v; cbn [mfoldl fst snd].
  { intros [= <-]. by exists []; split_and!; [|simpl; lia|]. }
  intros H. apply bind_Some in H as (v1 & H1 & H).
  apply visit_inst_grows in H1 as (n1 & P1 & L1 & R1); [|done]. apply IH in H as (n2 & P2 & L2 & R2).
  exists (n2 ++ n1). rewrite P2, P1, length_app, Forall_app. simpl. split; [by rewrite app_assoc|]. split; [lia|done].
Qed.

Lemma getGlobals_recordable : Forall recordable_global (m_globals M) →
  (List.length (getGlobals M pointerTypeSize) <= List.length (m_globals M))%nat ∧
  Forall (λ e, recordable (en_debug e)) (getGlobals M pointerTypeSize).
Proof.
  unfold getGlobals. induction 1 as [|g gs Hg _ [IHl IH]]; [split; [simpl; lia|constructor]|].
  cbn [omap list_omap]. case_decide; [split; [simpl; lia|done]|].
  destruct (g_isPointerTy g); [|split; [simpl; lia|done]].
  destruct (g_debug g) as [[[[directory filename] name] line]|] eqn:E; cbn [mbind option_bind];
    [|split; [simpl; lia|done]].
  split; [simpl; lia|]. constructor; [|done]. by apply Hg.
Qed.

Lemma filterLibraryCalls_sub us us' :
  filterLibraryCalls getCalledFunction isTheLibraryFunctionPure us = Some us' → us' `sublist_of` us.
Proof.
  unfold filterLibraryCalls. enough (∀ acc us us', mfoldl (λ filtered e, funcName ← getCalledFunction (en_value e);
    Some (if isTheLibraryFunctionPure funcName then filtered
      else if decide (funcName ∈ funcNamesToSkip) then filtered else filtered ++ [e])) acc us = Some us' →
      us' `sublist_of` acc ++ us) as Hgen by apply (Hgen []).
  clear. intros acc us. revert acc. induction us as [|e us IH]; intros acc us' H; cbn [mfoldl] in H.
  { injection H as <-. by rewrite app_nil_r. }
  apply bind_Some in H as (acc1 & H1 & H). apply bind_Some in H1 as (fn & _ & [= <-]). apply IH in H. etrans; [done|].
  destruct (isTheLibraryFunctionPure fn); [|case_decide].
  1, 2: apply sublist_app; [done|by apply sublist_cons].
  by rewrite <- app_assoc.
Qed.

(** The number an entry gets is all that changes in it. *)
Definition numbered (e' e : entry) : Prop := set_debug (en_debug e) e' = e ∧ same_but_id (en_debug e') (en_debug e).

Lemma zip_set_debug_vector ds es : Forall2 same_but_id ds (en_debug <$> es) →
  Forall2 numbered (zip_with set_debug ds es) es ∧ en_debug <$> zip_with set_debug ds es = ds.
Proof.
  revert ds. induction es as [|e es IH]; intros ds H.
  { simpl in H. by apply Forall2_nil_inv_r in H as ->. }
  rewrite fmap_cons in H. apply Forall2_cons_inv_r in H as (d & ds' & Hd & H & ->).
  destruct (IH ds' H) as [H1 H2]. cbn [zip_with]. split; [|by rewrite fmap_cons, H2].
  constructor; [|done]. split; [by destruct e|done].
Qed.

Lemma zip_set_debug all' all : Forall2 (Forall2 same_but_id) all' ((λ es : list entry, en_debug <$> es) <$> all) →
  Forall2 numbered (concat (zip_with (zip_with set_debug) all' all)) (concat all) ∧
  en_debug <$> concat (zip_with (zip_with set_debug) all' all) = concat all'.
Proof.
  revert all'. induction all as [|es all IH]; intros all' H.
  { simpl in H. apply Forall2_nil_inv_r in H as ->. by split. }
  rewrite fmap_cons in H. apply Forall2_cons_inv_r in H as (ds & ds' & Hd & H & ->).
  destruct (IH ds' H) as [H1 H2]. destruct (zip_set_debug_vector ds es Hd) as [H3 H4].
  cbn [zip_with concat]. split; [by apply Forall2_app|]. by rewrite fmap_app, H2, H4.
Qed.

Lemma concat_debug (all : list (list entry)) :
  concat ((λ es : list entry, en_debug <$> es) <$> all) = en_debug <$> concat all.
Proof. induction all as [|es all IH]; [done|]. rewrite fmap_cons. cbn [concat]. by rewrite IH, fmap_app. Qed.

Lemma number_resolves all :
  Forall (λ e, recordable (en_debug e)) (concat all) → Z.of_nat (List.length (concat all)) + 1 < two64 →
  ∃ all' dds, number all = Some (all', dds) ∧ Forall2 numbered (concat all') (concat all) ∧
    (λ e, en_id (en_debug e)) <$> concat all' = seqZ 1 (Z.of_nat (List.length (concat all))) ∧
    ∀ e', e' ∈ concat all' → ∃ d, getDebugData (writeDebugData dds) !! en_id (en_debug e') = Some d ∧
      c_str (pathToFile d) = c_str (en_path (en_debug e')) ∧ c_str (varName d) = c_str (en_var (en_debug e')) ∧
      lineNum d = en_line (en_debug e') ∧ columnNum d = en_column (en_debug e').
Proof.
  intros Hrec Hlen. rewrite Forall_forall in Hrec.
  destruct (createDebugData_total ((λ es : list entry, en_debug <$> es) <$> all) []) as ([ds dds] & Hc).
  { rewrite concat_debug. apply Forall_fmap, Forall_forall. intros e He. destruct (Hrec e He) as (? & ? & _). by split. }
  destruct (zip_set_debug ds all) as [Hnum Hds]; [by eapply createDebugData_same|].
  exists (zip_with (zip_with set_debug) ds all), dds. unfold number. rewrite Hc. cbn [mbind option_bind].
  split; [done|]. split; [done|].
  assert (Z.of_nat (List.length (concat ((λ es : list entry, en_debug <$> es) <$> all))) + 1 < two64) as Hlen'
    by (by rewrite concat_debug, length_fmap).
  split.
  - pose proof Hc as Hc'. apply createDebugData_spec in Hc' as (_ & _ & Hids & _); [|by simpl; lia].
    rewrite <- Hds, concat_debug, length_fmap, <- list_fmap_compose in Hids. exact Hids.
  - destruct (numbered_resolves _ _ _ Hc Hlen') as (_ & _ & Hres).
    { rewrite concat_debug. apply Forall_fmap, Forall_forall. intros e He. by destruct (Hrec e He) as (_ & _ & ? & ?). }
    intros e' He'. apply Hres. rewrite <- Hds. by apply list_elem_of_fmap_2.
Qed.

(** The library calls PIN watches are calls of the module. *)
Lemma visit_inst_unknowns F v i v' e :
  visit_inst M pointerTypeSize allocaFunctions accessFunctions touchesToSkip F v i = Some v' →
  e ∈ unknowns v' → e ∈ unknowns v ∨ (en_value e = Inst (i_id i) ∧ is_Some (call_of i)).
Proof.
  unfold visit_inst. destruct (i_op i) as [callee operands|callee operands d u|p|w p ip sc pr|t| | |b] eqn:Eop;
    try (intros [= <-]; by left).
  1, 2: unfold call_of; rewrite Eop; destruct callee as [callee|]; unfold visitCallInvokeInst; [|intros [= <-]; by left];
    intros H; apply bind_Some in H as (fp & _ & H); destruct (f_blocks fp); [|injection H as <-; by left];
    destruct (f_isIntrinsic fp); [injection H as <-; by left|];
    destruct (i_loc i) as [loc|]; [|injection H as <-; by left]; cbv zeta in H; apply bind_Some in H as (v1 & H1 & [= <-]);
    destruct (functionCalls callee); destruct_bind; try case_decide; try case_decide; simplify_eq; simpl;
    rewrite ?elem_of_app, ?list_elem_of_singleton; naive_solver.
  - intros [= <-]. unfold visitLoadInst. repeat case_decide; by left.
  - intros [= <-]. unfold visitStoreInst. destruct ip; repeat case_decide; by left.
  - unfold visitAllocaInst. case_decide; [intros [= <-]; by left|].
    destruct (i_loc i); [|destruct (i_dbg i); [|done|]]; intros [= <-]; by left.
Qed.

Lemma filterLibraryCalls_total us : (∀ e, e ∈ us → is_Some (getCalledFunction (en_value e))) →
  is_Some (filterLibraryCalls getCalledFunction isTheLibraryFunctionPure us).
Proof.
  intros H. unfold filterLibraryCalls. edestruct (mfoldl_Some (A := entry) (B := list entry) (λ _, True)) as (r & Hr & _);
    [done| |by exists r].
  intros b e He _. destruct (H e He) as (fn & ->). eexists. split; [reflexivity|done].
Qed.

Lemma unknowns_total v :
  (∀ Fi, Fi ∈ all_insts M → is_Some (call_of Fi.2) → is_Some (getCalledFunction (Inst (i_id Fi.2)))) →
  visit M pointerTypeSize allocaFunctions accessFunctions touchesToSkip = Some v →
  is_Some (filterLibraryCalls getCalledFunction isTheLibraryFunctionPure (unknowns v)).
Proof.
  intros Hcalls Hv. rewrite visit_fold in Hv. apply filterLibraryCalls_total.
  revert Hv. generalize (all_insts M) Hcalls. clear Hcalls. intros l Hcalls Hv.
  eapply (mfoldl_ind (λ v, ∀ e, e ∈ unknowns v → is_Some (getCalledFunction (en_value e)))); [exact Hv| |].
  - intros e He. simpl in He. by apply elem_of_nil in He.
  - intros v0 [F i] v1 Hin IH Hstep e He. eapply visit_inst_unknowns in Hstep as [Hold|[-> Hc]]; [by apply IH| |done].
    exact (Hcalls _ Hin Hc).
Qed.

Lemma collected_fits v us :
  Forall recordable_inst (all_insts M) → Forall recordable_global (m_globals M) →
  Z.of_nat (List.length (all_insts M)) + Z.of_nat (List.length (m_globals M)) + 1 < two64 →
  visit M pointerTypeSize allocaFunctions accessFunctions touchesToSkip = Some v →
  filterLibraryCalls getCalledFunction isTheLibraryFunctionPure (unknowns v) = Some us →
  let all := [allocations v ++ getGlobals M pointerTypeSize; callocs v; reallocs v; us; stores v; loads v] in
  Forall (λ e, recordable (en_debug e)) (concat all) ∧ Z.of_nat (List.length (concat all)) + 1 < two64.
Proof.
  intros Hrec Hglob Hlen Hv Hus. destruct (getGlobals_recordable Hglob) as [Hgl Hgr].
  rewrite visit_fold in Hv. apply visit_grows in Hv as (new & Hp & Hl & Hr); [|done].
  rewrite app_nil_r in Hp. apply filterLibraryCalls_sub in Hus as Hsub.
  assert (Forall (λ e, recordable (en_debug e)) (concat (allEntries v))) as Hall by (by rewrite Hp).
  assert (List.length (concat (allEntries v)) <= List.length (all_insts M))%nat as Hc by (by rewrite Hp).
  unfold allEntries in *. cbn [concat] in *. rewrite !Forall_app in *. rewrite !length_app in *. cbn [List.length] in *.
  split.
  - destruct Hall as (? & ? & ? & Hu & ? & ? & ?). split_and!; try done. rewrite Forall_forall in Hu |- *.
    intros e He. apply Hu. by eapply elem_of_sublist.
  - apply sublist_length in Hsub. lia.
Qed.

(** The library calls that are left for PIN. *)
Definition watched (e : entry) : bool :=
  match getCalledFunction (en_value e) with
  | Some name => negb (isTheLibraryFunctionPure name) && negb (bool_decide (name ∈ funcNamesToSkip))
  | None => false
  end.

Lemma filterLibraryCalls_filter us us' :
  filterLibraryCalls getCalledFunction isTheLibraryFunctionPure us = Some us' → us' = filter watched us.
Proof.
  unfold filterLibraryCalls. enough (∀ acc us us', mfoldl (λ filtered e, funcName ← getCalledFunction (en_value e);
    Some (if isTheLibraryFunctionPure funcName then filtered
      else if decide (funcName ∈ funcNamesToSkip) then filtered else filtered ++ [e])) acc us = Some us' →
      us' = acc ++ filter watched us) as Hgen by apply (Hgen []).
  clear us us'. intros acc us. revert acc. induction us as [|e us IH]; intros acc us' H; cbn [mfoldl] in H; [injection H as <-; by rewrite app_nil_r|].
  apply bind_Some in H as (acc1 & H1 & H). apply bind_Some in H1 as (name & Hname & [= <-]). apply IH in H as ->.
  assert (watched e = negb (isTheLibraryFunctionPure name) && negb (bool_decide (name ∈ funcNamesToSkip))) as Ew
    by (unfold watched; by rewrite Hname).
  rewrite filter_cons. destruct (isTheLibraryFunctionPure name); [by rewrite Ew|].
  destruct (decide (name ∈ funcNamesToSkip)) as [Hs|Hs]; rewrite Ew.
  - by rewrite bool_decide_true by done.
  - rewrite bool_decide_false by done. simpl. by rewrite <- app_assoc.
Qed.

(** Everything the pass numbers, from the instructions and the globals alone. *)
Definition recorded : list (list entry) :=
  [omap (allocation_entry M pointerTypeSize allocaFunctions) (all_insts M) ++ getGlobals M pointerTypeSize;
   omap (calloc_entry M) (all_insts M); omap (realloc_entry M) (all_insts M);
   filter watched (omap (unknown_entry M) (all_insts M));
   omap (store_entry accessFunctions touchesToSkip) (all_insts M);
   omap (load_entry accessFunctions touchesToSkip) (all_insts M)].

(** C18: an identifier reported at run time leads back to the instruction.  On a
    well-formed module, in which every call has a known callee and whose names and
    positions fit the file, collecting and
    numbering succeed, and what is numbered is exactly [recorded]: the allocations
    (malloc, new, mmap, allocas) and the globals, the callocs, the reallocs and
    mremaps, the library calls left for PIN, and the stores and loads to
    instrument, in this order, each with the identifiers 1, 2, 3, ...  The
    identifier of every one of these entries finds, in the written file as the
    tools read it, the source path, variable, line and column of that entry. *)
Theorem instrumented_resolves :
  Forall (visitable M) (all_insts M) → Forall recordable_inst (all_insts M) → Forall recordable_global (m_globals M) →
  (∀ Fi, Fi ∈ all_insts M → is_Some (call_of Fi.2) → is_Some (getCalledFunction (Inst (i_id Fi.2)))) →
  Z.of_nat (List.length (all_insts M)) + Z.of_nat (List.length (m_globals M)) + 1 < two64 →
  ∃ all dds, collect = Some (all, dds) ∧ Forall2 numbered (concat all) (concat recorded) ∧
    ((λ e, en_id (en_debug e)) <$> concat all) = seqZ 1 (Z.of_nat (List.length (concat recorded))) ∧
    ∀ e, e ∈ concat recorded →
      ∃ e' d, e' ∈ concat all ∧ numbered e' e ∧
        getDebugData (writeDebugData dds) !! en_id (en_debug e') = Some d ∧
        c_str (pathToFile d) = c_str (en_path (en_debug e)) ∧ c_str (varName d) = c_str (en_var (en_debug e)) ∧
        lineNum d = en_line (en_debug e) ∧ columnNum d = en_column (en_debug e).
Proof.
  intros Hvis Hrec Hglob Hcalls Hlen.
  destruct (visit_total M pointerTypeSize allocaFunctions accessFunctions touchesToSkip Hvis) as (v & Hv).
  destruct (unknowns_total v Hcalls Hv) as (us & Hus).
  destruct (collected_fits v us Hrec Hglob Hlen Hv Hus) as [Hr Hl].
  destruct (number_resolves _ Hr Hl) as (all & dds & Hn & Hnum & Hids & Hres).
  exists all, dds. unfold collect. rewrite Hv. cbn [mbind option_bind]. rewrite Hus. cbn [mbind option_bind].
  split; [done|]. rewrite visit_fold in Hv. apply calls_fold in Hv as Hmore. destruct Hmore as (Hc & Hre & Hu).
  apply adds_fold in Hv as (Hloads & Hstores & Hallocs & _). apply filterLibraryCalls_filter in Hus.
  rewrite Hloads, Hstores, Hallocs, Hc, Hre, Hus, Hu in Hnum, Hids.
  change (Forall2 numbered (concat all) (concat recorded)) in Hnum.
  split; [done|]. split; [exact Hids|]. intros e He.
  destruct (Forall2_partner _ _ _ _ Hnum He) as (e' & He' & Hsame). destruct (Hres e' He') as (d & Hd & Hpos).
  exists e', d. split; [done|]. split; [done|]. split; [done|]. destruct Hsame as [_ Hsame].
  injection Hsame as Ep Ev El Ec. by rewrite <- Ep, <- Ev, <- El, <- Ec.
Qed.
End collect.

(** ** Witnesses *)

Module Demo.
(** [main]: an alloca, [malloc], a store, two loads (one without a position), a
    call of [strdup], [free] and a return. *)
Definition loc (line column : Z) : option DILocation := Some (MkLoc (text "/src") (text "a.c") line column).

Definition main : func := MkFunc "main" [MkBlock "entry"
  [MkInst 1 (AllocaInst (OtherTy 32 false)) None (LocalVariable (text "/src") (text "a.c") (text "x") 2);
   MkInst 2 (CallInst (Some "malloc") [OtherValue 100]) (loc 3 7) NoDeclare;
   MkInst 3 (StoreInst (OtherValue 101) (Inst 1) false 32 32) (loc 4 5) NoDeclare;
   MkInst 4 (LoadInst (Inst 1)) (loc 5 9) NoDeclare;
   MkInst 5 (LoadInst (Inst 2)) None NoDeclare;
   MkInst 6 (CallInst (Some "strdup") [Inst 2]) (loc 6 3) NoDeclare;
   MkInst 7 (CallInst (Some "free") [Inst 2]) (loc 7 3) NoDeclare;
   MkInst 8 ReturnInst (loc 8 1) NoDeclare]] false true.

Definition declare (name : string) : func := MkFunc name [] false false.

Definition M : modul := MkModule [main; declare "malloc"; declare "strdup"; declare "free"]
  [MkGlobal 200 "counter" true (OtherTy 32 false) (Some (text "/src", text "a.c", text "counter", 1))].

Definition called (v : value) : option string :=
  match v with Inst 2 => Some "malloc" | Inst 6 => Some "strdup" | Inst 7 => Some "free" | _ => None end.

Lemma M_visitable : Forall (visitable M) (all_insts M).
Proof. unfold all_insts. simpl. repeat constructor; simpl; try (by eexists); try lia; done. Qed.

Lemma visit_collects_witness :
  ∃ v, visit M 8 {["main"]} {["main"]} {[5]} = Some v ∧
    (en_value <$> loads v) = [Inst 4] ∧ (en_value <$> stores v) = [Inst 3] ∧
    (en_value <$> allocations v) = [Inst 1; Inst 2] ∧ default [] (functionAllocaMap v !! "main") = [Inst 1].
Proof.
  destruct (visit_collects M 8 {["main"]} {["main"]} {[5]} M_visitable)
    as (v & Hv & Hl & Hs & Ha & _ & _ & Hf).
  exists v. split; [exact Hv|]. rewrite Hl, Hs, Ha, Hf. split_and!; vm_compute; reflexivity.
Defined.

(** The load on line 5 has identifier 6; the entries are the two allocations, the
    global, the call of [strdup], the store and the load. *)
Lemma instrumented_resolves_witness :
  ∃ all dds, collect M 8 {["main"]} {["main"]} {[5]} called (λ _, false) = Some (all, dds) ∧
    ((λ e, (en_value e, en_id (en_debug e))) <$> concat all) =
      [(Inst 1, 1); (Inst 2, 2); (GlobalVar 200, 3); (Inst 6, 4); (Inst 3, 5); (Inst 4, 6)] ∧
    ∃ d, getDebugData (writeDebugData dds) !! 6 = Some d ∧ lineNum d = 5 ∧ columnNum d = 9.
Proof.
  edestruct (instrumented_resolves M 8 {["main"]} {["main"]} {[5]} called (λ _, false) M_visitable)
    as (all & dds & Hc & _ & _ & Hres).
  - unfold all_insts. simpl. repeat (constructor; [unfold recordable_inst, recordable, u32, STRING_SIZE; simpl; try lia; try done|]).
    constructor.
  - constructor; [|constructor]. intros directory filename name line H. injection H as <- <- <- <-.
    unfold recordable, u32, STRING_SIZE. simpl. lia.
  - intros Fi Hin. apply list_elem_of_In in Hin. unfold all_insts in Hin. simpl in Hin.
    repeat (destruct Hin as [<-|Hin]; [cbn; intros; first [by destruct H | by eexists]|]). done.
  - vm_compute. reflexivity.
  - exists all, dds. split; [exact Hc|].
    assert (((λ e, (en_value e, en_id (en_debug e))) <$> concat all) =
      [(Inst 1, 1); (Inst 2, 2); (GlobalVar 200, 3); (Inst 6, 4); (Inst 3, 5); (Inst 4, 6)]) as Hids.
    { clear Hres. set (f := λ x : list (list entry) * list DebugData, (λ e, (en_value e, en_id (en_debug e))) <$> concat x.1).
      enough (f <$> Some (all, dds) = Some [(Inst 1, 1); (Inst 2, 2); (GlobalVar 200, 3); (Inst 6, 4); (Inst 3, 5); (Inst 4, 6)])
        as E by (by injection E). rewrite <- Hc. vm_compute. reflexivity. }
    split; [exact Hids|].
    destruct (Hres (MkIEntry (Inst 4) "main" (Some (Inst 1)) None None None 0 0 (MkEntry (text "/src/a.c") [] 5 9 0)))
      as (e' & d & He' & [Hsame _] & Hd & _ & _ & Hl & Hcol).
    + apply list_elem_of_In. vm_compute. tauto.
    + exists d. split; [|by split].
      assert ((Inst 4, en_id (en_debug e')) ∈ [(Inst 1, 1); (Inst 2, 2); (GlobalVar 200, 3); (Inst 6, 4); (Inst 3, 5); (Inst 4, 6)]) as Hin.
      { rewrite <- Hids. apply list_elem_of_fmap. exists e'. split; [|done]. f_equal. by injection Hsame. }
      apply list_elem_of_In in Hin. simpl in Hin. destruct Hin as [E|[E|[E|[E|[E|[E|[]]]]]]]; try discriminate E.
      injection E as E. by rewrite E.
Defined.
End Demo.
