(* ===== verification/ROIs.v ===== *)
(** * ROIs.v: the regions of interest of a module

    src/src/ROIManager.cpp.  A region starts at a call of [caratGetStateWrapper],
    which gives the identifier of the state, and stops at the calls of
    [caratReportStateWrapper] that get this identifier.  The identifier reaches
    them in a register or, in code that was not optimised, through a variable of
    its own; the loads and stores of this variable are bookkeeping, which the pass
    leaves out.  The calls of a function are in a set ordered by address and the
    regions in a hash table by function: the orders of both are parameters. *)

From S2P Require Import Prelude Helpers OrdMap Objects AllocTable ConnGraph Commit CleanBatch Shadow Batch.
From S2P Require Import Memory Callstack UniqueIds Wrapper RunData PostProcess DebugInfo Types CallGraph TouchSame Visitor.

(** ** Finding the regions *)

Section rois.
  Context (M : modul).

(** The users of a value, one for each use, by their identifiers: LLVM's. *)
  Context (users : value → list Z).

(** The orders in which a [std::set<CallBase*>] and the unordered map from
    functions to their regions are iterated: by address and by hash.  What they do is
    said in [orders] below. *)
  Context (callOrder : list inst → list inst)
    (mapOrder : list (string * list (region (I := Z))) → list (string * list (region (I := Z)))).

Definition inst_of (I : Z) : option (string * inst) := snd <$> list_find (λ Fi, i_id Fi.2 = I) (all_insts M).

Definition op_of (I : Z) : option opcode := (λ Fi, i_op Fi.2) <$> inst_of I.

(** [CallBase::getCalledFunction]; a null pointer is [None], for an indirect call
    and for a function the module does not have. *)
Definition getCalledFunction (o : opcode) : option (option string) :=
  match o with CallInst callee _ | InvokeInst callee _ _ _ => Some callee | _ => None end.

Definition moduleFunction (name : string) : option string := f_name <$> getFunction M name.

Definition startFunc : option string := moduleFunction MEMORYTOOL_START_TRACKING.
Definition stopFunc : option string := moduleFunction MEMORYTOOL_STOP_TRACKING.
Definition contextFunc : option string := moduleFunction MEMORYTOOL_CONTEXT.

(** [CallInstVisitor] in one function. *)
Definition callsOfInterest (functionOfInterest : option string) (f : func) : list inst :=
  filter (λ i, getCalledFunction (i_op i) = Some functionOfInterest) (f_insts f).

Definition calls (I : Z) (fp : option string) : bool :=
  match op_of I with Some o => bool_decide (getCalledFunction o = Some fp) | None => false end.

(** The users of the variable: the loads, which must go to a stop call each, or to
    a call that ends an invocation. *)
Definition stop_of_user (callsToStop : list Z) (user : Z) : option (list Z) :=
  match op_of user with
  | Some (LoadInst _) =>
      match users (Inst user) with
      | [u] =>
          o ← op_of u; calledFunc ← getCalledFunction o;
          if decide (calledFunc = contextFunc) then Some callsToStop
          else if decide (calledFunc = stopFunc) then Some (callsToStop ++ [u])
          else None
      | _ => None
      end
  | _ => Some callsToStop
  end.

(** One iteration of [visitROIs]; [None] aborts. *)
Definition visitROI (callToStart : inst) : option (region (I := Z)) :=
  callsToStop ← (match users (Inst (i_id callToStart)) with
    | [user] =>
        match op_of user with
        | Some (StoreInst _ allocaOfStateID _ _ _) => mfoldl stop_of_user [] (users allocaOfStateID)
        | _ => None
        end
    | us => Some (filter (λ u, calls u stopFunc = true) us)
    end);
  match callsToStop with [] => None | _ => Some (Region (i_id callToStart) callsToStop) end.

(** [computeROIs(F)] with [visitROIs]: the visitor collects the calls of one function
    in a set of pointers. *)
Definition computeROIs (f : func) : option (list region) := mapM visitROI (callOrder (callsOfInterest startFunc f)).

(** The constructor of [ROIManager]. *)
Definition funcToRoisMap : option (list (string * list region)) :=
  mapM (λ f, rois ← computeROIs f; Some (f_name f, rois)) (m_functions M).

Definition getROIs : option (list region) := m ← funcToRoisMap; Some (concat (mapOrder m).*2).

(** [computeROIsLoadsStores]: [user_back] is the first user; [cast] of another
    instruction is undefined. *)
Definition is_load_store (I : Z) : bool :=
  match op_of I with Some (LoadInst _ | StoreInst _ _ _ _ _) => true | _ => false end.

Definition roiLoadsStores (roisLoadsStores : gset Z) (roi : region) : option (gset Z) :=
  user ← head (users (Inst (roi_start roi)));
  match op_of user with
  | Some (StoreInst _ allocaOfStateID _ _ _) =>
      Some (list_to_set (filter (λ u, is_load_store u = true) (users allocaOfStateID)) ∪ ({[user]} ∪ roisLoadsStores))
  | _ => None
  end.

Definition computeROIsLoadsStores (rois : list region) : option (gset Z) := mfoldl roiLoadsStores ∅ rois.

(** ** What is found

    A start call of code that was not optimised: its value is stored once, in the
    variable [a], and every load of [a] goes to one call, of the stop function or of
    the function that ends an invocation. *)
Record through_variable (callToStart : inst) (store : Z) (a : value) : Prop := {
  tv_use : users (Inst (i_id callToStart)) = [store];
  tv_store : ∃ v b s p, op_of store = Some (StoreInst v a b s p);
  tv_loads : ∀ l p, l ∈ users a → op_of l = Some (LoadInst p) → ∃ u, users (Inst l) = [u] ∧
    (calls u contextFunc = true ∨ calls u stopFunc = true);
  tv_stop : ∃ l p u, l ∈ users a ∧ op_of l = Some (LoadInst p) ∧ users (Inst l) = [u] ∧ calls u stopFunc = true;
}.

Lemma calls_spec I fp : calls I fp = true ↔ ∃ o, op_of I = Some o ∧ getCalledFunction o = Some fp.
Proof.
  unfold calls. destruct (op_of I) as [o|]; [rewrite bool_decide_eq_true|]; split; try done.
  - intros H. by exists o.
  - by intros (o' & [= <-] & H).
  - by intros (o' & ? & _).
Qed.

(** The calls to stop a variable leads to. *)
Definition stop_through (a : value) (u : Z) : Prop :=
  ∃ l p, l ∈ users a ∧ op_of l = Some (LoadInst p) ∧ users (Inst l) = [u] ∧ calls u stopFunc = true.

Lemma stops_of_variable us acc : stopFunc ≠ contextFunc →
  (∀ l p, l ∈ us → op_of l = Some (LoadInst p) → ∃ u, users (Inst l) = [u] ∧ (calls u contextFunc = true ∨ calls u stopFunc = true)) →
  ∃ stops, mfoldl stop_of_user acc us = Some (acc ++ stops) ∧
    ∀ u, u ∈ stops ↔ ∃ l p, l ∈ us ∧ op_of l = Some (LoadInst p) ∧ users (Inst l) = [u] ∧ calls u stopFunc = true.
Proof.
  intros Hne. revert acc. induction us as [|x us IH]; intros acc Hall.
  { exists []. rewrite app_nil_r. split; [done|]. intros u. split; [by intros ?%elem_of_nil|]. by intros (l & p & ?%elem_of_nil & _). }
  assert (∃ new, stop_of_user acc x = Some (acc ++ new) ∧
    ∀ u, u ∈ new ↔ ∃ p, op_of x = Some (LoadInst p) ∧ users (Inst x) = [u] ∧ calls u stopFunc = true) as (new & Hx & Hnew).
  { unfold stop_of_user. destruct (op_of x) as [[c o|c o d w|p|v p b s r| | | |t]|] eqn:Eop;
      try (exists []; rewrite app_nil_r; split; [done|]; intros u; split; [by intros ?%elem_of_nil|by intros (? & [=] & _)]).
    destruct (Hall x p) as (u & Hu & Hcall); [by left|done|]. rewrite Hu.
    destruct Hcall as [(o & Ho & Hf)%calls_spec|(o & Ho & Hf)%calls_spec]; rewrite Ho; cbn [mbind option_bind]; rewrite Hf; cbn [mbind option_bind].
    - rewrite decide_True by done. exists []. rewrite app_nil_r. split; [done|]. intros u'. split; [by intros ?%elem_of_nil|].
      intros (p' & _ & [= <-] & (o' & Ho' & Hf')%calls_spec). rewrite Ho in Ho'. injection Ho' as <-. congruence.
    - rewrite decide_False by done. rewrite decide_True by done. exists [u]. split; [done|]. intros u'. rewrite list_elem_of_singleton. split.
      + intros ->. exists p. split; [done|]. split; [done|]. apply calls_spec. by exists o.
      + by intros (p' & _ & [= <-] & _). }
  destruct (IH (acc ++ new)) as (stops & Hs & Hin); [intros l p Hl; apply Hall; by right|].
  exists (new ++ stops). cbn [mfoldl]. rewrite Hx. cbn [mbind option_bind]. rewrite Hs, <- app_assoc. split; [done|].
  intros u. rewrite elem_of_app, Hin, Hnew. split.
  - intros [(p & ?)|(l & p & ? & ?)]; [exists x, p; split; [by left|done]|exists l, p; split; [by right|done]].
  - intros (l & p & Hl & H). apply elem_of_cons in Hl as [->|Hl]; [left; by exists p|right; by exists l, p].
Qed.

Lemma visitROI_through callToStart store a : stopFunc ≠ contextFunc → through_variable callToStart store a →
  ∃ stops, visitROI callToStart = Some (Region (i_id callToStart) stops) ∧ ∀ u, u ∈ stops ↔ stop_through a u.
Proof.
  intros Hne [Huse (v & b & s & r & Hst) Hloads (l & p & u & Hstop)]. unfold visitROI. rewrite Huse, Hst.
  destruct (stops_of_variable (users a) [] Hne Hloads) as (stops & Hs & Hin). rewrite app_nil_l in Hs. rewrite Hs.
  cbn [mbind option_bind]. assert (u ∈ stops) as Hu by (apply Hin; by exists l, p).
  exists stops. destruct stops; [by apply elem_of_nil in Hu|]. split; [done|]. exact Hin.
Qed.

Definition is_start (i : inst) : Prop := getCalledFunction (i_op i) = Some startFunc.

#[global] Instance is_start_dec i : Decision (is_start i).
Proof. unfold is_start. apply _. Defined.

Lemma moduleFunction_name name F : moduleFunction name = Some F → F = name.
Proof.
  unfold moduleFunction, getFunction. destruct (list_find _ _) as [[n f]|] eqn:E; [|done]. simpl. intros [= <-].
  by apply list_find_Some in E as (_ & ? & _).
Qed.

Lemma stop_not_context : is_Some stopFunc → stopFunc ≠ contextFunc.
Proof.
  intros [F HF] E. rewrite HF in E. symmetry in E. apply moduleFunction_name in HF, E. by rewrite HF in E.
Qed.

(** Whatever the order, an iteration visits each member once. *)
Definition orders : Prop := (∀ l, callOrder l ≡ₚ l) ∧ (∀ l, mapOrder l ≡ₚ l).

Lemma starts_of_functions fs : concat (callsOfInterest startFunc <$> fs) = filter is_start (snd <$> concat ((λ f, (λ i, (f_name f, i)) <$> f_insts f) <$> fs)).
Proof.
  induction fs as [|f fs IH]; [done|]. rewrite !fmap_cons. cbn [concat]. rewrite fmap_app, filter_app, IH. f_equal.
  unfold callsOfInterest. f_equal. rewrite <- list_fmap_compose. symmetry. apply list_fmap_id.
Qed.

Lemma funcToRoisMap_Forall2 : (∀ F i, (F, i) ∈ all_insts M → is_start i → is_Some (visitROI i)) → orders →
  ∃ m, funcToRoisMap = Some m ∧
    Forall2 (λ f (e : string * list region), Forall2 (λ i roi, visitROI i = Some roi) (callOrder (callsOfInterest startFunc f)) e.2)
      (m_functions M) m.
Proof.
  intros Hall [Hcall _]. unfold funcToRoisMap.
  assert (∀ f, f ∈ m_functions M → ∃ r, computeROIs f = Some r ∧
    Forall2 (λ i roi, visitROI i = Some roi) (callOrder (callsOfInterest startFunc f)) r) as Hf.
  { intros f Hf. unfold computeROIs. destruct (proj2 (mapM_is_Some visitROI (callOrder (callsOfInterest startFunc f)))) as [r Hr].
    - apply Forall_forall. intros i Hi. rewrite Hcall in Hi. apply list_elem_of_filter in Hi as [Hs Hi]. apply (Hall (f_name f) i); [|done].
      apply list_elem_of_In, in_concat. eexists. split; apply list_elem_of_In; [by apply (list_elem_of_fmap_2 _ _ _ Hf)|].
      by apply (list_elem_of_fmap_2 (λ i, (f_name f, i))).
    - exists r. split; [done|]. by apply mapM_Some in Hr. }
  clear Hall. induction (m_functions M) as [|f fs IH]; [by exists []|].
  destruct IH as (m & Hm & Hm2); [intros f' Hf'; apply Hf; by right|]. destruct (Hf f) as (r & Hr & Hr2); [by left|].
  exists ((f_name f, r) :: m). cbn [mapM]. rewrite Hr. cbn [mbind option_bind]. rewrite Hm. split; [done|]. by constructor.
Qed.

(** All calls to start, and the regions they give. *)
Lemma getROIs_Forall2 : (∀ F i, (F, i) ∈ all_insts M → is_start i → is_Some (visitROI i)) → orders →
  ∃ rois starts, getROIs = Some rois ∧ starts ≡ₚ filter is_start (snd <$> all_insts M) ∧
    Forall2 (λ i roi, visitROI i = Some roi) starts rois.
Proof.
  intros Hall Hord. destruct (funcToRoisMap_Forall2 Hall Hord) as (m & Hm & H2). destruct Hord as [Hcall Hmap].
  apply Forall2_flip in H2. destruct (Permutation_Forall2 (Permutation_sym (Hmap m)) H2) as (fs & Hfs & H2').
  unfold getROIs. rewrite Hm. cbn [mbind option_bind].
  exists (concat (mapOrder m).*2), (concat ((λ f, callOrder (callsOfInterest startFunc f)) <$> fs)). split; [done|]. split.
  - unfold all_insts. rewrite <- starts_of_functions. rewrite Hfs. clear -Hcall.
    induction fs as [|f fs IH]; [done|]. rewrite !fmap_cons. cbn [concat]. by rewrite Hcall, IH.
  - clear -H2'. induction H2' as [|e f es fs He _ IH]; [constructor|]. rewrite !fmap_cons. cbn [concat]. by apply Forall2_app.
Qed.

Lemma elem_of_starts i : i ∈ filter is_start (snd <$> all_insts M) ↔ ∃ F, (F, i) ∈ all_insts M ∧ is_start i.
Proof.
  rewrite list_elem_of_filter, list_elem_of_fmap. split.
  - intros [Hs ([F i'] & -> & Hin)]. by exists F.
  - intros (F & Hin & Hs). split; [done|]. by exists (F, i).
Qed.

Lemma visitROI_start i roi : visitROI i = Some roi → roi_start roi = i_id i.
Proof. unfold visitROI. intros H. apply bind_Some in H as (stops & _ & H). by destruct stops; [|injection H as <-]. Qed.

(** The bookkeeping of the regions. *)
Definition bookkeeping (I : Z) : Prop :=
  ∃ F i store a, (F, i) ∈ all_insts M ∧ is_start i ∧ through_variable i store a ∧
    (I = store ∨ I ∈ users a ∧ is_load_store I = true).

Lemma roiLoadsStores_through acc i roi store a : roi_start roi = i_id i → through_variable i store a →
  ∃ acc', roiLoadsStores acc roi = Some acc' ∧ ∀ I, I ∈ acc' ↔ I ∈ acc ∨ I = store ∨ I ∈ users a ∧ is_load_store I = true.
Proof.
  intros Hs [Huse (v & b & s & r & Hst) _ _]. unfold roiLoadsStores. rewrite Hs, Huse. cbn [head mbind option_bind]. rewrite Hst.
  eexists. split; [done|]. intros I. rewrite !elem_of_union, elem_of_list_to_set, list_elem_of_filter, elem_of_singleton. tauto.
Qed.

Lemma computeROIsLoadsStores_through l rois acc :
  Forall2 (λ i roi, roi_start roi = i_id i) l rois → (∀ i, i ∈ l → ∃ store a, through_variable i store a) →
  ∃ set, mfoldl roiLoadsStores acc rois = Some set ∧
    ∀ I, I ∈ set ↔ I ∈ acc ∨ ∃ i store a, i ∈ l ∧ through_variable i store a ∧ (I = store ∨ I ∈ users a ∧ is_load_store I = true).
Proof.
  intros H. revert acc. induction H as [|i roi l rois Hs _ IH]; intros acc Hall.
  { exists acc. split; [done|]. intros I. split; [by left|]. intros [?|(i & store & a & Hi & _)]; [done|by apply elem_of_nil in Hi]. }
  destruct (Hall i) as (store & a & Htv); [by left|].
  destruct (roiLoadsStores_through acc i roi store a Hs Htv) as (acc' & E & Hacc).
  destruct (IH acc') as (set & E' & Hset); [intros i' Hi'; apply Hall; by right|].
  exists set. cbn [mfoldl]. rewrite E. cbn [mbind option_bind]. split; [done|]. intros I. rewrite Hset, Hacc. split.
  - intros [[?|Hb]|(i' & s' & a' & Hi' & Hb)]; [by left|right; exists i, store, a; split; [by left|done]|].
    right. exists i', s', a'. split; [by right|done].
  - intros [?|(i' & s' & a' & Hi' & Htv' & Hb)]; [by left; left|]. apply elem_of_cons in Hi' as [->|Hi'].
    + left. right. destruct Htv as [U1 (v1 & b1 & c1 & d1 & O1) _ _], Htv' as [U2 (v2 & b2 & c2 & d2 & O2) _ _].
      rewrite U1 in U2. injection U2 as <-. rewrite O1 in O2. by injection O2 as _ <- _ _ _.
    + right. by exists i', s', a'.
Qed.

(** No check aborts; the regions and the bookkeeping. *)
Lemma rois_spec : orders → is_Some stopFunc → (∀ F i, (F, i) ∈ all_insts M → is_start i → ∃ store a, through_variable i store a) →
  ∃ rois starts set, getROIs = Some rois ∧ starts ≡ₚ filter is_start (snd <$> all_insts M) ∧
    Forall2 (λ i roi, visitROI i = Some roi) starts rois ∧
    computeROIsLoadsStores rois = Some set ∧ ∀ I, I ∈ set ↔ bookkeeping I.
Proof.
  intros Hord Hstop Hall. pose proof (stop_not_context Hstop) as Hne.
  destruct getROIs_Forall2 as (rois & starts & Hrois & Hperm & H2); [|done|].
  { intros F i Hin Hs. destruct (Hall F i Hin Hs) as (store & a & Htv).
    destruct (visitROI_through i store a Hne Htv) as (stops & -> & _). done. }
  assert (∀ i, i ∈ starts ↔ ∃ F, (F, i) ∈ all_insts M ∧ is_start i) as Hmem by (intros i; by rewrite Hperm, elem_of_starts).
  assert (Forall2 (λ i roi, roi_start roi = i_id i) starts rois) as Hstarts
    by (eapply Forall2_impl; [exact H2|]; intros i roi; apply visitROI_start).
  destruct (computeROIsLoadsStores_through _ _ ∅ Hstarts) as (set & Hset & Hin).
  { intros i (F & Hi & Hs)%Hmem. by apply (Hall F i). }
  exists rois, starts, set. split_and!; try done. intros I. rewrite Hin. unfold bookkeeping. split.
  - intros [H%elem_of_empty|(i & store & a & (F & Hi & Hs)%Hmem & Htv & Hb)]; [done|]. by exists F, i, store, a.
  - intros (F & i & store & a & Hi & Hs & Htv & Hb). right. exists i, store, a. split; [|done]. apply Hmem. by exists F.
Qed.

(** The starts of the regions are the calls, in some order. *)
Lemma starts_permutation starts rois : starts ≡ₚ filter is_start (snd <$> all_insts M) →
  Forall2 (λ i roi, visitROI i = Some roi) starts rois →
  roi_start <$> rois ≡ₚ i_id <$> filter is_start (snd <$> all_insts M).
Proof.
  intros Hperm H2. rewrite <- Hperm. clear Hperm. induction H2 as [|i roi l rois E%visitROI_start _ IH]; [done|].
  rewrite !fmap_cons, E. by f_equiv.
Qed.

(** C37: the regions are found, and their bookkeeping with them.  In a module that
    declares the stop function and whose regions all follow the pattern of code that was
    not optimised (the identifier a start call gives has one use, a store to a variable,
    and each load of this variable has one use, a call of the stop function, at least
    once, or of the function that ends an invocation), no check aborts: there is exactly
    one region for each call of the start function, whatever the order in which the
    containers are iterated, with exactly the stop calls that get its identifier; and the
    instructions left out as bookkeeping are exactly the stores of the identifiers and the
    loads and stores of their variables. *)
Theorem rois_found : orders →
  is_Some stopFunc → (∀ F i, (F, i) ∈ all_insts M → is_start i → ∃ store a, through_variable i store a) →
  ∃ rois set, getROIs = Some rois ∧
    roi_start <$> rois ≡ₚ i_id <$> filter is_start (snd <$> all_insts M) ∧
    (∀ roi, roi ∈ rois → ∃ F i store a, (F, i) ∈ all_insts M ∧ is_start i ∧ roi_start roi = i_id i ∧ through_variable i store a ∧
      ∀ u, u ∈ roi_stops roi ↔ stop_through a u) ∧
    computeROIsLoadsStores rois = Some set ∧ ∀ I, I ∈ set ↔ bookkeeping I.
Proof.
  intros Hord Hstop Hall. destruct (rois_spec Hord Hstop Hall) as (rois & starts & set & Hrois & Hperm & H2 & Hset & Hin).
  exists rois, set. split; [done|]. split; [by eapply starts_permutation|]. split; [|by split].
  intros roi Hroi. apply list_elem_of_lookup in Hroi as [k Hk]. destruct (Forall2_lookup_r _ _ _ _ _ H2 Hk) as (i & Hi & Hv).
  apply list_elem_of_lookup_2 in Hi. rewrite Hperm in Hi. apply elem_of_starts in Hi as (F & Hi & Hs). destruct (Hall F i Hi Hs) as (store & a & Htv).
  destruct (visitROI_through i store a (stop_not_context Hstop) Htv) as (stops & E & Hu). rewrite E in Hv. injection Hv as <-.
  by exists F, i, store, a.
Qed.

(** In optimised code the identifier stays in a register.  With two stop calls the
    regions are still found, but their bookkeeping is not: the first user of the
    start call is cast to a store, which it is not. *)
Lemma register_no_bookkeeping callToStart u1 u2 us :
  users (Inst (i_id callToStart)) = u1 :: u2 :: us → Forall (λ u, calls u stopFunc = true) (u1 :: u2 :: us) →
  visitROI callToStart = Some (Region (i_id callToStart) (u1 :: u2 :: us)) ∧
  ∀ acc, roiLoadsStores acc (Region (i_id callToStart) (u1 :: u2 :: us)) = None.
Proof.
  intros Hu Hc. unfold visitROI, roiLoadsStores. cbn [roi_start]. rewrite Hu. split.
  - cbn [mbind option_bind]. assert (filter (λ u, calls u stopFunc = true) (u1 :: u2 :: us) = u1 :: u2 :: us) as ->; [|done].
    clear Hu. induction Hc as [|u l Hx _ IH]; [done|]. rewrite filter_cons_True by done. by f_equal.
  - intros acc. cbn [head mbind option_bind]. apply Forall_cons in Hc as [Hc _].
    apply calls_spec in Hc as (o & -> & Ho). by destruct o.
Qed.

(** Without a declaration of the start function both sides of the comparison are
    null: every indirect call starts a region. *)
Lemma undeclared_start F i operands : startFunc = None → (F, i) ∈ all_insts M → i_op i = CallInst None operands →
  is_start i.
Proof. intros Hs _ Hop. unfold is_start. by rewrite Hop, Hs. Qed.
End rois.

(** ** An example: two regions of code that was not optimised, found last first *)

Module Demo.
Definition nowhere (id : Z) (o : opcode) : inst := MkInst id o None NotAVariable.

Definition main : func := MkFunc "main" [MkBlock "entry"
  [nowhere 1 (AllocaInst (OtherTy 64 false));
   nowhere 10 (AllocaInst (OtherTy 64 false));
   nowhere 2 (CallInst (Some MEMORYTOOL_START_TRACKING) []);
   nowhere 3 (StoreInst (Inst 2) (Inst 1) false 64 64);
   nowhere 4 (LoadInst (GlobalVar 50));
   nowhere 5 (LoadInst (Inst 1));
   nowhere 6 (CallInst (Some MEMORYTOOL_CONTEXT) [Inst 5]);
   nowhere 7 (LoadInst (Inst 1));
   nowhere 8 (CallInst (Some MEMORYTOOL_STOP_TRACKING) [Inst 7]);
   nowhere 12 (CallInst (Some MEMORYTOOL_START_TRACKING) []);
   nowhere 13 (StoreInst (Inst 12) (Inst 10) false 64 64);
   nowhere 14 (LoadInst (Inst 10));
   nowhere 15 (CallInst (Some MEMORYTOOL_STOP_TRACKING) [Inst 14]);
   nowhere 9 ReturnInst]] false false.

Definition declare (name : string) : func := MkFunc name [] false false.

Definition M : modul :=
  MkModule [main; declare MEMORYTOOL_START_TRACKING; declare MEMORYTOOL_STOP_TRACKING; declare MEMORYTOOL_CONTEXT] [].

Definition users (v : value) : list Z :=
  match v with
  | Inst 1 => [3; 5; 7] | Inst 2 => [3] | Inst 5 => [6] | Inst 7 => [8] | GlobalVar 50 => [4]
  | Inst 10 => [13; 14] | Inst 12 => [13] | Inst 14 => [15] | _ => []
  end.

Lemma starts F i : (F, i) ∈ all_insts M → is_start M i → i_id i = 2 ∨ i_id i = 12.
Proof.
  intros Hin. apply list_elem_of_In in Hin. unfold all_insts in Hin. simpl in Hin. unfold is_start.
  repeat (destruct Hin as [E|Hin]; [injection E as <- <-; by vm_compute; auto|]). done.
Qed.

Lemma M_through i : i_id i = 2 ∨ i_id i = 12 → ∃ store a, through_variable M users i store a.
Proof.
  intros [Hi|Hi]; [exists 3, (Inst 1)|exists 13, (Inst 10)]; (split; rewrite ?Hi; [done|by eexists _, _, _, _|..]).
  - intros l p Hl Hop. apply list_elem_of_In in Hl. simpl in Hl. destruct Hl as [<-|[<-|[<-|[]]]]; [by vm_compute in Hop|..].
    + exists 6. split; [done|]. left. vm_compute. reflexivity.
    + exists 8. split; [done|]. right. vm_compute. reflexivity.
  - exists 7, (Inst 1), 8. split; [apply list_elem_of_In; simpl; tauto|]. split_and!; vm_compute; reflexivity.
  - intros l p Hl Hop. apply list_elem_of_In in Hl. simpl in Hl. destruct Hl as [<-|[<-|[]]]; [by vm_compute in Hop|].
    exists 15. split; [done|]. right. vm_compute. reflexivity.
  - exists 14, (Inst 10), 15. split; [apply list_elem_of_In; simpl; tauto|]. split_and!; vm_compute; reflexivity.
Qed.

Definition backwards {A} (l : list A) : list A := reverse l.

Lemma backwards_orders : orders backwards backwards.
Proof. split; intros l; apply reverse_Permutation. Qed.

Lemma rois_found_witness :
  ∃ rois set, getROIs M users backwards backwards = Some rois ∧ roi_start <$> rois = [12; 2] ∧
    roi_start <$> rois ≡ₚ [2; 12] ∧ computeROIsLoadsStores M users rois = Some set ∧
    3 ∈ set ∧ 4 ∉ set ∧ 5 ∈ set ∧ 7 ∈ set ∧ 14 ∈ set.
Proof.
  destruct (rois_found M users backwards backwards) as (rois & set & Hr & Hs & _ & Hset & Hin).
  - apply backwards_orders.
  - vm_compute. by eexists.
  - intros F i Hi Hst. apply M_through. by eapply starts.
  - assert ((λ rs, (computeROIsLoadsStores M users rs, roi_start <$> rs)) <$> Some rois = Some (Some {[3; 5; 7; 13; 14]}, [12; 2])) as H
      by (rewrite <- Hr; vm_compute; reflexivity).
    simpl in H. rewrite Hset in H. injection H as -> Hstarts.
    exists rois, {[3; 5; 7; 13; 14]}. split; [exact Hr|]. split; [exact Hstarts|].
    split; [rewrite Hs; change (i_id <$> filter (is_start M) (snd <$> all_insts M)) with [2; 12]; done|]. split; [exact Hset|]. split_and!.
    all: first [set_solver|apply (bool_decide_unpack _); vm_compute; exact I].
Defined.
End Demo.
