(* ===== verification/Instrument.v ===== *)
(** * Instrument.v: the calls the pass inserts

    The second half of src/src/CatPass.cpp: [runOnModule] from the point where it
    modifies the module, with insertInstructions of src/src/Utils.cpp and
    src/src/LoadStoreInstrumentation.cpp.  A block is the list of its instructions,
    those of the program and those inserted; the program executes a block from its
    first instruction to its last.  Where [splitBasicBlock] and a guard (Guards.v)
    are inserted before an access, the list holds the test and the branch of the
    guard, which rejoin before the access.  After every stage LLVM's verifier looks at
    the module, as in a Debug build; what it can find here is a block without its
    terminator, or with a phi node or a terminator out of place. *)

From stdpp Require Import pretty.
From S2P Require Import Prelude Helpers OrdMap Objects AllocTable ConnGraph Commit CleanBatch Shadow Batch.
From S2P Require Import Memory Callstack UniqueIds Wrapper RunData PostProcess DebugInfo Types CallGraph Visitor.

(** ** Instrumented modules *)

Definition TEXAS_REMOVE : string := "_Z42caratStateRemoveFromAllocationTableWrapperPv".
Definition TEXAS_MALLOC : string := "_Z22caratStateAllocWrappermPvmS_".
Definition TEXAS_CALLOC : string := "_Z23caratStateCallocWrappermPvmmS_".
Definition TEXAS_REALLOC : string := "_Z24caratStateReallocWrappermPvS_mS_".
Definition TEXAS_ADD_WITH_INFO : string := "_Z30texasAddToStateWithInfoWrappermPvmmS_".
Definition TEXAS_ADD_WITH_INFO_LOAD : string := "_Z19texasAddToStateLoadmPvS_".
Definition TEXAS_ADD_ESCAPE : string := "_Z28caratAddToEscapeTableWrapperPv".
Definition TEXAS_SET_STATE : string := "_Z14setDirectStatemPvllmmS_".
Definition PIN_START_TRACKING : string := "startLogPinAll".
Definition PIN_STOP_TRACKING : string := "stopLogPinAll".
Definition PIN_ADD : string := "_Z23texasAddMultiToStatePinmPv".

(** The arguments of an inserted call: constants, the results of the casts inserted
    with it, and the callstack of the function. *)
Inductive arg :=
  | AConst (n : Z)
  | APointerCast (v : value)
  | AIntCast (v : value)
  | AConstCast (n : Z)
  | ACallstack (F : string).

(** Inserted instructions. *)
Inductive rt :=
  | PointerCast (v : value)
  | IntCast (v : value)
  | ConstCast (n : Z)
  | RuntimeCall (f : string) (args : list arg).

(** The guards of Guards.v that [runOnModule] inserts. *)
Inductive guard := OnlyReadGuard | DirectGuardIorO | DirectGuardOorCO.

(** The instructions of a block: of the program, the call that builds the
    callstack, inserted ones, and the two halves of a guard: the comparison, and
    the branch over the wrapper block with the calls that is in (for the guard of
    an output that may become cloneable there are two). *)
Inductive item :=
  | Orig (i : inst)
  | Callstack (F : string) (c : callstack_call)
  | Rt (r : rt)
  | GuardTest (g : guard) (addr : value)
  | GuardBranch (g : guard) (wrapped : list (list rt)).

(** Instructions the pass keeps pointers to. *)
Inductive anchor := AtInst (id : Z) | AtCallstack (F : string).

#[global] Instance anchor_dec : EqDecision anchor.
Proof. solve_decision. Defined.

Definition anchor_of (x : item) : option anchor :=
  match x with Orig i => Some (AtInst (i_id i)) | Callstack F _ => Some (AtCallstack F) | _ => None end.

(** The functions with their blocks. *)
Definition mstate : Type := list (string * list (string * list item)).

Definition module_items (M : modul) : mstate :=
  (λ f, (f_name f, (λ b, (b_name b, Orig <$> b_insts b)) <$> f_blocks f)) <$> m_functions M.

Definition map_blocks (h : string → string → list item → list item) (st : mstate) : mstate :=
  (λ Fbs : string * list (string * list item),
    (Fbs.1, (λ B : string * list item, (B.1, h Fbs.1 B.1 B.2)) <$> Fbs.2)) <$> st.

Definition map_items (h : item → list item) (st : mstate) : mstate := map_blocks (λ _ _ items, items ≫= h) st.

(** The function an instruction is in and the instruction. *)
Definition find_in_block (a : anchor) (items : list item) : option item :=
  snd <$> list_find (λ x, anchor_of x = Some a) items.

Definition find_item (a : anchor) (st : mstate) : option (string * item) :=
  head (omap (λ Fbs : string * list (string * list item),
    x ← head (omap (λ B : string * list item, find_in_block a B.2) Fbs.2); Some (Fbs.1, x)) st).

(** ** Inserting *)

Definition insertBefore (a : anchor) (g : list item) : mstate → mstate :=
  map_items (λ x, if decide (anchor_of x = Some a) then g ++ [x] else [x]).

Definition insertAfter (a : anchor) (g : list item) : mstate → mstate :=
  map_items (λ x, if decide (anchor_of x = Some a) then x :: g else [x]).

(** [insertInstructions]: the first instruction at the point, each of the others
    after the one before it. *)
Definition insertInstructions (g : list item) (a : anchor) (before : bool) (st : mstate) : mstate :=
  if before then insertBefore a g st else insertAfter a g st.

Definition isTerminator (o : opcode) : bool :=
  match o with InvokeInst _ _ _ _ | ReturnInst => true | OtherInst t => t | _ => false end.

Definition is_phi (x : item) : bool :=
  match x with Orig i => match i_op i with PHINode => true | _ => false end | _ => false end.

(** [getFirstInsertionPt] of a block that is no landing pad: after its phi nodes. *)
Fixpoint after_phis (g items : list item) : list item :=
  match items with
  | x :: items' => if is_phi x then x :: after_phis g items' else g ++ x :: items'
  | [] => g
  end.

(** [insertInstructionsWithCheck]: before a terminator, after any other
    instruction; for an invoke, at the start of its normal destination. *)
Definition insertInstructionsWithCheck (g : list item) (a : anchor) (st : mstate) : option mstate :=
  '(F, x) ← find_item a st;
  match x with
  | Orig i =>
      match i_op i with
      | InvokeInst _ _ normalDest _ =>
          Some (map_blocks (λ F' B items, if decide (F' = F ∧ B = normalDest) then after_phis g items else items) st)
      | o => Some (insertInstructions g a (isTerminator o) st)
      end
  | _ => Some (insertInstructions g a false st)
  end.

(** ** The groups

    The casts and the call that report one entry.  [funcToCallstack] holds the
    functions that build a callstack; without one the pass aborts. *)
Section groups.
  Context (funcToCallstack : gmap string callstack_call).

Definition callstack_of (F : string) : option arg := _ ← funcToCallstack !! F; Some (ACallstack F).

(** One iteration of [instrumentAllocations]: the group and where it goes; globals
    go to the first instruction of [main]. *)
Definition allocation_group (firstInstOfMain : anchor) (e : entry) : option (list rt * anchor) :=
  p ← en_allocPointer e;
  '(c, size) ← (if decide (en_size e = 0) then s ← en_allocSize e; Some (IntCast s, AIntCast s)
                else Some (ConstCast (en_size e), AConstCast (en_size e)));
  '(a, cs) ← match en_value e with
    | Inst i => cs ← callstack_of (en_function e); Some (AtInst i, cs)
    | GlobalVar _ => cs ← callstack_of "main"; Some (firstInstOfMain, cs)
    | OtherValue _ => None
    end;
  Some ([PointerCast p; c; RuntimeCall TEXAS_MALLOC [AConst (en_id (en_debug e)); APointerCast p; size; cs]], a).

Definition calloc_group (e : entry) : option (list rt * anchor) :=
  p ← en_allocPointer e; s ← en_allocSize e; n ← en_allocNumElems e;
  match en_value e with
  | Inst i => cs ← callstack_of (en_function e);
      Some ([PointerCast p; IntCast s; IntCast n;
        RuntimeCall TEXAS_CALLOC [AConst (en_id (en_debug e)); APointerCast p; AIntCast s; AIntCast n; cs]], AtInst i)
  | _ => None
  end.

Definition realloc_group (e : entry) : option (list rt * anchor) :=
  p ← en_allocPointer e; q ← en_allocNewPointer e; s ← en_allocSize e;
  match en_value e with
  | Inst i => cs ← callstack_of (en_function e);
      Some ([PointerCast p; PointerCast q; IntCast s;
        RuntimeCall TEXAS_REALLOC [AConst (en_id (en_debug e)); APointerCast p; APointerCast q; AIntCast s; cs]], AtInst i)
  | _ => None
  end.

Definition unknown_group (e : entry) : option (list rt * anchor) :=
  match en_value e with
  | Inst i => cs ← callstack_of (en_function e);
      Some ([RuntimeCall PIN_STOP_TRACKING []; RuntimeCall PIN_ADD [AConst (en_id (en_debug e)); cs]], AtInst i)
  | _ => None
  end.

(** [getLoadStoreInstrumentation]: a store reports its size and the size of an
    element as well.  The pointer is that of the instruction, not of the entry. *)
Definition load_store_group (e : entry) (st : mstate) : option (list rt) :=
  match en_value e with
  | Inst id =>
      '(F, x) ← find_item (AtInst id) st; cs ← callstack_of F;
      match x with
      | Orig i =>
          match i_op i with
          | StoreInst _ p _ _ _ => Some [PointerCast p; RuntimeCall TEXAS_ADD_WITH_INFO
              [AConst (en_id (en_debug e)); APointerCast p; AConst (en_size e); AConst (en_sizeElement e); cs]]
          | LoadInst p => Some [PointerCast p;
              RuntimeCall TEXAS_ADD_WITH_INFO_LOAD [AConst (en_id (en_debug e)); APointerCast p; cs]]
          | _ => None
          end
      | _ => None
      end
  | _ => None
  end.

(** [DirectStateLoadStore] and [createCallToRuntime]; a scalar gets the indices 0
    and 2. *)
Record DirectStateLoadStore := MkDirect {
  ds_inst : Z; ds_baseAddr : value; ds_startIndVar : option value; ds_stopIndVar : option value; ds_FSAState : operation
}.

Definition createCallToRuntime (elem : DirectStateLoadStore) (FSAState : operation) (elementBitwidth : Z) (F : string)
    (e : entry) : list rt :=
  let start := match ds_startIndVar elem with Some v => ([IntCast v], AIntCast v) | None => ([], AConst 0) end in
  let stop := match ds_stopIndVar elem with Some v => ([IntCast v], AIntCast v) | None => ([], AConst 2) end in
  PointerCast (ds_baseAddr elem) :: start.1 ++ stop.1 ++
    [RuntimeCall TEXAS_SET_STATE [AConst (en_id (en_debug e)); APointerCast (ds_baseAddr elem); start.2; stop.2;
      AConst elementBitwidth; AConst (op_code FSAState); ACallstack F]].
End groups.

(** ** The stages *)

Section stages.
  Context (funcToCallstack : gmap string callstack_call).

(** [callstackInstrumentation]: before the first instruction of each function in
    the map. *)
Definition insertCallstacks (st : mstate) : mstate :=
  (λ Fbs : string * list (string * list item),
    match funcToCallstack !! Fbs.1, Fbs.2 with
    | Some c, (B, items) :: bs => (Fbs.1, (B, Callstack Fbs.1 c :: items) :: bs)
    | _, _ => Fbs
    end) <$> st.

(** [&(M.getFunction(MAIN)->getEntryBlock().front())] *)
Definition firstInst (F : string) (st : mstate) : option item :=
  Fbs ← snd <$> list_find (λ Fbs, Fbs.1 = F) st; B ← head Fbs.2; head B.2.

Definition instrumentAllocations (entries : list entry) (st : mstate) : option mstate :=
  match entries with
  | [] => Some st
  | _ =>
      firstInstOfMain ← firstInst "main" st ≫= anchor_of;
      mfoldl (λ st e, '(g, a) ← allocation_group funcToCallstack firstInstOfMain e; insertInstructionsWithCheck (Rt <$> g) a st)
        st entries
  end.

Definition instrumentCallocs (entries : list entry) (st : mstate) : option mstate :=
  mfoldl (λ st e, '(g, a) ← calloc_group funcToCallstack e; insertInstructionsWithCheck (Rt <$> g) a st) st entries.

Definition instrumentReallocs (entries : list entry) (st : mstate) : option mstate :=
  mfoldl (λ st e, '(g, a) ← realloc_group funcToCallstack e; insertInstructionsWithCheck (Rt <$> g) a st) st entries.

(** [instrumentUnkowns]: tracking starts right before the call. *)
Definition instrumentUnkowns (entries : list entry) (st : mstate) : option mstate :=
  mfoldl (λ st e, '(g, a) ← unknown_group funcToCallstack e;
    insertInstructionsWithCheck (Rt <$> g) a (insertBefore a [Rt (RuntimeCall PIN_START_TRACKING [])] st)) st entries.

(** [instrumentOnlyReads]: the block is split at the load and the guard goes in
    between. *)
Definition instrumentOnlyReads (instToEntryMap : gmap Z entry) (instsToInstrument : list Z) (st : mstate) : option mstate :=
  mfoldl (λ st I, e ← instToEntryMap !! I; addr ← en_allocPointer e; g ← load_store_group funcToCallstack e st;
    Some (insertBefore (AtInst I) [GuardTest OnlyReadGuard addr; GuardBranch OnlyReadGuard [g]] st)) st instsToInstrument.

(** [instrumentDirectStateLoadStore]; an element that is neither an input nor an
    output is not instrumented.  The width of what a load returns comes from LLVM.
    A function without a callstack would give the call a null argument. *)
Definition elementBitwidth (loadBitwidth : Z → Z) (x : item) : option Z :=
  match x with
  | Orig i => match i_op i with StoreInst _ _ _ scalar _ => Some scalar | _ => Some (loadBitwidth (i_id i)) end
  | _ => None
  end.

Definition instrumentDirectStateLoadStore (loadBitwidth : Z → Z) (instToEntryMap : gmap Z entry)
    (instsToInstrument : list DirectStateLoadStore) (st : mstate) : option mstate :=
  mfoldl (λ st elem,
    let a := AtInst (ds_inst elem) in
    e ← instToEntryMap !! ds_inst elem; '(F, x) ← find_item a st; _ ← callstack_of funcToCallstack F;
    w ← elementBitwidth loadBitwidth x;
    let call s := createCallToRuntime elem s w F e in
    let guarded k calls := Some (insertBefore a [GuardTest k (ds_baseAddr elem); GuardBranch k calls] st) in
    if decide (ds_FSAState elem = STATE_ADD_INPUT) then guarded DirectGuardIorO [call STATE_ADD_INPUT]
    else if decide (ds_FSAState elem = STATE_ADD_OUTPUT) then
      match ds_startIndVar elem with
      | Some _ => guarded DirectGuardIorO [call STATE_ADD_OUTPUT]
      | None => guarded DirectGuardOorCO [call STATE_ADD_OUTPUT; call STATE_ADD_CO]
      end
    else Some st) st instsToInstrument.

(** [instrumentLoadsStoresRegular]; the list is the map in the order of its
    iteration. *)
Definition instrumentLoadsStoresRegular (instToEntryMap : list (Z * entry)) (alreadyInstrumented : gset Z) (st : mstate)
    : option mstate :=
  mfoldl (λ st Ie,
    if decide (Ie.1 ∈ alreadyInstrumented) then Some st
    else g ← load_store_group funcToCallstack Ie.2 st; insertInstructionsWithCheck (Rt <$> g) (AtInst Ie.1) st)
    st instToEntryMap.
End stages.

Definition pointer_operand (i : inst) : option value := match i_op i with StoreInst _ p _ _ _ => Some p | _ => None end.

Definition instrumentEscapes (escapes : list (string * inst)) (st : mstate) : option mstate :=
  mfoldl (λ st Fi, p ← pointer_operand Fi.2;
    insertInstructionsWithCheck (Rt <$> [PointerCast p; RuntimeCall TEXAS_ADD_ESCAPE [APointerCast p]]) (AtInst (i_id Fi.2)) st)
    st escapes.

Definition remove_group (v : value) : list item := Rt <$> [PointerCast v; RuntimeCall TEXAS_REMOVE [APointerCast v]].

(** [inst->getOperand(0)] *)
Definition first_operand (i : inst) : option value :=
  match i_op i with CallInst _ operands | InvokeInst _ operands _ _ => head operands | _ => None end.

(** [instrumentDeallocs]: after the call, without the check for invokes. *)
Definition instrumentDeallocs (deallocs : list (string * inst)) (st : mstate) : option mstate :=
  mfoldl (λ st Fi, v ← first_operand Fi.2; Some (insertAfter (AtInst (i_id Fi.2)) (remove_group v) st)) st deallocs.

Definition eraseDeallocs (deallocs : list (string * inst)) (st : mstate) : mstate :=
  foldl (λ st Fi, map_items (λ x, if decide (anchor_of x = Some (AtInst (i_id Fi.2))) then [] else [x]) st) st deallocs.

(** [instrumentReturns]: the recorded allocas of the function, before the return. *)
Definition instrumentReturns (returns : list (string * inst)) (functionAllocaMap : gmap string (list value)) (st : mstate)
    : mstate :=
  foldl (λ st Fi,
    match functionAllocaMap !! Fi.1 with
    | None => st
    | Some allocas => foldl (λ st a, insertBefore (AtInst (i_id Fi.2)) (remove_group a) st) st allocas
    end) st returns.

(** [&(inst->getUnwindDest()->back())]: the block ends at the first place where it
    was split. *)
Fixpoint before_back (g items : list item) : list item :=
  match items with
  | [] => []
  | GuardBranch k w :: items' => g ++ GuardBranch k w :: items'
  | [x] => g ++ [x]
  | x :: items' => x :: before_back g items'
  end.

Definition instrumentInvokes (invokes : list (string * inst)) (functionAllocaMap : gmap string (list value)) (st : mstate)
    : mstate :=
  foldl (λ st Fi,
    match functionAllocaMap !! Fi.1, i_op Fi.2 with
    | Some allocas, InvokeInst _ _ _ unwindDest =>
        foldl (λ st a, map_blocks (λ F B items,
          if decide (F = Fi.1 ∧ B = unwindDest) then before_back (remove_group a) items else items) st) st allocas
    | _, _ => st
    end) st invokes.

(** The options of the pass that reach the runtime: whether each was given. *)
Record runtime_options := MkOptions {
  disableStateInBytesOpt : bool; disableInputOpt : bool; disableOutputOpt : bool; disableCloneableOpt : bool;
  disableTransferOpt : bool; cycleFindingOpt : bool; disableStateUsesOpt : bool; disableCallstackOpt : bool
}.

Definition prologue_args (o : runtime_options) : list arg :=
  let reversed b := AConst (if b : bool then 0 else 1) in
  let direct b := AConst (if b : bool then 1 else 0) in
  [reversed (disableStateInBytesOpt o); reversed (disableInputOpt o); reversed (disableOutputOpt o);
   reversed (disableCloneableOpt o); reversed (disableTransferOpt o); direct (cycleFindingOpt o);
   direct (disableStateUsesOpt o); direct (disableCallstackOpt o)].

(** [setRuntimeGlobalVariables]: before the first instruction of [main]. *)
Definition setRuntimeGlobalVariables (o : runtime_options) (st : mstate) : option mstate :=
  _ ← firstInst "main" st;
  Some ((λ Fbs : string * list (string * list item),
    match Fbs.2 with
    | (B, items) :: bs =>
        if decide (Fbs.1 = "main") then (Fbs.1, (B, Rt (RuntimeCall MEMORYTOOL_PROLOGUE (prologue_args o)) :: items) :: bs) else Fbs
    | [] => Fbs
    end) <$> st).

(** [getExitInstructions]: returns, and the calls whose caller, the function
    itself, is called [exit]. *)
Definition is_exit (F : string) (x : item) : bool :=
  match x with
  | Orig i => match i_op i with
      | ReturnInst => true
      | CallInst _ _ => bool_decide (F = "exit")
      | _ => false
      end
  | Callstack _ _ | Rt (RuntimeCall _ _) => bool_decide (F = "exit")
  | _ => false
  end.

Definition insertEpilogue (st : mstate) : mstate :=
  map_blocks (λ F B items, if decide (F = "main") then
    items ≫= (λ x, if is_exit F x then [Rt (RuntimeCall MEMORYTOOL_EPILOGUE []); x] else [x]) else items) st.

(** [runOnModule] from [insertRuntimeFunctions] on, which declares the functions
    called: the vectors of the visitor with their identifiers, the callstack calls,
    the map of accesses in the order of its iteration, what the analyses selected,
    and the options. *)
Record instrumentation := MkInstrumentation {
  in_visitor : visitor;
  in_callstacks : gmap string callstack_call;
  in_instToEntryMap : list (Z * entry);
  in_onlyRead : list Z;
  in_directState : list DirectStateLoadStore;
  in_instsToSkip : gset Z;
  in_loadBitwidth : Z → Z;
  in_options : runtime_options;
  in_disableAllInstrumentation : bool;
  in_disablePin : bool;
}.

Definition cycleFinding (x : instrumentation) : bool := cycleFindingOpt (in_options x).

(** A build without PIN has no stage for the calls of library functions, which does
    nothing when there are no entries. *)
Definition tracked_unknowns (x : instrumentation) : list entry := if in_disablePin x then [] else unknowns (in_visitor x).

(** ** LLVM's verifier

    [runOnModule] asserts after every stage that [verifyModule] finds nothing broken.
    Of its rules these two can fail in the model: a block ends with its terminator and
    has no other, and phi nodes come before everything else.  The rules on types,
    uses and dominance are about what an [item] does not hold. *)
Definition is_term (x : item) : bool := match x with Orig i => isTerminator (i_op i) | _ => false end.

Fixpoint terminated (items : list item) : bool :=
  match items with
  | [] => false
  | [x] => is_term x
  | x :: items => negb (is_term x) && terminated items
  end.

Fixpoint phis_first (items : list item) : bool :=
  match items with
  | [] => true
  | x :: items' => if is_phi x then phis_first items' else forallb (λ y, negb (is_phi y)) items'
  end.

Definition verifyModule (st : mstate) : bool :=
  forallb (λ Fbs : string * list (string * list item),
    forallb (λ B : string * list item, terminated B.2 && phis_first B.2) Fbs.2) st.

(** The assertion; [None] aborts. *)
Definition verified (st : mstate) : option mstate := if verifyModule st then Some st else None.

Definition instrument_state (x : instrumentation) (st : mstate) : option mstate :=
  let v := in_visitor x in
  let cs := in_callstacks x in
  let map := list_to_map (in_instToEntryMap x) in
  st ← verified (insertCallstacks cs st);
  st ← instrumentAllocations cs (allocations v) st; st ← verified st;
  st ← instrumentCallocs cs (callocs v) st; st ← verified st;
  st ← instrumentReallocs cs (reallocs v) st; st ← verified st;
  if cycleFinding x then
    st ← instrumentEscapes (escapes v) st; st ← verified st;
    verified (eraseDeallocs (deallocs v) st)
  else
    st ← instrumentUnkowns cs (tracked_unknowns x) st; st ← verified st;
    st ← instrumentOnlyReads cs map (in_onlyRead x) st; st ← verified st;
    st ← instrumentDirectStateLoadStore cs (in_loadBitwidth x) map (in_directState x) st; st ← verified st;
    st ← instrumentLoadsStoresRegular cs (in_instToEntryMap x) (in_instsToSkip x) st; st ← verified st;
    st ← instrumentDeallocs (deallocs v) st; st ← verified st;
    st ← verified (instrumentReturns (returns v) (functionAllocaMap v) st);
    verified (instrumentInvokes (invokes v) (functionAllocaMap v) st).

Definition runOnModule (M : modul) (x : instrumentation) : option mstate :=
  st ← verified (module_items M);
  st ← (if in_disableAllInstrumentation x then Some st else instrument_state x st);
  st ← setRuntimeGlobalVariables (in_options x) st; st ← verified st;
  verified (insertEpilogue st).

(** ** What is left of the program *)

Definition is_orig (x : item) : option inst := match x with Orig i => Some i | _ => None end.

(** The module without what was inserted. *)
Definition erase (st : mstate) : list (string * list (string * list inst)) :=
  (λ Fbs : string * list (string * list item), (Fbs.1, (λ B : string * list item, (B.1, omap is_orig B.2)) <$> Fbs.2)) <$> st.

Definition program (M : modul) : list (string * list (string * list inst)) :=
  (λ f, (f_name f, (λ b, (b_name b, b_insts b)) <$> f_blocks f)) <$> m_functions M.

(** Inserting leaves the program alone. *)
Definition inserts (h : list item → list item) : Prop := ∀ items, omap is_orig (h items) = omap is_orig items.

Lemma erase_map_blocks h st : (∀ F B, inserts (h F B)) → erase (map_blocks h st) = erase st.
Proof.
  intros Hh. unfold erase, map_blocks. rewrite <- list_fmap_compose. apply list_fmap_ext. intros _ [F bs] _. simpl.
  f_equal. rewrite <- list_fmap_compose. apply list_fmap_ext. intros _ [B items] _. simpl. f_equal. apply Hh.
Qed.

Lemma omap_cons_app {A B} (f : A → option B) x l : omap f (x :: l) = option_list (f x) ++ omap f l.
Proof. cbn. by destruct (f x). Qed.

Lemma inserts_bind (h : item → list item) : (∀ x, omap is_orig (h x) = option_list (is_orig x)) →
  inserts (λ items, items ≫= h).
Proof.
  intros Hh items. induction items as [|x items IH]; [done|]. by rewrite bind_cons, omap_app, IH, Hh, omap_cons_app.
Qed.

Definition inserted (g : list item) : Prop := omap is_orig g = [].

Lemma inserted_rt g : inserted (Rt <$> g).
Proof. unfold inserted. induction g; [done|]. rewrite fmap_cons. done. Qed.

Lemma erase_insertBefore a g st : inserted g → erase (insertBefore a g st) = erase st.
Proof.
  intros Hg. apply erase_map_blocks. intros F B. apply inserts_bind. intros x.
  case_decide; rewrite ?omap_app, ?Hg, omap_cons_app; simpl; by rewrite app_nil_r.
Qed.

Lemma erase_insertAfter a g st : inserted g → erase (insertAfter a g st) = erase st.
Proof.
  intros Hg. apply erase_map_blocks. intros F B. apply inserts_bind. intros x.
  case_decide; rewrite omap_cons_app, ?Hg; simpl; by rewrite app_nil_r.
Qed.

Lemma inserts_after_phis g : inserted g → inserts (after_phis g).
Proof.
  intros Hg items. induction items as [|x items IH]; [done|]. cbn [after_phis].
  destruct (is_phi x); rewrite ?omap_app, ?Hg, !omap_cons_app, ?IH; done.
Qed.

(** Where [before_back] inserts: before the first instruction at which the block
    ends. *)
Lemma before_back_split g items : items = [] ∨
  ∃ l x l', items = l ++ x :: l' ∧ before_back g items = l ++ g ++ x :: l'.
Proof.
  induction items as [|x items IH]; [by left|]. right.
  assert ((before_back g (x :: items) = g ++ x :: items) ∨ before_back g (x :: items) = x :: before_back g items ∧ items ≠ [])
    as [E|[E Hne]] by (destruct x, items; auto).
  - by exists [], x, items.
  - destruct IH as [->|(l & y & l' & -> & E')]; [done|]. exists (x :: l), y, l'. by rewrite E, E'.
Qed.

Lemma inserts_before_back g : inserted g → inserts (before_back g).
Proof.
  intros Hg items. destruct (before_back_split g items) as [->|(l & x & l' & -> & ->)]; [done|].
  by rewrite !omap_app, Hg.
Qed.

Lemma erase_insertInstructionsWithCheck g a st st' : inserted g → insertInstructionsWithCheck g a st = Some st' →
  erase st' = erase st.
Proof.
  intros Hg H. unfold insertInstructionsWithCheck in H. apply bind_Some in H as ([F x] & _ & H).
  assert (∀ b, erase (insertInstructions g a b st) = erase st) as Hi
    by (intros []; [by apply erase_insertBefore|by apply erase_insertAfter]).
  destruct x as [i| | | |]; try (injection H as <-; apply (Hi false)).
  destruct (i_op i) as [| |p|w p ip sc pr|t| | |b]; injection H as <-; try first [apply (Hi false)|apply (Hi true)|apply (Hi b)].
  apply erase_map_blocks. intros F' B items. cbv beta. case_decide; [by apply inserts_after_phis|done].
Qed.

Lemma verified_Some st st' : verified st = Some st' ↔ st' = st ∧ verifyModule st = true.
Proof. unfold verified. destruct (verifyModule st); naive_solver. Qed.

(** A stage leaves the program alone. *)
Definition keeps (stage : mstate → option mstate) : Prop := ∀ st st', stage st = Some st' → erase st' = erase st.

Lemma keeps_loop {A} (step : mstate → A → option mstate) l :
  (∀ st x st', step st x = Some st' → erase st' = erase st) → keeps (λ st, mfoldl step st l).
Proof.
  intros Hstep st st' H. eapply (mfoldl_ind (λ st1, erase st1 = erase st)); [exact H|done|].
  intros b x b' _ Hb Hs. by rewrite (Hstep _ _ _ Hs).
Qed.

Lemma erase_foldl {A} (step : mstate → A → mstate) l st :
  (∀ st x, erase (step st x) = erase st) → erase (foldl step st l) = erase st.
Proof. intros Hs. revert st. induction l as [|x l IH]; intros st; simpl; [done|]. by rewrite IH, Hs. Qed.

Lemma erase_insertCallstacks cs st : erase (insertCallstacks cs st) = erase st.
Proof.
  unfold insertCallstacks, erase. rewrite <- list_fmap_compose. apply list_fmap_ext. intros _ [F bs] _. simpl.
  destruct (cs !! F); [|done]. by destruct bs as [|[B items] bs].
Qed.

Section keeps.
  Context (cs : gmap string callstack_call).

Lemma keeps_groups (group : entry → option (list rt * anchor)) entries :
  keeps (λ st, mfoldl (λ st e, '(g, a) ← group e; insertInstructionsWithCheck (Rt <$> g) a st) st entries).
Proof.
  apply keeps_loop. intros st e st' H. apply bind_Some in H as ([g a] & _ & H).
  eapply erase_insertInstructionsWithCheck; [apply inserted_rt|done].
Qed.

Lemma keeps_allocations entries : keeps (instrumentAllocations cs entries).
Proof.
  intros st st' H. destruct entries as [|e entries]; [by injection H as <-|].
  apply bind_Some in H as (front & _ & H). eapply keeps_groups. exact H.
Qed.

Lemma keeps_unknowns entries : keeps (instrumentUnkowns cs entries).
Proof.
  apply keeps_loop. intros st e st' H. apply bind_Some in H as ([g a] & _ & H).
  apply erase_insertInstructionsWithCheck in H as ->; [by apply erase_insertBefore|apply inserted_rt].
Qed.

Lemma keeps_onlyReads m l : keeps (instrumentOnlyReads cs m l).
Proof.
  apply keeps_loop. intros st I st' H. apply bind_Some in H as (e & _ & H). apply bind_Some in H as (addr & _ & H).
  apply bind_Some in H as (g & _ & [= <-]). by apply erase_insertBefore.
Qed.

Lemma keeps_directState w m l : keeps (instrumentDirectStateLoadStore cs w m l).
Proof.
  apply keeps_loop. intros st elem st' H. cbv zeta in H. apply bind_Some in H as (e & _ & H).
  apply bind_Some in H as ([F x] & _ & H). apply bind_Some in H as (c & _ & H). apply bind_Some in H as (b & _ & H).
  repeat case_decide; [|destruct (ds_startIndVar elem)|]; injection H as <-; done || by apply erase_insertBefore.
Qed.

Lemma keeps_regular m skip : keeps (instrumentLoadsStoresRegular cs m skip).
Proof.
  apply keeps_loop. intros st [I e] st' H. simpl in H. case_decide; [by injection H as <-|].
  apply bind_Some in H as (g & _ & H). eapply erase_insertInstructionsWithCheck; [apply inserted_rt|done].
Qed.
End keeps.

Lemma keeps_escapes l : keeps (instrumentEscapes l).
Proof.
  apply keeps_loop. intros st Fi st' H. apply bind_Some in H as (p & _ & H).
  eapply erase_insertInstructionsWithCheck; [apply inserted_rt|done].
Qed.

Lemma keeps_deallocs l : keeps (instrumentDeallocs l).
Proof. apply keeps_loop. intros st Fi st' H. apply bind_Some in H as (v & _ & [= <-]). apply erase_insertAfter, inserted_rt. Qed.

Lemma erase_returns l m st : erase (instrumentReturns l m st) = erase st.
Proof.
  apply erase_foldl. clear st. intros st Fi. destruct (m !! Fi.1); [|done]. apply erase_foldl. intros st' a.
  apply erase_insertBefore, inserted_rt.
Qed.

Lemma erase_invokes l m st : erase (instrumentInvokes l m st) = erase st.
Proof.
  apply erase_foldl. clear st. intros st Fi. destruct (m !! Fi.1); [|done]. destruct (i_op Fi.2); try done.
  apply erase_foldl. intros st' a. apply erase_map_blocks. intros F B items. cbv beta.
  case_decide; [apply inserts_before_back, inserted_rt|done].
Qed.

Lemma erase_prologue o st st' : setRuntimeGlobalVariables o st = Some st' → erase st' = erase st.
Proof.
  intros H. apply bind_Some in H as (x & _ & [= <-]). unfold erase. rewrite <- list_fmap_compose. apply list_fmap_ext.
  intros _ [F [|[B items] bs]] _; simpl; [done|]. by case_decide.
Qed.

Lemma erase_epilogue st : erase (insertEpilogue st) = erase st.
Proof.
  apply erase_map_blocks. intros F B items. cbv beta. case_decide; [|done]. revert items. apply inserts_bind. intros x.
  destruct (is_exit F x); simpl; by destruct (is_orig x).
Qed.

(** The program without the calls that [eraseDeallocs] takes out. *)
Definition without (deallocs : list (string * inst)) (p : list (string * list (string * list inst))) :=
  (λ Fbs : string * list (string * list inst), (Fbs.1, (λ B : string * list inst,
    (B.1, filter (λ i, i_id i ∉ (λ Fi : string * inst, i_id Fi.2) <$> deallocs) B.2)) <$> Fbs.2)) <$> p.

Lemma erase_eraseDeallocs deallocs st : erase (eraseDeallocs deallocs st) = without deallocs (erase st).
Proof.
  revert st. induction deallocs as [|Fi l IH]; intros st; simpl.
  { unfold without, erase. rewrite <- list_fmap_compose. apply list_fmap_ext. intros _ [F bs] _. simpl. f_equal.
    rewrite <- list_fmap_compose. apply list_fmap_ext. intros _ [B items] _. simpl. f_equal. symmetry.
    induction (omap is_orig items) as [|i insts IH]; [done|]. rewrite filter_cons_True; [by rewrite IH|]. by apply not_elem_of_nil. }
  rewrite IH. unfold without, erase, map_items, map_blocks. rewrite <- !list_fmap_compose. apply list_fmap_ext.
  intros _ [F bs] _. simpl. f_equal. rewrite <- !list_fmap_compose. apply list_fmap_ext. intros _ [B items] _. simpl. f_equal.
  induction items as [|x items IHi]; [done|]. rewrite bind_cons, omap_app, filter_app, IHi, (omap_cons_app _ x items), filter_app.
  f_equal. destruct x as [i| | | |]; try done. simpl. unfold anchor_of. 
  destruct (decide (i_id i = i_id Fi.2)) as [E|Hne].
  - rewrite decide_True by congruence. simpl. rewrite !filter_cons. rewrite decide_False; [done|].
    rewrite E. intros Hn. apply Hn. by left.
  - rewrite decide_False by congruence. simpl. rewrite !filter_cons. 
    destruct (decide (i_id i ∉ (λ Fi : string * inst, i_id Fi.2) <$> l)) as [Hin|Hin].
    + rewrite decide_True; [done|]. by rewrite not_elem_of_cons.
    + rewrite decide_False; [done|]. rewrite not_elem_of_cons. by intros [? ?].
Qed.

(** C36: the pass does not touch the program.  For every module and whatever the
    visitor and the analyses give it: take out of the result what was inserted, and
    the functions, their blocks and the instructions in them are those of the
    module, in their order; in the mode that looks for reference cycles the
    deallocating calls are missing, and nothing else. *)
Theorem instrumented_program M x st :
  runOnModule M x = Some st →
  erase st = if cycleFinding x && negb (in_disableAllInstrumentation x) then without (deallocs (in_visitor x)) (program M)
             else program M.
Proof.
  intros H. unfold runOnModule in H. apply bind_Some in H as (st0 & [-> _]%verified_Some & H).
  apply bind_Some in H as (st1 & H1 & H). apply bind_Some in H as (st2 & H2 & H).
  apply bind_Some in H as (st3 & [-> _]%verified_Some & [-> _]%verified_Some).
  rewrite erase_epilogue, (erase_prologue _ _ _ H2).
  assert (erase (module_items M) = program M) as E0.
  { unfold erase, module_items, program. rewrite <- list_fmap_compose. apply list_fmap_ext. intros _ f _. simpl. f_equal.
    rewrite <- list_fmap_compose. apply list_fmap_ext. intros _ b _. simpl. f_equal.
    induction (b_insts b) as [|i insts IH]; [done|]. by rewrite fmap_cons, omap_cons_app, IH. }
  destruct (in_disableAllInstrumentation x); [injection H1 as <-; by rewrite andb_false_r|]. rewrite andb_true_r.
  unfold instrument_state in H1. cbv zeta in H1. apply bind_Some in H1 as (s0 & [-> _]%verified_Some & H1).
  apply bind_Some in H1 as (s1 & Ha & H1). apply bind_Some in H1 as (? & [-> _]%verified_Some & H1).
  apply bind_Some in H1 as (s2 & Hc & H1). apply bind_Some in H1 as (? & [-> _]%verified_Some & H1).
  apply bind_Some in H1 as (s3 & Hr & H1). apply bind_Some in H1 as (? & [-> _]%verified_Some & H1).
  apply keeps_allocations in Ha. apply keeps_groups in Hc, Hr. rewrite erase_insertCallstacks, E0 in Ha.
  rewrite Ha in Hc. rewrite Hc in Hr. destruct (cycleFinding x).
  - apply bind_Some in H1 as (s4 & He & H1). apply bind_Some in H1 as (? & [-> _]%verified_Some & [-> _]%verified_Some).
    apply keeps_escapes in He. by rewrite erase_eraseDeallocs, He, Hr.
  - apply bind_Some in H1 as (s4 & Hu & H1). apply bind_Some in H1 as (? & [-> _]%verified_Some & H1).
    apply bind_Some in H1 as (s5 & Ho & H1). apply bind_Some in H1 as (? & [-> _]%verified_Some & H1).
    apply bind_Some in H1 as (s6 & Hd & H1). apply bind_Some in H1 as (? & [-> _]%verified_Some & H1).
    apply bind_Some in H1 as (s7 & Hl & H1). apply bind_Some in H1 as (? & [-> _]%verified_Some & H1).
    apply bind_Some in H1 as (s8 & Hf & H1). apply bind_Some in H1 as (? & [-> _]%verified_Some & H1).
    apply bind_Some in H1 as (? & [-> _]%verified_Some & [-> _]%verified_Some).
    apply keeps_unknowns in Hu. apply keeps_onlyReads in Ho. apply keeps_directState in Hd. apply keeps_regular in Hl.
    apply keeps_deallocs in Hf. rewrite erase_invokes, erase_returns. congruence.
Qed.

(** ** An example: the mode that looks for cycles *)

Module Demo.
Definition dealloc7 : inst := MkInst 7 (CallInst (Some "free") [Inst 2]) (Visitor.Demo.loc 7 3) NoDeclare.
Definition malloc2 : entry :=
  MkIEntry (Inst 2) "main" (Some (Inst 2)) None (Some (OtherValue 100)) None 0 0 (MkEntry [] [] 3 7 1).

Definition x : instrumentation :=
  MkInstrumentation (push_dealloc ("main", dealloc7) (push_allocation malloc2 empty_visitor)) {["main" := Backtrace]}
    [] [] [] ∅ (λ _, 0) (MkOptions false false false false false true false false) false false.

(** The call of [free] is gone, everything else is there. *)
Lemma instrumented_program_witness :
  ∃ st, runOnModule Visitor.Demo.M x = Some st ∧
    erase st = without [("main", dealloc7)] (program Visitor.Demo.M) ∧
    (λ Fbs : string * list (string * list inst), (λ B : string * list inst, i_id <$> B.2) <$> Fbs.2) <$> erase st =
      [[[1; 2; 3; 4; 5; 6; 8]]; []; []; []].
Proof.
  destruct (runOnModule Visitor.Demo.M x) as [st|] eqn:E; [|exfalso; by vm_compute in E].
  pose proof (instrumented_program Visitor.Demo.M x st E) as H. exists st. split; [reflexivity|].
  split; [exact H|]. rewrite H. vm_compute. reflexivity.
Defined.

(** A deallocation that is an invoke ends its block.  Erased, it leaves the block
    without a terminator; with the removal behind it, the terminator is not the last
    instruction.  In both modes the assertion fails. *)
Definition free_invoke : inst := MkInst 7 (InvokeInst (Some "free") [GlobalVar 50] "next" "pad") None NoDeclare.

Definition M_invoke : modul := MkModule
  [MkFunc "main" [MkBlock "entry" [free_invoke]; MkBlock "next" [MkInst 8 ReturnInst None NoDeclare];
    MkBlock "pad" [MkInst 9 ReturnInst None NoDeclare]] false false] [].

Definition x_invoke (cycles : bool) : instrumentation :=
  MkInstrumentation (push_dealloc ("main", free_invoke) empty_visitor) {["main" := Backtrace]}
    [] [] [] ∅ (λ _, 0) (MkOptions false false false false false cycles false false) false false.

Lemma invoked_free_aborts cycles : runOnModule M_invoke (x_invoke cycles) = None.
Proof. by destruct cycles; vm_compute. Qed.

Example no_deallocs_no_abort : is_Some (runOnModule M_invoke (MkInstrumentation empty_visitor {["main" := Backtrace]}
    [] [] [] ∅ (λ _, 0) (MkOptions false false false false false true false false) false false)).
Proof. vm_compute. by eexists. Qed.
End Demo.
