(* ===== verification/Selection.v ===== *)
(** * Selection.v: the accesses an optimisation takes over

    The pass asks six analyses, one after the other, for the accesses that need no
    report at every execution: src/src/OnlyRead.cpp, DirectState.cpp, Invariant.cpp,
    MostlyInvariant.cpp, Induction.cpp and BaseAddressMostlyInvariant.cpp.  Loops,
    dependences, invariants and induction variables are NOELLE's, profiles and the
    operands of instructions LLVM's: parameters. *)

From stdpp Require Import relations.
From S2P Require Import Prelude Helpers OrdMap Objects AllocTable ConnGraph Commit CleanBatch Shadow Batch.
From S2P Require Import Memory Callstack UniqueIds Wrapper RunData PostProcess DebugInfo Types CallGraph TouchSame Visitor ROIs Instrument.

(** ** Loops *)

#[global] Instance value_countable : Countable value.
Proof.
  refine (inj_countable' (λ v, match v with Inst i => inl i | GlobalVar i => inr (inl i) | OtherValue i => inr (inr i) end)
    (λ s, match s with inl i => Inst i | inr (inl i) => GlobalVar i | inr (inr i) => OtherValue i end) _).
  by intros [].
Defined.

(** A dependence of an instruction, control or memory, with its other end. *)
Record dependence := MkDep { dep_src : value; isControlDependence : bool }.

(** A loop with the answers to what the analyses ask of it; the instructions in the
    order of its blocks.  [governing] is the induction variable that governs the
    loop, its instructions and its start, and [exitCondition] the value the loop
    ends at; null pointers are [None]. *)
Record loop := MkLoop {
  loop_insts : list Z;
  loop_headerTerminator : Z;
  loop_isInvariant : value → bool;
  loop_contributes : Z → bool;
  loop_governing : option (gset Z * value);
  loop_exitCondition : option value;
  loop_dependencesFrom : Z → list dependence;
  loop_dependencesTo : Z → list dependence;
}.

(** [GetElementPtrInst]: the pointer, the indices, and whether they are constants. *)
Record GetElementPtrInst := MkGep { gep_pointer : value; gep_indices : list value; gep_constantIndices : bool }.

Section selection.
  Context (M : modul).
  Context (gep : value → option GetElementPtrInst) (incoming : Z → list value) (operands : Z → list value).
  Context (elements : gset Z → list Z) (less : Z → Z → bool).

Definition isIncluded (l : loop) (I : Z) : bool := bool_decide (I ∈ loop_insts l).

(** The filter all analyses begin with. *)
Definition considered (instsToSkip : gset Z) (instToEntryMap : list (Z * entry)) (I : Z) : bool :=
  bool_decide (I ∈ instToEntryMap.*1) && negb (bool_decide (I ∈ instsToSkip)).

Definition allocPointer_of (instToEntryMap : list (Z * entry)) (I : Z) : option value :=
  e ← (list_to_map instToEntryMap : gmap Z entry) !! I; en_allocPointer e.

(** ** Loads of what does not change *)

Definition onlyRead_candidate (l : loop) (instsToSkip : gset Z) (instToEntryMap : list (Z * entry)) (I : Z) : bool :=
  considered instsToSkip instToEntryMap I &&
  match op_of M I with Some (LoadInst _) => loop_isInvariant l (Inst I) | _ => false end.

Definition getOnlyReadLoads (l : loop) instsToSkip instToEntryMap : gset Z :=
  list_to_set (filter (λ I, onlyRead_candidate l instsToSkip instToEntryMap I = true) (loop_insts l)).

(** [std::set_union] of two unordered sets, into the second of them. *)
Definition getOnlyReadLoadsAll (roiLoop : Z → option loop) (rois : list (region (I := Z))) instsToSkip instToEntryMap : gset Z :=
  foldl (λ instsToInstrument roi,
    match roiLoop (roi_start roi) with
    | None => instsToInstrument
    | Some l => list_to_set (set_union less (elements (getOnlyReadLoads l instsToSkip instToEntryMap))
        (elements instsToInstrument)) ∪ instsToInstrument
    end) ∅ rois.

(** ** Direct states *)

(** A null [loopGovIndVar] is dereferenced. *)
Definition isConnectedToLoopGovIndVar (pointerOperand : value) (l : loop) : option bool :=
  match gep pointerOperand with
  | Some (MkGep _ [Inst index] _) =>
      '(loopGovIndVarInsts, _) ← loop_governing l; Some (bool_decide (index ∈ loopGovIndVarInsts))
  | _ => Some false
  end.

(** [iterDep], the same in [isInput] and [isOutput]. *)
Definition iterDep (l : loop) (dep : dependence) : bool :=
  match dep_src dep with
  | Inst n =>
      if negb (isIncluded l n) then false
      else if isControlDependence dep then negb (bool_decide (n = loop_headerTerminator l))
      else match op_of M n ≫= getCalledFunction with
      | Some (Some callee) =>
          negb (match getFunction M callee with Some f => f_isIntrinsic f | None => false end) &&
          negb (bool_decide (callee ∈ [MEMORYTOOL_START_TRACKING; MEMORYTOOL_STOP_TRACKING; MEMORYTOOL_CONTEXT]))
      | _ => true
      end
  | _ => true
  end.

Definition independent (l : loop) (I : Z) : bool :=
  negb (existsb (iterDep l) (loop_dependencesFrom l I)) && negb (existsb (iterDep l) (loop_dependencesTo l I)).

Definition isInput (l : loop) (I : Z) : bool :=
  match op_of M I with Some (LoadInst _) => independent l I | _ => false end.
Definition isOutput (l : loop) (I : Z) : bool :=
  match op_of M I with Some (StoreInst _ _ _ _ _) => independent l I | _ => false end.

(** The element for an access of [pointerOperand] in the state [FSAState]. *)
Definition directState_of (l : loop) (I : Z) (pointerOperand : value) (FSAState : operation) : option DirectStateLoadStore :=
  connected ← isConnectedToLoopGovIndVar pointerOperand l;
  if connected : bool then
    g ← gep pointerOperand; '(_, start) ← loop_governing l; stop ← loop_exitCondition l;
    Some (MkDirect I (gep_pointer g) (Some start) (Some stop) FSAState)
  else Some (MkDirect I pointerOperand None None FSAState).

Definition directState_step (l : loop) (instsToSkip : gset Z) (instToEntryMap : list (Z * entry))
    (instsToInstrument : list DirectStateLoadStore) (I : Z) : option (list DirectStateLoadStore) :=
  if negb (considered instsToSkip instToEntryMap I) then Some instsToInstrument
  else if isInput l I then
    match op_of M I with
    | Some (LoadInst p) => d ← directState_of l I p STATE_ADD_INPUT; Some (instsToInstrument ++ [d])
    | _ => None
    end
  else if isOutput l I then
    match op_of M I with
    | Some (StoreInst _ p _ _ _) => d ← directState_of l I p STATE_ADD_OUTPUT; Some (instsToInstrument ++ [d])
    | _ => None
    end
  else Some instsToInstrument.

Definition getDirectStateLoadStore (l : loop) instsToSkip instToEntryMap : option (list DirectStateLoadStore) :=
  mfoldl (directState_step l instsToSkip instToEntryMap) [] (loop_insts l).

(** Only regions that the cloning pass tagged with [PROMOTE_ALLOCAS]. *)
Definition getDirectStateLoadStoreAll (roiLoop : Z → option loop) (promoteAllocas : Z → bool) (rois : list (region (I := Z)))
    instsToSkip instToEntryMap : option (list DirectStateLoadStore) :=
  mfoldl (λ instsToInstrument roi,
    match roiLoop (roi_start roi) with
    | None => Some instsToInstrument
    | Some l =>
        if negb (promoteAllocas (roi_start roi)) then Some instsToInstrument
        else tmp ← getDirectStateLoadStore l instsToSkip instToEntryMap; Some (instsToInstrument ++ tmp)
    end) [] rois.

Definition getDirectStateLoadStoreInsts (directStateToInstrumentAll : list DirectStateLoadStore) : gset Z :=
  list_to_set (ds_inst <$> directStateToInstrumentAll).

(** ** Invariants *)

(** The accesses of all loops that satisfy a condition on the loop, the access and
    its address. *)
Definition loop_step (candidate : loop → Z → value → bool) (instsToSkip : gset Z) (instToEntryMap : list (Z * entry)) (l : loop)
    (instsToInstrument : gset Z) (loopInstruction : Z) : gset Z :=
  if considered instsToSkip instToEntryMap loopInstruction then
    match allocPointer_of instToEntryMap loopInstruction with
    | Some addr => if candidate l loopInstruction addr then {[loopInstruction]} ∪ instsToInstrument else instsToInstrument
    | None => instsToInstrument
    end
  else instsToInstrument.

Definition in_loops (candidate : loop → Z → value → bool) (loops : list loop) (instsToSkip : gset Z)
    (instToEntryMap : list (Z * entry)) : gset Z :=
  foldl (λ instsToInstrument l, foldl (loop_step candidate instsToSkip instToEntryMap l) instsToInstrument (loop_insts l)) ∅ loops.

Definition getLoopInvariants : list loop → gset Z → list (Z * entry) → gset Z :=
  in_loops (λ l _ addr, loop_isInvariant l addr).

(** ** Mostly invariants *)

(** [getModifiers]: the instructions of the loop a pointer comes from through phi
    nodes; both sets are shared by all calls.  [None] is a stack that never ends. *)
Fixpoint getModifiers (fuel : nat) (l : loop) (ptr : Z) (modifiers visitedPHINodes : gset Z) : option (gset Z * gset Z) :=
  match fuel with
  | O => None
  | S fuel =>
      if decide (ptr ∈ modifiers) then Some (modifiers, visitedPHINodes)
      else if negb (isIncluded l ptr) then Some (modifiers, visitedPHINodes)
      else match op_of M ptr with
      | Some PHINode =>
          if decide (ptr ∈ visitedPHINodes) then Some (modifiers, visitedPHINodes)
          else
            mfoldl (λ st incomingValue,
              match incomingValue with
              | Inst incomingInst => getModifiers fuel l incomingInst st.1 st.2
              | _ => Some st
              end) (modifiers, {[ptr]} ∪ visitedPHINodes) (incoming ptr)
      | _ => Some ({[ptr]} ∪ modifiers, visitedPHINodes)
      end
  end.

(** [ratio > 0.5] of the two counters as [double], which is exact below 2^53; an
    access that was never executed divides by 0. *)
Definition foundHot (getInvocations : Z → Z) (I : Z) (modifiers : gset Z) : bool :=
  existsb (λ m, let instCounter := getInvocations I in let mCounter := getInvocations m in
    if decide (instCounter = 0) then bool_decide (0 < mCounter) else bool_decide (instCounter < 2 * mCounter))
    (elements modifiers).

Definition mostlyInvariant_candidate (getInvocations : Z → Z) (l : loop) (I : Z) (addr : value) : bool :=
  match addr with
  | Inst addrInst =>
      match getModifiers (S (S (List.length (loop_insts l)))) l addrInst ∅ ∅ with
      | Some (modifiers, _) => negb (foundHot getInvocations I modifiers)
      | None => false
      end
  | _ => false
  end.

Definition getLoopMostlyInvariants (getInvocations : Z → Z) : list loop → gset Z → list (Z * entry) → gset Z :=
  in_loops (mostlyInvariant_candidate getInvocations).

(** ** Inductions *)

(** [isConnectedToAnInductionVariableRecursive]: depth first through the operands,
    until an instruction contributes; [visited] is shared by all calls. *)
Fixpoint isConnectedToAnInductionVariableRecursive (fuel : nat) (l : loop) (val : value) (visited : gset value)
    : option (bool * gset value) :=
  match fuel with
  | O => None
  | S fuel =>
      if decide (val ∈ visited) then Some (false, visited)
      else
        let visited := {[val]} ∪ visited in
        match val with
        | Inst n =>
            if loop_contributes l n then Some (true, visited)
            else mfoldl (λ st operand,
              if st.1 : bool then Some st else isConnectedToAnInductionVariableRecursive fuel l operand st.2)
              (false, visited) (operands n)
        | _ => Some (false, visited)
        end
  end.

Definition isConnectedToAnInductionVariable (fuel : nat) (l : loop) (val : value) : option bool :=
  fst <$> isConnectedToAnInductionVariableRecursive fuel l val ∅.

(** A phi node whose values from inside the loop all move a pointer by constants. *)
Fixpoint specialIncoming (l : loop) (values : list value) (included : nat) : option nat :=
  match values with
  | [] => Some included
  | Inst n :: values =>
      if negb (isIncluded l n) then specialIncoming l values (S included)
      else match gep (Inst n) with
      | Some g => if gep_constantIndices g then specialIncoming l values included else None
      | None => None
      end
  | _ :: _ => None
  end.

Definition checkSpecialInductionCondition (addr : value) (l : loop) : bool :=
  match addr with
  | Inst n =>
      match op_of M n with
      | Some PHINode =>
          match specialIncoming l (incoming n) 0 with
          | Some included => negb (bool_decide (included = List.length (incoming n)))
          | None => false
          end
      | _ => false
      end
  | _ => false
  end.

Definition induction_candidate (l : loop) (I : Z) (addr : value) : bool :=
  checkSpecialInductionCondition addr l ||
  match isConnectedToAnInductionVariable (S (S (List.length (all_insts M)))) l addr with
  | Some true => match gep addr with Some _ => true | None => false end
  | _ => false
  end.

Definition getLoopInductions : list loop → gset Z → list (Z * entry) → gset Z := in_loops induction_candidate.

(** ** Base addresses *)

(** The accesses whose address is computed from a base; their entries then hold the
    base. *)
Definition getBaseAddressMostlyInvariants (instsToSkip : gset Z) (instToEntryMap : list (Z * entry))
    : gset Z * list (Z * entry) :=
  let chosen Ie := match en_allocPointer Ie.2 ≫= gep with
    | Some g => if decide (Ie.1 ∈ instsToSkip) then None else Some g
    | None => None
    end in
  (list_to_set (omap (λ Ie : Z * entry, (λ _, Ie.1) <$> chosen Ie) instToEntryMap),
   (λ Ie : Z * entry, match chosen Ie with
     | Some g => (Ie.1, MkIEntry (en_value Ie.2) (en_function Ie.2) (Some (gep_pointer g)) (en_allocNewPointer Ie.2)
         (en_allocSize Ie.2) (en_allocNumElems Ie.2) (en_size Ie.2) (en_sizeElement Ie.2) (en_debug Ie.2))
     | None => Ie
     end) <$> instToEntryMap).

(** ** The pipeline *)

(** The macros of the build that leave a stage out. *)
Record build_options := MkBuild {
  MEMORYTOOL_DISABLE_STORE_DFA_OPT : bool;
  MEMORYTOOL_DISABLE_SKIP_ROIS_LOADS_STORES : bool;
  MEMORYTOOL_DISABLE_ONLY_READ_OPT : bool;
  MEMORYTOOL_DISABLE_DIRECT_STATE : bool;
  MEMORYTOOL_DISABLE_LOOP_INVARIANT_STORE_OPT : bool;
  MEMORYTOOL_DISABLE_MOSTLY_LOOP_INVARIANT_STORE_OPT : bool;
  MEMORYTOOL_DISABLE_LOOP_INDUCTION_STORE_OPT : bool;
  MEMORYTOOL_DISABLE_BASE_ADDRESS_MOSTLY_INVARIANT_STORE_OPT : bool;
  MEMORYTOOL_DISABLE_PIN : bool;
}.

Record selection := MkSelection {
  onlyReadToInstrument : gset Z;
  directStateToInstrumentAll : list DirectStateLoadStore;
  invariantsToInstrument : gset Z;
  mostlyInvariantsToInstrument : gset Z;
  inductionsToInstrument : gset Z;
  baseAddressMostlyInvariantsToInstrument : gset Z;
  selected_instsToSkip : gset Z;
}.

(** What [runOnModule] asks for, in its order; each analysis leaves alone what an
    earlier one took. *)
Definition select (b : build_options) (enableDFAObjGranularity : bool) (roiLoop : Z → option loop) (promoteAllocas : Z → bool)
    (loops : list loop) (getInvocations : Z → Z) (rois : list (region (I := Z))) (instToEntryMap : list (Z * entry))
    : option selection :=
  let instsToSkip := ∅ in
  let onlyRead := if MEMORYTOOL_DISABLE_ONLY_READ_OPT b then ∅
    else getOnlyReadLoadsAll roiLoop rois instsToSkip instToEntryMap in
  let instsToSkip := mergeSets less elements [instsToSkip; onlyRead] in
  directState ← (if MEMORYTOOL_DISABLE_DIRECT_STATE b then Some []
    else getDirectStateLoadStoreAll roiLoop promoteAllocas rois instsToSkip instToEntryMap);
  let instsToSkip := mergeSets less elements [instsToSkip; getDirectStateLoadStoreInsts directState] in
  let invariants := if MEMORYTOOL_DISABLE_LOOP_INVARIANT_STORE_OPT b then ∅
    else getLoopInvariants loops instsToSkip instToEntryMap in
  let instsToSkip := mergeSets less elements [instsToSkip; invariants] in
  let mostlyInvariants := if MEMORYTOOL_DISABLE_MOSTLY_LOOP_INVARIANT_STORE_OPT b then ∅
    else getLoopMostlyInvariants getInvocations loops instsToSkip instToEntryMap in
  let instsToSkip := mergeSets less elements [instsToSkip; mostlyInvariants] in
  let inductions := if MEMORYTOOL_DISABLE_LOOP_INDUCTION_STORE_OPT b then ∅
    else if enableDFAObjGranularity then getLoopInductions loops instsToSkip instToEntryMap else ∅ in
  let instsToSkip := mergeSets less elements [instsToSkip; inductions] in
  let baseAddress := if MEMORYTOOL_DISABLE_BASE_ADDRESS_MOSTLY_INVARIANT_STORE_OPT b then ∅
    else if enableDFAObjGranularity then (getBaseAddressMostlyInvariants instsToSkip instToEntryMap).1 else ∅ in
  let instsToSkip := mergeSets less elements [instsToSkip; baseAddress] in
  Some (MkSelection onlyRead directState invariants mostlyInvariants inductions baseAddress instsToSkip).
End selection.

(** ** What is selected *)

Section facts.
  Context (M : modul).
  Context (gep : value → option GetElementPtrInst) (incoming : Z → list value) (operands : Z → list value).
  Context (elements : gset Z → list Z) (less : Z → Z → bool).
  Context (Helements : ∀ s I, I ∈ elements s ↔ I ∈ s) (Hless : ∀ a b, less a b = false → less b a = false → a = b).

Lemma considered_spec skip m n : considered skip m n = true ↔ n ∈ m.*1 ∧ n ∉ skip.
Proof. unfold considered. rewrite andb_true_iff, negb_true_iff, bool_decide_eq_true, bool_decide_eq_false. done. Qed.

Lemma elem_of_merge2 (s t : gset Z) : mergeSets less elements [s; t] = s ∪ t.
Proof. apply set_eq. intros n. rewrite (elem_of_mergeSets less elements) by done. set_solver. Qed.

Lemma elem_of_onlyReads roiLoop rois skip m n : n ∈ getOnlyReadLoadsAll M elements less roiLoop rois skip m ↔
  ∃ roi l, roi ∈ rois ∧ roiLoop (roi_start roi) = Some l ∧ n ∈ loop_insts l ∧ onlyRead_candidate M l skip m n = true.
Proof.
  unfold getOnlyReadLoadsAll.
  enough (∀ acc, n ∈ foldl (λ instsToInstrument roi, match roiLoop (roi_start roi) with
      | None => instsToInstrument
      | Some l => list_to_set (set_union less (elements (getOnlyReadLoads M l skip m)) (elements instsToInstrument)) ∪ instsToInstrument
      end) acc rois ↔ n ∈ acc ∨ ∃ roi l, roi ∈ rois ∧ roiLoop (roi_start roi) = Some l ∧ n ∈ loop_insts l ∧
        onlyRead_candidate M l skip m n = true) as H by (rewrite H; set_solver).
  induction rois as [|roi rois IH]; intros acc; cbn [foldl].
  { split; [by left|]. intros [?|(roi & l & ?%elem_of_nil & _)]; done. }
  rewrite IH. clear IH. destruct (roiLoop (roi_start roi)) as [l|] eqn:El.
  - rewrite elem_of_union, elem_of_list_to_set, (elem_of_set_union less) by done. rewrite !Helements. unfold getOnlyReadLoads.
    rewrite elem_of_list_to_set, list_elem_of_filter. split.
    + intros [[[[Hc Hn]|?]|?]|(roi' & l' & Hr & H)]; [|by left|by left|].
      * right. exists roi, l. split; [by left|]. by split_and!.
      * right. exists roi', l'. split; [by right|done].
    + intros [?|(roi' & l' & Hr & El' & Hn & Hc)]; [by left; right|]. apply elem_of_cons in Hr as [->|Hr].
      * rewrite El in El'. injection El' as <-. left. left. left. by split.
      * right. by exists roi', l'.
  - split; intros [?|(roi' & l' & Hr & El' & H)]; [by left| |by left|].
    + right. exists roi', l'. split; [by right|done].
    + apply elem_of_cons in Hr as [->|Hr]; [congruence|]. right. by exists roi', l'.
Qed.

Lemma elem_of_loop_step candidate l skip m acc J n : n ∈ loop_step candidate skip m l acc J ↔
  n ∈ acc ∨ n = J ∧ considered skip m n = true ∧ ∃ addr, allocPointer_of m n = Some addr ∧ candidate l n addr = true.
Proof.
  unfold loop_step. destruct (considered skip m J) eqn:Ec.
  2: { split; [by left|]. intros [?|(-> & Hc & _)]; [done|congruence]. }
  destruct (allocPointer_of m J) as [addr|] eqn:Ea.
  2: { split; [by left|]. intros [?|(-> & _ & addr & Ha & _)]; [done|congruence]. }
  destruct (candidate l J addr) eqn:Ed.
  - rewrite elem_of_union, elem_of_singleton. split.
    + intros [->|?]; [right; split; [done|]; split; [done|]; by exists addr|by left].
    + intros [?|(-> & _)]; [by right|by left].
  - split; [by left|]. intros [?|(-> & _ & addr' & Ha & Hd)]; [done|congruence].
Qed.

Lemma elem_of_in_loops candidate loops skip m n : n ∈ in_loops candidate loops skip m ↔
  ∃ l addr, l ∈ loops ∧ n ∈ loop_insts l ∧ considered skip m n = true ∧ allocPointer_of m n = Some addr ∧
    candidate l n addr = true.
Proof.
  unfold in_loops.
  assert (∀ l insts acc, n ∈ foldl (loop_step candidate skip m l) acc insts ↔ n ∈ acc ∨ n ∈ insts ∧ considered skip m n = true ∧
        ∃ addr, allocPointer_of m n = Some addr ∧ candidate l n addr = true) as Hinner.
  { intros l insts. induction insts as [|J insts IH]; intros acc; cbn [foldl].
    { split; [by left|]. intros [?|[?%elem_of_nil _]]; done. }
    rewrite IH, elem_of_loop_step, elem_of_cons. tauto. }
  enough (∀ acc, n ∈ foldl (λ acc l, foldl (loop_step candidate skip m l) acc (loop_insts l)) acc loops ↔ n ∈ acc ∨
      ∃ l addr, l ∈ loops ∧ n ∈ loop_insts l ∧ considered skip m n = true ∧ allocPointer_of m n = Some addr ∧
        candidate l n addr = true) as H by (rewrite H, elem_of_empty; tauto).
  induction loops as [|l loops IH]; intros acc; cbn [foldl].
  { split; [by left|]. intros [?|(l & addr & ?%elem_of_nil & _)]; done. }
  rewrite IH, Hinner. split.
  - intros [[?|(Hn & Hc & addr & Ha)]|(l' & addr & Hl' & H)]; [by left| |].
    + right. exists l, addr. split; [by left|]. by destruct Ha.
    + right. exists l', addr. split; [by right|done].
  - intros [?|(l' & addr & Hl' & Hn & Hc & Ha)]; [by left; left|]. apply elem_of_cons in Hl' as [->|Hl'].
    + left. right. split; [done|]. split; [done|]. by exists addr.
    + right. by exists l', addr.
Qed.

Lemma base_addresses_considered skip m n : n ∈ (getBaseAddressMostlyInvariants gep skip m).1 → considered skip m n = true.
Proof.
  unfold getBaseAddressMostlyInvariants. simpl. rewrite elem_of_list_to_set, list_elem_of_omap.
  intros ([n' e] & Hin & H). simpl in H. apply considered_spec. destruct (en_allocPointer e ≫= gep); [|done]. case_decide; [done|].
  injection H as <-. split; [|done]. by apply (list_elem_of_fmap_2 fst) in Hin.
Qed.

(** The entries of the accesses that were taken before keep their addresses. *)
Lemma base_addresses_entries skip m n e : n ∈ skip → (n, e) ∈ m → (n, e) ∈ (getBaseAddressMostlyInvariants gep skip m).2.
Proof.
  intros Hn Hin. unfold getBaseAddressMostlyInvariants. simpl. apply list_elem_of_fmap. exists (n, e). split; [|done].
  simpl. destruct (en_allocPointer e ≫= gep); [|done]. by rewrite decide_True.
Qed.

(** *** Direct states *)

(** An element for an access and what it says. *)
Definition direct_of (l : loop) (d : DirectStateLoadStore) : Prop :=
  ∃ p, directState_of gep l (ds_inst d) p (ds_FSAState d) = Some d ∧ independent M l (ds_inst d) = true ∧
    ((op_of M (ds_inst d) = Some (LoadInst p) ∧ ds_FSAState d = STATE_ADD_INPUT) ∨
     (∃ v b s r, op_of M (ds_inst d) = Some (StoreInst v p b s r)) ∧ ds_FSAState d = STATE_ADD_OUTPUT).

Lemma directState_of_fields l n p s d : directState_of gep l n p s = Some d → ds_inst d = n ∧ ds_FSAState d = s.
Proof.
  unfold directState_of. intros H. apply bind_Some in H as (c & _ & H). destruct c; [|by injection H as <-].
  apply bind_Some in H as (g & _ & H). apply bind_Some in H as ([ins st] & _ & H). apply bind_Some in H as (stop & _ & H).
  by injection H as <-.
Qed.

Lemma directState_of_total l n p s : is_Some (loop_governing l) → is_Some (loop_exitCondition l) →
  is_Some (directState_of gep l n p s).
Proof.
  intros [[insts start] Hg] [stop Hs]. unfold directState_of, isConnectedToLoopGovIndVar. rewrite Hg, Hs.
  destruct (gep p) as [[gp idx c]|]; [|by eexists].
  destruct idx as [|i [|i' idx]]; [by eexists| |destruct i; by eexists].
  destruct i as [j|j|j]; cbn [mbind option_bind]; [case_bool_decide|..]; by eexists.
Qed.

(** One step: nothing, or the element of the instruction. *)
Lemma directState_step_spec l skip m acc n : is_Some (loop_governing l) → is_Some (loop_exitCondition l) →
  ∃ new, directState_step M gep l skip m acc n = Some (acc ++ new) ∧
    (∀ d, d ∈ new → ds_inst d = n ∧ considered skip m n = true ∧ direct_of l d) ∧
    (considered skip m n = true → isInput M l n || isOutput M l n = true → ∃ d, d ∈ new).
Proof.
  intros Hg Hs. unfold directState_step. destruct (considered skip m n) eqn:Ec; cbn [negb].
  2: { exists []. rewrite app_nil_r. split; [done|]. split; [by intros d ?%elem_of_nil|done]. }
  assert (∀ p s, independent M l n = true →
    (op_of M n = Some (LoadInst p) ∧ s = STATE_ADD_INPUT) ∨ (∃ v b c r, op_of M n = Some (StoreInst v p b c r)) ∧ s = STATE_ADD_OUTPUT →
    ∃ new, (d ← directState_of gep l n p s; Some (acc ++ [d])) = Some (acc ++ new) ∧
      (∀ d, d ∈ new → ds_inst d = n ∧ true = true ∧ direct_of l d) ∧ ∃ d, d ∈ new) as Hone.
  { intros p s Hi Hop. destruct (directState_of_total l n p s Hg Hs) as [d Hd]. rewrite Hd. cbn [mbind option_bind].
    destruct (directState_of_fields _ _ _ _ _ Hd) as [<- <-]. exists [d]. split; [done|]. split; [|exists d; by left].
    intros d' Hd'. apply list_elem_of_singleton in Hd' as ->. split; [done|]. split; [done|]. by exists p. }
  unfold isInput, isOutput.
  destruct (op_of M n) as [[c o|c o dd w|p|v p b sc r| | | |t]|] eqn:Eop;
    try (exists []; rewrite app_nil_r; split; [done|]; split; [by intros d ?%elem_of_nil|done]).
  - destruct (independent M l n) eqn:Ei; cbn [orb].
    + destruct (Hone p STATE_ADD_INPUT eq_refl) as (new & E & H1 & H2); [by left|]. exists new. by split_and!.
    + exists []. rewrite app_nil_r. split; [done|]. split; [by intros d ?%elem_of_nil|done].
  - destruct (independent M l n) eqn:Ei; cbn [orb].
    + destruct (Hone p STATE_ADD_OUTPUT eq_refl) as (new & E & H1 & H2); [right; split; [by eexists _, _, _, _|done]|]. exists new. by split_and!.
    + exists []. rewrite app_nil_r. split; [done|]. split; [by intros d ?%elem_of_nil|done].
Qed.

(** A loop over a list in which each step adds to the end. *)
Lemma mfoldl_appends {A B} (step : list B → A → option (list B)) (P : A → B → Prop) (Q : A → list B → Prop) l acc :
  (∀ acc a, a ∈ l → ∃ new, step acc a = Some (acc ++ new) ∧ (∀ b, b ∈ new → P a b) ∧ Q a new) →
  ∃ new, mfoldl step acc l = Some (acc ++ new) ∧ (∀ b, b ∈ new → ∃ a, a ∈ l ∧ P a b) ∧
    ∀ a, a ∈ l → ∃ part, Q a part ∧ part ⊆ new.
Proof.
  revert acc. induction l as [|a l IH]; intros acc Hstep.
  { exists []. rewrite app_nil_r. split; [done|]. split; [by intros b ?%elem_of_nil|by intros a ?%elem_of_nil]. }
  destruct (Hstep acc a) as (new & E & HP & HQ); [by left|].
  destruct (IH (acc ++ new)) as (rest & E' & HP' & HQ'); [intros acc' a' Ha'; apply Hstep; by right|].
  exists (new ++ rest). cbn [mfoldl]. rewrite E. cbn [mbind option_bind]. rewrite E', <- app_assoc. split; [done|]. split.
  - intros b [Hb|Hb]%elem_of_app; [exists a; split; [by left|by apply HP]|]. destruct (HP' b Hb) as (a' & ? & ?).
    exists a'. split; [by right|done].
  - intros a' [->|Ha']%elem_of_cons; [exists new; split; [done|]; intros b Hb; apply elem_of_app; by left|].
    destruct (HQ' a' Ha') as (part & ? & Hp). exists part. split; [done|]. intros b Hb. apply elem_of_app. right. by apply Hp.
Qed.

(** The loops of the regions the direct states are searched in. *)
Definition direct_loop (roiLoop : Z → option loop) (promoteAllocas : Z → bool) (rois : list (region (I := Z))) (l : loop) : Prop :=
  ∃ roi, roi ∈ rois ∧ roiLoop (roi_start roi) = Some l ∧ promoteAllocas (roi_start roi) = true.

Lemma direct_all_spec roiLoop promoteAllocas rois skip m :
  (∀ l, direct_loop roiLoop promoteAllocas rois l → is_Some (loop_governing l) ∧ is_Some (loop_exitCondition l)) →
  ∃ ds, getDirectStateLoadStoreAll M gep roiLoop promoteAllocas rois skip m = Some ds ∧
    (∀ d, d ∈ ds → considered skip m (ds_inst d) = true ∧
      ∃ l, direct_loop roiLoop promoteAllocas rois l ∧ ds_inst d ∈ loop_insts l ∧ direct_of l d) ∧
    ∀ l n, direct_loop roiLoop promoteAllocas rois l → n ∈ loop_insts l → considered skip m n = true →
      isInput M l n || isOutput M l n = true → ∃ d, d ∈ ds ∧ ds_inst d = n.
Proof.
  intros Hgov.
  assert (∀ l, direct_loop roiLoop promoteAllocas rois l → ∃ ds, getDirectStateLoadStore M gep l skip m = Some ds ∧
    (∀ d, d ∈ ds → considered skip m (ds_inst d) = true ∧ ds_inst d ∈ loop_insts l ∧ direct_of l d) ∧
    ∀ n, n ∈ loop_insts l → considered skip m n = true → isInput M l n || isOutput M l n = true → ∃ d, d ∈ ds ∧ ds_inst d = n) as Hloop.
  { intros l Hl. destruct (Hgov l Hl) as [Hg Hs]. unfold getDirectStateLoadStore.
    destruct (mfoldl_appends (directState_step M gep l skip m) (λ n d, ds_inst d = n ∧ considered skip m n = true ∧ direct_of l d)
      (λ n new, (∀ d, d ∈ new → ds_inst d = n) ∧ (considered skip m n = true → isInput M l n || isOutput M l n = true → ∃ d, d ∈ new))
      (loop_insts l) []) as (ds & E & H1 & H2).
    { intros acc n _. destruct (directState_step_spec l skip m acc n Hg Hs) as (new & E & H1 & H2). exists new.
      split; [done|]. split; [done|]. split; [|done]. intros d Hd. by destruct (H1 d Hd). }
    exists ds. split; [done|]. split.
    - intros d Hd. destruct (H1 d Hd) as (n & Hn & <- & Hc & Ho). by split_and!.
    - intros n Hn Hc Hio. destruct (H2 n Hn) as (part & [Hp1 Hp2] & Hsub). destruct (Hp2 Hc Hio) as (d & Hd).
      exists d. split; [by apply Hsub|by apply Hp1]. }
  unfold getDirectStateLoadStoreAll.
  set (P := λ (roi : region (I := Z)) d, considered skip m (ds_inst d) = true ∧
    ∃ l, direct_loop roiLoop promoteAllocas rois l ∧ ds_inst d ∈ loop_insts l ∧ direct_of l d).
  set (Q := λ (roi : region (I := Z)) (new : list DirectStateLoadStore), ∀ l n, roiLoop (roi_start roi) = Some l →
    promoteAllocas (roi_start roi) = true → n ∈ loop_insts l → considered skip m n = true → isInput M l n || isOutput M l n = true →
    ∃ d, d ∈ new ∧ ds_inst d = n).
  edestruct (mfoldl_appends (λ instsToInstrument roi, match roiLoop (roi_start roi) with
      | None => Some instsToInstrument
      | Some l => if negb (promoteAllocas (roi_start roi)) then Some instsToInstrument
          else tmp ← getDirectStateLoadStore M gep l skip m; Some (instsToInstrument ++ tmp)
      end) P Q rois []) as (ds & E & H1 & H2).
  - intros acc roi Hroi. destruct (roiLoop (roi_start roi)) as [l|] eqn:El.
    2: { exists []. rewrite app_nil_r. split; [done|]. split; [by intros d ?%elem_of_nil|]. intros l' n' E. rewrite El in E. done. }
    destruct (promoteAllocas (roi_start roi)) eqn:Ep; cbn [negb].
    2: { exists []. rewrite app_nil_r. split; [done|]. split; [by intros d ?%elem_of_nil|]. intros l' n' _ E. rewrite Ep in E. done. }
    assert (direct_loop roiLoop promoteAllocas rois l) as Hl by (by exists roi).
    destruct (Hloop l Hl) as (ds & -> & H1 & H2). exists ds. split; [done|]. split.
    + intros d Hd. destruct (H1 d Hd) as (Hc & Hn & Ho). split; [done|]. by exists l.
    + intros l' n El' _ Hn Hc Hio. rewrite El in El'. injection El' as <-. by apply H2.
  - exists ds. split; [exact E|]. split; [intros d Hd; by destruct (H1 d Hd) as (roi & _ & HP)|].
    intros l n (roi & Hroi & El & Ep) Hn Hc Hio. destruct (H2 roi Hroi) as (part & HQ & Hsub).
    destruct (HQ l n El Ep Hn Hc Hio) as (d & Hd & <-). exists d. split; [by apply Hsub|done].
Qed.

(** *** The six analyses together *)

Definition disjoint_sets (l : list (gset Z)) : Prop :=
  ∀ j k X Y, l !! j = Some X → l !! k = Some Y → j ≠ k → X ## Y.

Lemma disjoint_sets_nil : disjoint_sets [].
Proof. by intros j k X Y. Qed.

Lemma disjoint_sets_cons X l : X ## ⋃ l → disjoint_sets l → disjoint_sets (X :: l).
Proof.
  intros HX Hl [|j] [|k] Y Z Hj Hk Hne; [done| | |apply (Hl j k); [done|done|congruence]].
  - injection Hj as <-. apply (list_elem_of_lookup_2 l) in Hk. intros n Hn Hn'. apply (HX n Hn), elem_of_union_list. by exists Z.
  - injection Hk as <-. apply (list_elem_of_lookup_2 l) in Hj. intros n Hn Hn'. apply (HX n Hn'), elem_of_union_list. by exists Y.
Qed.

(** The sets in the order they are asked for. *)
Definition selected_sets (s : selection) : list (gset Z) :=
  [onlyReadToInstrument s; getDirectStateLoadStoreInsts (directStateToInstrumentAll s); invariantsToInstrument s;
   mostlyInvariantsToInstrument s; inductionsToInstrument s; baseAddressMostlyInvariantsToInstrument s].

Definition new_for (skip : gset Z) (m : list (Z * entry)) (X : gset Z) : Prop := ∀ n, n ∈ X → considered skip m n = true.

Lemma new_for_empty skip m : new_for skip m ∅.
Proof. by intros n ?%elem_of_empty. Qed.

Lemma new_for_spec skip m X : new_for skip m X → X ⊆ list_to_set m.*1 ∧ X ## skip.
Proof.
  intros H. split.
  - intros n Hn. apply elem_of_list_to_set. by apply considered_spec with skip, H.
  - intros n Hn Hs. by apply H, considered_spec in Hn as [_ ?].
Qed.

Lemma in_loops_new candidate loops skip m : new_for skip m (in_loops candidate loops skip m).
Proof. intros n Hn. by apply elem_of_in_loops in Hn as (l & addr & _ & _ & ? & _). Qed.

Lemma onlyReads_new roiLoop rois skip m : new_for skip m (getOnlyReadLoadsAll M elements less roiLoop rois skip m).
Proof.
  intros n Hn. apply elem_of_onlyReads in Hn as (roi & l & _ & _ & _ & Hc). unfold onlyRead_candidate in Hc.
  by apply andb_true_iff in Hc as [? _].
Qed.

(** The analyses succeed; each takes considered accesses that those before it left. *)
Record selected_ok (roiLoop : Z → option loop) (promoteAllocas : Z → bool) (rois : list (region (I := Z)))
    (m : list (Z * entry)) (s : selection) : Prop := {
  so_onlyRead : new_for ∅ m (onlyReadToInstrument s);
  so_direct : new_for (onlyReadToInstrument s) m (getDirectStateLoadStoreInsts (directStateToInstrumentAll s));
  so_elements : ∀ d, d ∈ directStateToInstrumentAll s → ∃ l, direct_loop roiLoop promoteAllocas rois l ∧ direct_of l d;
  so_rest : ∀ j X, drop 2 (selected_sets s) !! j = Some X → new_for (⋃ take (2 + j) (selected_sets s)) m X;
  so_skip : selected_instsToSkip s = ⋃ selected_sets s;
}.

Lemma select_ok b enableDFAObjGranularity roiLoop promoteAllocas loops getInvocations rois m :
  (∀ l, direct_loop roiLoop promoteAllocas rois l → is_Some (loop_governing l) ∧ is_Some (loop_exitCondition l)) →
  ∃ s, select M gep incoming operands elements less b enableDFAObjGranularity roiLoop promoteAllocas loops getInvocations rois m = Some s ∧
    selected_ok roiLoop promoteAllocas rois m s.
Proof.
  intros Hgov. unfold select. cbv zeta.
  set (S1 := if MEMORYTOOL_DISABLE_ONLY_READ_OPT b then ∅ else _). rewrite !elem_of_merge2, !(left_id_L ∅ (∪)).
  assert (new_for ∅ m S1) as K1.
  { unfold S1. destruct (MEMORYTOOL_DISABLE_ONLY_READ_OPT b); [apply new_for_empty|apply onlyReads_new]. }
  assert (∃ ds, (if MEMORYTOOL_DISABLE_DIRECT_STATE b then Some []
    else getDirectStateLoadStoreAll M gep roiLoop promoteAllocas rois S1 m) = Some ds ∧
    new_for S1 m (getDirectStateLoadStoreInsts ds) ∧
    ∀ d, d ∈ ds → ∃ l, direct_loop roiLoop promoteAllocas rois l ∧ direct_of l d) as (ds & -> & K2 & Kd).
  { destruct (MEMORYTOOL_DISABLE_DIRECT_STATE b); [exists []; split; [done|split; [apply new_for_empty|by intros d ?%elem_of_nil]]|].
    destruct (direct_all_spec roiLoop promoteAllocas rois S1 m Hgov) as (ds & -> & Hds & _). exists ds. split; [done|].
    split; [|by intros d Hd; destruct (Hds d Hd) as (_ & l & ? & _ & ?); exists l].
    intros n Hn. unfold getDirectStateLoadStoreInsts in Hn. apply elem_of_list_to_set, list_elem_of_fmap in Hn as (d & -> & Hd).
    by destruct (Hds d Hd). }
  cbn [mbind option_bind]. set (S2 := getDirectStateLoadStoreInsts ds) in *. rewrite ?elem_of_merge2.
  set (S3 := if MEMORYTOOL_DISABLE_LOOP_INVARIANT_STORE_OPT b then ∅ else _). rewrite ?elem_of_merge2.
  assert (new_for (S1 ∪ S2) m S3) as K3.
  { unfold S3. destruct (MEMORYTOOL_DISABLE_LOOP_INVARIANT_STORE_OPT b); [apply new_for_empty|apply in_loops_new]. }
  set (S4 := if MEMORYTOOL_DISABLE_MOSTLY_LOOP_INVARIANT_STORE_OPT b then ∅ else _). rewrite ?elem_of_merge2.
  assert (new_for (S1 ∪ S2 ∪ S3) m S4) as K4.
  { unfold S4. destruct (MEMORYTOOL_DISABLE_MOSTLY_LOOP_INVARIANT_STORE_OPT b); [apply new_for_empty|apply in_loops_new]. }
  set (S5 := if MEMORYTOOL_DISABLE_LOOP_INDUCTION_STORE_OPT b then ∅ else _). rewrite ?elem_of_merge2.
  assert (new_for (S1 ∪ S2 ∪ S3 ∪ S4) m S5) as K5.
  { unfold S5. destruct (MEMORYTOOL_DISABLE_LOOP_INDUCTION_STORE_OPT b); [apply new_for_empty|].
    destruct enableDFAObjGranularity; [apply in_loops_new|apply new_for_empty]. }
  set (S6 := if MEMORYTOOL_DISABLE_BASE_ADDRESS_MOSTLY_INVARIANT_STORE_OPT b then ∅ else _). rewrite ?elem_of_merge2.
  assert (new_for (S1 ∪ S2 ∪ S3 ∪ S4 ∪ S5) m S6) as K6.
  { unfold S6. destruct (MEMORYTOOL_DISABLE_BASE_ADDRESS_MOSTLY_INVARIANT_STORE_OPT b); [apply new_for_empty|].
    destruct enableDFAObjGranularity; [|apply new_for_empty]. intros n. apply base_addresses_considered. }
  eexists. split; [reflexivity|]. clearbody S3 S4 S5 S6. split; unfold selected_sets;
    cbn [onlyReadToInstrument directStateToInstrumentAll invariantsToInstrument mostlyInvariantsToInstrument
      inductionsToInstrument baseAddressMostlyInvariantsToInstrument selected_instsToSkip]; fold S2; clearbody S1 S2.
  - done.
  - done.
  - done.
  - intros [|[|[|[|j]]]] X; cbn [drop lookup list_lookup take Nat.add union_list foldr]; intros [= <-] || intros HX; try done;
      rewrite ?(right_id_L ∅ (∪)), ?(assoc_L (∪)); done.
  - clear. cbn [union_list foldr]. rewrite (right_id_L ∅ (∪)), !(assoc_L (∪)). done.
Qed.

(** C38: no access is taken by two analyses.  When the loops of the tagged regions
    have a governing induction variable and an exit condition, the six analyses
    succeed; what they take are accesses the pass would otherwise report; their sets
    are disjoint; and the set of instructions to skip is what they took together.
    The sets say nothing of how often DirectState lists an access: when two regions
    share a loop it lists it once for each ([shared_loop_listed_twice]). *)
Theorem select_partition b enableDFAObjGranularity roiLoop promoteAllocas loops getInvocations rois m :
  (∀ l, direct_loop roiLoop promoteAllocas rois l → is_Some (loop_governing l) ∧ is_Some (loop_exitCondition l)) →
  ∃ s, select M gep incoming operands elements less b enableDFAObjGranularity roiLoop promoteAllocas loops getInvocations rois m = Some s ∧
    ⋃ selected_sets s ⊆ list_to_set m.*1 ∧ disjoint_sets (selected_sets s) ∧ selected_instsToSkip s = ⋃ selected_sets s.
Proof.
  intros Hgov. destruct (select_ok b enableDFAObjGranularity roiLoop promoteAllocas loops getInvocations rois m Hgov)
    as (s & Hs & [K1 K2 _ K3 K4]). exists s. split; [exact Hs|]. split; [|split; [|done]].
  - apply new_for_spec in K1 as [K1 _], K2 as [K2 _].
    assert (∀ j X, drop 2 (selected_sets s) !! j = Some X → X ⊆ list_to_set m.*1) as K
      by (intros j X HX; by apply K3, new_for_spec in HX as [? _]).
    pose proof (K 0%nat _ eq_refl). pose proof (K 1%nat _ eq_refl). pose proof (K 2%nat _ eq_refl). pose proof (K 3%nat _ eq_refl).
    clear K K3 K4 Hs Hgov. unfold selected_sets. cbn [union_list foldr]. set_solver.
  - apply new_for_spec in K2 as [_ D2].
    assert (∀ j X, drop 2 (selected_sets s) !! j = Some X → X ## ⋃ take (2 + j) (selected_sets s)) as D
      by (intros j X HX; by apply K3, new_for_spec in HX as [_ ?]).
    pose proof (D 0%nat _ eq_refl) as D3. pose proof (D 1%nat _ eq_refl) as D4. pose proof (D 2%nat _ eq_refl) as D5.
    pose proof (D 3%nat _ eq_refl) as D6. clear D K1 K3 K4 Hs Hgov. unfold selected_sets in *.
    cbn [drop take Nat.add union_list foldr] in *.
    repeat apply disjoint_sets_cons; try apply disjoint_sets_nil; cbn [union_list foldr]; clear -D2 D3 D4 D5 D6; set_solver.
Qed.
End facts.

(** ** The searches end, and find what is connected *)

Section searches.
  Context (M : modul) (incoming : Z → list value) (operands : Z → list value) (l : loop).

(** A phi node of the loop and an instruction it merges. *)
Definition phi_edge (p q : Z) : Prop := isIncluded l p = true ∧ op_of M p = Some PHINode ∧ Inst q ∈ incoming p.

Definition is_modifier (n : Z) : Prop := isIncluded l n = true ∧ op_of M n ≠ Some PHINode.

Definition loop_phi (n : Z) : Prop := isIncluded l n = true ∧ op_of M n = Some PHINode.

(** What a call adds to the two sets. *)
Record modifiers_post (st : gset Z * gset Z) (done : Z → Prop) (from : Z → Prop) (st' : gset Z * gset Z) : Prop := {
  mo_grows : st.1 ⊆ st'.1 ∧ st.2 ⊆ st'.2;
  mo_modifiers : (∀ n, n ∈ st.1 → is_modifier n) → ∀ n, n ∈ st'.1 → is_modifier n;
  mo_phis : (∀ n, n ∈ st.2 → loop_phi n) → ∀ n, n ∈ st'.2 → loop_phi n;
  mo_done : ∀ n, done n → isIncluded l n = true → n ∈ st'.1 ∨ n ∈ st'.2;
  mo_closed : ∀ p q, p ∈ st'.2 → p ∉ st.2 → Inst q ∈ incoming p → isIncluded l q = true → q ∈ st'.1 ∨ q ∈ st'.2;
  mo_reach : ∀ n, n ∈ st'.1 ∪ st'.2 → n ∉ st.1 ∪ st.2 → ∃ p, from p ∧ rtc phi_edge p n;
}.

Definition phis_left (visited : gset Z) : nat := size (list_to_set (loop_insts l) ∖ visited : gset Z).

Lemma isIncluded_spec n : isIncluded l n = true ↔ n ∈ loop_insts l.
Proof. unfold isIncluded. apply bool_decide_eq_true. Qed.

Lemma phis_left_visit p visited : isIncluded l p = true → p ∉ visited → (phis_left ({[p]} ∪ visited) < phis_left visited)%nat.
Proof. intros Hp%isIncluded_spec Hv. unfold phis_left. apply subset_size. set_solver. Qed.

Lemma phis_left_mono v v' : v ⊆ v' → (phis_left v' <= phis_left v)%nat.
Proof. intros Hv. unfold phis_left. apply subseteq_size. set_solver. Qed.

Lemma getModifiers_post fuel ptr st : (phis_left st.2 < fuel)%nat →
  ∃ st', getModifiers M incoming fuel l ptr st.1 st.2 = Some st' ∧ modifiers_post st (eq ptr) (eq ptr) st'.
Proof.
  revert ptr st. induction fuel as [|fuel IH]; intros ptr [m v] Hfuel; [lia|]. cbn [fst snd] in Hfuel. cbn [getModifiers fst snd].
  assert (ptr ∈ m ∨ isIncluded l ptr = false ∨ ptr ∈ v → modifiers_post (m, v) (eq ptr) (eq ptr) (m, v)) as Hskip.
  { intros Hs. split; cbn [fst snd]; [done|done|done| | |].
    - intros n <- Hn. destruct Hs as [?|[?|?]]; [by left|congruence|by right].
    - by intros p q Hp.
    - by intros n Hn. }
  case_decide as Hm; [exists (m, v); split; [done|by apply Hskip; left]|].
  destruct (isIncluded l ptr) eqn:Hl; cbn [negb]; [|exists (m, v); split; [done|apply Hskip; by right; left]].
  assert (op_of M ptr ≠ Some PHINode → modifiers_post (m, v) (eq ptr) (eq ptr) ({[ptr]} ∪ m, v)) as Hadd.
  { intros Hop. split; cbn [fst snd].
    - set_solver.
    - intros Hi n [->%elem_of_singleton|Hn]%elem_of_union; [done|by apply Hi].
    - done.
    - intros n <- _. left. set_solver.
    - by intros p q Hp.
    - intros n Hn Hn'. exists ptr. assert (n = ptr) as -> by set_solver. done. }
  destruct (op_of M ptr) as [[]|] eqn:Hop; try (exists ({[ptr]} ∪ m, v); split; [done|by apply Hadd]).
  case_decide as Hv; [exists (m, v); split; [done|apply Hskip; by right; right]|]. clear Hskip Hadd.
  pose proof (phis_left_visit ptr v Hl Hv) as Hlt.
  enough (∀ vals st0, (∀ q, Inst q ∈ vals → Inst q ∈ incoming ptr) → (phis_left st0.2 < fuel)%nat → ∃ st',
      mfoldl (λ st incomingValue, match incomingValue with
        | Inst incomingInst => getModifiers M incoming fuel l incomingInst st.1 st.2
        | _ => Some st end) st0 vals = Some st' ∧
      modifiers_post st0 (λ q, Inst q ∈ vals) (λ q, Inst q ∈ vals) st') as Hloop.
  { destruct (Hloop (incoming ptr) (m, {[ptr]} ∪ v)) as (st' & E & [Hg Hmo Hph Hd Hc Hr]); [done|simpl; lia|]. exists st'. split; [exact E|].
    cbn [fst snd] in *. split; cbn [fst snd].
    - set_solver.
    - exact Hmo.
    - intros Hi. apply Hph. intros n [->%elem_of_singleton|Hn]%elem_of_union; [done|by apply Hi].
    - intros n <- _. right. set_solver.
    - intros p q Hp Hpv Hq Hql. destruct (decide (p = ptr)) as [->|Hne]; [by apply Hd|]. apply (Hc p q); [done|set_solver|done|done].
    - intros n Hn Hn'. exists ptr. split; [done|]. destruct (decide (n = ptr)) as [->|Hne]; [done|].
      destruct (Hr n) as (q & Hq & Hrtc); [done|set_solver|]. apply rtc_l with q; [by split_and!|done]. }
  intros vals. induction vals as [|val vals IHv]; intros st0 Hin Hst0.
  { exists st0. split; [done|]. split; [done|done|done| | |].
    - by intros n ?%elem_of_nil.
    - by intros p q Hp.
    - by intros n Hn. }
  assert (∃ st1, match val with Inst q => getModifiers M incoming fuel l q st0.1 st0.2 | _ => Some st0 end = Some st1 ∧
    modifiers_post st0 (λ q, val = Inst q) (λ q, val = Inst q) st1) as (st1 & E1 & [Hg1 Hmo1 Hph1 Hd1 Hc1 Hr1]).
  { destruct val as [q|q|q].
    - destruct (IH q st0 Hst0) as (st1 & E1 & [? ? ? Hd ? Hr]). exists st1. split; [done|]. split; try done.
      + intros n [= <-]. by apply Hd.
      + intros n Hn Hn'. destruct (Hr n Hn Hn') as (p & <- & ?). by exists q.
    - exists st0. split; [done|]. split; [done|done|done|by intros n [=]|by intros p n Hp|by intros n Hn].
    - exists st0. split; [done|]. split; [done|done|done|by intros n [=]|by intros p n Hp|by intros n Hn]. }
  destruct (IHv st1) as (st2 & E2 & [Hg2 Hmo2 Hph2 Hd2 Hc2 Hr2]); [intros q Hq; apply Hin; by right| |].
  { pose proof (phis_left_mono st0.2 st1.2 (proj2 Hg1)). lia. }
  exists st2. cbn [mfoldl]. rewrite E1. cbn [mbind option_bind]. split; [exact E2|].
  destruct Hg1 as [Hg1 Hg1'], Hg2 as [Hg2 Hg2'].
  split; [set_solver|by auto|by auto| | |].
  - intros n [Hn|Hn]%elem_of_cons Hl'; [|by apply Hd2]. destruct (Hd1 n (eq_sym Hn) Hl'); [left|right]; set_solver.
  - intros p q Hp Hp' Hq Hl'. destruct (decide (p ∈ st1.2)) as [Hp1|Hp1]; [|by apply (Hc2 p q)].
    destruct (Hc1 p q Hp1 Hp' Hq Hl'); [left|right]; set_solver.
  - intros n Hn Hn'. destruct (decide (n ∈ st1.1 ∪ st1.2)) as [H1|H1].
    + destruct (Hr1 n H1 Hn') as (q & -> & ?). exists q. split; [by left|done].
    + destruct (Hr2 n Hn H1) as (q & ? & ?). exists q. split; [by right|done].
Qed.

(** The modifiers of a pointer.  The search through the phi nodes of a loop ends
    however they depend on each other, and gives exactly the instructions of the
    loop, phi nodes apart, that the pointer merges, directly or through other phi
    nodes of the loop. *)
Theorem getModifiers_correct ptr :
  ∃ modifiers visited, getModifiers M incoming (S (S (List.length (loop_insts l)))) l ptr ∅ ∅ = Some (modifiers, visited) ∧
    ∀ n, n ∈ modifiers ↔ is_modifier n ∧ rtc phi_edge ptr n.
Proof.
  destruct (getModifiers_post (S (S (List.length (loop_insts l)))) ptr (∅, ∅)) as ([m v] & E & [_ Hmo Hph Hd Hc Hr]).
  { unfold phis_left. cbn [snd]. pose proof (size_list_to_set_le (loop_insts l)).
    assert (size (list_to_set (loop_insts l) ∖ ∅ : gset Z) <= size (list_to_set (loop_insts l) : gset Z))%nat; [|lia].
    apply subseteq_size. set_solver. }
  cbn [fst snd] in *. exists m, v. split; [done|]. intros n. split.
  - intros Hn. split; [apply Hmo; [set_solver|done]|]. destruct (Hr n) as (p & <- & ?); [set_solver|set_solver|done].
  - intros [[Hl Hop] Hrtc].
    assert (∀ k, rtc phi_edge ptr k → isIncluded l k = true → k ∈ m ∨ k ∈ v) as Hall.
    { refine (rtc_ind_r (λ k, isIncluded l k = true → k ∈ m ∨ k ∈ v) ptr _ _); [by apply Hd|]. intros k q _ [Hkl [Hkop Hq]] IH Hkl'.
      destruct (IH Hkl) as [Hkm|Hkv]; [|apply (Hc k q); set_solver].
      exfalso. apply Hmo in Hkm as [_ Hkm]; [done|set_solver]. }
    destruct (Hall n Hrtc Hl) as [?|Hv]; [done|]. exfalso. apply Hph in Hv as [_ Hv]; [done|set_solver].
Qed.

(** An instruction and one of its operands. *)
Definition operand_edge (v w : value) : Prop := ∃ n, v = Inst n ∧ w ∈ operands n.

Definition contributes (v : value) : Prop := ∃ n, v = Inst n ∧ loop_contributes l n = true.

(** What a call adds to the visited values when it finds nothing. *)
Record connected_post (from : list value) (visited : gset value) (r : bool * gset value) : Prop := {
  co_found : r.1 = true → ∃ v w, v ∈ from ∧ rtc operand_edge v w ∧ contributes w;
  co_grows : visited ⊆ r.2;
  co_none : r.1 = false → (∀ v, v ∈ from → v ∈ r.2) ∧ ∀ v, v ∈ r.2 → v ∉ visited →
    ¬ contributes v ∧ ∀ w, operand_edge v w → w ∈ r.2;
}.

(** The instructions that have not been visited; [insts] is closed under operands. *)
Definition insts_left (insts : gset value) (visited : gset value) : nat := size (insts ∖ visited).

Lemma connected_spec (insts : gset value) fuel val visited :
  (∀ n w m, Inst n ∈ insts → w ∈ operands n → w = Inst m → w ∈ insts) → (∀ n, val = Inst n → val ∈ insts) →
  (insts_left insts visited + 1 < fuel)%nat →
  ∃ r, isConnectedToAnInductionVariableRecursive operands fuel l val visited = Some r ∧ connected_post [val] visited r.
Proof.
  intros Hclosed. revert val visited. induction fuel as [|fuel IH]; intros val visited Hval Hfuel; [lia|].
  cbn [isConnectedToAnInductionVariableRecursive]. case_decide as Hv.
  { exists (false, visited). split; [done|]. split; cbn [fst snd]; [done|done|]. intros _. split; [|by intros v ? ?].
    by intros v ->%list_elem_of_singleton. }
  assert ((∀ n, val ≠ Inst n) → connected_post [val] visited (false, {[val]} ∪ visited)) as Hleaf.
  { intros Hn. split; cbn [fst snd]; [done|set_solver|]. intros _. split; [intros v ->%list_elem_of_singleton; set_solver|].
    intros v Hin Hnin. assert (v = val) as -> by set_solver. split; [intros (n & -> & _)|intros w (n & -> & _)]; by destruct (Hn n). }
  destruct val as [n|n|n]; cbv zeta; [|eexists; split; [reflexivity|by apply Hleaf]..]. clear Hleaf.
  destruct (loop_contributes l n) eqn:Hc.
  { eexists. split; [reflexivity|]. split; cbn [fst snd]; [|set_solver|done]. intros _. exists (Inst n), (Inst n).
    split; [by left|]. split; [done|by exists n]. }
  assert (Inst n ∈ insts) as Hn by (by apply (Hval n)).
  assert (insts_left insts ({[Inst n]} ∪ visited) < insts_left insts visited)%nat as Hlt
    by (unfold insts_left; apply subset_size; set_solver).
  enough (∀ ops st, (∀ w, w ∈ ops → w ∈ operands n) → (insts_left insts st.2 + 1 < fuel)%nat → ∃ r,
    mfoldl (λ st operand, if st.1 : bool then Some st else isConnectedToAnInductionVariableRecursive operands fuel l operand st.2) st ops = Some r ∧
    (st.1 = true → r = st) ∧ (st.1 = false → connected_post ops st.2 r)) as Hloop.
  { destruct (Hloop (operands n) (false, {[Inst n]} ∪ visited)) as (r & E & _ & Hpost); [done|cbn [snd]; lia|].
    destruct (Hpost eq_refl) as [Hf Hg Hno]. cbn [snd] in *. exists r. split; [exact E|]. split.
    - intros Hr. destruct (Hf Hr) as (v & w & Hv' & Hrtc & Hw). exists (Inst n), w. split; [by left|]. split; [|done].
      apply rtc_l with v; [by exists n|done].
    - set_solver.
    - intros Hr. destruct (Hno Hr) as [Hin Hcl]. split; [intros v ->%list_elem_of_singleton; set_solver|].
      intros v Hvr Hvv. destruct (decide (v = Inst n)) as [->|Hne]; [|apply Hcl; [done|set_solver]]. split.
      + intros (n' & [= <-] & Hc'). congruence.
      + intros w (n' & [= <-] & Hw). by apply Hin. }
  intros ops. induction ops as [|o ops IHo]; intros [b v0] Hops Hst; cbn [fst snd] in *.
  { exists (b, v0). split; [done|]. split; [done|]. intros ->. split; cbn [fst snd]; [done|done|]. intros _.
    split; [by intros v ?%elem_of_nil|by intros v ? ?]. }
  cbn [mfoldl fst snd]. destruct b.
  { cbn [mbind option_bind]. destruct (IHo (true, v0)) as (r & E & Hr & _); [intros w Hw; apply Hops; by right|done|].
    exists r. split; [exact E|]. by split. }
  destruct (IH o v0) as ([b1 v1] & E1 & [Hf1 Hg1 Hno1]); [|done|].
  { intros m ->. apply (Hclosed n _ m Hn); [apply Hops; by left|done]. }
  rewrite E1. cbn [mbind option_bind fst snd] in *.
  destruct (IHo (b1, v1)) as (r & E & Hrt & Hrf); [intros w Hw; apply Hops; by right| |].
  { cbn [snd]. assert (insts_left insts v1 <= insts_left insts v0)%nat; [|lia]. unfold insts_left. apply subseteq_size. set_solver. }
  exists r. split; [exact E|]. split; [done|]. intros _. destruct b1.
  - rewrite (Hrt eq_refl). split; cbn [fst snd]; [|done|done]. intros _. destruct (Hf1 eq_refl) as (v & w & ->%list_elem_of_singleton & ? & ?).
    exists o, w. split; [by left|done].
  - destruct (Hrf eq_refl) as [Hf Hg Hno]. cbn [fst snd] in *. destruct (Hno1 eq_refl) as [Hin1 Hcl1]. split.
    + intros Hr. destruct (Hf Hr) as (v & w & Hv' & ?). exists v, w. split; [by right|done].
    + set_solver.
    + intros Hr. destruct (Hno Hr) as [Hin Hcl]. split.
      * intros v [->|Hv']%elem_of_cons; [|by apply Hin]. apply Hg, Hin1. by left.
      * intros v Hvr Hv0. destruct (decide (v ∈ v1)) as [Hv1|Hv1]; [|by apply Hcl]. destruct (Hcl1 v Hv1 Hv0) as [? Hop].
        split; [done|]. intros w Hw. apply Hg. by apply Hop.
Qed.

(** The search through the operands ends on every program, loops through phi nodes
    included, and says whether an address is computed from an instruction that
    contributes to an induction variable. *)
Lemma isConnectedToAnInductionVariable_correct (insts : gset value) val :
  (∀ n w, Inst n ∈ insts → w ∈ operands n → ∀ m, w = Inst m → w ∈ insts) → (∀ n, val = Inst n → val ∈ insts) →
  ∃ b, isConnectedToAnInductionVariable operands (S (S (size insts))) l val = Some b ∧
    (b = true ↔ ∃ w, rtc operand_edge val w ∧ contributes w).
Proof.
  intros Hclosed Hval.
  destruct (connected_spec insts (S (S (size insts))) val ∅) as ([b v] & E & [Hf Hg Hno]); [naive_solver|done| |].
  { unfold insts_left. assert (size (insts ∖ ∅) <= size insts)%nat; [|lia]. apply subseteq_size. set_solver. }
  cbn [fst snd] in *. exists b. unfold isConnectedToAnInductionVariable. rewrite E. split; [done|]. split.
  - intros Hb. destruct (Hf Hb) as (v' & w & ->%list_elem_of_singleton & ? & ?). by exists w.
  - intros (w & Hrtc & Hw). destruct b; [done|]. exfalso. destruct (Hno eq_refl) as [Hin Hcl].
    assert (∀ x, rtc operand_edge val x → x ∈ v) as Hall.
    { refine (rtc_ind_r (λ x, x ∈ v) val _ _); [apply Hin; by left|]. intros x y _ Hxy IH.
      destruct (Hcl x IH) as [_ Hop]; [set_solver|]. by apply Hop. }
    destruct (Hcl w (Hall w Hrtc)) as [Hn _]; [set_solver|]. done.
Qed.
End searches.

(** ** An example: the loads of the region of ROIs.v *)

Module Demo.
(** The loop of the region; the load of the global does not change in it. *)
Definition region_loop : loop :=
  MkLoop [4; 5; 6; 7] 9 (λ v, bool_decide (v = Inst 4)) (λ _, false) (Some (∅, OtherValue 0)) (Some (OtherValue 1))
    (λ _, []) (λ _, []).

Definition load_of (I : Z) (p : value) : Z * entry :=
  (I, MkIEntry (Inst I) "main" (Some p) None None None 0 0 (MkEntry [] [] 0 0 0)).
Definition instToEntryMap : list (Z * entry) := [load_of 4 (GlobalVar 50); load_of 5 (Inst 1); load_of 7 (Inst 1)].

Definition b : build_options := MkBuild false false false false false false false false false.
Definition rois : list (region (I := Z)) := [Region 2 [8]].

(** The load of the global is read only, the others are inputs; the analyses that
    come after find nothing left. *)
Lemma select_partition_witness :
  ∃ s, select ROIs.Demo.M (λ _, None) (λ _, []) (λ _, []) elements Z.ltb b true (λ _, Some region_loop) (λ _, true) [region_loop]
      (λ _, 1) rois instToEntryMap = Some s ∧
    onlyReadToInstrument s = {[4]} ∧ ds_inst <$> directStateToInstrumentAll s = [5; 7] ∧
    disjoint_sets (selected_sets s) ∧ selected_instsToSkip s = ⋃ selected_sets s.
Proof.
  destruct (select_partition ROIs.Demo.M (λ _, None) (λ _, []) (λ _, []) elements Z.ltb) with (b := b)
    (enableDFAObjGranularity := true) (roiLoop := λ _ : Z, Some region_loop) (promoteAllocas := λ _ : Z, true) (loops := [region_loop])
    (getInvocations := λ _ : Z, 1) (rois := rois) (m := instToEntryMap) as (s & Hs & _ & Hd & Hu).
  - intros X I. apply elem_of_elements.
  - intros x y. rewrite !Z.ltb_ge. lia.
  - intros l (roi & _ & [= <-] & _). split; by eexists.
  - exists s. split; [exact Hs|].
    set (f (s : selection) := (bool_decide (onlyReadToInstrument s = {[4]}), ds_inst <$> directStateToInstrumentAll s)).
    assert (f <$> Some s = Some (true, [5; 7])) as H by (rewrite <- Hs; vm_compute; reflexivity). injection H as H1 H2.
    apply bool_decide_eq_true in H1. split; [exact H1|]. split; [exact H2|]. split; [exact Hd|exact Hu].
Defined.

(** Two regions in one loop: [getDirectStateLoadStoreAll] appends what the loop has
    once for each of them. *)
Example shared_loop_listed_twice :
  (λ s, ds_inst <$> directStateToInstrumentAll s) <$>
    select ROIs.Demo.M (λ _, None) (λ _, []) (λ _, []) elements Z.ltb b true (λ _, Some region_loop) (λ _, true) [region_loop]
      (λ _, 1) [Region 2 [8]; Region 3 [8]] instToEntryMap = Some [5; 7; 5; 7].
Proof. vm_compute. reflexivity. Qed.
End Demo.
