(* ===== verification/Prepare.v ===== *)
(** * Prepare.v: the tools that prepare a program for the pass

    utils/tag_functions_with_opt_none marks the functions that can reach a region:
    they keep their variables in memory, and the pass instruments these.  The other
    tools find the regions whose loop has an induction variable, by trial:
    utils/clone_function_roi numbers the regions and clones every function,
    utils/promote_cloned_function_allocas turns a variable of the loops in the
    clones into a register, utils/check_for_induction_variables asks NOELLE about
    the result, marks the original regions and erases the clones.  Then the second
    tool runs again, for the marked regions.  DirectState.cpp (Selection.v) reads
    the mark. *)

From stdpp Require Import pretty relations.
From S2P Require Import Prelude Helpers OrdMap Objects AllocTable ConnGraph Commit CleanBatch Shadow Batch.
From S2P Require Import Memory Callstack UniqueIds Wrapper RunData PostProcess DebugInfo Types CallGraph TouchSame Visitor ROIs.
From Stdlib Require Import Ascii.

(** ** The language *)

Definition ascii_list (s : string) : list ascii := String.list_ascii_of_string s.

(** [ends_with] (src/src/Utils.cpp): the ending is compared backwards. *)
Definition ends_with (value ending : string) : bool :=
  if decide (String.length value < String.length ending)%nat then false
  else bool_decide (take (String.length ending) (reverse (ascii_list value)) = reverse (ascii_list ending)).

(** [std::stoi]: white space, a sign, digits up to the first other character; no
    digits, or a number no [int] holds, is an exception. *)
Definition digit (c : ascii) : option Z :=
  let n := Z.of_N (N_of_ascii c) in if decide (48 <= n <= 57) then Some (n - 48) else None.

Fixpoint digits (acc : Z) (s : string) : Z :=
  match s with
  | EmptyString => acc
  | String c s => match digit c with Some d => digits (10 * acc + d) s | None => acc end
  end.

Definition is_space (c : ascii) : bool :=
  let n := Z.of_N (N_of_ascii c) in bool_decide (n = 32 ∨ 9 <= n <= 13).

Fixpoint skip_space (s : string) : string :=
  match s with String c s' => if is_space c then skip_space s' else s | EmptyString => s end.

Definition int_of (z : Z) : option Z := if decide (-2147483648 <= z <= 2147483647) then Some z else None.

Definition unsigned_digits (s : string) : option Z :=
  match s with String c _ => _ ← digit c; Some (digits 0 s) | EmptyString => None end.

Definition stoi (s : string) : option Z :=
  match skip_space s with
  | String c s' =>
      if decide (c = "-"%char) then z ← unsigned_digits s'; int_of (- z)
      else if decide (c = "+"%char) then z ← unsigned_digits s'; int_of z
      else z ← unsigned_digits (String c s'); int_of z
  | EmptyString => None
  end.

(** ** LLVM and NOELLE *)

(** The governing induction variable of a loop: what the tool asks of it, each
    perhaps a null pointer. *)
Record InductionVariable := MkIV {
  exitConditionValue : option value; startValue : option value; singleComputedStepValue : option value
}.

(** Metadata nodes are objects that instructions share; [elements] is the order in
    which an unordered set is visited and [less] the order of pointers. *)
Class Toolchain := {
  node : Type;
  nodes : Type;
  loop : Type;
  loop_forest : Type;
  MDNode_get : nodes → string → node * nodes;
  getOperand0 : nodes → node → option string;
  replaceOperandWith : nodes → node → string → nodes;
  CloneFunction : modul → func → list block * (Z → Z);
  uniqueName : list string → string → string;
  getLoopStructures : modul → string → list loop;
  organizeLoopsInTheirNestingForest : list loop → loop_forest;
  getInnermostLoopThatContains : loop_forest → Z → option loop;
  headerOperands : modul → loop → list value;
  allocatedTypeIsInteger : modul → Z → bool;
  isAllocaPromotable : modul → Z → bool;
  PromoteMemToReg : modul → Z → modul;
  getLoopGoverningInductionVariable : modul → loop → option InductionVariable;
  elements_of : gset Z → list Z;
  less : Z → Z → bool;
}.

(** A module with the metadata of its instructions, by instruction and kind, and the
    attributes of its functions. *)
Record pmodule `{Toolchain} := MkPModule {
  pm_module : modul;
  pm_metadata : gmap Z (gmap string node);
  pm_nodes : nodes;
  pm_optnone : gset string;
  pm_noinline : gset string;
}.
Arguments MkPModule {_} _ _ _ _ _.

Definition ROI_ID : string := "ROI_ID".
Definition PROMOTE_ALLOCAS : string := "PROMOTE_ALLOCAS".
Definition CLONED : string := "_cloned".

(** The functions the tools start from, also called [findFunctionsToInstrument];
    the call graph is NOELLE's. *)
Section tagging.
  Context `{Toolchain} (incoming : string → list string).

(** [visit]: the callers of the callers. *)
Fixpoint visit (fuel : nat) (currentNode : string) (functions : gset string) : option (gset string) :=
  match fuel with
  | O => None
  | S fuel =>
      if decide (currentNode ∈ functions) then Some functions
      else mfoldl (λ functions nextNode, visit fuel nextNode functions) ({[currentNode]} ∪ functions) (incoming currentNode)
  end.

(** The functions without a body are removed at the end. *)
Definition is_empty (M : modul) (F : string) : bool :=
  match getFunction M F with Some f => bool_decide (f_blocks f = []) | None => true end.

Definition findFunctionsToTag (fuel : nat) (M : modul) : option (gset string) :=
  match moduleFunction M MEMORYTOOL_START_TRACKING with
  | None => Some ∅
  | Some startTrackingFunction =>
      functions ← visit fuel startTrackingFunction ∅;
      Some (filter (λ F, is_empty M F = false) functions)
  end.

(** [getAllFunctions], used when MEMORYTOOL_DISABLE_LOCALS_OPT is defined. *)
Definition getAllFunctions (M : modul) : gset string :=
  list_to_set (f_name <$> filter (λ f, f_blocks f ≠ []) (m_functions M)).

(** [tagFunctionWithMetadata] sets the flag the pass reads. *)
Definition tagFunctionWithMetadata (f : func) : func := MkFunc (f_name f) (f_blocks f) (f_isIntrinsic f) true.

(** One iteration of [tagFunctionsOptNone]. *)
Definition tag_step (functionsToTag : gset string) (st : gset string * gset string) (f : func) : gset string * gset string :=
  let '(optnone, noinline) := st in
  if decide (f_name f ∈ functionsToTag) then ({[f_name f]} ∪ optnone, {[f_name f]} ∪ noinline)
  else (optnone ∖ {[f_name f]}, noinline).

Definition tagFunctionsOptNone (functionsToTag : gset string) (st : pmodule) : pmodule :=
  let fs := m_functions (pm_module st) in
  let '(optnone, noinline) := foldl (tag_step functionsToTag) (pm_optnone st, pm_noinline st) fs in
  MkPModule
    (MkModule ((λ f, if decide (f_name f ∈ functionsToTag) then tagFunctionWithMetadata f else f) <$> fs)
      (m_globals (pm_module st)))
    (pm_metadata st) (pm_nodes st) optnone noinline.

(** The tool. *)
Definition tag_functions_with_opt_none (MEMORYTOOL_DISABLE_LOCALS_OPT : bool) (fuel : nat) (st : pmodule) : option pmodule :=
  functionsToTag ← (if MEMORYTOOL_DISABLE_LOCALS_OPT then Some (getAllFunctions (pm_module st))
    else findFunctionsToTag fuel (pm_module st));
  Some (tagFunctionsOptNone functionsToTag st).

(** utils/remove_optnone, after the other functions were optimised. *)
Definition removeOptNone (st : pmodule) : pmodule :=
  MkPModule (pm_module st) (pm_metadata st) (pm_nodes st)
    (foldl (λ optnone f, optnone ∖ {[f_name f]}) (pm_optnone st) (m_functions (pm_module st))) (pm_noinline st).
End tagging.

Section tools.
  Context `{Toolchain}.

(** ** Metadata (MetadataInstruction.cpp) *)

Definition md (st : pmodule) (I : Z) (metadataName : string) : option node := pm_metadata st !! I ≫= λ kinds, kinds !! metadataName.

Definition hasMetadata (st : pmodule) (I : Z) (metadataName : string) : bool :=
  match md st I metadataName with Some _ => true | None => false end.

Definition with_metadata (metadata : gmap Z (gmap string node)) (ns : nodes) (st : pmodule) : pmodule :=
  MkPModule (pm_module st) metadata ns (pm_optnone st) (pm_noinline st).

Definition attach (I : Z) (metadataName : string) (n : node) (metadata : gmap Z (gmap string node)) : gmap Z (gmap string node) :=
  <[I := <[metadataName := n]> (default ∅ (metadata !! I))]> metadata.

(** A node that is there already is changed in place, whoever shares it. *)
Definition setMetadata (st : pmodule) (I : Z) (metadataName metadataValue : string) : pmodule :=
  match md st I metadataName with
  | Some n => with_metadata (pm_metadata st) (replaceOperandWith (pm_nodes st) n metadataValue) st
  | None =>
      let '(n, ns) := MDNode_get (pm_nodes st) metadataValue in
      with_metadata (attach I metadataName n (pm_metadata st)) ns st
  end.

(** [None] aborts. *)
Definition getMetadata (st : pmodule) (I : Z) (metadataName : string) : option string :=
  n ← md st I metadataName; getOperand0 (pm_nodes st) n.

Definition deleteMetadata (st : pmodule) (I : Z) (metadataName : string) : pmodule :=
  match md st I metadataName with
  | None => st
  | Some _ => with_metadata (alter (delete metadataName) I (pm_metadata st)) (pm_nodes st) st
  end.

(** ** The start calls of the regions (TagROIs.hpp) *)

(** [ROIInstVisitor]: the calls in the functions of the program and those in their
    clones, with the function each is in. *)
Definition visitCallBase (roiStartFunc : option string) (vectors : list (string * Z) * list (string * Z))
    (Fi : string * inst) : list (string * Z) * list (string * Z) :=
  let '(roiStartCallBases, roiStartCallBasesCloned) := vectors in
  match getCalledFunction (i_op Fi.2) with
  | Some (Some callBaseFunc) =>
      if decide (Some callBaseFunc = roiStartFunc) then
        if ends_with Fi.1 CLONED then (roiStartCallBases, roiStartCallBasesCloned ++ [(Fi.1, i_id Fi.2)])
        else (roiStartCallBases ++ [(Fi.1, i_id Fi.2)], roiStartCallBasesCloned)
      else vectors
  | _ => vectors
  end.

Definition ROIInstVisitor (M : modul) (roiStartFuncName : string) : list (string * Z) * list (string * Z) :=
  foldl (visitCallBase (moduleFunction M roiStartFuncName)) ([], []) (all_insts M).

(** ** Cloning (utils/clone_function_roi) *)

Definition tagROIWithID (st : pmodule) (roiStartInst roiID : Z) : pmodule := setMetadata st roiStartInst ROI_ID (pretty roiID).

Definition tagROIsWithIDs (st : pmodule) (roiStartFuncName : string) : pmodule :=
  fst (foldl (λ '(st, roiID) Fi, (tagROIWithID st Fi.2 roiID, roiID +₆₄ 1)) (st, 0)
    (fst (ROIInstVisitor (pm_module st) roiStartFuncName))).

Definition tagROIToPromoteAllocas (st : pmodule) (roiStartInst : Z) (promoteAllocas : string) : pmodule :=
  setMetadata st roiStartInst PROMOTE_ALLOCAS promoteAllocas.

Definition tagROIsToPromoteAllocas (st : pmodule) (roiStartFuncName : string) : pmodule :=
  foldl (λ st Fi, tagROIToPromoteAllocas st Fi.2 "true") st (snd (ROIInstVisitor (pm_module st) roiStartFuncName)).

(** A clone of an instruction has its metadata, a clone of a function its attributes. *)
Definition copy_metadata (vMap : Z → Z) (metadata : gmap Z (gmap string node)) (insts : list inst) : gmap Z (gmap string node) :=
  foldl (λ md i, partial_alter (λ _, metadata !! i_id i) (vMap (i_id i)) md) metadata insts.

Definition copy_attribute (F clone : string) (attribute : gset string) : gset string :=
  if decide (F ∈ attribute) then {[clone]} ∪ attribute else attribute.

(** [setName] gives another name than it is asked for when a function has that name. *)
Definition cloneFunction (st : pmodule) (f : func) : pmodule :=
  let M := pm_module st in
  let '(blocks, vMap) := CloneFunction M f in
  let name := uniqueName (f_name <$> m_functions M) (f_name f +:+ CLONED) in
  MkPModule (MkModule (m_functions M ++ [MkFunc name blocks (f_isIntrinsic f) (f_hasOptimizeLocals f)]) (m_globals M))
    (copy_metadata vMap (pm_metadata st) (f_insts f)) (pm_nodes st)
    (copy_attribute (f_name f) name (pm_optnone st)) (copy_attribute (f_name f) name (pm_noinline st)).

Definition cloneFunctions_step (st : pmodule) (f : func) : pmodule :=
  if f_isIntrinsic f then st
  else if decide (f_blocks f = []) then st
  else cloneFunction st f.

(** The list of functions is made before the first is cloned. *)
Definition cloneFunctions (st : pmodule) : pmodule := foldl cloneFunctions_step st (m_functions (pm_module st)).

(** The tool. *)
Definition clone_function_roi (MEMORYTOOL_DISABLE_CLONE : bool) (st : pmodule) : pmodule :=
  if MEMORYTOOL_DISABLE_CLONE then st
  else tagROIsToPromoteAllocas (cloneFunctions (tagROIsWithIDs st MEMORYTOOL_START_TRACKING)) MEMORYTOOL_START_TRACKING.

(** ** Promotion (utils/promote_cloned_function_allocas) *)

(** [getROILoop] (src/src/Utils.cpp) *)
Definition getROILoop (M : modul) (F : string) (startTrackingCall : Z) : option loop :=
  getInnermostLoopThatContains (organizeLoopsInTheirNestingForest (getLoopStructures M F)) startTrackingCall.

Definition functionToLoops_step (st : pmodule) (functionToLoopsMap : gmap string (gmap Z loop)) (roi : string * Z)
    : gmap string (gmap Z loop) :=
  let '(func, roiStart) := roi in
  match md st roiStart PROMOTE_ALLOCAS with
  | None => functionToLoopsMap
  | Some _ =>
      match getROILoop (pm_module st) func roiStart with
      | None => functionToLoopsMap
      | Some L => <[func := <[roiStart := L]> (default ∅ (functionToLoopsMap !! func))]> functionToLoopsMap
      end
  end.

Definition getFunctionToLoopsMap (st : pmodule) : gmap string (gmap Z loop) :=
  let '(roisOrig, roisCloned) := ROIInstVisitor (pm_module st) MEMORYTOOL_START_TRACKING in
  foldl (functionToLoops_step st) ∅ (roisOrig ++ roisCloned).

Definition promoteSingleAlloca (M : modul) (AI : Z) : option modul :=
  if isAllocaPromotable M AI then Some (PromoteMemToReg M AI) else None.

(** The integer variables that are operands in the header of a loop. *)
Definition candidate (M : modul) (operand : value) : option Z :=
  match operand with
  | Inst a =>
      match op_of M a with
      | Some (AllocaInst _) => if allocatedTypeIsInteger M a then Some a else None
      | _ => None
      end
  | _ => None
  end.

Definition roiAllocaInsts (M : modul) (L : loop) : gset Z := list_to_set (omap (candidate M) (headerOperands M L)).

Definition promote_step (M : modul) (elem : Z * loop) : option modul :=
  let allocas := roiAllocaInsts M elem.2 in
  if decide (size allocas = 1%nat) then mfoldl promoteSingleAlloca M (elements_of allocas) else Some M.

Definition promoteAllocasROIs (M : modul) (roiToLoopMap : gmap Z loop) : option modul :=
  mfoldl promote_step M (map_to_list roiToLoopMap).

Definition with_module (M : modul) (st : pmodule) : pmodule :=
  MkPModule M (pm_metadata st) (pm_nodes st) (pm_optnone st) (pm_noinline st).

(** The tool. *)
Definition promote_cloned_function_allocas (MEMORYTOOL_DISABLE_PROMOTE : bool) (st : pmodule) : option pmodule :=
  if MEMORYTOOL_DISABLE_PROMOTE then Some st
  else
    M ← mfoldl (λ M elem, promoteAllocasROIs M elem.2) (pm_module st) (map_to_list (getFunctionToLoopsMap st));
    Some (with_module M st).

(** ** The check (utils/check_for_induction_variables) *)

Definition checkForInductionVariable (M : modul) (L : loop) : bool :=
  match getLoopGoverningInductionVariable M L with
  | None => false
  | Some loopGovIV =>
      match exitConditionValue loopGovIV with
      | None => false
      | Some _ =>
          match startValue loopGovIV with
          | None => false
          | Some _ => match singleComputedStepValue loopGovIV with None => false | Some _ => true end
          end
      end
  end.

Definition checkForInductionVariables (M : modul) (roiToLoopMap : gmap Z loop) : list Z :=
  (filter (λ elem, checkForInductionVariable M elem.2 = true) (map_to_list roiToLoopMap)).*1.

Definition getIdToRoiMap (st : pmodule) (rois : list Z) : option (gmap Z Z) :=
  mfoldl (λ idToRoiMap roi,
    idStr ← getMetadata st roi ROI_ID;
    id ← stoi idStr;
    Some (<[wrap64 id := roi]> idToRoiMap)) ∅ rois.

Definition getOriginalROIsToPromoteAllocas (st : pmodule) (roisCloned : list Z) : option (list Z) :=
  idToRoiOriginalMap ← getIdToRoiMap st (fst (ROIInstVisitor (pm_module st) MEMORYTOOL_START_TRACKING)).*2;
  idToRoiClonedMap ← getIdToRoiMap st roisCloned;
  mfoldl (λ rois elem, roiOriginal ← idToRoiOriginalMap !! elem.1; Some (rois ++ [roiOriginal])) [] (map_to_list idToRoiClonedMap).

(** The regions of all functions, united set by set. *)
Definition roisToPromoteAllocasSetAll (st : pmodule) : gset Z :=
  foldl (λ all elem,
    let roisToPromoteAllocasSet := list_to_set (checkForInductionVariables (pm_module st) elem.2) in
    list_to_set (set_union less (elements_of roisToPromoteAllocasSet) (elements_of all)) ∪ all)
    ∅ (map_to_list (getFunctionToLoopsMap st)).

Definition to_erase (f : func) : bool :=
  if decide (f_blocks f = []) then false else if f_isIntrinsic f then false else ends_with (f_name f) CLONED.

(** The calls of a function by name. *)
Definition calls_to (name : string) (f : func) : list Z :=
  i_id <$> filter (λ i, getCalledFunction (i_op i) = Some (Some name)) (f_insts f).

(** [eraseFromParent]: a function that another one still calls must not be erased. *)
Definition eraseFromParent (M : modul) (F : string) : option modul :=
  let others := filter (λ f, f_name f ≠ F) (m_functions M) in
  if decide (Forall (λ f, calls_to F f = []) others) then Some (MkModule others (m_globals M)) else None.

(** The tool. *)
Definition check_for_induction_variables (MEMORYTOOL_DISABLE_CHECKFORIV : bool) (st : pmodule) : option pmodule :=
  if MEMORYTOOL_DISABLE_CHECKFORIV then Some st
  else
    let roisToPromoteAllocasAll := elements_of (roisToPromoteAllocasSetAll st) in
    roisOriginalToPromoteAllocas ← getOriginalROIsToPromoteAllocas st roisToPromoteAllocasAll;
    let st := foldl (λ st roi, deleteMetadata st roi PROMOTE_ALLOCAS) st roisToPromoteAllocasAll in
    let st := foldl (λ st roi, tagROIToPromoteAllocas st roi "true") st roisOriginalToPromoteAllocas in
    M ← mfoldl eraseFromParent (pm_module st) (f_name <$> filter (λ f, to_erase f = true) (m_functions (pm_module st)));
    Some (with_module M st).
End tools.

(** ** What the tools rely on *)

Definition f_ids (f : func) : list Z := i_id <$> f_insts f.
Definition m_ids (M : modul) : list Z := concat (f_ids <$> m_functions M).
Definition names (M : modul) : list string := f_name <$> m_functions M.

(** What promoting a variable leaves of a function: all but loads, stores, the
    variable and calls of intrinsics. *)
Record shell (M : modul) (f f' : func) : Prop := {
  sh_name : f_name f' = f_name f;
  sh_intrinsic : f_isIntrinsic f' = f_isIntrinsic f;
  sh_locals : f_hasOptimizeLocals f' = f_hasOptimizeLocals f;
  sh_empty : f_blocks f' = [] ↔ f_blocks f = [];
  sh_calls : ∀ name, Forall (λ g, f_name g = name → f_isIntrinsic g = false) (m_functions M) →
    calls_to name f' = calls_to name f;
}.

Definition cloned_inst (vMap : Z → Z) (i i' : inst) : Prop :=
  i_id i' = vMap (i_id i) ∧ getCalledFunction (i_op i') = getCalledFunction (i_op i).

(** LLVM: a uniqued node has the string asked for and no other node changes; a clone
    has new instructions, and its calls call what the original calls; a name that is
    free is taken as it is; promotion changes the function of the variable only.
    NOELLE: the loops of a function are made of its instructions. *)
Class ToolchainLaws (T : Toolchain) := {
  get_operand ns s n ns' : MDNode_get ns s = (n, ns') → getOperand0 ns' n = Some s;
  get_others ns s n ns' n' s' : MDNode_get ns s = (n, ns') → getOperand0 ns n' = Some s' → getOperand0 ns' n' = Some s';
  clone_blocks M f blocks vMap : CloneFunction M f = (blocks, vMap) → f ∈ m_functions M →
    f_blocks f ≠ [] → blocks ≠ [];
  clone_insts M f blocks vMap : CloneFunction M f = (blocks, vMap) → f ∈ m_functions M →
    Forall2 (cloned_inst vMap) (f_insts f) (concat (b_insts <$> blocks));
  clone_fresh M f blocks vMap I : CloneFunction M f = (blocks, vMap) → f ∈ m_functions M →
    I ∈ f_ids f → vMap I ∉ m_ids M;
  clone_inj M f blocks vMap I J : CloneFunction M f = (blocks, vMap) → f ∈ m_functions M →
    I ∈ f_ids f → J ∈ f_ids f → vMap I = vMap J → I = J;
  unique_free ns n : n ∉ ns → uniqueName ns n = n;
  loop_function : loop → string;
  loops_of M F I L : getInnermostLoopThatContains (organizeLoopsInTheirNestingForest (getLoopStructures M F)) I = Some L →
    loop_function L = F;
  header_of M L a : Inst a ∈ headerOperands M L →
    ∃ g, g ∈ m_functions M ∧ f_name g = loop_function L ∧ a ∈ f_ids g;
  promote_globals M a : m_globals (PromoteMemToReg M a) = m_globals M;
  promote_ids M a : NoDup (m_ids M) → NoDup (m_ids (PromoteMemToReg M a));
  promote_functions M a g : NoDup (m_ids M) → g ∈ m_functions M → a ∈ f_ids g →
    Forall2 (λ f f', shell M f f' ∧ (f_name f ≠ f_name g → f' = f)) (m_functions M) (m_functions (PromoteMemToReg M a));
  elements_members X I : I ∈ elements_of X ↔ I ∈ X;
  elements_nodup X : NoDup (elements_of X);
  less_total I J : less I J = false → less J I = false → I = J;
}.

(** ** Numbers as strings *)

Lemma digit_char (n : N) : (n < 10)%N → digit (pretty_N_char n) = Some (Z.of_N n).
Proof.
  intros Hn. assert (n = 0 ∨ n = 1 ∨ n = 2 ∨ n = 3 ∨ n = 4 ∨ n = 5 ∨ n = 6 ∨ n = 7 ∨ n = 8 ∨ n = 9)%N as Hc by lia.
  repeat destruct Hc as [->|Hc]; try done. by subst n.
Qed.

Lemma digits_pretty (x : N) s : digits 0 (pretty_N_go x s) = digits (Z.of_N x) s.
Proof.
  revert s. induction (N.lt_wf_0 x) as [x _ IH]; intros s. destruct (decide (x = 0)%N) as [->|Hx]; [by rewrite pretty_N_go_0|].
  rewrite pretty_N_go_step by lia. rewrite IH by (apply N.div_lt; lia). cbn [digits].
  rewrite digit_char by (apply N.mod_lt; lia). f_equal. rewrite N2Z.inj_div, N2Z.inj_mod.
  pose proof (Z.div_mod (Z.of_N x) 10). lia.
Qed.

(** A printed number starts with a digit. *)
Lemma pretty_first (x : N) s : (0 < x)%N → ∃ c s', pretty_N_go x s = String c s' ∧ is_Some (digit c).
Proof.
  revert s. induction (N.lt_wf_0 x) as [x _ IH]; intros s Hx. rewrite pretty_N_go_step by lia.
  destruct (decide (x `div` 10 = 0)%N) as [->|Hd].
  - rewrite pretty_N_go_0. eexists _, _. split; [done|]. rewrite digit_char by (apply N.mod_lt; lia). done.
  - apply IH; [apply N.div_lt; lia|by apply N.neq_0_lt_0].
Qed.

Lemma stoi_digits c s : is_Some (digit c) → stoi (String c s) = int_of (digits 0 (String c s)).
Proof.
  intros [d Hd]. assert (48 <= Z.of_N (N_of_ascii c) <= 57) as Hr.
  { unfold digit in Hd. by destruct (decide (48 <= Z.of_N (N_of_ascii c) <= 57)). }
  unfold stoi. cbn [skip_space]. assert (is_space c = false) as ->.
  { unfold is_space. apply bool_decide_eq_false. lia. }
  rewrite !decide_False by (intros ->; destruct Hr as [Hr _]; by apply Hr).
  unfold unsigned_digits. by rewrite Hd.
Qed.

Lemma stoi_pretty z : 0 <= z <= 2147483647 → stoi (pretty z) = Some z.
Proof.
  intros Hz. destruct z as [|p|p]; [done| |lia].
  assert (pretty (Z.pos p) = pretty_N_go (N.pos p) "") as -> by done.
  destruct (pretty_first (N.pos p) "") as (c & s & E & Hc); [lia|]. rewrite E, stoi_digits, <- E, digits_pretty by done.
  unfold int_of. by rewrite decide_True.
Qed.

(** ** Names *)

Lemma ascii_list_app s1 s2 : ascii_list (s1 +:+ s2) = ascii_list s1 ++ ascii_list s2.
Proof.
  induction s1 as [|c s1 IH]; [done|].
  change (c :: ascii_list (s1 +:+ s2) = c :: ascii_list s1 ++ ascii_list s2). by rewrite IH.
Qed.

Lemma ascii_list_length s : List.length (ascii_list s) = String.length s.
Proof. induction s as [|c s IH]; [done|]. cbn. f_equal. exact IH. Qed.

Lemma ends_with_app s e : ends_with (s +:+ e) e = true.
Proof.
  unfold ends_with. rewrite decide_False.
  2: { rewrite <- !ascii_list_length, ascii_list_app, length_app. lia. }
  apply bool_decide_eq_true. rewrite ascii_list_app, reverse_app.
  by rewrite take_app_length' by (by rewrite length_reverse, ascii_list_length).
Qed.

Lemma append_inj s1 s2 e : s1 +:+ e = s2 +:+ e → s1 = s2.
Proof.
  intros E. apply (f_equal ascii_list) in E. rewrite !ascii_list_app in E. apply app_inv_tail in E.
  apply (f_equal String.string_of_list_ascii) in E. unfold ascii_list in E. by rewrite !String.string_of_list_ascii_of_string in E.
Qed.

Section facts.
  Context {T : Toolchain} {TL : ToolchainLaws T}.

(** ** Metadata *)

Lemma hasMetadata_md st I k : hasMetadata st I k = true ↔ is_Some (md st I k).
Proof. unfold hasMetadata. destruct (md st I k); split; done || by intros [? ?]. Qed.

Lemma lookup_attach I k n m J : attach I k n m !! J = if decide (J = I) then Some (<[k := n]> (default ∅ (m !! I))) else m !! J.
Proof. unfold attach. case_decide as HJ; [subst; by rewrite lookup_insert_eq|by rewrite lookup_insert_ne]. Qed.

Lemma md_set_other st I k v J k' : ¬ (J = I ∧ k' = k) → md (setMetadata st I k v) J k' = md st J k'.
Proof.
  intros Hne. unfold setMetadata. destruct (md st I k) eqn:E; [done|]. destruct (MDNode_get _ v) as [n ns].
  unfold md. cbn [pm_metadata with_metadata]. rewrite lookup_attach. case_decide as HJ; [subst J|done]. cbn [mbind option_bind].
  rewrite lookup_insert_ne by naive_solver. destruct (pm_metadata st !! I); cbn; by rewrite ?lookup_empty.
Qed.

Lemma md_set_same st I k v : is_Some (md (setMetadata st I k v) I k).
Proof.
  unfold setMetadata. destruct (md st I k) eqn:E; [unfold md in *; cbn; by rewrite E|]. destruct (MDNode_get _ v) as [n ns].
  unfold md. cbn [pm_metadata with_metadata]. rewrite lookup_attach, decide_True by done. cbn. rewrite lookup_insert_eq. done.
Qed.

Lemma set_module st I k v : pm_module (setMetadata st I k v) = pm_module st.
Proof. unfold setMetadata. destruct (md st I k); [done|]. by destruct (MDNode_get _ v). Qed.

(** Setting metadata an instruction does not have yet leaves all other metadata. *)
Definition nodes_kept (st st' : pmodule) : Prop := ∀ n s, getOperand0 (pm_nodes st) n = Some s → getOperand0 (pm_nodes st') n = Some s.

Lemma set_fresh st I k v : md st I k = None →
  getMetadata (setMetadata st I k v) I k = Some v ∧ nodes_kept st (setMetadata st I k v).
Proof using TL.
  intros E. unfold setMetadata. rewrite E. destruct (MDNode_get _ v) as [n ns] eqn:Eg. split.
  - unfold getMetadata, md. cbn [pm_metadata with_metadata pm_nodes]. rewrite lookup_attach, decide_True by done. cbn [mbind option_bind].
    rewrite lookup_insert_eq. cbn [mbind option_bind]. by apply (get_operand (pm_nodes st) v n ns).
  - intros n' s'. cbn. by apply get_others with v n.
Qed.

Lemma get_kept st st' I k v : md st' I k = md st I k → nodes_kept st st' → getMetadata st I k = Some v → getMetadata st' I k = Some v.
Proof. unfold getMetadata. intros ->. destruct (md st I k); [|done]. intros H. apply H. Qed.

(** The loops that tag a list of instructions. *)
Definition tag_list (k : string) (l : list (Z * string)) (st : pmodule) : pmodule := foldl (λ st Iv, setMetadata st Iv.1 k Iv.2) st l.

Lemma tag_list_module k l st : pm_module (tag_list k l st) = pm_module st.
Proof. revert st. induction l as [|Iv l IH]; intros st; [done|]. cbn. unfold tag_list in IH. by rewrite IH, set_module. Qed.

Lemma tag_list_other k l st J k' : J ∉ l.*1 ∨ k' ≠ k → md (tag_list k l st) J k' = md st J k'.
Proof.
  revert st. induction l as [|Iv l IH]; intros st HJ; [done|]. cbn in *. unfold tag_list in IH. rewrite IH by set_solver.
  apply md_set_other. set_solver.
Qed.

Lemma tag_list_has k l st J : J ∈ l.*1 → is_Some (md (tag_list k l st) J k).
Proof.
  revert st. induction l as [|[I v] l IH]; intros st HJ; cbn in *; [by apply elem_of_nil in HJ|].
  destruct (decide (J ∈ l.*1)) as [Hl|Hl]; [by apply IH|].
  apply elem_of_cons in HJ as [->|HJ]; [|done]. pose proof (tag_list_other k l (setMetadata st I k v) I k (or_introl Hl)) as E.
  unfold tag_list in E. rewrite E. apply md_set_same.
Qed.

Lemma tag_list_values k l st : NoDup l.*1 → (∀ I, I ∈ l.*1 → md st I k = None) →
  (∀ I v, (I, v) ∈ l → getMetadata (tag_list k l st) I k = Some v) ∧ nodes_kept st (tag_list k l st).
Proof using TL.
  revert st. induction l as [|[I v] l IH]; intros st Hnd Hnone.
  { split; [by intros ? ? ?%elem_of_nil|]. by intros n s. }
  cbn in Hnd, Hnone. apply NoDup_cons in Hnd as [Hni Hnd]. destruct (set_fresh st I k v) as [Hv Hk]; [apply Hnone; by left|].
  destruct (IH (setMetadata st I k v) Hnd) as [IHv IHk].
  { intros J HJ. rewrite md_set_other by set_solver. apply Hnone. by right. }
  split; [|intros n s Hs; apply IHk; by apply Hk].
  intros J w HJ. apply elem_of_cons in HJ as [[= -> ->]|HJ]; [|by apply IHv].
  apply (get_kept (setMetadata st I k v) (tag_list k l (setMetadata st I k v))); [|exact IHk|done]. apply tag_list_other. by left.
Qed.

(** ** The start calls *)

Definition starts_in (fs : list func) (name : string) : list (string * Z) :=
  concat ((λ f, pair (f_name f) <$> calls_to name f) <$> fs).
Definition starts (M : modul) (name : string) : list (string * Z) := starts_in (m_functions M) name.

Lemma elem_of_start_calls M name F I : (F, I) ∈ starts M name ↔ ∃ f, f ∈ m_functions M ∧ f_name f = F ∧ I ∈ calls_to name f.
Proof.
  unfold starts, starts_in. rewrite list_elem_of_In, in_concat. split.
  - intros (l & Hl & HI). apply list_elem_of_In, list_elem_of_fmap in Hl as (f & -> & Hf). apply list_elem_of_In, list_elem_of_fmap in HI as (J & [= -> ->] & HI).
    by exists f.
  - intros (f & Hf & <- & HI). eexists. split; apply list_elem_of_In; [by apply list_elem_of_fmap_2|]. by apply list_elem_of_fmap_2.
Qed.

Lemma visit_insts name F insts acc :
  foldl (visitCallBase (Some name)) acc ((λ i, (F, i)) <$> insts) =
  let new := pair F <$> (i_id <$> filter (λ i, getCalledFunction (i_op i) = Some (Some name)) insts) in
  if ends_with F CLONED then (acc.1, acc.2 ++ new) else (acc.1 ++ new, acc.2).
Proof.
  revert acc. induction insts as [|i insts IH]; intros [a b]; cbn [fmap list_fmap foldl].
  { cbn. rewrite !app_nil_r. by destruct (ends_with F CLONED). }
  rewrite IH. unfold visitCallBase. cbn [fst snd]. rewrite filter_cons.
  destruct (getCalledFunction (i_op i)) as [[n|]|]; [|by rewrite decide_False by done..].
  destruct (decide (n = name)) as [->|Hn].
  - rewrite !decide_True by done. cbn. destruct (ends_with F CLONED); cbn; by rewrite <- app_assoc.
  - by rewrite !decide_False by congruence.
Qed.

Lemma filter_pair (F : string) (b : bool) (l : list Z) :
  filter (λ Fi : string * Z, ends_with Fi.1 CLONED = b) (pair F <$> l) = if decide (ends_with F CLONED = b) then pair F <$> l else [].
Proof.
  induction l as [|x l IH]; [by case_decide|]. rewrite fmap_cons, filter_cons, IH. cbn [fst].
  by destruct (ends_with F CLONED), b.
Qed.

Lemma ROIInstVisitor_spec M name : moduleFunction M name = Some name →
  ROIInstVisitor M name =
  (filter (λ Fi, ends_with Fi.1 CLONED = false) (starts M name), filter (λ Fi, ends_with Fi.1 CLONED = true) (starts M name)).
Proof.
  unfold ROIInstVisitor. intros ->. unfold all_insts, starts, starts_in.
  assert (∀ acc, foldl (visitCallBase (Some name)) acc (concat ((λ f, (λ i, (f_name f, i)) <$> f_insts f) <$> m_functions M)) =
    (acc.1 ++ filter (λ Fi, ends_with Fi.1 CLONED = false) (concat ((λ f, pair (f_name f) <$> calls_to name f) <$> m_functions M)),
     acc.2 ++ filter (λ Fi, ends_with Fi.1 CLONED = true) (concat ((λ f, pair (f_name f) <$> calls_to name f) <$> m_functions M)))) as H.
  { induction (m_functions M) as [|f fs IH]; intros acc; [cbn; rewrite !app_nil_r; by destruct acc|].
    rewrite !fmap_cons. cbn [concat]. rewrite foldl_app, visit_insts, IH, !filter_app, !filter_pair. fold (calls_to name f).
    destruct (ends_with (f_name f) CLONED); cbn [fst snd]; [rewrite decide_False, decide_True by done|rewrite decide_True, decide_False by done];
      by rewrite app_nil_l, <- app_assoc. }
  by rewrite H.
Qed.

(** ** The loops of the tagged regions *)

Definition in_map (m : gmap string (gmap Z loop)) (F : string) (I : Z) (L : loop) : Prop := ∃ mF, m !! F = Some mF ∧ mF !! I = Some L.

Lemma functionToLoops_spec st l m F I L :
  (∀ F I L, in_map m F I L → getROILoop (pm_module st) F I = Some L) →
  in_map (foldl (functionToLoops_step st) m l) F I L ↔
  in_map m F I L ∨ ((F, I) ∈ l ∧ hasMetadata st I PROMOTE_ALLOCAS = true ∧ getROILoop (pm_module st) F I = Some L).
Proof.
  revert m. induction l as [|[G J] l IH]; intros m Hm; cbn [foldl]; [set_solver|].
  assert (∀ F I L, in_map (functionToLoops_step st m (G, J)) F I L ↔
    in_map m F I L ∨ ((F, I) = (G, J) ∧ hasMetadata st I PROMOTE_ALLOCAS = true ∧ getROILoop (pm_module st) F I = Some L)) as Hstep.
  { clear IH F I L. intros F I L. unfold functionToLoops_step, hasMetadata. destruct (md st J PROMOTE_ALLOCAS) eqn:Emd.
    2: { split; [by left|]. intros [Hin|([= -> ->] & Hmd & _)]; [done|by rewrite Emd in Hmd]. }
    destruct (getROILoop (pm_module st) G J) as [LJ|] eqn:EL.
    2: { split; [by left|]. intros [Hin|([= -> ->] & _ & HL)]; [done|by rewrite EL in HL]. }
    unfold in_map. split.
    - intros (mF & HF & HI). destruct (decide (F = G)) as [->|HG]; [|rewrite lookup_insert_ne in HF by done; left; by exists mF].
      rewrite lookup_insert_eq in HF. injection HF as <-.
      destruct (decide (I = J)) as [->|HJ]; [right; rewrite lookup_insert_eq in HI; injection HI as <-; by rewrite Emd|].
      rewrite lookup_insert_ne in HI by done. left. destruct (m !! G) as [mG|]; cbn in HI; [by exists mG|by rewrite lookup_empty in HI].
    - intros [(mF & HF & HI)|([= -> ->] & _ & HL)].
      + destruct (decide (F = G)) as [->|HG]; [|exists mF; by rewrite lookup_insert_ne].
        eexists. rewrite lookup_insert_eq. split; [done|]. rewrite HF. cbn.
        destruct (decide (I = J)) as [->|HJ]; [|by rewrite lookup_insert_ne].
        rewrite lookup_insert_eq. rewrite <- EL. apply Hm. by exists mF.
      + eexists. rewrite lookup_insert_eq. split; [done|]. rewrite lookup_insert_eq. congruence. }
  rewrite IH.
  - rewrite Hstep, elem_of_cons. naive_solver.
  - intros F' I' L' [H|(_ & _ & H)]%Hstep; [by apply Hm|done].
Qed.

Lemma getFunctionToLoopsMap_spec st F I L : moduleFunction (pm_module st) MEMORYTOOL_START_TRACKING = Some MEMORYTOOL_START_TRACKING →
  in_map (getFunctionToLoopsMap st) F I L ↔
  (F, I) ∈ starts (pm_module st) MEMORYTOOL_START_TRACKING ∧ hasMetadata st I PROMOTE_ALLOCAS = true ∧
  getROILoop (pm_module st) F I = Some L.
Proof.
  intros HS. unfold getFunctionToLoopsMap. rewrite ROIInstVisitor_spec by done. rewrite functionToLoops_spec.
  - rewrite elem_of_app, !list_elem_of_filter. cbn. assert (¬ in_map ∅ F I L) as Hn by (intros (mF & HF & _); by rewrite lookup_empty in HF).
    destruct (ends_with F CLONED); naive_solver.
  - intros ? ? ? (mF & HF & _). by rewrite lookup_empty in HF.
Qed.

(** ** Promotion *)

(** A module after promotions in the functions [touched] holds of. *)
Record promoted (touched : string → Prop) (M M' : modul) : Prop := {
  pr_globals : m_globals M' = m_globals M;
  pr_ids : NoDup (m_ids M) → NoDup (m_ids M');
  pr_functions : Forall2 (λ f f', shell M f f' ∧ (¬ touched (f_name f) → f' = f)) (m_functions M) (m_functions M');
}.

Lemma shell_refl M f : shell M f f.
Proof. by split. Qed.

Lemma promoted_refl touched M : promoted touched M M.
Proof. split; [done|done|]. apply Forall2_same_length_lookup_2; [done|]. intros i f f' Hf Hf'. simplify_eq. split; [apply shell_refl|done]. Qed.

Lemma promoted_not_intrinsic touched M M' name : promoted touched M M' →
  Forall (λ g, f_name g = name → f_isIntrinsic g = false) (m_functions M) →
  Forall (λ g, f_name g = name → f_isIntrinsic g = false) (m_functions M').
Proof.
  intros [_ _ Hf]. induction Hf as [|f f' fs fs' [[Hn Hi _ _ _] _] _ IH]; [done|]. rewrite !Forall_cons, Hn, Hi. naive_solver.
Qed.

Lemma promoted_trans touched M1 M2 M3 : promoted touched M1 M2 → promoted touched M2 M3 → promoted touched M1 M3.
Proof.
  intros H12 H23. pose proof (promoted_not_intrinsic touched M1 M2) as Hint. destruct H12 as [Hg12 Hi12 Hf12] eqn:E, H23 as [Hg23 Hi23 Hf23].
  split; [congruence|by auto|]. specialize (λ name, Hint name H12). clear E.
  eapply Forall2_trans; [|exact Hf12|exact Hf23]. cbn.
  intros f1 f2 f3 [[Hn Hi Hl He Hc] Hs] [[Hn' Hi' Hl' He' Hc'] Hs']. split.
  - split; [congruence..| |]; [by rewrite He', He|]. intros name Hname. by rewrite Hc', Hc by auto.
  - intros Hf. rewrite Hs'; [by apply Hs|by rewrite Hn].
Qed.

Lemma promote_step_promoted touched M elem M' : NoDup (m_ids M) → touched (loop_function elem.2) → promote_step M elem = Some M' → promoted touched M M'.
Proof using TL.
  intros Hids Ht. unfold promote_step. case_decide as Hsize; [|intros [= <-]; apply promoted_refl].
  apply size_1_elem_of in Hsize as [a Ha]. assert (elements_of (roiAllocaInsts M elem.2) = [a]) as ->.
  { assert (a ∈ elements_of (roiAllocaInsts M elem.2)) as Hin by (apply elements_members; set_solver).
    pose proof (elements_nodup (roiAllocaInsts M elem.2)) as Hnd.
    assert (∀ x, x ∈ elements_of (roiAllocaInsts M elem.2) → x = a) as Hall by (intros x Hx%elements_members; set_solver).
    destruct (elements_of (roiAllocaInsts M elem.2)) as [|x [|y l]]; [by apply elem_of_nil in Hin|by rewrite (Hall x) by (by left)|].
    apply NoDup_cons in Hnd as [Hx _]. exfalso. apply Hx. rewrite (Hall x), <- (Hall y) by set_solver. by left. }
  cbn [mfoldl]. unfold promoteSingleAlloca. destruct (isAllocaPromotable M a); [|done]. intros [= <-].
  assert (a ∈ roiAllocaInsts M elem.2) as Hin by set_solver. unfold roiAllocaInsts in Hin.
  apply elem_of_list_to_set, list_elem_of_omap in Hin as (v & Hv & Hc). assert (v = Inst a) as ->.
  { destruct v as [b| |]; [|done..]. cbn in Hc. destruct (op_of M b) as [[]|]; try done. destruct (allocatedTypeIsInteger M b); congruence. }
  apply header_of in Hv as (g & Hg & Hgn & Hga). split; [apply promote_globals|apply promote_ids|].
  eapply Forall2_impl; [by apply promote_functions|]. cbn. intros f f' [Hsh Hne]. split; [done|]. intros Hf. apply Hne. congruence.
Qed.

Lemma promoteAllocasROIs_promoted touched M m M' : NoDup (m_ids M) → (∀ I L, m !! I = Some L → touched (loop_function L)) →
  promoteAllocasROIs M m = Some M' → promoted touched M M'.
Proof using TL.
  intros Hids Ht H. apply (mfoldl_ind (promoted touched M) _ _ _ _ H); [apply promoted_refl|].
  intros M1 [I L] M2 Hin H1 H2. eapply promoted_trans; [done|]. apply (promote_step_promoted _ _ (I, L)); [by eapply pr_ids| |done].
  apply elem_of_map_to_list in Hin. by apply (Ht I).
Qed.

Definition tagged_function (st : pmodule) (F : string) : Prop :=
  ∃ I, (F, I) ∈ starts (pm_module st) MEMORYTOOL_START_TRACKING ∧ hasMetadata st I PROMOTE_ALLOCAS = true.

Lemma loop_function_of M F I L : getROILoop M F I = Some L → loop_function L = F.
Proof using TL. apply loops_of. Qed.

(** Only functions with a tagged region change, and their calls stay. *)
Lemma promote_promoted b st st' : NoDup (m_ids (pm_module st)) → moduleFunction (pm_module st) MEMORYTOOL_START_TRACKING = Some MEMORYTOOL_START_TRACKING →
  promote_cloned_function_allocas b st = Some st' →
  promoted (tagged_function st) (pm_module st) (pm_module st') ∧ pm_metadata st' = pm_metadata st ∧ pm_nodes st' = pm_nodes st.
Proof using TL.
  intros Hids HS. unfold promote_cloned_function_allocas. destruct b; [intros [= <-]; split; [apply promoted_refl|done]|].
  intros H. apply bind_Some in H as (M & H & [= <-]). cbn. split; [|done].
  apply (mfoldl_ind (promoted (tagged_function st) (pm_module st)) _ _ _ _ H); [apply promoted_refl|].
  intros M1 [F m] M2 Hin H1 H2. eapply promoted_trans; [done|]. apply (promoteAllocasROIs_promoted _ _ m); [by eapply pr_ids| |done].
  intros I L HL. apply elem_of_map_to_list in Hin. assert (in_map (getFunctionToLoopsMap st) F I L) as Hmap by (by exists m).
  apply getFunctionToLoopsMap_spec in Hmap as (Hs & Hmd & HL'); [|done]. apply loop_function_of in HL' as ->. by exists I.
Qed.

(** ** Cloning *)

Lemma copy_metadata_spec vMap (m acc : gmap Z (gmap string node)) insts :
  (∀ I J, I ∈ i_id <$> insts → J ∈ i_id <$> insts → vMap I = vMap J → I = J) →
  let r := foldl (λ md i, partial_alter (λ _, m !! i_id i) (vMap (i_id i)) md) acc insts in
  (∀ J, J ∉ vMap <$> (i_id <$> insts) → r !! J = acc !! J) ∧ (∀ I, I ∈ i_id <$> insts → r !! vMap I = m !! I).
Proof.
  revert acc. induction insts as [|i insts IH]; intros acc Hinj; [split; [done|by intros ? ?%elem_of_nil]|].
  cbn [fmap list_fmap foldl] in *. destruct (IH (partial_alter (λ _, m !! i_id i) (vMap (i_id i)) acc)) as [IH1 IH2].
  { intros I J HI HJ. apply Hinj; by right. }
  split.
  - intros J HJ. apply not_elem_of_cons in HJ as [HJ1 HJ2]. rewrite IH1 by done. by rewrite lookup_partial_alter_ne.
  - intros I HI. destruct (decide (I ∈ i_id <$> insts)) as [HI'|HI']; [by apply IH2|].
    apply elem_of_cons in HI as [->|HI]; [|done]. rewrite IH1; [by rewrite lookup_partial_alter_eq|].
    intros (J & HJ & HJin)%list_elem_of_fmap. apply HI'. rewrite (Hinj (i_id i) J); [done|by left|by right|done].
Qed.

(** A clone: the instructions of the original, in order, with the calls and the
    metadata they have there. *)
Record clone_of (st0 st : pmodule) (f c : func) : Prop := {
  co_name : f_name c = f_name f +:+ CLONED;
  co_intrinsic : f_isIntrinsic c = f_isIntrinsic f;
  co_locals : f_hasOptimizeLocals c = f_hasOptimizeLocals f;
  co_blocks : f_blocks c ≠ [];
  co_insts : Forall2 (λ i i', getCalledFunction (i_op i') = getCalledFunction (i_op i) ∧
    pm_metadata st !! i_id i' = pm_metadata st0 !! i_id i) (f_insts f) (f_insts c);
}.

Record cloned (st0 : pmodule) (originals cs : list func) (st : pmodule) : Prop := {
  cl_functions : m_functions (pm_module st) = m_functions (pm_module st0) ++ cs;
  cl_globals : m_globals (pm_module st) = m_globals (pm_module st0);
  cl_nodes : pm_nodes st = pm_nodes st0;
  cl_each : Forall2 (clone_of st0 st) originals cs;
  cl_kept : ∀ I, I ∈ m_ids (pm_module st0) → pm_metadata st !! I = pm_metadata st0 !! I;
  cl_ids : NoDup (m_ids (pm_module st));
}.

Definition no_clone_name (M : modul) : Prop := ∀ n, n ∈ names M → ends_with n CLONED = false.

Lemma elem_of_m_ids M I : I ∈ m_ids M ↔ ∃ f, f ∈ m_functions M ∧ I ∈ f_ids f.
Proof.
  unfold m_ids. rewrite list_elem_of_In, in_concat. split.
  - intros (l & Hl & HI). apply list_elem_of_In, list_elem_of_fmap in Hl as (f & -> & Hf). exists f. split; [done|by apply list_elem_of_In].
  - intros (f & Hf & HI). exists (f_ids f). split; apply list_elem_of_In; [by apply list_elem_of_fmap_2|done].
Qed.

(** The name of a clone is free as long as the function was not cloned. *)
Lemma clone_name_free st0 originals cs st f : cloned st0 originals cs st → no_clone_name (pm_module st0) →
  f_name f ∉ f_name <$> originals → f_name f +:+ CLONED ∉ names (pm_module st).
Proof.
  intros [Hfs _ _ Heach _ _] Hno Hf. unfold names. rewrite Hfs, fmap_app, elem_of_app. intros [Hin|Hin].
  - apply Hno in Hin. by rewrite ends_with_app in Hin.
  - apply list_elem_of_fmap in Hin as (c & Hc & Hin). apply list_elem_of_lookup in Hin as [j Hj].
    destruct (Forall2_lookup_r _ _ _ _ _ Heach Hj) as (g & Hg & Hco). rewrite (co_name _ _ _ _ Hco) in Hc.
    apply append_inj in Hc. apply Hf. rewrite Hc. apply list_elem_of_fmap_2. by apply list_elem_of_lookup_2 in Hg.
Qed.

Lemma cloneFunction_cloned st0 originals cs st f : cloned st0 originals cs st → no_clone_name (pm_module st0) →
  f ∈ m_functions (pm_module st0) → f_name f ∉ f_name <$> originals → f_blocks f ≠ [] →
  ∃ c, cloned st0 (originals ++ [f]) (cs ++ [c]) (cloneFunction st f).
Proof using TL.
  intros Hcl Hno Hf Hfresh Hblocks. pose proof (clone_name_free _ _ _ _ f Hcl Hno Hfresh) as Hname.
  destruct Hcl as [Hfs Hg Hn Heach Hkept Hids]. unfold cloneFunction.
  destruct (CloneFunction (pm_module st) f) as [blocks vMap] eqn:Ec.
  assert (f ∈ m_functions (pm_module st)) as Hf' by (rewrite Hfs; apply elem_of_app; by left).
  rewrite unique_free by done. set (c := MkFunc (f_name f +:+ CLONED) blocks (f_isIntrinsic f) (f_hasOptimizeLocals f)).
  pose proof (clone_insts _ _ _ _ Ec Hf') as Hinsts.
  assert (f_ids c = vMap <$> f_ids f) as Hcids.
  { unfold f_ids, f_insts. cbn [c f_blocks]. fold (f_insts f). clear -Hinsts. revert Hinsts.
    generalize (concat (b_insts <$> blocks)). induction 1 as [|i i' l l' [H _] _ IH]; [done|]. cbn. by rewrite H, IH. }
  assert (∀ J, J ∈ f_ids f → J ∈ m_ids (pm_module st)) as Hfin by (intros J HJ; apply elem_of_m_ids; by exists f).
  destruct (copy_metadata_spec vMap (pm_metadata st) (pm_metadata st) (f_insts f)) as [Hother Hsame].
  { intros I J. by apply (clone_inj _ _ _ _ _ _ Ec). }
  assert (∀ J, J ∈ m_ids (pm_module st) → J ∉ vMap <$> (i_id <$> f_insts f)) as Hold.
  { intros J HJ (I & -> & HI)%list_elem_of_fmap. by apply (clone_fresh _ _ _ _ I Ec). }
  exists c. split; cbn [pm_module m_functions m_globals pm_nodes pm_metadata]; [by rewrite Hfs, <- app_assoc|done..| | |].
  - apply Forall2_app; [|constructor; [|constructor]].
    + apply (Forall2_impl_in _ _ _ _ Heach). intros g d _ Hd [H1 H2 H3 H4 H5]. split; [done..|].
      apply (Forall2_impl_in _ _ _ _ H5). intros i i' _ Hi' [Hc Hm]. split; [done|]. cbn. unfold copy_metadata. rewrite Hother; [done|].
      apply Hold, elem_of_m_ids. exists d. split; [rewrite Hfs; apply elem_of_app; by right|by apply list_elem_of_fmap_2].
    + split; [done..|by apply (clone_blocks _ _ _ _ Ec)|].
      change (f_insts c) with (concat (b_insts <$> blocks)). apply (Forall2_impl_in _ _ _ _ Hinsts).
      intros i i' Hi _ [H1 H2]. split; [done|]. cbn. unfold copy_metadata. rewrite H1, Hsame by (by apply list_elem_of_fmap_2).
      apply Hkept, elem_of_m_ids. exists f. split; [done|by apply list_elem_of_fmap_2].
  - intros I HI. unfold copy_metadata. rewrite Hother; [by apply Hkept|]. apply Hold.
    apply elem_of_m_ids in HI as (g & Hgin & HI). apply elem_of_m_ids. exists g. rewrite Hfs. split; [apply elem_of_app; by left|done].
  - unfold m_ids. cbn [m_functions]. rewrite fmap_app, concat_app. cbn [fmap list_fmap concat]. rewrite app_nil_r, Hcids.
    apply NoDup_app. split; [exact Hids|]. split; [intros J HJ; by apply Hold|].
    apply NoDup_fmap_2_strong; [intros I J; by apply (clone_inj _ _ _ _ _ _ Ec)|].
    apply (NoDup_concat_parts _ _ Hids). by apply list_elem_of_fmap_2.
Qed.

Definition cloneable (f : func) : Prop := f_isIntrinsic f = false ∧ f_blocks f ≠ [].

#[global] Instance cloneable_dec f : Decision (cloneable f).
Proof. unfold cloneable. apply _. Defined.

Lemma cloneFunctions_cloned st : no_clone_name (pm_module st) → NoDup (names (pm_module st)) → NoDup (m_ids (pm_module st)) →
  ∃ cs, cloned st (filter cloneable (m_functions (pm_module st))) cs (cloneFunctions st).
Proof using TL.
  intros Hno Hnames Hids. unfold cloneFunctions.
  assert (∀ l2 l1 cs st1, m_functions (pm_module st) = l1 ++ l2 → cloned st (filter cloneable l1) cs st1 →
    ∃ cs, cloned st (filter cloneable (l1 ++ l2)) cs (foldl cloneFunctions_step st1 l2)) as H.
  { induction l2 as [|f l2 IH]; intros l1 cs st1 E Hcl; [rewrite app_nil_r; by exists cs|]. cbn [foldl].
    assert (∃ cs, cloned st (filter cloneable (l1 ++ [f])) cs (cloneFunctions_step st1 f)) as [cs' Hcl'].
    { rewrite filter_app, filter_cons, filter_nil. unfold cloneFunctions_step. case_decide as Hf.
      - destruct Hf as [Hi Hb]. rewrite Hi. rewrite decide_False by done.
        destruct (cloneFunction_cloned st (filter cloneable l1) cs st1 f Hcl Hno) as [c Hc]; [|  |done|by exists (cs ++ [c])].
        + rewrite E. apply elem_of_app. right. by left.
        + unfold names in Hnames. rewrite E, fmap_app, fmap_cons in Hnames. apply NoDup_app in Hnames as (_ & Hd & _).
          intros (g & Hg & Hin)%list_elem_of_fmap. apply list_elem_of_filter in Hin as [_ Hin].
          apply (Hd (f_name g)); [by apply list_elem_of_fmap_2|]. rewrite <- Hg. by left.
      - exists cs. rewrite app_nil_r. destruct (f_isIntrinsic f) eqn:Ei; [done|]. case_decide as Hb; [done|]. by destruct Hf. }
    destruct (IH (l1 ++ [f]) cs' (cloneFunctions_step st1 f)) as [cs'' H]; [by rewrite <- app_assoc|done|].
    rewrite <- app_assoc in H. by exists cs''. }
  apply (H (m_functions (pm_module st)) [] []); [done|]. split; [by rewrite app_nil_r|done|done|constructor|done|done].
Qed.

(** The start calls of the clones are those of the originals, in the same order. *)
Lemma starts_of_clones name st0 st originals cs : Forall2 (clone_of st0 st) originals cs →
  Forall2 (λ o c, c.1 = o.1 +:+ CLONED ∧ pm_metadata st !! c.2 = pm_metadata st0 !! o.2) (starts_in originals name) (starts_in cs name).
Proof.
  unfold starts_in. induction 1 as [|f c fs cs [Hn _ _ _ Hi] _ IH]; [constructor|]. rewrite !fmap_cons. cbn [concat].
  apply Forall2_app; [|done]. apply Forall2_fmap. unfold calls_to. rewrite Forall2_fmap. clear IH.
  induction Hi as [|i i' l l' [Hc Hm] _ IH]; [constructor|]. rewrite !filter_cons, Hc. case_decide; [constructor; [|done]|done]. done.
Qed.

Lemma starts_app fs gs name : starts_in (fs ++ gs) name = starts_in fs name ++ starts_in gs name.
Proof. unfold starts_in. by rewrite fmap_app, concat_app. Qed.

Lemma starts_cloneable M name : (∀ f, f ∈ m_functions M → f_isIntrinsic f = true → f_blocks f = []) →
  starts_in (filter cloneable (m_functions M)) name = starts M name.
Proof.
  unfold starts, starts_in. induction (m_functions M) as [|f fs IH]; intros Hi; [done|]. rewrite filter_cons, !fmap_cons. cbn [concat].
  rewrite <- IH by (intros g Hg; apply Hi; by right). case_decide as Hf; [done|].
  assert (f_blocks f = []) as Hb.
  { destruct (f_isIntrinsic f) eqn:E; [apply Hi; [by left|done]|]. destruct (decide (f_blocks f = [])); [done|]. by destruct Hf. }
  unfold calls_to, f_insts. by rewrite Hb.
Qed.

Lemma starts_promoted touched M M' name : promoted touched M M' →
  Forall (λ g, f_name g = name → f_isIntrinsic g = false) (m_functions M) → starts M' name = starts M name.
Proof.
  intros [_ _ Hf] Hn. unfold starts, starts_in. f_equal. symmetry. apply list_eq_Forall2, Forall2_fmap.
  apply (Forall2_impl_in _ _ _ _ Hf). intros f f' _ _ [[Hname _ _ _ Hc] _]. by rewrite Hname, Hc.
Qed.

(** ** The check *)

(** The number of a region. *)
Definition roi_number (st : pmodule) (roi : Z) : option Z := getMetadata st roi ROI_ID ≫= stoi.

Lemma getIdToRoiMap_spec st rois : NoDup rois →
  (∀ r, r ∈ rois → ∃ z, roi_number st r = Some z ∧ 0 <= z <= 2147483647) →
  (∀ r r', r ∈ rois → r' ∈ rois → roi_number st r = roi_number st r' → r = r') →
  ∃ m, getIdToRoiMap st rois = Some m ∧ ∀ z r, m !! z = Some r ↔ r ∈ rois ∧ roi_number st r = Some z.
Proof.
  intros Hnd Hnum Hinj. unfold getIdToRoiMap.
  assert (∀ l (acc : gmap Z Z), (∀ r, r ∈ l → r ∈ rois) → NoDup l → (∀ z r, acc !! z = Some r → r ∈ rois ∧ r ∉ l ∧ roi_number st r = Some z) →
    ∃ m, mfoldl (λ idToRoiMap roi, idStr ← getMetadata st roi ROI_ID; id ← stoi idStr; Some (<[wrap64 id := roi]> idToRoiMap)) acc l = Some m ∧
      ∀ z r, m !! z = Some r ↔ acc !! z = Some r ∨ (r ∈ l ∧ roi_number st r = Some z)) as H.
  { clear Hnd. induction l as [|r l IH]; intros acc Hl Hndl Hacc; cbn [mfoldl]; [exists acc; split; [done|set_solver]|].
    apply NoDup_cons in Hndl as [Hr Hndl]. destruct (Hnum r) as (z & Hz & Hrange); [apply Hl; by left|].
    pose proof Hz as Hz'. unfold roi_number in Hz'. apply bind_Some in Hz' as (s & -> & Hs). cbn [mbind option_bind]. rewrite Hs. cbn [mbind option_bind].
    rewrite wrap64_small by (unfold u64, two64; lia).
    destruct (IH (<[z := r]> acc)) as (m & -> & Hm); [intros r' Hr'; apply Hl; by right|done| |].
    { intros z' r' [[-> ->]|[Hne H']]%lookup_insert_Some; [split; [apply Hl; by left|done]|].
      apply Hacc in H' as (H1 & H2 & H3). split; [done|]. split; [set_solver|done]. }
    exists m. split; [done|]. intros z' r'. rewrite Hm, lookup_insert_Some, elem_of_cons. split.
    - intros [[[-> ->]|[_ H']]|[H1 H2]]; [by right; split; [left|]|by left|by right; split; [right|]].
    - intros [H'|[[->|H1] H2]]; [|left; left; split; [congruence|done]|by right].
      left. right. split; [|done]. intros ->. destruct (Hacc z' r' H') as (H1 & H2 & H3). apply H2.
      rewrite (Hinj r' r); [by left|done|apply Hl; by left|congruence]. }
  destruct (H rois ∅) as (m & Hm & Hspec); [done|done|by intros z r Hz; rewrite lookup_empty in Hz|].
  exists m. split; [done|]. intros z r. rewrite Hspec, lookup_empty. naive_solver.
Qed.

(** The regions whose loop is governed by an induction variable. *)
Lemma roisToPromoteAllocasSetAll_spec st I : moduleFunction (pm_module st) MEMORYTOOL_START_TRACKING = Some MEMORYTOOL_START_TRACKING →
  I ∈ roisToPromoteAllocasSetAll st ↔ ∃ F L, (F, I) ∈ starts (pm_module st) MEMORYTOOL_START_TRACKING ∧
    hasMetadata st I PROMOTE_ALLOCAS = true ∧ getROILoop (pm_module st) F I = Some L ∧ checkForInductionVariable (pm_module st) L = true.
Proof using TL.
  intros HS. unfold roisToPromoteAllocasSetAll.
  assert (∀ (l : list (string * gmap Z loop)) (all : gset Z), I ∈ foldl (λ all elem,
      list_to_set (set_union less (elements_of (list_to_set (checkForInductionVariables (pm_module st) elem.2))) (elements_of all)) ∪ all) all l ↔
    I ∈ all ∨ ∃ F m L, (F, m) ∈ l ∧ m !! I = Some L ∧ checkForInductionVariable (pm_module st) L = true) as H.
  { induction l as [|[F m] l IH]; intros all; cbn [foldl]; [set_solver|].
    rewrite IH, elem_of_union, elem_of_list_to_set, elem_of_set_union, !elements_members, elem_of_list_to_set by apply less_total.
    assert (I ∈ checkForInductionVariables (pm_module st) (F, m).2 ↔ ∃ L, m !! I = Some L ∧ checkForInductionVariable (pm_module st) L = true) as ->.
    { unfold checkForInductionVariables. rewrite list_elem_of_fmap. cbn [snd]. split.
      - intros ([J L] & -> & [Hc HL]%list_elem_of_filter). apply elem_of_map_to_list in HL. by exists L.
      - intros (L & HL & Hc). exists (I, L). split; [done|]. apply list_elem_of_filter. split; [done|]. by apply elem_of_map_to_list. }
    setoid_rewrite elem_of_cons. split; [naive_solver|].
    intros [?|(F' & m' & L & [[= -> ->]|?] & ? & ?)]; [by left; left; right|left; left; left; by exists L|right; by exists F', m', L]. }
  rewrite H. split.
  - intros [?|(F & m & L & Hin & HL & Hc)]; [set_solver|]. apply elem_of_map_to_list in Hin.
    assert (in_map (getFunctionToLoopsMap st) F I L) as Hm by (by exists m). apply getFunctionToLoopsMap_spec in Hm as (? & ? & ?); [|done]. by exists F, L.
  - intros (F & L & H1 & H2 & H3 & Hc). right. destruct (proj2 (getFunctionToLoopsMap_spec st F I L HS)) as (m & Hm & HL); [done|].
    exists F, m, L. split; [by apply elem_of_map_to_list|done].
Qed.

(** Functions that nothing calls can be erased in any order. *)
Lemma erase_all M ns : (∀ n f, n ∈ ns → f ∈ m_functions M → calls_to n f = []) →
  mfoldl eraseFromParent M ns = Some (MkModule (filter (λ f, f_name f ∉ ns) (m_functions M)) (m_globals M)).
Proof.
  revert M. induction ns as [|n ns IH]; intros M Hc; cbn [mfoldl].
  { f_equal. destruct M as [fs gs]. cbn. f_equal. symmetry. apply filter_all. intros f _. apply not_elem_of_nil. }
  assert (eraseFromParent M n = Some (MkModule (filter (λ f, f_name f ≠ n) (m_functions M)) (m_globals M))) as ->.
  { unfold eraseFromParent. apply decide_True. apply Forall_forall. intros f [_ Hf]%list_elem_of_filter. apply Hc; [by left|done]. }
  cbn [mbind option_bind]. rewrite IH.
  2: { intros n' f Hn' [_ Hf]%list_elem_of_filter. apply Hc; [by right|done]. }
  do 2 f_equal. cbn [m_functions]. rewrite list_filter_filter. apply filter_ext_in. intros f _. rewrite not_elem_of_cons. naive_solver.
Qed.

(** ** The trial *)

(** A program as the tools get it: no function has the name of a clone, instructions
    are objects of one place, intrinsics are declarations, every callee is a function
    of the module, and no tool tagged a region before. *)
Record ready (st : pmodule) : Prop := {
  rd_start : moduleFunction (pm_module st) MEMORYTOOL_START_TRACKING = Some MEMORYTOOL_START_TRACKING;
  rd_start_function : Forall (λ g, f_name g = MEMORYTOOL_START_TRACKING → f_isIntrinsic g = false) (m_functions (pm_module st));
  rd_names : NoDup (names (pm_module st));
  rd_no_clones : no_clone_name (pm_module st);
  rd_ids : NoDup (m_ids (pm_module st));
  rd_intrinsics : ∀ f, f ∈ m_functions (pm_module st) → f_isIntrinsic f = true → f_blocks f = [];
  rd_callees : ∀ f i name, f ∈ m_functions (pm_module st) → i ∈ f_insts f →
    getCalledFunction (i_op i) = Some (Some name) → name ∈ names (pm_module st);
  rd_few : Z.of_nat (List.length (starts (pm_module st) MEMORYTOOL_START_TRACKING)) <= 2147483648;
  rd_untagged : ∀ I, md st I ROI_ID = None ∧ md st I PROMOTE_ALLOCAS = None;
}.

Lemma moduleFunction_app M fs gs name : moduleFunction M name = Some name →
  moduleFunction (MkModule (m_functions M ++ fs) gs) name = Some name.
Proof.
  unfold moduleFunction, getFunction. cbn.
  destruct (list_find (λ f, f_name f = name) (m_functions M)) as [[n f]|] eqn:E; [|done]. intros H. by rewrite (list_find_app_l _ _ _ _ _ E).
Qed.

Lemma calls_in_ids name f I : I ∈ calls_to name f → I ∈ f_ids f.
Proof. unfold calls_to, f_ids. intros (i & -> & [_ Hi]%list_elem_of_filter)%list_elem_of_fmap. by apply list_elem_of_fmap_2. Qed.

Lemma starts_in_ids M name F I : (F, I) ∈ starts M name → I ∈ m_ids M.
Proof. intros (f & Hf & _ & HI)%elem_of_start_calls. apply elem_of_m_ids. exists f. split; [done|by eapply calls_in_ids]. Qed.

Lemma starts_ids name fs : sublist (starts_in fs name).*2 (concat (f_ids <$> fs)).
Proof.
  unfold starts_in. induction fs as [|f fs IH]; [done|]. rewrite !fmap_cons. cbn [concat]. rewrite fmap_app. apply sublist_app; [|done].
  assert ((pair (f_name f) <$> calls_to name f).*2 = calls_to name f) as -> by (rewrite <- list_fmap_compose; apply list_fmap_id).
  unfold calls_to, f_ids. apply sublist_fmap, sublist_filter.
Qed.

Lemma tag_numbers l st n : Z.of_nat (n + List.length l) < two64 →
  fst (foldl (λ '(st, roiID) Fi, (tagROIWithID st Fi.2 roiID, roiID +₆₄ 1)) (st, Z.of_nat n) l) =
  tag_list ROI_ID (imap (λ j (o : string * Z), (o.2, pretty (Z.of_nat (n + j)))) l) st.
Proof.
  revert st n. induction l as [|o l IH]; intros st n Hn; [done|]. cbn [foldl imap tag_list] in *. cbn [List.length] in Hn.
  rewrite add64_small by lia. replace (Z.of_nat n + 1) with (Z.of_nat (S n)) by lia. rewrite IH by lia.
  rewrite Nat.add_0_r. unfold tag_list. cbn. f_equal. apply imap_ext. intros j x _. cbn. by rewrite Nat.add_succ_r.
Qed.

(** The module after the first tool: the program, its clones, and the tags. *)
Record trial (st st2 : pmodule) (cs : list func) : Prop := {
  tr_functions : m_functions (pm_module st2) = m_functions (pm_module st) ++ cs;
  tr_globals : m_globals (pm_module st2) = m_globals (pm_module st);
  tr_clones : Forall2 (λ f c, f_name c = f_name f +:+ CLONED ∧ f_isIntrinsic c = false ∧ f_blocks c ≠ [] ∧
    Forall2 (λ i i', getCalledFunction (i_op i') = getCalledFunction (i_op i)) (f_insts f) (f_insts c))
    (filter cloneable (m_functions (pm_module st))) cs;
  tr_ids : NoDup (m_ids (pm_module st2));
  tr_starts : Forall2 (λ o c, c.1 = o.1 +:+ CLONED) (starts (pm_module st) MEMORYTOOL_START_TRACKING) (starts_in cs MEMORYTOOL_START_TRACKING);
  tr_numbers : ∀ j o c, starts (pm_module st) MEMORYTOOL_START_TRACKING !! j = Some o →
    starts_in cs MEMORYTOOL_START_TRACKING !! j = Some c →
    roi_number st2 o.2 = Some (Z.of_nat j) ∧ roi_number st2 c.2 = Some (Z.of_nat j);
  tr_promote : ∀ I, I ∈ m_ids (pm_module st2) →
    hasMetadata st2 I PROMOTE_ALLOCAS = true ↔ I ∈ (starts_in cs MEMORYTOOL_START_TRACKING).*2;
  tr_other : ∀ I k, I ∈ m_ids (pm_module st) → k ≠ ROI_ID → k ≠ PROMOTE_ALLOCAS → md st2 I k = md st I k;
}.

Lemma no_clone_starts M name : no_clone_name M → filter (λ Fi, ends_with Fi.1 CLONED = false) (starts M name) = starts M name ∧
  filter (λ Fi, ends_with Fi.1 CLONED = true) (starts M name) = [].
Proof.
  intros Hno. assert (∀ Fi, Fi ∈ starts M name → ends_with Fi.1 CLONED = false) as H.
  { intros [F I] (f & Hf & <- & _)%elem_of_start_calls. apply (Hno (f_name f)). unfold names. by apply list_elem_of_fmap_2. }
  split; [by apply filter_all|]. apply filter_none. intros Fi HFi. by rewrite (H Fi HFi).
Qed.

Lemma clone_starts (l cs : list (string * Z)) : Forall2 (λ o c, c.1 = o.1 +:+ CLONED) l cs →
  filter (λ Fi, ends_with Fi.1 CLONED = false) cs = [] ∧ filter (λ Fi, ends_with Fi.1 CLONED = true) cs = cs.
Proof.
  intros H. assert (∀ c, c ∈ cs → ends_with c.1 CLONED = true) as Hc.
  { intros c [j Hj]%list_elem_of_lookup. destruct (Forall2_lookup_r _ _ _ _ _ H Hj) as (o & _ & ->). apply ends_with_app. }
  split; [|by apply filter_all]. apply filter_none. intros c Hin. by rewrite (Hc c Hin).
Qed.

(** What the visitor finds in a program with its clones. *)
Lemma visitor_of_clones st M cs : ready st → m_functions M = m_functions (pm_module st) ++ cs →
  Forall2 (λ o c, c.1 = o.1 +:+ CLONED) (starts (pm_module st) MEMORYTOOL_START_TRACKING) (starts_in cs MEMORYTOOL_START_TRACKING) →
  moduleFunction M MEMORYTOOL_START_TRACKING = Some MEMORYTOOL_START_TRACKING ∧
  ROIInstVisitor M MEMORYTOOL_START_TRACKING =
    (starts (pm_module st) MEMORYTOOL_START_TRACKING, starts_in cs MEMORYTOOL_START_TRACKING).
Proof.
  intros Hr HM Hc. assert (moduleFunction M MEMORYTOOL_START_TRACKING = Some MEMORYTOOL_START_TRACKING) as HS.
  { pose proof (moduleFunction_app (pm_module st) cs (m_globals M) _ (rd_start _ Hr)) as E. rewrite <- HM in E. by destruct M. }
  split; [done|]. rewrite ROIInstVisitor_spec by done. unfold starts at 1 2. rewrite HM, starts_app, !filter_app.
  change (starts_in (m_functions (pm_module st)) MEMORYTOOL_START_TRACKING) with (starts (pm_module st) MEMORYTOOL_START_TRACKING).
  destruct (no_clone_starts _ MEMORYTOOL_START_TRACKING (rd_no_clones _ Hr)) as [-> ->].
  destruct (clone_starts _ _ Hc) as [-> ->]. by rewrite app_nil_r.
Qed.

Lemma starts_nodup M name : NoDup (m_ids M) → NoDup (starts M name).*2.
Proof. intros H. eapply sublist_NoDup; [exact H|]. apply starts_ids. Qed.

(** The first loop gives the regions their numbers. *)
Lemma tagROIsWithIDs_numbers st : ready st →
  pm_module (tagROIsWithIDs st MEMORYTOOL_START_TRACKING) = pm_module st ∧
  (∀ j o, starts (pm_module st) MEMORYTOOL_START_TRACKING !! j = Some o →
    getMetadata (tagROIsWithIDs st MEMORYTOOL_START_TRACKING) o.2 ROI_ID = Some (pretty (Z.of_nat j))) ∧
  ∀ I k, k ≠ ROI_ID → md (tagROIsWithIDs st MEMORYTOOL_START_TRACKING) I k = md st I k.
Proof using TL.
  intros Hr. set (O := starts (pm_module st) MEMORYTOOL_START_TRACKING). pose proof (rd_few _ Hr) as Hfew. fold O in Hfew.
  set (l := imap (λ j (o : string * Z), (o.2, pretty (Z.of_nat j))) O).
  assert (tagROIsWithIDs st MEMORYTOOL_START_TRACKING = tag_list ROI_ID l st) as ->.
  { unfold tagROIsWithIDs. rewrite ROIInstVisitor_spec by apply Hr. cbn [fst].
    destruct (no_clone_starts _ MEMORYTOOL_START_TRACKING (rd_no_clones _ Hr)) as [-> _].
    apply (tag_numbers O st 0). unfold two64. lia. }
  split; [apply tag_list_module|]. split; [|intros I k Hk; apply tag_list_other; by right].
  assert (l.*1 = O.*2) as El.
  { unfold l. generalize O. intros O'. apply list_eq. intros j. rewrite list_lookup_fmap, list_lookup_imap, list_lookup_fmap. by destruct (O' !! j). }
  intros j o Hj. apply (tag_list_values ROI_ID l st).
  - rewrite El. apply starts_nodup, Hr.
  - intros I _. apply (rd_untagged _ Hr).
  - apply list_elem_of_lookup. exists j. unfold l. by rewrite list_lookup_imap, Hj.
Qed.

(** What the clones of a tagged program have. *)
Lemma tagged_clones st0 cs st : cloned st0 (filter cloneable (m_functions (pm_module st0))) cs st →
  (∀ f, f ∈ m_functions (pm_module st0) → f_isIntrinsic f = true → f_blocks f = []) →
  Forall2 (λ o c, c.1 = o.1 +:+ CLONED ∧ (∀ k, md st o.2 k = md st0 o.2 k) ∧ ∀ k, md st c.2 k = md st0 o.2 k)
    (starts (pm_module st0) MEMORYTOOL_START_TRACKING) (starts_in cs MEMORYTOOL_START_TRACKING).
Proof.
  intros Hcl Hint. pose proof (starts_of_clones MEMORYTOOL_START_TRACKING _ _ _ _ (cl_each _ _ _ _ Hcl)) as H.
  rewrite starts_cloneable in H by done. apply (Forall2_impl_in _ _ _ _ H). intros [F I] c Ho _ [Hn Hm]. split; [done|].
  split; intros k; unfold md; [|by rewrite Hm]. rewrite (cl_kept _ _ _ _ Hcl); [done|]. by eapply starts_in_ids.
Qed.

Lemma cloned_untagged st0 originals cs st k I : cloned st0 originals cs st → (∀ J, md st0 J k = None) →
  I ∈ m_ids (pm_module st) → md st I k = None.
Proof.
  intros [Hfs _ _ Heach Hkept _] Hnone (f & Hf & HI)%elem_of_m_ids. rewrite Hfs in Hf. apply elem_of_app in Hf as [Hf|Hf].
  - unfold md. rewrite Hkept by (apply elem_of_m_ids; by exists f). apply Hnone.
  - apply list_elem_of_lookup in Hf as [j Hj]. destruct (Forall2_lookup_r _ _ _ _ _ Heach Hj) as (g & _ & [_ _ _ _ Hi]).
    apply list_elem_of_fmap in HI as (i' & -> & Hi'). apply list_elem_of_lookup in Hi' as [n Hn].
    destruct (Forall2_lookup_r _ _ _ _ _ Hi Hn) as (i & _ & _ & Hm). unfold md. rewrite Hm. apply Hnone.
Qed.

(** A program keeps its tags when it is cloned, and each clone has those of its
    original. *)
Lemma clone_function_roi_trial st : ready st → ∃ cs, trial st (clone_function_roi false st) cs.
Proof using TL.
  intros Hr. destruct (tagROIsWithIDs_numbers st Hr) as (HM1 & Hnum & Hmd1).
  set (st1 := tagROIsWithIDs st MEMORYTOOL_START_TRACKING) in *. rewrite <- HM1 in *.
  destruct (cloneFunctions_cloned st1) as [cs Hcl]; [rewrite HM1; apply Hr..|].
  set (st1c := cloneFunctions st1) in *. assert (∀ f, f ∈ m_functions (pm_module st1) → f_isIntrinsic f = true → f_blocks f = []) as Hint.
  { rewrite HM1. apply Hr. }
  pose proof (tagged_clones _ _ _ Hcl Hint) as Hpairs.
  set (O := starts (pm_module st1) MEMORYTOOL_START_TRACKING) in *. set (C := starts_in cs MEMORYTOOL_START_TRACKING) in *.
  assert (clone_function_roi false st = tag_list PROMOTE_ALLOCAS ((λ c, (c.2, "true")) <$> C) st1c) as E2.
  { unfold clone_function_roi. fold st1. fold st1c. unfold tagROIsToPromoteAllocas.
    destruct (visitor_of_clones st (pm_module st1c) cs Hr) as [_ ->].
    - rewrite <- HM1. apply Hcl.
    - rewrite <- HM1. by eapply Forall2_impl; [exact Hpairs|]; intros o c [? _].
    - cbn [snd]. unfold tag_list. fold C. by rewrite foldl_fmap. }
  assert (Hfst : ((λ c : string * Z, (c.2, "true")) <$> C).*1 = C.*2) by (rewrite <- list_fmap_compose; by apply list_fmap_ext).
  pose proof (cl_ids _ _ _ _ Hcl) as Hids. pose proof (starts_nodup _ MEMORYTOOL_START_TRACKING Hids) as HndC.
  unfold starts in HndC. rewrite (cl_functions _ _ _ _ Hcl), starts_app, fmap_app in HndC. fold C in HndC.
  apply NoDup_app in HndC as (_ & _ & HndC).
  assert (∀ J, md st1 J PROMOTE_ALLOCAS = None) as Hnone by (intros J; rewrite Hmd1 by done; apply (rd_untagged _ Hr)).
  destruct (tag_list_values PROMOTE_ALLOCAS ((λ c, (c.2, "true")) <$> C) st1c) as [_ Hkept].
  { by rewrite Hfst. }
  { intros I HI. rewrite Hfst in HI. apply list_elem_of_fmap in HI as (c & -> & Hc). apply list_elem_of_lookup in Hc as [j Hj].
    destruct (Forall2_lookup_r _ _ _ _ _ Hpairs Hj) as (o & _ & _ & _ & Hm). by rewrite Hm. }
  exists cs. rewrite E2. split; rewrite ?tag_list_module, <- ?HM1; [apply Hcl|apply Hcl| |done|by eapply Forall2_impl; [exact Hpairs|]; intros o c [? _]| | |].
  - apply (Forall2_impl_in _ _ _ _ (cl_each _ _ _ _ Hcl)). intros f c Hf _ [H1 H2 _ H4 H5].
    apply list_elem_of_filter in Hf as [[Hf _] _]. split; [done|]. split; [by rewrite H2|]. split; [done|].
    eapply Forall2_impl; [exact H5|]. by intros i i' [? _].
  - intros j o c Ho Hc. fold O in Ho. fold C in Hc. destruct (Forall2_lookup_lr _ _ _ _ _ _ Hpairs Ho Hc) as (_ & Hmo & Hmc).
    assert (∀ I, md st1c I ROI_ID = md st1 o.2 ROI_ID →
      roi_number (tag_list PROMOTE_ALLOCAS ((λ c, (c.2, "true")) <$> C) st1c) I = Some (Z.of_nat j)) as H.
    { intros I HI. unfold roi_number. rewrite (get_kept st1c _ I ROI_ID (pretty (Z.of_nat j))).
      - cbn. apply stoi_pretty. apply lookup_lt_Some in Ho. pose proof (rd_few _ Hr) as Hfew. rewrite <- HM1 in Hfew. fold O in Hfew. lia.
      - apply tag_list_other. by right.
      - done.
      - unfold getMetadata. rewrite HI, (cl_nodes _ _ _ _ Hcl). by apply Hnum. }
    split; apply H; done.
  - intros I HI. rewrite hasMetadata_md. split.
    + intros [n Hn]. destruct (decide (I ∈ C.*2)) as [Hin|Hin]; [done|]. rewrite tag_list_other in Hn by (left; by rewrite Hfst).
      by rewrite (cloned_untagged _ _ _ _ _ _ Hcl Hnone HI) in Hn.
    + intros Hin. apply tag_list_has. by rewrite Hfst.
  - intros I k HI Hk1 Hk2. rewrite tag_list_other by (by right). unfold md at 1. rewrite (cl_kept _ _ _ _ Hcl) by done.
    by apply Hmd1.
Qed.

(** The functions of a module with clones that are not intrinsics. *)
Lemma trial_not_intrinsic st st2 cs name : trial st st2 cs →
  Forall (λ g, f_name g = name → f_isIntrinsic g = false) (m_functions (pm_module st)) →
  Forall (λ g, f_name g = name → f_isIntrinsic g = false) (m_functions (pm_module st2)).
Proof.
  intros Ht H. rewrite (tr_functions _ _ _ Ht). apply Forall_app. split; [done|]. apply Forall_forall. intros c [j Hj]%list_elem_of_lookup _.
  by destruct (Forall2_lookup_r _ _ _ _ _ (tr_clones _ _ _ Ht) Hj) as (f & _ & _ & ? & _).
Qed.

(** The program has no tagged function yet, only its clones have. *)
Lemma trial_original_untagged st st2 cs f : ready st → trial st st2 cs → f ∈ m_functions (pm_module st) → ¬ tagged_function st2 (f_name f).
Proof.
  intros Hr Ht Hf (I & HI & Hp). pose proof (starts_in_ids _ _ _ _ HI) as Hid. apply (tr_promote _ _ _ Ht) in Hp; [|done].
  pose proof (starts_nodup _ MEMORYTOOL_START_TRACKING (tr_ids _ _ _ Ht)) as Hnd. unfold starts in HI, Hnd.
  rewrite (tr_functions _ _ _ Ht), starts_app in HI, Hnd. rewrite fmap_app in Hnd. apply elem_of_app in HI as [HI|HI].
  - apply NoDup_app in Hnd as (_ & Hd & _). apply (Hd I); [|done]. by apply (list_elem_of_fmap_2 snd _ (f_name f, I)).
  - apply list_elem_of_lookup in HI as [j Hj]. destruct (Forall2_lookup_r _ _ _ _ _ (tr_starts _ _ _ Ht) Hj) as (o & _ & Hn). cbn in Hn.
    assert (ends_with (f_name f) CLONED = false) as E by (apply (rd_no_clones _ Hr); unfold names; by apply list_elem_of_fmap_2).
    by rewrite Hn, ends_with_app in E.
Qed.

Lemma trial_promoted st st2 cs st3 : ready st → trial st st2 cs → promote_cloned_function_allocas false st2 = Some st3 →
  ∃ cs', m_functions (pm_module st3) = m_functions (pm_module st) ++ cs' ∧ m_globals (pm_module st3) = m_globals (pm_module st) ∧
    Forall2 (shell (pm_module st2)) cs cs' ∧ starts_in cs' MEMORYTOOL_START_TRACKING = starts_in cs MEMORYTOOL_START_TRACKING ∧
    pm_metadata st3 = pm_metadata st2 ∧ pm_nodes st3 = pm_nodes st2.
Proof using TL.
  intros Hr Ht Hp. pose proof (visitor_of_clones st (pm_module st2) cs Hr (tr_functions _ _ _ Ht) (tr_starts _ _ _ Ht)) as [HS _].
  apply promote_promoted in Hp as ([Hg _ Hf] & Hmd & Hns); [|apply Ht|done]. rewrite (tr_functions _ _ _ Ht) in Hf.
  apply Forall2_app_inv_l in Hf as (fs' & cs' & Hfs & Hcs & E). exists cs'.
  assert (fs' = m_functions (pm_module st)) as ->.
  { symmetry. apply list_eq_Forall2. apply (Forall2_impl_in _ _ _ _ Hfs). intros f f' Hin _ [_ H]. symmetry. apply H.
    by apply (trial_original_untagged st st2 cs). }
  split; [done|]. split; [by rewrite Hg, (tr_globals _ _ _ Ht)|]. split; [by eapply Forall2_impl; [exact Hcs|]; intros c c' [? _]|]. split; [|done].
  unfold starts_in. f_equal. symmetry. apply list_eq_Forall2, Forall2_fmap. eapply Forall2_impl; [exact Hcs|].
  intros c c' [[Hn _ _ _ Hc] _]. rewrite Hn, Hc; [done|]. apply (trial_not_intrinsic st st2 cs); [done|apply Hr].
Qed.

(** Nothing calls a clone: a call in a clone calls what the original calls. *)
Lemma clones_uncalled st st2 cs cs' n f : ready st → trial st st2 cs → Forall2 (shell (pm_module st2)) cs cs' →
  n ∈ f_name <$> cs' → f ∈ m_functions (pm_module st) ++ cs' → calls_to n f = [].
Proof.
  intros Hr Ht Hsh Hn Hf.
  assert (∀ g, g ∈ m_functions (pm_module st) → ∀ i, i ∈ f_insts g → getCalledFunction (i_op i) ≠ Some (Some n)) as Hno.
  { intros g Hg i Hi Hc. apply (rd_callees _ Hr g i n) in Hc; [|done..]. apply (rd_no_clones _ Hr) in Hc.
    apply list_elem_of_fmap in Hn as (c' & -> & [j Hj]%list_elem_of_lookup). destruct (Forall2_lookup_r _ _ _ _ _ Hsh Hj) as (c & Hc' & [Hname _ _ _ _]).
    destruct (Forall2_lookup_r _ _ _ _ _ (tr_clones _ _ _ Ht) Hc') as (g0 & _ & Hn0 & _). by rewrite Hname, Hn0, ends_with_app in Hc. }
  apply elem_of_app in Hf as [Hf|Hf]; [unfold calls_to; rewrite filter_none; [done|by apply Hno]|].
  apply list_elem_of_lookup in Hf as [k Hk]. destruct (Forall2_lookup_r _ _ _ _ _ Hsh Hk) as (d & Hd & [_ _ _ _ Hcalls]).
  rewrite Hcalls.
  - destruct (Forall2_lookup_r _ _ _ _ _ (tr_clones _ _ _ Ht) Hd) as (g & Hg & _ & _ & _ & Hi). unfold calls_to. rewrite filter_none; [done|].
    intros i' [m Hm]%list_elem_of_lookup. destruct (Forall2_lookup_r _ _ _ _ _ Hi Hm) as (i & Hi' & ->). apply (Hno g); [|by eapply list_elem_of_lookup_2].
    apply list_elem_of_lookup_2, list_elem_of_filter in Hg. apply Hg.
  - apply Forall_forall. intros g Hg Hgn. rewrite (tr_functions _ _ _ Ht) in Hg. apply list_elem_of_fmap in Hn as (c' & -> & [j Hj]%list_elem_of_lookup).
    destruct (Forall2_lookup_r _ _ _ _ _ Hsh Hj) as (c & Hc & [Hname _ _ _ _]).
    destruct (Forall2_lookup_r _ _ _ _ _ (tr_clones _ _ _ Ht) Hc) as (g0 & _ & Hn0 & _). apply elem_of_app in Hg as [Hg|Hg].
    + exfalso. assert (ends_with (f_name g) CLONED = false) as E by (apply (rd_no_clones _ Hr); unfold names; by apply list_elem_of_fmap_2).
      by rewrite Hgn, Hname, Hn0, ends_with_app in E.
    + apply list_elem_of_lookup in Hg as [m Hm]. by destruct (Forall2_lookup_r _ _ _ _ _ (tr_clones _ _ _ Ht) Hm) as (? & _ & _ & ? & _).
Qed.

Lemma trial_number st st2 cs : trial st st2 cs →
  (∀ j o, starts (pm_module st) MEMORYTOOL_START_TRACKING !! j = Some o → roi_number st2 o.2 = Some (Z.of_nat j)) ∧
  (∀ j c, starts_in cs MEMORYTOOL_START_TRACKING !! j = Some c → roi_number st2 c.2 = Some (Z.of_nat j)).
Proof.
  intros Ht. split; intros j x Hx.
  - destruct (Forall2_lookup_l _ _ _ _ _ (tr_starts _ _ _ Ht) Hx) as (c & Hc & _). by apply (tr_numbers _ _ _ Ht j x c).
  - destruct (Forall2_lookup_r _ _ _ _ _ (tr_starts _ _ _ Ht) Hx) as (o & Ho & _). by apply (tr_numbers _ _ _ Ht j o x).
Qed.

(** The map from numbers to regions, for some of a list of regions that are numbered
    by their positions. *)
Lemma getIdToRoiMap_positions st (l : list (string * Z)) rois : NoDup rois → Z.of_nat (List.length l) <= 2147483648 →
  (∀ j x, l !! j = Some x → roi_number st x.2 = Some (Z.of_nat j)) → (∀ r, r ∈ rois → r ∈ l.*2) →
  ∃ m, getIdToRoiMap st rois = Some m ∧ ∀ z r, m !! z = Some r ↔ r ∈ rois ∧ ∃ j x, l !! j = Some x ∧ x.2 = r ∧ z = Z.of_nat j.
Proof.
  intros Hnd Hlen Hnum Hin.
  assert (∀ r, r ∈ rois → ∃ j x, l !! j = Some x ∧ x.2 = r ∧ roi_number st r = Some (Z.of_nat j)) as H.
  { intros r Hr. apply Hin, list_elem_of_fmap in Hr as (x & -> & [j Hj]%list_elem_of_lookup). exists j, x. split; [done|]. split; [done|by apply Hnum]. }
  destruct (getIdToRoiMap_spec st rois Hnd) as (m & Hm & Hspec).
  - intros r Hr. destruct (H r Hr) as (j & x & Hj & _ & Hz). exists (Z.of_nat j). split; [done|]. apply lookup_lt_Some in Hj. lia.
  - intros r r' Hr Hr' E. destruct (H r Hr) as (j & x & Hj & <- & Hz), (H r' Hr') as (j' & x' & Hj' & <- & Hz').
    rewrite Hz, Hz' in E. injection E as E. apply Nat2Z.inj in E as ->. congruence.
  - exists m. split; [done|]. intros z r. rewrite Hspec. split.
    + intros [Hr E]. split; [done|]. destruct (H r Hr) as (j & x & Hj & Hx & Hz). exists j, x. split; [done|]. split; [done|congruence].
    + intros [Hr (j & x & Hj & <- & ->)]. split; [done|by apply Hnum].
Qed.

(** From the clones that passed the check back to their originals. *)
Lemma originals_found st st2 cs st3 A : ready st → trial st st2 cs → pm_metadata st3 = pm_metadata st2 → pm_nodes st3 = pm_nodes st2 →
  ROIInstVisitor (pm_module st3) MEMORYTOOL_START_TRACKING =
    (starts (pm_module st) MEMORYTOOL_START_TRACKING, starts_in cs MEMORYTOOL_START_TRACKING) →
  NoDup A → (∀ I, I ∈ A → I ∈ (starts_in cs MEMORYTOOL_START_TRACKING).*2) →
  ∃ originals, getOriginalROIsToPromoteAllocas st3 A = Some originals ∧
    ∀ I, I ∈ originals ↔ ∃ j o c, starts (pm_module st) MEMORYTOOL_START_TRACKING !! j = Some o ∧
      starts_in cs MEMORYTOOL_START_TRACKING !! j = Some c ∧ o.2 = I ∧ c.2 ∈ A.
Proof.
  intros Hr Ht Hmd Hns Hv HndA HA. unfold getOriginalROIsToPromoteAllocas. rewrite Hv. cbn [fst].
  set (O := starts (pm_module st) MEMORYTOOL_START_TRACKING) in *. set (C := starts_in cs MEMORYTOOL_START_TRACKING) in *.
  assert (∀ I, roi_number st3 I = roi_number st2 I) as Enum by (intros I; unfold roi_number, getMetadata, md; by rewrite Hmd, Hns).
  destruct (trial_number _ _ _ Ht) as [HnO HnC]. pose proof (rd_few _ Hr) as Hfew. fold O in Hfew.
  pose proof (Forall2_length _ _ _ (tr_starts _ _ _ Ht)) as Hlen. fold O C in Hlen.
  destruct (getIdToRoiMap_positions st3 O O.*2) as (mO & -> & HmO); [apply starts_nodup, Hr|done| |done|].
  { intros j x Hj. rewrite Enum. by apply HnO. }
  destruct (getIdToRoiMap_positions st3 C A) as (mC & -> & HmC); [done|lia| |done|].
  { intros j x Hj. rewrite Enum. by apply HnC. }
  cbn [mbind option_bind].
  destruct (mfoldl_collect (λ rois elem, roiOriginal ← mO !! elem.1; Some (rois ++ [roiOriginal]))
    (λ elem o, mO !! elem.1 = Some o) (map_to_list mC) []) as (originals & -> & Hor).
  { intros acc [z c] Hin. apply elem_of_map_to_list, HmC in Hin as [_ (j & x & Hj & <- & ->)].
    destruct (Forall2_lookup_r _ _ _ _ _ (tr_starts _ _ _ Ht) Hj) as (o & Ho & _). fold O in Ho.
    assert (mO !! Z.of_nat j = Some o.2) as E.
    { apply HmO. split; [apply list_elem_of_fmap_2; by eapply list_elem_of_lookup_2|]. by exists j, o. }
    cbn [fst]. rewrite E. eexists. split; [done|]. intros y. rewrite elem_of_app, list_elem_of_singleton. naive_solver. }
  exists originals. split; [done|]. intros I. rewrite Hor. split.
  - intros [?%elem_of_nil|([z c] & Hin & HI)]; [done|]. apply elem_of_map_to_list, HmC in Hin as [Hc (j & x & Hj & <- & ->)].
    cbn in HI. apply HmO in HI as [_ (j' & o & Ho & <- & E)]. apply Nat2Z.inj in E as ->. by exists j', o, x.
  - intros (j & o & c & Ho & Hc & <- & HcA). right. exists (Z.of_nat j, c.2). split.
    + apply elem_of_map_to_list, HmC. split; [done|]. by exists j, c.
    + cbn. apply HmO. split; [apply list_elem_of_fmap_2; by eapply list_elem_of_lookup_2|]. by exists j, o.
Qed.

Lemma delete_list_module l st : pm_module (foldl (λ st roi, deleteMetadata st roi PROMOTE_ALLOCAS) st l) = pm_module st.
Proof. revert st. induction l as [|I l IH]; intros st; [done|]. cbn. rewrite IH. unfold deleteMetadata. by destruct (md st I PROMOTE_ALLOCAS). Qed.

Lemma delete_list_other l st J k : J ∉ l ∨ k ≠ PROMOTE_ALLOCAS →
  md (foldl (λ st roi, deleteMetadata st roi PROMOTE_ALLOCAS) st l) J k = md st J k.
Proof.
  revert st. induction l as [|I l IH]; intros st HJ; [done|]. cbn. rewrite IH by set_solver. unfold deleteMetadata.
  destruct (md st I PROMOTE_ALLOCAS) eqn:E; [|done]. unfold md. cbn [pm_metadata with_metadata].
  destruct (decide (I = J)) as [->|HIJ]; [|by rewrite lookup_alter_ne]. rewrite lookup_alter_eq.
  destruct (pm_metadata st !! J) as [kinds|]; [|done]. cbn. rewrite lookup_delete_ne; [done|]. destruct HJ as [HJ|HJ]; [set_solver|done].
Qed.

(** The module, its regions and the tags when the check begins. *)
Lemma trial_starts st st2 cs cs' : trial st st2 cs → starts_in cs' MEMORYTOOL_START_TRACKING = starts_in cs MEMORYTOOL_START_TRACKING →
  NoDup (starts_in (m_functions (pm_module st) ++ cs') MEMORYTOOL_START_TRACKING).*2.
Proof.
  intros Ht E. rewrite starts_app, E, <- starts_app, <- (tr_functions _ _ _ Ht). apply (starts_nodup (pm_module st2)), (tr_ids _ _ _ Ht).
Qed.

Lemma snd_unique {A B} (l : list (A * B)) a a' b : NoDup l.*2 → (a, b) ∈ l → (a', b) ∈ l → a = a'.
Proof.
  intros Hnd [i Hi]%list_elem_of_lookup [j Hj]%list_elem_of_lookup. assert (i = j) as ->; [|congruence].
  eapply NoDup_lookup; [exact Hnd|by rewrite list_lookup_fmap, Hi|by rewrite list_lookup_fmap, Hj].
Qed.

(** A clone passes the check if its loop, in the promoted module, has an induction
    variable. *)
Lemma passes_check st st2 cs st3 cs' j c : ready st → trial st st2 cs →
  m_functions (pm_module st3) = m_functions (pm_module st) ++ cs' →
  starts_in cs' MEMORYTOOL_START_TRACKING = starts_in cs MEMORYTOOL_START_TRACKING → pm_metadata st3 = pm_metadata st2 →
  moduleFunction (pm_module st3) MEMORYTOOL_START_TRACKING = Some MEMORYTOOL_START_TRACKING →
  starts_in cs MEMORYTOOL_START_TRACKING !! j = Some c →
  c.2 ∈ roisToPromoteAllocasSetAll st3 ↔
  ∃ L, getROILoop (pm_module st3) c.1 c.2 = Some L ∧ checkForInductionVariable (pm_module st3) L = true.
Proof using TL.
  intros Hr Ht Hfs Hcs Hmd HS Hc. rewrite roisToPromoteAllocasSetAll_spec by done.
  assert (c ∈ starts (pm_module st3) MEMORYTOOL_START_TRACKING) as Hin.
  { unfold starts. rewrite Hfs, starts_app, Hcs. apply elem_of_app. right. by eapply list_elem_of_lookup_2. }
  assert (hasMetadata st3 c.2 PROMOTE_ALLOCAS = true) as Hp.
  { assert (hasMetadata st3 c.2 PROMOTE_ALLOCAS = hasMetadata st2 c.2 PROMOTE_ALLOCAS) as -> by (unfold hasMetadata, md; by rewrite Hmd).
    apply (tr_promote _ _ _ Ht); [|apply list_elem_of_fmap_2; by eapply list_elem_of_lookup_2].
    apply (starts_in_ids _ MEMORYTOOL_START_TRACKING c.1). unfold starts. rewrite (tr_functions _ _ _ Ht), starts_app.
    apply elem_of_app. right. destruct c. by eapply list_elem_of_lookup_2. }
  split; [|intros (L & HL & HC); exists c.1, L; by destruct c].
  intros (F & L & HF & _ & HL & HC). exists L. split; [|done].
  replace c.1 with F; [done|]. eapply snd_unique; [|exact HF|destruct c; exact Hin].
  unfold starts. rewrite Hfs. by apply (trial_starts st st2 cs).
Qed.

(** The tags the check leaves. *)
Lemma final_tag st A originals :
  let st' := foldl (λ st roi, tagROIToPromoteAllocas st roi "true") (foldl (λ st roi, deleteMetadata st roi PROMOTE_ALLOCAS) st A) originals in
  pm_module st' = pm_module st ∧ (∀ J k, k ≠ PROMOTE_ALLOCAS → md st' J k = md st J k) ∧
  ∀ I, I ∉ A → hasMetadata st' I PROMOTE_ALLOCAS = true ↔ I ∈ originals ∨ hasMetadata st I PROMOTE_ALLOCAS = true.
Proof.
  assert (foldl (λ st roi, tagROIToPromoteAllocas st roi "true") (foldl (λ st roi, deleteMetadata st roi PROMOTE_ALLOCAS) st A) originals =
    tag_list PROMOTE_ALLOCAS ((λ r, (r, "true")) <$> originals) (foldl (λ st roi, deleteMetadata st roi PROMOTE_ALLOCAS) st A)) as ->.
  { unfold tag_list. by rewrite foldl_fmap. }
  assert (((λ r : Z, (r, "true")) <$> originals).*1 = originals) as E by (rewrite <- list_fmap_compose; apply list_fmap_id).
  cbn zeta. rewrite tag_list_module, delete_list_module. split; [done|]. split.
  - intros J k Hk. rewrite tag_list_other by (by right). apply delete_list_other. by right.
  - intros I HA. rewrite !hasMetadata_md. destruct (decide (I ∈ originals)) as [Hin|Hin].
    + split; [by left|]. intros _. apply tag_list_has. by rewrite E.
    + rewrite tag_list_other by (left; by rewrite E). rewrite delete_list_other by (by left). naive_solver.
Qed.

(** Erasing the clones gives the program back. *)
Lemma erase_clones st st2 cs cs' M : ready st → trial st st2 cs → Forall2 (shell (pm_module st2)) cs cs' →
  m_functions M = m_functions (pm_module st) ++ cs' → m_globals M = m_globals (pm_module st) →
  mfoldl eraseFromParent M (f_name <$> filter (λ f, to_erase f = true) (m_functions M)) = Some (pm_module st).
Proof.
  intros Hr Ht Hsh Hfs Hg.
  assert (∀ f, f ∈ m_functions (pm_module st) → ends_with (f_name f) CLONED = false) as Hno
    by (intros f Hf; apply (rd_no_clones _ Hr); unfold names; by apply list_elem_of_fmap_2).
  assert (∀ c, c ∈ cs' → ends_with (f_name c) CLONED = true ∧ to_erase c = true) as Hc.
  { intros c' [j Hj]%list_elem_of_lookup. destruct (Forall2_lookup_r _ _ _ _ _ Hsh Hj) as (c & Hcj & [Hn Hi _ Hb _]).
    destruct (Forall2_lookup_r _ _ _ _ _ (tr_clones _ _ _ Ht) Hcj) as (f & _ & Hname & Hint & Hblocks & _).
    assert (ends_with (f_name c') CLONED = true) as E by (rewrite Hn, Hname; apply ends_with_app). split; [done|].
    unfold to_erase. rewrite decide_False by (by rewrite Hb). by rewrite Hi, Hint. }
  assert (filter (λ f, to_erase f = true) (m_functions M) = cs') as ->.
  { rewrite Hfs, filter_app, filter_none, filter_all; [done|by intros c Hin; apply Hc|].
    intros f Hf He. unfold to_erase in He. rewrite (Hno f Hf) in He. repeat case_match; done. }
  rewrite erase_all; [|rewrite Hfs; intros n f Hn Hf; by apply (clones_uncalled st st2 cs cs')].
  f_equal. rewrite Hfs, Hg, filter_app, filter_all, filter_none, app_nil_r; [by destruct (pm_module st)| |].
  - intros c Hin Hout. apply Hout. by apply list_elem_of_fmap_2.
  - intros f Hf (c & E & Hin)%list_elem_of_fmap. destruct (Hc c Hin) as [Hend _]. by rewrite <- E, Hno in Hend.
Qed.

(** An original is found exactly when its clone passed the check. *)
Lemma original_found_iff st st2 cs st3 (A originals : list Z) j o c : ready st → trial st st2 cs → pm_metadata st3 = pm_metadata st2 →
  (∀ I, I ∈ A → I ∈ (starts_in cs MEMORYTOOL_START_TRACKING).*2) →
  (∀ I, I ∈ originals ↔ ∃ j o c, starts (pm_module st) MEMORYTOOL_START_TRACKING !! j = Some o ∧
    starts_in cs MEMORYTOOL_START_TRACKING !! j = Some c ∧ o.2 = I ∧ c.2 ∈ A) →
  starts (pm_module st) MEMORYTOOL_START_TRACKING !! j = Some o → starts_in cs MEMORYTOOL_START_TRACKING !! j = Some c →
  o.2 ∉ A ∧ (o.2 ∈ originals ∨ hasMetadata st3 o.2 PROMOTE_ALLOCAS = true ↔ c.2 ∈ A).
Proof.
  intros Hr Ht Hmd HA Hin Ho Hc.
  pose proof (trial_starts st st2 cs cs Ht eq_refl) as Hnd. rewrite starts_app, fmap_app in Hnd. apply NoDup_app in Hnd as (HndO & Hdisj & _).
  assert (o.2 ∉ (starts_in cs MEMORYTOOL_START_TRACKING).*2) as Hno.
  { apply Hdisj, list_elem_of_fmap_2. by eapply list_elem_of_lookup_2. }
  split; [by intros ?%HA|]. rewrite Hin. split; [|intros HcA; left; by exists j, o, c].
  intros [(j' & o' & c' & Ho' & Hc' & E & HcA)|Hp].
  - replace c with c'; [done|]. assert (j' = j) as ->; [|congruence].
    eapply NoDup_lookup; [exact HndO|rewrite list_lookup_fmap; unfold starts in Ho'; by rewrite Ho'|].
    rewrite list_lookup_fmap. unfold starts in Ho. rewrite Ho. cbn. by rewrite E.
  - exfalso. apply Hno, (tr_promote _ _ _ Ht); [|unfold hasMetadata, md in *; by rewrite <- Hmd].
    apply elem_of_m_ids. apply list_elem_of_lookup_2 in Ho. destruct o as [F I]. apply elem_of_start_calls in Ho as (f & Hf & _ & HI).
    exists f. split; [rewrite (tr_functions _ _ _ Ht); apply elem_of_app; by left|by eapply calls_in_ids].
Qed.

(** C8: preparing a program only leaves marks on it, and on the right regions,
    under two conditions.  The program is [ready]: it declares the start call, no
    function has a name that ends like that of a clone (such a function is erased
    with the clones, [program_function_erased]), names and instructions are distinct,
    intrinsics have no body, callees are in the module, there are at most 2^31
    regions and none is tagged.  And promoting the variables of the loops in the
    clones does not abort (it does on a counter whose address is passed on,
    [escaping_counter_aborts]).  Then the check succeeds, erases the clones and
    leaves the program with the functions and globals it had, every instruction with
    the metadata it had apart from the tools' own.  A region is marked if and only
    if its clone, a start call of the cloned function with the same number, is in a
    loop whose governing induction variable NOELLE finds, with an exit value, a start
    value and a step.  Promoting then, when it does not abort, changes only functions
    with a marked region, and leaves their calls. *)
Theorem trial_marks_regions st st3 : ready st →
  promote_cloned_function_allocas false (clone_function_roi false st) = Some st3 →
  ∃ st4, check_for_induction_variables false st3 = Some st4 ∧ pm_module st4 = pm_module st ∧
    (∀ I k, I ∈ m_ids (pm_module st) → k ≠ ROI_ID → k ≠ PROMOTE_ALLOCAS → md st4 I k = md st I k) ∧
    (let '(rois, clones) := ROIInstVisitor (pm_module st3) MEMORYTOOL_START_TRACKING in
      rois = fst (ROIInstVisitor (pm_module st) MEMORYTOOL_START_TRACKING) ∧
      Forall2 (λ roi clone, clone.1 = roi.1 +:+ CLONED ∧
        roi_number st3 roi.2 = roi_number st3 clone.2 ∧ is_Some (roi_number st3 clone.2) ∧
        (hasMetadata st4 roi.2 PROMOTE_ALLOCAS = true ↔ ∃ L, getROILoop (pm_module st3) clone.1 clone.2 = Some L ∧
          checkForInductionVariable (pm_module st3) L = true)) rois clones) ∧
    (∀ st5, promote_cloned_function_allocas false st4 = Some st5 → promoted (tagged_function st4) (pm_module st) (pm_module st5)).
Proof using TL.
  intros Hr Hp. destruct (clone_function_roi_trial st Hr) as [cs Ht]. set (st2 := clone_function_roi false st) in *.
  destruct (trial_promoted _ _ _ _ Hr Ht Hp) as (cs' & Hfs & Hg & Hsh & Hcs & Hmd & Hns).
  destruct (visitor_of_clones st (pm_module st3) cs' Hr Hfs) as [HS Hv]; [rewrite Hcs; apply Ht|]. rewrite Hcs in Hv.
  set (O := starts (pm_module st) MEMORYTOOL_START_TRACKING) in *. set (C := starts_in cs MEMORYTOOL_START_TRACKING) in *.
  pose proof (trial_starts st st2 cs cs' Ht Hcs) as Hnd. rewrite starts_app, Hcs, fmap_app in Hnd. apply NoDup_app in Hnd as (HndO & Hdisj & HndC).
  set (A := elements_of (roisToPromoteAllocasSetAll st3)).
  assert (∀ I, I ∈ A → I ∈ C.*2) as HA.
  { intros I (F & L & HI & HPI & _)%elements_members%roisToPromoteAllocasSetAll_spec; [|done]. apply (tr_promote _ _ _ Ht).
    - apply starts_in_ids with MEMORYTOOL_START_TRACKING F. unfold starts in HI |- *. rewrite Hfs, starts_app, Hcs in HI. by rewrite (tr_functions _ _ _ Ht), starts_app.
    - unfold hasMetadata, md in *. by rewrite <- Hmd. }
  destruct (originals_found st st2 cs st3 A Hr Ht Hmd Hns Hv (elements_nodup _) HA) as (originals & Ho & Hin).
  set (st' := foldl (λ st roi, tagROIToPromoteAllocas st roi "true") (foldl (λ st roi, deleteMetadata st roi PROMOTE_ALLOCAS) st3 A) originals).
  destruct (final_tag st3 A originals) as (HM' & Hother & Htag). fold st' in HM', Hother, Htag.
  exists (with_module (pm_module st) st'). split; [|split; [done|split; [|split]]].
  - unfold check_for_induction_variables. fold A. rewrite Ho. cbn [mbind option_bind]. fold st'.
    by rewrite HM', (erase_clones st st2 cs cs').
  - intros I k HI Hk1 Hk2. change (md st' I k = md st I k). rewrite Hother by done. rewrite <- (tr_other _ _ _ Ht) by done.
    unfold md. by rewrite Hmd.
  - rewrite Hv. split; [by rewrite ROIInstVisitor_spec, (proj1 (no_clone_starts _ _ (rd_no_clones _ Hr))) by apply Hr|].
    destruct (trial_number _ _ _ Ht) as [HnO HnC]. fold O in HnO. fold C in HnC.
    apply Forall2_same_length_lookup_2; [by apply (Forall2_length _ _ _ (tr_starts _ _ _ Ht))|]. intros j o c Hoj Hcj.
    split; [by apply (Forall2_lookup_lr _ _ _ _ _ _ (tr_starts _ _ _ Ht) Hoj Hcj)|].
    assert (∀ I, roi_number st3 I = roi_number st2 I) as Enum by (intros I; unfold roi_number, getMetadata, md; by rewrite Hmd, Hns).
    rewrite !Enum, (HnO j o Hoj), (HnC j c Hcj). split; [done|]. split; [done|].
    destruct (original_found_iff st st2 cs st3 A originals j o c) as [HoA Hiff]; [done..|].
    change (hasMetadata st' o.2 PROMOTE_ALLOCAS = true ↔ ∃ L, getROILoop (pm_module st3) c.1 c.2 = Some L ∧ checkForInductionVariable (pm_module st3) L = true).
    rewrite Htag, Hiff by done. unfold A. rewrite elements_members. by apply (passes_check st st2 cs st3 cs' j c).
  - intros st5 H5. by apply promote_promoted in H5 as [H5 _]; [|apply Hr..].
Qed.
End facts.

(** ** The functions that reach a region *)

Section reach.
  Context {T : Toolchain} (incoming : string → list string).

(** The recursion of this tool finds what the one of the pass finds. *)
Lemma visit_edges n l (v v' : gset string) : visitOutgoingEdges incoming n l v = Some v' →
  mfoldl (λ functions nextNode, visit incoming n nextNode functions) v l = Some v'.
Proof.
  revert l v v'. induction n as [|n IH]; intros l v v'; [done|]. cbn [visitOutgoingEdges].
  revert v. induction l as [|f l IHl]; intros v; cbn [mfoldl]; [done|]. intros H. apply bind_Some in H as (v1 & H1 & H2).
  assert (visit incoming (S n) f v = Some v1) as ->; [|by apply IHl].
  cbn [visit]. case_decide; [done|]. by apply IH.
Qed.

Lemma visit_reach (reachable : gset string) fuel start :
  (∀ f g, f ∈ reachable → edge incoming f g → g ∈ reachable) → start ∈ reachable → (size reachable < fuel)%nat →
  ∃ functions, visit incoming fuel start ∅ = Some functions ∧ ∀ F, F ∈ functions ↔ rtc (edge incoming) start F.
Proof.
  intros Hclosed Hs Hfuel. destruct (visitOutgoingEdges_post incoming incoming reachable fuel [start] ∅ Hclosed) as (v & Hv & [_ _ He Hc Hr]).
  - intros e ->%list_elem_of_singleton. done.
  - rewrite difference_empty_L. done.
  - apply visit_edges in Hv. cbn [mfoldl] in Hv. apply bind_Some in Hv as (v1 & Hv1 & [= ->]). exists v. split; [done|].
    intros F. split.
    + intros HF. destruct (Hr F HF) as (e & ->%list_elem_of_singleton & H); [set_solver|]. done.
    + intros H. assert (start ∈ v) as Hin by (apply He; by left). clear Hfuel Hs Hr He Hv1.
      induction H as [x|x y z Hxy _ IH]; [done|]. apply IH. apply (Hc x Hin); [set_solver|done].
Qed.

Lemma getFunction_elem M f : NoDup (names M) → f ∈ m_functions M → getFunction M (f_name f) = Some f.
Proof.
  unfold getFunction, names. intros Hnd Hf. induction (m_functions M) as [|g fs IH]; [by apply elem_of_nil in Hf|].
  cbn [fmap list_fmap] in Hnd. apply NoDup_cons in Hnd as [Hg Hnd]. cbn. case_decide as E.
  - cbn. apply elem_of_cons in Hf as [->|Hf]; [done|]. exfalso. apply Hg. rewrite E. by apply list_elem_of_fmap_2.
  - apply elem_of_cons in Hf as [->|Hf]; [done|]. specialize (IH Hnd Hf). destruct (list_find _ fs) as [[n h]|]; [|done]. exact IH.
Qed.

(** What the loop over the functions does to their attributes. *)
Lemma tag_attributes (functionsToTag : gset string) fs st F :
  let '(optnone, noinline) := foldl (tag_step functionsToTag) st fs in
  (F ∈ optnone ↔ if decide (F ∈ f_name <$> fs) then F ∈ functionsToTag else F ∈ st.1) ∧
  (F ∈ noinline ↔ F ∈ st.2 ∨ (F ∈ f_name <$> fs ∧ F ∈ functionsToTag)).
Proof.
  revert st. induction fs as [|f fs IH]; intros [o n]; cbn [foldl].
  { split; [by rewrite decide_False by apply not_elem_of_nil|]. cbn. split; [by left|]. by intros [?|[?%elem_of_nil _]]. }
  specialize (IH (tag_step functionsToTag (o, n) f)). destruct (foldl _ _ _) as [o' n']. destruct IH as [-> ->].
  rewrite fmap_cons. unfold tag_step. destruct (decide (f_name f ∈ functionsToTag)) as [Hf|Hf]; cbn [fst snd].
  - split; [|set_solver]. destruct (decide (F ∈ f_name <$> fs)) as [Hin|Hin]; [rewrite decide_True by (by right); done|].
    destruct (decide (F = f_name f)) as [->|Hne]; [rewrite decide_True by (by left); set_solver|].
    rewrite decide_False by (rewrite elem_of_cons; naive_solver). set_solver.
  - split; [|set_solver]. destruct (decide (F ∈ f_name <$> fs)) as [Hin|Hin]; [rewrite decide_True by (by right); done|].
    destruct (decide (F = f_name f)) as [->|Hne]; [rewrite decide_True by (by left); set_solver|].
    rewrite decide_False by (rewrite elem_of_cons; naive_solver). set_solver.
Qed.

Lemma marked_functions M (tag : gset string) F : Forall (λ f, f_hasOptimizeLocals f = false) (m_functions M) →
  let M' := MkModule ((λ f, if decide (f_name f ∈ tag) then tagFunctionWithMetadata f else f) <$> m_functions M) (m_globals M) in
  names M' = names M ∧ (F ∈ findFunctionsToInstrument M' ↔ F ∈ names M ∧ F ∈ tag).
Proof.
  intros Hflags. cbn zeta. assert (∀ f, f_name (if decide (f_name f ∈ tag) then tagFunctionWithMetadata f else f) = f_name f) as Hn
    by (intros f; by case_decide).
  split; [unfold names; cbn; rewrite <- list_fmap_compose; apply list_fmap_ext; intros ? f _; apply Hn|].
  unfold findFunctionsToInstrument, names. rewrite elem_of_list_to_set, !list_elem_of_fmap. cbn [m_functions]. split.
  - intros (f' & -> & [Hf' (f & -> & Hf)%list_elem_of_fmap]%list_elem_of_filter). rewrite Hn. split; [by exists f|].
    case_decide as Htag; [done|]. rewrite Forall_forall in Hflags. by rewrite Hflags in Hf'.
  - intros [(f & -> & Hf) Htag]. exists (tagFunctionWithMetadata f). split; [done|]. apply list_elem_of_filter. split; [done|].
    apply list_elem_of_fmap. exists f. split; [by rewrite decide_True|done].
Qed.

Lemma removeOptNone_clears (st : pmodule) F : F ∈ names (pm_module st) → F ∉ pm_optnone (removeOptNone st).
Proof.
  unfold removeOptNone, names. cbn. generalize (pm_optnone st). induction (m_functions (pm_module st)) as [|f fs IH]; intros o HF; [by apply elem_of_nil in HF|].
  cbn in *. apply elem_of_cons in HF as [->|HF]; [|by apply IH]. clear IH.
  assert (∀ fs (o : gset string), f_name f ∉ o → f_name f ∉ foldl (λ optnone g, optnone ∖ {[f_name g]}) o fs) as H; [|apply H; set_solver].
  clear. induction fs as [|g fs IH]; intros o Ho; cbn; [done|]. apply IH. set_solver.
Qed.

(** C32: the variables of exactly the functions that can reach a region stay in memory
    and are instrumented.  On a module without marks the tool succeeds, with no more
    fuel than there are functions; the set of functions the pass then reads off the
    module consists of the functions with a body from which a chain of calls leads to
    the start function.  Exactly these get the attributes that keep the optimizer
    away, and after it ran and the attribute is removed, no function of the module has
    it and the marks are still there. *)
Theorem tagged_functions_reach (reachable : gset string) fuel (st : pmodule) :
  (∀ f g, f ∈ reachable → edge incoming f g → g ∈ reachable) → MEMORYTOOL_START_TRACKING ∈ reachable → (size reachable < fuel)%nat →
  NoDup (names (pm_module st)) → moduleFunction (pm_module st) MEMORYTOOL_START_TRACKING = Some MEMORYTOOL_START_TRACKING →
  Forall (λ f, f_hasOptimizeLocals f = false) (m_functions (pm_module st)) →
  ∃ st', tag_functions_with_opt_none incoming false fuel st = Some st' ∧
    names (pm_module st') = names (pm_module st) ∧
    (∀ F, F ∈ findFunctionsToInstrument (pm_module st') ↔
      (∃ f, f ∈ m_functions (pm_module st) ∧ f_name f = F ∧ f_blocks f ≠ []) ∧ rtc (edge incoming) MEMORYTOOL_START_TRACKING F) ∧
    (∀ F, F ∈ names (pm_module st) → F ∈ pm_optnone st' ↔ F ∈ findFunctionsToInstrument (pm_module st')) ∧
    (∀ F, F ∈ findFunctionsToInstrument (pm_module st') → F ∈ pm_noinline st') ∧
    pm_module (removeOptNone st') = pm_module st' ∧ (∀ F, F ∈ names (pm_module st) → F ∉ pm_optnone (removeOptNone st')).
Proof.
  intros Hclosed Hs Hfuel Hnames HS Hflags. destruct (visit_reach reachable fuel MEMORYTOOL_START_TRACKING Hclosed Hs Hfuel) as (fns & Hv & Hfns).
  set (tag := filter (λ F, is_empty (pm_module st) F = false) fns : gset string).
  assert (∀ F, F ∈ names (pm_module st) ∧ F ∈ tag ↔
    (∃ f, f ∈ m_functions (pm_module st) ∧ f_name f = F ∧ f_blocks f ≠ []) ∧ rtc (edge incoming) MEMORYTOOL_START_TRACKING F) as Htag.
  { intros F. unfold tag, names. rewrite elem_of_filter, Hfns, list_elem_of_fmap. unfold is_empty. split.
    - intros [(f & -> & Hf) [He Hr]]. split; [|done]. exists f. split; [done|]. split; [done|].
      rewrite getFunction_elem in He by done. by apply (bool_decide_eq_false (f_blocks f = [])).
    - intros [(f & Hf & <- & Hb) Hr]. split; [by exists f|]. rewrite getFunction_elem by done. by rewrite bool_decide_eq_false. }
  unfold tag_functions_with_opt_none, findFunctionsToTag. rewrite HS, Hv. cbn [mbind option_bind]. fold tag.
  pose proof (λ F, tag_attributes tag (m_functions (pm_module st)) (pm_optnone st, pm_noinline st) F) as Hattr.
  pose proof (λ F, marked_functions (pm_module st) tag F Hflags) as Hmarked. cbn zeta in Hmarked.
  unfold tagFunctionsOptNone. destruct (foldl (tag_step tag) _ _) as [optnone noinline]. eexists. split; [done|]. cbn [pm_module pm_optnone pm_noinline].
  destruct (Hmarked EmptyString) as [Hn _]. split; [exact Hn|]. split; [intros F; rewrite <- Htag; apply Hmarked|].
  split; [intros F HF; destruct (Hmarked F) as [_ ->], (Hattr F) as [-> _]; rewrite decide_True by done; naive_solver|].
  split; [intros F HF; destruct (Hmarked F) as [_ H]; apply H in HF; apply Hattr; by right|]. split; [done|].
  intros F HF. apply removeOptNone_clears. cbn [pm_module]. by rewrite Hn.
Qed.
End reach.

(** ** A toolchain, and witnesses *)

Module Demo.

(** A module's instructions fit below this bound, and clones come above it. *)
Definition bound (M : modul) : Z := 1 + foldr (λ I acc, Z.abs I + acc) 0 (m_ids M).

Definition move_inst (vMap : Z → Z) (i : inst) : inst :=
  let m := λ v, match v with Inst a => Inst (vMap a) | v => v end in
  MkInst (vMap (i_id i))
    match i_op i with
    | CallInst c ops => CallInst c (m <$> ops)
    | LoadInst p => LoadInst (m p)
    | StoreInst v p b s t => StoreInst (m v) (m p) b s t
    | o => o
    end (i_loc i) (i_dbg i).

Definition clone (M : modul) (f : func) : list block * (Z → Z) :=
  let vMap := λ I, I + 2 * bound M in ((λ b, MkBlock (b_name b) (move_inst vMap <$> b_insts b)) <$> f_blocks f, vMap).

(** A block with this name is a loop of its own, its header. *)
Definition demo_loop : Type := string * list Z.

Definition loops (M : modul) (F : string) : list demo_loop :=
  match getFunction M F with
  | Some f => (λ b, (F, i_id <$> b_insts b)) <$> filter (λ b, b_name b = "loop") (f_blocks f)
  | None => []
  end.

Definition innermost (ls : list demo_loop) (I : Z) : option demo_loop := snd <$> list_find (λ L, I ∈ L.2) ls.

(** The operands of the loads and stores of the loop that are instructions of its
    function. *)
Definition operands_of (M : modul) (L : demo_loop) : list value :=
  match list_find (λ f, f_name f = L.1) (m_functions M) with
  | Some (_, f) =>
      filter (λ v, match v with Inst a => bool_decide (a ∈ f_ids f) | _ => true end = true)
        (concat ((λ i, match i_op i with LoadInst p => [p] | StoreInst v p _ _ _ => [v; p] | _ => [] end) <$>
          filter (λ i, i_id i ∈ L.2) (f_insts f)))
  | None => []
  end.

Definition integer (M : modul) (I : Z) : bool :=
  match op_of M I with Some (AllocaInst (OtherTy bits false)) => bool_decide (bits = 32) | _ => false end.

(** Its address goes nowhere. *)
Definition promotable (M : modul) (a : Z) : bool :=
  forallb (λ Fi : string * inst, match i_op Fi.2 with
    | CallInst _ ops => bool_decide (Inst a ∉ ops)
    | StoreInst v _ _ _ _ => bool_decide (v ≠ Inst a)
    | _ => true
    end) (all_insts M).

Definition about (a : Z) (i : inst) : bool :=
  match i_op i with
  | LoadInst p => bool_decide (p = Inst a)
  | StoreInst _ p _ _ _ => bool_decide (p = Inst a)
  | AllocaInst _ => bool_decide (i_id i = a)
  | _ => false
  end.

Definition promote_func (a : Z) (f : func) : func :=
  if decide (a ∈ f_ids f) then
    MkFunc (f_name f) ((λ b, MkBlock (b_name b) (filter (λ i, about a i = false) (b_insts b))) <$> f_blocks f)
      (f_isIntrinsic f) (f_hasOptimizeLocals f)
  else f.

Definition promote (M : modul) (a : Z) : modul := MkModule (promote_func a <$> m_functions M) (m_globals M).

(** A loop that loads and stores no variable any more. *)
Definition governing (M : modul) (L : demo_loop) : option InductionVariable :=
  match operands_of M L with
  | [] => Some (MkIV (Some (OtherValue 10)) (Some (OtherValue 0)) (Some (OtherValue 1)))
  | _ => None
  end.

#[global] Instance demo : Toolchain := {|
  node := nat;
  nodes := list string;
  loop := demo_loop;
  loop_forest := list demo_loop;
  MDNode_get ns s := (List.length ns, ns ++ [s]);
  getOperand0 ns n := ns !! n;
  replaceOperandWith ns n s := <[n := s]> ns;
  CloneFunction := clone;
  uniqueName ns n := if decide (n ∈ ns) then n +:+ "1" else n;
  getLoopStructures := loops;
  organizeLoopsInTheirNestingForest ls := ls;
  getInnermostLoopThatContains := innermost;
  headerOperands := operands_of;
  allocatedTypeIsInteger := integer;
  isAllocaPromotable := promotable;
  PromoteMemToReg := promote;
  getLoopGoverningInductionVariable := governing;
  elements_of := elements;
  less := Z.ltb;
|}.

Lemma bound_spec (l : list Z) I : I ∈ l → Z.abs I <= foldr (λ I acc, Z.abs I + acc) 0 l.
Proof.
  assert (∀ l : list Z, 0 <= foldr (λ I acc, Z.abs I + acc) 0 l) as Hpos by (intros l'; induction l'; cbn; lia).
  induction l as [|J l IH]; [by intros ?%elem_of_nil|]. intros [->|H]%elem_of_cons; cbn; [pose proof (Hpos l); lia|].
  specialize (IH H). lia.
Qed.

Lemma clone_text vMap bs : Forall2 (cloned_inst vMap) (concat (b_insts <$> bs))
  (concat (b_insts <$> ((λ b, MkBlock (b_name b) (move_inst vMap <$> b_insts b)) <$> bs))).
Proof.
  induction bs as [|b bs IH]; [constructor|]. cbn. apply Forall2_app; [|exact IH]. clear IH.
  induction (b_insts b) as [|i l IH]; constructor; [|exact IH]. split; [done|]. cbn. by destruct (i_op i).
Qed.

Lemma promote_insts a f : f_insts (promote_func a f) = if decide (a ∈ f_ids f) then filter (λ i, about a i = false) (f_insts f) else f_insts f.
Proof.
  unfold promote_func. case_decide; [|done]. unfold f_insts. cbn. induction (f_blocks f) as [|b bs IH]; [done|].
  cbn. rewrite filter_app. f_equal. exact IH.
Qed.

Lemma promote_ids_sublist a fs : sublist (concat (f_ids <$> (promote_func a <$> fs))) (concat (f_ids <$> fs)).
Proof.
  induction fs as [|f fs IH]; [done|]. cbn [fmap list_fmap concat]. apply sublist_app; [|exact IH].
  unfold f_ids at 1. rewrite promote_insts. case_decide; [|done]. apply sublist_fmap, sublist_filter.
Qed.

(** Promotion keeps the calls. *)
Lemma promote_shell M a f : shell M f (promote_func a f).
Proof.
  split; try (unfold promote_func; by case_decide).
  - unfold promote_func. case_decide; [|done]. cbn. destruct (f_blocks f); split; done.
  - intros name _. unfold calls_to. rewrite promote_insts. case_decide; [|done]. f_equal. rewrite list_filter_filter.
    apply filter_ext_in. intros i _. split; [by intros [? _]|]. intros Hc. split; [done|].
    unfold about. by destruct (i_op i).
Qed.

#[global] Instance demo_laws : ToolchainLaws demo.
Proof.
  refine {| loop_function := (fst : demo_loop → string) |}; cbn.
  - intros ns s n ns' [= <- <-]. apply list_lookup_middle. done.
  - intros ns s n ns' n' s' [= <- <-] H. by apply lookup_app_l_Some.
  - intros M f blocks vMap [= <- <-] _ Hb H. by apply fmap_nil_inv in H.
  - intros M f blocks vMap [= <- <-] _. apply clone_text.
  - intros M f blocks vMap I [= <- <-] Hf HI Hin. apply bound_spec in Hin.
    assert (I ∈ m_ids M) as HI' by (apply elem_of_m_ids; by exists f). apply bound_spec in HI'. unfold bound in *. lia.
  - intros M f blocks vMap I J [= <- <-] _ _ _ E. lia.
  - intros ns n Hn. by rewrite decide_False.
  - intros M F I L H. unfold innermost in H. apply fmap_Some in H as ([n L'] & H & ->). apply list_find_Some in H as (H & _ & _).
    unfold loops in H. destruct (getFunction M F); [|done]. apply list_elem_of_lookup_2, list_elem_of_fmap in H as (b & -> & _). done.
  - intros M L a H. unfold operands_of in H. destruct (list_find _ _) as [[n f]|] eqn:E; [|by apply elem_of_nil in H].
    apply list_find_Some in E as (Hf & Hn & _). apply list_elem_of_filter in H as [H%bool_decide_eq_true _]. exists f.
    split; [by eapply list_elem_of_lookup_2|done].
  - done.
  - intros M a. intros H. eapply sublist_NoDup; [exact H|apply promote_ids_sublist].
  - intros M a g Hids Hg Ha. apply Forall2_fmap_r, Forall2_same_length_lookup_2; [done|]. intros j f f' Hf Hf'. simplify_eq.
    split; [apply promote_shell|]. intros Hne. unfold promote_func. rewrite decide_False; [done|]. intros Haf. apply Hne.
    unfold m_ids in Hids. apply list_elem_of_lookup in Hg as [k Hk].
    assert (j = k) as ->; [|congruence].
    eapply (NoDup_concat_index _ _ _ (f_ids f) (f_ids g) a Hids); [by rewrite list_lookup_fmap, Hf|by rewrite list_lookup_fmap, Hk|done..].
  - intros X I. apply elem_of_elements.
  - intros X. apply NoDup_elements.
  - intros I J HI HJ. apply Z.ltb_ge in HI, HJ. lia.
Qed.

(** Two functions with a region in a loop: the loop of [main] counts in an integer,
    the loop of [helper] in something else. *)
Definition op (i : Z) (o : opcode) : inst := MkInst i o None NoDeclare.
Definition start_call (i : Z) : inst := op i (CallInst (Some MEMORYTOOL_START_TRACKING) []).
Definition int32 : llvm_type := OtherTy 32 false.
Definition start_decl : func := MkFunc MEMORYTOOL_START_TRACKING [] false false.

Definition main_func : func := MkFunc "main"
  [MkBlock "entry" [op 1 (AllocaInst int32)];
   MkBlock "loop" [start_call 2; op 3 (LoadInst (Inst 1)); op 4 (StoreInst (OtherValue 7) (Inst 1) false 32 32)];
   MkBlock "exit" [op 5 (CallInst (Some "helper") []); op 6 ReturnInst]] false false.

Definition helper_func : func := MkFunc "helper"
  [MkBlock "entry" [op 11 (AllocaInst (OtherTy 64 false))];
   MkBlock "loop" [start_call 12; op 13 (LoadInst (Inst 11))];
   MkBlock "exit" [op 14 ReturnInst]] false false.

Definition program : modul := MkModule [start_decl; main_func; helper_func] [].
Definition loaded (M : modul) : pmodule := MkPModule M ∅ [] ∅ ∅.

(** The three tools one after the other. *)
Definition prepared (M : modul) : option pmodule :=
  promote_cloned_function_allocas false (clone_function_roi false (loaded M)) ≫= check_for_induction_variables false.

(** The region of [main] is marked, that of [helper] is not. *)
Example marked_regions : (λ st, (hasMetadata st 2 PROMOTE_ALLOCAS, hasMetadata st 12 PROMOTE_ALLOCAS, names (pm_module st))) <$> prepared program =
  Some (true, false, [MEMORYTOOL_START_TRACKING; "main"; "helper"]).
Proof. vm_compute. reflexivity. Qed.

(** A function of the program whose name ends like that of a clone is taken for one:
    it is erased with the clones, or nothing is left of the run if it is called. *)
Definition user_func (name : string) : func := MkFunc name [MkBlock "entry" [op 21 ReturnInst]] false false.
Definition caller (name : string) : func := MkFunc "main" [MkBlock "entry" [op 31 (CallInst (Some name) []); op 32 ReturnInst]] false false.

Lemma program_function_erased :
  (names ∘ pm_module <$> prepared (MkModule [start_decl; user_func "list_cloned"; caller "f"; user_func "f"] []) =
    Some [MEMORYTOOL_START_TRACKING; "main"; "f"]) ∧
  prepared (MkModule [start_decl; user_func "list_cloned"; caller "list_cloned"] []) = None.
Proof. split; vm_compute; reflexivity. Qed.

(** A loop over one integer variable whose address is passed on: the trial itself
    aborts. *)
Definition escaping_func : func := MkFunc "main"
  [MkBlock "entry" [op 1 (AllocaInst int32); op 2 (CallInst (Some "use") [Inst 1])];
   MkBlock "loop" [start_call 3; op 4 (LoadInst (Inst 1))]] false false.

Lemma escaping_counter_aborts : prepared (MkModule [start_decl; MkFunc "use" [] false false; escaping_func] []) = None.
Proof. vm_compute. reflexivity. Qed.

Lemma program_ready : ready (loaded program).
Proof.
  split.
  - reflexivity.
  - repeat (constructor; [done|]). constructor.
  - apply (bool_decide_unpack _). vm_compute. exact I.
  - intros n Hn. unfold names in Hn. cbn in Hn. repeat (apply elem_of_cons in Hn as [->|Hn]; [reflexivity|]). by apply elem_of_nil in Hn.
  - apply (bool_decide_unpack _). vm_compute. exact I.
  - intros f Hf Hi. cbn in Hf. repeat (apply elem_of_cons in Hf as [->|Hf]; [done|]). by apply elem_of_nil in Hf.
  - intros f i name Hf Hi Hc. cbn in Hf. assert (name = "helper" ∨ name = MEMORYTOOL_START_TRACKING) as [->| ->]; [|apply (bool_decide_unpack _); vm_compute; exact I..].
    repeat (apply elem_of_cons in Hf as [->|Hf];
      [cbn in Hi; repeat (apply elem_of_cons in Hi as [->|Hi]; [cbn in Hc; (congruence || (injection Hc as <-; auto))|]); by apply elem_of_nil in Hi|]).
    by apply elem_of_nil in Hf.
  - vm_compute. discriminate.
  - intros J. done.
Qed.

Lemma trial_marks_regions_witness : ready (loaded program) ∧
  ∃ st3 st4, promote_cloned_function_allocas false (clone_function_roi false (loaded program)) = Some st3 ∧
    check_for_induction_variables false st3 = Some st4 ∧ pm_module st4 = program.
Proof.
  split; [exact program_ready|].
  assert (match promote_cloned_function_allocas false (clone_function_roi false (loaded program)) with Some _ => true | None => false end = true) as Hp
    by (vm_compute; reflexivity).
  destruct (promote_cloned_function_allocas false (clone_function_roi false (loaded program))) as [st3|] eqn:E; [|discriminate Hp].
  destruct (trial_marks_regions (loaded program) st3 program_ready E) as (st4 & H4 & HM & _).
  exists st3, st4. split; [reflexivity|]. split; [exact H4|exact HM].
Defined.

(** [main] and [helper] have regions, [main] calls [helper]; [other] has nothing to do
    with a region. *)
Definition callers (F : string) : list string :=
  if decide (F = MEMORYTOOL_START_TRACKING) then ["main"; "helper"] else if decide (F = "helper") then ["main"] else [].
Definition with_other : modul := MkModule (m_functions program ++ [user_func "other"]) [].
Definition graph_nodes : gset string := {[MEMORYTOOL_START_TRACKING; "main"; "helper"]}.

Lemma tagged_functions_reach_witness : ∃ st', tag_functions_with_opt_none callers false 4 (loaded with_other) = Some st' ∧
  "main" ∈ findFunctionsToInstrument (pm_module st') ∧ "other" ∉ findFunctionsToInstrument (pm_module st').
Proof.
  destruct (tagged_functions_reach callers graph_nodes 4 (loaded with_other)) as (st' & Hst & Hn & Hin & _).
  - intros f g Hf Hg. unfold edge, callers in Hg. unfold graph_nodes. repeat case_decide; set_solver.
  - unfold graph_nodes. set_solver.
  - vm_compute. lia.
  - apply (bool_decide_unpack _). vm_compute. exact I.
  - reflexivity.
  - repeat (constructor; [done|]). constructor.
  - exists st'. split; [exact Hst|]. split.
    + apply Hin. split; [exists main_func; split; [apply (list_elem_of_lookup_2 _ 1%nat); reflexivity|split; [reflexivity|discriminate]]|].
      apply rtc_once. by left.
    + intros [_ Hr]%Hin. clear -Hr. apply rtc_inv_r in Hr as [Hr|(y & _ & Hy)]; [discriminate Hr|].
      unfold edge, callers in Hy. repeat case_decide; set_solver.
Defined.
End Demo.
