(* ===== verification/Placement.v ===== *)
(** * Placement.v: where the inserted calls end up

    The stages of Instrument.v edit the module one group at a time.  Here the
    result is described at once: each instruction of the module has what is before
    it and what is after it, and the edits only add to these ([expand]).  From this
    follow the properties of the instrumented module: every access to report is
    followed by its report, every return is preceded by the removal of the variables
    of its function, and [main] starts with the prologue. *)

From stdpp Require Import pretty.
From S2P Require Import Prelude Helpers OrdMap Objects AllocTable ConnGraph Commit CleanBatch Shadow Batch.
From S2P Require Import Memory Callstack UniqueIds Wrapper RunData PostProcess DebugInfo Types CallGraph Visitor Instrument.

(** ** Blocks of a module *)

Definition in_block (st : mstate) (F B : string) (items : list item) : Prop :=
  ∃ bs, (F, bs) ∈ st ∧ (B, items) ∈ bs.

Lemma map_blocks_ext h h' st :
  (∀ F B items, in_block st F B items → h F B items = h' F B items) → map_blocks h st = map_blocks h' st.
Proof.
  intros Hh. unfold map_blocks. apply list_fmap_ext. intros i [F bs] Hi. simpl. f_equal.
  apply list_fmap_ext. intros j [B items] Hj. simpl. f_equal. apply Hh. exists bs. split; by eapply list_elem_of_lookup_2.
Qed.

Lemma map_blocks_compose h1 h2 st : map_blocks h1 (map_blocks h2 st) = map_blocks (λ F B items, h1 F B (h2 F B items)) st.
Proof.
  unfold map_blocks. rewrite <- list_fmap_compose. apply list_fmap_ext. intros _ [F bs] _. simpl. f_equal.
  by rewrite <- list_fmap_compose.
Qed.

Lemma in_block_map h st F B items :
  in_block (map_blocks h st) F B items ↔ ∃ items0, in_block st F B items0 ∧ items = h F B items0.
Proof.
  unfold in_block, map_blocks. split.
  - intros (bs & H1 & H2). apply list_elem_of_fmap in H1 as ([F0 bs0] & [= -> ->] & H1).
    apply list_elem_of_fmap in H2 as ([B0 items0] & [= -> ->] & H2). exists items0. split; [by exists bs0|done].
  - intros (items0 & (bs & H1 & H2) & ->). eexists. split.
    + apply list_elem_of_fmap. exists (F, bs). by split.
    + apply list_elem_of_fmap. exists (B, items0). by split.
Qed.

(** ** Edits *)

Inductive edit :=
  | After (a : anchor) (g : list item)
  | Before (a : anchor) (g : list item)
  | Splice (a : anchor) (n : nat) (g : list item).

Definition edit_anchor (e : edit) : anchor := match e with After a _ | Before a _ | Splice a _ _ => a end.
Definition edit_group (e : edit) : list item := match e with After _ g | Before _ g | Splice _ _ g => g end.
Definition is_after (e : edit) : bool := match e with After _ _ => true | _ => false end.

(** What an edit does to the texts before and after the instruction [a]. *)
Definition pre_step (a : anchor) (pre : list item) (e : edit) : list item :=
  match e with
  | After _ _ => pre
  | Before a' g => if decide (a' = a) then pre ++ g else pre
  | Splice a' n g => if decide (a' = a) then take n pre ++ g ++ drop n pre else pre
  end.

Definition post_step (a : anchor) (post : list item) (e : edit) : list item :=
  match e with
  | After a' g => if decide (a' = a) then g ++ post else post
  | _ => post
  end.

Definition pre_of (log : list edit) (a : anchor) : list item := foldl (pre_step a) [] log.
Definition post_of (log : list edit) (a : anchor) : list item := foldl (post_step a) [] log.

Definition expand_item (log : list edit) (x : item) : list item :=
  match anchor_of x with Some a => pre_of log a ++ x :: post_of log a | None => [x] end.

Definition expand (log : list edit) (base : mstate) : mstate := map_items (expand_item log) base.

(** Inserted text holds no instruction the pass points to, and guards go before. *)
Definition plain (x : item) : bool := match x with Orig _ | Callstack _ _ => false | _ => true end.
Definition clean_edit (e : edit) : bool :=
  forallb plain (edit_group e) && (negb (is_after e) || forallb (λ x, match x with GuardBranch _ _ => false | _ => true end) (edit_group e)).
Definition clean (log : list edit) : Prop := Forall (λ e, clean_edit e = true) log.

Lemma plain_anchor x : plain x = true → anchor_of x = None.
Proof. by destruct x. Qed.

Lemma pre_of_snoc log e a : pre_of (log ++ [e]) a = pre_step a (pre_of log a) e.
Proof. unfold pre_of. by rewrite foldl_app. Qed.
Lemma post_of_snoc log e a : post_of (log ++ [e]) a = post_step a (post_of log a) e.
Proof. unfold post_of. by rewrite foldl_app. Qed.

(** Properties of the texts that hold of all groups of a kind. *)
Lemma pre_of_Forall (P : item → Prop) log a : Forall (λ e, Forall P (edit_group e)) log → Forall P (pre_of log a).
Proof.
  intros H. induction log as [|e log IH] using rev_ind; [constructor|].
  apply Forall_app in H as [H He]. rewrite Forall_singleton in He. specialize (IH H). rewrite pre_of_snoc.
  destruct e as [a' g|a' g|a' n g]; simpl in *; [done| |]; case_decide; try done.
  - by apply Forall_app.
  - rewrite !Forall_app. split; [by apply Forall_take|]. split; [done|by apply Forall_drop].
Qed.

Lemma post_of_Forall (P : item → Prop) log a :
  Forall (λ e, is_after e = true → Forall P (edit_group e)) log → Forall P (post_of log a).
Proof.
  intros H. induction log as [|e log IH] using rev_ind; [constructor|].
  apply Forall_app in H as [H He]. rewrite Forall_singleton in He. specialize (IH H). rewrite post_of_snoc.
  destruct e as [a' g|a' g|a' n g]; simpl in *; [|done..]. case_decide; [apply Forall_app; auto|done].
Qed.

Lemma clean_plain log e : clean log → e ∈ log → Forall (λ x, plain x = true) (edit_group e).
Proof.
  unfold clean. intros H He. rewrite Forall_forall in H. specialize (H e He). unfold clean_edit in H.
  apply andb_true_iff in H as [H _]. by apply Forall_forall; intros x Hx; rewrite forallb_forall in H; apply H, list_elem_of_In.
Qed.

Lemma pre_of_plain log a : clean log → Forall (λ x, plain x = true) (pre_of log a).
Proof. intros H. apply pre_of_Forall, Forall_forall. intros e He. by eapply clean_plain. Qed.

Lemma post_of_plain log a : clean log → Forall (λ x, plain x = true) (post_of log a).
Proof. intros H. apply post_of_Forall, Forall_forall. intros e He _. by eapply clean_plain. Qed.

Lemma post_of_guard log a : clean log → Forall (λ x, match x with GuardBranch _ _ => false | _ => true end = true) (post_of log a).
Proof.
  intros H. apply post_of_Forall, Forall_forall. intros e He Ha. unfold clean in H. rewrite Forall_forall in H. specialize (H e He).
  unfold clean_edit in H. rewrite Ha in H. simpl in H. apply andb_true_iff in H as [_ H].
  apply Forall_forall; intros x Hx; rewrite forallb_forall in H; by apply H, list_elem_of_In.
Qed.

(** ** One edit *)

(** An operation on items that leaves plain text alone. *)
Lemma bind_plain (h : item → list item) l : (∀ x, plain x = true → h x = [x]) → Forall (λ x, plain x = true) l → l ≫= h = l.
Proof. intros Hh. induction 1 as [|x l Hx _ IH]; [done|]. rewrite bind_cons, IH, Hh by done. done. Qed.

Lemma expand_step (h : item → list item) e log base : clean log →
  (∀ x, plain x = true → h x = [x]) →
  (∀ x a, anchor_of x = Some a → pre_of log a ++ h x ++ post_of log a = pre_of (log ++ [e]) a ++ x :: post_of (log ++ [e]) a) →
  map_items h (expand log base) = expand (log ++ [e]) base.
Proof.
  intros Hclean Hplain Hh. unfold expand, map_items. rewrite map_blocks_compose. apply map_blocks_ext. intros F B items _.
  induction items as [|x items IH]; [done|]. rewrite !bind_cons, bind_app, IH. f_equal.
  unfold expand_item. destruct (anchor_of x) as [a|] eqn:Ea.
  - rewrite bind_app, bind_cons, !bind_plain by (done || by apply pre_of_plain || by apply post_of_plain). by apply Hh.
  - rewrite bind_cons. simpl. rewrite app_nil_r. apply Hplain. by destruct x.
Qed.

Lemma insertBefore_expand a g log base : clean log → insertBefore a g (expand log base) = expand (log ++ [Before a g]) base.
Proof.
  intros Hclean. apply expand_step; [done|intros x Hx; by rewrite (plain_anchor x Hx)|].
  intros x a' Ea. rewrite pre_of_snoc, post_of_snoc. simpl. rewrite Ea.
  destruct (decide (a = a')) as [->|Hne]; [rewrite decide_True by done|rewrite decide_False by congruence; done].
  by rewrite <- !app_assoc.
Qed.

Lemma insertAfter_expand a g log base : clean log → insertAfter a g (expand log base) = expand (log ++ [After a g]) base.
Proof.
  intros Hclean. apply expand_step; [done|intros x Hx; by rewrite (plain_anchor x Hx)|].
  intros x a' Ea. rewrite pre_of_snoc, post_of_snoc. simpl. rewrite Ea.
  destruct (decide (a = a')) as [->|Hne]; [rewrite decide_True by done|rewrite decide_False by congruence]; done.
Qed.

(** ** Well-formed modules

    Blocks have different names, instructions different identifiers, and a block is
    its phi nodes and then instructions of which the last is its only terminator. *)

Record base_ok (base : mstate) : Prop := {
  bo_functions : NoDup base.*1;
  bo_blocks : ∀ F bs, (F, bs) ∈ base → NoDup bs.*1;
  bo_block : ∀ F B l l', in_block base F B l → in_block base F B l' → l = l';
  bo_anchor : ∀ F B l F' B' l' a, in_block base F B l → in_block base F' B' l' →
    a ∈ omap anchor_of l → a ∈ omap anchor_of l' → F = F' ∧ B = B';
  bo_nodup : ∀ F B l, in_block base F B l → NoDup (omap anchor_of l);
  bo_anchored : ∀ F B l, in_block base F B l → Forall (λ x, is_Some (anchor_of x)) l;
  bo_shape : ∀ F B l, in_block base F B l → ∃ phis body y, l = phis ++ body ++ [y] ∧
    Forall (λ x, is_phi x = true) phis ∧ Forall (λ x, is_phi x = false ∧ is_term x = false) body ∧
    is_phi y = false ∧ is_term y = true;
}.

(** The instruction of an anchor. *)
Definition at_anchor (base : mstate) (a : anchor) (F B : string) (x : item) : Prop :=
  ∃ l, in_block base F B l ∧ x ∈ l ∧ anchor_of x = Some a.

Lemma at_anchor_unique base a F B x F' B' x' : base_ok base → at_anchor base a F B x → at_anchor base a F' B' x' →
  F = F' ∧ B = B' ∧ x = x'.
Proof.
  intros Hok (l & Hl & Hx & Ha) (l' & Hl' & Hx' & Ha').
  destruct (bo_anchor _ Hok F B l F' B' l' a) as [<- <-]; [done|done| | |].
  1, 2: apply list_elem_of_omap; eauto.
  split; [done|]. split; [done|]. rewrite <- (bo_block _ Hok F B l l' Hl Hl') in Hx'.
  pose proof (bo_nodup _ Hok F B l Hl) as Hnd. clear Hl Hl'.
  induction l as [|y l IH]; [by apply elem_of_nil in Hx|]. rewrite omap_cons_app in Hnd. apply NoDup_app in Hnd as (_ & Hnd & Hnd').
  assert (∀ z, z ∈ l → anchor_of y = anchor_of z → is_Some (anchor_of y) → False) as Hc.
  { intros z Hz E [b Hb]. rewrite Hb in *. apply (Hnd b); [by left|]. apply list_elem_of_omap. exists z. split; [done|congruence]. }
  apply elem_of_cons in Hx as [->|Hx]; apply elem_of_cons in Hx' as [->|Hx']; [done| | |by apply IH].
  - destruct (Hc x' Hx'); [congruence|]. by eexists.
  - destruct (Hc x Hx); [congruence|]. by eexists.
Qed.

Lemma find_in_block_expand a log items : clean log → find_in_block a (items ≫= expand_item log) = find_in_block a items.
Proof.
  intros Hclean. unfold find_in_block.
  assert (∀ l l', Forall (λ x, plain x = true) l →
    snd <$> list_find (λ x, anchor_of x = Some a) (l ++ l') = snd <$> list_find (λ x, anchor_of x = Some a) l') as Hskip.
  { intros l l'. induction 1 as [|x l Hx _ IH]; [done|]. simpl. rewrite decide_False by (rewrite plain_anchor; done).
    rewrite <- IH. by destruct (list_find _ (l ++ l')) as [[]|]. }
  assert (∀ x l, snd <$> list_find (λ x, anchor_of x = Some a) (x :: l) = if decide (anchor_of x = Some a) then Some x
    else snd <$> list_find (λ x, anchor_of x = Some a) l) as Hcons.
  { intros x l. simpl. case_decide; [done|]. by destruct (list_find _ l) as [[]|]. }
  induction items as [|x items IH]; [done|]. rewrite bind_cons, Hcons. unfold expand_item at 1.
  destruct (anchor_of x) as [b|] eqn:Eb.
  - rewrite <- app_assoc, Hskip by (by apply pre_of_plain). rewrite <- app_comm_cons, Hcons, Eb.
    case_decide; [done|]. by rewrite Hskip by (by apply post_of_plain).
  - rewrite decide_False by done. simpl app. rewrite Hcons, Eb. by rewrite decide_False.
Qed.

Lemma omap_of_fmap {A B C} (f : B → option C) (g : A → B) (l : list A) : omap f (g <$> l) = omap (λ x, f (g x)) l.
Proof. induction l as [|x l IH]; [done|]. by rewrite fmap_cons, !omap_cons_app, IH. Qed.

Lemma omap_same {A B} (f g : A → option B) (l : list A) : (∀ x, f x = g x) → omap f l = omap g l.
Proof. intros Hfg. induction l as [|x l IH]; [done|]. by rewrite !omap_cons_app, IH, Hfg. Qed.

Lemma find_item_expand a log base : clean log → find_item a (expand log base) = find_item a base.
Proof.
  intros Hclean. unfold find_item, expand, map_items, map_blocks. rewrite omap_of_fmap. f_equal. apply omap_same.
  intros [F bs]. simpl. rewrite omap_of_fmap.
  assert (∀ l : list (string * list item), omap (λ B : string * list item, find_in_block a (B.2 ≫= expand_item log)) l =
    omap (λ B : string * list item, find_in_block a B.2) l) as E; [|by rewrite E].
  intros l. apply omap_same. intros [B items]. by apply find_in_block_expand.
Qed.

Lemma find_item_at a base F x : find_item a base = Some (F, x) → ∃ B, at_anchor base a F B x.
Proof.
  unfold find_item. intros H. apply head_Some in H as (l & H). assert ((F, x) ∈ omap (λ Fbs : string * list (string * list item),
    x ← head (omap (λ B : string * list item, find_in_block a B.2) Fbs.2); Some (Fbs.1, x)) base) as Hin by (rewrite H; by left).
  apply list_elem_of_omap in Hin as ([F' bs] & Hb & Hx). simpl in Hx. apply bind_Some in Hx as (x' & Hx & [= -> ->]).
  apply head_Some in Hx as (l' & Hx).
  assert (x ∈ omap (λ B : string * list item, find_in_block a B.2) bs) as Hin by (rewrite Hx; by left).
  apply list_elem_of_omap in Hin as ([B items] & HB & Hf). simpl in Hf. unfold find_in_block in Hf.
  apply fmap_Some in Hf as ([n y] & Hf & ->). apply list_find_Some in Hf as (Hn & Ha & _).
  exists B, items. split; [by exists bs|]. split; [by eapply list_elem_of_lookup_2|done].
Qed.

Lemma at_find_item a base F B x : base_ok base → at_anchor base a F B x → find_item a base = Some (F, x).
Proof.
  intros Hok Hat. destruct (find_item a base) as [[F' x']|] eqn:E.
  - apply find_item_at in E as (B' & Hat'). by destruct (at_anchor_unique base a F B x F' B' x') as (-> & _ & ->).
  - exfalso. destruct Hat as (l & (bs & Hbs & Hl) & Hx & Ha). unfold find_item in E. apply head_None in E.
    assert (is_Some (find_in_block a l)) as [y Hy].
    { unfold find_in_block. apply fmap_is_Some. destruct (list_find _ l) eqn:Ef; [done|].
      apply list_find_None in Ef. rewrite Forall_forall in Ef. by destruct (Ef x). }
    assert (is_Some (head (omap (λ B : string * list item, find_in_block a B.2) bs))) as [z Hz].
    { assert (y ∈ omap (λ B : string * list item, find_in_block a B.2) bs) as Hin
        by (apply list_elem_of_omap; by exists (B, l)).
      destruct (omap _ bs); [by apply elem_of_nil in Hin|done]. }
    assert ((F, z) ∈ omap (λ Fbs : string * list (string * list item),
      x ← head (omap (λ B : string * list item, find_in_block a B.2) Fbs.2); Some (Fbs.1, x)) base) as Hin.
    { apply list_elem_of_omap. exists (F, bs). split; [done|]. simpl. by rewrite Hz. }
    rewrite E in Hin. by apply elem_of_nil in Hin.
Qed.

(** An edit changes only the text around its own instruction. *)
Lemma expand_item_other log e x : anchor_of x ≠ Some (edit_anchor e) → expand_item (log ++ [e]) x = expand_item log x.
Proof.
  intros Hne. unfold expand_item. destruct (anchor_of x) as [a|]; [|done]. rewrite pre_of_snoc, post_of_snoc.
  destruct e; simpl in *; rewrite ?decide_False by congruence; done.
Qed.

Lemma bind_ext (h h' : item → list item) l : (∀ x, x ∈ l → h x = h' x) → l ≫= h = l ≫= h'.
Proof.
  induction l as [|x l IH]; intros Hh; [done|]. rewrite !bind_cons, Hh by (by left). f_equal. apply IH. intros y Hy. apply Hh. by right.
Qed.

Lemma untouched log a : a ∉ edit_anchor <$> log → pre_of log a = [] ∧ post_of log a = [].
Proof.
  induction log as [|e log IH] using rev_ind; [done|]. rewrite fmap_app, not_elem_of_app. intros [H He].
  destruct (IH H) as [E1 E2]. rewrite pre_of_snoc, post_of_snoc, E1, E2.
  assert (edit_anchor e ≠ a) as Hne by (intros E; apply He; rewrite <- E; by left).
  destruct e; simpl in *; rewrite ?decide_False by done; done.
Qed.

(** The edits of a log are at instructions of the module that are no phi nodes,
    and nothing goes after a terminator. *)
Definition editable (base : mstate) (a : anchor) (after : bool) : Prop :=
  ∃ F B x, at_anchor base a F B x ∧ is_phi x = false ∧ (after = true → is_term x = false).

Definition log_ok (base : mstate) (log : list edit) : Prop :=
  clean log ∧ Forall (λ e, editable base (edit_anchor e) (is_after e)) log.

Lemma log_ok_app base log log' : log_ok base log → log_ok base log' → log_ok base (log ++ log').
Proof. intros [H1 H2] [H3 H4]. split; by apply Forall_app. Qed.

Lemma phi_untouched base log F B l x : base_ok base → log_ok base log → in_block base F B l → x ∈ l → is_phi x = true →
  expand_item log x = [x].
Proof.
  intros Hok [_ Hlog] Hl Hx Hphi. unfold expand_item. destruct (anchor_of x) as [a|] eqn:Ea; [|done].
  destruct (untouched log a) as [-> ->]; [|done]. intros Hin. apply list_elem_of_fmap in Hin as (e & -> & He).
  rewrite Forall_forall in Hlog. destruct (Hlog e He) as (F' & B' & x' & Hat & Hn & _).
  destruct (at_anchor_unique base (edit_anchor e) F B x F' B' x') as (_ & _ & ->); [done|by exists l|done|congruence].
Qed.

Lemma expand_item_cons log x a : clean log → anchor_of x = Some a → is_phi x = false →
  ∃ y l, expand_item log x = y :: l ∧ is_phi y = false.
Proof.
  intros Hclean Ea Hphi. unfold expand_item. rewrite Ea. pose proof (pre_of_plain log a Hclean) as Hp.
  destruct (pre_of log a) as [|y l]; [by exists x, (post_of log a)|]. exists y, (l ++ x :: post_of log a).
  split; [done|]. apply Forall_cons in Hp as [Hy _]. by destruct y.
Qed.

Lemma after_phis_app g phis l : Forall (λ x, is_phi x = true) phis → after_phis g (phis ++ l) = phis ++ after_phis g l.
Proof. induction 1 as [|x phis Hx _ IH]; [done|]. rewrite <- !app_comm_cons. cbn [after_phis]. by rewrite Hx, IH. Qed.

(** The edit of one block: the instructions of all others are not affected. *)
Lemma edit_block base log e F B x h : base_ok base → at_anchor base (edit_anchor e) F B x →
  (∀ l, in_block base F B l → h (l ≫= expand_item log) = l ≫= expand_item (log ++ [e])) →
  map_blocks (λ F' B' items, if decide (F' = F ∧ B' = B) then h items else items) (expand log base) = expand (log ++ [e]) base.
Proof.
  intros Hok Hat Hh. unfold expand, map_items. rewrite map_blocks_compose. apply map_blocks_ext. intros F' B' l Hl. cbv beta.
  case_decide as E; [destruct E as [-> ->]; by apply Hh|]. apply bind_ext. intros y Hy. symmetry. apply expand_item_other.
  intros Ea. apply E. destruct (at_anchor_unique base (edit_anchor e) F' B' y F B x) as (-> & -> & _); [done|by exists l|done|done].
Qed.

Lemma after_phis_expand base log g F B phis x0 rest a0 : base_ok base → log_ok base log →
  in_block base F B (phis ++ x0 :: rest) → Forall (λ x, is_phi x = true) phis → is_phi x0 = false → anchor_of x0 = Some a0 →
  map_blocks (λ F' B' items, if decide (F' = F ∧ B' = B) then after_phis g items else items) (expand log base) =
  expand (log ++ [Splice a0 0 g]) base.
Proof.
  intros Hok Hlog Hl Hphis Hx0 Ha0. pose proof (bo_nodup _ Hok _ _ _ Hl) as Hnd.
  rewrite omap_app, omap_cons_app, Ha0 in Hnd. apply NoDup_app in Hnd as (_ & Hd & Hnd).
  apply NoDup_cons in Hnd as [Hrest _].
  apply (edit_block base log (Splice a0 0 g) F B x0); [done| |].
  { exists (phis ++ x0 :: rest). split; [done|]. split; [|done]. apply elem_of_app. right. by left. }
  intros l Hl'. rewrite (bo_block _ Hok F B _ _ Hl' Hl). clear Hl'.
  rewrite !bind_app, !bind_cons.
  assert (phis ≫= expand_item log = phis) as Ephis.
  { assert (∀ x, x ∈ phis → expand_item log x = [x]) as Hone.
    { intros x Hx. rewrite Forall_forall in Hphis. eapply phi_untouched; [done..| |by apply Hphis].
      apply elem_of_app. by left. }
    clear -Hone. induction phis as [|x phis IH]; [done|]. rewrite bind_cons, Hone by (by left). simpl. f_equal. apply IH.
    intros y Hy. apply Hone. by right. }
  assert (phis ≫= expand_item (log ++ [Splice a0 0 g]) = phis) as ->.
  { rewrite <- Ephis at 2. apply bind_ext. intros x Hx. apply expand_item_other. simpl. intros Ea.
    apply (Hd a0); [apply list_elem_of_omap; by exists x|by left]. }
  assert (rest ≫= expand_item (log ++ [Splice a0 0 g]) = rest ≫= expand_item log) as ->.
  { apply bind_ext. intros x Hx. apply expand_item_other. simpl. intros Ea. apply Hrest. apply list_elem_of_omap. by exists x. }
  rewrite Ephis, after_phis_app by done. f_equal.
  destruct (expand_item_cons log x0 a0) as (y & l' & E & Hy); [apply Hlog|done..|].
  rewrite E. simpl. rewrite Hy. rewrite app_comm_cons, <- E, app_assoc. f_equal.
  unfold expand_item. rewrite Ha0, pre_of_snoc, post_of_snoc. simpl. rewrite decide_True by done.
  by rewrite drop_0, <- app_assoc.
Qed.

(** Where a block was split. *)
Definition no_split (x : item) : Prop := match x with GuardBranch _ _ => False | _ => True end.

Lemma before_back_skip g l1 l2 : Forall no_split l1 → l2 ≠ [] → before_back g (l1 ++ l2) = l1 ++ before_back g l2.
Proof.
  intros H Hne. induction H as [|x l1 Hx _ IH]; [done|]. rewrite <- !app_comm_cons, <- IH.
  assert (l1 ++ l2 ≠ []) as Hne' by (destruct l1; [done|by simpl]).
  destruct x, (l1 ++ l2); try done.
Qed.

Lemma first_split l : Forall no_split l ∨ ∃ l1 k w l2, l = l1 ++ GuardBranch k w :: l2 ∧ Forall no_split l1.
Proof.
  induction l as [|x l IH]; [by left|].
  destruct x as [i|G c|r|k v|k w]; try (destruct IH as [H|(l1 & k' & w' & l2 & -> & H)];
    [left; by constructor|right; eexists (_ :: l1), k', w', l2; split; [done|by constructor]]).
  right. by exists [], k, w, l.
Qed.

Lemma before_back_bind log g l y a_y : clean log → l ≠ [] → last l = Some y → anchor_of y = Some a_y → post_of log a_y = [] →
  Forall (λ x, is_Some (anchor_of x)) l → (∀ x, x ∈ l → is_phi x = true → expand_item log x = [x]) → is_phi y = false →
  ∃ l1 x l2 a n, l = l1 ++ x :: l2 ∧ anchor_of x = Some a ∧ is_phi x = false ∧
    before_back g (l ≫= expand_item log) = (l1 ≫= expand_item log) ++
      (take n (pre_of log a) ++ g ++ drop n (pre_of log a)) ++ x :: post_of log a ++ (l2 ≫= expand_item log).
Proof.
  intros Hclean Hne Hlast Hy Hpost. induction l as [|x l IH]; [done|]. intros Hanch Hphi Hyphi.
  apply Forall_cons in Hanch as [[a Ha] Hanch].
  assert (expand_item log x = pre_of log a ++ x :: post_of log a) as Ex by (unfold expand_item; by rewrite Ha).
  assert (Forall no_split (x :: post_of log a)) as Hnp.
  { constructor; [by destruct x|]. eapply Forall_impl; [by apply post_of_guard|]. intros z Hz. by destruct z. }
  rewrite bind_cons, Ex. destruct (first_split (pre_of log a)) as [Hpre|(p1 & k & w & p2 & Ep & Hp1)].
  - destruct l as [|z l].
    + injection Hlast as <-. rewrite Ha in Hy. injection Hy as <-.
      exists [], x, [], a, (List.length (pre_of log a)). split; [done|]. split; [done|]. split; [done|].
      rewrite firstn_all, drop_all, Hpost. change (([] : list item) ≫= expand_item log) with (@nil item).
      rewrite !app_nil_r, before_back_skip by done. simpl app. rewrite <- app_assoc. f_equal. by destruct x.
    + destruct IH as (l1 & x' & l2 & a' & n & El & Ha' & Hx' & Eb); [done|done|done| |done|].
      { intros v Hv. apply Hphi. by right. }
      exists (x :: l1), x', l2, a', n. split; [by rewrite El|]. split; [done|]. split; [done|].
      rewrite before_back_skip, Eb, bind_cons, Ex; [by rewrite <- !app_assoc|by apply Forall_app|].
      rewrite bind_cons. apply Forall_cons in Hanch as [[b Hb] _]. unfold expand_item at 1. rewrite Hb.
      by destruct (pre_of log b).
  - exists [], x, l, a, (List.length p1). split; [done|]. split; [done|]. split.
    { destruct (is_phi x) eqn:E; [|done]. rewrite (Hphi x) in Ex; [|by left|done]. rewrite Ep in Ex.
      destruct p1; [injection Ex as ->; done|]. injection Ex as -> Ex. by destruct p1. }
    rewrite Ep, take_app_length, drop_app_length, <- !app_assoc. rewrite before_back_skip; [|done|by simpl].
    simpl. by rewrite <- ?app_assoc.
Qed.

Lemma before_back_expand base log g F B l y a_y : base_ok base → log_ok base log → in_block base F B l →
  last l = Some y → anchor_of y = Some a_y → post_of log a_y = [] →
  ∃ a n, editable base a false ∧
    map_blocks (λ F' B' items, if decide (F' = F ∧ B' = B) then before_back g items else items) (expand log base) =
    expand (log ++ [Splice a n g]) base.
Proof.
  intros Hok Hlog Hl Hlast Hy Hpost. destruct (bo_shape _ Hok F B l Hl) as (phis & body & t & El & _ & _ & Ht & _).
  assert (y = t) as -> by (rewrite El, !app_assoc, last_snoc in Hlast; by injection Hlast).
  destruct (before_back_bind log g l t a_y) as (l1 & x & l2 & a & n & E & Ha & Hx & Eb); try done.
  - apply Hlog.
  - rewrite El. by destruct phis, body.
  - by eapply bo_anchored.
  - intros x Hx. by eapply phi_untouched.
  - assert (at_anchor base a F B x) as Hat.
    { exists l. split; [done|]. split; [|done]. rewrite E. apply elem_of_app. right. by left. }
    exists a, n. split; [by exists F, B, x; split_and!|]. apply (edit_block base log (Splice a n g) F B x); [done|done|].
    intros l' Hl'. rewrite (bo_block _ Hok F B _ _ Hl' Hl), Eb. clear Eb Hl'. pose proof (bo_nodup _ Hok _ _ _ Hl) as Hnd.
    rewrite E, omap_app, omap_cons_app, Ha in Hnd. apply NoDup_app in Hnd as (_ & Hd & Hnd).
    apply NoDup_cons in Hnd as [Hrest _]. rewrite E, bind_app, bind_cons.
    assert (∀ l0, (∀ z, z ∈ l0 → anchor_of z ≠ Some a) →
      l0 ≫= expand_item (log ++ [Splice a n g]) = l0 ≫= expand_item log) as Hother.
    { intros l0 H0. apply bind_ext. intros z Hz. apply expand_item_other. by apply H0. }
    rewrite !Hother.
    + f_equal. assert (expand_item (log ++ [Splice a n g]) x =
        (take n (pre_of log a) ++ g ++ drop n (pre_of log a)) ++ x :: post_of log a) as ->; [|by rewrite <- !app_assoc].
      unfold expand_item. rewrite Ha, pre_of_snoc, post_of_snoc. simpl. by rewrite decide_True by done.
    + intros z Hz Ez. apply Hrest. apply list_elem_of_omap. by exists z.
    + intros z Hz Ez. apply (Hd a); [apply list_elem_of_omap; by exists z|by left].
Qed.

(** ** The stages as edits *)

(** The instruction an entry points to can be inserted at: it is no phi node, and
    the normal destination of an invoke is a block of its function. *)
Definition insertable (base : mstate) (a : anchor) : Prop :=
  ∃ F B x, at_anchor base a F B x ∧ is_phi x = false ∧
    ∀ i c o normalDest u, x = Orig i → i_op i = InvokeInst c o normalDest u → ∃ l, in_block base F normalDest l.

(** The edit [insertInstructionsWithCheck] makes at an instruction. *)
Definition check_edit (x : item) (a : anchor) (g : list item) (e : edit) : Prop :=
  match x with
  | Orig i => match i_op i with
      | InvokeInst _ _ _ _ => ∃ a0, e = Splice a0 0 g
      | o => e = if isTerminator o then Before a g else After a g
      end
  | _ => e = After a g
  end.

Lemma clean_rt (mk : list item → edit) (g : list rt) : (∀ l, edit_group (mk l) = l) → clean_edit (mk (Rt <$> g)) = true.
Proof.
  intros Hmk. unfold clean_edit. rewrite Hmk. apply andb_true_iff. split.
  - induction g as [|r g IH]; [done|]. by rewrite fmap_cons.
  - apply orb_true_iff. right. clear Hmk. induction g as [|r g IH]; [done|]. by rewrite fmap_cons.
Qed.

Lemma log_ok_single base e : clean_edit e = true → editable base (edit_anchor e) (is_after e) → log_ok base [e].
Proof. intros H1 H2. split; by apply Forall_singleton. Qed.

Lemma insertable_editable base a : insertable base a → editable base a false.
Proof. intros (F & B & x & ? & ? & _). by exists F, B, x; split_and!. Qed.

Lemma first_nonphi base F B l : base_ok base → in_block base F B l → ∃ phis x0 rest a0,
  l = phis ++ x0 :: rest ∧ Forall (λ x, is_phi x = true) phis ∧ is_phi x0 = false ∧ anchor_of x0 = Some a0.
Proof.
  intros Hok Hl. destruct (bo_shape _ Hok F B l Hl) as (phis & body & y & El & Hphis & Hbody & Hy & _).
  pose proof (bo_anchored _ Hok F B l Hl) as Ha. rewrite El, !Forall_app, Forall_singleton in Ha.
  destruct Ha as (_ & Hab & [ay Hay]). destruct body as [|x body].
  - by exists phis, y, [], ay.
  - apply Forall_cons in Hbody as [[Hx _] _]. apply Forall_cons in Hab as [[ax Hax] _]. by exists phis, x, (body ++ [y]), ax.
Qed.

Lemma insertInstructionsWithCheck_expand base log (g : list rt) a F B x : base_ok base → log_ok base log →
  insertable base a → at_anchor base a F B x →
  ∃ e, insertInstructionsWithCheck (Rt <$> g) a (expand log base) = Some (expand (log ++ [e]) base) ∧
    log_ok base [e] ∧ check_edit x a (Rt <$> g) e.
Proof.
  intros Hok Hlog Hins Hat. destruct Hins as (F' & B' & x' & Hat' & Hphi & Hdest).
  destruct (at_anchor_unique base a F B x F' B' x') as (<- & <- & <-); [done..|].
  unfold insertInstructionsWithCheck. rewrite find_item_expand by apply Hlog.
  rewrite (at_find_item a base F B x) by done. cbn [mbind option_bind].
  assert (is_term x = false → log_ok base [After a (Rt <$> g)]) as HA.
  { intros Ht. apply log_ok_single; [by apply (clean_rt (After a))|]. by exists F, B, x. }
  assert (log_ok base [Before a (Rt <$> g)]) as HB.
  { apply log_ok_single; [by apply (clean_rt (Before a))|]. by exists F, B, x; split_and!. }
  assert (∀ b, insertInstructions (Rt <$> g) a b (expand log base) =
    expand (log ++ [if b then Before a (Rt <$> g) else After a (Rt <$> g)]) base) as Hi.
  { intros []; [apply insertBefore_expand|apply insertAfter_expand]; apply Hlog. }
  destruct x as [i|G c|r|k v|k w]; try (exists (After a (Rt <$> g)); split; [by rewrite (Hi false)|by split; [apply HA|]]).
  unfold check_edit. destruct (i_op i) as [c o|c o nd u|p|v p ip sc pr|t| | |b] eqn:Eop.
  2: { destruct (Hdest i c o nd u) as (l & Hl); [done|done|].
    destruct (first_nonphi base F nd l Hok Hl) as (phis & x0 & rest & a0 & -> & Hphis & Hx0 & Ha0).
    exists (Splice a0 0 (Rt <$> g)). split; [|split; [|by exists a0]].
    - f_equal. by eapply after_phis_expand.
    - apply log_ok_single; [by apply (clean_rt (Splice a0 0))|]. exists F, nd, x0. split_and!; [|done|done].
      eexists. split; [done|]. split; [|done]. apply elem_of_app. right. by left. }
  all: rewrite Hi; eexists; split; [reflexivity|]; simpl isTerminator; cbv iota; split; try done.
  all: try (apply HA; simpl; by rewrite Eop).
  destruct b; [done|]. apply HA. simpl. by rewrite Eop.
Qed.

(** A loop whose iterations make edits. *)
Lemma loop_expand {A} base (step : mstate → A → option mstate) (R : A → list edit → Prop) (l : list A) log :
  (∀ log x, x ∈ l → log_ok base log → ∃ es, step (expand log base) x = Some (expand (log ++ es) base) ∧ log_ok base es ∧ R x es) →
  log_ok base log →
  ∃ logs, mfoldl step (expand log base) l = Some (expand (log ++ concat logs) base) ∧ log_ok base (concat logs) ∧ Forall2 R l logs.
Proof.
  revert log. induction l as [|x l IH]; intros log Hstep Hlog.
  - exists []. simpl. rewrite app_nil_r. split; [done|]. split; [|constructor]. split; constructor.
  - destruct (Hstep log x) as (es & E & Hes & HR); [by left|done|]. cbn [mfoldl]. rewrite E. cbn [mbind option_bind].
    destruct (IH (log ++ es)) as (logs & E' & Hlogs & HRs); [|by apply log_ok_app|].
    { intros log' y Hy. apply Hstep. by right. }
    exists (es :: logs). cbn [concat]. rewrite app_assoc. split; [done|]. split; [by apply log_ok_app|by constructor].
Qed.

(** The stages of the entries. *)
Definition group_ok (base : mstate) (group : entry → option (list rt * anchor)) (e : entry) : Prop :=
  ∃ g a, group e = Some (g, a) ∧ insertable base a.

Definition group_edits (base : mstate) (group : entry → option (list rt * anchor)) (e : entry) (es : list edit) : Prop :=
  ∃ g a F B x ed, group e = Some (g, a) ∧ at_anchor base a F B x ∧ es = [ed] ∧ check_edit x a (Rt <$> g) ed.

Lemma groups_expand base group entries log : base_ok base → log_ok base log → Forall (group_ok base group) entries →
  ∃ logs, mfoldl (λ st e, '(g, a) ← group e; insertInstructionsWithCheck (Rt <$> g) a st) (expand log base) entries =
      Some (expand (log ++ concat logs) base) ∧
    log_ok base (concat logs) ∧ Forall2 (group_edits base group) entries logs.
Proof.
  intros Hok Hlog Hall. apply loop_expand; [|done]. intros log' e He Hlog'. rewrite Forall_forall in Hall.
  destruct (Hall e He) as (g & a & Eg & Hins). rewrite Eg. cbn [mbind option_bind].
  pose proof Hins as (F & B & x & Hat & _).
  destruct (insertInstructionsWithCheck_expand base log' g a F B x) as (ed & E & Hed & Hc); [done..|].
  exists [ed]. split; [done|]. split; [done|]. by exists g, a, F, B, x, ed.
Qed.

Lemma unknowns_expand base cs entries log : base_ok base → log_ok base log →
  Forall (group_ok base (unknown_group cs)) entries →
  ∃ logs, instrumentUnkowns cs entries (expand log base) = Some (expand (log ++ concat logs) base) ∧
    log_ok base (concat logs) ∧
    Forall2 (λ e es, ∃ g a F B x ed, unknown_group cs e = Some (g, a) ∧ at_anchor base a F B x ∧
      es = [Before a [Rt (RuntimeCall PIN_START_TRACKING [])]; ed] ∧ check_edit x a (Rt <$> g) ed) entries logs.
Proof.
  intros Hok Hlog Hall. apply loop_expand; [|done]. intros log' e He Hlog'. rewrite Forall_forall in Hall.
  destruct (Hall e He) as (g & a & Eg & Hins). rewrite Eg. cbn [mbind option_bind].
  rewrite insertBefore_expand by apply Hlog'. set (b := Before a [Rt (RuntimeCall PIN_START_TRACKING [])]).
  assert (log_ok base [b]) as Hb by (apply log_ok_single; [done|by apply insertable_editable]).
  pose proof Hins as (F & B & x & Hat & _).
  destruct (insertInstructionsWithCheck_expand base (log' ++ [b]) g a F B x) as (ed & E & Hed & Hc); [done|by apply log_ok_app|done..|].
  exists [b; ed]. rewrite <- app_assoc in E. split; [done|]. split; [by apply (log_ok_app base [b] [ed])|]. by exists g, a, F, B, x, ed.
Qed.

(** The report of an access. *)
Definition access_group (F : string) (i : inst) (e : entry) : option (list rt) :=
  match i_op i with
  | StoreInst _ p _ _ _ => Some [PointerCast p; RuntimeCall TEXAS_ADD_WITH_INFO
      [AConst (en_id (en_debug e)); APointerCast p; AConst (en_size e); AConst (en_sizeElement e); ACallstack F]]
  | LoadInst p => Some [PointerCast p; RuntimeCall TEXAS_ADD_WITH_INFO_LOAD [AConst (en_id (en_debug e)); APointerCast p; ACallstack F]]
  | _ => None
  end.

(** An entry of [instToEntryMap]: it is that of a load or store of a function with
    a callstack. *)
Definition access_ok (base : mstate) (cs : gmap string callstack_call) (Ie : Z * entry) : Prop :=
  en_value Ie.2 = Inst Ie.1 ∧
  ∃ F B i, at_anchor base (AtInst Ie.1) F B (Orig i) ∧ is_Some (access_group F i Ie.2) ∧ is_Some (cs !! F).

Lemma load_store_group_at base log cs I e F B i : base_ok base → clean log → en_value e = Inst I →
  at_anchor base (AtInst I) F B (Orig i) → is_Some (cs !! F) → load_store_group cs e (expand log base) = access_group F i e.
Proof.
  intros Hok Hclean Ev Hat [c Hc]. unfold load_store_group, callstack_of. rewrite Ev, find_item_expand by done.
  rewrite (at_find_item _ _ _ _ _ Hok Hat). cbn [mbind option_bind]. rewrite Hc. cbn [mbind option_bind]. unfold access_group.
  by destruct (i_op i).
Qed.

Lemma access_insertable base F B i I e : at_anchor base (AtInst I) F B (Orig i) → is_Some (access_group F i e) →
  insertable base (AtInst I) ∧ editable base (AtInst I) false.
Proof.
  intros Hat [g Hg]. assert (insertable base (AtInst I)) as Hi.
  { exists F, B, (Orig i). split; [done|]. unfold access_group in Hg. split.
    - simpl. by destruct (i_op i).
    - intros i' c o nd u [= <-] E. by rewrite E in Hg. }
  split; [done|by apply insertable_editable].
Qed.

Lemma check_edit_access i F e a g ed : is_Some (access_group F i e) → check_edit (Orig i) a g ed → ed = After a g.
Proof. intros [r Hr] H. unfold access_group in Hr. unfold check_edit in H. by destruct (i_op i). Qed.

Definition regular_edits (base : mstate) (skip : gset Z) (Ie : Z * entry) (es : list edit) : Prop :=
  ∃ F B i g, at_anchor base (AtInst Ie.1) F B (Orig i) ∧ access_group F i Ie.2 = Some g ∧
    es = if decide (Ie.1 ∈ skip) then [] else [After (AtInst Ie.1) (Rt <$> g)].

Lemma regular_expand base cs m skip log : base_ok base → log_ok base log → Forall (access_ok base cs) m →
  ∃ logs, instrumentLoadsStoresRegular cs m skip (expand log base) = Some (expand (log ++ concat logs) base) ∧
    log_ok base (concat logs) ∧ Forall2 (regular_edits base skip) m logs.
Proof.
  intros Hok Hlog Hall. apply loop_expand; [|done]. intros log' [I e] He Hlog'. rewrite Forall_forall in Hall.
  destruct (Hall _ He) as (Ev & F & B & i & Hat & [g Hg] & Hcs). cbn [fst snd] in *. case_decide as Hd.
  - exists []. rewrite app_nil_r. split; [done|]. split; [split; constructor|]. exists F, B, i, g. by rewrite decide_True.
  - rewrite (load_store_group_at base log' cs I e F B i), Hg by (done || apply Hlog'). cbn [mbind option_bind].
    destruct (access_insertable base F B i I e) as [Hins _]; [done|by eexists|].
    destruct (insertInstructionsWithCheck_expand base log' g (AtInst I) F B (Orig i)) as (ed & E & Hed & Hc); [done..|].
    apply (check_edit_access i F e) in Hc as ->; [|by eexists].
    exists [After (AtInst I) (Rt <$> g)]. split; [done|]. split; [done|]. exists F, B, i, g. by rewrite decide_False.
Qed.

(** The guards go before their instruction. *)
Definition guard_edits (I : Z) (es : list edit) : Prop :=
  es = [] ∨ ∃ k addr calls, es = [Before (AtInst I) [GuardTest k addr; GuardBranch k calls]].

(** The guard of a load that is only read, with the report it is around. *)
Definition onlyRead_edits (base : mstate) (m : gmap Z entry) (I : Z) (es : list edit) : Prop :=
  ∃ e addr F B i g, m !! I = Some e ∧ en_allocPointer e = Some addr ∧ at_anchor base (AtInst I) F B (Orig i) ∧
    access_group F i e = Some g ∧ es = [Before (AtInst I) [GuardTest OnlyReadGuard addr; GuardBranch OnlyReadGuard [g]]].

(** The guard of an element and the calls in its blocks. *)
Definition direct_group (elem : DirectStateLoadStore) (w : Z) (F : string) (e : entry) : option (guard * list (list rt)) :=
  let call s := createCallToRuntime elem s w F e in
  if decide (ds_FSAState elem = STATE_ADD_INPUT) then Some (DirectGuardIorO, [call STATE_ADD_INPUT])
  else if decide (ds_FSAState elem = STATE_ADD_OUTPUT) then
    match ds_startIndVar elem with
    | Some _ => Some (DirectGuardIorO, [call STATE_ADD_OUTPUT])
    | None => Some (DirectGuardOorCO, [call STATE_ADD_OUTPUT; call STATE_ADD_CO])
    end
  else None.

Definition direct_edits (base : mstate) (w : Z → Z) (m : gmap Z entry) (elem : DirectStateLoadStore) (es : list edit) : Prop :=
  ∃ e F B i b, m !! ds_inst elem = Some e ∧ at_anchor base (AtInst (ds_inst elem)) F B (Orig i) ∧
    elementBitwidth w (Orig i) = Some b ∧
    es = match direct_group elem b F e with
         | Some (k, calls) => [Before (AtInst (ds_inst elem)) [GuardTest k (ds_baseAddr elem); GuardBranch k calls]]
         | None => []
         end.

Lemma onlyRead_guard base m I es : onlyRead_edits base m I es → guard_edits I es.
Proof. intros (e & addr & F & B & i & g & _ & _ & _ & _ & ->). right. by eexists _, _, _. Qed.

Lemma direct_guard base w m elem es : direct_edits base w m elem es → guard_edits (ds_inst elem) es.
Proof.
  intros (e & F & B & i & b & _ & _ & _ & ->). destruct (direct_group elem b F e) as [[k calls]|]; [|by left].
  right. by eexists _, _, _.
Qed.

Lemma guard_log_ok base I k addr calls : editable base (AtInst I) false →
  log_ok base [Before (AtInst I) [GuardTest k addr; GuardBranch k calls]].
Proof. intros H. by apply log_ok_single. Qed.

Lemma onlyReads_expand base cs m l log : base_ok base → log_ok base log →
  Forall (λ I, ∃ e addr, m !! I = Some e ∧ en_allocPointer e = Some addr ∧ access_ok base cs (I, e)) l →
  ∃ logs, instrumentOnlyReads cs m l (expand log base) = Some (expand (log ++ concat logs) base) ∧
    log_ok base (concat logs) ∧ Forall2 (onlyRead_edits base m) l logs.
Proof.
  intros Hok Hlog Hall. apply loop_expand; [|done]. intros log' I HI Hlog'. rewrite Forall_forall in Hall.
  destruct (Hall _ HI) as (e & addr & He & Haddr & Ev & F & B & i & Hat & [g Hg] & Hcs). cbn [fst snd] in *.
  rewrite He. cbn [mbind option_bind]. rewrite Haddr. cbn [mbind option_bind].
  rewrite (load_store_group_at base log' cs I e F B i), Hg by (done || apply Hlog'). cbn [mbind option_bind].
  eexists. split; [by rewrite insertBefore_expand by apply Hlog'|]. split; [|by exists e, addr, F, B, i, g].
  apply guard_log_ok. by eapply access_insertable.
Qed.

Lemma directState_expand base cs w m l log : base_ok base → log_ok base log →
  Forall (λ elem, ∃ e, m !! ds_inst elem = Some e ∧ access_ok base cs (ds_inst elem, e)) l →
  ∃ logs, instrumentDirectStateLoadStore cs w m l (expand log base) = Some (expand (log ++ concat logs) base) ∧
    log_ok base (concat logs) ∧ Forall2 (direct_edits base w m) l logs.
Proof.
  intros Hok Hlog Hall. apply loop_expand; [|done]. intros log' elem HI Hlog'. rewrite Forall_forall in Hall.
  destruct (Hall _ HI) as (e & He & Ev & F & B & i & Hat & Hg & c & Hc). cbn [fst snd] in *. cbv zeta.
  rewrite He. cbn [mbind option_bind]. rewrite find_item_expand by apply Hlog'.
  rewrite (at_find_item _ _ _ _ _ Hok Hat). cbn [mbind option_bind]. unfold callstack_of. rewrite Hc. cbn [mbind option_bind].
  assert (∃ b, elementBitwidth w (Orig i) = Some b) as [b Hb] by (simpl; destruct (i_op i); by eexists).
  rewrite Hb. cbn [mbind option_bind].
  assert (∀ k calls, direct_group elem b F e = Some (k, calls) → ∃ es,
      Some (insertBefore (AtInst (ds_inst elem)) [GuardTest k (ds_baseAddr elem); GuardBranch k calls]
      (expand log' base)) = Some (expand (log' ++ es) base) ∧ log_ok base es ∧ direct_edits base w m elem es) as Hguard.
  { intros k calls Hk. eexists. split; [by rewrite insertBefore_expand by apply Hlog'|]. split.
    - apply guard_log_ok. by eapply access_insertable.
    - exists e, F, B, i, b. rewrite Hk. by split_and!. }
  unfold direct_group in Hguard.
  destruct (decide (ds_FSAState elem = STATE_ADD_INPUT)); [by apply Hguard|].
  destruct (decide (ds_FSAState elem = STATE_ADD_OUTPUT)); [destruct (ds_startIndVar elem); by apply Hguard|].
  exists []. rewrite app_nil_r. split; [done|]. split; [split; constructor|].
  exists e, F, B, i, b. unfold direct_group. rewrite !decide_False by done. by split_and!.
Qed.

Lemma deallocs_expand base l log : base_ok base → log_ok base log →
  Forall (λ Fi, ∃ F B v c o, at_anchor base (AtInst (i_id Fi.2)) F B (Orig Fi.2) ∧ i_op Fi.2 = CallInst c o ∧
    first_operand Fi.2 = Some v) l →
  ∃ logs, instrumentDeallocs l (expand log base) = Some (expand (log ++ concat logs) base) ∧ log_ok base (concat logs) ∧
    Forall2 (λ Fi es, ∃ v, es = [After (AtInst (i_id Fi.2)) (remove_group v)]) l logs.
Proof.
  intros Hok Hlog Hall. apply loop_expand; [|done]. intros log' Fi HFi Hlog'. rewrite Forall_forall in Hall.
  destruct (Hall _ HFi) as (F & B & v & c & o & Hat & Hop & Hv). rewrite Hv. cbn [mbind option_bind].
  eexists. split; [by rewrite insertAfter_expand by apply Hlog'|]. split; [|by exists v].
  apply log_ok_single; [done|]. exists F, B, (Orig Fi.2). split_and!; [done|simpl; by rewrite Hop..].
Qed.

(** The removals of a return. *)
Definition returns_log (m : gmap string (list value)) (returns : list (string * inst)) : list edit :=
  returns ≫= λ Fi, (λ a, Before (AtInst (i_id Fi.2)) (remove_group a)) <$> default [] (m !! Fi.1).

Lemma inserts_before_expand base a (gs : list (list item)) log : log_ok base log →
  Forall (λ g, log_ok base [Before a g]) gs →
  foldl (λ st g, insertBefore a g st) (expand log base) gs = expand (log ++ (Before a <$> gs)) base ∧
  log_ok base (log ++ (Before a <$> gs)).
Proof.
  intros Hlog Hgs. revert log Hlog. induction Hgs as [|g gs Hg _ IH]; intros log Hlog; simpl.
  { by rewrite app_nil_r. }
  rewrite insertBefore_expand by apply Hlog. destruct (IH (log ++ [Before a g])) as [E1 E2]; [by apply log_ok_app|].
  rewrite <- app_assoc in E1, E2. done.
Qed.

Lemma foldl_fmap {A B C} (f : A → C → A) (g : B → C) a l : foldl f a (g <$> l) = foldl (λ a b, f a (g b)) a l.
Proof. revert a. induction l as [|x l IH]; intros a; [done|]. rewrite fmap_cons. simpl. by rewrite IH. Qed.

Lemma returns_expand base l m log : log_ok base log →
  Forall (λ Fi : string * inst, editable base (AtInst (i_id Fi.2)) false) l →
  instrumentReturns l m (expand log base) = expand (log ++ returns_log m l) base ∧ log_ok base (log ++ returns_log m l).
Proof.
  intros Hlog Hall. unfold instrumentReturns, returns_log. revert log Hlog.
  induction Hall as [|Fi l HFi _ IH]; intros log Hlog; [by rewrite app_nil_r|]. cbn [foldl]. rewrite bind_cons.
  destruct (inserts_before_expand base (AtInst (i_id Fi.2)) (remove_group <$> default [] (m !! Fi.1)) log Hlog) as [E1 E2].
  { apply Forall_fmap, Forall_forall. intros a _. by apply log_ok_single. }
  rewrite foldl_fmap in E1. rewrite <- list_fmap_compose in E1, E2.
  assert (match m !! Fi.1 with
    | Some allocas => foldl (λ st a, insertBefore (AtInst (i_id Fi.2)) (remove_group a) st) (expand log base) allocas
    | None => expand log base end =
    expand (log ++ ((λ a, Before (AtInst (i_id Fi.2)) (remove_group a)) <$> default [] (m !! Fi.1))) base) as ->.
  { transitivity (foldl (λ st a, insertBefore (AtInst (i_id Fi.2)) (remove_group a) st) (expand log base) (default [] (m !! Fi.1)));
      [by destruct (m !! Fi.1)|exact E1]. }
  destruct (IH _ E2) as [E3 E4]. by rewrite app_assoc.
Qed.

Lemma post_of_term base log a F B y : base_ok base → log_ok base log → at_anchor base a F B y → is_term y = true →
  post_of log a = [].
Proof.
  intros Hok [_ Hlog] Hat Ht. induction log as [|e log IH] using rev_ind; [done|].
  apply Forall_app in Hlog as [Hlog He]. rewrite Forall_singleton in He. rewrite post_of_snoc, IH by done.
  destruct e as [a' g|a' g|a' n g]; try done. simpl. case_decide as E; [|done]. exfalso. subst a'.
  destruct He as (F' & B' & x & Hat' & _ & Hx). simpl in *. specialize (Hx eq_refl).
  destruct (at_anchor_unique base a F B y F' B' x) as (_ & _ & ->); [done..|congruence].
Qed.

(** *** The verifier accepts the edited module *)

(** A block the verifier accepts. *)
Definition block_shape (l : list item) : Prop := ∃ phis body y, l = phis ++ body ++ [y] ∧
  Forall (λ x, is_phi x = true) phis ∧ Forall (λ x, is_phi x = false ∧ is_term x = false) body ∧ is_phi y = false ∧ is_term y = true.

Lemma block_shape_accepted l : block_shape l → terminated l && phis_first l = true.
Proof.
  intros (phis & body & y & -> & Hphis & Hbody & Hy & Ht). apply andb_true_iff. split.
  - assert (∀ k, Forall (λ x, is_term x = false) k → terminated (k ++ [y]) = true) as Hk.
    { intros k. induction 1 as [|x k Hx Hk IH]; [done|]. rewrite <- app_comm_cons.
      assert (terminated (x :: k ++ [y]) = negb (is_term x) && terminated (k ++ [y])) as -> by (by destruct k). by rewrite Hx, IH. }
    rewrite app_assoc. apply Hk, Forall_app. split; [|by eapply Forall_impl; [exact Hbody|]; intros x []].
    eapply Forall_impl; [exact Hphis|]. intros x Hx. unfold is_phi in Hx. destruct x as [i| | | |]; try done. simpl. by destruct (i_op i).
  - induction Hphis as [|x phis Hx _ IH]; [|by rewrite <- app_comm_cons; cbn [phis_first]; rewrite Hx].
    assert (Forall (λ x, is_phi x = false) (body ++ [y])) as Hall
      by (apply Forall_app; split; [by eapply Forall_impl; [exact Hbody|]; intros x []|by apply Forall_singleton]).
    simpl. destruct Hall as [|x l Hx Hall]; [done|]. cbn [phis_first]. rewrite Hx. apply forallb_forall. intros z Hz.
    rewrite Forall_forall in Hall. by rewrite (Hall z) by (by apply list_elem_of_In).
Qed.

Lemma plain_shape x : plain x = true → is_phi x = false ∧ is_term x = false.
Proof. by destruct x. Qed.

(** Plain text around the instructions, none at phi nodes and none behind the
    terminator, keeps the shape. *)
Lemma block_shape_bind (h : item → list item) phis body y :
  Forall (λ x, is_phi x = true ∧ h x = [x]) phis →
  Forall (λ x, (is_phi x = false ∧ is_term x = false) ∧ ∃ p q, h x = p ++ x :: q ∧
    Forall (λ z, plain z = true) p ∧ Forall (λ z, plain z = true) q) body →
  is_phi y = false → is_term y = true → (∃ p, h y = p ++ [y] ∧ Forall (λ z, plain z = true) p) →
  block_shape ((phis ++ body ++ [y]) ≫= h).
Proof.
  intros Hphis Hbody Hy Ht (p & Ey & Hp).
  assert (∀ k, Forall (λ z, plain z = true) k → Forall (λ z, is_phi z = false ∧ is_term z = false) k) as Hplain
    by (intros k Hk; eapply Forall_impl; [exact Hk|apply plain_shape]).
  exists phis, ((body ≫= h) ++ p), y. rewrite !bind_app, bind_cons, Ey. simpl. split_and!; try done.
  - rewrite app_nil_r, <- !app_assoc. f_equal. clear -Hphis. induction Hphis as [|x l [_ Hx] _ IH]; [done|]. by rewrite bind_cons, Hx, IH.
  - eapply Forall_impl; [exact Hphis|]. by intros x [].
  - apply Forall_app. split; [|by apply Hplain]. induction Hbody as [|x l (Hx & p1 & q1 & E & Hp1 & Hq1) _ IH]; [constructor|].
    rewrite bind_cons, E. apply Forall_app. split; [|exact IH]. apply Forall_app. split; [by apply Hplain|]. constructor; [done|by apply Hplain].
Qed.

Lemma verified_blocks st : (∀ F B l, in_block st F B l → block_shape l) → verified st = Some st.
Proof.
  intros H. apply verified_Some. split; [done|]. unfold verifyModule. apply forallb_forall. intros [F bs] Hbs. apply forallb_forall.
  intros [B l] HB. simpl. apply block_shape_accepted, (H F B). exists bs. by split; apply list_elem_of_In.
Qed.

Lemma block_shape_callstack F c l : block_shape (Callstack F c :: l) → block_shape l.
Proof.
  intros (phis & body & y & El & Hphis & Hbody & Hy & Ht). destruct phis as [|x phis].
  2:{ injection El as <- _. by apply Forall_cons in Hphis as [? _]. }
  destruct body as [|x body]; [by injection El as <- _|]. injection El as <- ->. apply Forall_cons in Hbody as [_ Hbody].
  exists [], body, y. by split_and!.
Qed.

(** The module before the callstacks are inserted. *)
Lemma callstacks_verified cs st : base_ok (insertCallstacks cs st) → verified st = Some st.
Proof.
  intros Hok. apply verified_blocks. intros F B l (bs & Hbs & Hl).
  assert (in_block (insertCallstacks cs st) F B l ∨ ∃ c, in_block (insertCallstacks cs st) F B (Callstack F c :: l)) as [H|[c H]].
  { unfold insertCallstacks. pose proof (list_elem_of_fmap_2 (λ Fbs : string * list (string * list item), match cs !! Fbs.1, Fbs.2 with
      | Some c, (B, items) :: bs => (Fbs.1, (B, Callstack Fbs.1 c :: items) :: bs) | _, _ => Fbs end) _ _ Hbs) as Hin. cbn [fst snd] in Hin.
    destruct (cs !! F) as [c|]; [destruct bs as [|[B0 items] bs]; [by apply elem_of_nil in Hl|]|].
    - apply elem_of_cons in Hl as [[= <- <-]|Hl]; [right; exists c|left]; eexists; (split; [exact Hin|]); [by left|by right].
    - left. eexists. split; [exact Hin|done]. }
  - apply (bo_shape _ Hok F B l H).
  - apply (block_shape_callstack F c), (bo_shape _ Hok F B _ H).
Qed.

Lemma expand_verified base log : base_ok base → log_ok base log → verified (expand log base) = Some (expand log base).
Proof.
  intros Hok Hlog. apply verified_blocks. intros F B l' (l & Hl & ->)%in_block_map. pose proof (proj1 Hlog) as Hclean.
  destruct (bo_shape _ Hok F B l Hl) as (phis & body & y & El & Hphis & Hbody & Hy & Ht).
  pose proof (bo_anchored _ Hok F B l Hl) as Ha. rewrite Forall_forall in Ha, Hphis, Hbody.
  rewrite El. apply block_shape_bind; [| |done|done|].
  - apply Forall_forall. intros x Hx. split; [by apply Hphis|]. eapply phi_untouched; [done|done|done| |by apply Hphis].
    rewrite El. apply elem_of_app. by left.
  - apply Forall_forall. intros x Hx. split; [by apply Hbody|]. unfold expand_item.
    destruct (Ha x) as [a ->]; [rewrite El, !elem_of_app; tauto|].
    eexists _, _. split; [done|]. split; [by apply pre_of_plain|by apply post_of_plain].
  - assert (y ∈ l) as Hyl by (rewrite El, !elem_of_app; right; right; by left). destruct (Ha y Hyl) as [a Hya].
    unfold expand_item. rewrite Hya, (post_of_term base log a F B y); [|done..|by exists l|done]. eexists. split; [done|]. by apply pre_of_plain.
Qed.

Definition is_splice (e : edit) : Prop := ∃ a n v, e = Splice a n (remove_group v).

Lemma before_backs_expand base F B l (vs : list value) log : base_ok base → log_ok base log → in_block base F B l →
  ∃ sp, foldl (λ st a, map_blocks (λ F' B' items, if decide (F' = F ∧ B' = B) then before_back (remove_group a) items else items) st)
      (expand log base) vs = expand (log ++ sp) base ∧ log_ok base (log ++ sp) ∧ Forall is_splice sp.
Proof.
  intros Hok Hlog Hl. revert log Hlog. induction vs as [|v vs IH]; intros log Hlog; simpl.
  { exists []. rewrite app_nil_r. by split_and!. }
  destruct (bo_shape _ Hok F B l Hl) as (phis & body & y & El & _ & _ & Hy & Ht).
  pose proof (bo_anchored _ Hok F B l Hl) as Ha. rewrite El, !Forall_app, Forall_singleton in Ha. destruct Ha as (_ & _ & ay & Hay).
  destruct (before_back_expand base log (remove_group v) F B l y ay) as (a & n & Hed & E); [done..|by rewrite El, !app_assoc, last_snoc|done| |].
  { apply (post_of_term base log ay F B y); [done..| |done]. exists l. split; [done|]. split; [|done].
    rewrite El, !elem_of_app. right. right. by left. }
  rewrite E. destruct (IH (log ++ [Splice a n (remove_group v)])) as (sp & E' & Hlog' & Hsp).
  { apply log_ok_app; [done|]. by apply log_ok_single. }
  exists (Splice a n (remove_group v) :: sp). rewrite <- app_assoc in E', Hlog'. split; [done|]. split; [done|].
  constructor; [by eexists _, _, _|done].
Qed.

Lemma invokes_expand base l m log : base_ok base → log_ok base log →
  Forall (λ Fi, ∃ c o nd unwindDest items, i_op Fi.2 = InvokeInst c o nd unwindDest ∧ in_block base Fi.1 unwindDest items) l →
  ∃ sp, instrumentInvokes l m (expand log base) = expand (log ++ sp) base ∧ log_ok base (log ++ sp) ∧ Forall is_splice sp.
Proof.
  intros Hok Hlog Hall. unfold instrumentInvokes. revert log Hlog.
  induction Hall as [|Fi l (c & o & nd & u & items & Hop & Hu) _ IH]; intros log Hlog; simpl.
  { exists []. rewrite app_nil_r. by split_and!. }
  rewrite Hop. destruct (m !! Fi.1) as [allocas|]; [|by apply IH].
  destruct (before_backs_expand base Fi.1 u items allocas log) as (sp & -> & Hlog' & Hsp); [done..|].
  destruct (IH _ Hlog') as (sp' & -> & Hlog'' & Hsp'). exists (sp ++ sp'). rewrite app_assoc. split; [done|].
  split; [done|by apply Forall_app].
Qed.

(** The start of a function. *)
Definition entry_block (base : mstate) (F B : string) (items : list item) : Prop := ∃ bs, (F, (B, items) :: bs) ∈ base.

Lemma entry_in_block base F B items : entry_block base F B items → in_block base F B items.
Proof. intros (bs & H). exists ((B, items) :: bs). split; [done|by left]. Qed.

Lemma NoDup_fst_unique {A B} (l : list (A * B)) x y y' : NoDup l.*1 → (x, y) ∈ l → (x, y') ∈ l → y = y'.
Proof.
  intros Hnd H H'. apply list_elem_of_lookup in H as [i Hi], H' as [j Hj].
  assert (i = j) as ->; [|congruence]. eapply NoDup_lookup; [done|rewrite list_lookup_fmap, Hi; done|by rewrite list_lookup_fmap, Hj].
Qed.

Lemma firstInst_expand base F B x rest log : base_ok base → entry_block base F B (x :: rest) →
  firstInst F (expand log base) = head ((x :: rest) ≫= expand_item log).
Proof.
  intros Hok (bs & Hin). unfold firstInst, expand, map_items, map_blocks. pose proof (bo_functions _ Hok) as Hnd.
  clear Hok. induction base as [|[G cs] base IH]; [by apply elem_of_nil in Hin|].
  rewrite !fmap_cons in *. apply NoDup_cons in Hnd as [HG Hnd]. cbn [list_find fst snd]. apply elem_of_cons in Hin as [[= -> <-]|Hin].
  - by rewrite decide_True.
  - rewrite decide_False; [|intros ->; apply HG; by apply (list_elem_of_fmap_2 fst) in Hin].
    rewrite <- (IH Hin Hnd). by destruct (list_find _ _) as [[]|].
Qed.

Lemma prologue_expand base B x rest a o log : base_ok base → log_ok base log → entry_block base "main" B (x :: rest) →
  anchor_of x = Some a → is_phi x = false →
  let e := Splice a 0 [Rt (RuntimeCall MEMORYTOOL_PROLOGUE (prologue_args o))] in
  setRuntimeGlobalVariables o (expand log base) = Some (expand (log ++ [e]) base) ∧ log_ok base [e].
Proof.
  intros Hok Hlog Hmain Ha Hphi e. pose proof (entry_in_block _ _ _ _ Hmain) as Hb. split.
  2: { apply log_ok_single; [done|]. exists "main", B, x. split_and!; [|done|done]. exists (x :: rest). by split_and!; [|left|]. }
  unfold setRuntimeGlobalVariables. erewrite firstInst_expand by done.
  destruct (expand_item_cons log x a) as (y & l' & Ey & Hy); [apply Hlog|done..|].
  rewrite bind_cons, Ey. cbn [mbind option_bind head app]. f_equal.
  subst e. rewrite <- (after_phis_expand base log [Rt (RuntimeCall MEMORYTOOL_PROLOGUE (prologue_args o))] "main" B [] x rest a) by done.
  unfold expand, map_items. rewrite map_blocks_compose. unfold map_blocks at 1 2. rewrite <- list_fmap_compose.
  apply list_fmap_ext. intros k [F bs] Hk. apply list_elem_of_lookup_2 in Hk. simpl. destruct (decide (F = "main")) as [->|Hne].
  - destruct Hmain as (bs' & Hmain). assert (bs = (B, x :: rest) :: bs') as ->
      by (eapply NoDup_fst_unique; [apply (bo_functions _ Hok)|done..]). rewrite fmap_cons. simpl. rewrite decide_True by done.
    f_equal. f_equal.
    + rewrite Ey. simpl. by rewrite Hy.
    + apply list_fmap_ext. intros j [B' l] Hj. simpl. rewrite decide_False; [done|]. intros [_ ->].
      pose proof (bo_blocks _ Hok _ _ Hmain) as Hnd. rewrite fmap_cons in Hnd. apply NoDup_cons in Hnd as [Hn _]. apply Hn.
      apply list_elem_of_lookup_2 in Hj. by apply (list_elem_of_fmap_2 fst) in Hj.
  - assert (∀ l : list (string * list item),
      ((λ B0 : string * list item, (B0.1, if decide (F = "main" ∧ B0.1 = B) then
        after_phis [Rt (RuntimeCall MEMORYTOOL_PROLOGUE (prologue_args o))] (B0.2 ≫= expand_item log)
        else B0.2 ≫= expand_item log)) <$> l) =
      (λ B0 : string * list item, (B0.1, B0.2 ≫= expand_item log)) <$> l) as E.
    { intros l. apply list_fmap_ext. intros j [B' l''] _. simpl. by rewrite decide_False by naive_solver. }
    destruct bs as [|[B' l] bs]; [done|]. rewrite fmap_cons. cbn [fst snd].
    try (rewrite decide_False by done). f_equal. symmetry. exact (E ((B', l) :: bs)).
Qed.

(** The instructions of the finished module. *)
Definition final_item (F : string) (log : list edit) (x : item) : list item :=
  match anchor_of x with
  | Some a => pre_of log a ++ (if decide (F = "main" ∧ is_exit F x = true) then [Rt (RuntimeCall MEMORYTOOL_EPILOGUE [])] else []) ++
      x :: post_of log a
  | None => [x]
  end.

Lemma plain_no_exit x : plain x = true → is_exit "main" x = false.
Proof. destruct x as [| |[]| |]; done. Qed.

Lemma bind_bind (f g : item → list item) l : (l ≫= f) ≫= g = l ≫= (λ x, f x ≫= g).
Proof. induction l as [|x l IH]; [done|]. by rewrite !bind_cons, bind_app, IH. Qed.

Lemma epilogue_expand base log : clean log →
  insertEpilogue (expand log base) = map_blocks (λ F _ items, items ≫= final_item F log) base.
Proof.
  intros Hclean. unfold insertEpilogue, expand, map_items. rewrite map_blocks_compose. apply map_blocks_ext. intros F B items _.
  cbv beta. case_decide as HF; [subst F; rewrite bind_bind|]; apply bind_ext; intros x _; unfold final_item, expand_item.
  - assert (∀ y, plain y = true → (if is_exit "main" y then [Rt (RuntimeCall MEMORYTOOL_EPILOGUE []); y] else [y]) = [y]) as Hp
      by (intros y Hy; by rewrite plain_no_exit).
    destruct (anchor_of x) as [a|] eqn:Ea; [|by rewrite bind_cons, Hp by (by destruct x)].
    rewrite bind_app, bind_cons, !bind_plain by (done || by apply pre_of_plain || by apply post_of_plain).
    destruct (is_exit "main" x); [by rewrite decide_True|by rewrite decide_False by naive_solver].
  - destruct (anchor_of x); [|done]. by rewrite decide_False by naive_solver.
Qed.

Lemma final_verified base log : base_ok base → log_ok base log →
  verified (map_blocks (λ F _ items, items ≫= final_item F log) base) = Some (map_blocks (λ F _ items, items ≫= final_item F log) base).
Proof.
  intros Hok Hlog. apply verified_blocks. intros F B l' (l & Hl & ->)%in_block_map. pose proof (proj1 Hlog) as Hclean.
  destruct (bo_shape _ Hok F B l Hl) as (phis & body & y & El & Hphis & Hbody & Hy & Ht).
  pose proof (bo_anchored _ Hok F B l Hl) as Ha. rewrite Forall_forall in Ha, Hphis, Hbody.
  assert (∀ x, x ∈ l → ∃ a, anchor_of x = Some a ∧ at_anchor base a F B x) as Hat.
  { intros x Hx. destruct (Ha x Hx) as [a Hxa]. exists a. split; [done|]. by exists l. }
  assert (∀ e : list item, Forall (λ z, plain z = true) e → ∀ P : Prop, ∀ d : Decision P, Forall (λ z, plain z = true) (if d then e else [])) as Hexit
    by (intros e He P []; [done|constructor]).
  rewrite El. apply block_shape_bind; [| |done|done|].
  - apply Forall_forall. intros x Hx. split; [by apply Hphis|].
    assert (x ∈ l) as Hxl by (rewrite El; apply elem_of_app; by left). pose proof (Hphis x Hx) as Hphi.
    pose proof (phi_untouched base log F B l x Hok Hlog Hl Hxl Hphi) as E. destruct (Hat x Hxl) as (a & Hxa & _).
    unfold expand_item in E. unfold final_item. rewrite Hxa in *. destruct (pre_of log a); simpl in E; [|by injection E as -> E; destruct l0].
    rewrite decide_False; [done|]. intros [_ Hex]. destruct x as [i| | | |]; try done. simpl in *. by destruct (i_op i).
  - apply Forall_forall. intros x Hx. split; [by apply Hbody|].
    destruct (Hat x) as (a & Hxa & _); [rewrite El, !elem_of_app; tauto|]. unfold final_item. rewrite Hxa.
    eexists (pre_of log a ++ _), _. rewrite <- app_assoc. split; [done|]. split; [|by apply post_of_plain].
    apply Forall_app. split; [by apply pre_of_plain|]. apply Hexit. by apply Forall_singleton.
  - destruct (Hat y) as (a & Hya & Haty); [rewrite El, !elem_of_app; right; right; by left|].
    unfold final_item. rewrite Hya, (post_of_term base log a F B y) by done. eexists (pre_of log a ++ _). rewrite <- app_assoc.
    split; [done|]. apply Forall_app. split; [by apply pre_of_plain|]. apply Hexit. by apply Forall_singleton.
Qed.
