(* ===== verification/Instrumented.v ===== *)
(** * Instrumented.v: what the instrumented program reports

    The whole of [instrument_state] as edits (Placement.v), and what follows for
    the instrumented program: its reports are those of the accesses to report, in
    the order of the program and right after them; the variables of a function are
    removed before it returns; [main] starts with the prologue and ends with the
    epilogue. *)

From stdpp Require Import pretty.
From S2P Require Import Prelude Helpers OrdMap Objects AllocTable ConnGraph Commit CleanBatch Shadow Batch.
From S2P Require Import Memory Callstack UniqueIds Wrapper RunData PostProcess DebugInfo Types CallGraph Visitor Instrument.
From S2P Require Import Placement.

(** The identifier an inserted call reports an access with. *)
Definition report (x : item) : option Z :=
  match x with
  | Rt (RuntimeCall f (AConst id :: _)) =>
      if decide (f = TEXAS_ADD_WITH_INFO ∨ f = TEXAS_ADD_WITH_INFO_LOAD) then Some id else None
  | _ => None
  end.

(** The calls that tell the runtime of an access: the two that report one, the one
    that sets the state of a range, and the one for what PIN saw. *)
Definition reporting : list string := [TEXAS_ADD_WITH_INFO; TEXAS_ADD_WITH_INFO_LOAD; TEXAS_SET_STATE; PIN_ADD].

Definition is_reporting (r : rt) : bool := match r with RuntimeCall f _ => bool_decide (f ∈ reporting) | _ => false end.

(** The inserted instructions an item executes, those in the blocks of a guard
    included. *)
Definition calls_in (y : item) : list rt := match y with Rt r => [r] | GuardBranch _ wrapped => concat wrapped | _ => [] end.

Definition is_access (x : item) : bool :=
  match x with Orig i => match i_op i with LoadInst _ | StoreInst _ _ _ _ _ => true | _ => false end | _ => false end.

(** An edit that reports no access and puts nothing behind one. *)
Definition quiet (base : mstate) (e : edit) : Prop :=
  omap report (edit_group e) = [] ∧
  (is_after e = true → ∀ F B x, at_anchor base (edit_anchor e) F B x → is_access x = false).

(** An entry that is not that of an access. *)
Definition entry_ok (base : mstate) (group : entry → option (list rt * anchor)) (e : entry) : Prop :=
  ∃ g a F B x, group e = Some (g, a) ∧ insertable base a ∧ at_anchor base a F B x ∧ is_access x = false.

Lemma entry_group_ok base group e : entry_ok base group e → group_ok base group e.
Proof. intros (g & a & F & B & x & ? & ? & _). by exists g, a. Qed.

Lemma check_edit_anchor x a g e : check_edit x a g e → is_after e = true → edit_anchor e = a.
Proof.
  unfold check_edit. destruct x as [i| | | |]; try (by intros ->).
  destruct (i_op i) as [| | | | | | |b]; try (by intros ->); [by intros (a0 & ->)|intros ->; by destruct b].
Qed.

Lemma check_edit_group x a g e : check_edit x a g e → edit_group e = g.
Proof.
  unfold check_edit. destruct x as [i| | | |]; try (by intros ->).
  destruct (i_op i) as [| | | | | | |b]; try (by intros ->); [by intros (a0 & ->)|intros ->; by destruct b].
Qed.

Lemma check_edit_quiet base x a F B (g : list rt) e : base_ok base → at_anchor base a F B x → is_access x = false →
  check_edit x a (Rt <$> g) e → omap report (Rt <$> g) = [] → quiet base e.
Proof.
  intros Hok Hat Hx Hc Hg. split; [by rewrite (check_edit_group _ _ _ _ Hc)|].
  intros Ha F' B' x' Hat'. rewrite (check_edit_anchor _ _ _ _ Hc Ha) in Hat'.
  by destruct (at_anchor_unique base a F B x F' B' x') as (_ & _ & <-).
Qed.

(** The groups of the entries report no access. *)
Definition silent (group : entry → option (list rt * anchor)) : Prop :=
  ∀ e g a, group e = Some (g, a) → omap report (Rt <$> g) = [].

Lemma silent_allocation cs front : silent (allocation_group cs front).
Proof.
  intros e g a H. unfold allocation_group in H. apply bind_Some in H as (p & _ & H).
  apply bind_Some in H as ([c size] & Hc & H). apply bind_Some in H as ([a' arg] & _ & [= <- <-]).
  case_decide; [apply bind_Some in Hc as (s & _ & [= <- <-])|injection Hc as <- <-]; done.
Qed.

Lemma silent_calloc cs : silent (calloc_group cs).
Proof.
  intros e g a H. unfold calloc_group in H. apply bind_Some in H as (p & _ & H). apply bind_Some in H as (s & _ & H).
  apply bind_Some in H as (n & _ & H). destruct (en_value e); try done. by apply bind_Some in H as (c & _ & [= <- <-]).
Qed.

Lemma silent_realloc cs : silent (realloc_group cs).
Proof.
  intros e g a H. unfold realloc_group in H. apply bind_Some in H as (p & _ & H). apply bind_Some in H as (s & _ & H).
  apply bind_Some in H as (n & _ & H). destruct (en_value e); try done. by apply bind_Some in H as (c & _ & [= <- <-]).
Qed.

Lemma silent_unknown cs : silent (unknown_group cs).
Proof.
  intros e g a H. unfold unknown_group in H. destruct (en_value e); try done. by apply bind_Some in H as (c & _ & [= <- <-]).
Qed.

Lemma group_edits_quiet base group entries logs : base_ok base → silent group →
  Forall (entry_ok base group) entries → Forall2 (group_edits base group) entries logs → Forall (quiet base) (concat logs).
Proof.
  intros Hok Hs Hall H. induction H as [|e es l logs (g & a & F & B & x & ed & Eg & Hat & -> & Hc) _ IH]; [constructor|].
  apply Forall_cons in Hall as [(g' & a' & F' & B' & x' & Eg' & _ & Hat' & Hx) Hall]. rewrite Eg in Eg'. injection Eg' as <- <-.
  destruct (at_anchor_unique base a F B x F' B' x') as (_ & _ & <-); [done..|]. cbn [concat]. constructor; [|by apply IH].
  eapply check_edit_quiet; try done. by eapply Hs.
Qed.

Lemma quiet_before base a g : omap report g = [] → quiet base (Before a g).
Proof. by split. Qed.

Lemma quiet_splice base sp : Forall (λ e, ∃ a n v, e = Splice a n (remove_group v)) sp → Forall (quiet base) sp.
Proof. intros H. eapply Forall_impl; [done|]. intros e (a & n & v & ->). by split. Qed.

(** ** Reports *)

Lemma post_of_app log log' a : post_of (log ++ log') a = post_of log' a ++ post_of log a.
Proof.
  induction log' as [|e log' IH] using rev_ind; [by rewrite app_nil_r|].
  rewrite app_assoc, !post_of_snoc, IH. destruct e; simpl; try done. case_decide; [by rewrite app_assoc|done].
Qed.

Lemma quiet_post base log a F B x : Forall (quiet base) log → at_anchor base a F B x → is_access x = true → post_of log a = [].
Proof.
  intros H Hat Hx. induction log as [|e log IH] using rev_ind; [done|]. apply Forall_app in H as [H He].
  rewrite Forall_singleton in He. rewrite post_of_snoc, IH by done. destruct e as [a' g|a' g|a' n g]; try done. simpl.
  case_decide as E; [|done]. exfalso. subst a'. destruct He as [_ He]. rewrite (He eq_refl F B x) in Hx; done.
Qed.

Lemma omap_Forall_nil {A B} (f : A → option B) l : omap f l = [] ↔ Forall (λ x, f x = None) l.
Proof.
  induction l as [|x l IH]; [done|]. rewrite omap_cons_app, Forall_cons. destruct (f x) eqn:E; simpl; [naive_solver|]. rewrite IH. naive_solver.
Qed.

Lemma quiet_pre_reports base log a : Forall (quiet base) log → omap report (pre_of log a) = [].
Proof.
  intros H. apply omap_Forall_nil, pre_of_Forall. eapply Forall_impl; [done|]. intros e [He _]. by apply omap_Forall_nil.
Qed.

Lemma quiet_post_reports base log a : Forall (quiet base) log → omap report (post_of log a) = [].
Proof.
  intros H. apply omap_Forall_nil, post_of_Forall. eapply Forall_impl; [done|]. intros e [He _] _. by apply omap_Forall_nil.
Qed.

Lemma post_of_nil log a : Forall (λ e, is_after e = true → edit_anchor e ≠ a) log → post_of log a = [].
Proof.
  intros H. induction log as [|e log IH] using rev_ind; [done|]. apply Forall_app in H as [H He].
  rewrite Forall_singleton in He. rewrite post_of_snoc, IH by done. destruct e as [a' g|a' g|a' n g]; try done. simpl.
  rewrite decide_False; [done|]. by apply He.
Qed.

Lemma regular_post_other base skip m logs I : Forall2 (regular_edits base skip) m logs → I ∉ m.*1 →
  post_of (concat logs) (AtInst I) = [].
Proof.
  induction 1 as [|[I' e'] es m logs (F & B & i & g & _ & _ & ->) _ IH]; [done|]. rewrite fmap_cons, not_elem_of_cons.
  cbn [fst snd concat]. intros [Hne Hn]. rewrite post_of_app, IH by done. apply post_of_nil.
  case_decide; [constructor|]. apply Forall_singleton. simpl. intros _ [= E]. by destruct Hne.
Qed.

(** The text the reporting stage puts after an instruction. *)
Lemma regular_post base skip m logs I e F B i g : base_ok base → Forall2 (regular_edits base skip) m logs → NoDup m.*1 →
  (I, e) ∈ m → at_anchor base (AtInst I) F B (Orig i) → access_group F i e = Some g →
  post_of (concat logs) (AtInst I) = if decide (I ∈ skip) then [] else Rt <$> g.
Proof.
  intros Hok H Hnd Hin Hat Hg. induction H as [|[I' e'] es m logs Hes Hrest IH]; [by apply elem_of_nil in Hin|].
  rewrite fmap_cons in Hnd. apply NoDup_cons in Hnd as [Hn Hnd]. cbn [concat]. rewrite post_of_app.
  destruct Hes as (F' & B' & i' & g' & Hat' & Hg' & ->). cbn [fst snd] in *. apply elem_of_cons in Hin as [[= <- <-]|Hin].
  - destruct (at_anchor_unique base (AtInst I) F B (Orig i) F' B' (Orig i')) as (<- & _ & [= <-]); [done..|].
    rewrite (regular_post_other base skip m logs I) by done.
    rewrite Hg in Hg'. injection Hg' as <-. case_decide; [done|]. unfold post_of. simpl. rewrite decide_True by done. by rewrite app_nil_r.
  - rewrite IH by done. assert (post_of (if decide (I' ∈ skip) then [] else [After (AtInst I') (Rt <$> g')]) (AtInst I) = []) as ->.
    { apply post_of_nil. destruct (decide (I' ∈ skip)); [constructor|]. apply Forall_singleton. simpl. intros _ [= ->]. apply Hn.
      by apply (list_elem_of_fmap_2 fst) in Hin. }
    by rewrite app_nil_r.
Qed.

(** ** The whole of it *)

Section pipeline.
  Context (M : modul) (x : instrumentation).

Definition base_of : mstate := insertCallstacks (in_callstacks x) (module_items M).

(** What the visitor and the analyses give: entries at instructions of the module,
    in functions with a callstack. *)
Record input_ok (base : mstate) : Prop := {
  io_allocations : Forall (entry_ok base (allocation_group (in_callstacks x) (AtCallstack "main"))) (allocations (in_visitor x));
  io_callocs : Forall (entry_ok base (calloc_group (in_callstacks x))) (callocs (in_visitor x));
  io_reallocs : Forall (entry_ok base (realloc_group (in_callstacks x))) (reallocs (in_visitor x));
  io_unknowns : Forall (entry_ok base (unknown_group (in_callstacks x))) (unknowns (in_visitor x));
  io_accesses : Forall (access_ok base (in_callstacks x)) (in_instToEntryMap x);
  io_keys : NoDup (in_instToEntryMap x).*1;
  io_onlyRead : Forall (λ I, ∃ e addr, (I, e) ∈ in_instToEntryMap x ∧ en_allocPointer e = Some addr) (in_onlyRead x);
  io_directState : Forall (λ elem, ∃ e, (ds_inst elem, e) ∈ in_instToEntryMap x) (in_directState x);
  io_deallocs : Forall (λ Fi, ∃ F B v c o, at_anchor base (AtInst (i_id Fi.2)) F B (Orig Fi.2) ∧ i_op Fi.2 = CallInst c o ∧
    first_operand Fi.2 = Some v) (deallocs (in_visitor x));
  io_returns : Forall (λ Fi, ∃ B, at_anchor base (AtInst (i_id Fi.2)) Fi.1 B (Orig Fi.2) ∧ i_op Fi.2 = ReturnInst) (returns (in_visitor x));
  io_invokes : Forall (λ Fi, ∃ c o nd unwindDest items, i_op Fi.2 = InvokeInst c o nd unwindDest ∧
    in_block base Fi.1 unwindDest items) (invokes (in_visitor x));
}.

Definition prologue_edit : edit :=
  Splice (AtCallstack "main") 0 [Rt (RuntimeCall MEMORYTOOL_PROLOGUE (prologue_args (in_options x)))].

Lemma expand_nil base : expand [] base = base.
Proof.
  unfold expand, map_items, map_blocks. rewrite <- (list_fmap_id base) at 2. apply list_fmap_ext. intros _ [F bs] _. simpl. f_equal.
  rewrite <- (list_fmap_id bs) at 2. apply list_fmap_ext. intros _ [B items] _. simpl. f_equal.
  induction items as [|y items IH]; [done|]. rewrite bind_cons, IH. unfold expand_item. by destruct (anchor_of y).
Qed.

Lemma log_ok_nil base : log_ok base [].
Proof. split; constructor. Qed.

Lemma guards_quiet {A} base (I : A → Z) l logs : Forall2 (λ y, guard_edits (I y)) l logs → Forall (quiet base) (concat logs).
Proof.
  induction 1 as [|y es l logs [->|(k & addr & calls & ->)] _ IH]; [constructor|done|]. cbn [concat]. constructor; [|done].
  by apply quiet_before.
Qed.

Lemma unknowns_quiet base cs entries logs : base_ok base → Forall (entry_ok base (unknown_group cs)) entries →
  Forall2 (λ e es, ∃ g a F B x ed, unknown_group cs e = Some (g, a) ∧ at_anchor base a F B x ∧
    es = [Before a [Rt (RuntimeCall PIN_START_TRACKING [])]; ed] ∧ check_edit x a (Rt <$> g) ed) entries logs →
  Forall (quiet base) (concat logs).
Proof.
  intros Hok Hall H. induction H as [|e es l logs (g & a & F & B & y & ed & Eg & Hat & -> & Hc) _ IH]; [constructor|].
  apply Forall_cons in Hall as [(g' & a' & F' & B' & y' & Eg' & _ & Hat' & Hy) Hall]. rewrite Eg in Eg'. injection Eg' as <- <-.
  destruct (at_anchor_unique base a F B y F' B' y') as (_ & _ & <-); [done..|]. cbn [concat].
  constructor; [by apply quiet_before|]. constructor; [|by apply IH]. eapply check_edit_quiet; try done. by eapply silent_unknown.
Qed.

Lemma map_lookup I e : NoDup (in_instToEntryMap x).*1 → (I, e) ∈ in_instToEntryMap x →
  (list_to_map (in_instToEntryMap x) : gmap Z entry) !! I = Some e.
Proof. intros. by apply elem_of_list_to_map. Qed.

(** An edit whose reporting calls belong to the access it is at: they pass the
    identifier of its entry, and in front of it they are in the blocks of a guard. *)
Definition told (e : edit) : Prop := ∀ y r, y ∈ edit_group e → r ∈ calls_in y → is_reporting r = true →
  (∃ I e' f args, edit_anchor e = AtInst I ∧ (I, e') ∈ in_instToEntryMap x ∧
    r = RuntimeCall f (AConst (en_id (en_debug e')) :: args)) ∧
  (is_after e = false → ∃ k wrapped, y = GuardBranch k wrapped).

Lemma told_mute e (g : list rt) : edit_group e = Rt <$> g → Forall (λ r, is_reporting r = false) g → told e.
Proof.
  intros Eg Hg y r Hy Hr Hrep. rewrite Eg in Hy. apply list_elem_of_fmap in Hy as (r' & -> & Hr').
  apply list_elem_of_singleton in Hr as ->. rewrite Forall_forall in Hg. rewrite (Hg r') in Hrep; done.
Qed.

Lemma told_groups base group entries logs : (∀ e g a, group e = Some (g, a) → Forall (λ r, is_reporting r = false) g) →
  Forall2 (group_edits base group) entries logs → Forall told (concat logs).
Proof.
  intros Hs H. induction H as [|e es l logs (g & a & F & B & y & ed & Eg & _ & -> & Hc) _ IH]; [constructor|].
  cbn [concat]. constructor; [|done]. eapply told_mute; [by eapply check_edit_group|by eapply Hs].
Qed.

Lemma allocation_mute cs front e g a : allocation_group cs front e = Some (g, a) → Forall (λ r, is_reporting r = false) g.
Proof.
  intros H. unfold allocation_group in H. apply bind_Some in H as (p & _ & H).
  apply bind_Some in H as ([c size] & Hc & H). apply bind_Some in H as ([a' arg] & _ & [= <- <-]).
  case_decide; [apply bind_Some in Hc as (s & _ & [= <- <-])|injection Hc as <- <-]; by repeat constructor.
Qed.

Lemma calloc_mute cs e g a : calloc_group cs e = Some (g, a) → Forall (λ r, is_reporting r = false) g.
Proof.
  intros H. unfold calloc_group in H. apply bind_Some in H as (p & _ & H). apply bind_Some in H as (s & _ & H).
  apply bind_Some in H as (n & _ & H). destruct (en_value e); try done. apply bind_Some in H as (c & _ & [= <- <-]). by repeat constructor.
Qed.

Lemma realloc_mute cs e g a : realloc_group cs e = Some (g, a) → Forall (λ r, is_reporting r = false) g.
Proof.
  intros H. unfold realloc_group in H. apply bind_Some in H as (p & _ & H). apply bind_Some in H as (s & _ & H).
  apply bind_Some in H as (n & _ & H). destruct (en_value e); try done. apply bind_Some in H as (c & _ & [= <- <-]). by repeat constructor.
Qed.

Lemma access_told F i e g : access_group F i e = Some g → ∀ r, r ∈ g → is_reporting r = true →
  ∃ f args, r = RuntimeCall f (AConst (en_id (en_debug e)) :: args).
Proof.
  unfold access_group. intros H r Hr Hrep. destruct (i_op i); try done; injection H as <-;
    (apply elem_of_cons in Hr as [->|Hr]; [done|]; apply list_elem_of_singleton in Hr as ->; by eexists _, _).
Qed.

Lemma createCallToRuntime_told elem s w F e r : r ∈ createCallToRuntime elem s w F e → is_reporting r = true →
  ∃ f args, r = RuntimeCall f (AConst (en_id (en_debug e)) :: args).
Proof.
  unfold createCallToRuntime. intros Hr Hrep. apply elem_of_cons in Hr as [->|Hr]; [done|].
  rewrite !elem_of_app, list_elem_of_singleton in Hr. destruct Hr as [Hr|[Hr| ->]]; [| |by eexists _, _].
  - destruct (ds_startIndVar elem); [apply list_elem_of_singleton in Hr as ->|apply elem_of_nil in Hr]; done.
  - destruct (ds_stopIndVar elem); [apply list_elem_of_singleton in Hr as ->|apply elem_of_nil in Hr]; done.
Qed.

(** The one edit of a guard. *)
Lemma told_guard I e k addr calls : (I, e) ∈ in_instToEntryMap x →
  (∀ g r, g ∈ calls → r ∈ g → is_reporting r = true → ∃ f args, r = RuntimeCall f (AConst (en_id (en_debug e)) :: args)) →
  told (Before (AtInst I) [GuardTest k addr; GuardBranch k calls]).
Proof.
  intros He Hcalls y r Hy Hr Hrep. simpl in Hy. apply elem_of_cons in Hy as [->|Hy]; [by apply elem_of_nil in Hr|].
  apply list_elem_of_singleton in Hy as ->. simpl in Hr. apply list_elem_of_In, in_concat in Hr as (g & Hg & Hr).
  destruct (Hcalls g r) as (f & args & ->); [by apply list_elem_of_In..|done|].
  split; [by exists I, e, f, args|]. intros _. by eexists _, _.
Qed.

Lemma told_onlyRead base l logs : NoDup (in_instToEntryMap x).*1 →
  Forall2 (onlyRead_edits base (list_to_map (in_instToEntryMap x))) l logs → Forall told (concat logs).
Proof.
  intros Hnd. induction 1 as [|I es l logs (e & addr & F & B & i & g & He & _ & _ & Hg & ->) _ IH]; [constructor|].
  cbn [concat]. constructor; [|done]. apply elem_of_list_to_map_2 in He. eapply told_guard; [exact He|].
  intros g' r ->%list_elem_of_singleton. by eapply access_told.
Qed.

Lemma told_direct base w l logs : NoDup (in_instToEntryMap x).*1 →
  Forall2 (direct_edits base w (list_to_map (in_instToEntryMap x))) l logs → Forall told (concat logs).
Proof.
  intros Hnd. induction 1 as [|elem es l logs (e & F & B & i & b & He & _ & _ & ->) _ IH]; [constructor|].
  cbn [concat]. apply Forall_app. split; [|done]. destruct (direct_group elem b F e) as [[k calls]|] eqn:Ek; [|constructor].
  apply Forall_singleton. apply elem_of_list_to_map_2 in He. eapply told_guard; [exact He|]. intros g r Hg.
  assert (∃ st, g = createCallToRuntime elem st b F e) as (st & ->); [|apply createCallToRuntime_told].
  unfold direct_group in Ek. repeat case_decide; try destruct (ds_startIndVar elem); simplify_eq;
    apply list_elem_of_In in Hg; simpl in Hg; naive_solver.
Qed.

Lemma told_regular base skip m logs : m ⊆ in_instToEntryMap x → Forall2 (regular_edits base skip) m logs → Forall told (concat logs).
Proof.
  intros Hsub H. induction H as [|[I e] es m logs (F & B & i & g & _ & Hg & ->) _ IH]; [constructor|].
  cbn [concat fst snd] in *. apply Forall_app. split; [|apply IH; intros z Hz; apply Hsub; by right].
  case_decide; [constructor|]. apply Forall_singleton. intros y r Hy Hr Hrep. simpl in Hy.
  apply list_elem_of_fmap in Hy as (r' & -> & Hr'). apply list_elem_of_singleton in Hr as ->.
  destruct (access_told F i e g Hg r') as (f & args & ->); [done..|]. split; [|done]. exists I, e, f, args.
  split; [done|]. split; [apply Hsub; by left|done].
Qed.

Lemma remove_mute v : Forall (λ r, is_reporting r = false) [PointerCast v; RuntimeCall TEXAS_REMOVE [APointerCast v]].
Proof. by repeat constructor. Qed.

Lemma told_returns m l : Forall told (returns_log m l).
Proof.
  unfold returns_log. induction l as [|Fi l IH]; [constructor|]. rewrite bind_cons. apply Forall_app. split; [|done].
  apply Forall_fmap, Forall_forall. intros v _. eapply told_mute; [reflexivity|apply remove_mute].
Qed.

Lemma told_splice sp : Forall is_splice sp → Forall told sp.
Proof. intros H. eapply Forall_impl; [exact H|]. intros e (a & n & v & ->). eapply told_mute; [reflexivity|apply remove_mute]. Qed.

Lemma told_deallocs (l : list (string * inst)) logs :
  Forall2 (λ (Fi : string * inst) es, ∃ v, es = [After (AtInst (i_id Fi.2)) (remove_group v)]) l logs → Forall told (concat logs).
Proof.
  induction 1 as [|Fi es l logs (v & ->) _ IH]; [constructor|]. cbn [concat]. constructor; [|done].
  eapply told_mute; [reflexivity|apply remove_mute].
Qed.

(** Up to the guards. *)
Definition first_stages (st : mstate) : option mstate :=
  let v := in_visitor x in
  let cs := in_callstacks x in
  let map := list_to_map (in_instToEntryMap x) in
  st ← verified st;
  st ← instrumentAllocations cs (allocations v) st; st ← verified st;
  st ← instrumentCallocs cs (callocs v) st; st ← verified st;
  st ← instrumentReallocs cs (reallocs v) st; st ← verified st;
  st ← instrumentUnkowns cs (tracked_unknowns x) st; st ← verified st;
  st ← instrumentOnlyReads cs map (in_onlyRead x) st; st ← verified st;
  st ← instrumentDirectStateLoadStore cs (in_loadBitwidth x) map (in_directState x) st; verified st.

(** The guards of the accesses the analyses took over. *)
Record has_guards (base : mstate) (log : list edit) : Prop := {
  hg_onlyRead : ∀ I, I ∈ in_onlyRead x → ∃ es, onlyRead_edits base (list_to_map (in_instToEntryMap x)) I es ∧ es ⊆ log;
  hg_directState : ∀ elem, elem ∈ in_directState x → ∃ es,
    direct_edits base (in_loadBitwidth x) (list_to_map (in_instToEntryMap x)) elem es ∧ es ⊆ log;
}.

Lemma has_guards_app base log log1 log2 : has_guards base log → has_guards base (log1 ++ log ++ log2).
Proof.
  intros [H1 H2]. split.
  - intros I HI. destruct (H1 I HI) as (es & He & Hs). exists es. split; [done|]. set_solver.
  - intros elem HI. destruct (H2 elem HI) as (es & He & Hs). exists es. split; [done|]. set_solver.
Qed.

Lemma Forall2_concat {A B} (P : A → list B → Prop) l ls a : Forall2 P l ls → a ∈ l → ∃ es, P a es ∧ es ⊆ concat ls.
Proof.
  induction 1 as [|a' es l ls Ha _ IH]; intros Hin; [by apply elem_of_nil in Hin|]. cbn [concat].
  apply elem_of_cons in Hin as [->|Hin]; [exists es; set_solver|]. destruct (IH Hin) as (es' & ? & ?). exists es'. set_solver.
Qed.

Lemma tracked_unknowns_ok base : input_ok base → Forall (entry_ok base (unknown_group (in_callstacks x))) (tracked_unknowns x).
Proof. intros Hin. unfold tracked_unknowns. destruct (in_disablePin x); [constructor|apply Hin]. Qed.

Lemma first_stages_expand base B c rest : base_ok base → input_ok base → entry_block base "main" B (Callstack "main" c :: rest) →
  ∃ La Lo, first_stages base = Some (expand (concat La ++ Lo) base) ∧ log_ok base (concat La ++ Lo) ∧
    Forall2 (group_edits base (allocation_group (in_callstacks x) (AtCallstack "main"))) (allocations (in_visitor x)) La ∧
    Forall (quiet base) (concat La ++ Lo) ∧ has_guards base Lo ∧ (in_disablePin x = true → Forall told (concat La ++ Lo)).
Proof.
  intros Hok Hin Hmain. unfold first_stages. cbv zeta.
  assert (verified base = Some base) as -> by (rewrite <- (expand_nil base); apply expand_verified; [done|apply log_ok_nil]).
  cbn [mbind option_bind].
  assert (∀ (P : entry → Prop) group l, Forall (entry_ok base group) l → Forall (group_ok base group) l) as Hgo.
  { intros _ group l H. eapply Forall_impl; [done|]. apply entry_group_ok. }
  destruct (groups_expand base (allocation_group (in_callstacks x) (AtCallstack "main")) (allocations (in_visitor x)) []) as (La & E1 & Hla & Ra);
    [done|apply log_ok_nil|apply (Hgo (λ _, True)), Hin|]. rewrite expand_nil in E1. simpl in E1.
  assert (instrumentAllocations (in_callstacks x) (allocations (in_visitor x)) base = Some (expand (concat La) base)) as ->.
  { unfold instrumentAllocations. pose proof (firstInst_expand base "main" B (Callstack "main" c) rest [] Hok Hmain) as Hf.
    rewrite expand_nil in Hf. rewrite bind_cons in Hf. simpl in Hf. rewrite Hf. simpl. destruct (allocations (in_visitor x)); [|exact E1].
    by simpl in E1. }
  cbn [mbind option_bind]. rewrite expand_verified by done. cbn [mbind option_bind].
  destruct (groups_expand base (calloc_group (in_callstacks x)) (callocs (in_visitor x)) (concat La)) as (Lc & E2 & Hlc & Rc);
    [done|done|apply (Hgo (λ _, True)), Hin|]. unfold instrumentCallocs. rewrite E2. cbn [mbind option_bind].
  rewrite expand_verified by (done || by repeat apply log_ok_app). cbn [mbind option_bind].
  destruct (groups_expand base (realloc_group (in_callstacks x)) (reallocs (in_visitor x)) (concat La ++ concat Lc)) as (Lre & E3 & Hlre & Rre);
    [done|by apply log_ok_app|apply (Hgo (λ _, True)), Hin|]. unfold instrumentReallocs. rewrite E3. cbn [mbind option_bind].
  rewrite expand_verified by (done || by repeat apply log_ok_app). cbn [mbind option_bind].
  destruct (unknowns_expand base (in_callstacks x) (tracked_unknowns x) ((concat La ++ concat Lc) ++ concat Lre)) as (Lu & -> & Hlu & Ru);
    [done|by repeat apply log_ok_app|apply (Hgo (λ _, True)), (tracked_unknowns_ok base), Hin|]. cbn [mbind option_bind].
  rewrite expand_verified by (done || by repeat apply log_ok_app). cbn [mbind option_bind].
  destruct (onlyReads_expand base (in_callstacks x) (list_to_map (in_instToEntryMap x)) (in_onlyRead x)
    (((concat La ++ concat Lc) ++ concat Lre) ++ concat Lu)) as (Lo & -> & Hlo & Ro); [done|by repeat apply log_ok_app| |].
  { eapply Forall_impl; [apply Hin|]. intros I (e & addr & He & Ha). exists e, addr. split; [apply map_lookup; [apply Hin|done]|].
    split; [done|]. pose proof (io_accesses _ Hin) as Hacc. rewrite Forall_forall in Hacc. by apply Hacc. }
  cbn [mbind option_bind]. rewrite expand_verified by (done || by repeat apply log_ok_app). cbn [mbind option_bind].
  destruct (directState_expand base (in_callstacks x) (in_loadBitwidth x) (list_to_map (in_instToEntryMap x)) (in_directState x)
    ((((concat La ++ concat Lc) ++ concat Lre) ++ concat Lu) ++ concat Lo)) as (Ld & -> & Hld & Rd); [done|by repeat apply log_ok_app| |].
  { eapply Forall_impl; [apply Hin|]. intros elem (e & He). exists e. split; [apply map_lookup; [apply Hin|done]|].
    pose proof (io_accesses _ Hin) as Hacc. rewrite Forall_forall in Hacc. by apply Hacc. }
  cbn [mbind option_bind]. rewrite expand_verified by (done || by repeat apply log_ok_app).
  exists La, (concat Lc ++ concat Lre ++ concat Lu ++ concat Lo ++ concat Ld). rewrite <- !app_assoc.
  split; [done|]. split; [by repeat apply log_ok_app|]. split; [done|]. split; [rewrite !Forall_app; split_and!|].
  - eapply group_edits_quiet; [done|apply silent_allocation|apply Hin|done].
  - eapply group_edits_quiet; [done|apply silent_calloc|apply Hin|done].
  - eapply group_edits_quiet; [done|apply silent_realloc|apply Hin|done].
  - eapply unknowns_quiet; [done|by apply (tracked_unknowns_ok base)|done].
  - eapply (guards_quiet base id), Forall2_impl; [exact Ro|]. intros I es. apply onlyRead_guard.
  - eapply guards_quiet, Forall2_impl; [exact Rd|]. intros elem es. apply direct_guard.
  - split; [split|].
    + intros I HI. destruct (Forall2_concat _ _ _ I Ro HI) as (es & ? & Hs). exists es. split; [done|]. clear -Hs. set_solver.
    + intros elem HI. destruct (Forall2_concat _ _ _ elem Rd HI) as (es & ? & Hs). exists es. split; [done|]. clear -Hs. set_solver.
    + intros Hpin. rewrite !Forall_app. unfold tracked_unknowns in Ru. rewrite Hpin in Ru. apply Forall2_nil_inv_l in Ru as ->.
      pose proof (io_keys _ Hin) as Hnd. split_and!; [| | |constructor| |].
      * eapply told_groups; [apply allocation_mute|done].
      * eapply told_groups; [apply calloc_mute|done].
      * eapply told_groups; [apply realloc_mute|done].
      * by eapply told_onlyRead.
      * by eapply told_direct.
Qed.

(** The edits of the whole pass. *)
Record pass_log (base : mstate) (log : list edit) : Prop := {
  pl_ok : log_ok base log;
  pl_guards : has_guards base log;
  pl_told : in_disablePin x = true → Forall told log;
  pl_parts : ∃ La Lo Lr Ld sp,
    log = (concat La ++ Lo) ++ concat Lr ++ Ld ++ returns_log (functionAllocaMap (in_visitor x)) (returns (in_visitor x)) ++
      sp ++ [prologue_edit] ∧
    Forall2 (group_edits base (allocation_group (in_callstacks x) (AtCallstack "main"))) (allocations (in_visitor x)) La ∧
    Forall (quiet base) (concat La ++ Lo) ∧ Forall2 (regular_edits base (in_instsToSkip x)) (in_instToEntryMap x) Lr ∧
    Forall (quiet base) Ld ∧ Forall is_splice sp ∧ Forall (quiet base) sp;
}.

Lemma deallocs_quiet base l logs : base_ok base →
  Forall (λ Fi, ∃ F B v c o, at_anchor base (AtInst (i_id Fi.2)) F B (Orig Fi.2) ∧ i_op Fi.2 = CallInst c o ∧
    first_operand Fi.2 = Some v) l →
  Forall2 (λ (Fi : string * inst) es, ∃ v, es = [After (AtInst (i_id Fi.2)) (remove_group v)]) l logs → Forall (quiet base) (concat logs).
Proof.
  intros Hok Hall H. induction H as [|Fi es l logs (v & ->) _ IH]; [constructor|].
  apply Forall_cons in Hall as [(F & B & v' & c & o & Hat & Hop & _) Hall]. cbn [concat]. constructor; [|by apply IH].
  split; [done|]. simpl. intros _ F' B' y Hat'.
  destruct (at_anchor_unique base (AtInst (i_id Fi.2)) F B (Orig Fi.2) F' B' y) as (_ & _ & <-); [done..|]. simpl. by rewrite Hop.
Qed.

Lemma runOnModule_expand B c rest :
  base_ok base_of → input_ok base_of → entry_block base_of "main" B (Callstack "main" c :: rest) →
  cycleFinding x = false → in_disableAllInstrumentation x = false →
  ∃ log, runOnModule M x = Some (map_blocks (λ F _ items, items ≫= final_item F log) base_of) ∧ pass_log base_of log.
Proof.
  intros Hok Hin Hmain Hcycle Hdis.
  destruct (first_stages_expand base_of B c rest Hok Hin Hmain) as (La & Lo & E1 & Hl1 & Ra & Q1 & Hg & Ht).
  unfold runOnModule, instrument_state. rewrite Hdis, Hcycle. cbv zeta. rewrite (callstacks_verified (in_callstacks x)) by exact Hok.
  cbn [mbind option_bind]. fold base_of. unfold first_stages in E1. cbv zeta in E1.
  repeat (let s := fresh "s" in apply bind_Some in E1 as (s & -> & E1); cbn [mbind option_bind]). rewrite E1. cbn [mbind option_bind]. clear E1.
  set (L1 := concat La ++ Lo) in *.
  destruct (regular_expand base_of (in_callstacks x) (in_instToEntryMap x) (in_instsToSkip x) L1) as (Lr & -> & Hlr & Rr);
    [done|done|apply Hin|]. cbn [mbind option_bind]. rewrite expand_verified by (done || by apply log_ok_app). cbn [mbind option_bind].
  destruct (deallocs_expand base_of (deallocs (in_visitor x)) (L1 ++ concat Lr)) as (Ld & -> & Hld & Rd);
    [done|by apply log_ok_app|apply Hin|]. cbn [mbind option_bind].
  rewrite expand_verified by (done || by apply log_ok_app; [apply log_ok_app|]). cbn [mbind option_bind].
  destruct (returns_expand base_of (returns (in_visitor x)) (functionAllocaMap (in_visitor x)) ((L1 ++ concat Lr) ++ concat Ld)) as [-> Hl2].
  { apply log_ok_app; [by apply log_ok_app|done]. }
  { eapply Forall_impl; [apply Hin|]. intros Fi (B' & Hat & Hop). exists Fi.1, B', (Orig Fi.2). simpl. rewrite Hop. by split_and!. }
  rewrite expand_verified by done. cbn [mbind option_bind].
  destruct (invokes_expand base_of (invokes (in_visitor x)) (functionAllocaMap (in_visitor x)) _ Hok Hl2) as (sp & -> & Hl3 & Hsp);
    [apply Hin|]. rewrite expand_verified by done. cbn [mbind option_bind].
  destruct (prologue_expand base_of B (Callstack "main" c) rest (AtCallstack "main") (in_options x) _ Hok Hl3 Hmain) as [-> Hl4]; [done..|].
  cbn [mbind option_bind]. pose proof (log_ok_app _ _ _ Hl3 Hl4) as Hl5. rewrite expand_verified by done. cbn [mbind option_bind].
  rewrite epilogue_expand by apply Hl5. rewrite final_verified by done.
  eexists. split; [reflexivity|]. split; [done|unfold L1; rewrite <- !app_assoc; by apply has_guards_app| |].
  { intros Hpin. rewrite !Forall_app. split_and!; [|by eapply told_regular|by eapply told_deallocs|apply told_returns|by apply told_splice|].
    - by apply Ht.
    - apply Forall_singleton. by eapply (told_mute _ [RuntimeCall MEMORYTOOL_PROLOGUE (prologue_args (in_options x))]); [|repeat constructor]. }
  exists La, Lo, Lr, (concat Ld), sp. fold L1. rewrite <- !app_assoc. split_and!; try done.
  - eapply deallocs_quiet; [done|apply Hin|done].
  - by apply quiet_splice.
Qed.

(** *** The text around an instruction *)

Lemma pre_of_quiet log a : Forall (λ e, is_after e = false → omap report (edit_group e) = []) log → omap report (pre_of log a) = [].
Proof.
  intros H. apply omap_Forall_nil. induction log as [|e log IH] using rev_ind; [constructor|].
  apply Forall_app in H as [H He]. rewrite Forall_singleton in He. specialize (IH H). rewrite pre_of_snoc.
  destruct e as [a' g|a' g|a' n g]; simpl in *; [done| |]; case_decide; try done; specialize (He eq_refl); apply omap_Forall_nil in He.
  - by apply Forall_app.
  - rewrite !Forall_app. split; [by apply Forall_take|]. split; [done|by apply Forall_drop].
Qed.

Lemma regular_after base skip m Lr : Forall2 (regular_edits base skip) m Lr →
  Forall (λ e, is_after e = true ∧ ∃ I, edit_anchor e = AtInst I) (concat Lr).
Proof.
  induction 1 as [|Ie es m Lr (F & B & i & g & _ & _ & ->) _ IH]; [constructor|]. cbn [concat]. apply Forall_app. split; [|done].
  case_decide; [constructor|]. apply Forall_singleton. split; [done|by eexists].
Qed.

Lemma no_after_post log a : Forall (λ e, is_after e = false) log → post_of log a = [].
Proof. intros H. apply post_of_nil. eapply Forall_impl; [done|]. intros e He Ha. congruence. Qed.

Lemma returns_log_before m l : Forall (λ e, is_after e = false ∧ omap report (edit_group e) = []) (returns_log m l).
Proof.
  unfold returns_log. induction l as [|Fi l IH]; [constructor|]. rewrite bind_cons. apply Forall_app. split; [|done].
  apply Forall_fmap, Forall_forall. by intros a _.
Qed.

(** The text after an instruction: that of the stages before the reports, the
    report, and that of the deallocations. *)
Lemma pass_post base log a : pass_log base log → ∃ La Lo Lr Ld,
  post_of log a = post_of Ld a ++ post_of (concat Lr) a ++ post_of (concat La ++ Lo) a ∧
  Forall2 (group_edits base (allocation_group (in_callstacks x) (AtCallstack "main"))) (allocations (in_visitor x)) La ∧
  Forall (quiet base) (concat La ++ Lo) ∧ Forall (quiet base) Ld ∧
  Forall2 (regular_edits base (in_instsToSkip x)) (in_instToEntryMap x) Lr.
Proof.
  intros [_ _ _ (La & Lo & Lr & Ld & sp & -> & Ra & Q1 & Rr & Qd & Hsp & _)]. exists La, Lo, Lr, Ld. split; [|done].
  set (L1 := concat La ++ Lo). set (rest := returns_log _ _ ++ sp ++ [prologue_edit]).
  assert (post_of rest a = []) as Er.
  { apply no_after_post. apply Forall_app. split; [eapply Forall_impl; [apply returns_log_before|by intros e []]|].
    apply Forall_app. split; [|by apply Forall_singleton]. eapply Forall_impl; [exact Hsp|]. by intros e (b & n & v & ->). }
  rewrite (post_of_app L1), (post_of_app (concat Lr)), (post_of_app Ld), Er. by rewrite <- app_assoc.
Qed.

Lemma pass_pre_reports base log a : pass_log base log → omap report (pre_of log a) = [].
Proof.
  intros [_ _ _ (La & Lo & Lr & Ld & sp & -> & _ & Q1 & Rr & Qd & _ & Qs)]. apply pre_of_quiet.
  assert (∀ l, Forall (quiet base) l → Forall (λ e, is_after e = false → omap report (edit_group e) = []) l) as Hq.
  { intros l H. eapply Forall_impl; [exact H|]. by intros e [He _] _. }
  repeat (apply Forall_app; split); try (by apply Hq).
  - apply Forall_app in Q1 as [Q _]. by apply Hq.
  - apply Forall_app in Q1 as [_ Q]. by apply Hq.
  - eapply Forall_impl; [by eapply regular_after|]. intros e [He _] Hf. congruence.
  - eapply Forall_impl; [apply returns_log_before|]. by intros e [_ He] _.
  - by apply Forall_singleton.
Qed.

(** Whether and with which identifier an instruction is reported. *)
Definition selected (i : inst) : option Z :=
  if decide (i_id i ∈ in_instsToSkip x) then None
  else e ← (list_to_map (in_instToEntryMap x) : gmap Z entry) !! i_id i; Some (en_id (en_debug e)).

Lemma access_group_reports F i e g : access_group F i e = Some g → omap report (Rt <$> g) = [en_id (en_debug e)].
Proof. unfold access_group. intros H. destruct (i_op i); try done; by injection H as <-. Qed.

Lemma pass_post_reports log y F B : base_ok base_of → input_ok base_of → pass_log base_of log →
  (∃ l, in_block base_of F B l ∧ y ∈ l) →
  ∀ a, anchor_of y = Some a → omap report (post_of log a) = option_list (is_orig y ≫= selected).
Proof.
  intros Hok Hin Hlog (l & Hl & Hy) a Ha. destruct (pass_post base_of log a Hlog) as (La & Lo & Lr & Ld & -> & _ & Q1 & Qd & Rr).
  rewrite !omap_app, (quiet_post_reports _ _ _ Q1), (quiet_post_reports _ _ _ Qd), app_nil_r. simpl.
  destruct y as [i|G c| | |]; try done; injection Ha as <-; simpl.
  2: { rewrite post_of_nil; [done|]. eapply Forall_impl; [by eapply regular_after|]. intros e [_ [I ->]]. done. }
  unfold selected. destruct ((list_to_map (in_instToEntryMap x) : gmap Z entry) !! i_id i) as [e|] eqn:Ee.
  - apply elem_of_list_to_map_2 in Ee. pose proof (io_accesses _ Hin) as Hacc. rewrite Forall_forall in Hacc.
    destruct (Hacc _ Ee) as (_ & F' & B' & i' & Hat & [g Hg] & _). cbn [fst snd] in *.
    assert (at_anchor base_of (AtInst (i_id i)) F B (Orig i)) as Hat0 by (by exists l).
    destruct (at_anchor_unique _ _ _ _ _ _ _ _ Hok Hat Hat0) as (-> & -> & [= ->]).
    rewrite (regular_post base_of (in_instsToSkip x) (in_instToEntryMap x) Lr (i_id i) e F B i g) by (done || apply Hin).
    case_decide; [done|]. by rewrite (access_group_reports _ _ _ _ Hg).
  - rewrite (regular_post_other base_of (in_instsToSkip x) (in_instToEntryMap x) Lr); [by case_decide|done|].
    by apply not_elem_of_list_to_map_2.
Qed.

Lemma block_reports log F B l : base_ok base_of → input_ok base_of → pass_log base_of log → in_block base_of F B l →
  omap report (l ≫= final_item F log) = omap selected (omap is_orig (l ≫= final_item F log)).
Proof.
  intros Hok Hin Hlog Hl. assert (∀ y, y ∈ l → ∃ l, in_block base_of F B l ∧ y ∈ l) as Hy by (intros y ?; by exists l).
  pose proof (bo_anchored _ Hok _ _ _ Hl) as Hanch. clear Hl.
  induction l as [|y l IH]; [done|]. apply Forall_cons in Hanch as [[a Ha] Hanch].
  rewrite bind_cons, !omap_app, IH by (done || (intros z Hz; apply Hy; by right)). f_equal. clear IH.
  assert (∀ g, Forall (λ z, plain z = true) g → omap is_orig g = []) as Hp.
  { intros g Hg. apply omap_Forall_nil. eapply Forall_impl; [exact Hg|]. by intros []. }
  pose proof (pl_ok _ _ Hlog) as [Hclean _].
  unfold final_item. rewrite Ha, !omap_app, !omap_cons_app, !omap_app. rewrite (pass_pre_reports _ _ _ Hlog).
  rewrite (Hp (pre_of log a)), (Hp (post_of log a)) by (by apply pre_of_plain || by apply post_of_plain).
  rewrite (pass_post_reports log y F B) by (done || (apply Hy; by left)).
  case_decide; destruct y as [i| | | |]; try done; simpl; by destruct (selected i).
Qed.

(** *** Around one instruction *)

Lemma bind_split (h : item → list item) l l1 z l2 : l ≫= h = l1 ++ z :: l2 →
  ∃ k1 y k2 h1 h2, l = k1 ++ y :: k2 ∧ h y = h1 ++ z :: h2 ∧ l1 = (k1 ≫= h) ++ h1 ∧ l2 = h2 ++ (k2 ≫= h).
Proof.
  revert l1. induction l as [|y l IH]; intros l1 H; [by destruct l1|]. rewrite bind_cons in H.
  apply app_eq_inv in H as [(k & E1 & E2)|(k & E1 & E2)].
  - destruct k as [|z' k].
    + simpl in E2. rewrite app_nil_r in E1. destruct (IH []) as (k1 & y' & k2 & h1 & h2 & -> & Eh & El1 & ->); [done|].
      exists (y :: k1), y', k2, h1, h2. rewrite bind_cons, E1. split_and!; try done. by rewrite <- app_assoc, <- El1, app_nil_r.
    + injection E2 as -> ->. exists [], y, l, l1, k. by rewrite E1.
  - destruct (IH k) as (k1 & y' & k2 & h1 & h2 & -> & Eh & -> & ->); [done|].
    exists (y :: k1), y', k2, h1, h2. rewrite bind_cons, E1. split_and!; try done. by rewrite app_assoc.
Qed.

Lemma plain_app_orig (txt l1 : list item) i l2 rest : Forall (λ z, plain z = true) txt →
  txt ++ rest = l1 ++ Orig i :: l2 → ∃ l1', l1 = txt ++ l1' ∧ rest = l1' ++ Orig i :: l2.
Proof.
  revert l1. induction txt as [|z txt IH]; intros l1 Ht E; [by exists l1|]. apply Forall_cons in Ht as [Hz Ht].
  destruct l1 as [|z' l1]; simpl in E; injection E as -> E; [done|]. destruct (IH l1 Ht E) as (l1' & -> & ?). by exists l1'.
Qed.

(** An instruction of the program in a finished block, with what was put before and
    after it. *)
Lemma around log F B l l1 i l2 : clean log → in_block base_of F B l → l ≫= final_item F log = l1 ++ Orig i :: l2 →
  ∃ k1 k2, l = k1 ++ Orig i :: k2 ∧
    l1 = (k1 ≫= final_item F log) ++ pre_of log (AtInst (i_id i)) ++
      (if decide (F = "main" ∧ is_exit F (Orig i) = true) then [Rt (RuntimeCall MEMORYTOOL_EPILOGUE [])] else []) ∧
    l2 = post_of log (AtInst (i_id i)) ++ (k2 ≫= final_item F log).
Proof.
  intros Hclean Hl E. apply bind_split in E as (k1 & y & k2 & h1 & h2 & -> & Eh & -> & ->). unfold final_item at 1 in Eh.
  destruct (anchor_of y) as [a|] eqn:Ea.
  - apply plain_app_orig in Eh as (l1' & -> & Eh); [|by apply pre_of_plain].
    apply plain_app_orig in Eh as (l1'' & -> & Eh); [|case_decide; [by apply Forall_singleton|constructor]].
    destruct l1'' as [|z l1''].
    + injection Eh as -> <-. injection Ea as <-. exists k1, k2. by rewrite app_nil_r.
    + injection Eh as -> Eh. exfalso. assert (Orig i ∈ post_of log a) as Hin by (rewrite Eh; apply elem_of_app; right; by left).
      pose proof (post_of_plain log a Hclean) as Hp. rewrite Forall_forall in Hp. by apply Hp in Hin.
  - destruct h1 as [|z h1]; [injection Eh as -> <-; done|]. injection Eh as _ Eh. by destruct h1.
Qed.

(** After an access that is selected there is its report and nothing else. *)
Lemma access_followed log F B l i id : base_ok base_of → input_ok base_of → pass_log base_of log → in_block base_of F B l →
  Orig i ∈ l → selected i = Some id → ∃ e g, (i_id i, e) ∈ in_instToEntryMap x ∧ access_group F i e = Some g ∧
    en_id (en_debug e) = id ∧ post_of log (AtInst (i_id i)) = Rt <$> g.
Proof.
  intros Hok Hin Hlog Hl Hi Hsel. unfold selected in Hsel. case_decide as Hskip; [done|].
  apply bind_Some in Hsel as (e & Ee & [= <-]). apply elem_of_list_to_map_2 in Ee.
  pose proof (io_accesses _ Hin) as Hacc. rewrite Forall_forall in Hacc.
  destruct (Hacc _ Ee) as (_ & F' & B' & i' & Hat & [g Hg] & _). cbn [fst snd] in *.
  assert (at_anchor base_of (AtInst (i_id i)) F B (Orig i)) as Hat0 by (by exists l).
  destruct (at_anchor_unique _ _ _ _ _ _ _ _ Hok Hat Hat0) as (-> & -> & [= ->]).
  exists e, g. split_and!; try done. destruct (pass_post base_of log (AtInst (i_id i)) Hlog) as (La & Lo & Lr & Ld & -> & _ & Q1 & Qd & Rr).
  assert (is_access (Orig i) = true) as Ha by (unfold access_group in Hg; simpl; by destruct (i_op i)).
  rewrite (quiet_post _ _ _ _ _ _ Q1 Hat Ha), (quiet_post _ _ _ _ _ _ Qd Hat Ha), app_nil_r. simpl.
  rewrite (regular_post base_of (in_instsToSkip x) (in_instToEntryMap x) Lr (i_id i) e F B i g) by (done || apply Hin).
  by rewrite decide_False.
Qed.

(** The removals of a return are among the text before it, in order. *)
Lemma pre_of_sublist log log' a : pre_of log a `sublist_of` pre_of (log ++ log') a.
Proof.
  induction log' as [|e log' IH] using rev_ind; [by rewrite app_nil_r|]. rewrite app_assoc, pre_of_snoc. etrans; [exact IH|].
  destruct e as [a' g|a' g|a' n g]; simpl; [done| |]; case_decide; try done.
  - by apply sublist_inserts_r.
  - rewrite <- (take_drop n (pre_of (log ++ log') a)) at 1. apply sublist_app; [done|]. by apply sublist_inserts_l.
Qed.

Lemma pre_of_befores log a (gs : list (list item)) : pre_of (log ++ (Before a <$> gs)) a = pre_of log a ++ concat gs.
Proof.
  revert log. induction gs as [|g gs IH]; intros log; [by rewrite !app_nil_r|]. rewrite fmap_cons.
  change (Before a g :: (Before a <$> gs)) with ([Before a g] ++ (Before a <$> gs)).
  rewrite (app_assoc log [Before a g] (Before a <$> gs)), IH, pre_of_snoc. simpl. rewrite decide_True by done. by rewrite app_assoc.
Qed.

Lemma returns_sublist m l log Fi : Fi ∈ l →
  (default [] (m !! Fi.1) ≫= remove_group) `sublist_of` pre_of (log ++ returns_log m l) (AtInst (i_id Fi.2)).
Proof.
  unfold returns_log. revert log. induction l as [|Fi' l IH]; intros log Hin; [by apply elem_of_nil in Hin|]. rewrite bind_cons, app_assoc.
  apply elem_of_cons in Hin as [<-|Hin]; [|by apply IH]. etrans; [|apply pre_of_sublist].
  rewrite (list_fmap_compose remove_group (Before (AtInst (i_id Fi.2)))), pre_of_befores.
  apply sublist_inserts_l. assert (concat (remove_group <$> default [] (m !! Fi.1)) = default [] (m !! Fi.1) ≫= remove_group) as ->; [|done].
  clear IH. induction (default [] (m !! Fi.1)) as [|v vs IHv]; [done|]. rewrite fmap_cons, bind_cons. cbn [concat]. f_equal. exact IHv.
Qed.

Lemma return_text log Fi : pass_log base_of log → Fi ∈ returns (in_visitor x) →
  (default [] (functionAllocaMap (in_visitor x) !! Fi.1) ≫= remove_group) `sublist_of` pre_of log (AtInst (i_id Fi.2)).
Proof.
  intros [_ _ _ (La & Lo & Lr & Ld & sp & -> & _)] Hin. set (L1 := concat La ++ Lo).
  set (R := returns_log (functionAllocaMap (in_visitor x)) (returns (in_visitor x))).
  assert (L1 ++ concat Lr ++ Ld ++ R ++ sp ++ [prologue_edit] = ((L1 ++ concat Lr ++ Ld) ++ R) ++ sp ++ [prologue_edit]) as ->
    by (by rewrite <- !app_assoc).
  etrans; [|apply pre_of_sublist]. by apply returns_sublist.
Qed.

(** [main] starts with the prologue. *)
Lemma prologue_first log : pass_log base_of log → ∃ txt,
  pre_of log (AtCallstack "main") = Rt (RuntimeCall MEMORYTOOL_PROLOGUE (prologue_args (in_options x))) :: txt.
Proof.
  intros [_ _ _ (La & Lo & Lr & Ld & sp & -> & _)]. rewrite !app_assoc, pre_of_snoc. simpl. rewrite drop_0. by eexists.
Qed.
End pipeline.
