(* ===== verification/Pass.v ===== *)
(** * Pass.v: the pass from the module to the instrumented module

    [runOnModule] of src/src/CatPass.cpp as a whole: the visitor, the identifiers
    and the file of source positions (Visitor.v, DebugInfo.v), then the
    instrumentation (Instrument.v).  The analyses that choose functions and accesses
    are arguments (CallGraph.v and TouchSame.v model some of them).  The theorems
    are about the module the pass is given: no assumption about what the stages
    hand to each other is left. *)

From stdpp Require Import pretty.
From S2P Require Import Prelude Helpers OrdMap Objects AllocTable ConnGraph Commit CleanBatch Shadow Batch.
From S2P Require Import Memory Callstack UniqueIds Wrapper RunData PostProcess DebugInfo Types CallGraph Visitor Instrument.
From S2P Require Import Selection Placement Instrumented.

(** ** Well-formed modules *)

Definition is_phi_op (i : inst) : bool := match i_op i with PHINode => true | _ => false end.

Record block_ok (insts : list inst) : Prop := {
  bk_shape : ∃ phis body y, insts = phis ++ body ++ [y] ∧ Forall (λ i, is_phi_op i = true) phis ∧
    Forall (λ i, is_phi_op i = false ∧ isTerminator (i_op i) = false) body ∧ is_phi_op y = false ∧ isTerminator (i_op y) = true;
}.

Record module_ok (M : modul) : Prop := {
  mo_functions : NoDup (f_name <$> m_functions M);
  mo_blocks : ∀ f, f ∈ m_functions M → NoDup (b_name <$> f_blocks f);
  mo_insts : NoDup ((λ Fi : string * inst, i_id Fi.2) <$> all_insts M);
  mo_shape : ∀ f b, f ∈ m_functions M → b ∈ f_blocks f → block_ok (b_insts b);
  mo_entry : ∀ f b bs, f ∈ m_functions M → f_blocks f = b :: bs → Forall (λ i, is_phi_op i = false) (b_insts b);
  mo_invoke : ∀ f i c o nd u, f ∈ m_functions M → i ∈ f_insts f → i_op i = InvokeInst c o nd u →
    nd ∈ b_name <$> f_blocks f ∧ u ∈ b_name <$> f_blocks f;
  mo_intrinsic : ∀ f, f ∈ m_functions M → f_isIntrinsic f = true → f_blocks f = [];
  mo_main : ∃ f, f ∈ m_functions M ∧ f_name f = "main" ∧ f_blocks f ≠ [];
}.

(** ** The callstacks *)

Definition is_empty (M : modul) (F : string) : bool :=
  match getFunction M F with Some f => match f_blocks f with [] => true | _ => false end | None => true end.
Definition is_intrinsic (M : modul) (F : string) : bool :=
  match getFunction M F with Some f => f_isIntrinsic f | None => false end.

Definition callstacks (M : modul) (unique : gset string) : gmap string callstack_call :=
  callstackInstrumentation (is_empty M) (is_intrinsic M) (f_name <$> m_functions M) unique.

Lemma getFunction_in M f : NoDup (f_name <$> m_functions M) → f ∈ m_functions M → getFunction M (f_name f) = Some f.
Proof.
  intros Hnd Hf. unfold getFunction. destruct (list_find (λ g, f_name g = f_name f) (m_functions M)) as [[n g]|] eqn:E.
  - apply list_find_Some in E as (Hg & En & _). apply list_elem_of_lookup in Hf as [k Hk]. simpl. f_equal.
    assert (n = k) as ->; [|congruence]. eapply NoDup_lookup; [exact Hnd| |]; rewrite list_lookup_fmap; [by rewrite Hg|].
    rewrite Hk. simpl. by rewrite En.
  - apply list_find_None in E. rewrite Forall_forall in E. by destruct (E f Hf).
Qed.

Lemma callstacks_defined M unique f : module_ok M → Z.of_nat (size unique) < two64 → f ∈ m_functions M →
  is_Some (callstacks M unique !! f_name f) ↔ f_blocks f ≠ [].
Proof.
  intros Hok Hsize Hf. pose proof (mo_functions _ Hok) as Hnd. unfold callstacks, callstackInstrumentation.
  rewrite (ix_dom _ _ _ _ _ (callstackInstrumentation_indexed (is_empty M) (is_intrinsic M) _ unique Hsize Hnd)).
  unfold defined, is_empty, is_intrinsic. rewrite (getFunction_in M f Hnd Hf). split.
  - intros (_ & H & _) E. by rewrite E in H.
  - intros H. split; [by apply list_elem_of_fmap_2|]. split; [by destruct (f_blocks f)|].
    destruct (f_isIntrinsic f) eqn:E; [|done]. by apply (mo_intrinsic _ Hok) in E.
Qed.

(** ** The module with its callstacks *)

Definition block_items (cs : gmap string callstack_call) (f : func) (first : bool) (b : block) : list item :=
  (if first then match cs !! f_name f with Some c => [Callstack (f_name f) c] | None => [] end else []) ++ (Orig <$> b_insts b).

Definition func_items (cs : gmap string callstack_call) (f : func) : list (string * list item) :=
  match f_blocks f with
  | [] => []
  | b :: bs => (b_name b, block_items cs f true b) :: ((λ b, (b_name b, block_items cs f false b)) <$> bs)
  end.

Lemma base_items M cs : insertCallstacks cs (module_items M) = (λ f, (f_name f, func_items cs f)) <$> m_functions M.
Proof.
  unfold insertCallstacks, module_items. rewrite <- list_fmap_compose. apply list_fmap_ext. intros _ f _. simpl.
  unfold func_items, block_items. destruct (f_blocks f); simpl; by destruct (cs !! f_name f).
Qed.

Lemma in_base M cs F B items : in_block (insertCallstacks cs (module_items M)) F B items ↔
  ∃ f b, f ∈ m_functions M ∧ f_name f = F ∧ b_name b = B ∧
    ((∃ bs, f_blocks f = b :: bs ∧ items = block_items cs f true b) ∨
     (∃ b0 bs, f_blocks f = b0 :: bs ∧ b ∈ bs ∧ items = block_items cs f false b)).
Proof.
  rewrite base_items. unfold in_block, func_items. split.
  - intros (bs & Hbs & HB). apply list_elem_of_fmap in Hbs as (f & [= -> ->] & Hf).
    destruct (f_blocks f) as [|b bl] eqn:Ebl; [by apply elem_of_nil in HB|].
    apply elem_of_cons in HB as [[= -> ->]|HB].
    + exists f, b. split_and!; try done. left. by exists bl.
    + apply list_elem_of_fmap in HB as (b' & [= -> ->] & Hb'). exists f, b'. split_and!; try done. right. by exists b, bl.
  - intros (f & b & Hf & <- & <- & [(bs & Ebl & ->)|(b0 & bs & Ebl & Hb & ->)]);
      (eexists; split; [apply list_elem_of_fmap; by exists f|]); rewrite Ebl; [by left|].
    right. apply list_elem_of_fmap. by exists b.
Qed.

(** An instruction of the module is in one function, and in the module once. *)
Lemma in_all_insts M F i : (F, i) ∈ all_insts M ↔ ∃ f, f ∈ m_functions M ∧ f_name f = F ∧ i ∈ f_insts f.
Proof.
  unfold all_insts. rewrite list_elem_of_In, in_concat. setoid_rewrite <- list_elem_of_In. split.
  - intros (l & Hl & Hi). apply list_elem_of_fmap in Hl as (f & -> & Hf). apply list_elem_of_fmap in Hi as (j & [= -> ->] & Hj).
    by exists f.
  - intros (f & Hf & <- & Hi). eexists. split; [by apply list_elem_of_fmap; exists f|]. apply list_elem_of_fmap. by exists i.
Qed.

Lemma in_f_insts f i : i ∈ f_insts f ↔ ∃ b, b ∈ f_blocks f ∧ i ∈ b_insts b.
Proof.
  unfold f_insts. rewrite list_elem_of_In, in_concat. setoid_rewrite <- list_elem_of_In. split.
  - intros (l & Hl & Hi). apply list_elem_of_fmap in Hl as (b & -> & Hb). by exists b.
  - intros (b & Hb & Hi). exists (b_insts b). split; [by apply list_elem_of_fmap_2|done].
Qed.

Section base.
  Context (M : modul) (cs : gmap string callstack_call) (Hok : module_ok M).

Lemma ids_concat : (λ Fi : string * inst, i_id Fi.2) <$> all_insts M =
  concat ((λ f, concat ((λ b, i_id <$> b_insts b) <$> f_blocks f)) <$> m_functions M).
Proof.
  unfold all_insts. induction (m_functions M) as [|f fs IH]; [done|]. rewrite !fmap_cons. cbn [concat]. rewrite fmap_app, IH. f_equal.
  rewrite <- list_fmap_compose. unfold f_insts. induction (f_blocks f) as [|b bs IHb]; [done|]. rewrite !fmap_cons. cbn [concat].
  by rewrite fmap_app, IHb.
Qed.

Lemma inst_unique f b i f' b' i' :
  f ∈ m_functions M → b ∈ f_blocks f → i ∈ b_insts b → f' ∈ m_functions M → b' ∈ f_blocks f' → i' ∈ b_insts b' →
  i_id i = i_id i' → f = f' ∧ b = b' ∧ i = i'.
Proof.
  intros Hf Hb Hi Hf' Hb' Hi' E. pose proof (mo_insts _ Hok) as Hnd. rewrite ids_concat in Hnd.
  apply list_elem_of_lookup in Hf as [j Hj], Hf' as [k Hk], Hb as [m Hm], Hb' as [n Hn].
  assert (i_id i ∈ i_id <$> b_insts b) as H1 by (by apply list_elem_of_fmap_2).
  assert (i_id i ∈ i_id <$> b_insts b') as H2 by (rewrite E; by apply list_elem_of_fmap_2).
  assert (∀ f b m, f_blocks f !! m = Some b → ((λ b, i_id <$> b_insts b) <$> f_blocks f) !! m = Some (i_id <$> b_insts b)) as Hlb
    by (intros f0 b0 m0 H; by rewrite list_lookup_fmap, H).
  assert (∀ f b m a, f_blocks f !! m = Some b → a ∈ i_id <$> b_insts b → a ∈ concat ((λ b, i_id <$> b_insts b) <$> f_blocks f)) as Hc.
  { intros f0 b0 m0 a0 H Ha. apply list_elem_of_In, in_concat. eexists. split; apply list_elem_of_In; [|exact Ha].
    eapply list_elem_of_lookup_2. by apply Hlb. }
  assert (j = k) as ->.
  { eapply NoDup_concat_index; [exact Hnd|by rewrite list_lookup_fmap, Hj|by rewrite list_lookup_fmap, Hk|by eapply Hc|by eapply Hc]. }
  rewrite Hk in Hj. injection Hj as ->. split; [done|].
  assert (NoDup (concat ((λ b, i_id <$> b_insts b) <$> f_blocks f))) as Hnd'.
  { eapply NoDup_concat_parts; [exact Hnd|]. apply list_elem_of_fmap. exists f. split; [done|by eapply list_elem_of_lookup_2]. }
  assert (m = n) as -> by (eapply NoDup_concat_index; [exact Hnd'|by apply Hlb|by apply Hlb|done|done]).
  rewrite Hn in Hm. injection Hm as ->. split; [done|].
  assert (NoDup (i_id <$> b_insts b)) as Hnd''.
  { eapply NoDup_concat_parts; [exact Hnd'|]. apply list_elem_of_fmap. exists b. split; [done|by eapply list_elem_of_lookup_2]. }
  apply list_elem_of_lookup in Hi as [p Hp], Hi' as [q Hq].
  assert (p = q) as ->; [|congruence].
  eapply NoDup_lookup; [exact Hnd''|by rewrite list_lookup_fmap, Hp|by rewrite list_lookup_fmap, Hq, E].
Qed.

Lemma block_anchors f first b a : a ∈ omap anchor_of (block_items cs f first b) ↔
  (a = AtCallstack (f_name f) ∧ first = true ∧ is_Some (cs !! f_name f)) ∨ ∃ i, i ∈ b_insts b ∧ a = AtInst (i_id i).
Proof.
  unfold block_items. rewrite omap_app, elem_of_app.
  assert (a ∈ omap anchor_of (Orig <$> b_insts b) ↔ ∃ i, i ∈ b_insts b ∧ a = AtInst (i_id i)) as ->.
  { rewrite list_elem_of_omap. split.
    - intros (y & Hy & Ha). apply list_elem_of_fmap in Hy as (i & -> & Hi). injection Ha as <-. by exists i.
    - intros (i & Hi & ->). exists (Orig i). split; [by apply list_elem_of_fmap_2|done]. }
  destruct first; [destruct (cs !! f_name f) as [c|] eqn:Ec|]; simpl.
  - rewrite list_elem_of_singleton. naive_solver.
  - rewrite elem_of_nil. split; [intros [[]|?]; auto|intros [(_ & _ & [? ?])|?]; [done|auto]].
  - rewrite elem_of_nil. naive_solver.
Qed.

Lemma in_base_anchor F B l a : in_block (insertCallstacks cs (module_items M)) F B l → a ∈ omap anchor_of l →
  ∃ f b, f ∈ m_functions M ∧ f_name f = F ∧ b ∈ f_blocks f ∧ b_name b = B ∧
    ((a = AtCallstack F ∧ head (f_blocks f) = Some b) ∨ ∃ i, i ∈ b_insts b ∧ a = AtInst (i_id i)).
Proof.
  intros H Ha. apply in_base in H as (f & b & Hf & <- & <- & [(bs & Ebl & ->)|(b0 & bs & Ebl & Hb & ->)]);
    apply block_anchors in Ha; exists f, b; rewrite Ebl; split_and!; try done; [by left| |by right|].
  - destruct Ha as [(-> & _ & _)|?]; [by left|by right].
  - destruct Ha as [(_ & ? & _)|?]; [done|by right].
Qed.

Lemma function_unique f f' : f ∈ m_functions M → f' ∈ m_functions M → f_name f = f_name f' → f = f'.
Proof.
  intros H H' E. apply list_elem_of_lookup in H as [j Hj], H' as [k Hk]. assert (j = k) as ->; [|congruence].
  eapply NoDup_lookup; [apply (mo_functions _ Hok)|by rewrite list_lookup_fmap, Hj|by rewrite list_lookup_fmap, Hk, E].
Qed.

Lemma base_is_ok : base_ok (insertCallstacks cs (module_items M)).
Proof.
  assert (NoDup (insertCallstacks cs (module_items M)).*1) as Hfun.
  { rewrite base_items, <- list_fmap_compose. apply (mo_functions _ Hok). }
  assert (∀ F bs, (F, bs) ∈ insertCallstacks cs (module_items M) → NoDup bs.*1) as Hblocks.
  { intros F bs H. rewrite base_items in H. apply list_elem_of_fmap in H as (f & [= -> ->] & Hf).
    pose proof (mo_blocks _ Hok f Hf) as Hnd. unfold func_items. destruct (f_blocks f) as [|b bs]; [constructor|].
    rewrite fmap_cons, <- list_fmap_compose. exact Hnd. }
  split.
  - exact Hfun.
  - exact Hblocks.
  - intros F B l l' (bs & H1 & H2) (bs' & H1' & H2').
    assert (bs = bs') as <- by (by eapply NoDup_fst_unique). eapply NoDup_fst_unique; [by eapply Hblocks|done..].
  - intros F B l F' B' l' a H H' Ha Ha'.
    apply (in_base_anchor F B l a H) in Ha as (f & b & Hf & <- & Hb & <- & Ha).
    apply (in_base_anchor F' B' l' a H') in Ha' as (f' & b' & Hf' & <- & Hb' & <- & Ha').
    destruct Ha as [[-> Hh]|(i & Hi & ->)], Ha' as [[E Hh']|(i' & Hi' & E)]; try done.
    + injection E as E. pose proof (function_unique f f' Hf Hf' E) as <-. rewrite Hh in Hh'. by injection Hh' as <-.
    + injection E as E. by destruct (inst_unique f b i f' b' i') as (<- & <- & _).
  - intros F B l H. apply in_base in H as (f & b & Hf & <- & <- & H).
    assert (∀ first, b ∈ f_blocks f → NoDup (omap anchor_of (block_items cs f first b))) as Hnd.
    { intros first Hb. assert (NoDup (i_id <$> b_insts b)) as Hnd.
      { pose proof (mo_insts _ Hok) as Hall. rewrite ids_concat in Hall.
        eapply NoDup_concat_parts; [eapply NoDup_concat_parts; [exact Hall|apply list_elem_of_fmap; by exists f]|].
        apply list_elem_of_fmap. by exists b. }
      assert (omap anchor_of (Orig <$> b_insts b) = AtInst <$> (i_id <$> b_insts b)) as E.
      { clear Hb. induction (b_insts b) as [|i insts IH]; [done|]. rewrite fmap_cons in Hnd. apply NoDup_cons in Hnd as [_ Hnd].
        by rewrite fmap_cons, omap_cons_app, !fmap_cons, IH. }
      assert (NoDup (AtInst <$> (i_id <$> b_insts b))) as Hn by (apply NoDup_fmap_2; [|done]; by intros ?? [= ->]).
      unfold block_items. rewrite omap_app, E. destruct first; [destruct (cs !! f_name f)|]; simpl; try done.
      constructor; [|done]. intros Hin. apply list_elem_of_fmap in Hin as (? & [=] & _). }
    destruct H as [(bs & Ebl & ->)|(b0 & bs & Ebl & Hb & ->)]; apply Hnd; rewrite Ebl; [by left|by right].
  - intros F B l H. apply in_base in H as (f & b & Hf & <- & <- & H).
    assert (∀ first, Forall (λ y, is_Some (anchor_of y)) (block_items cs f first b)) as Ha.
    { intros first. apply Forall_app. split; [destruct first; [destruct (cs !! f_name f)|]; repeat constructor; by eexists|].
      apply Forall_fmap, Forall_forall. intros i _. by eexists. }
    destruct H as [(bs & Ebl & ->)|(b0 & bs & Ebl & Hb & ->)]; apply Ha.
  - intros F B l H. apply in_base in H as (f & b & Hf & <- & <- & H).
    assert (∀ phis body y, Forall (λ i, is_phi_op i = true) phis →
      Forall (λ i, is_phi_op i = false ∧ isTerminator (i_op i) = false) body → is_phi_op y = false → isTerminator (i_op y) = true →
      Forall (λ x, is_phi x = true) (Orig <$> phis) ∧ Forall (λ x, is_phi x = false ∧ is_term x = false) (Orig <$> body) ∧
      is_phi (Orig y) = false ∧ is_term (Orig y) = true) as Hmap.
    { intros phis body y H1 H2 H3 H4. split_and!; [by apply Forall_fmap|by apply Forall_fmap|done|done]. }
    destruct H as [(bs & Ebl & ->)|(b0 & bs & Ebl & Hb & ->)].
    + destruct (mo_shape _ Hok f b Hf) as [(phis & body & y & E & H1 & H2 & H3 & H4)]; [rewrite Ebl; by left|].
      assert (phis = []) as ->.
      { pose proof (mo_entry _ Hok f b bs Hf Ebl) as He. rewrite E in He. destruct phis as [|i phis]; [done|].
        apply Forall_cons in He as [He _], H1 as [H1 _]. congruence. }
      destruct (Hmap [] body y) as (_ & Hb & Hp & Ht); [done..|]. unfold block_items. rewrite E, !fmap_app.
      destruct (cs !! f_name f) as [c|]; [exists [], (Callstack (f_name f) c :: (Orig <$> body)), (Orig y)|exists [], (Orig <$> body), (Orig y)];
        split_and!; try done. by constructor.
    + destruct (mo_shape _ Hok f b Hf) as [(phis & body & y & E & H1 & H2 & H3 & H4)]; [rewrite Ebl; by right|].
      destruct (Hmap phis body y) as (Hph & Hbd & Hp & Ht); [done..|]. unfold block_items. rewrite E, !fmap_app.
      by exists (Orig <$> phis), (Orig <$> body), (Orig y).
Qed.
End base.

(** ** What the visitor hands over *)

Definition call_or_alloca (i : inst) : bool :=
  match i_op i with CallInst _ _ | InvokeInst _ _ _ _ | AllocaInst _ => true | _ => false end.

Definition alloc_args (e : entry) : Prop := is_Some (en_allocPointer e) ∧ (en_size e = 0 → is_Some (en_allocSize e)).
Definition calloc_args (e : entry) : Prop :=
  is_Some (en_allocPointer e) ∧ is_Some (en_allocSize e) ∧ is_Some (en_allocNumElems e).
Definition realloc_args (e : entry) : Prop :=
  is_Some (en_allocPointer e) ∧ is_Some (en_allocNewPointer e) ∧ is_Some (en_allocSize e).

Section visited.
  Context (M : modul) (pointerTypeSize : Z) (allocaFunctions accessFunctions : gset string) (touchesToSkip : gset Z).

(** An entry of a call or an alloca of the module. *)
Definition entry_from (P : entry → Prop) (e : entry) : Prop :=
  ∃ F i, (F, i) ∈ all_insts M ∧ en_value e = Inst (i_id i) ∧ en_function e = F ∧ call_or_alloca i = true ∧ P e.

Record collected (v : visitor) : Prop := {
  co_allocations : Forall (entry_from alloc_args) (allocations v);
  co_callocs : Forall (entry_from calloc_args) (callocs v);
  co_reallocs : Forall (entry_from realloc_args) (reallocs v);
  co_unknowns : Forall (entry_from (λ _, True)) (unknowns v);
  co_invokes : Forall (λ Fi, Fi ∈ all_insts M ∧ ∃ c o nd u, i_op Fi.2 = InvokeInst c o nd u) (invokes v);
}.

Lemma variable_size_nonzero t : pointerTypeSize ≠ 0 → variable_size pointerTypeSize t ≠ 0.
Proof. intros H. unfold variable_size. by repeat case_match; try case_decide. Qed.

Lemma visitCallInvokeInst_collected F callee operands isInvoke i v v' :
  (F, i) ∈ all_insts M → call_or_alloca i = true → (isInvoke = true → ∃ c o nd u, i_op i = InvokeInst c o nd u) →
  collected v → visitCallInvokeInst M F callee operands isInvoke i v = Some v' → collected v'.
Proof.
  intros Hin Hop Hinv Hc H. unfold visitCallInvokeInst in H. destruct callee as [callee|]; [|by injection H as <-].
  apply bind_Some in H as (fp & _ & H). destruct (f_blocks fp); [|by injection H as <-].
  destruct (f_isIntrinsic fp); [by injection H as <-|]. destruct (i_loc i) as [loc|]; [|by injection H as <-].
  cbv zeta in H. apply bind_Some in H as (v1 & H1 & [= <-]). enough (collected v1) as [? ? ? ? ?].
  { destruct isInvoke; split; try done. simpl. apply Forall_app. split; [done|]. apply Forall_singleton. split; [done|by apply Hinv]. }
  clear Hinv. destruct Hc as [C1 C2 C3 C4 C5].
  destruct (functionCalls callee); destruct_bind; try case_decide; try case_decide; simplify_eq; split; try done;
    apply Forall_app; (split; [done|]); apply Forall_singleton; exists F, i; split_and!; try done; simpl; split_and!;
    try (by eexists); intros _; by eexists.
Qed.

Lemma visit_inst_collected F i v v' : pointerTypeSize ≠ 0 → (F, i) ∈ all_insts M → collected v →
  visit_inst M pointerTypeSize allocaFunctions accessFunctions touchesToSkip F v i = Some v' → collected v'.
Proof.
  intros Hp Hin Hc H. pose proof Hc as [C1 C2 C3 C4 C5]. unfold visit_inst in H.
  assert (call_or_alloca i = match i_op i with CallInst _ _ | InvokeInst _ _ _ _ | AllocaInst _ => true | _ => false end) as Hop by done.
  destruct (i_op i) as [callee operands|callee operands d u|p|w p ip sc pr|t| | |b] eqn:Eop.
  - by apply (visitCallInvokeInst_collected F callee operands false i v v').
  - apply (visitCallInvokeInst_collected F callee operands true i v v'); [done|done| |done|done]. intros _. by eexists _, _, _, _.
  - injection H as <-. unfold visitLoadInst. repeat case_decide; by split.
  - injection H as <-. unfold visitStoreInst. destruct ip; repeat case_decide; by split.
  - unfold visitAllocaInst in H. case_decide; [by injection H as <-|].
    assert (∀ debug, entry_from alloc_args (MkIEntry (Inst (i_id i)) F (Some (Inst (i_id i))) None None None
      (variable_size pointerTypeSize t) 0 debug)) as He.
    { intros debug. exists F, i. split_and!; try done. split; [done|]. simpl. intros E. by apply variable_size_nonzero in E. }
    destruct (i_loc i); [|destruct (i_dbg i); [by injection H as <-|done|]]; injection H as <-; split; try done;
      apply Forall_app; (split; [done|]); apply Forall_singleton; apply He.
  - injection H as <-. by split.
  - by injection H as <-.
  - by injection H as <-.
Qed.

Lemma visit_collected v : pointerTypeSize ≠ 0 →
  visit M pointerTypeSize allocaFunctions accessFunctions touchesToSkip = Some v → collected v.
Proof.
  intros Hp Hv. rewrite visit_fold in Hv. eapply (mfoldl_ind collected); [exact Hv|split; constructor|].
  intros v0 [F i] v1 Hin Hc H. by eapply visit_inst_collected.
Qed.

(** Globals are allocations too. *)
Lemma getGlobals_args : pointerTypeSize ≠ 0 →
  Forall (λ e, (∃ g, en_value e = GlobalVar g) ∧ alloc_args e) (getGlobals M pointerTypeSize).
Proof.
  intros Hp. unfold getGlobals. induction (m_globals M) as [|g gs IH]; [constructor|]. rewrite omap_cons_app.
  apply Forall_app. split; [|done]. case_decide; [constructor|]. destruct (g_isPointerTy g); [|constructor].
  destruct (g_debug g) as [[[[d f] n] l]|]; [|constructor]. apply Forall_singleton. split; [by eexists|].
  split; [by eexists|]. intros E. by apply variable_size_nonzero in E.
Qed.

(** The accesses: their identifiers are different, and each is of a load or store
    of a function to instrument. *)
Definition access_of (e : entry) : option (Z * entry) := match en_value e with Inst i => Some (i, e) | _ => None end.

Lemma accesses_from_insts v : module_ok M →
  visit M pointerTypeSize allocaFunctions accessFunctions touchesToSkip = Some v →
  NoDup (omap access_of (stores v ++ loads v)).*1 ∧
  ∀ I e, (I, e) ∈ omap access_of (stores v ++ loads v) → ∃ F i, (F, i) ∈ all_insts M ∧ I = i_id i ∧ en_value e = Inst I ∧
    (load_entry accessFunctions touchesToSkip (F, i) = Some e ∨ store_entry accessFunctions touchesToSkip (F, i) = Some e).
Proof.
  intros Hok Hv. rewrite visit_fold in Hv. apply adds_fold in Hv as (Hl & Hs & _). simpl in Hl, Hs. rewrite Hl, Hs.
  pose proof (mo_insts _ Hok) as Hnd. 
  assert (∀ Fi e, load_entry accessFunctions touchesToSkip Fi = Some e → en_value e = Inst (i_id Fi.2) ∧ ∃ p, i_op Fi.2 = LoadInst p) as Hle.
  { intros Fi e H. unfold load_entry in H. destruct (i_op Fi.2); try done. case_decide; [|done]. injection H as <-. by eauto. }
  assert (∀ Fi e, store_entry accessFunctions touchesToSkip Fi = Some e → en_value e = Inst (i_id Fi.2) ∧ ∃ w p ip s r, i_op Fi.2 = StoreInst w p ip s r) as Hse.
  { intros Fi e H. unfold store_entry in H. destruct (i_op Fi.2); try done. case_decide; [|done]. injection H as <-.
    split; [done|]. by eexists _, _, _, _, _. }
  split.
  - rewrite omap_app, fmap_app.
    assert (∀ f : string * inst → option entry, (∀ Fi e, f Fi = Some e → en_value e = Inst (i_id Fi.2)) → ∀ l,
      NoDup ((λ Fi : string * inst, i_id Fi.2) <$> l) → NoDup (omap access_of (omap f l)).*1 ∧
      ∀ I, I ∈ (omap access_of (omap f l)).*1 → ∃ Fi e, Fi ∈ l ∧ f Fi = Some e ∧ I = i_id Fi.2) as Hone.
    { intros f Hf l. induction l as [|Fi l IH]; intros Hn; [split; [constructor|intros I HI; by apply elem_of_nil in HI]|].
      rewrite fmap_cons in Hn. apply NoDup_cons in Hn as [Hni Hn]. destruct (IH Hn) as [IH1 IH2]. rewrite omap_cons_app, omap_app, fmap_app.
      destruct (f Fi) as [e|] eqn:Ef.
      - assert ((omap access_of (option_list (Some e))).*1 = [i_id Fi.2]) as ->
          by (simpl; unfold access_of; by rewrite (Hf Fi e Ef)). simpl. split.
        + constructor; [|done]. intros HI. destruct (IH2 _ HI) as (Fi' & e' & Hin & _ & E). apply Hni. rewrite E.
          by apply (list_elem_of_fmap_2 (λ Fi : string * inst, i_id Fi.2)).
        + intros I HI. apply elem_of_cons in HI as [->|HI]; [exists Fi, e; split_and!; [by left|done|done]|].
          destruct (IH2 I HI) as (Fi' & e' & ? & ? & ?). exists Fi', e'. split_and!; [by right|done|done].
      - simpl. split; [done|]. intros I HI. destruct (IH2 I HI) as (Fi' & e' & ? & ? & ?). exists Fi', e'. split_and!; [by right|done|done]. }
    destruct (Hone _ (λ Fi e H, proj1 (Hse Fi e H)) _ Hnd) as [N1 I1]. destruct (Hone _ (λ Fi e H, proj1 (Hle Fi e H)) _ Hnd) as [N2 I2].
    apply NoDup_app. split_and!; [done| |done]. intros I H1 H2. destruct (I1 I H1) as (Fi & e & Hin & Hs' & ->).
    destruct (I2 _ H2) as (Fi' & e' & Hin' & Hl' & E). assert (Fi = Fi') as <-.
    { apply list_elem_of_lookup in Hin as [j Hj], Hin' as [k Hk]. assert (j = k) as ->; [|congruence].
      eapply NoDup_lookup; [exact Hnd|by rewrite list_lookup_fmap, Hj|by rewrite list_lookup_fmap, Hk, E]. }
    apply Hse in Hs' as [_ (? & ? & ? & ? & ? & E1)]. apply Hle in Hl' as [_ (? & E2)]. congruence.
  - intros I e H. apply list_elem_of_omap in H as (e' & He' & Ha). unfold access_of in Ha. destruct (en_value e') eqn:Ev; try done.
    injection Ha as <- <-. apply elem_of_app in He' as [He'|He']; apply list_elem_of_omap in He' as ([F i] & Hin & Hf);
      exists F, i; (split; [done|]).
    + pose proof (Hse _ _ Hf) as [Ev' _]. rewrite Ev' in Ev. injection Ev as <-. split_and!; [done|done|by right].
    + pose proof (Hle _ _ Hf) as [Ev' _]. rewrite Ev' in Ev. injection Ev as <-. split_and!; [done|done|by left].
Qed.
End visited.

(** ** Where the entries are *)

Section places.
  Context (M : modul) (unique : gset string) (Hok : module_ok M) (Hsize : Z.of_nat (size unique) < two64).

Definition base : mstate := insertCallstacks (callstacks M unique) (module_items M).

Lemma inst_place F i : (F, i) ∈ all_insts M →
  (∃ B, at_anchor base (AtInst (i_id i)) F B (Orig i)) ∧ is_Some (callstacks M unique !! F) ∧
  ∀ c o nd u, i_op i = InvokeInst c o nd u → (∃ l, in_block base F nd l) ∧ ∃ l, in_block base F u l.
Proof.
  intros Hin. apply in_all_insts in Hin as (f & Hf & <- & Hi). pose proof Hi as Hi0. apply in_f_insts in Hi as (b & Hb & Hi).
  assert (∀ b, b ∈ f_blocks f → ∃ first, in_block base (f_name f) (b_name b) (block_items (callstacks M unique) f first b)) as Hblock.
  { intros b' Hb'. unfold base. destruct (f_blocks f) as [|b0 bs] eqn:Ebl; [by apply elem_of_nil in Hb'|].
    apply elem_of_cons in Hb' as [->|Hb'].
    - exists true. apply in_base. exists f, b0. split_and!; try done. left. by exists bs.
    - exists false. apply in_base. exists f, b'. split_and!; try done. right. by exists b0, bs. }
  split; [|split].
  - destruct (Hblock b Hb) as (first & H). exists (b_name b), (block_items (callstacks M unique) f first b).
    split; [done|]. split; [|done]. apply elem_of_app. right. by apply list_elem_of_fmap_2.
  - apply callstacks_defined; [done..|]. intros E. rewrite E in Hb. by apply elem_of_nil in Hb.
  - intros c o nd u Hop. destruct (mo_invoke _ Hok f i c o nd u Hf Hi0 Hop) as [H1 H2].
    apply list_elem_of_fmap in H1 as (b1 & -> & H1), H2 as (b2 & -> & H2).
    destruct (Hblock b1 H1) as (? & ?), (Hblock b2 H2) as (? & ?). eauto.
Qed.

Lemma inst_insertable F i : (F, i) ∈ all_insts M → is_phi_op i = false → insertable base (AtInst (i_id i)).
Proof.
  intros Hin Hphi. destruct (inst_place F i Hin) as ((B & Hat) & _ & Hinv). exists F, B, (Orig i).
  split; [done|]. split; [done|]. intros i' c o nd u [= <-] Hop. by apply (Hinv c o nd u).
Qed.

Lemma main_entry : ∃ B c rest, entry_block base "main" B (Callstack "main" c :: rest).
Proof.
  destruct (mo_main _ Hok) as (f & Hf & Hname & Hbl). destruct (proj2 (callstacks_defined M unique f Hok Hsize Hf) Hbl) as [c Hc].
  destruct (f_blocks f) as [|b bs] eqn:Ebl; [done|]. exists (b_name b), c, (Orig <$> b_insts b). unfold entry_block, base.
  rewrite base_items. exists ((λ b, (b_name b, block_items (callstacks M unique) f false b)) <$> bs).
  apply list_elem_of_fmap. exists f. split; [|done]. unfold func_items. rewrite Ebl.
  assert (block_items (callstacks M unique) f true b = Callstack "main" c :: (Orig <$> b_insts b)) as ->
    by (unfold block_items; rewrite Hc, Hname; done). by rewrite Hname.
Qed.

Lemma entry_from_ok P group e e' : entry_from M P e → en_value e' = en_value e → en_function e' = en_function e →
  (∀ F i, en_value e' = Inst (i_id i) → en_function e' = F → is_Some (callstacks M unique !! F) →
    ∃ g, group e' = Some (g, AtInst (i_id i))) →
  entry_ok base group e'.
Proof.
  intros (F & i & Hin & Hv & HF & Hop & _) Ev EF Hg. destruct (inst_place F i Hin) as ((B & Hat) & Hcs & _).
  destruct (Hg F i) as (g & Eg); [congruence|congruence|done|]. exists g, (AtInst (i_id i)), F, B, (Orig i).
  unfold call_or_alloca in Hop. split; [done|]. split; [|split; [done|simpl; by destruct (i_op i)]].
  apply (inst_insertable F); [done|]. unfold is_phi_op. by destruct (i_op i).
Qed.

Lemma callstack_of_Some cs F c : cs !! F = Some c → callstack_of cs F = Some (ACallstack F).
Proof. unfold callstack_of. by intros ->. Qed.

Lemma allocation_ok e e' : alloc_args e' → en_value e' = en_value e → en_function e' = en_function e →
  entry_from M alloc_args e ∨ (∃ g, en_value e = GlobalVar g) →
  entry_ok base (allocation_group (callstacks M unique) (AtCallstack "main")) e'.
Proof.
  intros [[p Hp] Hs] Ev EF [He|(g & Hg)].
  - eapply entry_from_ok; [exact He|done|done|]. intros F i Hv HF [c Hc]. unfold allocation_group. rewrite Hp. cbn [mbind option_bind].
    case_decide as Hz; [destruct (Hs Hz) as [s ->]|]; cbn [mbind option_bind]; rewrite Hv, HF, (callstack_of_Some _ _ c Hc); by eexists.
  - destruct main_entry as (B & c & rest & Hent). pose proof (entry_in_block _ _ _ _ Hent) as Hb.
    assert (at_anchor base (AtCallstack "main") "main" B (Callstack "main" c)) as Hat by (exists (Callstack "main" c :: rest); split_and!; [done|by left|done]).
    assert (is_Some (callstacks M unique !! "main")) as [c' Hc].
    { destruct (mo_main _ Hok) as (f & Hf & <- & Hbl). by apply callstacks_defined. }
    assert (∃ gr, allocation_group (callstacks M unique) (AtCallstack "main") e' = Some (gr, AtCallstack "main")) as (gr & Egr).
    { unfold allocation_group. rewrite Hp. cbn [mbind option_bind].
      case_decide as Hz; [destruct (Hs Hz) as [s ->]|]; cbn [mbind option_bind]; rewrite Ev, Hg, (callstack_of_Some _ _ c' Hc); by eexists. }
    exists gr, (AtCallstack "main"), "main", B, (Callstack "main" c). split; [done|]. split; [|by split].
    exists "main", B, (Callstack "main" c). split; [done|]. split; [done|]. intros i c0 o nd u [=].
Qed.

Lemma calloc_ok e e' : calloc_args e' → en_value e' = en_value e → en_function e' = en_function e → entry_from M calloc_args e →
  entry_ok base (calloc_group (callstacks M unique)) e'.
Proof.
  intros ([p Hp] & [s Hs] & [n Hn]) Ev EF He. eapply entry_from_ok; [exact He|done|done|]. intros F i Hv HF [c Hc].
  unfold calloc_group. rewrite Hp, Hs, Hn. cbn [mbind option_bind]. rewrite Hv, HF, (callstack_of_Some _ _ c Hc). by eexists.
Qed.

Lemma realloc_ok e e' : realloc_args e' → en_value e' = en_value e → en_function e' = en_function e → entry_from M realloc_args e →
  entry_ok base (realloc_group (callstacks M unique)) e'.
Proof.
  intros ([p Hp] & [q Hq] & [s Hs]) Ev EF He. eapply entry_from_ok; [exact He|done|done|]. intros F i Hv HF [c Hc].
  unfold realloc_group. rewrite Hp, Hq, Hs. cbn [mbind option_bind]. rewrite Hv, HF, (callstack_of_Some _ _ c Hc). by eexists.
Qed.

Lemma unknown_ok e e' : en_value e' = en_value e → en_function e' = en_function e → entry_from M (λ _, True) e →
  entry_ok base (unknown_group (callstacks M unique)) e'.
Proof.
  intros Ev EF He. eapply entry_from_ok; [exact He|done|done|]. intros F i Hv HF [c Hc].
  unfold unknown_group. rewrite Hv, HF, (callstack_of_Some _ _ c Hc). by eexists.
Qed.
End places.

(** ** The pass *)

(** What the analyses and the options of the pass give, and the order in which the
    map of accesses is iterated.  The selections look at the map. *)
Record analyses := MkAnalyses {
  an_allocaFunctions : gset string;
  an_accessFunctions : gset string;
  an_touchesToSkip : gset Z;
  an_called : value → option string;
  an_pure : string → bool;
  an_unique : gset string;
  an_order : list (Z * entry) → list (Z * entry);
  an_select : list (Z * entry) → option selection;
  an_elements : gset Z → list Z;
  an_loadBitwidth : Z → Z;
  an_disableStateUses : bool;
  an_disableAll : bool;
  an_disablePin : bool;
  an_options : runtime_options;
}.

(** The vectors with the identifiers; [deallocs], [returns] and the like have none. *)
Definition with_entries (v : visitor) (all : list (list entry)) : option visitor :=
  match all with
  | [a; c; r; u; s; l] => Some (MkVisitor (callsToStartTracking v) (returns v) (invokes v) (escapes v) (deallocs v)
      l s a c r u (functionAllocaMap v))
  | _ => None
  end.

(** [runOnModule] up to where it modifies the module: what it then works with, and
    the records of the file. *)
Definition prepare (pointerTypeSize : Z) (M : modul) (an : analyses) : option (instrumentation * list DebugData) :=
  v ← visit M pointerTypeSize (an_allocaFunctions an) (an_accessFunctions an) (an_touchesToSkip an);
  us ← filterLibraryCalls (an_called an) (an_pure an) (unknowns v);
  '(all, debugData) ← number [allocations v ++ getGlobals M pointerTypeSize; callocs v; reallocs v; us; stores v; loads v];
  v ← with_entries v all;
  let instToEntryMap := if an_disableStateUses an then [] else an_order an (omap access_of (stores v ++ loads v)) in
  s ← an_select an instToEntryMap;
  Some (MkInstrumentation v (callstacks M (an_unique an)) instToEntryMap (an_elements an (onlyReadToInstrument s))
    (directStateToInstrumentAll s) (selected_instsToSkip s) (an_loadBitwidth an) (an_options an) (an_disableAll an) (an_disablePin an), debugData).

Definition pass (pointerTypeSize : Z) (M : modul) (an : analyses) : option (mstate * list DebugData) :=
  '(x, debugData) ← prepare pointerTypeSize M an; st ← runOnModule M x; Some (st, debugData).

(** The analyses choose among the accesses, and the map is iterated over once. *)
Record analyses_ok (an : analyses) : Prop := {
  ao_order : ∀ l, an_order an l ≡ₚ l;
  ao_elements : ∀ X I, I ∈ an_elements an X ↔ I ∈ X;
  ao_select : ∀ l, ∃ s, an_select an l = Some s ∧ (∀ I, I ∈ onlyReadToInstrument s → I ∈ l.*1) ∧
    ∀ d, d ∈ directStateToInstrumentAll s → ds_inst d ∈ l.*1;
}.

(** What the pass relies on in the module; deallocations are calls. *)
Record input_module (M : modul) (an : analyses) : Prop := {
  im_ok : module_ok M;
  im_visitable : Forall (visitable M) (all_insts M);
  im_insts : Forall recordable_inst (all_insts M);
  im_globals : Forall recordable_global (m_globals M);
  im_called : ∀ Fi, Fi ∈ all_insts M → is_Some (call_of Fi.2) → is_Some (an_called an (Inst (i_id Fi.2)));
  im_size : Z.of_nat (List.length (all_insts M)) + Z.of_nat (List.length (m_globals M)) + 1 < two64;
  im_unique : Z.of_nat (size (an_unique an)) < two64;
  im_deallocs : ∀ Fi, Fi ∈ all_insts M → is_Some (dealloc_call M Fi) → ∃ c v o, i_op Fi.2 = CallInst c (v :: o);
}.

Lemma number_lists all all' dds : number all = Some (all', dds) → Forall2 (Forall2 numbered) all' all.
Proof.
  unfold number. intros H. apply bind_Some in H as ([ds dds'] & Hc & [= <- <-]). apply createDebugData_same in Hc.
  revert ds Hc. induction all as [|es all IH]; intros ds H.
  { simpl in H. apply Forall2_nil_inv_r in H as ->. constructor. }
  rewrite fmap_cons in H. apply Forall2_cons_inv_r in H as (d & ds' & Hd & H & ->). cbn [zip_with].
  constructor; [by apply zip_set_debug_vector|by apply IH].
Qed.

Lemma numbered_fields e' e : numbered e' e → en_value e' = en_value e ∧ en_function e' = en_function e ∧
  en_allocPointer e' = en_allocPointer e ∧ en_allocNewPointer e' = en_allocNewPointer e ∧ en_allocSize e' = en_allocSize e ∧
  en_allocNumElems e' = en_allocNumElems e ∧ en_size e' = en_size e ∧ en_sizeElement e' = en_sizeElement e.
Proof. intros [H _]. destruct e', e. unfold set_debug in H. simpl in H. by injection H as -> -> -> -> -> -> -> ->. Qed.

Lemma Forall_numbered (P Q : entry → Prop) es' es : Forall2 numbered es' es → Forall P es →
  (∀ e' e, numbered e' e → P e → Q e') → Forall Q es'.
Proof.
  intros H HP HPQ. induction H as [|e' e es' es He _ IH]; [constructor|]. apply Forall_cons in HP as [HP1 HP2].
  constructor; [by eapply HPQ|by apply IH].
Qed.

Section pass.
  Context (pointerTypeSize : Z) (M : modul) (an : analyses).
  Context (Hp : pointerTypeSize ≠ 0) (Hm : input_module M an) (Ha : analyses_ok an).

Lemma access_of_numbered es' es : Forall2 numbered es' es → ∀ I e', (I, e') ∈ omap access_of es' →
  ∃ e, (I, e) ∈ omap access_of es ∧ numbered e' e.
Proof.
  intros H I e' Hin. apply list_elem_of_omap in Hin as (e1 & He1 & Hacc). unfold access_of in Hacc.
  destruct (en_value e1) eqn:Ev; try done. injection Hacc as <- <-.
  apply list_elem_of_lookup in He1 as [k Hk]. destruct (Forall2_lookup_l _ _ _ _ _ H Hk) as (e & Hk' & Hn).
  exists e. split; [|done]. apply list_elem_of_omap. exists e. split; [by eapply list_elem_of_lookup_2|].
  unfold access_of. destruct (numbered_fields _ _ Hn) as (<- & _). by rewrite Ev.
Qed.

Lemma access_keys_numbered es' es : Forall2 numbered es' es → (omap access_of es').*1 = (omap access_of es).*1.
Proof.
  induction 1 as [|e' e es' es Hn _ IH]; [done|]. rewrite !omap_cons_app, !fmap_app, IH. f_equal.
  unfold access_of. destruct (numbered_fields _ _ Hn) as (<- & _). by destruct (en_value e').
Qed.

(** What is known of the input of the instrumentation. *)
Record prepared (x : instrumentation) (dds : list DebugData) : Prop := {
  pp_callstacks : in_callstacks x = callstacks M (an_unique an);
  pp_options : in_options x = an_options an;
  pp_disable : in_disableAllInstrumentation x = an_disableAll an;
  pp_pin : in_disablePin x = an_disablePin an;
  pp_input : input_ok x (base M (an_unique an));
  pp_selection : ∃ s, an_select an (in_instToEntryMap x) = Some s ∧ in_onlyRead x = an_elements an (onlyReadToInstrument s) ∧
    in_directState x = directStateToInstrumentAll s ∧ in_instsToSkip x = selected_instsToSkip s;
  pp_returns : returns (in_visitor x) = omap return_inst (all_insts M);
  pp_allocas : ∀ F, default [] (functionAllocaMap (in_visitor x) !! F) =
    omap (alloca_value M pointerTypeSize (an_allocaFunctions an) F) (all_insts M);
  pp_access : ∀ I e', (I, e') ∈ in_instToEntryMap x → ∃ F i e, (F, i) ∈ all_insts M ∧ I = i_id i ∧ numbered e' e ∧
    (load_entry (an_accessFunctions an) (an_touchesToSkip an) (F, i) = Some e ∨
     store_entry (an_accessFunctions an) (an_touchesToSkip an) (F, i) = Some e) ∧
    ∃ d, getDebugData (writeDebugData dds) !! en_id (en_debug e') = Some d ∧
      c_str (pathToFile d) = c_str (en_path (en_debug e)) ∧ lineNum d = en_line (en_debug e) ∧ columnNum d = en_column (en_debug e);
  pp_globals : ∀ e, e ∈ getGlobals M pointerTypeSize → ∃ e', e' ∈ allocations (in_visitor x) ∧ numbered e' e ∧
    ∃ d, getDebugData (writeDebugData dds) !! en_id (en_debug e') = Some d ∧
      c_str (varName d) = c_str (en_var (en_debug e)) ∧ lineNum d = en_line (en_debug e);
  pp_complete : an_disableStateUses an = false → ∀ F i, (F, i) ∈ all_insts M →
    is_Some (load_entry (an_accessFunctions an) (an_touchesToSkip an) (F, i)) ∨
    is_Some (store_entry (an_accessFunctions an) (an_touchesToSkip an) (F, i)) → i_id i ∈ (in_instToEntryMap x).*1;
}.

Lemma deallocs_input v : visit M pointerTypeSize (an_allocaFunctions an) (an_accessFunctions an) (an_touchesToSkip an) = Some v →
  Forall (λ Fi, ∃ F B w c o, at_anchor (base M (an_unique an)) (AtInst (i_id Fi.2)) F B (Orig Fi.2) ∧ i_op Fi.2 = CallInst c o ∧
    first_operand Fi.2 = Some w) (deallocs v).
Proof.
  intros Hv. rewrite visit_fold in Hv. apply adds_fold in Hv as (_ & _ & _ & Hd & _). simpl in Hd. rewrite Hd.
  apply Forall_forall. intros Fi H. apply list_elem_of_omap in H as ([F i] & Hin & Hf).
  destruct (im_deallocs _ _ Hm (F, i) Hin) as (c & w & o & Hop); [by eexists|].
  assert (Fi = (F, i)) as ->.
  { unfold dealloc_call in Hf. apply bind_Some in Hf as ([[cc os] l] & _ & Hf). destruct (functionCalls cc); try done; by injection Hf. }
  destruct (inst_place M (an_unique an) (im_ok _ _ Hm) (im_unique _ _ Hm) F i Hin) as ((B & Hat) & _).
  exists F, B, w, c, (w :: o). split; [done|]. split; [done|]. unfold first_operand. simpl in *. by rewrite Hop.
Qed.

Lemma returns_input v : visit M pointerTypeSize (an_allocaFunctions an) (an_accessFunctions an) (an_touchesToSkip an) = Some v →
  returns v = omap return_inst (all_insts M) ∧
  Forall (λ Fi, ∃ B, at_anchor (base M (an_unique an)) (AtInst (i_id Fi.2)) Fi.1 B (Orig Fi.2) ∧ i_op Fi.2 = ReturnInst) (returns v).
Proof.
  intros Hv. rewrite visit_fold in Hv. apply adds_fold in Hv as (_ & _ & _ & _ & Hr & _). simpl in Hr. split; [done|]. rewrite Hr.
  apply Forall_forall. intros Fi H. apply list_elem_of_omap in H as ([F i] & Hin & Hf). unfold return_inst in Hf. simpl in Hf.
  destruct (i_op i) eqn:Hop; try done. injection Hf as <-.
  destruct (inst_place M (an_unique an) (im_ok _ _ Hm) (im_unique _ _ Hm) F i Hin) as ((B & Hat) & _). by exists B.
Qed.

Lemma access_input F i e e' : (F, i) ∈ all_insts M → numbered e' e →
  load_entry (an_accessFunctions an) (an_touchesToSkip an) (F, i) = Some e ∨
  store_entry (an_accessFunctions an) (an_touchesToSkip an) (F, i) = Some e →
  access_ok (base M (an_unique an)) (callstacks M (an_unique an)) (i_id i, e') ∧ is_Some (en_allocPointer e').
Proof.
  intros Hin Hn He. destruct (numbered_fields _ _ Hn) as (Ev & _ & Ep & _).
  destruct (inst_place M (an_unique an) (im_ok _ _ Hm) (im_unique _ _ Hm) F i Hin) as ((B & Hat) & Hcs & _).
  assert (en_value e = Inst (i_id i) ∧ is_Some (access_group F i e') ∧ is_Some (en_allocPointer e)) as (Ev' & Hg & Hptr).
  { unfold load_entry, store_entry, access_group in *. simpl in He. destruct He as [He|He]; destruct (i_op i); try done; case_decide; try done;
      injection He as <-; split_and!; try done; by eexists. }
  split; [|by rewrite Ep]. split; [simpl; congruence|]. by exists F, B, i.
Qed.

(** The vectors with their identifiers are an input for the instrumentation. *)
Lemma input_prepared v us la lc lr lu ls ll map x :
  visit M pointerTypeSize (an_allocaFunctions an) (an_accessFunctions an) (an_touchesToSkip an) = Some v →
  filterLibraryCalls (an_called an) (an_pure an) (unknowns v) = Some us →
  Forall2 numbered la (allocations v ++ getGlobals M pointerTypeSize) → Forall2 numbered lc (callocs v) →
  Forall2 numbered lr (reallocs v) → Forall2 numbered lu us →
  in_visitor x = MkVisitor (callsToStartTracking v) (returns v) (invokes v) (escapes v) (deallocs v) ll ls la lc lr lu (functionAllocaMap v) →
  in_callstacks x = callstacks M (an_unique an) → in_instToEntryMap x = map →
  (∃ s, an_select an map = Some s ∧ in_onlyRead x = an_elements an (onlyReadToInstrument s) ∧
    in_directState x = directStateToInstrumentAll s) → NoDup map.*1 →
  (∀ I e', (I, e') ∈ map → access_ok (base M (an_unique an)) (callstacks M (an_unique an)) (I, e') ∧ is_Some (en_allocPointer e')) →
  input_ok x (base M (an_unique an)).
Proof.
  intros Hv Hus Hla Hlc Hlr Hlu Ex Ecs Emap (s & Es & Eor & Eds) Hkeys Hacc.
  destruct (ao_select _ Ha map) as (s' & Es' & Hor & Hds). rewrite Es in Es'. injection Es' as <-.
  destruct (visit_collected M pointerTypeSize (an_allocaFunctions an) (an_accessFunctions an) (an_touchesToSkip an) v Hp Hv)
    as [C1 C2 C3 C4 C5].
  assert (∀ l I, l = map → I ∈ l.*1 → ∃ e, (I, e) ∈ map) as Hkey.
  { intros l I -> HI. apply list_elem_of_fmap in HI as ([I' e] & -> & He). by exists e. }
  split; rewrite ?Ex, ?Ecs, ?Emap, ?Eor, ?Eds; cbn [allocations callocs reallocs unknowns deallocs returns invokes].
  - eapply (Forall_numbered (λ e, alloc_args e ∧ (entry_from M alloc_args e ∨ ∃ g, en_value e = GlobalVar g))); [exact Hla| |].
    + apply Forall_app. split.
      * eapply Forall_impl; [exact C1|]. intros e He. split; [by destruct He as (F & i & _ & _ & _ & _ & ?)|by left].
      * eapply Forall_impl; [by apply getGlobals_args|]. intros e [Hg Hargs]. split; [done|by right].
    + intros e' e Hn [[Hargs1 Hargs2] Hfrom]. destruct (numbered_fields _ _ Hn) as (Ev & EF & E1 & _ & E2 & _ & E3 & _).
      eapply allocation_ok; [apply Hm|apply Hm| |done|done|done]. split; rewrite ?E1, ?E2, ?E3; done.
  - eapply (Forall_numbered (entry_from M calloc_args)); [exact Hlc|done|]. intros e' e Hn Hfrom.
    destruct (numbered_fields _ _ Hn) as (Ev & EF & E1 & _ & E2 & E3 & _). eapply calloc_ok; [apply Hm|apply Hm| |done|done|done].
    destruct Hfrom as (_ & _ & _ & _ & _ & _ & ? & ? & ?). by split_and!; rewrite ?E1, ?E2, ?E3.
  - eapply (Forall_numbered (entry_from M realloc_args)); [exact Hlr|done|]. intros e' e Hn Hfrom.
    destruct (numbered_fields _ _ Hn) as (Ev & EF & E1 & E2 & E3 & _). eapply realloc_ok; [apply Hm|apply Hm| |done|done|done].
    destruct Hfrom as (_ & _ & _ & _ & _ & _ & ? & ? & ?). by split_and!; rewrite ?E1, ?E2, ?E3.
  - apply filterLibraryCalls_sub in Hus. eapply (Forall_numbered (entry_from M (λ _, True))); [exact Hlu| |].
    + rewrite Forall_forall in C4 |- *. intros e He. apply C4. by eapply elem_of_sublist.
    + intros e' e Hn Hfrom. destruct (numbered_fields _ _ Hn) as (Ev & EF & _). eapply unknown_ok; [apply Hm|apply Hm|done..].
  - apply Forall_forall. intros [I e] He. by apply Hacc.
  - done.
  - apply Forall_forall. intros I HI. apply (ao_elements _ Ha), Hor in HI. destruct (Hkey map I eq_refl HI) as (e & He).
    destruct (Hacc I e He) as [_ [q Hq]]. by exists e, q.
  - apply Forall_forall. intros d Hd. apply Hds in Hd. by apply (Hkey map (ds_inst d) eq_refl).
  - by apply deallocs_input.
  - by apply returns_input.
  - eapply Forall_impl; [exact C5|]. intros [F i] (Hin & c & o & nd & u & Hop).
    destruct (inst_place M (an_unique an) (im_ok _ _ Hm) (im_unique _ _ Hm) F i Hin) as (_ & _ & Hinv).
    destruct (Hinv c o nd u Hop) as [_ [l Hl]]. by exists c, o, nd, u, l.
Qed.

Lemma prepare_prepared : ∃ x dds, prepare pointerTypeSize M an = Some (x, dds) ∧ prepared x dds.
Proof.
  destruct (visit_total M pointerTypeSize (an_allocaFunctions an) (an_accessFunctions an) (an_touchesToSkip an)) as (v & Hv);
    [apply Hm|].
  destruct (unknowns_total M pointerTypeSize (an_allocaFunctions an) (an_accessFunctions an) (an_touchesToSkip an) (an_called an)
    (an_pure an) v (im_called _ _ Hm) Hv) as (us & Hus).
  destruct (collected_fits M pointerTypeSize (an_allocaFunctions an) (an_accessFunctions an) (an_touchesToSkip an) (an_called an)
    (an_pure an) v us (im_insts _ _ Hm) (im_globals _ _ Hm) (im_size _ _ Hm) Hv Hus) as [Hr Hl].
  set (all := [allocations v ++ getGlobals M pointerTypeSize; callocs v; reallocs v; us; stores v; loads v]) in *.
  destruct (number_resolves all Hr Hl) as (all' & dds & Hn & _ & _ & Hres). pose proof (number_lists _ _ _ Hn) as Hlists.
  unfold all in Hlists. apply Forall2_cons_inv_r in Hlists as (la & ? & Hla & Hlists & ->).
  apply Forall2_cons_inv_r in Hlists as (lc & ? & Hlc & Hlists & ->). apply Forall2_cons_inv_r in Hlists as (lr & ? & Hlr & Hlists & ->).
  apply Forall2_cons_inv_r in Hlists as (lu & ? & Hlu & Hlists & ->). apply Forall2_cons_inv_r in Hlists as (ls & ? & Hls & Hlists & ->).
  apply Forall2_cons_inv_r in Hlists as (ll & ? & Hll & Hlists & ->). apply Forall2_nil_inv_r in Hlists as ->.
  unfold prepare. rewrite Hv. cbn [mbind option_bind]. rewrite Hus. cbn [mbind option_bind]. fold all. rewrite Hn.
  cbn [mbind option_bind with_entries stores loads].
  set (map := if an_disableStateUses an then [] else an_order an (omap access_of (ls ++ ll))).
  destruct (ao_select _ Ha map) as (sel & Esel & _). cbv zeta. fold map. rewrite Esel. cbn [mbind option_bind].
  eexists _, dds. split; [reflexivity|].
  destruct (accesses_from_insts M pointerTypeSize (an_allocaFunctions an) (an_accessFunctions an) (an_touchesToSkip an) v (im_ok _ _ Hm) Hv)
    as [Hkeys Hfrom].
  assert (Forall2 numbered (ls ++ ll) (stores v ++ loads v)) as Hsl by (by apply Forall2_app).
  assert (NoDup map.*1) as Hnd.
  { unfold map. destruct (an_disableStateUses an); [constructor|]. rewrite (ao_order _ Ha), (access_keys_numbered _ _ Hsl). done. }
  assert (∀ I e', (I, e') ∈ map → (I, e') ∈ omap access_of (ls ++ ll)) as Hmap.
  { intros I e'. unfold map. destruct (an_disableStateUses an); [by intros H%elem_of_nil|]. by rewrite (ao_order _ Ha). }
  assert (∀ I e', (I, e') ∈ map → ∃ F i e, (F, i) ∈ all_insts M ∧ I = i_id i ∧ numbered e' e ∧
    (load_entry (an_accessFunctions an) (an_touchesToSkip an) (F, i) = Some e ∨
     store_entry (an_accessFunctions an) (an_touchesToSkip an) (F, i) = Some e)) as Hacc.
  { intros I e' H. apply Hmap in H. destruct (access_of_numbered _ _ Hsl I e' H) as (e & He & Hnum).
    destruct (Hfrom I e He) as (F & i & Hin & -> & _ & Hle). by exists F, i, e. }
  split; try done.
  - eapply (input_prepared v us la lc lr lu ls ll map); try done; [by exists sel|]. intros I e' H. destruct (Hacc I e' H) as (F & i & e & Hin & -> & Hnum & He).
    by eapply access_input.
  - by exists sel.
  - by destruct (returns_input v Hv).
  - rewrite visit_fold in Hv. apply adds_fold in Hv as (_ & _ & _ & _ & _ & Hal). intros F. simpl. rewrite Hal. simpl. by rewrite lookup_empty.
  - cbn [in_instToEntryMap]. intros I e' H. destruct (Hacc I e' H) as (F & i & e & Hin & -> & Hnum & He).
    exists F, i, e. split_and!; try done. destruct (Hres e') as (d & Hd & H1 & _ & H3 & H4).
    { apply Hmap in H. apply list_elem_of_omap in H as (e1 & He1 & Hacc1). unfold access_of in Hacc1.
      destruct (en_value e1); try done. injection Hacc1 as _ ->. cbn [concat]. rewrite !elem_of_app in *. tauto. }
    destruct Hnum as [_ Hsame]. injection Hsame as Ep Evar El Ec. exists d. rewrite <- Ep, <- El, <- Ec. done.
  - cbn [in_visitor allocations]. intros e He.
    destruct (Forall2_partner _ _ _ e Hla) as (e' & He' & Hnum); [by apply elem_of_app; right|].
    exists e'. split; [done|]. split; [done|]. destruct (Hres e') as (d & Hd & _ & H2 & H3 & _);
      [cbn [concat]; rewrite !elem_of_app in *; tauto|].
    destruct Hnum as [_ Hsame]. injection Hsame as Ep Evar El Ec. exists d. rewrite <- Evar, <- El. done.
  - intros Hd F i Hin Hsel. cbn [in_instToEntryMap]. unfold map. rewrite Hd, (ao_order _ Ha), (access_keys_numbered _ _ Hsl).
    rewrite visit_fold in Hv. apply adds_fold in Hv as (Hlo & Hst & _). simpl in Hlo, Hst. rewrite Hlo, Hst.
    assert (∃ e, e ∈ omap (store_entry (an_accessFunctions an) (an_touchesToSkip an)) (all_insts M) ++
      omap (load_entry (an_accessFunctions an) (an_touchesToSkip an)) (all_insts M) ∧ en_value e = Inst (i_id i)) as (e & He & Ev).
    { destruct Hsel as [[e He]|[e He]]; exists e; (split; [apply elem_of_app|]).
      - right. by eapply omap_elem.
      - unfold load_entry in He. simpl in He. destruct (i_op i); try done. case_decide; [by injection He as <-|done].
      - left. by eapply omap_elem.
      - unfold store_entry in He. simpl in He. destruct (i_op i); try done. case_decide; [by injection He as <-|done]. }
    apply list_elem_of_fmap. exists (i_id i, e). split; [done|]. apply list_elem_of_omap. exists e. split; [done|].
    unfold access_of. by rewrite Ev.
Qed.

(** The result of the pass, as the edits that made it. *)
Lemma pass_expand : cycleFindingOpt (an_options an) = false → an_disableAll an = false →
  ∃ x dds log, pass pointerTypeSize M an =
      Some (map_blocks (λ F _ items, items ≫= final_item F log) (base M (an_unique an)), dds) ∧
    prepare pointerTypeSize M an = Some (x, dds) ∧ prepared x dds ∧ pass_log x (base M (an_unique an)) log.
Proof.
  intros Hcycle Hdis. destruct prepare_prepared as (x & dds & Hx & Hpp).
  destruct (main_entry M (an_unique an) (im_ok _ _ Hm) (im_unique _ _ Hm)) as (B & c & rest & Hent).
  assert (base_of M x = base M (an_unique an)) as Eb by (unfold base_of, base; by rewrite (pp_callstacks _ _ Hpp)).
  destruct (runOnModule_expand M x B c rest) as (log & Hrun & Hlog); rewrite ?Eb; try done.
  - by apply base_is_ok, Hm.
  - apply Hpp.
  - unfold cycleFinding. by rewrite (pp_options _ _ Hpp).
  - by rewrite (pp_disable _ _ Hpp).
  - rewrite Eb in Hrun, Hlog. exists x, dds, log. split; [|done]. unfold pass. rewrite Hx. cbn [mbind option_bind].
    rewrite Hrun. done.
Qed.
End pass.

(** ** What the instrumented program does *)

(** The loads and stores of the functions to instrument that no analysis found
    redundant before the visitor ran. *)
Definition to_report (an : analyses) (Fi : string * inst) : Prop :=
  is_Some (load_entry (an_accessFunctions an) (an_touchesToSkip an) Fi) ∨
  is_Some (store_entry (an_accessFunctions an) (an_touchesToSkip an) Fi).

Definition accessed (i : inst) : option value :=
  match i_op i with LoadInst p | StoreInst _ p _ _ _ => Some p | _ => None end.

(** The call that reports the access [i] as [id], with the cast of its pointer. *)
Definition reports_access (F : string) (i : inst) (id : Z) (g : list item) : Prop :=
  ∃ p f args, accessed i = Some p ∧
    g = [Rt (PointerCast p); Rt (RuntimeCall f (AConst id :: APointerCast p :: args))] ∧ last args = Some (ACallstack F) ∧
    f = match i_op i with LoadInst _ => TEXAS_ADD_WITH_INFO_LOAD | _ => TEXAS_ADD_WITH_INFO end.

Section facts.
  Context (pointerTypeSize : Z) (M : modul) (an : analyses) (x : instrumentation) (dds : list DebugData).
  Context (Hm : input_module M an) (Hpp : prepared pointerTypeSize M an x dds).

Lemma entry_of_access F i e : load_entry (an_accessFunctions an) (an_touchesToSkip an) (F, i) = Some e ∨
  store_entry (an_accessFunctions an) (an_touchesToSkip an) (F, i) = Some e → en_debug e = access_debug i.
Proof.
  unfold load_entry, store_entry. simpl. intros [H|H]; destruct (i_op i); try done; case_decide; try done; by injection H as <-.
Qed.

(** The key of the map of accesses is that of one instruction. *)
Lemma same_inst F i F' i' : (F, i) ∈ all_insts M → (F', i') ∈ all_insts M → i_id i = i_id i' → (F, i) = (F', i').
Proof.
  intros H H' E. apply in_all_insts in H as (f & Hf & <- & Hi), H' as (f' & Hf' & <- & Hi').
  apply in_f_insts in Hi as (b & Hb & Hi), Hi' as (b' & Hb' & Hi').
  by destruct (inst_unique M (im_ok _ _ Hm) f b i f' b' i') as (<- & _ & <-).
Qed.

Lemma selected_iff F i : (F, i) ∈ all_insts M → an_disableStateUses an = false →
  (is_Some (selected x i) ↔ to_report an (F, i) ∧ i_id i ∉ in_instsToSkip x).
Proof.
  intros Hin Hd. unfold selected. case_decide as Hs; [split; [by intros []|by intros [_ ?]]|]. split.
  - intros [id H]. apply bind_Some in H as (e & He & _). apply elem_of_list_to_map_2 in He. split; [|done].
    destruct (pp_access _ _ _ _ _ Hpp _ _ He) as (F' & i' & e0 & Hin' & E & _ & Hle & _).
    rewrite (same_inst F i F' i' Hin Hin' E). destruct Hle as [H|H]; [left|right]; by eexists.
  - intros [Hr _]. pose proof (pp_complete _ _ _ _ _ Hpp Hd F i Hin Hr) as Hk. apply list_elem_of_fmap in Hk as ([I e] & E & He).
    simpl in E. subst I. rewrite (map_lookup x (i_id i) e (io_keys _ _ (pp_input _ _ _ _ _ Hpp)) He). by eexists.
Qed.

Lemma in_base_inst F B l i : in_block (base M (an_unique an)) F B l → Orig i ∈ l → (F, i) ∈ all_insts M.
Proof.
  intros Hl Hi. assert (AtInst (i_id i) ∈ omap anchor_of l) as Ha by (apply list_elem_of_omap; by exists (Orig i)).
  apply in_base in Hl as (f & b & Hf & <- & <- & Hbl). apply in_all_insts. exists f. split; [done|]. split; [done|].
  apply in_f_insts. exists b. 
  assert (∀ first, Orig i ∈ block_items (callstacks M (an_unique an)) f first b → i ∈ b_insts b) as Hin.
  { intros first H. unfold block_items in H. apply elem_of_app in H as [H|H].
    - destruct first; [|by apply elem_of_nil in H]. destruct (_ !! _); [|by apply elem_of_nil in H].
      by apply list_elem_of_singleton in H.
    - by apply list_elem_of_fmap in H as (j & [= ->] & H). }
  destruct Hbl as [(bs & -> & ->)|(b0 & bs & -> & Hb & ->)]; (split; [by constructor|by eapply Hin]).
Qed.

(** What follows an access that is reported. *)
Lemma report_after log F B l i id : pass_log x (base M (an_unique an)) log → in_block (base M (an_unique an)) F B l →
  Orig i ∈ l → selected x i = Some id → reports_access F i id (post_of log (AtInst (i_id i))) ∧
  ∃ d, getDebugData (writeDebugData dds) !! id = Some d ∧ c_str (pathToFile d) = c_str (en_path (access_debug i)) ∧
    lineNum d = en_line (access_debug i) ∧ columnNum d = en_column (access_debug i).
Proof.
  intros Hlog Hl Hi Hsel. assert (base_of M x = base M (an_unique an)) as Eb by (unfold base_of, base; by rewrite (pp_callstacks _ _ _ _ _ Hpp)).
  destruct (access_followed M x log F B l i id) as (e & g & He & Hg & <- & Hpost); rewrite ?Eb; try done;
    [by apply base_is_ok, Hm|apply Hpp|].
  rewrite Hpost. split.
  - unfold access_group in Hg. unfold reports_access, accessed. destruct (i_op i); try done; injection Hg as <-; by eexists _, _, _.
  - destruct (pp_access _ _ _ _ _ Hpp _ _ He) as (F' & i' & e0 & Hin' & E & _ & Hle & d & Hd & H1 & H2 & H3).
    pose proof (same_inst F i F' i' (in_base_inst F B l i Hl Hi) Hin' E) as Ei. injection Ei as <- <-.
    rewrite (entry_of_access F i e0 Hle) in *. by exists d.
Qed.
End facts.

Section result.
  Context (pointerTypeSize : Z) (M : modul) (an : analyses).
  Context (Hp : pointerTypeSize ≠ 0) (Hm : input_module M an) (Ha : analyses_ok an).
  Context (Hcycle : cycleFindingOpt (an_options an) = false) (Hdis : an_disableAll an = false).

(** C7: the instrumented program reports its accesses, all of them and nothing
    else.  On every well-formed module the pass succeeds.  In every block of its
    result the calls that report an access are, in order, those of the accesses
    selected in the block; an access is selected when it is one to report and no
    optimisation took it over; right after it come the cast of its pointer and the
    call that reports it, and the identifier the call passes finds in the file of
    source positions the path, line and column of the access. *)
Theorem accesses_reported :
  ∃ x st dds, prepare pointerTypeSize M an = Some (x, dds) ∧ pass pointerTypeSize M an = Some (st, dds) ∧
    (∀ F i, (F, i) ∈ all_insts M → an_disableStateUses an = false →
      (is_Some (selected x i) ↔ to_report an (F, i) ∧ i_id i ∉ in_instsToSkip x)) ∧
    ∀ F B items, in_block st F B items → omap report items = omap (selected x) (omap is_orig items) ∧
      ∀ l1 i l2 id, items = l1 ++ Orig i :: l2 → selected x i = Some id →
        (∃ g rest, l2 = g ++ rest ∧ reports_access F i id g) ∧
        ∃ d, getDebugData (writeDebugData dds) !! id = Some d ∧ c_str (pathToFile d) = c_str (en_path (access_debug i)) ∧
          lineNum d = en_line (access_debug i) ∧ columnNum d = en_column (access_debug i).
Proof.
  destruct (pass_expand pointerTypeSize M an Hp Hm Ha Hcycle Hdis) as (x & dds & log & Hpass & Hprep & Hpp & Hlog).
  eexists x, _, dds. split; [done|]. split; [exact Hpass|]. split; [by eapply selected_iff|].
  intros F B items Hb. apply in_block_map in Hb as (l & Hl & ->).
  assert (base_of M x = base M (an_unique an)) as Eb by (unfold base_of, base; by rewrite (pp_callstacks _ _ _ _ _ Hpp)).
  split; [apply (block_reports M x log F B); rewrite ?Eb; [by apply base_is_ok, Hm|apply Hpp|done|done]|].
  intros l1 i l2 id Eq Hsel. destruct (around M x log F B l l1 i l2) as (k1 & k2 & -> & _ & ->); rewrite ?Eb; [apply Hlog|done|done|].
  destruct (report_after pointerTypeSize M an x dds Hm Hpp log F B (k1 ++ Orig i :: k2) i id) as [Hg Hd]; [done..| |done|].
  { apply elem_of_app. right. by left. }
  split; [|done]. by eexists _, _.
Qed.

(** C35: a function releases its variables when it returns.  In the result of the
    pass what was inserted right before a return holds, in order, the removal of
    every alloca recorded for the function; a return of [main] has the epilogue
    directly before it. *)
Theorem returns_release :
  ∃ st dds, pass pointerTypeSize M an = Some (st, dds) ∧
    ∀ F B items l1 i l2, in_block st F B items → items = l1 ++ Orig i :: l2 → i_op i = ReturnInst →
      ∃ l0 txt, l1 = l0 ++ txt ∧ Forall (λ y, plain y = true) txt ∧
        (omap (alloca_value M pointerTypeSize (an_allocaFunctions an) F) (all_insts M) ≫= remove_group) `sublist_of` txt ∧
        (F = "main" → last txt = Some (Rt (RuntimeCall MEMORYTOOL_EPILOGUE []))).
Proof.
  destruct (pass_expand pointerTypeSize M an Hp Hm Ha Hcycle Hdis) as (x & dds & log & Hpass & _ & Hpp & Hlog).
  eexists _, dds. split; [exact Hpass|]. intros F B items l1 i l2 Hb Eq Hret. apply in_block_map in Hb as (l & Hl & E). rewrite E in Eq. clear E.
  assert (base_of M x = base M (an_unique an)) as Eb by (unfold base_of, base; by rewrite (pp_callstacks _ _ _ _ _ Hpp)).
  destruct (around M x log F B l l1 i l2) as (k1 & k2 & -> & -> & _); rewrite ?Eb; [apply Hlog|done|done|].
  eexists _, _. split; [reflexivity|]. split; [|split].
  - apply Forall_app. split; [apply pre_of_plain, Hlog|]. case_decide; [by apply Forall_singleton|constructor].
  - apply sublist_inserts_r. assert ((F, i) ∈ returns (in_visitor x)) as Hin.
    { rewrite (pp_returns _ _ _ _ _ Hpp). apply list_elem_of_omap. exists (F, i). split; [|unfold return_inst; simpl; by rewrite Hret].
      eapply in_base_inst; [exact Hl|]. apply elem_of_app. right. by left. }
    rewrite <- (pp_allocas _ _ _ _ _ Hpp). eapply (return_text M x log (F, i)); [by rewrite Eb|done].
  - intros ->. rewrite decide_True by (split; [done|]; simpl; by rewrite Hret). by rewrite last_snoc.
Qed.

Lemma post_of_member log a g : After a g ∈ log → g `sublist_of` post_of log a.
Proof.
  induction log as [|e log IH] using rev_ind; intros Hin; [by apply elem_of_nil in Hin|]. rewrite post_of_snoc.
  apply elem_of_app in Hin as [Hin|Hin].
  - etrans; [by apply IH|]. destruct e; simpl; try done. case_decide; [|done]. by apply sublist_inserts_l.
  - apply list_elem_of_singleton in Hin as <-. simpl. rewrite decide_True by done. by apply sublist_inserts_r.
Qed.

(** The call that registers a global is behind the callstack of [main]. *)
Lemma global_registered x dds log B c rest e : prepared pointerTypeSize M an x dds → pass_log x (base M (an_unique an)) log →
  entry_block (base M (an_unique an)) "main" B (Callstack "main" c :: rest) → e ∈ getGlobals M pointerTypeSize →
  ∃ id args d, Rt (RuntimeCall TEXAS_MALLOC (AConst id :: args)) ∈ post_of log (AtCallstack "main") ∧
    (∃ p, en_allocPointer e = Some p ∧ head args = Some (APointerCast p)) ∧
    getDebugData (writeDebugData dds) !! id = Some d ∧
    c_str (varName d) = c_str (en_var (en_debug e)) ∧ lineNum d = en_line (en_debug e).
Proof.
  intros Hpp Hlog Hent He. destruct (pp_globals _ _ _ _ _ Hpp e He) as (e' & He' & Hnum & d & Hd & H1 & H2).
  destruct (pass_post x _ log (AtCallstack "main") Hlog) as (La & Lo & Lr & Ld & -> & Ra & _).
  apply list_elem_of_lookup in He' as [k Hk]. destruct (Forall2_lookup_l _ _ _ _ _ Ra Hk) as (es & Hes & g & a & F & B' & y & ed & Eg & Hat & -> & Hc).
  assert (∃ n, en_value e' = GlobalVar n) as [n Ev].
  { destruct (numbered_fields _ _ Hnum) as (-> & _). unfold getGlobals in He. apply list_elem_of_omap in He as (gl & _ & Hg).
    case_decide; [done|]. destruct (g_isPointerTy gl); [|done]. destruct (g_debug gl) as [[[[? ?] ?] ?]|]; [|done]. injection Hg as <-. by eexists. }
  unfold allocation_group in Eg. apply bind_Some in Eg as (p & Hptr & Eg). apply bind_Some in Eg as ([cast size] & _ & Eg).
  rewrite Ev in Eg. apply bind_Some in Eg as ([a' cs] & Hcs & [= <- <-]). apply bind_Some in Hcs as (cs' & _ & [= <- <-]).
  assert (at_anchor (base M (an_unique an)) (AtCallstack "main") "main" B (Callstack "main" c)) as Hat0.
  { exists (Callstack "main" c :: rest). split; [by apply entry_in_block|]. split; [by left|done]. }
  destruct (at_anchor_unique _ _ _ _ _ _ _ _ (base_is_ok M _ (im_ok _ _ Hm)) Hat Hat0) as (-> & -> & ->). simpl in Hc. subst ed.
  eexists _, _, d. split; [|split; [|done]].
  - apply elem_of_app. right. apply elem_of_app. right. eapply elem_of_sublist; [|apply post_of_member].
    2: { apply elem_of_app. left. apply list_elem_of_In, in_concat. eexists. split; apply list_elem_of_In; [by eapply list_elem_of_lookup_2|by left]. }
    do 2 right. left.
  - exists p. split; [|done]. destruct (numbered_fields _ _ Hnum) as (_ & _ & <- & _). done.
Qed.

(** [main] starts with the prologue.  The first instruction of [main] in the
    result of the pass is the prologue, with the options of the pass as its
    arguments; behind it, before any instruction of the program, [main] builds its
    callstack and registers every global that has a source position, under an
    identifier that finds the name and line of the global. *)
Theorem main_starts :
  ∃ st dds B c txt post rest, pass pointerTypeSize M an = Some (st, dds) ∧
    entry_block st "main" B (Rt (RuntimeCall MEMORYTOOL_PROLOGUE (prologue_args (an_options an))) :: txt ++ Callstack "main" c :: post ++ rest) ∧
    Forall (λ y, plain y = true) txt ∧ Forall (λ y, plain y = true) post ∧
    ∀ e, e ∈ getGlobals M pointerTypeSize → ∃ id args d, Rt (RuntimeCall TEXAS_MALLOC (AConst id :: args)) ∈ post ∧
      (∃ p, en_allocPointer e = Some p ∧ head args = Some (APointerCast p)) ∧
      getDebugData (writeDebugData dds) !! id = Some d ∧
      c_str (varName d) = c_str (en_var (en_debug e)) ∧ lineNum d = en_line (en_debug e).
Proof.
  destruct (pass_expand pointerTypeSize M an Hp Hm Ha Hcycle Hdis) as (x & dds & log & Hpass & _ & Hpp & Hlog).
  destruct (main_entry M (an_unique an) (im_ok _ _ Hm) (im_unique _ _ Hm)) as (B & c & rest & Hent).
  destruct (prologue_first M x log) as (txt & Htxt).
  { assert (base_of M x = base M (an_unique an)) as -> by (unfold base_of, base; by rewrite (pp_callstacks _ _ _ _ _ Hpp)). done. }
  pose proof (pre_of_plain log (AtCallstack "main") (proj1 (pl_ok _ _ _ Hlog))) as Hplain. rewrite Htxt in Hplain.
  apply Forall_cons in Hplain as [_ Hplain].
  exists (map_blocks (λ F _ items, items ≫= final_item F log) (base M (an_unique an))), dds, B, c, txt,
    (post_of log (AtCallstack "main")), (rest ≫= final_item "main" log).
  split; [done|]. split; [|split; [done|split; [by apply post_of_plain, Hlog|by intros e He; eapply global_registered]]].
  destruct Hent as (bs & Hbs). eexists. unfold map_blocks. apply list_elem_of_fmap. exists ("main", (B, Callstack "main" c :: rest) :: bs).
  split; [|done]. simpl. f_equal. f_equal. f_equal. unfold final_item at 2. simpl. rewrite Htxt.
  rewrite (pp_options _ _ _ _ _ Hpp). simpl. by rewrite <- app_assoc.
Qed.
End result.

(** ** An example *)

Module Demo.
(** The program of Visitor.v; the load on line 5 is found to be a read that needs a
    report once only. *)
Definition M : modul := Visitor.Demo.M.

Definition options : runtime_options := MkOptions false false false true false false false false.

Definition an : analyses :=
  MkAnalyses {["main"]} {["main"]} {[5]} Visitor.Demo.called (λ _, false) {["unique"]} (λ l, reverse l)
    (λ l, Some (MkSelection (filter (λ I, I = 4) (list_to_set l.*1)) [] ∅ ∅ ∅ ∅ (filter (λ I, I = 4) (list_to_set l.*1))))
    elements (λ _, 32) false false false options.

Lemma an_ok : analyses_ok an.
Proof.
  split.
  - intros l. apply reverse_Permutation.
  - intros X I. apply elem_of_elements.
  - intros l. eexists. split; [reflexivity|]. split; [|by intros d ?%elem_of_nil].
    intros I HI. by apply elem_of_filter in HI as [_ ?%elem_of_list_to_set].
Qed.

Lemma M_blocks f b : f ∈ m_functions M → b ∈ f_blocks f → f = Visitor.Demo.main ∧ head (f_blocks f) = Some b.
Proof.
  intros Hf Hb. apply list_elem_of_In in Hf. simpl in Hf. destruct Hf as [<-|[<-|[<-|[<-|[]]]]]; try (by apply elem_of_nil in Hb).
  by apply list_elem_of_singleton in Hb as ->.
Qed.

Lemma M_ok : module_ok M.
Proof.
  split.
  - by apply (bool_decide_unpack _).
  - intros f Hf. apply list_elem_of_In in Hf. simpl in Hf. destruct Hf as [<-|[<-|[<-|[<-|[]]]]]; by apply (bool_decide_unpack _).
  - apply (bool_decide_unpack _). vm_compute. exact I.
  - intros f b Hf Hb. destruct (M_blocks f b Hf Hb) as [-> [= <-]]. constructor. unfold b_insts.
    match goal with |- ∃ _ _ _, ?l = _ ∧ _ => exists [], (removelast l), (List.last l (MkInst 0 ReturnInst None NoDeclare)) end.
    split; [done|]. split; [constructor|]. split; [repeat constructor|done].
  - intros f b bs Hf Hbl. destruct (M_blocks f b Hf) as [-> _]; [rewrite Hbl; by left|]. injection Hbl as <- <-. repeat constructor.
  - intros f i c o nd u Hf Hi Hop. apply in_f_insts in Hi as (b & Hb & Hi). destruct (M_blocks f b Hf Hb) as [-> [= <-]].
    apply list_elem_of_In in Hi. simpl in Hi. repeat (destruct Hi as [<-|Hi]; [done|]). done.
  - intros f Hf. apply list_elem_of_In in Hf. simpl in Hf. by destruct Hf as [<-|[<-|[<-|[<-|[]]]]].
  - exists Visitor.Demo.main. split; [by left|done].
Qed.

Lemma M_input : input_module M an.
Proof.
  split.
  - apply M_ok.
  - apply Visitor.Demo.M_visitable.
  - unfold all_insts. simpl. repeat (constructor; [unfold recordable_inst, recordable, u32, STRING_SIZE; simpl; try lia; try done|]).
    constructor.
  - constructor; [|constructor]. intros directory filename name line H. injection H as <- <- <- <-.
    unfold recordable, u32, STRING_SIZE. simpl. lia.
  - intros Fi Hin. apply list_elem_of_In in Hin. unfold all_insts in Hin. simpl in Hin.
    repeat (destruct Hin as [<-|Hin]; [cbn; intros; first [by destruct H | by eexists]|]). done.
  - vm_compute. reflexivity.
  - vm_compute. reflexivity.
  - intros Fi Hin. apply list_elem_of_In in Hin. unfold all_insts in Hin. simpl in Hin.
    repeat (destruct Hin as [<-|Hin]; [cbn; intros; first [by destruct H | by eexists _, _, _]|]). done.
Qed.

Definition store3 : inst := MkInst 3 (StoreInst (OtherValue 101) (Inst 1) false 32 32) (Visitor.Demo.loc 4 5) NoDeclare.
Definition load4 : inst := MkInst 4 (LoadInst (Inst 1)) (Visitor.Demo.loc 5 9) NoDeclare.

(** The identifiers reported by the blocks of [main]. *)
Definition reports_of_main (st : mstate) : list (list Z) :=
  concat ((λ Fbs : string * list (string * list item),
    if decide (Fbs.1 = "main") then (λ B : string * list item, omap report B.2) <$> Fbs.2 else []) <$> st).

(** The store is reported with its identifier 5; the load has a guard instead. *)
Lemma accesses_reported_witness :
  ∃ x st dds, pass 8 M an = Some (st, dds) ∧ is_Some (selected x store3) ∧ selected x load4 = None ∧ reports_of_main st = [[5]].
Proof.
  destruct (accesses_reported 8 M an ltac:(done) M_input an_ok eq_refl eq_refl) as (x & st & dds & Hprep & Hpass & Hsel & _).
  exists x, st, dds. split; [exact Hpass|].
  assert (bool_decide (3 ∈ in_instsToSkip x) = false ∧ bool_decide (4 ∈ in_instsToSkip x) = true) as [H3 H4].
  { set (f (xd : instrumentation * list DebugData) :=
      (bool_decide (3 ∈ in_instsToSkip xd.1), bool_decide (4 ∈ in_instsToSkip xd.1))).
    assert (f <$> Some (x, dds) = Some (false, true)) as H by (rewrite <- Hprep; vm_compute; reflexivity).
    injection H as H3 H4. split; [exact H3|exact H4]. }
  apply bool_decide_eq_false in H3. apply bool_decide_eq_true in H4. split; [|split].
  - apply (Hsel "main" store3); [|done|split; [right; by eexists|done]]. apply list_elem_of_In. vm_compute. tauto.
  - unfold selected. by rewrite decide_True.
  - set (f (r : mstate * list DebugData) := reports_of_main r.1).
    assert (f <$> Some (st, dds) = Some [[5]]) as H by (rewrite <- Hpass; vm_compute; reflexivity). injection H as H. exact H.
Defined.

(** The only return of [main] removes the variable and the epilogue is next to it. *)
Lemma returns_release_witness :
  ∃ st dds, pass 8 M an = Some (st, dds) ∧
    ∀ items l1 i l2, in_block st "main" "entry" items → items = l1 ++ Orig i :: l2 → i_op i = ReturnInst →
      ∃ l0 txt, l1 = l0 ++ txt ∧ remove_group (Inst 1) `sublist_of` txt ∧ last txt = Some (Rt (RuntimeCall MEMORYTOOL_EPILOGUE [])).
Proof.
  destruct (returns_release 8 M an ltac:(done) M_input an_ok eq_refl eq_refl) as (st & dds & Hpass & Hret).
  exists st, dds. split; [exact Hpass|]. intros items l1 i l2 Hb Eq Hop.
  destruct (Hret "main" "entry" items l1 i l2 Hb Eq Hop) as (l0 & txt & El & _ & Hsub & Hlast).
  exists l0, txt. split; [exact El|]. split; [|by apply Hlast].
  assert (omap (alloca_value M 8 (an_allocaFunctions an) "main") (all_insts M) = [Inst 1]) as E by (vm_compute; reflexivity).
  rewrite E in Hsub. exact Hsub.
Defined.

(** The global [counter] is registered at the start of [main]; the arguments of the
    prologue say that the option for outputs is off and the others are on. *)
Lemma main_starts_witness :
  ∃ st dds B c txt post rest, pass 8 M an = Some (st, dds) ∧
    entry_block st "main" B (Rt (RuntimeCall MEMORYTOOL_PROLOGUE
      [AConst 1; AConst 1; AConst 1; AConst 0; AConst 1; AConst 0; AConst 0; AConst 0]) :: txt ++ Callstack "main" c :: post ++ rest) ∧
    ∃ id args, Rt (RuntimeCall TEXAS_MALLOC (AConst id :: args)) ∈ post ∧ head args = Some (APointerCast (GlobalVar 200)).
Proof.
  destruct (main_starts 8 M an ltac:(done) M_input an_ok eq_refl eq_refl)
    as (st & dds & B & c & txt & post & rest & Hpass & Hent & _ & _ & Hglob).
  exists st, dds, B, c, txt, post, rest. split; [exact Hpass|]. split; [exact Hent|].
  destruct (Hglob (MkIEntry (GlobalVar 200) "" (Some (GlobalVar 200)) None None None (variable_size 8 (OtherTy 32 false)) 0
    (MkEntry (path_to_file (text "/src") (text "a.c")) (text "counter") 1 0 0))) as (id & args & _ & Hin & (p & Ep & Hh) & _).
  { apply list_elem_of_In. vm_compute. tauto. }
  exists id, args. split; [exact Hin|]. rewrite Hh. by injection Ep as <-.
Defined.
End Demo.
