(* ===== verification/Compile.v ===== *)
(** * Compile.v: the pass with its analyses

    [runOnModule] of src/src/CatPass.cpp from its first line: the regions of interest
    (ROIs.v), the functions they run (CallGraph.v), the accesses that need no report
    (TouchSame.v) or a guard instead (Selection.v), and the rest of the pass (Pass.v).
    What NOELLE and LLVM answer is a parameter, [noelle], with what the pass relies
    on in [noelle_ok]. *)

From stdpp Require Import relations.
From S2P Require Import Prelude Helpers OrdMap Objects AllocTable ConnGraph Commit CleanBatch Shadow Batch.
From S2P Require Import Memory Callstack UniqueIds Wrapper RunData PostProcess DebugInfo Types CallGraph TouchSame Visitor.
From S2P Require Import ROIs Instrument Selection Placement Instrumented Pass.

(** ** What the pass asks *)

(** The users of a value; the orders in which the calls of a function and the map of
    the regions are iterated; the call graph and the entry of the program; the order in
    which unordered sets are iterated and the order of pointers; dominators and the
    data-flow engine; addresses, phi nodes and operands; the loop of a region and
    whether the region is tagged; all loops and the profile; the library calls; the
    order of the map of accesses and the width of a load. *)
Record noelle := MkNoelle {
  nl_users : value → list Z;
  nl_callOrder : list inst → list inst;
  nl_roiOrder : list (string * list (region (I := Z))) → list (string * list (region (I := Z)));
  nl_outgoing : string → list string;
  nl_incoming : string → list string;
  nl_entry : string;
  nl_functions : gset string → list string;
  nl_functionLess : string → string → bool;
  nl_insts : gset Z → list Z;
  nl_less : Z → Z → bool;
  nl_dominates : Z → Z → bool;
  nl_postDominates : Z → Z → bool;
  nl_applyForward : engine (I := Z) (V := value) (F := string);
  nl_gep : value → option GetElementPtrInst;
  nl_incomingValues : Z → list value;
  nl_operands : Z → list value;
  nl_roiLoop : Z → option loop;
  nl_promoteAllocas : Z → bool;
  nl_loops : list loop;
  nl_invocations : Z → Z;
  nl_called : value → option string;
  nl_pure : string → bool;
  nl_order : list (Z * entry) → list (Z * entry);
  nl_loadBitwidth : Z → Z;
}.

(** The options that are given on the command line; the others are arguments of the
    prologue. *)
Record command_line := MkCommandLine {
  enableDFAObjGranularityOpt : bool;
  disableStateUsesInstrumentationOpt : bool;
  disableAllInstrumentationOpt : bool;
  runtimeOpts : runtime_options;
}.

Section compile.
  Context (pointerTypeSize : Z) (M : modul) (n : noelle) (b : build_options) (c : command_line).

(** The accesses TouchSame.v looks at. *)
Definition memory_op_of (I : Z) : option (memory_op (V := value)) :=
  match op_of M I with
  | Some (LoadInst p) => Some (LoadOp p)
  | Some (StoreInst _ p _ _ _) => Some (StoreOp p)
  | _ => None
  end.

Definition function_of (I : Z) : string := default EmptyString (fst <$> inst_of M I).

(** The first instruction of the entry block. *)
Definition entryInst (F : string) : Z := default 0 (f ← getFunction M F; i_id <$> head (f_insts f)).

(** [touchesToSkip] before the bookkeeping is added. *)
Definition touches (functions : gset string) (rois : list (region (I := Z))) : gset Z :=
  if MEMORYTOOL_DISABLE_STORE_DFA_OPT b then ∅
  else getTouchSameObjectInsts memory_op_of function_of (λ v, gep_pointer <$> nl_gep n v) (nl_dominates n) (nl_postDominates n)
    (nl_applyForward n) entryInst (enableDFAObjGranularityOpt c) functions rois ((λ Fi : string * inst, i_id Fi.2) <$> all_insts M).

Definition touchesToSkip (functions : gset string) (rois : list (region (I := Z))) : option (gset Z) :=
  if MEMORYTOOL_DISABLE_SKIP_ROIS_LOADS_STORES b then Some (touches functions rois)
  else roisLoadsStores ← computeROIsLoadsStores M (nl_users n) rois;
    Some (mergeSets (nl_less n) (nl_insts n) [touches functions rois; roisLoadsStores]).

(** The searches of the call graph go no deeper than there are functions. *)
Definition depth : nat := S (List.length (m_functions M)).

Definition analyse (rois : list (region (I := Z))) : option analyses :=
  functionsToInstrumentLoadStore ← getFunctionsToInstrumentLoadStore (nl_outgoing n) (nl_incoming n) depth (nl_functions n)
    (nl_functionLess n) MEMORYTOOL_START_TRACKING;
  skip ← touchesToSkip functionsToInstrumentLoadStore rois;
  uniqueCallstackFunctions ← getUniqueCallstackFunctions (nl_outgoing n) (nl_incoming n) depth (nl_entry n);
  Some (MkAnalyses (findFunctionsToInstrument M) functionsToInstrumentLoadStore skip (nl_called n) (nl_pure n)
    uniqueCallstackFunctions (nl_order n)
    (select M (nl_gep n) (nl_incomingValues n) (nl_operands n) (nl_insts n) (nl_less n) b (enableDFAObjGranularityOpt c)
      (nl_roiLoop n) (nl_promoteAllocas n) (nl_loops n) (nl_invocations n) rois)
    (nl_insts n) (nl_loadBitwidth n) (disableStateUsesInstrumentationOpt c) (disableAllInstrumentationOpt c)
    (MEMORYTOOL_DISABLE_PIN b) (runtimeOpts c)).

(** A module without regions is left as it is; otherwise there are the module and
    the file of source positions. *)
Inductive outcome := Unmodified | Modified (st : mstate) (debugData : list DebugData).

Definition runOnModule : option outcome :=
  rois ← getROIs M (nl_users n) (nl_callOrder n) (nl_roiOrder n);
  match rois with
  | [] => Some Unmodified
  | _ => an ← analyse rois; '(st, debugData) ← pass pointerTypeSize M an; Some (Modified st debugData)
  end.

(** ** What the pass relies on *)

(** NOELLE and LLVM.  Iterating a set gives its members; pointers are totally
    ordered; the call graph is about the functions of the module and nothing calls
    its entry, which is [main]; the loops of the tagged regions are governed by an
    induction variable. *)
Record noelle_ok : Prop := {
  no_rois : orders (nl_callOrder n) (nl_roiOrder n);
  no_order : ∀ l, nl_order n l ≡ₚ l;
  no_insts : ∀ X I, I ∈ nl_insts n X ↔ I ∈ X;
  no_less : ∀ x y, nl_less n x y = false → nl_less n y x = false → x = y;
  no_functions : ∀ X F, F ∈ nl_functions n X ↔ F ∈ X;
  no_functionLess : ∀ F G, nl_functionLess n F G = false → nl_functionLess n G F = false → F = G;
  no_dual : ∀ F G, edge (nl_outgoing n) F G ↔ F ∈ nl_incoming n G;
  no_nodes : ∀ F G, edge (nl_outgoing n) F G → F ∈ f_name <$> m_functions M ∧ G ∈ f_name <$> m_functions M;
  no_entry : nl_entry n = "main" ∧ nl_incoming n "main" = [];
  no_loops : ∀ l I, nl_roiLoop n I = Some l → nl_promoteAllocas n I = true →
    is_Some (loop_governing l) ∧ is_Some (loop_exitCondition l);
}.

(** The program: a well-formed module whose numbers and names fit the file, and
    whose regions follow the pattern of code that was not optimised. *)
Record program_ok : Prop := {
  po_ok : module_ok M;
  po_visitable : Forall (visitable M) (all_insts M);
  po_insts : Forall recordable_inst (all_insts M);
  po_globals : Forall recordable_global (m_globals M);
  po_called : ∀ Fi, Fi ∈ all_insts M → is_Some (call_of Fi.2) → is_Some (nl_called n (Inst (i_id Fi.2)));
  po_size : Z.of_nat (List.length (all_insts M)) + Z.of_nat (List.length (m_globals M)) + 1 < two64;
  po_functions : Z.of_nat (List.length (m_functions M)) < two64;
  po_deallocs : ∀ Fi, Fi ∈ all_insts M → is_Some (dealloc_call M Fi) → ∃ f v o, i_op Fi.2 = CallInst f (v :: o);
  po_stop : is_Some (stopFunc M);
  po_regions : ∀ F i, (F, i) ∈ all_insts M → is_start M i → ∃ store a, through_variable M (nl_users n) i store a;
}.

(** A function that a region can run. *)
Definition reached (F : string) : Prop :=
  ∃ s, s ∈ nl_incoming n MEMORYTOOL_START_TRACKING ∧ rtc (edge (nl_outgoing n)) s F.
End compile.

(** ** The analyses do what the pass expects *)

Lemma single_path_nodes outgoing incoming (nodes : gset string) entry p F :
  (∀ F G, edge outgoing F G → G ∈ nodes) → entry ∈ nodes → single_path outgoing incoming entry p F → F ∈ nodes.
Proof. intros Hedge Hen Hp. destruct Hp as [_|p F G _ HFG _]; [done|by eapply Hedge]. Qed.

Section analysed.
  Context (pointerTypeSize : Z) (M : modul) (n : noelle) (b : build_options) (c : command_line).
  Context (Hn : noelle_ok M n) (HM : program_ok M n).

Definition nodes : gset string := list_to_set (f_name <$> m_functions M).

Lemma size_nodes : (size nodes < depth M)%nat.
Proof. unfold nodes, depth. pose proof (size_list_to_set_le (f_name <$> m_functions M)) as H. rewrite length_fmap in H. lia. Qed.

Lemma elem_of_nodes F : F ∈ nodes ↔ F ∈ f_name <$> m_functions M.
Proof. unfold nodes. apply elem_of_list_to_set. Qed.

Lemma nodes_closed F G : edge (nl_outgoing n) F G → F ∈ nodes ∧ G ∈ nodes.
Proof. intros H. rewrite !elem_of_nodes. by apply (no_nodes _ _ Hn). Qed.

Lemma main_node : nl_entry n ∈ nodes.
Proof.
  rewrite (proj1 (no_entry _ _ Hn)), elem_of_nodes. destruct (mo_main _ (po_ok _ _ HM)) as (f & Hf & <- & _).
  by apply list_elem_of_fmap_2.
Qed.

(** The functions that a region can run, and those with one callstack. *)
Lemma functions_reached : ∃ functions, getFunctionsToInstrumentLoadStore (nl_outgoing n) (nl_incoming n) (depth M)
    (nl_functions n) (nl_functionLess n) MEMORYTOOL_START_TRACKING = Some functions ∧ ∀ F, F ∈ functions ↔ reached n F.
Proof.
  apply (getFunctionsToInstrumentLoadStore_reach _ _ nodes).
  - intros F G _ H. by apply nodes_closed in H as [_ ?].
  - intros F H. by apply (no_dual _ _ Hn), nodes_closed in H as [? _].
  - apply size_nodes.
  - apply Hn.
  - apply Hn.
Qed.

Lemma unique_callstacks : ∃ unique, getUniqueCallstackFunctions (nl_outgoing n) (nl_incoming n) (depth M) (nl_entry n) = Some unique ∧
  Z.of_nat (size unique) < two64.
Proof.
  destruct (no_entry _ _ Hn) as [Eentry Hin].
  destruct (getUniqueCallstackFunctions_unique (nl_outgoing n) (nl_incoming n) (no_dual _ _ Hn) (nl_entry n)) with (nodes := nodes) (fuel := depth M)
    as (unique & Hu & Hpath & _).
  - by rewrite Eentry.
  - intros F G _ H. by apply nodes_closed in H as [_ ?].
  - apply main_node.
  - apply size_nodes.
  - exists unique. split; [done|]. pose proof (po_functions _ _ HM) as Hlen. pose proof size_nodes as Hsize. unfold depth in Hsize.
    assert (size unique <= size nodes)%nat; [|lia]. apply subseteq_size. intros F (p & HF)%Hpath.
    eapply single_path_nodes; [|apply main_node|exact HF]. intros F1 G H. by apply nodes_closed in H as [_ ?].
Qed.

(** What is known of the analyses. *)
Record analysed (rois : list (region (I := Z))) (an : analyses) : Prop := {
  ad_functions : ∀ F, F ∈ an_accessFunctions an ↔ reached n F;
  ad_touches : ∀ I, I ∈ an_touchesToSkip an ↔ I ∈ touches M n b c (an_accessFunctions an) rois ∨
    (MEMORYTOOL_DISABLE_SKIP_ROIS_LOADS_STORES b = false ∧ bookkeeping M (nl_users n) I);
  ad_select : ∀ m, ∃ s, an_select an m = Some s ∧ select M (nl_gep n) (nl_incomingValues n) (nl_operands n) (nl_insts n) (nl_less n) b
    (enableDFAObjGranularityOpt c) (nl_roiLoop n) (nl_promoteAllocas n) (nl_loops n) (nl_invocations n) rois m = Some s ∧
    selected_ok M (nl_gep n) (nl_roiLoop n) (nl_promoteAllocas n) rois m s;
  ad_flags : an_disableStateUses an = disableStateUsesInstrumentationOpt c ∧
    an_disableAll an = disableAllInstrumentationOpt c ∧ an_options an = runtimeOpts c ∧ an_elements an = nl_insts n ∧
    an_disablePin an = MEMORYTOOL_DISABLE_PIN b;
  ad_ok : analyses_ok an;
  ad_input : input_module M an;
}.

Lemma analyse_total : ∃ rois an, getROIs M (nl_users n) (nl_callOrder n) (nl_roiOrder n) = Some rois ∧
  roi_start <$> rois ≡ₚ i_id <$> filter (is_start M) (snd <$> all_insts M) ∧ analyse M n b c rois = Some an ∧ analysed rois an.
Proof.
  destruct (rois_spec M (nl_users n) _ _ (no_rois _ _ Hn) (po_stop _ _ HM) (po_regions _ _ HM))
    as (rois & starts & set & Hrois & Hperm & H2 & Hset & Hbook).
  destruct functions_reached as (functions & Hfun & Hreach). destruct unique_callstacks as (unique & Hun & Hsize).
  assert (∃ skip, touchesToSkip M n b c functions rois = Some skip ∧ ∀ I, I ∈ skip ↔ I ∈ touches M n b c functions rois ∨
    (MEMORYTOOL_DISABLE_SKIP_ROIS_LOADS_STORES b = false ∧ bookkeeping M (nl_users n) I)) as (skip & Eskip & Hskip).
  { unfold touchesToSkip. destruct (MEMORYTOOL_DISABLE_SKIP_ROIS_LOADS_STORES b).
    - eexists. split; [done|]. intros I. split; [by left|]. by intros [?|[]].
    - rewrite Hset. cbn [mbind option_bind]. eexists. split; [done|]. intros I.
      rewrite (elem_of_mergeSets (nl_less n) (nl_insts n)) by apply Hn. setoid_rewrite elem_of_cons. setoid_rewrite list_elem_of_singleton.
      split; [intros (s & [->| ->] & HI); [by left|right; split; [done|by apply Hbook]]|].
      intros [?|[_ HI]]; [eexists; split; [by left|done]|eexists; split; [by right|by apply Hbook]]. }
  exists rois. eexists. split; [done|]. unfold analyse. rewrite Hfun. cbn [mbind option_bind].
  rewrite Eskip. cbn [mbind option_bind]. rewrite Hun. cbn [mbind option_bind]. split; [|split; [reflexivity|]].
  { by eapply starts_permutation. }
  assert (∀ m, ∃ s, select M (nl_gep n) (nl_incomingValues n) (nl_operands n) (nl_insts n) (nl_less n) b
    (enableDFAObjGranularityOpt c) (nl_roiLoop n) (nl_promoteAllocas n) (nl_loops n) (nl_invocations n) rois m = Some s ∧
    selected_ok M (nl_gep n) (nl_roiLoop n) (nl_promoteAllocas n) rois m s) as Hsel.
  { intros m. apply select_ok; [apply Hn|apply Hn|]. intros l (roi & _ & Hl & Hp). by eapply (no_loops _ _ Hn). }
  split; cbn [an_accessFunctions an_touchesToSkip an_select an_disableStateUses an_disableAll an_options an_elements]; try done.
  - intros m. destruct (Hsel m) as (s & H1 & H3). by exists s.
  - split; [apply Hn|apply Hn|]. intros m. destruct (Hsel m) as (s & Es & [K1 K2 _ _ _]). exists s. split; [exact Es|]. split.
    + intros I HI. by apply K1, considered_spec in HI as [? _].
    + intros d Hd. assert (ds_inst d ∈ getDirectStateLoadStoreInsts (directStateToInstrumentAll s)) as HI
        by (unfold getDirectStateLoadStoreInsts; apply elem_of_list_to_set; by apply list_elem_of_fmap_2).
      by apply K2, considered_spec in HI as [? _].
  - destruct HM. split; done.
Qed.
End analysed.

(** ** Every access is covered *)

(** The identifier finds the position of an access in the file. *)
Definition resolves (dds : list DebugData) (i : inst) (id : Z) : Prop :=
  ∃ d, getDebugData (writeDebugData dds) !! id = Some d ∧ c_str (pathToFile d) = c_str (en_path (access_debug i)) ∧
    lineNum d = en_line (access_debug i) ∧ columnNum d = en_column (access_debug i).

(** A guard for the access [i] in the text before it: the test of its pointer, or of
    the base of the pointer, and the branch around the calls, one at least, each of
    which says where the access is. *)
Definition guarded (n : noelle) (F : string) (i : inst) (dds : list DebugData) (txt : list item) : Prop :=
  ∃ k addr calls, [GuardTest k addr; GuardBranch k calls] `sublist_of` txt ∧ calls ≠ [] ∧
    (∃ p, accessed i = Some p ∧ (addr = p ∨ ∃ g, nl_gep n p = Some g ∧ addr = gep_pointer g)) ∧
    Forall (λ g, ∃ f id args, last g = Some (RuntimeCall f (AConst id :: args)) ∧ last args = Some (ACallstack F) ∧
      resolves dds i id) calls.

(** The flags compile.sh builds the pass with: the four analyses whose accesses
    [runOnModule] does not instrument are off. *)
Record four_disabled (b : build_options) : Prop := {
  fd_invariants : MEMORYTOOL_DISABLE_LOOP_INVARIANT_STORE_OPT b = true;
  fd_mostlyInvariants : MEMORYTOOL_DISABLE_MOSTLY_LOOP_INVARIANT_STORE_OPT b = true;
  fd_inductions : MEMORYTOOL_DISABLE_LOOP_INDUCTION_STORE_OPT b = true;
  fd_baseAddress : MEMORYTOOL_DISABLE_BASE_ADDRESS_MOSTLY_INVARIANT_STORE_OPT b = true;
}.

Lemma select_disabled M gep incoming operands elements less b en roiLoop promoteAllocas loops invocations rois m s :
  four_disabled b → select M gep incoming operands elements less b en roiLoop promoteAllocas loops invocations rois m = Some s →
  drop 2 (selected_sets s) = [∅; ∅; ∅; ∅].
Proof.
  intros [H1 H2 H3 H4] H. unfold select in H. cbv zeta in H. rewrite H1, H2, H3, H4 in H.
  by apply bind_Some in H as (ds & _ & [= <-]).
Qed.

Lemma op_of_inst M F i : module_ok M → (F, i) ∈ all_insts M → op_of M (i_id i) = Some (i_op i).
Proof.
  intros Hok Hin. unfold op_of, inst_of.
  destruct (list_find (λ Fi : string * inst, i_id Fi.2 = i_id i) (all_insts M)) as [[k [G j]]|] eqn:E.
  - apply list_find_Some in E as (Hj & E & _). simpl in *. apply list_elem_of_lookup in Hin as [k' Hk'].
    assert (k = k') as ->.
    { eapply NoDup_lookup; [exact (mo_insts _ Hok)| |]; rewrite list_lookup_fmap; [by rewrite Hj|]. rewrite Hk'. simpl. by rewrite E. }
    rewrite Hj in Hk'. by injection Hk' as -> ->.
  - apply list_find_None in E. rewrite Forall_forall in E. by destruct (E _ Hin).
Qed.

Lemma before_sublist log a g : Before a g ∈ log → g `sublist_of` pre_of log a.
Proof.
  intros H. apply list_elem_of_split in H as (l1 & l2 & ->).
  change (l1 ++ Before a g :: l2) with (l1 ++ [Before a g] ++ l2). rewrite app_assoc.
  etrans; [|apply pre_of_sublist]. rewrite pre_of_snoc. simpl. rewrite decide_True by done. by apply sublist_inserts_l.
Qed.

(** The pointer of an element, and its base. *)
Lemma directState_of_base gep l I p s d : directState_of gep l I p s = Some d →
  ds_baseAddr d = p ∨ ∃ g, gep p = Some g ∧ ds_baseAddr d = gep_pointer g.
Proof.
  unfold directState_of. intros H. apply bind_Some in H as ([] & _ & H); [|injection H as <-; by left].
  apply bind_Some in H as (g & Hg & H). apply bind_Some in H as ([??] & _ & H). apply bind_Some in H as (stop & _ & [= <-]).
  right. by exists g.
Qed.

Section guards.
  Context (pointerTypeSize : Z) (M : modul) (n : noelle) (b : build_options) (c : command_line).
  Context (rois : list (region (I := Z))) (an : analyses) (x : instrumentation) (dds : list DebugData) (log : list edit).
  Context (Had : analysed M n b c rois an) (Hpp : prepared pointerTypeSize M an x dds).
  Context (Hlog : pass_log x (base M (an_unique an)) log) (Hfour : four_disabled b).

Let Hm : input_module M an := ad_input _ _ _ _ _ _ Had.

(** The entry of an access, with what it says. *)
Lemma entry_of_map F i e : (F, i) ∈ all_insts M → (i_id i, e) ∈ in_instToEntryMap x →
  (∃ p, accessed i = Some p ∧ en_allocPointer e = Some p) ∧ resolves dds i (en_id (en_debug e)).
Proof.
  intros Hin He. destruct (pp_access _ _ _ _ _ Hpp _ _ He) as (F' & i' & e0 & Hin' & E & Hnum & Hle & d & Hd & H1 & H2 & H3).
  pose proof (same_inst M an Hm F i F' i' Hin Hin' E) as Ei. injection Ei as <- <-.
  pose proof (entry_of_access an F i e0 Hle) as Edb. destruct (numbered_fields _ _ Hnum) as (_ & _ & -> & _).
  split; [|exists d; by rewrite <- Edb]. unfold load_entry, store_entry, accessed in *. simpl in Hle.
  destruct Hle as [H|H]; destruct (i_op i); try done; case_decide; try done; injection H as <-; by eexists.
Qed.

Lemma guard_text F B l i e k addr calls :
  in_block (base M (an_unique an)) F B l → Orig i ∈ l → (i_id i, e) ∈ in_instToEntryMap x →
  Before (AtInst (i_id i)) [GuardTest k addr; GuardBranch k calls] ∈ log → calls ≠ [] →
  (∀ p, accessed i = Some p → addr = p ∨ ∃ g, nl_gep n p = Some g ∧ addr = gep_pointer g) →
  Forall (λ g, ∃ f args, last g = Some (RuntimeCall f (AConst (en_id (en_debug e)) :: args)) ∧ last args = Some (ACallstack F)) calls →
  guarded n F i dds (pre_of log (AtInst (i_id i))).
Proof.
  intros Hl Hi He Hin Hne Haddr Hcalls. pose proof (in_base_inst M an F B l i Hl Hi) as Hall.
  destruct (entry_of_map F i e Hall He) as ((p & Hp & _) & Hres). exists k, addr, calls.
  split; [by apply before_sublist|]. split; [done|]. split; [exists p; split; [done|by apply Haddr]|].
  eapply Forall_impl; [exact Hcalls|]. intros g (f & args & ? & ?). by eexists f, _, args.
Qed.

Lemma onlyRead_guarded F B l i : in_block (base M (an_unique an)) F B l → Orig i ∈ l → i_id i ∈ in_onlyRead x →
  guarded n F i dds (pre_of log (AtInst (i_id i))).
Proof.
  intros Hl Hi HI. destruct (hg_onlyRead _ _ _ (pl_guards _ _ _ Hlog) _ HI) as
    (es & (e & addr & F' & B' & i' & g & He & Ha & Hat & Hg & ->) & Hsub).
  assert (at_anchor (base M (an_unique an)) (AtInst (i_id i)) F B (Orig i)) as Hat0 by (by exists l).
  destruct (at_anchor_unique _ _ _ _ _ _ _ _ (base_is_ok M _ (im_ok _ _ Hm)) Hat Hat0) as (-> & -> & [= ->]).
  apply elem_of_list_to_map_2 in He. eapply guard_text; [done|done|exact He|apply Hsub; by left|done| |].
  - intros p Hp. left. destruct (entry_of_map F i e (in_base_inst M an F B l i Hl Hi) He) as ((q & Hq & Hq') & _). congruence.
  - apply Forall_singleton. unfold access_group in Hg. destruct (i_op i); try done; injection Hg as <-; by eexists _, _.
Qed.

Lemma createCallToRuntime_last elem s w F e : ∃ args,
  last (createCallToRuntime elem s w F e) = Some (RuntimeCall TEXAS_SET_STATE (AConst (en_id (en_debug e)) :: args)) ∧
  last args = Some (ACallstack F).
Proof. unfold createCallToRuntime. destruct (ds_startIndVar elem), (ds_stopIndVar elem); by eexists. Qed.

Lemma direct_guarded F B l i elem : in_block (base M (an_unique an)) F B l → Orig i ∈ l → elem ∈ in_directState x →
  ds_inst elem = i_id i → guarded n F i dds (pre_of log (AtInst (i_id i))).
Proof.
  intros Hl Hi Helem HI. destruct (hg_directState _ _ _ (pl_guards _ _ _ Hlog) _ Helem) as
    (es & (e & F' & B' & i' & w & He & Hat & _ & Ees) & Hsub).
  assert (at_anchor (base M (an_unique an)) (AtInst (i_id i)) F B (Orig i)) as Hat0 by (by exists l).
  rewrite HI in *. destruct (at_anchor_unique _ _ _ _ _ _ _ _ (base_is_ok M _ (im_ok _ _ Hm)) Hat Hat0) as (-> & -> & [= ->]).
  apply elem_of_list_to_map_2 in He.
  destruct (pp_selection _ _ _ _ _ Hpp) as (s & Es & _ & Eds & _). destruct (ad_select _ _ _ _ _ _ Had (in_instToEntryMap x))
    as (s' & Es' & _ & Hok). rewrite Es in Es'. injection Es' as <-. rewrite Eds in Helem.
  destruct (so_elements _ _ _ _ _ _ _ Hok elem Helem) as (lp & _ & p & Hdir & _ & Hop). rewrite HI in Hdir, Hop.
  rewrite (op_of_inst M F i (im_ok _ _ Hm) (in_base_inst M an F B l i Hl Hi)) in Hop.
  assert (accessed i = Some p ∧ ∃ k calls, direct_group elem w F e = Some (k, calls) ∧ calls ≠ [] ∧
    Forall (λ g, ∃ s, g = createCallToRuntime elem s w F e) calls) as (Hp & k & calls & Ek & Hne & Hcalls).
  { unfold accessed, direct_group. destruct Hop as [[[= ->] ->]|[(v & bb & sc & pr & [= ->]) ->]]; (split; [done|]).
    - eexists _, _. split; [reflexivity|]. split; [done|]. apply Forall_singleton. by eexists.
    - rewrite decide_False by done. rewrite decide_True by done. destruct (ds_startIndVar elem); (eexists _, _; split; [reflexivity|]);
        (split; [done|]); repeat constructor; by eexists. }
  rewrite Ek in Ees. subst es. eapply guard_text; [done|done|exact He|apply Hsub; by left|exact Hne| |].
  - intros q Hq. rewrite Hp in Hq. injection Hq as <-. by eapply directState_of_base.
  - eapply Forall_impl; [exact Hcalls|]. intros g (st & ->). destruct (createCallToRuntime_last elem st w F e) as (args & ? & ?).
    by eexists _, args.
Qed.

(** An access that is left out of the regular reports has a guard. *)
Lemma skipped_guarded F B l i : in_block (base M (an_unique an)) F B l → Orig i ∈ l → i_id i ∈ in_instsToSkip x →
  guarded n F i dds (pre_of log (AtInst (i_id i))).
Proof.
  intros Hl Hi HI. destruct (pp_selection _ _ _ _ _ Hpp) as (s & Es & Eor & Eds & Esk).
  destruct (ad_select _ _ _ _ _ _ Had (in_instToEntryMap x)) as (s' & Es' & Esel & Hok). rewrite Es in Es'. injection Es' as <-.
  apply select_disabled in Esel; [|done]. rewrite Esk, (so_skip _ _ _ _ _ _ _ Hok) in HI. unfold selected_sets in HI, Esel.
  injection Esel as E3 E4 E5 E6. rewrite E3, E4, E5, E6 in HI. cbn [union_list foldr] in HI.
  rewrite !(right_id_L ∅ (∪)) in HI. apply elem_of_union in HI as [HI|HI].
  - eapply onlyRead_guarded; [done|done|]. rewrite Eor. by apply (ao_elements _ (ad_ok _ _ _ _ _ _ Had)).
  - unfold getDirectStateLoadStoreInsts in HI. apply elem_of_list_to_set, list_elem_of_fmap in HI as (elem & E & He).
    eapply direct_guarded; [done|done|rewrite Eds; exact He|done].
Qed.
End guards.

(** What is in the text before or after an instruction was put there by an edit at
    this instruction. *)
Lemma pre_of_edit log a y : y ∈ pre_of log a → ∃ e, e ∈ log ∧ edit_anchor e = a ∧ is_after e = false ∧ y ∈ edit_group e.
Proof.
  induction log as [|e log IH] using rev_ind; [by intros H%elem_of_nil|]. rewrite pre_of_snoc. intros Hy.
  assert (y ∈ pre_of log a ∨ (edit_anchor e = a ∧ is_after e = false ∧ y ∈ edit_group e)) as [H|H].
  { destruct e as [a' g|a' g|a' k g]; simpl in *; [by left| |]; case_decide; try (by left).
    - apply elem_of_app in Hy as [?|?]; [by left|by right].
    - rewrite !elem_of_app in Hy. destruct Hy as [Hy|[Hy|Hy]]; [left|by right|left]; [by apply (subseteq_take k)|by apply (subseteq_drop k)]. }
  - destruct (IH H) as (e' & ? & ?). exists e'. split; [apply elem_of_app; by left|done].
  - exists e. split; [apply elem_of_app; right; by left|done].
Qed.

Lemma post_of_edit log a y : y ∈ post_of log a → ∃ e, e ∈ log ∧ edit_anchor e = a ∧ y ∈ edit_group e.
Proof.
  induction log as [|e log IH] using rev_ind; [by intros H%elem_of_nil|]. rewrite post_of_snoc. intros Hy.
  assert (y ∈ post_of log a ∨ (edit_anchor e = a ∧ y ∈ edit_group e)) as [H|H].
  { destruct e as [a' g|a' g|a' k g]; simpl in *; [|by left..]. case_decide; [|by left].
    apply elem_of_app in Hy as [?|?]; [by right|by left]. }
  - destruct (IH H) as (e' & ? & ?). exists e'. split; [apply elem_of_app; by left|done].
  - exists e. split; [apply elem_of_app; right; by left|done].
Qed.

(** An item of a finished block: an instruction of the program, or in the text before
    or after one. *)
Lemma final_split F log l l1 y l2 : Forall (λ z, is_Some (anchor_of z)) l → clean log → l ≫= final_item F log = l1 ++ y :: l2 →
  is_Some (anchor_of y) ∨ y = Rt (RuntimeCall MEMORYTOOL_EPILOGUE []) ∨
  ∃ z a, z ∈ l ∧ anchor_of z = Some a ∧
    ((y ∈ pre_of log a ∧ ∃ g k, l2 = g ++ z :: k ∧ Forall (λ z, plain z = true) g) ∨
     (y ∈ post_of log a ∧ ∃ k g, l1 = k ++ z :: g ∧ Forall (λ z, plain z = true) g)).
Proof.
  intros Hanch Hclean E. apply bind_split in E as (k1 & z & k2 & h1 & h2 & -> & Eh & -> & ->).
  assert (z ∈ k1 ++ z :: k2) as Hz by (apply elem_of_app; right; by left). rewrite Forall_forall in Hanch. destruct (Hanch z Hz) as [a Ha].
  unfold final_item in Eh. rewrite Ha in Eh.
  set (epi := if decide (F = "main" ∧ is_exit F z = true) then [Rt (RuntimeCall MEMORYTOOL_EPILOGUE [])] else []) in *.
  assert (Forall (λ z, plain z = true) epi) as Hepi by (unfold epi; case_decide; [by apply Forall_singleton|constructor]).
  pose proof (pre_of_plain log a Hclean) as Hpre. pose proof (post_of_plain log a Hclean) as Hpost.
  apply app_eq_inv in Eh as [(g & E1 & E2)|(g & E1 & E2)].
  - destruct g as [|y' g]; [simpl in E2|injection E2 as <- E2].
    + destruct epi as [|w epi'] eqn:Ee; [injection E2 as -> _; left; by eexists|].
      injection E2 as -> _. right. left. unfold epi in Ee. case_decide; [by injection Ee as <- _|done].
    + right. right. exists z, a. split; [done|]. split; [done|]. left. split; [rewrite E1; apply elem_of_app; right; by left|].
      exists (g ++ epi), (post_of log a ++ (k2 ≫= final_item F log)). rewrite E2, <- !app_assoc. split; [done|].
      apply Forall_app. split; [|done]. rewrite E1 in Hpre. apply Forall_app in Hpre as [_ Hpre]. by apply Forall_cons in Hpre as [_ ?].
  - apply app_eq_inv in E2 as [(g' & E3 & E4)|(g' & E3 & E4)].
    + destruct g' as [|y' g']; [simpl in E4; injection E4 as -> _; left; by eexists|]. injection E4 as <- E4.
      right. left. assert (y ∈ epi) as Hy by (rewrite E3; apply elem_of_app; right; by left). unfold epi in Hy.
      case_decide; [by apply list_elem_of_singleton in Hy|by apply elem_of_nil in Hy].
    + destruct g' as [|z' g']; [simpl in E4; injection E4 as -> _; left; by eexists|]. injection E4 as <- E4.
      right. right. exists z, a. split; [done|]. split; [done|]. right. split; [rewrite E4; apply elem_of_app; right; by left|].
      exists ((k1 ≫= final_item F log) ++ pre_of log a ++ epi), g'. rewrite E1, E3, <- !app_assoc. split; [done|].
      rewrite E4 in Hpost. by apply Forall_app in Hpost as [? _].
Qed.

(** A reporting call in a finished block: it is next to the access whose identifier
    it passes, behind it or, in the blocks of a guard, in front of it. *)
Lemma reporting_origin M x log F B l l1 y l2 r : base_ok (base_of M x) → pass_log x (base_of M x) log → in_disablePin x = true →
  in_block (base_of M x) F B l → l ≫= final_item F log = l1 ++ y :: l2 → r ∈ calls_in y → is_reporting r = true →
  ∃ i e f args, Orig i ∈ l ∧ (i_id i, e) ∈ in_instToEntryMap x ∧ r = RuntimeCall f (AConst (en_id (en_debug e)) :: args) ∧
    ((y = Rt r ∧ ∃ k g, l1 = k ++ Orig i :: g ∧ Forall (λ z, plain z = true) g) ∨
     ((∃ k w, y = GuardBranch k w) ∧ ∃ g k, l2 = g ++ Orig i :: k ∧ Forall (λ z, plain z = true) g)).
Proof.
  intros Hok Hlog Hpin Hl E Hr Hrep. pose proof (proj1 (pl_ok _ _ _ Hlog)) as Hclean.
  pose proof (pl_told _ _ _ Hlog Hpin) as Htold. rewrite Forall_forall in Htold.
  destruct (final_split F log l l1 y l2 (bo_anchored _ Hok _ _ _ Hl) Hclean E) as [[a Ha]|[->|(z & a & Hz & Ha & Hy)]].
  - by destruct y; try done; apply elem_of_nil in Hr.
  - apply list_elem_of_singleton in Hr as ->. by vm_compute in Hrep.
  - assert (∀ I, a = AtInst I → ∃ i, z = Orig i ∧ i_id i = I) as Horig.
    { intros I ->. destruct z as [i| | | |]; try done. exists i. split; [done|]. by injection Ha. }
    destruct Hy as [[Hy Hpos]|[Hy Hpos]].
    + destruct (pre_of_edit _ _ _ Hy) as (e & He & Ea & Hafter & Hin). destruct (Htold e He y r Hin Hr Hrep) as [(I & e' & f & args & EI & Hmap & ->) Hg].
      destruct (Horig I) as (i & -> & <-); [congruence|]. exists i, e', f, args. split_and!; try done. right. split; [by apply Hg|done].
    + destruct (post_of_edit _ _ _ Hy) as (e & He & Ea & Hin). destruct (Htold e He y r Hin Hr Hrep) as [(I & e' & f & args & EI & Hmap & ->) Hg].
      destruct (Horig I) as (i & -> & <-); [congruence|]. exists i, e', f, args. split_and!; try done. left. split; [|done].
      pose proof (post_of_guard log a Hclean) as Hng. rewrite Forall_forall in Hng. specialize (Hng y Hy).
      destruct y as [i0|G cc|r'|k0 v0|k0 w0]; try done; try (by apply elem_of_nil in Hr). by apply list_elem_of_singleton in Hr as ->.
Qed.

Section program.
  Context (pointerTypeSize : Z) (M : modul) (n : noelle) (b : build_options) (c : command_line).
  Context (Hp : pointerTypeSize ≠ 0) (Hn : noelle_ok M n) (HM : program_ok M n).
  Context (Hcycle : cycleFindingOpt (runtimeOpts c) = false) (Hdis : disableAllInstrumentationOpt c = false).
  Context (Huses : disableStateUsesInstrumentationOpt c = false) (Hregion : ∃ F i, (F, i) ∈ all_insts M ∧ is_start M i).

(** The result of the pass, as the edits that made it. *)
Lemma program_expand : ∃ rois an x dds log, getROIs M (nl_users n) (nl_callOrder n) (nl_roiOrder n) = Some rois ∧ analysed M n b c rois an ∧
  runOnModule pointerTypeSize M n b c =
    Some (Modified (map_blocks (λ F _ items, items ≫= final_item F log) (base M (an_unique an))) dds) ∧
  prepared pointerTypeSize M an x dds ∧ pass_log x (base M (an_unique an)) log ∧ base_of M x = base M (an_unique an) ∧
  base_ok (base M (an_unique an)).
Proof.
  destruct (analyse_total M n b c Hn HM) as (rois & an & Hrois & Hstarts & Han & Had).
  destruct (ad_flags _ _ _ _ _ _ Had) as (Fu & Fd & Fo & _).
  destruct (pass_expand pointerTypeSize M an Hp (ad_input _ _ _ _ _ _ Had) (ad_ok _ _ _ _ _ _ Had)) as (x & dds & log & Hpass & _ & Hpp & Hlog);
    [by rewrite Fo|by rewrite Fd|].
  exists rois, an, x, dds, log. split; [done|]. split; [done|]. split; [|split; [done|split; [done|split]]].
  - unfold runOnModule. rewrite Hrois. cbn [mbind option_bind]. destruct rois as [|roi rois].
    + exfalso. destruct Hregion as (F & i & Hin & Hs). assert (i ∈ filter (is_start M) (snd <$> all_insts M)) as Hi
        by (apply elem_of_starts; by exists F). apply (list_elem_of_fmap_2 i_id) in Hi. rewrite <- Hstarts in Hi. by apply elem_of_nil in Hi.
    + rewrite Han. cbn [mbind option_bind]. by rewrite Hpass.
  - unfold base_of, base. by rewrite (pp_callstacks _ _ _ _ _ Hpp).
  - apply base_is_ok, (im_ok _ _ (ad_input _ _ _ _ _ _ Had)).
Qed.

(** An access is to be reported, or to get a guard, when ... *)
Lemma to_report_iff rois an F i : analysed M n b c rois an → is_access (Orig i) = true →
  to_report an (F, i) ↔ reached n F ∧ i_id i ∉ touches M n b c (an_accessFunctions an) rois ∧
    (MEMORYTOOL_DISABLE_SKIP_ROIS_LOADS_STORES b = false → ¬ bookkeeping M (nl_users n) (i_id i)).
Proof.
  intros Had Ha. rewrite <- (ad_functions _ _ _ _ _ _ Had F).
  transitivity (F ∈ an_accessFunctions an ∧ i_id i ∉ an_touchesToSkip an).
  - unfold to_report, load_entry, store_entry, is_access in *. simpl. destruct (i_op i); try done; case_decide;
      split; try tauto; try (intros _; by eauto); by intros [[? ?]|[? ?]].
  - rewrite (ad_touches _ _ _ _ _ _ Had). destruct (MEMORYTOOL_DISABLE_SKIP_ROIS_LOADS_STORES b); naive_solver.
Qed.

(** C5: no access of a region goes unnoticed.  With the analyses that compile.sh
    turns on, the pass succeeds on every program with a region.  In its result every
    load and store of a function that a region can run, unless the data-flow analysis
    found that it repeats an earlier one or it is bookkeeping of a region, either is
    followed by the call that reports it, or has a guard in front that tests its
    pointer, or the base of it, and leads to calls that report it; and the identifiers
    these calls pass find the position of the access in the file. *)
Theorem every_access_covered : four_disabled b →
  ∃ rois functions st dds, getROIs M (nl_users n) (nl_callOrder n) (nl_roiOrder n) = Some rois ∧ (∀ F, F ∈ functions ↔ reached n F) ∧
    runOnModule pointerTypeSize M n b c = Some (Modified st dds) ∧
    ∀ F B items l1 i l2, in_block st F B items → items = l1 ++ Orig i :: l2 → is_access (Orig i) = true →
      reached n F → i_id i ∉ touches M n b c functions rois → ¬ bookkeeping M (nl_users n) (i_id i) →
      (∃ id g rest, l2 = g ++ rest ∧ reports_access F i id g ∧ resolves dds i id) ∨
      (∃ l0 txt, l1 = l0 ++ txt ∧ Forall (λ z, plain z = true) txt ∧ guarded n F i dds txt).
Proof.
  intros Hfour. destruct program_expand as (rois & an & x & dds & log & Hrois & Had & Hrun & Hpp & Hlog & Eb & Hok).
  eexists rois, (an_accessFunctions an), _, dds. split; [done|]. split; [apply Had|]. split; [exact Hrun|].
  intros F B items l1 i l2 Hb Eq Hacc Hreach Htouch Hbook. apply in_block_map in Hb as (l & Hl & ->).
  destruct (around M x log F B l l1 i l2) as (k1 & k2 & -> & -> & ->); rewrite ?Eb; [apply (pl_ok _ _ _ Hlog)|done|done|].
  assert (Orig i ∈ k1 ++ Orig i :: k2) as Hi by (apply elem_of_app; right; by left).
  pose proof (ad_input _ _ _ _ _ _ Had) as Hm. pose proof (in_base_inst M an F B _ i Hl Hi) as Hin.
  assert (to_report an (F, i)) as Hrep by (by apply (to_report_iff rois)).
  destruct (decide (i_id i ∈ in_instsToSkip x)) as [Hskip|Hskip].
  - right. eexists _, _. split; [reflexivity|]. rewrite decide_False, app_nil_r
      by (intros [_ Hex]; unfold is_access in Hacc; simpl in Hex; by destruct (i_op i)).
    split; [apply pre_of_plain, (pl_ok _ _ _ Hlog)|]. by eapply skipped_guarded.
  - left. assert (is_Some (selected x i)) as [id Hsel].
    { apply (selected_iff pointerTypeSize M an x dds Hm Hpp F i Hin); [|done]. by rewrite (proj1 (ad_flags _ _ _ _ _ _ Had)). }
    destruct (report_after pointerTypeSize M an x dds Hm Hpp log F B _ i id Hlog Hl Hi Hsel) as [Hg Hd]. by eexists id, _, _.
Qed.

(** C6: nothing else is reported.  The pass is built as compile.sh does it, without the
    PIN tool and leaving out the bookkeeping of the regions.  In its result, every call
    that tells the runtime of an access (the two that report it and [setDirectState]), be
    it in a block or in the blocks of a guard, is next to a load or store of a function
    that a region can run, which is neither a repetition nor bookkeeping: behind it, or
    in a guard in front of it, with only inserted instructions in between.  And the
    identifier it passes finds the position of this access in the file. *)
Theorem nothing_else_reported : MEMORYTOOL_DISABLE_SKIP_ROIS_LOADS_STORES b = false → MEMORYTOOL_DISABLE_PIN b = true →
  ∃ rois functions st dds, getROIs M (nl_users n) (nl_callOrder n) (nl_roiOrder n) = Some rois ∧ (∀ F, F ∈ functions ↔ reached n F) ∧
    runOnModule pointerTypeSize M n b c = Some (Modified st dds) ∧
    ∀ F B items l1 y l2 r, in_block st F B items → items = l1 ++ y :: l2 → r ∈ calls_in y → is_reporting r = true →
      ∃ i f id args, r = RuntimeCall f (AConst id :: args) ∧ is_access (Orig i) = true ∧
        reached n F ∧ i_id i ∉ touches M n b c functions rois ∧ ¬ bookkeeping M (nl_users n) (i_id i) ∧ resolves dds i id ∧
        ((y = Rt r ∧ ∃ k g, l1 = k ++ Orig i :: g ∧ Forall (λ z, plain z = true) g) ∨
         ((∃ k w, y = GuardBranch k w) ∧ ∃ g k, l2 = g ++ Orig i :: k ∧ Forall (λ z, plain z = true) g)).
Proof.
  intros Hflag Hpin. destruct program_expand as (rois & an & x & dds & log & Hrois & Had & Hrun & Hpp & Hlog & Eb & Hok).
  eexists rois, (an_accessFunctions an), _, dds. split; [done|]. split; [apply Had|]. split; [exact Hrun|].
  intros F B items l1 y l2 r Hb Eq Hr Hrep. apply in_block_map in Hb as (l & Hl & ->). rewrite <- Eb in Hl, Hlog, Hok.
  destruct (reporting_origin M x log F B l l1 y l2 r) as (i & e & f & args & Hi & Hmap & -> & Hpos); try done.
  { rewrite (pp_pin _ _ _ _ _ Hpp). destruct (ad_flags _ _ _ _ _ _ Had) as (_ & _ & _ & _ & ->). done. }
  rewrite Eb in Hl. pose proof (ad_input _ _ _ _ _ _ Had) as Hm. pose proof (in_base_inst M an F B _ i Hl Hi) as Hin.
  destruct (entry_of_map pointerTypeSize M n b c rois an x dds Had Hpp F i e Hin Hmap) as ((p & Hacc & _) & Hres).
  assert (is_access (Orig i) = true) as Ha by (unfold accessed in Hacc; simpl; by destruct (i_op i)).
  assert (to_report an (F, i)) as Hrep'.
  { destruct (pp_access _ _ _ _ _ Hpp _ _ Hmap) as (F' & i' & e0 & Hin' & E & _ & Hle & _).
    pose proof (same_inst M an Hm F i F' i' Hin Hin' E) as Ei. injection Ei as <- <-. destruct Hle as [?|?]; [left|right]; by eexists. }
  apply (to_report_iff rois) in Hrep' as (Hreach & Htouch & Hbook); [|done|done].
  exists i, f, (en_id (en_debug e)), args. split_and!; try done. by apply Hbook.
Qed.
End program.

(** ** An example: a region with two loads

    The load on line 5 is reported; that on line 6 reads something that does not
    change in the loop of the region and gets a guard; the identifier of the region
    is in the variable [1]. *)

Module Demo.
Definition nowhere (id : Z) (o : opcode) : inst := MkInst id o None NoDeclare.
Definition load4 : inst := MkInst 4 (LoadInst (GlobalVar 50)) (Visitor.Demo.loc 5 9) NoDeclare.
Definition load10 : inst := MkInst 10 (LoadInst (GlobalVar 51)) (Visitor.Demo.loc 6 9) NoDeclare.

Definition main : func := MkFunc "main" [MkBlock "entry"
  [nowhere 1 (AllocaInst (OtherTy 64 false));
   nowhere 2 (CallInst (Some MEMORYTOOL_START_TRACKING) []);
   nowhere 3 (StoreInst (Inst 2) (Inst 1) false 64 64);
   load4; load10;
   nowhere 5 (LoadInst (Inst 1));
   nowhere 6 (CallInst (Some MEMORYTOOL_CONTEXT) [Inst 5]);
   nowhere 7 (LoadInst (Inst 1));
   nowhere 8 (CallInst (Some MEMORYTOOL_STOP_TRACKING) [Inst 7]);
   nowhere 9 ReturnInst]] false true.

Definition M : modul := MkModule
  [main; ROIs.Demo.declare MEMORYTOOL_START_TRACKING; ROIs.Demo.declare MEMORYTOOL_STOP_TRACKING; ROIs.Demo.declare MEMORYTOOL_CONTEXT] [].

Definition users (v : value) : list Z :=
  match v with Inst 1 => [3; 5; 7] | Inst 2 => [3] | Inst 5 => [6] | Inst 7 => [8] | GlobalVar 50 => [4] | GlobalVar 51 => [10] | _ => [] end.

Definition callees : list string := [MEMORYTOOL_START_TRACKING; MEMORYTOOL_CONTEXT; MEMORYTOOL_STOP_TRACKING].

(** The loop around the loads; [51] does not change in it. *)
Definition around_loads : loop :=
  MkLoop [4; 10; 5; 6] 9 (λ v, bool_decide (v = Inst 10)) (λ _, false) None None (λ _, []) (λ _, []).

Definition n : noelle := MkNoelle users (λ l, reverse l) (λ l, reverse l)
  (λ F, if decide (F = "main") then callees else []) (λ F, if decide (F ∈ callees) then ["main"] else []) "main"
  elements String.ltb elements Z.ltb (λ _ _, true) (λ _ _, true) (λ _ _ _ _ _ _ _, Dfr (λ _, ∅) (λ _, ∅) (λ _, ∅))
  (λ _, None) (λ _, []) (λ _, []) (λ I, if decide (I = 2) then Some around_loads else None) (λ _, false) [] (λ _, 0)
  (λ v, match v with Inst 2 => Some MEMORYTOOL_START_TRACKING | Inst 6 => Some MEMORYTOOL_CONTEXT
    | Inst 8 => Some MEMORYTOOL_STOP_TRACKING | _ => None end) (λ _, false) (λ l, reverse l) (λ _, 32).

Definition b : build_options := MkBuild false false false false true true true true true.
Definition c : command_line := MkCommandLine false false false Pass.Demo.options.

Lemma four : four_disabled b.
Proof. by split. Qed.

Lemma ltb_total x y : String.ltb x y = false → String.ltb y x = false → x = y.
Proof.
  unfold String.ltb. rewrite (String.compare_antisym y x). destruct (String.compare x y) eqn:E; simpl; try done.
  intros _ _. by apply String.compare_eq_iff.
Qed.

Lemma n_ok : noelle_ok M n.
Proof.
  assert (∀ F G, edge (nl_outgoing n) F G ↔ F = "main" ∧ G ∈ callees) as Hedge.
  { intros F G. unfold edge. simpl. case_decide; [naive_solver|]. rewrite elem_of_nil. naive_solver. }
  split.
  - split; intros l; apply reverse_Permutation.
  - intros l. apply reverse_Permutation.
  - intros X I. apply elem_of_elements.
  - simpl. intros x y. rewrite !Z.ltb_ge. lia.
  - intros X F. apply elem_of_elements.
  - exact ltb_total.
  - intros F G. rewrite Hedge. simpl. case_decide; [rewrite list_elem_of_singleton; tauto|]. rewrite elem_of_nil. tauto.
  - intros F G [-> HG]%Hedge. split; [by left|]. right. apply list_elem_of_In in HG. apply list_elem_of_In. simpl in HG |- *. tauto.
  - done.
  - intros l I _ Hp. simpl in Hp. done.
Qed.

Lemma program_blocks f bl : f ∈ m_functions M → bl ∈ f_blocks f → f = main ∧ head (f_blocks f) = Some bl.
Proof.
  intros Hf Hb. apply list_elem_of_In in Hf. simpl in Hf. destruct Hf as [<-|[<-|[<-|[<-|[]]]]]; try (by apply elem_of_nil in Hb).
  by apply list_elem_of_singleton in Hb as ->.
Qed.

Lemma program_module : module_ok M.
Proof.
  split.
  - apply (bool_decide_unpack _). vm_compute. exact I.
  - intros f Hf. apply list_elem_of_In in Hf. simpl in Hf. destruct Hf as [<-|[<-|[<-|[<-|[]]]]]; by apply (bool_decide_unpack _).
  - apply (bool_decide_unpack _). vm_compute. exact I.
  - intros f bl Hf Hb. destruct (program_blocks f bl Hf Hb) as [-> [= <-]]. constructor. unfold b_insts.
    match goal with |- ∃ _ _ _, ?l = _ ∧ _ => exists [], (removelast l), (List.last l (nowhere 0 ReturnInst)) end.
    split; [done|]. split; [constructor|]. split; [repeat constructor|done].
  - intros f bl bs Hf Hbl. destruct (program_blocks f bl Hf) as [-> _]; [rewrite Hbl; by left|]. injection Hbl as <- <-. repeat constructor.
  - intros f i cc o nd u Hf Hi Hop. apply in_f_insts in Hi as (bl & Hb & Hi). destruct (program_blocks f bl Hf Hb) as [-> [= <-]].
    apply list_elem_of_In in Hi. simpl in Hi. repeat (destruct Hi as [<-|Hi]; [done|]). done.
  - intros f Hf. apply list_elem_of_In in Hf. simpl in Hf. by destruct Hf as [<-|[<-|[<-|[<-|[]]]]].
  - exists main. split; [by left|done].
Qed.

Lemma one_start F i : (F, i) ∈ all_insts M → is_start M i → i_id i = 2.
Proof.
  intros Hin. apply list_elem_of_In in Hin. unfold all_insts in Hin. simpl in Hin. unfold is_start.
  repeat (destruct Hin as [E|Hin]; [injection E as <- <-; by vm_compute|]). done.
Qed.

Lemma region_variable i : i_id i = 2 → through_variable M users i 3 (Inst 1).
Proof.
  intros Hi. split; rewrite ?Hi.
  - done.
  - by eexists _, _, _, _.
  - intros l p Hl Hop. apply list_elem_of_In in Hl. simpl in Hl. destruct Hl as [<-|[<-|[<-|[]]]]; [by vm_compute in Hop|..].
    + exists 6. split; [done|]. left. vm_compute. reflexivity.
    + exists 8. split; [done|]. right. vm_compute. reflexivity.
  - exists 7, (Inst 1), 8. split; [apply list_elem_of_In; simpl; tauto|]. split_and!; vm_compute; reflexivity.
Qed.

Lemma program : program_ok M n.
Proof.
  split.
  - apply program_module.
  - unfold all_insts. simpl. repeat constructor; simpl; try (by eexists); try lia; done.
  - unfold all_insts. simpl. repeat (constructor; [unfold recordable_inst, recordable, u32, STRING_SIZE; simpl; try lia; try done|]). constructor.
  - constructor.
  - intros Fi Hin. apply list_elem_of_In in Hin. unfold all_insts in Hin. simpl in Hin.
    repeat (destruct Hin as [<-|Hin]; [cbn; intros; first [by destruct H | by eexists]|]). done.
  - vm_compute. reflexivity.
  - vm_compute. reflexivity.
  - intros Fi Hin. apply list_elem_of_In in Hin. unfold all_insts in Hin. simpl in Hin.
    repeat (destruct Hin as [<-|Hin]; [cbn; intros; first [by destruct H | by eexists _, _, _]|]). done.
  - vm_compute. by eexists.
  - intros F i Hi Hs. exists 3, (Inst 1). apply region_variable. by eapply one_start.
Qed.

Lemma region : ∃ F i, (F, i) ∈ all_insts M ∧ is_start M i.
Proof.
  exists "main", (nowhere 2 (CallInst (Some MEMORYTOOL_START_TRACKING) [])).
  split; [apply list_elem_of_In; vm_compute; tauto|]. vm_compute. reflexivity.
Qed.

Lemma reached_main : reached n "main".
Proof. exists "main". split; [|constructor]. apply list_elem_of_In. vm_compute. tauto. Qed.

Lemma not_bookkeeping I : I ∉ [3; 5; 7] → ¬ bookkeeping M users I.
Proof.
  intros HI (F & i & store & a & Hin & Hs & [Huse (v & bb & s & r & Hst) _ _] & Hb). rewrite (one_start F i Hin Hs) in Huse.
  injection Huse as <-. vm_compute in Hst. injection Hst as _ <- _ _ _. destruct Hb as [->|[Hb _]]; [|done]. apply HI. by left.
Qed.

Lemma no_touches functions rois I : I ∉ touches M n b c functions rois.
Proof.
  unfold touches, getTouchSameObjectInsts. simpl. intros [H|H]%elem_of_union;
    apply elem_of_getInstsToSkip in H as (_ & v & _ & H); by apply elem_of_empty in H.
Qed.

(** Both loads are covered; only the first is reported right away, as access 1. *)
Lemma every_access_covered_witness :
  ∃ st dds, runOnModule 8 M n b c = Some (Modified st dds) ∧ Pass.Demo.reports_of_main st = [[1]] ∧
    ∀ items l1 i l2, in_block st "main" "entry" items → items = l1 ++ Orig i :: l2 → i = load4 ∨ i = load10 →
      (∃ id g rest, l2 = g ++ rest ∧ reports_access "main" i id g ∧ resolves dds i id) ∨
      (∃ l0 txt, l1 = l0 ++ txt ∧ Forall (λ z, plain z = true) txt ∧ guarded n "main" i dds txt).
Proof.
  destruct (every_access_covered 8 M n b c ltac:(done) n_ok program eq_refl eq_refl eq_refl region four)
    as (rois & functions & st & dds & _ & _ & Hrun & Hcov).
  exists st, dds. split; [exact Hrun|]. split.
  - set (f (o : outcome) := match o with Modified st _ => Pass.Demo.reports_of_main st | Unmodified => [] end).
    assert (f <$> Some (Modified st dds) = Some [[1]]) as H by (rewrite <- Hrun; vm_compute; reflexivity). injection H as H. exact H.
  - intros items l1 i l2 Hb Eq Hi. apply (Hcov "main" "entry" items); [done|done| |apply reached_main|apply no_touches|].
    + by destruct Hi as [->| ->].
    + apply not_bookkeeping. destruct Hi as [->| ->]; apply (bool_decide_unpack _); vm_compute; exact I.
Defined.

(** The calls that report the two loads, one of them in a guard, pass identifiers that
    find loads of the region. *)
Lemma nothing_else_reported_witness :
  ∃ st dds, runOnModule 8 M n b c = Some (Modified st dds) ∧
    ∀ items l1 y l2 r, in_block st "main" "entry" items → items = l1 ++ y :: l2 → r ∈ calls_in y → is_reporting r = true →
      ∃ i f id args, r = RuntimeCall f (AConst id :: args) ∧ ¬ bookkeeping M users (i_id i) ∧ resolves dds i id ∧
        ((∃ k g, l1 = k ++ Orig i :: g) ∨ (∃ k w, y = GuardBranch k w) ∧ ∃ g k, l2 = g ++ Orig i :: k).
Proof.
  destruct (nothing_else_reported 8 M n b c ltac:(done) n_ok program eq_refl eq_refl region eq_refl eq_refl)
    as (rois & functions & st & dds & _ & _ & Hrun & Hcov).
  exists st, dds. split; [exact Hrun|]. intros items l1 y l2 r Hb Eq Hr Hrep.
  destruct (Hcov "main" "entry" items l1 y l2 r Hb Eq Hr Hrep) as (i & f & id & args & Er & _ & _ & _ & Hbook & Hres & Hpos).
  exists i, f, id, args. split; [exact Er|]. split; [exact Hbook|]. split; [exact Hres|].
  destruct Hpos as [(_ & k & g & E & _)|(Hy & g & k & E & _)]; [left; by exists k, g|right; split; [exact Hy|by exists g, k]].
Defined.

(** Both calls are there. *)
Example reporting_calls :
  (o ← runOnModule 8 M n b c; match o with
    | Modified ((_, (_, items) :: _) :: _) _ => Some (filter (λ r, is_reporting r = true) (items ≫= calls_in))
    | _ => None end) =
  Some [RuntimeCall TEXAS_ADD_WITH_INFO_LOAD [AConst 1; APointerCast (GlobalVar 50); ACallstack "main"];
        RuntimeCall TEXAS_ADD_WITH_INFO_LOAD [AConst 2; APointerCast (GlobalVar 51); ACallstack "main"]].
Proof. vm_compute. reflexivity. Qed.
End Demo.
